(* ===== verification/_CoqProject ===== *)
-Q . S2P
Prelude.v
GoErrors.v
GoIO.v
GoNet.v
Packet.v
Options.v
Conn.v
ConnProps.v
IdleProps.v
Resume.v
ConnConc.v
ConnConcProps.v
ConnType.v
Server.v
ServerProps.v
EndToEnd.v
Dialogue.v
FakeRcon.v
World.v
Client.v
ClientProps.v
SessionProps.v
Talk.v
Recovery.v
Lifecycle.v
LifecycleProps.v
LifecycleLive.v
ServeConc.v
ServeConcProps.v
ServeLive.v
ServeAlone.v
BusyTalk.v
FakeLife.v
Cache.v
CacheProps.v
CacheConc.v
CacheConcProps.v
CacheLive.v
GoStrings.v
GoConv.v
Http.v
HttpProps.v
Gateway.v
GatewayTalk.v
Cli.v
CliProps.v
Main.v
MainProps.v
CliTalk.v
