(* ===== verification/Prelude.v ===== *)
(** * A verification of cbrgm/rcon

    The repository implements the Source RCON protocol: a core package with the
    wire format and a client connection ([src/rcon]), a client with retries and
    reconnecting sessions on top of it ([src/rconclient]), a server
    ([src/rconserver]), an HTTP gateway that runs commands over cached sessions
    ([src/rconhttp]), a command line ([src/cmd/rcon]) and a scripted server for
    tests ([src/internal/fakercon]). This library models each of them as
    executable definitions, translated function by function, and proves the
    properties that make them correct. Nothing is assumed: there are no axioms.

    ** How the code is modelled

    - Effects. [GoM S A] (file [GoIO]) is a computation on a state [S] that
      returns, blocks for ever ([Blocks]) or runs out of fuel ([Diverges]). Go's
      [(T, error)] results are [result T] and errors are the values of
      [GoErrors.error], with [errors.Is] and [errors.AsType] as functions.
    - Fuel. A loop that reads packets gets one unit more than the bytes its
      source can still deliver ([left_bytes]); every packet consumes at least 14
      bytes, so the fuel cannot run out. The theorems that say a call returns
      ([execute_deadline], [serve_conn_read_timeout], [client_execute_timeout],
      [session_execute_timeout], [gateway_close_releases], the conversations) exclude [Diverges] and
      [Blocks]; no theorem holds only because fuel ran out. A round trip that can
      be interrupted is a [Resume.prog], a tree of actions with the same fuel;
      [close_unblocks_execute] and [connection_progress] show that it neither runs
      out nor gets stuck. [cache_requests_answered], [closed_server_ends]
      and [closed_server_winds_down] are about every schedule: an inductive
      predicate whose derivations are finite, built from a measure of the steps the
      goroutines have left.
    - Sockets and time. [GoNet.netConn] is a socket with a clock, deadlines and a
      script of timed arrivals: segments of bytes cut in any way, the end of the
      stream, a fault. The peer takes what is written, or stops doing so after
      some bytes, for a time or for ever: a write then waits, until the write
      deadline if there is one. [GoNet.bufio] is [bufio.Reader] with its 4096-byte
      buffer. Times and durations are integers in nanoseconds.
    - Integers keep their width where the code depends on it: [int32] ids and
      packet fields, [uint32] sizes, the [int64] shift of the backoff.
    - Many connections. [World.World] adds a heap of sockets, the network's
      answers to dials and the shared clock; [World.Dialer],
      [World.TimelyDialer] and [World.ReturningDialer] are the interface between the
      client and whatever establishes connections, met by plain TCP.
    - Two programs at once. A conversation is one run of each side, each on the
      bytes the other wrote: [Dialogue.serving] is the server's end, on the bytes
      of the client's [transcript]; [delivered] and [in_time] say that what the
      server writes reaches the client, in any segments and before a deadline.
    - Concurrency. Four transition systems of goroutines: the server's lifecycle
      ([Lifecycle]) interleaves at every lock, atomic access, accept and close, and
      [ServeConc] runs [serveConn] in it, interleaved at every read, write and
      return of a handler, over the sockets [Close] and [Shutdown] close, with
      handlers that may never return and peers that may never read; a
      shared connection ([ConnConc]) at every lock, atomic access, read and write,
      with [Close] at any moment; the gateway's session cache ([CacheConc]) at its
      locks and at each use of a session, with the reaper and [Close].

    ** Files, in order

    - [Prelude], [GoErrors], [GoIO], [GoNet]: shared tactics and lemmas; the parts
      of Go's standard library the code uses.
    - [Packet] (rcon/packet.go), [Options] (rcon/options.go), [Conn] (rcon/conn.go,
      rcon/auth.go) with [ConnProps] and [IdleProps].
    - [Resume] (programs that stop before every action), [ConnConc] (rcon/conn.go
      again: the mutex of [Execute], [Close] beside it) with [ConnConcProps];
      [ConnType], what every connection satisfies for life.
    - [Server] (rconserver/auth.go, handler.go, response.go and [serveConn],
      [dispatch] of server.go) with [ServerProps]; [EndToEnd] runs the client
      against the server for one command, [Dialogue] for any number; [FakeRcon]
      (internal/fakercon/server.go) is a handler.
    - [World] ([rcon.Dial] and [net.Dialer]), [Client] (rconclient) with
      [ClientProps] and [SessionProps]; [Talk] (a client's and a session's side of a
      conversation), [Recovery] (a session whose server hangs up).
    - [Lifecycle] ([ListenAndServe], [Serve], [Close], [Shutdown], [trackConn],
      [trackListener] of rconserver/server.go) with [LifecycleProps] (what holds in
      every state) and [LifecycleLive] (what every schedule leads to); [ServeConc]
      (the same with [serveConn], [authenticate], [dispatch] and [writeResponse] as
      the connections' goroutines) with [ServeConcProps], [ServeLive] (every
      schedule), [ServeAlone] (connections do not disturb each other) and [BusyTalk]
      (a client's conversation with one connection of many); [FakeLife]
      ([Start], [Addr], [Close] of internal/fakercon/server.go) on top of it.
    - [Cache] (rconhttp/cache.go, one operation at a time) with [CacheProps];
      [CacheConc] (the same operations interleaved, with [startReaper]) with
      [CacheConcProps] and [CacheLive].
    - [GoStrings] (package strings), [GoConv] (package strconv); [Http]
      (rconhttp/backend.go, handler.go, request.go, response.go) with [HttpProps];
      [Gateway] (rconhttp/options.go and [New], [Close] of handler.go);
      [GatewayTalk], the gateway in front of a server.
    - [Cli] (cmd/rcon/config.go, run.go, repl.go and the second half of [run] in
      main.go) with [CliProps]; [Main] (the flag package as [run] uses it,
      [envFromOS], [defaultConfigPath] and the whole [run]) with [MainProps];
      [CliTalk], the command line against a server.

    ** What the theorems show

    - Codec: [ReadFrom] is the reference decoder on every stream however it is cut
      into reads, inverts [WriteTo], accepts only bounded packets, and refuses
      what it must.
    - Connection: [Execute] reassembles exactly the reply of its own request in
      each of the three read modes, never returns another command's packets, is
      bounded by its deadline in two of them (and not in the third), refuses bad
      commands before any I/O; request ids do not repeat; [open] decides as the
      protocol prescribes.
    - Shared connection: concurrent [Execute] calls behave as if made one after the
      other in the order they release the mutex; [Close] ends a round trip in
      flight, nothing is sent after it, and the mutex cannot deadlock; a call that
      was queued when the socket closed reports the socket's error; the connection
      stays well formed whatever the server sends and whenever it is interrupted.
    - Server: [serveConn] refines an abstract session protocol, runs no handler
      before a good password, closes what it serves, and with a read timeout ends
      within a bound given by the bytes it receives and the time of its handlers, if
      the peer reads (a run shows that it does not if the peer does not); responses
      of any length are split without loss.
    - End to end: what the server's handler wrote is what comes out at the other
      end, for any number of commands, outputs of any length and any segmentation:
      at the connection's [Execute] ([Dialogue]), as the body of an HTTP response
      ([GatewayTalk], with the reaper running), on the screen of the prompt and of a single command
      ([CliTalk]). A session whose server hangs up on a command reconnects and
      returns what the handler wrote the second time ([Recovery]).
    - Client: no connection leaks, the timeout bounds the whole call, the retry
      policy is the stated one (which errors are retried and how waits end are
      stated apart from the code), the backoff is within its cap; a session holds
      one connection, closes it before it reconnects, stays within the timeout and
      does not survive a failed reconnect.
    - Lifecycle: under every interleaving, accepted connections are never lost,
      nothing stays open after [Close] or [Shutdown], the lock cannot deadlock and
      [Shutdown] waits for the handlers that run when it counts them; under every
      schedule [Close] returns, [Shutdown] returns or waits for a handler, and after
      either every goroutine returns whose handler does; runs show a handler that
      [Shutdown] no longer waits for, and [Shutdown] reading the cancel function
      while [Serve] is about to write it.
    - Server as a whole: with [serveConn] running on every connection the lifecycle
      model is what the server does; only a client that logged in reaches the
      handler, a closed connection is never touched again, and after [Close] or
      [Shutdown] every socket is closed and every goroutine returns but those whose
      handler has not returned; no handler is assumed to return and no peer to read.
      A handler's call acts on a state all connections share when it returns;
      when it keeps none, each connection sends what [serveConn] alone would send,
      so that a client of a busy server gets exactly the handler's outputs.
    - Gateway: closing a handler closes every session it ever opened, whatever its
      options and requests; the reaper evicts exactly the sessions that have been
      idle too long; a 200 means the command ran on the token's backend,
      rejected requests touch no backend.
    - Session cache under concurrency: a command only runs on a session to its own
      address and password, one at a time; an undisturbed request is [execute];
      under every schedule every request is answered;
      when requests are answered within the idle timeout nothing stays open after
      [Close], and a run shows what the reaper leaves open when they are not.
    - Command line: flags printed and parsed again are the same, the environment's
      port is used as written, a run that ends leaves no connection open and exits
      with a documented code.

    ** What is not modelled

    Logging and the options that only set a logger; bytes of a write that waits
    for ever; panics
    of a custom [Authenticator]; the hooks [fakercon.Start] registers with a test;
    what Go's memory model allows after a data race, beyond the run that shows one.
    Uses of sessions take their time one after the other in [CacheConc]: the
    clock is shared, so waits of requests to different backends do not overlap.
    Arguments of the definitions
    that use them, because their code is not in the repository or only formats:
    JSON decoding, reading the configuration file, the environment and the home
    directory, the listener, HTTP framing, the usage text and the quoted form of a
    bad flag value. The example programs and deployment files are glue. *)

From stdpp Require Export base tactics list strings gmap option numbers.
From Stdlib Require Export ZArith Lia.
From Stdlib Require Export Strings.Byte.

(** ** Scope and tactics *)

Declare Scope rcon_scope.
Delimit Scope rcon_scope with rcon.

Create HintDb rcon.
Create Rewrite HintDb rcon.

(** Case analysis on the innermost [match]/[if] of the goal. *)
Ltac split_match :=
  match goal with
  | |- context [match ?x with _ => _ end] => destruct x eqn:?
  end.

(** The same in a hypothesis. *)
Ltac split_match_in H :=
  match type of H with
  | context [match ?x with _ => _ end] => destruct x eqn:?
  end.

(** Turn the boolean tests of the code into propositions. *)
Ltac reflect_bools :=
  repeat match goal with
  | H : (_ && _) = true |- _ => apply andb_true_iff in H; destruct H
  | H : (_ || _) = false |- _ => apply orb_false_iff in H; destruct H
  | H : negb _ = true |- _ => apply negb_true_iff in H
  | H : negb _ = false |- _ => apply negb_false_iff in H
  | H : bool_decide _ = true |- _ => apply bool_decide_eq_true in H
  | H : bool_decide _ = false |- _ => apply bool_decide_eq_false in H
  | H : (_ =? _)%Z = true |- _ => apply Z.eqb_eq in H
  | H : (_ =? _)%Z = false |- _ => apply Z.eqb_neq in H
  | H : (_ <? _)%Z = true |- _ => apply Z.ltb_lt in H
  | H : (_ <? _)%Z = false |- _ => apply Z.ltb_ge in H
  | H : (_ <=? _)%Z = true |- _ => apply Z.leb_le in H
  | H : (_ <=? _)%Z = false |- _ => apply Z.leb_gt in H
  end.

(** ** Machine integers: Go's fixed-width types as [Z] with their wrap-around *)

Definition uint32 (z : Z) : Z := (z mod 2 ^ 32)%Z.
Definition int32 (z : Z) : Z := ((z + 2 ^ 31) mod 2 ^ 32 - 2 ^ 31)%Z.
Definition int64 (z : Z) : Z := ((z + 2 ^ 63) mod 2 ^ 64 - 2 ^ 63)%Z.
Definition is_int32 (z : Z) : Prop := (- 2 ^ 31 <= z < 2 ^ 31)%Z.
Definition is_int64 (z : Z) : Prop := (- 2 ^ 63 <= z < 2 ^ 63)%Z.

Lemma int32_range z : is_int32 (int32 z).
Proof.
  unfold is_int32, int32. pose proof (Z.mod_pos_bound (z + 2 ^ 31) (2 ^ 32)). lia.
Qed.

Lemma int64_range z : is_int64 (int64 z).
Proof.
  unfold is_int64, int64. pose proof (Z.mod_pos_bound (z + 2 ^ 63) (2 ^ 64)). lia.
Qed.

Lemma int32_id z : is_int32 z → int32 z = z.
Proof. unfold is_int32, int32. intros H. rewrite Z.mod_small; lia. Qed.

Lemma int64_id z : is_int64 z → int64 z = z.
Proof. unfold is_int64, int64. intros H. rewrite Z.mod_small; lia. Qed.

(** [int32(uint32(x)) = x] for an [int32] [x]: the conversion the codec makes. *)
Lemma int32_uint32 z : is_int32 z → int32 (uint32 z) = z.
Proof.
  intros H. rewrite <- (int32_id z) at 2 by done. unfold int32, uint32.
  by rewrite Zplus_mod_idemp_l.
Qed.

Lemma uint32_small z : (0 <= z < 2 ^ 32)%Z → uint32 z = z.
Proof. apply Z.mod_small. Qed.

#[export] Hint Resolve int32_range int64_range : rcon.

(** ** Bytes *)

#[export] Instance byte_eq_dec : EqDecision byte := Byte.byte_eq_dec.

Definition byte_to_Z (b : byte) : Z := Z.of_N (Byte.to_N b).

(** Go's conversion [byte(v)]: the low eight bits. *)
Definition Z_to_byte (z : Z) : byte :=
  default x00 (Byte.of_N (Z.to_N (z mod 256))).

Lemma byte_to_Z_range b : (0 <= byte_to_Z b < 256)%Z.
Proof. unfold byte_to_Z. pose proof (Byte.to_N_bounded b). lia. Qed.

Lemma byte_to_Z_to_byte z : byte_to_Z (Z_to_byte z) = (z mod 256)%Z.
Proof.
  unfold Z_to_byte, byte_to_Z.
  pose proof (Z.mod_pos_bound z 256 ltac:(lia)).
  destruct (Byte.of_N (Z.to_N (z mod 256))) as [b|] eqn:E; simpl.
  - apply Byte.to_of_N in E. rewrite E. lia.
  - apply Byte.of_N_None_iff in E. lia.
Qed.

(** Or-ing a byte below a shifted value is addition. *)
Lemma lor_shiftl_8 a b : (0 <= a < 256 → Z.lor a (Z.shiftl b 8) = a + b * 256)%Z.
Proof.
  intros Ha.
  rewrite <- Z.lxor_lor, <- Z.add_nocarry_lxor.
  - rewrite Z.shiftl_mul_pow2 by lia. done.
  - apply Z.bits_inj'. intros n Hn. rewrite Z.land_spec, Z.bits_0.
    destruct (decide (n < 8)%Z).
    + rewrite Z.shiftl_spec_low by done. apply andb_false_r.
    + rewrite <- (Z.mod_small a (2 ^ 8)) by (simpl; lia).
      rewrite Z.mod_pow2_bits_high by lia. done.
  - apply Z.bits_inj'. intros n Hn. rewrite Z.land_spec, Z.bits_0.
    destruct (decide (n < 8)%Z).
    + rewrite Z.shiftl_spec_low by done. apply andb_false_r.
    + rewrite <- (Z.mod_small a (2 ^ 8)) by (simpl; lia).
      rewrite Z.mod_pow2_bits_high by lia. done.
Qed.

(** ** Strings and byte slices *)

(** Go's [[]byte(s)] and [string(bs)]; a Go string is a sequence of bytes. *)
Definition bytes_of (s : string) : list byte := String.list_byte_of_string s.
Definition string_of (bs : list byte) : string := String.string_of_list_byte bs.

Lemma string_of_bytes_of s : string_of (bytes_of s) = s.
Proof. apply String.string_of_list_byte_of_string. Qed.

Lemma bytes_of_string_of bs : bytes_of (string_of bs) = bs.
Proof. apply String.list_byte_of_string_of_list_byte. Qed.

Lemma string_of_app bs bs' :
  string_of (bs ++ bs') = String.append (string_of bs) (string_of bs').
Proof.
  induction bs as [|b bs IH]; [done|].
  unfold string_of, String.string_of_list_byte in *. simpl. rewrite IH. done.
Qed.

Lemma bytes_of_app s s' : bytes_of (String.append s s') = bytes_of s ++ bytes_of s'.
Proof.
  transitivity (bytes_of (String.append (string_of (bytes_of s)) (string_of (bytes_of s')))).
  - by rewrite !string_of_bytes_of.
  - by rewrite <- string_of_app, bytes_of_string_of.
Qed.

(** [len(s)] *)
Definition len (s : string) : nat := length (bytes_of s).

Lemma len_string_of bs : len (string_of bs) = length bs.
Proof. unfold len. by rewrite bytes_of_string_of. Qed.

Lemma len_app s s' : len (String.append s s') = len s + len s'.
Proof. unfold len. by rewrite bytes_of_app, length_app. Qed.

Lemma len_zero s : len s = 0 ↔ s = ""%string.
Proof.
  split; [|by intros ->]. unfold len. intros H%nil_length_inv.
  rewrite <- (string_of_bytes_of s), H. done.
Qed.

#[export] Hint Rewrite string_of_bytes_of bytes_of_string_of len_string_of len_app : rcon.

Lemma string_app_assoc (s1 s2 s3 : string) :
  String.append (String.append s1 s2) s3 = String.append s1 (String.append s2 s3).
Proof. induction s1 as [|a s1 IH]; [done|]. exact (f_equal (String a) IH). Qed.

Lemma string_app_nil_r (s : string) : String.append s "" = s.
Proof. induction s as [|a s IH]; [done|]. exact (f_equal (String a) IH). Qed.

(** A list that agrees with [base ++ new] on the positions of [base] extends it. *)
Lemma prefix_kept {A} (base new l : list A) :
  (∀ i, i < length base → l !! i = (base ++ new) !! i) → ∃ new', l = base ++ new'.
Proof.
  intros Hl. exists (drop (length base) l). rewrite <- (take_drop (length base) l) at 1. f_equal.
  apply list_eq. intros i. destruct (decide (i < length base)) as [Hi|Hi].
  - by rewrite lookup_take_lt, Hl, lookup_app_l.
  - rewrite lookup_take_ge, lookup_ge_None_2 by lia. done.
Qed.

(** ** Goroutines and what they have left to do *)

(** The sum of [f] over the goroutines of [m]. *)
Definition total {A} (f : A → nat) (m : gmap nat A) : nat := map_fold (λ _ p n, f p + n)%nat 0%nat m.

Lemma total_insert {A} (f : A → nat) t p m :
  m !! t = None → total f (<[t := p]> m) = (f p + total f m)%nat.
Proof. intros Ht. unfold total. rewrite map_fold_insert_L; [done|intros; lia|done]. Qed.

Lemma total_move {A} (f : A → nat) t p q m :
  m !! t = Some p → (total f (<[t := q]> m) + f p = total f m + f q)%nat.
Proof.
  intros Hp. rewrite <- (insert_delete_id m t p Hp) at 2. rewrite <- insert_delete_eq.
  rewrite !total_insert by apply lookup_delete_eq. lia.
Qed.

Lemma size_taken (e : nat) (todo : gset nat) : e ∈ todo → size todo = S (size (todo ∖ {[e]})).
Proof.
  intros He. rewrite (union_difference_singleton_L e todo He) at 1.
  rewrite size_union by set_solver. by rewrite size_singleton.
Qed.
