(* ===== verification/GoErrors.v ===== *)
(** * Go error values

    The error values the module's packages return, compare and classify:
    the sentinels of [rcon/errors.go], [rconserver], [rconhttp], the values of
    the standard library the code distinguishes, and wrapping
    ([net.OpError], [fmt.Errorf] with one or two [%w] verbs).
    [Is] is [errors.Is] and [AsNetError] is [errors.AsType[net.Error]]. *)

From S2P Require Import Prelude.

Inductive error :=
  (* rcon/errors.go *)
  | ErrResponseTooShort
  | ErrResponseTooLong
  | ErrAuthFailed
  | ErrInvalidAuthResponse
  | ErrClosed
  | ErrCommandEmpty
  | ErrCommandTooLong
  | ErrResponseMismatch
  (* rconserver *)
  | ErrServerClosed
  | errHandlerPanic
  | errNotAuth
  (* rconhttp *)
  | ErrUnauthorized
  | errMethodNotAllowed
  | errNoBackend
  | errNoCommand
  | errBadBody
  (* standard library *)
  | EOF
  | ErrUnexpectedEOF
  | ContextCanceled
  | ContextDeadlineExceeded
  | OsErrDeadlineExceeded        (* an expired read or write deadline *)
  | OsErrNotExist
  | FlagErrHelp
  | NetErrClosed                 (* use of a closed network connection *)
  | NetTimeout                   (* net's internal dial timeout *)
  | NetCanceled                  (* net's internal "operation was canceled" *)
  | MaxBytesError
  | OpError (timeout : bool) (inner : error)
  (* an errors.New value without a package-level name *)
  | ErrorString (msg : string)
  (* fmt.Errorf with one or two wrapped errors *)
  | Errorf1 (msg : string) (e : error)
  | Errorf2 (e1 e2 : error).

#[export] Instance error_eq_dec : EqDecision error.
Proof. solve_decision. Defined.

(** The [Is] methods of the standard library's own error types. *)
Definition is_method (e target : error) : bool :=
  match e, target with
  | NetTimeout, ContextDeadlineExceeded => true
  | NetCanceled, ContextCanceled => true
  | _, _ => false
  end.

(** [errors.Is(e, target)]: equality, the type's [Is] method, then the tree
    reached by [Unwrap]. *)
Fixpoint Is (e target : error) : bool :=
  bool_decide (e = target) || is_method e target ||
  match e with
  | OpError _ i => Is i target
  | Errorf1 _ i => Is i target
  | Errorf2 e1 e2 => Is e1 target || Is e2 target
  | _ => false
  end.

(** [errors.AsType[net.Error](e)], returning the value's [Timeout()]: the first
    error of the tree, in pre-order, that implements [net.Error]. *)
Fixpoint AsNetError (e : error) : option bool :=
  match e with
  | OpError t _ => Some t
  | OsErrDeadlineExceeded | ContextDeadlineExceeded | NetTimeout => Some true
  | NetErrClosed => Some false
  | Errorf1 _ i => AsNetError i
  | Errorf2 e1 e2 =>
      match AsNetError e1 with Some t => Some t | None => AsNetError e2 end
  | _ => None
  end.

(** [errors.AsType[*http.MaxBytesError](e)] *)
Fixpoint AsMaxBytesError (e : error) : bool :=
  match e with
  | MaxBytesError => true
  | OpError _ i => AsMaxBytesError i
  | Errorf1 _ i => AsMaxBytesError i
  | Errorf2 e1 e2 => AsMaxBytesError e1 || AsMaxBytesError e2
  | _ => false
  end.

Lemma Is_refl e : Is e e = true.
Proof. destruct e; cbn [Is]; by rewrite bool_decide_true. Qed.

(** A Go [(T, error)] return value: the code's functions return the zero value
    of [T] with a non-nil error. *)
Inductive result (A : Type) :=
  | Ok (a : A)
  | Err (e : error).
Arguments Ok {A} a.
Arguments Err {A} e.

#[export] Instance result_eq_dec {A} `{EqDecision A} : EqDecision (result A).
Proof. solve_decision. Defined.

Definition is_ok {A} (r : result A) : bool :=
  match r with Ok _ => true | Err _ => false end.

#[export] Hint Rewrite Is_refl : rcon.
