(* ===== verification/GoIO.v ===== *)
(** * Go's I/O interfaces

    [GoM S A]: a computation over a mutable state [S] that returns, blocks for
    ever (a read nobody answers and no deadline ends) or spins (the fuel of a
    loop ran out; ruled out by theorem for every loop of the development).
    [Reader] and [Writer] are [io.Reader] and [io.Writer]; [ReadFull] is
    [io.ReadFull]. [ReaderLaws] is what the code relies on of a reader, and
    [Stream] says which bytes a reader delivers before anything else happens,
    independently of how they are cut into reads. *)

From S2P Require Import Prelude GoErrors.

(** ** The monad *)

Inductive outcome (S A : Type) :=
  | Ret (a : A) (s : S)
  | Blocks (s : S)
  | Diverges.
Arguments Ret {S A} a s.
Arguments Blocks {S A} s.
Arguments Diverges {S A}.

Definition GoM (S A : Type) : Type := S → outcome S A.

Definition ret {S A} (a : A) : GoM S A := λ s, Ret a s.

Definition bind {S A B} (m : GoM S A) (k : A → GoM S B) : GoM S B := λ s,
  match m s with
  | Ret a s' => k a s'
  | Blocks s' => Blocks s'
  | Diverges => Diverges
  end.

Definition gets {S A} (f : S → A) : GoM S A := λ s, Ret (f s) s.
Definition modify {S} (f : S → S) : GoM S unit := λ s, Ret tt (f s).

(** Run a computation on a component of the state. *)
Definition zoom {S T A} (get : S → T) (set : T → S → S) (m : GoM T A) : GoM S A := λ s,
  match m (get s) with
  | Ret a t => Ret a (set t s)
  | Blocks t => Blocks (set t s)
  | Diverges => Diverges
  end.

Notation "'do' x <- m ; k" := (bind m (λ x, k))
  (at level 10, x pattern, m at level 100, k at level 200) : rcon_scope.
(** [x, err := m; if err != nil { return err }] *)
Notation "'try' x <- m ; k" :=
  (bind m (λ r, match r with Ok x => k | Err e => ret (Err e) end))
  (at level 10, x pattern, m at level 100, k at level 200) : rcon_scope.
Open Scope rcon_scope.

(** The final state of a computation, when it has one. *)
Definition final {S A} (o : outcome S A) : option S :=
  match o with Ret _ s => Some s | Blocks s => Some s | Diverges => None end.

Lemma bind_Ret {S A B} (m : GoM S A) (k : A → GoM S B) s a s' :
  m s = Ret a s' → bind m k s = k a s'.
Proof. unfold bind. by intros ->. Qed.

Lemma bind_inv {S A B} (m : GoM S A) (k : A → GoM S B) s b s' :
  bind m k s = Ret b s' → ∃ a s1, m s = Ret a s1 ∧ k a s1 = Ret b s'.
Proof. unfold bind. destruct (m s); naive_solver. Qed.

Lemma zoom_Ret {S T A} (get : S → T) set (m : GoM T A) s a t :
  m (get s) = Ret a t → zoom get set m s = Ret a (set t s).
Proof. unfold zoom. by intros ->. Qed.

Lemma zoom_inv {S T A} (get : S → T) set (m : GoM T A) s a s' :
  zoom get set m s = Ret a s' → ∃ t, m (get s) = Ret a t ∧ s' = set t s.
Proof. unfold zoom. destruct (m (get s)); naive_solver. Qed.

(** ** Invariants of a computation *)

(** [P] holds of the state at the end, whether the computation returned or is
    blocked. *)
Definition keeps {S A} (P : S → Prop) (m : GoM S A) : Prop :=
  ∀ s, P s → match m s with Ret _ s' | Blocks s' => P s' | Diverges => True end.

Lemma keeps_ret {S A} (P : S → Prop) (a : A) : keeps P (ret a).
Proof. by intros s Hs. Qed.

Lemma keeps_gets {S A} (P : S → Prop) (f : S → A) : keeps P (gets f).
Proof. by intros s Hs. Qed.

Lemma keeps_bind {S A B} (P : S → Prop) (m : GoM S A) (k : A → GoM S B) :
  keeps P m → (∀ a, keeps P (k a)) → keeps P (bind m k).
Proof.
  intros Hm Hk s Hs. unfold bind. specialize (Hm s Hs).
  destruct (m s); [by apply Hk|done..].
Qed.

Lemma keeps_final {S A} (P : S → Prop) (m : GoM S A) s s' :
  keeps P m → P s → final (m s) = Some s' → P s'.
Proof. intros Hm Hs. specialize (Hm s Hs). destruct (m s); simpl; congruence. Qed.

#[export] Hint Resolve keeps_ret keeps_gets : rcon.

(** Decompose a computation into its reads, writes and state changes. *)
Ltac keeps_tac :=
  repeat first
    [ solve [eauto with rcon]
    | match goal with
      | |- ∀ _, _ => intros ?
      | |- keeps _ (bind _ _) => apply keeps_bind
      | |- keeps _ (match _ with _ => _ end) => case_match
      | |- keeps _ (let _ := _ in _) => cbv zeta
      end ].

(** ** Interfaces *)

Class Reader (S : Type) := Read : nat → GoM S (list byte * option error).
Class Writer (S : Type) := Write : list byte → GoM S (nat * option error).

(** What [io.ReadFull] and the packet loops rely on: a read returns at most
    what was asked for, makes progress unless it fails, and the bytes a finite
    source still holds decrease by what was returned. *)
Class ReaderLaws (S : Type) `{Reader S} := {
  left_bytes : S → nat;
  Read_len n s bs e s' : Read n s = Ret (bs, e) s' → length bs ≤ n;
  Read_progress n s bs s' : 0 < n → Read n s = Ret (bs, None) s' → bs ≠ [];
  Read_left n s bs e s' :
    Read n s = Ret (bs, e) s' → left_bytes s = length bs + left_bytes s';
  Read_converges n s : Read n s ≠ Diverges
}.

(** The bytes a reader delivers before it fails, blocks or times out, and the
    part of its state that reading those bytes leaves alone. *)
Class Stream (S : Type) `{Reader S} := {
  frame_type : Type;
  frame : S → frame_type;
  pending : S → list byte;
  Read_pending n s :
    0 < n → pending s ≠ [] →
    ∃ bs s', Read n s = Ret (bs, None) s' ∧ bs ≠ [] ∧ length bs ≤ n ∧
             pending s = bs ++ pending s' ∧ frame s' = frame s
}.

(** ** io.ReadFull *)

Section ReadFull.
Context {S : Type} `{Reader S}.

(** The loop of [io.ReadAtLeast]: read until [need] bytes arrived or the reader
    failed. *)
Fixpoint read_loop (fuel need : nat) (acc : list byte) : GoM S (list byte * option error) :=
  if decide (need = 0) then ret (acc, None) else
  match fuel with
  | 0 => λ _, Diverges
  | Datatypes.S fuel' =>
      do (bs, e) <- Read need;
      match e with
      | None => read_loop fuel' (need - length bs) (acc ++ bs)
      | Some e => ret (acc ++ bs, Some e)
      end
  end.

(** [io.ReadFull(r, buf)] with [len(buf) = n]: the bytes read and the error. *)
Definition ReadFull (n : nat) : GoM S (list byte * option error) :=
  do (bs, e) <- read_loop n n [];
  if decide (n <= length bs) then ret (bs, None) else
  match e with
  | Some EOF => ret (bs, Some (if decide (bs = []) then EOF else ErrUnexpectedEOF))
  | e => ret (bs, e)
  end.

Lemma keeps_ReadFull (P : S → Prop) n : (∀ k, keeps P (Read k)) → keeps P (ReadFull n).
Proof.
  intros HR. unfold ReadFull. apply keeps_bind.
  - generalize (@nil byte) as acc, n at 2 as need.
    induction n as [|fuel IH]; intros acc need; simpl; case_decide; keeps_tac; done.
  - intros [bs e]. keeps_tac.
Qed.

(** *** Every reader that keeps its laws *)

Section Laws.
Context `{!ReaderLaws S}.

Lemma read_loop_inv fuel need acc s bs e s' :
  read_loop fuel need acc s = Ret (bs, e) s' →
  ∃ ds, bs = acc ++ ds ∧ length ds ≤ need ∧ left_bytes s = length ds + left_bytes s' ∧
        (e = None → length ds = need).
Proof.
  revert need acc s. induction fuel as [|fuel IH]; intros need acc s; simpl.
  - case_decide as Hn; [|done]. intros [= <- <- <-].
    exists []. rewrite app_nil_r. simpl. repeat split; lia.
  - case_decide as Hn.
    { intros [= <- <- <-]. exists []. rewrite app_nil_r. simpl. repeat split; lia. }
    intros ([ds [e'|]] & s1 & HR & Hk)%bind_inv; pose proof (Read_len _ _ _ _ _ HR);
      pose proof (Read_left _ _ _ _ _ HR).
    + injection Hk as <- <- <-. exists ds. repeat split; [lia..|done].
    + destruct (IH _ _ _ Hk) as (ds' & -> & ? & ? & He).
      exists (ds ++ ds'). rewrite app_assoc, length_app.
      repeat split; [lia..|]. intros He'. specialize (He He'). lia.
Qed.

Lemma read_loop_converges fuel need acc s :
  need ≤ fuel → read_loop fuel need acc s ≠ Diverges.
Proof.
  revert need acc s. induction fuel as [|fuel IH]; intros need acc s Hf; simpl.
  - case_decide; [done|lia].
  - case_decide; [done|]. unfold bind.
    destruct (Read need s) as [[ds [e'|]] s1| |] eqn:HR; [done| |done|by apply Read_converges in HR].
    apply IH. pose proof (Read_progress need s ds s1 ltac:(lia) HR).
    destruct ds; [done|]. simpl. lia.
Qed.

Lemma ReadFull_inv n s bs e s' :
  ReadFull n s = Ret (bs, e) s' →
  length bs ≤ n ∧ left_bytes s = length bs + left_bytes s' ∧ (e = None ↔ length bs = n).
Proof.
  intros ([ds e1] & s1 & HL & Hk)%bind_inv.
  apply read_loop_inv in HL as (ds' & -> & ? & ? & He). simpl in *.
  case_decide; [|destruct e1 as [[]|]]; injection Hk as <- <- <-;
    (repeat split; [lia..| |]); try done; try lia.
Qed.

Lemma ReadFull_converges n s : ReadFull n s ≠ Diverges.
Proof.
  unfold ReadFull, bind.
  destruct (read_loop n n [] s) as [[bs e] s1| |] eqn:HL;
    [|done|by apply read_loop_converges in HL].
  repeat split_match; done.
Qed.

(** A predicate that keeps reads from blocking keeps [ReadFull] from blocking. *)
Lemma ReadFull_live (P : S → Prop) n s :
  (∀ k s, P s → ∃ a s', Read k s = Ret a s' ∧ P s') →
  P s → ∃ a s', ReadFull n s = Ret a s' ∧ P s'.
Proof.
  intros HP Hs.
  assert (∀ fuel need acc s, need ≤ fuel → P s →
    ∃ a s', read_loop fuel need acc s = Ret a s' ∧ P s') as Hloop.
  { clear n s Hs. induction fuel as [|fuel IH]; intros need acc s Hf Hs; simpl.
    - case_decide; [eexists _, _; done|lia].
    - case_decide; [eexists _, _; done|].
      destruct (HP need s Hs) as ([ds [e|]] & s1 & HR & Hs1);
        rewrite (bind_Ret _ _ _ _ _ HR); [eexists _, _; done|].
      apply IH; [|done].
      pose proof (Read_progress need s ds s1 ltac:(lia) HR). destruct ds; [done|]. simpl. lia. }
  destruct (Hloop n n [] s) as ([bs e] & s1 & HL & Hs1); [done..|].
  unfold ReadFull. rewrite (bind_Ret _ _ _ _ _ HL).
  repeat split_match; eexists _, _; done.
Qed.
End Laws.

(** *** Readers with pending bytes *)

Section Pending.
Context `{!Stream S}.

Lemma read_loop_pending fuel need acc s :
  need ≤ fuel → need ≤ length (pending s) →
  ∃ s', read_loop fuel need acc s = Ret (acc ++ take need (pending s), None) s' ∧
        pending s' = drop need (pending s) ∧ frame s' = frame s.
Proof.
  revert need acc s. induction fuel as [|fuel IH]; intros need acc s Hf Hp; simpl.
  { case_decide; [subst|lia]. exists s. rewrite take_0, app_nil_r. done. }
  case_decide; [subst; exists s; rewrite take_0, app_nil_r; done|].
  destruct (Read_pending need s) as (bs & s1 & HR & Hbs & Hle & Hs & Hfr);
    [lia|by destruct (pending s); simpl in *; [lia|]|].
  rewrite (bind_Ret _ _ _ _ _ HR).
  assert (0 < length bs) by (destruct bs; [done|simpl; lia]).
  rewrite Hs, length_app in Hp.
  destruct (IH (need - length bs) (acc ++ bs) s1) as (s2 & HL & Hp2 & Hf2); [lia..|].
  exists s2. rewrite HL, Hp2, Hf2, Hs.
  rewrite take_app_ge, drop_app_ge by lia. by rewrite app_assoc.
Qed.

Lemma ReadFull_pending n s :
  n ≤ length (pending s) →
  ∃ s', ReadFull n s = Ret (take n (pending s), None) s' ∧
        pending s' = drop n (pending s) ∧ frame s' = frame s.
Proof.
  intros Hn. destruct (read_loop_pending n n [] s) as (s' & HL & Hp & Hf); [done..|].
  exists s'. split; [|done]. unfold ReadFull. rewrite (bind_Ret _ _ _ _ _ HL). simpl.
  rewrite decide_True; [done|]. rewrite length_take. lia.
Qed.

(** The reader runs dry before [n] bytes: [ReadFull] returns what there was and
    the reader's error, [io.EOF] in the middle becoming [io.ErrUnexpectedEOF]. *)
Lemma ReadFull_short n s e (P : S → Prop) :
  length (pending s) < n →
  (∀ k s', 0 < k → pending s' = [] → frame s' = frame s →
     ∃ s'', Read k s' = Ret ([], Some e) s'' ∧ P s'') →
  ∃ s', ReadFull n s =
    Ret (pending s, Some (if decide (e = EOF ∧ pending s ≠ []) then ErrUnexpectedEOF else e)) s' ∧
    P s'.
Proof.
  intros Hn Hdry.
  assert (∀ fuel need acc s1, need ≤ fuel → length (pending s1) < need → frame s1 = frame s →
    ∃ s', read_loop fuel need acc s1 = Ret (acc ++ pending s1, Some e) s' ∧ P s') as Hloop.
  { induction fuel as [|fuel IH]; intros need acc s1 Hf Hp Hfr; [lia|]. simpl.
    rewrite decide_False by lia.
    destruct (decide (pending s1 = [])) as [E|E].
    - destruct (Hdry need s1) as (s2 & HR & HP); [lia|done..|].
      exists s2. rewrite (bind_Ret _ _ _ _ _ HR), E. done.
    - destruct (Read_pending need s1) as (bs & s2 & HR & Hbs & Hle & Hs & Hfr2); [lia|done|].
      rewrite (bind_Ret _ _ _ _ _ HR).
      assert (0 < length bs) by (destruct bs; [done|simpl; lia]).
      rewrite Hs, length_app in Hp.
      destruct (IH (need - length bs) (acc ++ bs) s2) as (s3 & HL & HP); [lia|lia|congruence|].
      exists s3. rewrite HL, Hs, app_assoc. done. }
  destruct (Hloop n n [] s) as (s' & HL & HP); [done..|].
  exists s'. split; [|done]. unfold ReadFull. rewrite (bind_Ret _ _ _ _ _ HL). simpl.
  rewrite decide_False by lia. unfold ret.
  destruct e; try (rewrite decide_False by (intros [? ?]; discriminate); done).
  repeat case_decide; done || tauto.
Qed.
End Pending.
End ReadFull.

(** ** In-memory readers and writers *)

(** [bytes.Reader]: the unread bytes; [io.EOF] when there are none. *)
Record bytesReader := mkBytesReader { br_rest : list byte }.

#[export] Instance bytesReader_Reader : Reader bytesReader := λ n r,
  match br_rest r with
  | [] => Ret ([], Some EOF) r
  | bs => Ret (take n bs, None) (mkBytesReader (drop n bs))
  end.

#[export] Program Instance bytesReader_Stream : Stream bytesReader := {|
  frame _ := tt;
  pending := br_rest
|}.
Next Obligation.
  intros n [[|b bs]] Hn Hp; [done|]. destruct n as [|n]; [lia|].
  eexists _, _. split_and!; [done|done| |by simpl; rewrite take_drop|done].
  simpl. rewrite length_take. lia.
Qed.

(** [bytes.Buffer] as a writer. *)
#[export] Instance bytesBuffer_Writer : Writer (list byte) := λ bs buf,
  Ret (length bs, None) (buf ++ bs).

#[export] Hint Resolve keeps_ReadFull : rcon.
