(* ===== verification/GoNet.v ===== *)
(** * The transport: [net.Conn] and [bufio.Reader]

    [netConn] is one end of a TCP connection with an explicit clock. What the
    peer sends is a script of timed arrivals: a segment of bytes, the end of the
    stream or a fault. A read returns bytes of the next arrived segment, or the
    error at its head, or a timeout once the read deadline passes; with neither
    it blocks. Times and durations are nanoseconds. Writes go to an output log.
    The peer takes them at once, or up to a number of bytes ([nc_wfail]): after
    those a write fails, or waits because the peer has stopped reading and the
    window is full. The peer may start to read again at some time or never; a
    waiting write ends with a timeout at the write deadline, and without a
    deadline it blocks for as long as the peer does not read. The bytes of a write
    are logged when the write ends.

    [bufio R] is [bufio.Reader] over a reader [R], with its 4096-byte buffer. *)

From S2P Require Import Prelude GoErrors GoIO.

(** ** net.Conn *)

Inductive arrival :=
  | Seg (bs : list byte)
  | Fin
  | Fault (e : error).

(** What stops the writes: an error of the connection, or a peer that does not
    read until some time, or ever. *)
Inductive wfault :=
  | WErr (e : error)
  | WStall (until : option Z).

Record netConn := mkNetConn {
  nc_in : list (Z * arrival);
  nc_out : list byte;
  nc_wfail : option (nat * wfault);
  nc_rdeadline : option Z;
  nc_wdeadline : option Z;
  nc_closed : bool;
  nc_now : Z;
  nc_remote : string;
  nc_local : string
}.

Definition set_in (l : list (Z * arrival)) (now : Z) (c : netConn) : netConn :=
  mkNetConn l (nc_out c) (nc_wfail c) (nc_rdeadline c) (nc_wdeadline c) (nc_closed c) now (nc_remote c) (nc_local c).
Definition set_out (bs : list byte) (wf : option (nat * wfault)) (c : netConn) : netConn :=
  mkNetConn (nc_in c) bs wf (nc_rdeadline c) (nc_wdeadline c) (nc_closed c) (nc_now c) (nc_remote c) (nc_local c).
Definition set_deadlines (rd wd : option Z) (c : netConn) : netConn :=
  mkNetConn (nc_in c) (nc_out c) (nc_wfail c) rd wd (nc_closed c) (nc_now c) (nc_remote c) (nc_local c).
Definition set_sock_closed (c : netConn) : netConn :=
  mkNetConn (nc_in c) (nc_out c) (nc_wfail c) (nc_rdeadline c) (nc_wdeadline c) true (nc_now c) (nc_remote c) (nc_local c).
Definition set_now (t : Z) (c : netConn) : netConn := set_in (nc_in c) t c.

(** A fresh connection on which the peer's arrivals are [l]. *)
Definition new_netConn (l : list (Z * arrival)) (now : Z) : netConn :=
  mkNetConn l [] None None None false now "" "".

(** [t] is before the deadline [dl] (none: no deadline). *)
Definition before (t : Z) (dl : option Z) : bool :=
  match dl with None => true | Some d => (t <? d)%Z end.

Definition errTimeout : error := OpError true OsErrDeadlineExceeded.
Definition errUseOfClosed : error := OpError false NetErrClosed.

(** The bytes and error of one receive, and the remaining script and clock. *)
Fixpoint recv (n : nat) (now : Z) (dl : option Z) (l : list (Z * arrival)) :
    option (list byte * option error * list (Z * arrival) * Z) :=
  match l with
  | [] =>
      match dl with
      | None => None
      | Some d => Some ([], Some errTimeout, [], Z.max now d)
      end
  | (t, Seg []) :: l' => recv n now dl l'
  | (t, a) :: l' =>
      if before (Z.max now t) dl then
        match a with
        | Seg bs =>
            Some (take n bs, None,
                  match drop n bs with [] => l' | bs' => (t, Seg bs') :: l' end,
                  Z.max now t)
        | Fin => Some ([], Some EOF, l, Z.max now t)
        | Fault e => Some ([], Some e, l, Z.max now t)
        end
      else Some ([], Some errTimeout, l, Z.max now (default now dl))
  end.

#[export] Instance netConn_Reader : Reader netConn := λ n c,
  if decide (n = 0) then Ret ([], None) c
  else if nc_closed c then Ret ([], Some errUseOfClosed) c
  else if negb (before (nc_now c) (nc_rdeadline c)) then Ret ([], Some errTimeout) c
  else match recv n (nc_now c) (nc_rdeadline c) (nc_in c) with
       | Some (bs, e, l, now) => Ret (bs, e) (set_in l now c)
       | None => Blocks c
       end.

(** A write of [bs] of which the peer takes only the first [k] bytes. *)
Definition stalled_write (k : nat) (f : wfault) (bs : list byte) :
    GoM netConn (nat * option error) := λ c,
  let part := set_out (nc_out c ++ take k bs) (Some (0, f)) c in
  match f with
  | WErr e => Ret (k, Some e) part
  | WStall until =>
      match until, nc_wdeadline c with
      | Some t, dl =>
          if before (Z.max (nc_now c) t) dl
          then Ret (length bs, None) (set_now (Z.max (nc_now c) t) (set_out (nc_out c ++ bs) None c))
          else Ret (k, Some errTimeout) (set_now (Z.max (nc_now c) (default (nc_now c) dl)) part)
      | None, Some d => Ret (k, Some errTimeout) (set_now (Z.max (nc_now c) d) part)
      | None, None => Blocks c
      end
  end.

#[export] Instance netConn_Writer : Writer netConn := λ bs c,
  if nc_closed c then Ret (0, Some errUseOfClosed) c
  else if negb (before (nc_now c) (nc_wdeadline c)) then Ret (0, Some errTimeout) c
  else match nc_wfail c with
       | Some (k, f) =>
           if decide (length bs ≤ k)
           then Ret (length bs, None) (set_out (nc_out c ++ bs) (Some (k - length bs, f)) c)
           else stalled_write k f bs c
       | None => Ret (length bs, None) (set_out (nc_out c ++ bs) None c)
       end.

Definition SetDeadline (d : option Z) : GoM netConn (result unit) := λ c,
  if nc_closed c then Ret (Err errUseOfClosed) c
  else Ret (Ok tt) (set_deadlines d d c).

Definition SetReadDeadline (d : option Z) : GoM netConn (result unit) := λ c,
  if nc_closed c then Ret (Err errUseOfClosed) c
  else Ret (Ok tt) (set_deadlines d (nc_wdeadline c) c).

Definition CloseConn : GoM netConn (result unit) := λ c,
  if nc_closed c then Ret (Err errUseOfClosed) c
  else Ret (Ok tt) (set_sock_closed c).

(** *** Reader laws *)

Definition script_bytes (l : list (Z * arrival)) : nat :=
  sum_list ((λ x, match x.2 with Seg bs => length bs | _ => 0 end) <$> l).

Lemma script_bytes_cons t a l :
  script_bytes ((t, a) :: l) = match a with Seg bs => length bs | _ => 0 end + script_bytes l.
Proof. done. Qed.

Lemma recv_inv n now dl l bs e l' now' :
  recv n now dl l = Some (bs, e, l', now') → 0 < n →
  length bs ≤ n ∧ (e = None → bs ≠ []) ∧
  script_bytes l = length bs + script_bytes l' ∧
  (now ≤ now' ∧ (before now dl = true → ∀ d, dl = Some d → now' ≤ d))%Z.
Proof.
  intros HR Hn. revert HR.
  induction l as [|[t a] l IH]; simpl.
  { destruct dl as [d|]; [|done]. intros [= <- <- <- <-]. simpl.
    repeat split; try done; try lia. intros H ? [= <-]. reflect_bools. lia. }
  assert (∀ a', (if before (Z.max now t) dl then Some ([], Some a', (t, a) :: l, Z.max now t)
     else Some ([], Some errTimeout, (t, a) :: l, Z.max now (default now dl))) =
     Some (bs, e, l', now') →
    length bs ≤ n ∧ (e = None → bs ≠ []) ∧
    script_bytes ((t, a) :: l) = length bs + script_bytes l' ∧
    (now ≤ now' ∧ (before now dl = true → ∀ d, dl = Some d → now' ≤ d))%Z) as Herr.
  { intros e'. destruct (before (Z.max now t) dl) eqn:Hb; intros [= <- <- <- <-];
      simpl; repeat split; try done; try lia;
      intros H d ->; simpl in *; reflect_bools; lia. }
  destruct a as [[|b bs0]| |e0]; [apply IH| |apply Herr|apply Herr].
  destruct (before (Z.max now t) dl) eqn:Hb.
  - intros [= <- <- <- <-]. destruct n as [|n]; [lia|]. simpl. rewrite length_take.
    split_and!; [lia|done| |lia|].
    + destruct (drop n bs0) as [|b' bs'] eqn:Hd; apply (f_equal length) in Hd;
        rewrite length_drop in Hd; rewrite ?script_bytes_cons; simpl in *; lia.
    + intros H d ->. simpl in *. reflect_bools. lia.
  - exact (Herr EOF).
Qed.

(** All the bytes of a script. *)
Definition sent_bytes (l : list (Z * arrival)) : list byte :=
  concat ((λ x, match x.2 with Seg bs => bs | _ => [] end) <$> l).

Lemma recv_sent n now dl l bs e l' now' :
  recv n now dl l = Some (bs, e, l', now') → sent_bytes l = bs ++ sent_bytes l'.
Proof.
  induction l as [|[t a] l IH]; simpl; [destruct dl; by intros [= <- _ <- _]|].
  destruct a as [[|b bs0]| |e0]; [exact IH|..]; case_match; intros [= <- _ <- _]; try done.
  rewrite <- (take_drop n (b :: bs0)) at 1. unfold sent_bytes. simpl fmap. simpl concat. rewrite <- app_assoc. f_equal.
  by destruct (drop n (b :: bs0)).
Qed.

(** Only a read without a deadline waits for ever. *)
Lemma recv_None n now dl l : recv n now dl l = None → dl = None.
Proof.
  destruct dl as [d|]; [|done].
  induction l as [|[t [[|b bs]| |e]] l IH]; simpl; repeat case_match; naive_solver.
Qed.

#[export] Program Instance netConn_ReaderLaws : ReaderLaws netConn := {|
  left_bytes c := script_bytes (nc_in c)
|}.
Next Obligation.
  intros n c bs e c'. unfold Read, netConn_Reader.
  repeat case_match; intros HR; simplify_eq; simpl; try lia.
  eapply recv_inv; [done|lia].
Qed.
Next Obligation.
  intros n c bs c' Hn. unfold Read, netConn_Reader.
  repeat case_match; intros HR; simplify_eq; try lia.
  by eapply recv_inv.
Qed.
Next Obligation.
  intros n c bs e c'. unfold Read, netConn_Reader.
  repeat case_match; intros HR; simplify_eq; simpl; try lia.
  eapply recv_inv; [done|lia].
Qed.
Next Obligation.
  intros n c. unfold Read, netConn_Reader. repeat case_match; done.
Qed.

(** With a read deadline a read returns, no later than the deadline (or at once
    when the deadline has passed). *)
Lemma Read_deadline n c d :
  nc_rdeadline c = Some d →
  ∃ a c', Read n c = Ret a c' ∧ nc_rdeadline c' = Some d ∧ nc_wdeadline c' = nc_wdeadline c ∧
          (nc_now c ≤ nc_now c' ≤ Z.max (nc_now c) d)%Z.
Proof.
  intros Hd. unfold Read, netConn_Reader.
  case_decide; [eexists _, _; repeat split; [done..|lia]|].
  destruct (nc_closed c); [eexists _, _; repeat split; [done..|lia]|].
  rewrite Hd. destruct (before (nc_now c) (Some d)) eqn:Hb; simpl;
    [|eexists _, _; repeat split; [done..|lia]].
  destruct (recv n (nc_now c) (Some d) (nc_in c)) as [[[[bs e] l] now]|] eqn:HR.
  - destruct (recv_inv _ _ _ _ _ _ _ _ HR) as (_ & _ & _ & ? & Hn); [lia|].
    specialize (Hn Hb d eq_refl).
    eexists _, _; repeat split; [done|simpl; lia..].
  - by apply recv_None in HR.
Qed.

(** *** The bytes that arrive before the read deadline *)

Fixpoint arriving (dl : option Z) (l : list (Z * arrival)) : list byte :=
  match l with
  | (t, Seg []) :: l' => arriving dl l'
  | (t, Seg bs) :: l' => if before t dl then bs ++ arriving dl l' else []
  | _ => []
  end.

(** The script after those bytes. *)
Fixpoint script_tail (dl : option Z) (l : list (Z * arrival)) : list (Z * arrival) :=
  match l with
  | (t, Seg []) :: l' => script_tail dl l'
  | (t, Seg _) :: l' => if before t dl then script_tail dl l' else l
  | _ => l
  end.

Definition nc_pending (c : netConn) : list byte :=
  if nc_closed c || negb (before (nc_now c) (nc_rdeadline c)) then []
  else arriving (nc_rdeadline c) (nc_in c).

(** What reading the pending bytes leaves alone. *)
Definition nc_frame (c : netConn) : netConn * bool :=
  (set_in (script_tail (nc_rdeadline c) (nc_in c)) 0 c, before (nc_now c) (nc_rdeadline c)).

Lemma before_max a b dl : before (Z.max a b) dl = before a dl && before b dl.
Proof.
  destruct dl as [d|]; simpl; [|done].
  destruct (Z.ltb_spec a d), (Z.ltb_spec b d), (Z.ltb_spec (Z.max a b) d); simpl; lia.
Qed.

Lemma recv_arriving n now dl l :
  0 < n → before now dl = true → arriving dl l ≠ [] →
  ∃ bs l' now', recv n now dl l = Some (bs, None, l', now') ∧ bs ≠ [] ∧ length bs ≤ n ∧
    arriving dl l = bs ++ arriving dl l' ∧ script_tail dl l' = script_tail dl l ∧
    before now' dl = true.
Proof.
  intros Hn Hnow. induction l as [|[t [[|b bs]| |e]] l IH]; simpl; try done.
  destruct (before t dl) eqn:Ht; [|done]. intros _.
  rewrite before_max, Hnow, Ht. simpl. destruct n as [|n]; [lia|].
  eexists _, _, _. split_and!; [done|done| | | |by rewrite before_max, Hnow, Ht].
  - simpl. rewrite length_take. lia.
  - simpl. destruct (drop n bs) as [|b' bs'] eqn:Hd.
    + rewrite <- (take_drop n bs) at 1. by rewrite Hd, app_nil_r.
    + simpl. rewrite Ht, <- (take_drop n bs) at 1. rewrite Hd. simpl. by rewrite <- app_assoc.
  - simpl. destruct (drop n bs); simpl; by rewrite ?Ht.
Qed.

#[export] Program Instance netConn_Stream : Stream netConn := {|
  frame := nc_frame;
  pending := nc_pending
|}.
Next Obligation.
  intros n c Hn. unfold nc_pending at 1.
  destruct (nc_closed c) eqn:Hc, (before (nc_now c) (nc_rdeadline c)) eqn:Hb; try done.
  simpl. intros Hp.
  destruct (recv_arriving n (nc_now c) (nc_rdeadline c) (nc_in c))
    as (bs & l' & now' & HR & ? & ? & Ha & Ht & Hb'); [done..|].
  exists bs, (set_in l' now' c). unfold Read, netConn_Reader.
  rewrite decide_False, Hc, Hb, HR by lia. split_and!; try done.
  - unfold nc_pending. simpl. rewrite Hc, Hb, Hb'. done.
  - unfold nc_frame. simpl. by rewrite Ht, Hb, Hb'.
Qed.

Lemma length_arriving dl l : (length (arriving dl l) ≤ script_bytes l)%nat.
Proof.
  induction l as [|[t [[|b bs]| |e]] l IH]; rewrite ?script_bytes_cons; simpl in *; try lia.
  destruct (before t dl); simpl; [rewrite length_app; lia|lia].
Qed.

Lemma length_nc_pending c : (length (nc_pending c) ≤ script_bytes (nc_in c))%nat.
Proof. unfold nc_pending. case_match; [simpl; lia|apply length_arriving]. Qed.

(** *** Writing *)

(** The socket accepts writes. *)
Definition writable (s : netConn) : Prop :=
  nc_closed s = false ∧ before (nc_now s) (nc_wdeadline s) = true ∧ nc_wfail s = None.

Lemma Write_writable bs s :
  writable s → Write bs s = Ret (length bs, None) (set_out (nc_out s ++ bs) None s).
Proof. intros (Hc & Hb & Hw). unfold Write, netConn_Writer. by rewrite Hc, Hb, Hw. Qed.

(** What a write never touches, whether it returns or waits. *)
Lemma Write_frame bs s s' :
  final (Write bs s) = Some s' →
  nc_in s' = nc_in s ∧ nc_rdeadline s' = nc_rdeadline s ∧ nc_wdeadline s' = nc_wdeadline s ∧
  nc_closed s' = nc_closed s ∧ (nc_now s ≤ nc_now s')%Z ∧ nc_out s `prefix_of` nc_out s'.
Proof.
  unfold Write, netConn_Writer, stalled_write.
  repeat case_match; intros [= <-]; simpl; split_and!; try done; try lia; by apply prefix_app_r.
Qed.

Lemma Write_converges bs s : Write bs s ≠ Diverges.
Proof. unfold Write, netConn_Writer, stalled_write. repeat case_match; done. Qed.

(** Only a write on an open socket to a peer that does not read waits for ever. *)
Lemma Write_blocks bs s s' :
  Write bs s = Blocks s' → s' = s ∧ nc_closed s = false ∧ ∃ k, nc_wfail s = Some (k, WStall None).
Proof.
  unfold Write, netConn_Writer, stalled_write. repeat case_match; intros; simplify_eq; (split_and!; [done..|]); eauto.
Qed.

Lemma Read_wfail n c a c' : Read n c = Ret a c' → nc_wfail c' = nc_wfail c.
Proof. unfold Read, netConn_Reader. repeat case_match; intros; by simplify_eq. Qed.

(** With a write deadline a write returns, no later than the deadline (or at
    once when the deadline has passed), even when the peer has stopped reading. *)
Lemma Write_deadline bs c d :
  nc_wdeadline c = Some d →
  ∃ a c', Write bs c = Ret a c' ∧ (nc_now c' ≤ Z.max (nc_now c) d)%Z.
Proof.
  intros Hd. unfold Write, netConn_Writer, stalled_write. rewrite Hd.
  repeat case_match; eexists _, _; (split; [done|]); simpl in *; reflect_bools; lia.
Qed.

(** The peer takes what it is sent at once, or the write fails: it never makes a
    write wait. *)
Definition takes (s : netConn) : Prop := ∀ k until, nc_wfail s ≠ Some (k, WStall until).

Lemma Write_takes bs c :
  takes c → ∃ a c', Write bs c = Ret a c' ∧ nc_now c' = nc_now c ∧ takes c'.
Proof.
  intros Ht. unfold Write, netConn_Writer, stalled_write.
  repeat case_match; subst; try (eexists _, _; split_and!; [done|done|]; try done);
    try (by destruct (Ht _ _ ltac:(eassumption))); intros ?? [= ? ?]; subst; by eapply Ht.
Qed.

(** ** bufio.Reader *)

(** [bufio.NewReader]'s buffer size. *)
Definition bufio_size : nat := 4096.

(** The unread part of the buffer and the error saved by the last fill. *)
Record bufio (R : Type) := mkBufio {
  b_rd : R;
  b_buf : list byte;
  b_err : option error
}.
Arguments mkBufio {R} _ _ _.
Arguments b_rd {R} _.
Arguments b_buf {R} _.
Arguments b_err {R} _.

Definition NewReader {R} (r : R) : bufio R := mkBufio r [] None.

Definition Buffered {R} (b : bufio R) : nat := length (b_buf b).

Definition set_rd {R} (r : R) (b : bufio R) : bufio R := mkBufio r (b_buf b) (b_err b).

Section Bufio.
Context {R : Type} `{Reader R}.

(** [Read] of [bufio.Reader]: at most one read of the underlying reader; a large
    read with an empty buffer bypasses the buffer. *)
#[export] Instance bufio_Reader : Reader (bufio R) := λ n b,
  if decide (n = 0) then
    match b_buf b with
    | [] => Ret ([], b_err b) (mkBufio (b_rd b) [] None)
    | _ => Ret ([], None) b
    end
  else match b_buf b with
  | [] =>
      match b_err b with
      | Some e => Ret ([], Some e) (mkBufio (b_rd b) [] None)
      | None =>
          match Read (if decide (bufio_size ≤ n) then n else bufio_size) (b_rd b) with
          | Ret (bs, e) r =>
              if decide (bufio_size ≤ n) then Ret (bs, e) (mkBufio r [] None)
              else match bs with
                   | [] => Ret ([], e) (mkBufio r [] None)
                   | _ => Ret (take n bs, None) (mkBufio r (drop n bs) e)
                   end
          | Blocks r => Blocks (set_rd r b)
          | Diverges => Diverges
          end
      end
  | buf => Ret (take n buf, None) (mkBufio (b_rd b) (drop n buf) (b_err b))
  end.

#[export] Program Instance bufio_ReaderLaws `{!ReaderLaws R} : ReaderLaws (bufio R) := {|
  left_bytes b := length (b_buf b) + left_bytes (b_rd b)
|}.
Next Obligation.
  intros HL n [r buf err] bs e b'. unfold Read, bufio_Reader; simpl.
  case_decide; [repeat case_match; intros; simplify_eq; simpl; lia|].
  destruct buf as [|x buf]; [|intros; simplify_eq; rewrite length_take; lia].
  destruct err as [e0|]; [intros; simplify_eq; simpl; lia|].
  destruct (Read _ r) as [[ds e1] r'| |] eqn:HR; [|done..].
  apply Read_len in HR. case_decide.
  - intros; simplify_eq. done.
  - destruct ds; intros; simplify_eq; [simpl; lia|]. rewrite length_take. lia.
Qed.
Next Obligation.
  intros HL n [r buf err] bs b' Hn. unfold Read, bufio_Reader; simpl.
  rewrite decide_False by lia. destruct n as [|n]; [lia|].
  destruct buf as [|x buf]; [|intros; by simplify_eq].
  destruct err as [e0|]; [done|].
  destruct (Read _ r) as [[ds e1] r'| |] eqn:HR; [|done..].
  case_decide; [|destruct ds]; intros; simplify_eq; [..|done];
    eapply Read_progress; try exact HR; unfold bufio_size; try case_decide; lia.
Qed.
Next Obligation.
  intros HL n [r buf err] bs e b'. unfold Read, bufio_Reader; simpl.
  case_decide; [repeat case_match; intros; simplify_eq; simpl; lia|].
  destruct buf as [|x buf].
  2:{ intros; simplify_eq; cbn [b_buf b_rd]. rewrite length_take, length_drop. lia. }
  destruct err as [e0|]; [intros; simplify_eq; simpl; lia|].
  destruct (Read _ r) as [[ds e1] r'| |] eqn:HR; [|done..].
  apply Read_left in HR. rewrite HR. case_decide.
  - intros; simplify_eq; simpl. lia.
  - destruct ds as [|d ds]; intros; simplify_eq; [done|]. cbn [b_buf b_rd length].
    rewrite length_take, length_drop. cbn [length]. lia.
Qed.
Next Obligation.
  intros HL n [r buf err]. unfold Read, bufio_Reader; simpl.
  repeat case_match; try done;
    match goal with HR : _ = Diverges |- _ => by apply Read_converges in HR end.
Qed.

Definition bufio_pending `{!Stream R} (b : bufio R) : list byte :=
  b_buf b ++ match b_err b with None => pending (b_rd b) | Some _ => [] end.

#[export] Program Instance bufio_Stream `{!Stream R} : Stream (bufio R) := {|
  frame b := (frame (b_rd b), b_err b);
  pending := bufio_pending
|}.
Next Obligation.
  intros HS n [r buf err] Hn. unfold bufio_pending, Read, bufio_Reader; simpl.
  rewrite decide_False by lia. destruct n as [|n]; [lia|].
  destruct buf as [|x buf].
  2:{ intros _. eexists _, _. split_and!; [done|done| | |done]; simpl.
      - rewrite length_take. lia.
      - by rewrite app_assoc, take_drop. }
  destruct err as [e0|]; simpl; [done|]. intros Hp.
  set (k := if decide (bufio_size ≤ S n) then S n else bufio_size).
  destruct (Read_pending k r) as (bs & r' & HR & Hbs & Hle & Hs & Hfr);
    [unfold k, bufio_size; case_decide; lia|done|].
  rewrite HR. unfold k in Hle. case_decide.
  - eexists _, _. split_and!; [done|done|done|by simpl|by simpl; rewrite Hfr].
  - destruct bs as [|x bs]; [done|].
    eexists _, _. split_and!; [done|done| | |by simpl; rewrite Hfr]; simpl.
    + rewrite length_take. lia.
    + rewrite Hs. simpl. by rewrite app_assoc, take_drop.
Qed.
End Bufio.

(** ** context.Context *)

(** The deadline a context carries and the time its parent is canceled, if ever. *)
Record Context := mkContext {
  ctx_deadline : option Z;
  ctx_cancel : option Z
}.

Definition Background : Context := mkContext None None.
