(* ===== verification/Packet.v ===== *)
(** * rcon/packet.go: the wire format

    [Packet] with its encoder [WriteTo] (over any [Writer]) and decoder
    [ReadFrom] (over any [Reader]), the size constants, and [binary.LittleEndian].
    [encode] is the layout of a frame and [decode] the meaning of a byte string
    as a frame; the theorems relate the two methods to them for every reader,
    however the bytes are cut into reads. *)

From S2P Require Import Prelude GoErrors GoIO GoNet.

Local Open Scope Z_scope.

(** ** encoding/binary *)

Definition PutUint32 (v : Z) : list byte :=
  [Z_to_byte v; Z_to_byte (Z.shiftr v 8); Z_to_byte (Z.shiftr v 16); Z_to_byte (Z.shiftr v 24)].

Definition Uint32 (b : list byte) : Z :=
  match b with
  | b0 :: b1 :: b2 :: b3 :: _ =>
      Z.lor (byte_to_Z b0) (Z.lor (Z.shiftl (byte_to_Z b1) 8)
        (Z.lor (Z.shiftl (byte_to_Z b2) 16) (Z.shiftl (byte_to_Z b3) 24)))
  | _ => 0
  end.

(** ** Types and constants *)

Definition TypeResponseValue : Z := 0.
Definition TypeExecCommand : Z := 2.
Definition TypeAuthResponse : Z := 2.
Definition TypeAuth : Z := 3.

Definition MaxPayloadSize : Z := 4096.
Definition HeaderSize : Z := 8.
Definition PaddingSize : Z := 2.
Definition MinPacketSize : Z := HeaderSize + PaddingSize.

(** [PacketType] is an [int32], represented like [ID]. *)
Record Packet := mkPacket {
  ID : Z;
  Type_ : Z;
  Body : string
}.

#[export] Instance Packet_eq_dec : EqDecision Packet.
Proof. solve_decision. Defined.

(** ** Operations *)

(** [copy(buf[off:], src)] *)
Definition copy_at {A} (off : nat) (src buf : list A) : list A :=
  take off buf ++ take (length buf - off) src ++ drop (off + length src) buf.

(** [b[i:j]] *)
Definition slice {A} (i j : nat) (b : list A) : list A := take (j - i) (drop i b).

(** The buffer [WriteTo] builds. *)
Definition frame_buffer (p : Packet) : list byte :=
  let size := HeaderSize + Z.of_nat (len (Body p)) + PaddingSize in
  let buf := replicate (Z.to_nat (4 + size)) x00 in
  let buf := copy_at 0 (PutUint32 (uint32 size)) buf in
  let buf := copy_at 4 (PutUint32 (uint32 (ID p))) buf in
  let buf := copy_at 8 (PutUint32 (uint32 (Type_ p))) buf in
  copy_at 12 (bytes_of (Body p)) buf.

Definition WriteTo {S} `{Writer S} (p : Packet) : GoM S (Z * option error) :=
  do (n, err) <- Write (frame_buffer p);
  ret (Z.of_nat n, err).

Definition ReadFrom {S} `{Reader S} : GoM S (Z * result Packet) :=
  do (sizeField, err) <- ReadFull 4;
  match err with
  | Some e => ret (0, Err e)
  | None =>
      let sizeU := Uint32 sizeField in
      if MaxPayloadSize + MinPacketSize <? sizeU then ret (4, Err ErrResponseTooLong) else
      let size := sizeU in
      if size <? MinPacketSize then ret (4, Err ErrResponseTooShort) else
      do (body, err) <- ReadFull (Z.to_nat size);
      match err with
      | Some e => ret (4, Err e)
      | None =>
          ret (4 + size,
               Ok {| ID := int32 (Uint32 (slice 0 4 body));
                     Type_ := int32 (Uint32 (slice 4 8 body));
                     Body := string_of (slice 8 (Z.to_nat (size - PaddingSize)) body) |})
      end
  end.

(** ** Reference definitions *)

(** The layout of a frame on the wire. *)
Definition encode (p : Packet) : list byte :=
  PutUint32 (uint32 (Z.of_nat (len (Body p)) + MinPacketSize)) ++
  PutUint32 (uint32 (ID p)) ++ PutUint32 (uint32 (Type_ p)) ++
  bytes_of (Body p) ++ [x00; x00].

(** A packet whose fields are in range and whose body fits one frame. *)
Definition valid_packet (p : Packet) : Prop :=
  is_int32 (ID p) ∧ is_int32 (Type_ p) ∧ Z.of_nat (len (Body p)) ≤ MaxPayloadSize.

(** The packet held by the [size] bytes that follow a size field. *)
Definition decode_body (size : nat) (body : list byte) : Packet :=
  {| ID := int32 (Uint32 (take 4 body));
     Type_ := int32 (Uint32 (take 4 (drop 4 body)));
     Body := string_of (take (size - 10) (drop 8 body)) |}.

(** The meaning of a byte string that ends in [e]: the count and result of
    reading one frame from it. *)
Definition decode (e : error) (bs : list byte) : Z * result Packet :=
  let cut (part : list byte) :=
    if decide (e = EOF ∧ part ≠ []) then ErrUnexpectedEOF else e in
  if decide (length bs < 4)%nat then (0, Err (cut bs)) else
  let size := Uint32 (take 4 bs) in
  let body := drop 4 bs in
  if decide (MaxPayloadSize + MinPacketSize < size) then (4, Err ErrResponseTooLong) else
  if decide (size < MinPacketSize) then (4, Err ErrResponseTooShort) else
  if decide (length body < Z.to_nat size)%nat then (4, Err (cut body)) else
  (4 + size, Ok (decode_body (Z.to_nat size) body)).

(** ** Integer codec *)

Lemma length_PutUint32 v : length (PutUint32 v) = 4%nat.
Proof. done. Qed.

Lemma Uint32_sum b0 b1 b2 b3 l :
  Uint32 (b0 :: b1 :: b2 :: b3 :: l) =
  byte_to_Z b0 + 256 * (byte_to_Z b1 + 256 * (byte_to_Z b2 + 256 * byte_to_Z b3)).
Proof.
  unfold Uint32.
  replace (Z.shiftl (byte_to_Z b3) 24) with (Z.shiftl (Z.shiftl (Z.shiftl (byte_to_Z b3) 8) 8) 8)
    by (by rewrite !Z.shiftl_shiftl).
  replace (Z.shiftl (byte_to_Z b2) 16) with (Z.shiftl (Z.shiftl (byte_to_Z b2) 8) 8)
    by (by rewrite !Z.shiftl_shiftl).
  rewrite <- !Z.shiftl_lor, !lor_shiftl_8 by apply byte_to_Z_range. lia.
Qed.

Lemma Uint32_PutUint32 v l : Uint32 (PutUint32 v ++ l) = uint32 v.
Proof.
  unfold PutUint32. cbn [app]. rewrite Uint32_sum, !byte_to_Z_to_byte.
  rewrite !Z.shiftr_div_pow2 by lia. unfold uint32.
  change (2 ^ 8) with 256. change (2 ^ 16) with 65536. change (2 ^ 24) with 16777216.
  change (2 ^ 32) with 4294967296. Z.to_euclidean_division_equations. lia.
Qed.

Lemma Uint32_range b : 0 ≤ Uint32 b < 2 ^ 32.
Proof.
  destruct b as [|b0 [|b1 [|b2 [|b3 l]]]]; try (simpl; lia).
  rewrite Uint32_sum.
  pose proof (byte_to_Z_range b0). pose proof (byte_to_Z_range b1).
  pose proof (byte_to_Z_range b2). pose proof (byte_to_Z_range b3). lia.
Qed.

(** ** Layout *)

Lemma length_encode p : length (encode p) = (14 + len (Body p))%nat.
Proof. unfold encode, len. rewrite !length_app, !length_PutUint32. simpl. lia. Qed.

(** Overwriting a prefix of a zeroed buffer, field by field. *)
Lemma copy_at_replicate (off k : nat) (pre src : list byte) :
  off = length pre → (length src ≤ k)%nat →
  copy_at off src (pre ++ replicate k x00) = (pre ++ src) ++ replicate (k - length src) x00.
Proof.
  intros -> Hk. unfold copy_at.
  rewrite take_app_length, length_app, length_replicate.
  rewrite (take_ge src) by lia. rewrite drop_app_add, drop_replicate. by rewrite app_assoc.
Qed.

Lemma frame_buffer_encode p : frame_buffer p = encode p.
Proof.
  unfold frame_buffer, HeaderSize, PaddingSize.
  set (n := len (Body p)).
  replace (Z.to_nat (4 + (8 + Z.of_nat n + 2))) with (14 + n)%nat by lia.
  change (replicate (14 + n) x00) with ([] ++ replicate (14 + n) x00).
  rewrite !copy_at_replicate
    by (rewrite ?length_app, ?length_PutUint32; unfold n, len; simpl; lia).
  unfold encode, MinPacketSize, HeaderSize, PaddingSize. fold n.
  replace (8 + Z.of_nat n + 2) with (Z.of_nat n + (8 + 2)) by lia.
  rewrite !length_PutUint32.
  replace (_ - length (bytes_of (Body p)))%nat with 2%nat by (unfold n, len; lia).
  by rewrite <- !app_assoc.
Qed.

(** ** ReadFrom computes [decode] *)

Lemma decode_body_slices size body :
  decode_body size body =
  {| ID := int32 (Uint32 (slice 0 4 body)); Type_ := int32 (Uint32 (slice 4 8 body));
     Body := string_of (slice 8 (size - 2) body) |}.
Proof.
  unfold decode_body, slice. rewrite drop_0. simpl.
  by replace (size - 2 - 8)%nat with (size - 10)%nat by lia.
Qed.

(** The parts of [encode p ++ rest], as [decode] takes them. *)
Lemma take_4_encode p rest :
  take 4 (encode p ++ rest) = PutUint32 (uint32 (Z.of_nat (len (Body p)) + MinPacketSize)).
Proof. unfold encode. by rewrite <- app_assoc, take_app_length'. Qed.

Lemma decode_body_encode p rest :
  is_int32 (ID p) → is_int32 (Type_ p) →
  decode_body (len (Body p) + 10) (drop 4 (encode p ++ rest)) = p.
Proof.
  intros Hid Hty. unfold encode.
  rewrite <- !app_assoc, drop_app_length' by done.
  unfold decode_body. rewrite take_app_length', drop_app_length', take_app_length' by done.
  rewrite (drop_app_add' _ _ 4 4), drop_app_length' by done.
  replace (len (Body p) + 10 - 10)%nat with (length (bytes_of (Body p))) by (unfold len; lia).
  rewrite take_app_length, string_of_bytes_of.
  rewrite <- (app_nil_r (PutUint32 (uint32 (ID p)))), <- (app_nil_r (PutUint32 (uint32 (Type_ p)))).
  rewrite !Uint32_PutUint32.
  rewrite !(uint32_small (uint32 _)) by (apply Z.mod_pos_bound; done).
  rewrite !int32_uint32 by done. by destruct p.
Qed.

Lemma decode_encode e p rest :
  valid_packet p →
  decode e (encode p ++ rest) = (14 + Z.of_nat (len (Body p)), Ok p).
Proof.
  intros (Hid & Hty & Hlen). unfold decode, MaxPayloadSize, MinPacketSize, HeaderSize, PaddingSize in *.
  rewrite length_app, length_encode, decide_False by lia.
  rewrite take_4_encode, <- (app_nil_r (PutUint32 _)), Uint32_PutUint32.
  unfold MinPacketSize, HeaderSize, PaddingSize. rewrite !uint32_small by (rewrite ?uint32_small; lia).
  rewrite !decide_False; [|rewrite ?length_drop, ?length_app, ?length_encode; lia..].
  f_equal; [lia|].
  replace (Z.to_nat (Z.of_nat (len (Body p)) + (8 + 2))) with (len (Body p) + 10)%nat by lia.
  by rewrite decode_body_encode.
Qed.

(** Only the first [size] bytes matter. *)
Lemma decode_body_take size body :
  (10 ≤ size)%nat → decode_body size (take size body) = decode_body size body.
Proof.
  intros Hs. unfold decode_body. f_equal.
  - rewrite take_take. by replace (4 `min` size)%nat with 4%nat by lia.
  - rewrite !take_drop_commute, take_take. by replace ((4 + 4) `min` size)%nat with 8%nat by lia.
  - rewrite !take_drop_commute, take_take.
    by replace ((8 + (size - 10)) `min` size)%nat with (8 + (size - 10))%nat by lia.
Qed.

Section ReadFromStream.
Context {S : Type} `{Reader S} `{!Stream S}.

(** The pending bytes start with a frame: [ReadFrom] consumes exactly it. *)
Lemma ReadFrom_ok e n p s :
  decode e (pending s) = (n, Ok p) →
  ∃ s', ReadFrom s = Ret (n, Ok p) s' ∧
        pending s' = drop (Z.to_nat n) (pending s) ∧ frame s' = frame s.
Proof.
  unfold decode. case_decide; [done|].
  destruct (ReadFull_pending 4 s) as (s1 & HR1 & Hp1 & Hf1); [lia|].
  unfold ReadFrom. rewrite (bind_Ret _ _ _ _ _ HR1).
  set (size := Uint32 (take 4 (pending s))). pose proof (Uint32_range (take 4 (pending s))).
  case_decide; [done|]. case_decide; [done|]. case_decide; [done|]. intros [= <- <-].
  destruct (Z.ltb_spec (MaxPayloadSize + MinPacketSize) size); [lia|].
  destruct (Z.ltb_spec size MinPacketSize); [lia|].
  destruct (ReadFull_pending (Z.to_nat size) s1) as (s2 & HR2 & Hp2 & Hf2); [rewrite Hp1; lia|].
  rewrite (bind_Ret _ _ _ _ _ HR2). exists s2.
  rewrite Hp2, Hp1, Hf2, Hf1, drop_drop. unfold MinPacketSize, HeaderSize, PaddingSize in *.
  split_and!; [|f_equal; lia|done].
  rewrite <- (decode_body_take (Z.to_nat size)), decode_body_slices by lia.
  unfold ret. by replace (Z.to_nat (size - 2)) with (Z.to_nat size - 2)%nat by lia.
Qed.

Lemma ReadFrom_frame p rest s :
  valid_packet p → pending s = encode p ++ rest →
  ∃ s', ReadFrom s = Ret (14 + Z.of_nat (len (Body p)), Ok p) s' ∧
        pending s' = rest ∧ frame s' = frame s.
Proof.
  intros Hv Hp. pose proof (decode_encode EOF p rest Hv) as Hd. rewrite <- Hp in Hd.
  destruct (ReadFrom_ok _ _ _ _ Hd) as (s' & HR & Hp' & Hf). exists s'. split_and!; [done| |done].
  rewrite Hp', Hp, drop_app_length'; [done|]. rewrite length_encode. lia.
Qed.

(** A reader that fails with [e] after its pending bytes: [ReadFrom] returns
    exactly [decode e] of those bytes. *)
Lemma ReadFrom_decode e s :
  (∀ k s', (0 < k)%nat → pending s' = [] → frame s' = frame s →
     ∃ s'', Read k s' = Ret ([], Some e) s'') →
  ∃ s', ReadFrom s = Ret (decode e (pending s)) s'.
Proof.
  intros Hdry.
  assert (∀ k s', (0 < k)%nat → pending s' = [] → frame s' = frame s →
     ∃ s'', Read k s' = Ret ([], Some e) s'' ∧ True) as Hdry'.
  { intros k s' ? ? ?. destruct (Hdry k s') as [s'' ?]; [done..|]. by exists s''. }
  destruct (decode e (pending s)) as [n [p|e']] eqn:Hd.
  { destruct (ReadFrom_ok _ _ _ _ Hd) as (s' & ? & _). by exists s'. }
  revert Hd. unfold decode, ReadFrom. case_decide as H4.
  { intros [= <- <-].
    destruct (ReadFull_short 4 s e (λ _, True)) as (s1 & HR & _); [done..|].
    exists s1. rewrite (bind_Ret _ _ _ _ _ HR). done. }
  destruct (ReadFull_pending 4 s) as (s1 & HR1 & Hp1 & Hf1); [lia|].
  rewrite (bind_Ret _ _ _ _ _ HR1).
  set (size := Uint32 (take 4 (pending s))).
  destruct (Z.ltb_spec (MaxPayloadSize + MinPacketSize) size).
  { rewrite decide_True by done. intros [= <- <-]. by exists s1. }
  rewrite decide_False by lia. destruct (Z.ltb_spec size MinPacketSize).
  { rewrite decide_True by done. intros [= <- <-]. by exists s1. }
  rewrite decide_False by lia. case_decide; [|done]. intros [= <- <-].
  destruct (ReadFull_short (Z.to_nat size) s1 e (λ _, True)) as (s2 & HR2 & _);
    [by rewrite Hp1|by rewrite Hf1|].
  exists s2. rewrite (bind_Ret _ _ _ _ _ HR2), Hp1. done.
Qed.
End ReadFromStream.

(** ** ReadFrom on every reader *)

Section ReadFromLaws.
Context {S : Type} `{Reader S} `{!ReaderLaws S}.

(** What a successful [ReadFrom] returns, and that it consumed the frame; a
    failing one never gives bytes back. *)
Lemma ReadFrom_inv n r s s' :
  ReadFrom s = Ret (n, r) s' →
  (left_bytes s' ≤ left_bytes s)%nat ∧
  match r with
  | Ok p => valid_packet p ∧ n = 14 + Z.of_nat (len (Body p)) ∧
            left_bytes s = (Z.to_nat n + left_bytes s')%nat
  | Err _ => n = 0 ∨ n = 4
  end.
Proof.
  intros ([sf err] & s1 & HR1 & Hk)%bind_inv.
  apply ReadFull_inv in HR1 as (? & Hl1 & He1).
  destruct err as [e|]; [injection Hk as <- <- <-; split; [lia|by left]|].
  pose proof (Uint32_range sf). destruct He1 as [He1 _]. specialize (He1 eq_refl).
  revert Hk. cbv zeta.
  destruct (Z.ltb_spec (MaxPayloadSize + MinPacketSize) (Uint32 sf));
    [intros [= <- <- <-]; split; [lia|by right]|].
  destruct (Z.ltb_spec (Uint32 sf) MinPacketSize);
    [intros [= <- <- <-]; split; [lia|by right]|].
  intros ([body err] & s2 & HR2 & Hk)%bind_inv.
  apply ReadFull_inv in HR2 as (? & Hl2 & He2).
  destruct err as [e|]; injection Hk as <- <- <-; [split; [lia|by right]|].
  destruct He2 as [He2 _]. specialize (He2 eq_refl).
  unfold MaxPayloadSize, MinPacketSize, HeaderSize, PaddingSize in *.
  assert (len (string_of (slice 8 (Z.to_nat (Uint32 sf - 2)) body)) =
          (Z.to_nat (Uint32 sf) - 10)%nat) as Hb.
  { rewrite len_string_of. unfold slice. rewrite length_take, length_drop. lia. }
  split; [lia|]. split_and!; [|cbn [Body]; lia|lia].
  split_and!; cbn [ID Type_ Body]; [apply int32_range..|]. unfold MaxPayloadSize. lia.
Qed.

Lemma ReadFrom_converges s : ReadFrom s ≠ Diverges.
Proof.
  unfold ReadFrom, bind at 1.
  destruct (ReadFull 4 s) as [[sf [e|]] s1| |] eqn:HR; [done| |done|by apply ReadFull_converges in HR].
  cbv zeta. repeat case_match; try done. unfold bind.
  destruct (ReadFull _ s1) as [[b [e|]] s2| |] eqn:HR2; try done.
  by apply ReadFull_converges in HR2.
Qed.

Lemma ReadFrom_live (P : S → Prop) s :
  (∀ k s, P s → ∃ a s', Read k s = Ret a s' ∧ P s') →
  P s → ∃ a s', ReadFrom s = Ret a s' ∧ P s'.
Proof.
  intros HP Hs. unfold ReadFrom.
  destruct (ReadFull_live P 4 s HP Hs) as ([sf [e|]] & s1 & HR1 & Hs1);
    rewrite (bind_Ret _ _ _ _ _ HR1); [by eexists _, _|].
  cbv zeta. case_match; [by eexists _, _|]. case_match; [by eexists _, _|].
  destruct (ReadFull_live P (Z.to_nat (Uint32 sf)) s1 HP Hs1) as ([b [e|]] & s2 & HR2 & Hs2);
    rewrite (bind_Ret _ _ _ _ _ HR2); by eexists _, _.
Qed.
End ReadFromLaws.

Lemma keeps_ReadFrom {S} `{Reader S} (P : S → Prop) : (∀ k, keeps P (Read k)) → keeps P ReadFrom.
Proof. intros HR. unfold ReadFrom. keeps_tac. Qed.

Lemma keeps_WriteTo {S} `{Writer S} (P : S → Prop) p : (∀ bs, keeps P (Write bs)) → keeps P (WriteTo p).
Proof. intros HW. unfold WriteTo. keeps_tac. Qed.

#[export] Hint Resolve keeps_ReadFrom keeps_WriteTo : rcon.

(** A property that reads keep, and that the first bytes of a frame establish,
    holds after a successful [ReadFrom]. *)
Lemma ReadFrom_touch {S} `{Reader S} `{!ReaderLaws S} (P : S → Prop) n p s s' :
  (∀ k a s1 s2, P s1 → Read k s1 = Ret a s2 → P s2) →
  (∀ bs e s1, Read 4 s = Ret (bs, e) s1 → bs ≠ [] → P s1) →
  ReadFrom s = Ret (n, Ok p) s' → P s'.
Proof.
  intros Hkeep Hfirst.
  assert (∀ fuel need acc a s1 s2, P s1 → read_loop fuel need acc s1 = Ret a s2 → P s2) as Hloop.
  { induction fuel as [|fuel IH]; intros need acc a s1 s2 Hs1; simpl; case_decide;
      try (by intros [= <- <-]); try done.
    intros ([bs [e|]] & s3 & HR & Hk)%bind_inv; apply Hkeep in HR; try done.
    - by injection Hk as <- <-.
    - by eapply IH. }
  assert (∀ k a s1 s2, P s1 → ReadFull k s1 = Ret a s2 → P s2) as Hfull.
  { intros k a s1 s2 Hs1 ([bs e] & s3 & HL & Hk)%bind_inv. apply Hloop in HL; [|done].
    repeat case_match; by injection Hk as <- <-. }
  intros ([sf [e|]] & s1 & HR1 & Hk)%bind_inv; [done|].
  assert (P s1) as Hs1.
  { apply ReadFull_inv in HR1 as Hlen. destruct Hlen as (_ & _ & [Hlen _]).
    specialize (Hlen eq_refl). revert HR1.
    intros ([bs e] & s2 & HL & Hk')%bind_inv.
    assert (bs = sf ∧ s2 = s1) as [-> ->] by (repeat case_match; unfold ret in Hk'; by simplify_eq).
    pose (f := 3%nat). change (read_loop (Datatypes.S f) 4 [] s = Ret (sf, e) s1) in HL.
    cbn [read_loop] in HL. rewrite decide_False in HL by lia.
    apply bind_inv in HL as ([ds e'] & s3 & HR & HL).
    destruct (decide (ds = [])) as [->|Hds].
    - destruct e'; [by unfold ret in HL; simplify_eq/=|]. by apply Read_progress in HR; [|lia].
    - apply Hfirst in HR; [|done]. destruct e'; [by injection HL as <- <- <-|].
      by apply Hloop in HL. }
  revert Hk. cbv zeta. case_match; [done|]. case_match; [done|].
  intros ([b [e|]] & s2 & HR2 & Hk)%bind_inv; [done|]. injection Hk as <- <- <-.
  by eapply Hfull.
Qed.

(** The reader fails at a frame boundary. *)
Lemma ReadFrom_fails {S} `{Reader S} e s s' :
  Read 4 s = Ret ([], Some e) s' → ReadFrom s = Ret (0, Err e) s'.
Proof.
  intros HR. unfold ReadFrom, ReadFull. cbn [read_loop]. rewrite decide_False by lia.
  unfold bind. rewrite HR. cbn. destruct e; done.
Qed.

(** ** Sequences of packets *)

(** The frames of a list of packets, and the concatenation of their bodies. *)
Definition frames (ps : list Packet) : list byte := concat (encode <$> ps).
Definition bodies (ps : list Packet) : string := foldr (λ p s, String.append (Body p) s) "" ps.

Lemma frames_cons p ps : frames (p :: ps) = encode p ++ frames ps.
Proof. done. Qed.

Lemma frames_one p : frames [p] = encode p.
Proof. apply app_nil_r. Qed.

Lemma frames_app ps qs : frames (ps ++ qs) = frames ps ++ frames qs.
Proof. unfold frames. by rewrite fmap_app, concat_app. Qed.

Lemma frames_concat pss : frames (concat pss) = concat (frames <$> pss).
Proof. induction pss as [|ps pss IH]; [done|]. cbn [concat fmap list_fmap]. by rewrite frames_app, IH. Qed.

Lemma length_frames ps : (14 * length ps ≤ length (frames ps))%nat.
Proof.
  induction ps as [|p ps IH]; [done|].
  rewrite frames_cons, length_app, length_encode. simpl. lia.
Qed.

Lemma frames_nil ps : frames ps = [] → ps = [].
Proof.
  intros Hf. pose proof (length_frames ps) as Hl. rewrite Hf in Hl.
  destruct ps; [done|simpl in Hl; lia].
Qed.

Lemma bodies_app ps qs : bodies (ps ++ qs) = String.append (bodies ps) (bodies qs).
Proof. induction ps as [|p ps IH]; simpl; [done|]. by rewrite IH, string_app_assoc. Qed.

(** ** Theorems *)

(** C8: what [WriteTo] writes, [ReadFrom] reads. On any writer that takes what it is
    given, [WriteTo] appends some bytes to what was written and reports their
    number; any reader that delivers those bytes (in whatever pieces) and then
    others gives back the same packet and the same count, and leaves the others. *)
Theorem packet_roundtrip {W S} `{Writer W} `{Reader S} `{!Stream S} (written : W → list byte)
    (p : Packet) (w : W) :
  valid_packet p →
  (∀ bs, ∃ w', Write bs w = Ret (length bs, None) w' ∧ written w' = written w ++ bs) →
  ∃ n w' bs, WriteTo p w = Ret (n, None) w' ∧ written w' = written w ++ bs ∧
    n = Z.of_nat (length bs) ∧ n = 14 + Z.of_nat (len (Body p)) ∧
    ∀ (s : S) (rest : list byte), pending s = bs ++ rest →
      ∃ s', ReadFrom s = Ret (n, Ok p) s' ∧ pending s' = rest ∧ frame s' = frame s.
Proof.
  intros Hv HW. destruct (HW (frame_buffer p)) as (w' & HW' & Ho).
  exists (Z.of_nat (length (frame_buffer p))), w', (frame_buffer p).
  rewrite frame_buffer_encode in *. rewrite length_encode.
  split_and!; [|done|done|lia|].
  - unfold WriteTo. rewrite frame_buffer_encode, (bind_Ret _ _ _ _ _ HW'), length_encode. done.
  - intros s rest Hp. destruct (ReadFrom_frame p rest s Hv Hp) as (s' & HR & Hs).
    exists s'. split; [|done]. rewrite HR. do 2 f_equal. lia.
Qed.

Lemma packet_roundtrip_witness :
  ∃ bs s', WriteTo (mkPacket (-1) 2 "status") [x41] = Ret (20, None) ([x41] ++ bs) ∧
    ReadFrom (mkBytesReader (bs ++ [x42])) = Ret (20, Ok (mkPacket (-1) 2 "status")) s' ∧
    br_rest s' = [x42].
Proof.
  destruct (packet_roundtrip (W := list byte) (S := bytesReader) (λ w, w) (mkPacket (-1) 2 "status") [x41])
    as (n & w' & bs & HW & -> & _ & -> & HR).
  - unfold valid_packet, is_int32. simpl. vm_compute. repeat split; discriminate.
  - intros bs. eexists. split; reflexivity.
  - destruct (HR (mkBytesReader (bs ++ [x42])) [x42] eq_refl) as (s' & HR' & Hp & _).
    exists bs, s'. split; [exact HW|]. split; [exact HR'|exact Hp].
Defined.

(** C31: on any reader that delivers some bytes and then fails with [e],
    [ReadFrom] returns the count and result [decode] gives those bytes: too short
    and too long size fields, a cut size field or body ([io.EOF] only at a frame
    boundary, [io.ErrUnexpectedEOF] inside), or the packet. *)
Theorem read_from_decodes {S} `{Reader S} `{!Stream S} (e : error) (s : S) :
  (∀ k s', (0 < k)%nat → pending s' = [] → frame s' = frame s →
     ∃ s'', Read k s' = Ret ([], Some e) s'') →
  ∃ s', ReadFrom s = Ret (decode e (pending s)) s'.
Proof. apply ReadFrom_decode. Qed.

Lemma read_from_decodes_witness :
  ∃ s', ReadFrom (mkBytesReader [x0a; x00; x00; x00; x01]) =
        Ret (4, Err ErrUnexpectedEOF) s'.
Proof.
  destruct (read_from_decodes (S := bytesReader) EOF (mkBytesReader [x0a; x00; x00; x00; x01]))
    as [s' HR].
  - intros k s' Hk Hp _. exists s'. destruct s' as [bs]. simpl in Hp. subst bs. reflexivity.
  - exists s'. rewrite HR. vm_compute. reflexivity.
Defined.

(** [WriteTo] makes one [Write] of the frame: little-endian size, id and
    type, the body and two NULs; the field-by-field copies into the zeroed buffer
    produce exactly that layout, for every packet, and the count it reports on a
    buffer is the whole frame. *)
Theorem write_to_layout (p : Packet) (buf : list byte) :
  frame_buffer p = encode p ∧
  WriteTo p buf = Ret (14 + Z.of_nat (len (Body p)), None) (buf ++ encode p).
Proof.
  split; [apply frame_buffer_encode|].
  unfold WriteTo, bind, Write, bytesBuffer_Writer, ret.
  rewrite frame_buffer_encode, length_encode. f_equal. f_equal. lia.
Qed.

(** Whatever an untrusted peer sends, a packet [ReadFrom] accepts has
    [int32] id and type and a body of at most [MaxPayloadSize] bytes, its count is
    the frame's size and exactly that many bytes were consumed. *)
Theorem read_from_bounds {S} `{Reader S} `{!ReaderLaws S} (s s' : S) (n : Z) (p : Packet) :
  ReadFrom s = Ret (n, Ok p) s' →
  is_int32 (ID p) ∧ is_int32 (Type_ p) ∧ Z.of_nat (len (Body p)) ≤ MaxPayloadSize ∧
  n = 14 + Z.of_nat (len (Body p)) ∧ left_bytes s = (Z.to_nat n + left_bytes s')%nat.
Proof. intros HR. apply ReadFrom_inv in HR as (_ & (? & ? & ?) & ? & ?). done. Qed.

Lemma read_from_bounds_witness :
  is_int32 7 ∧ Z.of_nat (len "ok") ≤ MaxPayloadSize.
Proof.
  destruct (read_from_bounds (S := netConn)
    (new_netConn [(0, Seg (frame_buffer (mkPacket 7 0 "ok")))] 0) (new_netConn [] 0)
    16 (mkPacket 7 0 "ok")) as (Hid & _ & Hlen & _).
  - vm_compute. reflexivity.
  - exact (conj Hid Hlen).
Defined.

(** A packet whose body exceeds [MaxPayloadSize] can be written, but every
    reader of this package refuses the frame with [ErrResponseTooLong], having
    consumed only the size field, as long as the size fits its 32-bit field. *)
Theorem oversized_refused (p : Packet) (rest : list byte) (e : error) :
  MaxPayloadSize < Z.of_nat (len (Body p)) < 2 ^ 32 - MinPacketSize →
  decode e (frame_buffer p ++ rest) = (4, Err ErrResponseTooLong).
Proof.
  intros Hl. rewrite frame_buffer_encode. unfold decode.
  unfold MaxPayloadSize, MinPacketSize, HeaderSize, PaddingSize in *.
  rewrite length_app, length_encode, decide_False by lia.
  rewrite take_4_encode, <- (app_nil_r (PutUint32 _)), Uint32_PutUint32.
  unfold MinPacketSize, HeaderSize, PaddingSize.
  rewrite !uint32_small by (rewrite ?uint32_small; lia). by rewrite decide_True by lia.
Qed.

Lemma oversized_refused_witness :
  decode EOF (frame_buffer (mkPacket 1 2 (string_of (replicate 4097 x41)))) =
  (4, Err ErrResponseTooLong).
Proof.
  rewrite <- (app_nil_r (frame_buffer _)).
  apply (oversized_refused (mkPacket 1 2 (string_of (replicate 4097 x41))) [] EOF).
  vm_compute. split; reflexivity.
Defined.
