(* ===== verification/Options.v ===== *)
(** * rcon/options.go: connection settings *)

From S2P Require Import Prelude GoErrors GoIO GoNet.

Local Open Scope Z_scope.

(** [time.Second] and [time.Millisecond], in nanoseconds. *)
Definition Second : Z := 1000000000.
Definition Millisecond : Z := 1000000.

Definition DefaultDialTimeout : Z := 5 * Second.
Definition DefaultDeadline : Z := 5 * Second.
Definition DefaultMaxCommandLen : Z := 1000.
Definition DefaultIdleWindow : Z := 100 * Millisecond.

Inductive readMode := readMulti | readSingle | readIdle.

#[export] Instance readMode_eq_dec : EqDecision readMode.
Proof. solve_decision. Defined.

Record settings := mkSettings {
  dialTimeout : Z;
  deadline : Z;
  maxCommandLen : Z;
  mode : readMode;
  idleWindow : Z
}.

Definition Option : Type := settings → settings.

Definition WithDialTimeout (d : Z) : Option := λ s,
  mkSettings d (deadline s) (maxCommandLen s) (mode s) (idleWindow s).

Definition WithDeadline (d : Z) : Option := λ s,
  mkSettings (dialTimeout s) d (maxCommandLen s) (mode s) (idleWindow s).

Definition WithMaxCommandLen (n : Z) : Option := λ s,
  mkSettings (dialTimeout s) (deadline s) n (mode s) (idleWindow s).

Definition WithSinglePacket : Option := λ s,
  mkSettings (dialTimeout s) (deadline s) (maxCommandLen s) readSingle (idleWindow s).

Definition WithReadUntilIdle (window : Z) : Option := λ s,
  mkSettings (dialTimeout s) (deadline s) (maxCommandLen s) readIdle
    (if 0 <? window then window else idleWindow s).

Definition newSettings (opts : list Option) : settings :=
  fold_left (λ s opt, opt s) opts
    {| dialTimeout := DefaultDialTimeout;
       deadline := DefaultDeadline;
       maxCommandLen := DefaultMaxCommandLen;
       mode := readMulti;
       idleWindow := DefaultIdleWindow |}.
