(* ===== verification/Conn.v ===== *)
(** * rcon/auth.go and rcon/conn.go: one authenticated connection

    [Conn] holds the buffered reader over its socket ([br], whose underlying
    reader is the very socket the code calls [c.conn]), the settings, the closed
    flag and the last request id. [authenticate], [open], [Execute] and the three
    read modes are [GoM Conn] computations. The loops are bounded by the bytes
    the peer still sends: every packet consumes at least 14. *)

From S2P Require Import Prelude GoErrors GoIO GoNet Packet Options.

Local Open Scope Z_scope.

(** ** Data *)

Record Conn := mkConn {
  br : bufio netConn;
  set : settings;
  closed : bool;
  id : Z
}.

Definition sock (c : Conn) : netConn := b_rd (br c).
Definition set_br (b : bufio netConn) (c : Conn) : Conn := mkConn b (set c) (closed c) (id c).
Definition set_sock (s : netConn) (c : Conn) : Conn := set_br (set_rd s (br c)) c.
Definition set_id (i : Z) (c : Conn) : Conn := mkConn (br c) (set c) (closed c) i.
Definition set_closed (c : Conn) : Conn := mkConn (br c) (set c) true (id c).

(** The [rw] pair: reads go through the buffer, writes straight to the socket. *)
#[export] Instance Conn_Reader : Reader Conn := λ n, zoom br set_br (Read n).
#[export] Instance Conn_Writer : Writer Conn := λ bs, zoom sock set_sock (Write bs).

#[export] Program Instance Conn_ReaderLaws : ReaderLaws Conn := {|
  left_bytes c := left_bytes (br c)
|}.
Next Obligation. intros n c bs e c' (b & HR & ->)%zoom_inv. exact (Read_len _ _ _ _ _ HR). Qed.
Next Obligation. intros n c bs c' Hn (b & HR & ->)%zoom_inv. exact (Read_progress _ _ _ _ Hn HR). Qed.
Next Obligation. intros n c bs e c' (b & HR & ->)%zoom_inv. exact (Read_left _ _ _ _ _ HR). Qed.
Next Obligation.
  intros n c. unfold Read, Conn_Reader, zoom.
  destruct (Read n (br c)) eqn:HR; try done. by apply Read_converges in HR.
Qed.

(** A stream view of the buffered socket is one of the connection. *)
#[program] Definition Conn_Stream_of (V : Stream (bufio netConn)) : Stream Conn := {|
  frame c := (frame (br c), set c, closed c, id c);
  pending c := pending (br c)
|}.
Next Obligation.
  intros V n c Hn Hp. destruct (Read_pending n (br c)) as (bs & b & HR & ? & ? & ? & Hf); [done..|].
  exists bs, (set_br b c). split_and!; try done.
  - by apply zoom_Ret.
  - cbn [set_br br set closed id]. by rewrite Hf.
Qed.

#[export] Instance Conn_Stream : Stream Conn := Conn_Stream_of bufio_Stream.

(** ** Operations *)

Definition next_id (i : Z) : Z :=
  let i := int32 (i + 1) in
  if i <=? 0 then 1 else i.

Definition nextID : GoM Conn Z := λ c,
  let i := next_id (id c) in Ret i (set_id i c).

(** rcon/auth.go *)
Definition authenticate {S} `{Reader S} `{Writer S} (password : string) (nextID : GoM S Z) :
    GoM S (result unit) :=
  do reqID <- nextID;
  do (_, err) <- WriteTo {| ID := reqID; Type_ := TypeAuth; Body := password |};
  match err with
  | Some e => ret (Err e)
  | None =>
      do (_, r) <- ReadFrom;
      try resp <- ret r;
      try resp <-
        (if Type_ resp =? TypeResponseValue then
           do (_, r) <- ReadFrom; ret r
         else ret (Ok resp));
      if negb (Type_ resp =? TypeAuthResponse) then ret (Err ErrInvalidAuthResponse) else
      if ID resp =? -1 then ret (Err ErrAuthFailed) else
      ret (Ok tt)
  end.

(** The deadline [applyContextDeadline] sets. *)
Definition effective_deadline (ctx : Context) (opDeadline now : Z) : option Z :=
  let deadline := if 0 <? opDeadline then Some (now + opDeadline) else None in
  match ctx_deadline ctx with
  | Some d =>
      match deadline with
      | None => Some d
      | Some d' => if d <? d' then Some d else Some d'
      end
  | None => deadline
  end.

Definition applyContextDeadline (ctx : Context) (opDeadline : Z) : GoM netConn (result unit) :=
  do now <- gets nc_now;
  SetDeadline (effective_deadline ctx opDeadline now).

(** The [&Conn{...}] literal of [open]. *)
Definition newConn (nc : netConn) (set : settings) : Conn := mkConn (NewReader nc) set false 0.

(** [open]; on an error the caller still owns the socket of the final state. *)
Definition open (ctx : Context) (nc : netConn) (password : string) (set : settings) :
    outcome Conn (result unit) :=
  (try _ <- zoom sock set_sock (applyContextDeadline ctx (deadline set));
   try _ <- authenticate password nextID;
   ret (Ok tt)) (newConn nc set).

Definition Open (ctx : Context) (nc : netConn) (password : string) (opts : list Option) :
    outcome Conn (result unit) :=
  open ctx nc password (newSettings opts).

Definition Close : GoM Conn (result unit) :=
  do _ <- modify set_closed;
  zoom sock set_sock CloseConn.

Definition LocalAddr (c : Conn) : string := nc_local (sock c).
Definition RemoteAddr (c : Conn) : string := nc_remote (sock c).

Definition isIdleTimeout (err : error) : bool :=
  match AsNetError err with Some timeout => timeout | None => false end.

Definition readSinglePacket (reqID : Z) : GoM Conn (result string) :=
  do (_, r) <- ReadFrom;
  try resp <- ret r;
  if negb (ID resp =? reqID) && negb (ID resp =? -1) then ret (Err ErrResponseMismatch)
  else ret (Ok (Body resp)).

Fixpoint drain_loop (fuel : nat) : GoM Conn unit :=
  match fuel with
  | 0%nat => λ _, Diverges
  | S fuel' =>
      do n <- gets (λ c, Buffered (br c));
      if decide (0 < n)%nat then
        do (_, r) <- ReadFrom;
        match r with
        | Err _ => ret tt
        | Ok _ => drain_loop fuel'
        end
      else ret tt
  end.

Definition drainSourceMirror : GoM Conn unit := λ c, drain_loop (S (left_bytes c)) c.

Fixpoint multi_loop (fuel : nat) (reqID sentinelID : Z) (b : string) : GoM Conn (result string) :=
  match fuel with
  | 0%nat => λ _, Diverges
  | S fuel' =>
      do (_, r) <- ReadFrom;
      try resp <- ret r;
      if ID resp =? sentinelID then
        do _ <- drainSourceMirror;
        ret (Ok b)
      else if negb (ID resp =? reqID) && negb (ID resp =? -1) then ret (Err ErrResponseMismatch)
      else multi_loop fuel' reqID sentinelID (String.append b (Body resp))
  end.

Definition readMultiPacket (reqID sentinelID : Z) : GoM Conn (result string) := λ c,
  multi_loop (S (left_bytes c)) reqID sentinelID "" c.

Fixpoint idle_loop (fuel : nat) (reqID : Z) (first : bool) (b : string) : GoM Conn (result string) :=
  match fuel with
  | 0%nat => λ _, Diverges
  | S fuel' =>
      try _ <-
        (if negb first then
           do c <- gets (λ c, c);
           zoom sock set_sock (SetReadDeadline (Some (nc_now (sock c) + idleWindow (set c))))
         else ret (Ok tt));
      do (_, r) <- ReadFrom;
      match r with
      | Err err =>
          if first then ret (Err err)
          else if isIdleTimeout err || Is err EOF then ret (Ok b)
          else ret (Err err)
      | Ok resp =>
          let b := if (ID resp =? reqID) || (ID resp =? -1)
                   then String.append b (Body resp) else b in
          idle_loop fuel' reqID false b
      end
  end.

Definition readIdleDrain (reqID : Z) : GoM Conn (result string) := λ c,
  idle_loop (S (left_bytes c)) reqID true "" c.

(** [Execute]; the mutex it holds from the deadline on is a critical section of
    the caller: one command is in flight at a time. *)
Definition Execute (ctx : Context) (command : string) : GoM Conn (result string) :=
  do c <- gets (λ c, c);
  if closed c then ret (Err ErrClosed) else
  if decide (command = "") then ret (Err ErrCommandEmpty) else
  if (0 <? maxCommandLen (set c)) && (maxCommandLen (set c) <? Z.of_nat (len command))
  then ret (Err ErrCommandTooLong) else
  try _ <- zoom sock set_sock (applyContextDeadline ctx (deadline (set c)));
  do reqID <- nextID;
  do (_, err) <- WriteTo {| ID := reqID; Type_ := TypeExecCommand; Body := command |};
  match err with
  | Some e => ret (Err e)
  | None =>
      match mode (set c) with
      | readSingle => readSinglePacket reqID
      | readIdle => readIdleDrain reqID
      | readMulti =>
          do sentinelID <- nextID;
          do (_, err) <- WriteTo {| ID := sentinelID; Type_ := TypeResponseValue; Body := "" |};
          match err with
          | Some e => ret (Err e)
          | None => readMultiPacket reqID sentinelID
          end
      end
  end.
