(* ===== verification/ConnProps.v ===== *)
(** * Properties of the client connection

    Lemmas on request ids, writes, the read loops and deadlines of [Conn], and
    the theorems about [Execute], [open] and [authenticate] built from them. *)

From S2P Require Import Prelude GoErrors GoIO GoNet Packet Options Conn.

Local Open Scope Z_scope.

(** ** Request ids *)

Lemma next_id_range i : 1 ≤ next_id i < 2 ^ 31.
Proof.
  unfold next_id. pose proof (int32_range (i + 1)) as [_ H].
  destruct (Z.leb_spec (int32 (i + 1)) 0); lia.
Qed.

Lemma next_id_int32 i : is_int32 (next_id i).
Proof. pose proof (next_id_range i). unfold is_int32. lia. Qed.

(** On positive ids [nextID] counts modulo [2^31 - 1]. *)
Lemma next_id_cycle i : 1 ≤ i < 2 ^ 31 → next_id i = i mod (2 ^ 31 - 1) + 1.
Proof.
  intros Hi. unfold next_id. destruct (decide (i = 2 ^ 31 - 1)) as [->|Hne].
  - rewrite Z.mod_same by lia. done.
  - rewrite int32_id by (unfold is_int32; lia).
    rewrite Z.mod_small by lia. destruct (Z.leb_spec (i + 1) 0); lia.
Qed.

Lemma next_id_iter i k :
  1 ≤ i < 2 ^ 31 → Nat.iter k next_id i = (i - 1 + Z.of_nat k) mod (2 ^ 31 - 1) + 1.
Proof.
  intros Hi. induction k as [|k IH]; simpl Nat.iter.
  - rewrite Z.mod_small; lia.
  - rewrite IH, next_id_cycle by (pose proof (Z.mod_pos_bound (i - 1 + Z.of_nat k) (2 ^ 31 - 1)); lia).
    rewrite Zplus_mod_idemp_l. f_equal. f_equal. lia.
Qed.

Lemma next_id_fresh i : next_id (next_id i) ≠ next_id i.
Proof.
  pose proof (next_id_range i). rewrite (next_id_cycle (next_id i)) by done.
  destruct (decide (next_id i = 2 ^ 31 - 1)) as [->|]; [done|].
  rewrite Z.mod_small; lia.
Qed.

#[export] Hint Resolve next_id_int32 : rcon.

(** ** Writing *)

(** The connection after [bs] was written. *)
Definition wrote (bs : list byte) (c : Conn) : Conn :=
  set_sock (set_out (nc_out (sock c) ++ bs) None (sock c)) c.

(** The bytes written so far. *)
Definition sent (c : Conn) : list byte := nc_out (sock c).

Lemma WriteTo_conn p c :
  writable (sock c) →
  WriteTo p c = Ret (14 + Z.of_nat (len (Body p)), None) (wrote (encode p) c).
Proof.
  intros Hw. unfold WriteTo. rewrite frame_buffer_encode.
  erewrite bind_Ret.
  2:{ unfold Write, Conn_Writer. apply zoom_Ret.
      by apply Write_writable. }
  unfold ret, wrote. rewrite length_encode. by replace (Z.of_nat (14 + len (Body p)))
    with (14 + Z.of_nat (len (Body p))) by lia.
Qed.

Lemma wrote_writable bs c : writable (sock c) → writable (sock (wrote bs c)).
Proof. intros (? & ? & ?). done. Qed.

Lemma pending_wrote bs c : pending (wrote bs c) = pending c.
Proof. done. Qed.

Lemma wrote_wrote bs bs' c : wrote bs' (wrote bs c) = wrote (bs ++ bs') c.
Proof. unfold wrote, sent. cbn. unfold set_out. cbn. by rewrite app_assoc. Qed.

#[export] Hint Resolve wrote_writable : rcon.

(** A property of the socket that its writes keep. *)
Lemma keeps_Write_sock (P : netConn → Prop) bs :
  (∀ s s', final (Write bs s) = Some s' → P s → P s') → keeps (λ c, P (sock c)) (Write bs).
Proof.
  intros HP c Hc. unfold Write, Conn_Writer, zoom. specialize (HP (sock c)).
  destruct (Write bs (sock c)) as [a s|s|]; [exact (HP s eq_refl Hc)..|done].
Qed.

(** What reading pending bytes leaves alone, spelled out. *)
Lemma frame_inv c c' :
  frame c' = frame c →
  sent c' = sent c ∧ set c' = set c ∧ closed c' = closed c ∧ id c' = id c ∧
  nc_closed (sock c') = nc_closed (sock c) ∧ nc_wfail (sock c') = nc_wfail (sock c) ∧
  nc_rdeadline (sock c') = nc_rdeadline (sock c) ∧ b_err (br c') = b_err (br c).
Proof. unfold sent, sock. intros Hf. injection Hf. intros. done. Qed.

(** ** Pending bytes and the loops' fuel *)

Lemma length_pending c : (length (pending c) ≤ left_bytes c)%nat.
Proof.
  destruct c as [[s buf err] st cl i]. simpl. unfold bufio_pending. simpl. rewrite length_app.
  pose proof (length_nc_pending s). destruct err; simpl; lia.
Qed.

(** ** Reading frames *)

(** A run of successful [ReadFrom]s. *)
Inductive reads : Conn → list Packet → Conn → Prop :=
  | reads_nil c : reads c [] c
  | reads_cons c n p c1 ps c2 :
      ReadFrom c = Ret (n, Ok p) c1 → reads c1 ps c2 → reads c (p :: ps) c2.

Lemma reads_left c ps c' : reads c ps c' → (14 * length ps + left_bytes c' ≤ left_bytes c)%nat.
Proof.
  induction 1 as [|c n p c1 ps c2 HR _ IH]; [simpl; lia|].
  apply ReadFrom_inv in HR as (_ & _ & -> & HL). simpl length. lia.
Qed.

Lemma reads_frames ps rest c :
  Forall valid_packet ps → pending c = frames ps ++ rest →
  ∃ c', reads c ps c' ∧ pending c' = rest ∧ frame c' = frame c.
Proof.
  intros Hv. revert c. induction Hv as [|p ps Hp Hps IH]; intros c Hc.
  { exists c. split_and!; [constructor|done|done]. }
  rewrite frames_cons, <- app_assoc in Hc.
  destruct (ReadFrom_frame p _ _ Hp Hc) as (c1 & HR & Hp1 & Hf1).
  destruct (IH c1 Hp1) as (c2 & ? & ? & ?).
  exists c2. split_and!; [by econstructor|done|congruence].
Qed.

(** *** drainSourceMirror *)

Lemma drain_loop_frames fuel ms c :
  Forall valid_packet ms → pending c = frames ms → (length ms < fuel)%nat →
  ∃ c' k, drain_loop fuel c = Ret tt c' ∧ frame c' = frame c ∧ pending c' = frames (drop k ms).
Proof.
  revert ms c. induction fuel as [|fuel IH]; intros ms c Hv Hp Hf; [lia|].
  cbn [drain_loop]. unfold gets at 1, bind at 1. case_decide as Hb.
  2:{ exists c, 0%nat. by rewrite drop_0. }
  destruct Hv as [|m ms Hm Hms].
  { exfalso. apply (f_equal length) in Hp. simpl in Hp. unfold bufio_pending in Hp. rewrite length_app in Hp.
    unfold Buffered in Hb. lia. }
  rewrite frames_cons in Hp.
  destruct (ReadFrom_frame m _ _ Hm Hp) as (c1 & HR & Hp1 & Hf1).
  rewrite (bind_Ret _ _ _ _ _ HR).
  destruct (IH ms c1) as (c2 & k & HD & Hf2 & Hp2); [done..|simpl in Hf; lia|].
  exists c2, (S k). split_and!; [done|congruence|done].
Qed.

Lemma drainSourceMirror_frames ms c :
  Forall valid_packet ms → pending c = frames ms →
  ∃ c' k, drainSourceMirror c = Ret tt c' ∧ frame c' = frame c ∧ pending c' = frames (drop k ms).
Proof.
  intros Hv Hp. apply drain_loop_frames; [done..|].
  pose proof (length_pending c) as Hl. pose proof (length_frames ms). rewrite Hp in Hl. lia.
Qed.

(** *** readMultiPacket *)

(** A packet that belongs to the reply to [reqID]. *)
Definition belongs (reqID : Z) (p : Packet) : Prop := ID p = reqID ∨ ID p = -1.

Lemma belongs_test reqID p :
  negb (ID p =? reqID) && negb (ID p =? -1) = false ↔ belongs reqID p.
Proof.
  unfold belongs. destruct (Z.eqb_spec (ID p) reqID), (Z.eqb_spec (ID p) (-1)); simpl; intuition congruence.
Qed.

(** Reading through the chunks of a reply. *)
Lemma multi_loop_reads fuel req sen b ps c c1 :
  reads c ps c1 → Forall (λ p, belongs req p ∧ ID p ≠ sen) ps → (length ps ≤ fuel)%nat →
  multi_loop fuel req sen b c =
  multi_loop (fuel - length ps) req sen (String.append b (bodies ps)) c1.
Proof.
  intros HR. revert fuel b. induction HR as [c|c n p c1 ps c2 HR _ IH]; intros fuel b Hps Hf.
  { simpl. by rewrite Nat.sub_0_r, string_app_nil_r. }
  destruct fuel as [|fuel]; [simpl in Hf; lia|].
  apply Forall_cons_1 in Hps as [[Hb Hs] Hps].
  cbn [multi_loop]. rewrite (bind_Ret _ _ _ _ _ HR). unfold ret at 1, bind at 1.
  apply Z.eqb_neq in Hs. rewrite Hs, (proj2 (belongs_test req p) Hb).
  rewrite IH by (done || (simpl in Hf; lia)). simpl. by rewrite string_app_assoc.
Qed.

Lemma readMultiPacket_ok req sen chunks echo mirrors c :
  Forall valid_packet (chunks ++ echo :: mirrors) →
  Forall (λ p, belongs req p ∧ ID p ≠ sen) chunks → ID echo = sen →
  pending c = frames (chunks ++ echo :: mirrors) →
  ∃ c' k, readMultiPacket req sen c = Ret (Ok (bodies chunks)) c' ∧ frame c' = frame c ∧
          pending c' = frames (drop k mirrors).
Proof.
  intros Hv Hb He Hp.
  pose proof (length_pending c) as Hl. rewrite Hp in Hl.
  pose proof (length_frames (chunks ++ echo :: mirrors)) as Hl'. rewrite length_app in Hl'.
  apply Forall_app in Hv as [Hvc Hv]. apply Forall_cons_1 in Hv as [Hve Hvm]. rewrite frames_app in Hp.
  destruct (reads_frames chunks _ c Hvc Hp) as (c1 & HRs & Hp1 & Hf1).
  rewrite frames_cons in Hp1.
  destruct (ReadFrom_frame echo _ c1 Hve Hp1) as (c2 & HR & Hp2 & Hf2).
  destruct (drainSourceMirror_frames mirrors c2 Hvm Hp2) as (c3 & k & HD & Hf3 & Hp3).
  exists c3, k. split_and!; [|congruence|done].
  unfold readMultiPacket. erewrite multi_loop_reads by (done || lia).
  destruct (S (left_bytes c) - length chunks)%nat eqn:Hfuel; [simpl in *; lia|].
  cbn [multi_loop]. rewrite (bind_Ret _ _ _ _ _ HR). unfold ret at 1, bind at 1.
  rewrite He, Z.eqb_refl, (bind_Ret _ _ _ _ _ HD). done.
Qed.

(** A successful multi-packet read saw the sentinel's echo, and returns exactly
    the bodies of the packets before it, all of them addressed to the request. *)
Lemma multi_loop_sound fuel req sen b c out c' :
  multi_loop fuel req sen b c = Ret (Ok out) c' →
  ∃ ps n echo c1 c2, reads c ps c1 ∧ Forall (λ p, belongs req p ∧ ID p ≠ sen) ps ∧
    ReadFrom c1 = Ret (n, Ok echo) c2 ∧ ID echo = sen ∧
    out = String.append b (bodies ps) ∧ drainSourceMirror c2 = Ret tt c'.
Proof.
  revert b c. induction fuel as [|fuel IH]; intros b c; [done|]. cbn [multi_loop].
  intros ([n r] & c1 & HR & Hk)%bind_inv. unfold ret at 1, bind at 1 in Hk.
  destruct r as [p|e]; [|done].
  destruct (Z.eqb_spec (ID p) sen) as [Hs|Hs].
  - apply bind_inv in Hk as ([] & c2 & HD & Hk). injection Hk as <- <-.
    exists [], n, p, c, c1. split_and!; try done; [constructor| ].
    simpl. by rewrite string_app_nil_r.
  - destruct (negb (ID p =? req) && negb (ID p =? -1)) eqn:Hb; [done|].
    apply belongs_test in Hb.
    destruct (IH _ _ Hk) as (ps & n' & echo & c2 & c3 & HRs & HF & HR' & He & -> & HD).
    exists (p :: ps), n', echo, c2, c3. split_and!; try done; [by econstructor|by constructor|].
    simpl. by rewrite string_app_assoc.
Qed.

(** ** Deadlines *)

(** Both deadlines are [d] and the clock is between [t0] and the deadline. *)
Definition timely (t0 d : Z) (c : Conn) : Prop :=
  nc_rdeadline (sock c) = Some d ∧ nc_wdeadline (sock c) = Some d ∧
  t0 ≤ nc_now (sock c) ≤ Z.max t0 d.

Lemma Read_timely t0 d n c :
  timely t0 d c → ∃ a c', Read n c = Ret a c' ∧ timely t0 d c'.
Proof.
  intros (Hd & Hw & Ht). destruct c as [[s buf err] st cl i]. unfold sock in *. simpl in *.
  unfold Read, Conn_Reader, zoom. simpl.
  set (k := if decide (bufio_size ≤ n)%nat then n else bufio_size).
  destruct (Read_deadline k s d Hd) as ([bs e] & s' & HR & Hd' & Hw' & Hn').
  unfold Read at 1, bufio_Reader. simpl. fold k. rewrite HR.
  repeat case_match; simplify_eq; eexists _, _; (split; [done|]);
    (split_and!; unfold sock; simpl; try done; try congruence; lia).
Qed.

Lemma ReadFrom_timely t0 d c :
  timely t0 d c → ∃ a c', ReadFrom c = Ret a c' ∧ timely t0 d c'.
Proof. intros Ht. apply (ReadFrom_live (timely t0 d)); [|done]. intros. by apply Read_timely. Qed.

Lemma drain_loop_timely t0 d fuel c :
  (left_bytes c < fuel)%nat → timely t0 d c →
  ∃ c', drain_loop fuel c = Ret tt c' ∧ timely t0 d c'.
Proof.
  revert c. induction fuel as [|fuel IH]; intros c Hf Ht; [lia|].
  cbn [drain_loop]. unfold gets at 1, bind at 1. case_decide; [|by eexists].
  destruct (ReadFrom_timely _ _ _ Ht) as ([n [p|e]] & c1 & HR & Ht1);
    rewrite (bind_Ret _ _ _ _ _ HR); [|by eexists].
  apply ReadFrom_inv in HR as (_ & _ & -> & HL). apply IH; [lia|done].
Qed.

Lemma drainSourceMirror_timely t0 d c :
  timely t0 d c → ∃ c', drainSourceMirror c = Ret tt c' ∧ timely t0 d c'.
Proof. apply drain_loop_timely. lia. Qed.

Lemma multi_loop_timely t0 d fuel req sen b c :
  (left_bytes c < fuel)%nat → timely t0 d c →
  ∃ r c', multi_loop fuel req sen b c = Ret r c' ∧ timely t0 d c'.
Proof.
  revert b c. induction fuel as [|fuel IH]; intros b c Hf Ht; [lia|]. cbn [multi_loop].
  destruct (ReadFrom_timely _ _ _ Ht) as ([n [p|e]] & c1 & HR & Ht1);
    rewrite (bind_Ret _ _ _ _ _ HR); unfold ret at 1, bind at 1; [|by eexists _, _].
  apply ReadFrom_inv in HR as (_ & _ & -> & HL).
  case_match.
  - destruct (drainSourceMirror_timely _ _ _ Ht1) as (c2 & HD & Ht2).
    rewrite (bind_Ret _ _ _ _ _ HD). by eexists _, _.
  - case_match; [by eexists _, _|]. apply IH; [lia|done].
Qed.

Lemma readSinglePacket_timely t0 d req c :
  timely t0 d c → ∃ r c', readSinglePacket req c = Ret r c' ∧ timely t0 d c'.
Proof.
  intros Ht. unfold readSinglePacket.
  destruct (ReadFrom_timely _ _ _ Ht) as ([n [p|e]] & c1 & HR & Ht1);
    rewrite (bind_Ret _ _ _ _ _ HR); unfold ret at 1, bind at 1; [|by eexists _, _].
  case_match; by eexists _, _.
Qed.

(** A write returns whatever the socket and the peer do, by the deadline, and
    leaves the read side alone. *)
Lemma WriteTo_timely t0 d p c :
  timely t0 d c →
  ∃ a c', WriteTo p c = Ret a c' ∧ timely t0 d c' ∧ left_bytes c' = left_bytes c.
Proof.
  intros (Hr & Hw & Ht). destruct (Write_deadline (frame_buffer p) (sock c) d Hw) as ([n e] & s & HW & Hn).
  destruct (Write_frame (frame_buffer p) (sock c) s) as (Hi & Hr' & Hw' & _ & Hn' & _); [by rewrite HW|].
  unfold WriteTo. erewrite bind_Ret by (apply zoom_Ret, HW).
  destruct c as [[nc buf err] st cl i]. unfold sock in *. simpl in *.
  eexists _, _. split; [done|]. unfold timely, sock. simpl. rewrite Hi. split_and!; [congruence..|lia|lia|done].
Qed.

(** ** The start of [Execute] *)

(** The deadline [Execute] arms under [ctx]. *)
Definition exec_deadline (ctx : Context) (c : Conn) : option Z :=
  effective_deadline ctx (deadline (set c)) (nc_now (sock c)).

(** The connection with that deadline on its socket. *)
Definition armed (ctx : Context) (c : Conn) : Conn :=
  set_sock (set_deadlines (exec_deadline ctx c) (exec_deadline ctx c) (sock c)) c.

(** [Execute] passes its guards. *)
Definition accepts (command : string) (c : Conn) : Prop :=
  closed c = false ∧ command ≠ "" ∧
  (0 < maxCommandLen (set c) → Z.of_nat (len command) ≤ maxCommandLen (set c)).

(** The socket is usable for a round trip started now. *)
Definition usable (ctx : Context) (c : Conn) : Prop :=
  nc_closed (sock c) = false ∧ nc_wfail (sock c) = None ∧
  before (nc_now (sock c)) (exec_deadline ctx c) = true.

(** The request a command is sent as, and the sentinel that follows it. *)
Definition request (command : string) (c : Conn) : Packet :=
  {| ID := next_id (id c); Type_ := TypeExecCommand; Body := command |}.
Definition sentinel (c : Conn) : Packet :=
  {| ID := next_id (next_id (id c)); Type_ := TypeResponseValue; Body := "" |}.

(** The connection after the request, and after the request and the sentinel. *)
Definition requested (ctx : Context) (command : string) (c : Conn) : Conn :=
  wrote (encode (request command c)) (set_id (next_id (id c)) (armed ctx c)).
Definition requested_multi (ctx : Context) (command : string) (c : Conn) : Conn :=
  wrote (encode (request command c) ++ encode (sentinel c))
    (set_id (next_id (next_id (id c))) (armed ctx c)).

Lemma pending_requested ctx command c :
  pending (requested ctx command c) = pending (armed ctx c).
Proof. done. Qed.

Lemma pending_requested_multi ctx command c :
  pending (requested_multi ctx command c) = pending (armed ctx c).
Proof. done. Qed.

Lemma accepts_guards command c :
  accepts command c →
  closed c = false ∧ command ≠ "" ∧
  (0 <? maxCommandLen (set c)) && (maxCommandLen (set c) <? Z.of_nat (len command)) = false.
Proof.
  intros (? & ? & Hl). split_and!; [done..|].
  destruct (Z.ltb_spec 0 (maxCommandLen (set c))); [|done]. simpl. apply Z.ltb_ge. auto.
Qed.

Lemma apply_deadline ctx c :
  zoom sock set_sock (applyContextDeadline ctx (deadline (set c))) c =
  if nc_closed (sock c) then Ret (Err errUseOfClosed) c else Ret (Ok tt) (armed ctx c).
Proof.
  destruct c as [[s buf err] st cl i].
  unfold zoom, applyContextDeadline, gets, bind, SetDeadline, sock. simpl. by destruct (nc_closed s).
Qed.

Lemma usable_writable ctx c i : usable ctx c → writable (sock (set_id i (armed ctx c))).
Proof. intros (? & ? & ?). done. Qed.

Lemma Execute_start ctx command c :
  accepts command c → usable ctx c →
  Execute ctx command c =
  match mode (set c) with
  | readSingle => readSinglePacket (next_id (id c)) (requested ctx command c)
  | readIdle => readIdleDrain (next_id (id c)) (requested ctx command c)
  | readMulti => readMultiPacket (next_id (id c)) (next_id (next_id (id c)))
                   (requested_multi ctx command c)
  end.
Proof.
  intros (Hcl & Hcmd & Hlen)%accepts_guards Hu. pose proof (usable_writable _ _ (next_id (id c)) Hu) as Hw.
  unfold Execute, gets at 1, bind at 1. rewrite Hcl, decide_False, Hlen by done.
  erewrite bind_Ret by (rewrite apply_deadline; destruct Hu as (-> & _); done).
  cbv beta iota.
  erewrite (bind_Ret nextID) by done.
  change (id (armed ctx c)) with (id c). fold (request command c).
  erewrite bind_Ret by (by apply WriteTo_conn). cbv beta iota.
  destruct (mode (set c)); [|done..].
  erewrite (bind_Ret nextID) by done. cbv beta.
  erewrite bind_Ret by (apply WriteTo_conn; by apply wrote_writable). cbv beta iota.
  unfold requested_multi. by rewrite <- wrote_wrote.
Qed.

Lemma Execute_timely (ctx : Context) (command : string) (c : Conn) (d : Z) :
  mode (set c) ≠ readIdle → exec_deadline ctx c = Some d →
  ∃ r c', Execute ctx command c = Ret r c' ∧
          nc_now (sock c) ≤ nc_now (sock c') ≤ Z.max (nc_now (sock c)) d.
Proof.
  intros Hm Hd. unfold Execute, gets at 1, bind at 1.
  case_match; [eexists _, _; split; [done|lia]|].
  case_decide; [eexists _, _; split; [done|lia]|].
  case_match; [eexists _, _; split; [done|lia]|].
  unfold bind at 1. rewrite apply_deadline.
  destruct (nc_closed (sock c)); [eexists _, _; split; [done|lia]|].
  assert (∀ i, timely (nc_now (sock c)) d (set_id i (armed ctx c))) as Ht.
  { intros i. split_and!; [done..|simpl; lia|simpl; lia]. }
  unfold nextID at 1, bind at 1.
  destruct (WriteTo_timely _ _ {| ID := next_id (id (armed ctx c)); Type_ := TypeExecCommand;
    Body := command |} _ (Ht (next_id (id (armed ctx c))))) as ([n [e|]] & c1 & HW & Ht1 & _);
    rewrite (bind_Ret _ _ _ _ _ HW); [eexists _, _; split; [done|apply Ht1]|].
  destruct (mode (set c)); [| |done].
  - assert (timely (nc_now (sock c)) d (set_id (next_id (id c1)) c1)) as Ht1' by exact Ht1.
    unfold nextID at 1, bind at 1.
    destruct (WriteTo_timely _ _ {| ID := next_id (id c1); Type_ := TypeResponseValue;
      Body := "" |} _ Ht1') as ([n' [e|]] & c2 & HW2 & Ht2 & _);
      rewrite (bind_Ret _ _ _ _ _ HW2); [eexists _, _; split; [done|apply Ht2]|].
    destruct (multi_loop_timely (nc_now (sock c)) d (S (left_bytes c2)) (next_id (id (armed ctx c))) (next_id (id c1)) "" c2)
      as (r & c3 & HL & Ht3); [lia|done|]. exists r, c3. split; [exact HL|apply Ht3].
  - destruct (readSinglePacket_timely _ _ (next_id (id (armed ctx c))) c1 Ht1) as (r & c2 & HR & Ht2).
    exists r, c2. split; [exact HR|apply Ht2].
Qed.

(** The same for the handshake. *)
Lemma authenticate_timely t0 d password c :
  timely t0 d c → ∃ r c', authenticate password nextID c = Ret r c' ∧ timely t0 d c'.
Proof.
  intros Ht. unfold authenticate, nextID, bind at 1.
  assert (timely t0 d (set_id (next_id (id c)) c)) as Ht0 by exact Ht.
  destruct (WriteTo_timely _ _ {| ID := next_id (id c); Type_ := TypeAuth; Body := password |} _ Ht0)
    as ([n [e|]] & c1 & HW & Ht1 & _); rewrite (bind_Ret _ _ _ _ _ HW); [by eexists _, _|].
  destruct (ReadFrom_timely _ _ _ Ht1) as ([n2 [p|e]] & c2 & HR & Ht2);
    rewrite (bind_Ret _ _ _ _ _ HR); unfold ret at 1, bind at 1; [|by eexists _, _].
  unfold bind. destruct (Type_ p =? TypeResponseValue).
  - destruct (ReadFrom_timely _ _ _ Ht2) as ([n3 [p3|e]] & c3 & HR3 & Ht3); rewrite HR3;
      unfold ret; repeat case_match; by eexists _, _.
  - unfold ret. repeat case_match; by eexists _, _.
Qed.

Lemma open_timely ctx nc password st d :
  effective_deadline ctx (deadline st) (nc_now nc) = Some d →
  ∃ r c', open ctx nc password st = Ret r c' ∧
          nc_now nc ≤ nc_now (sock c') ≤ Z.max (nc_now nc) d.
Proof.
  intros Hd. unfold open, bind at 1.
  pose proof (apply_deadline ctx (newConn nc st)) as Ha. change (set (newConn nc st)) with st in Ha.
  rewrite Ha. destruct (nc_closed _); [eexists _, _; split; [done|unfold sock; simpl; lia]|].
  assert (timely (nc_now nc) d (armed ctx (newConn nc st))) as Ht
    by (split; [done|split; [done|change (nc_now nc ≤ nc_now nc ≤ Z.max (nc_now nc) d); lia]]).
  destruct (authenticate_timely _ _ password _ Ht) as ([u|e] & c' & HA & _ & _ & Ht');
    rewrite (bind_Ret _ _ _ _ _ HA); by eexists _, _.
Qed.

(** Nothing changes the settings of a connection. *)
Section Settings.
Context (st : settings).
Let same (c : Conn) : Prop := set c = st.

Lemma keeps_settings_Read k : keeps same (Read k).
Proof. intros c Hc. unfold Read, Conn_Reader, zoom. by destruct (Read _ _). Qed.

Lemma keeps_settings_Write bs : keeps same (Write bs).
Proof. intros c Hc. unfold Write, Conn_Writer, zoom. by destruct (Write _ _). Qed.

Lemma keeps_settings_sock {A} (m : GoM netConn A) : keeps same (zoom sock set_sock m).
Proof. intros c Hc. unfold zoom. by destruct (m _). Qed.

Lemma keeps_settings_nextID : keeps same nextID.
Proof. by intros c Hc. Qed.

#[local] Hint Resolve keeps_settings_Read keeps_settings_Write keeps_settings_sock
  keeps_settings_nextID : rcon.

Lemma open_settings ctx nc password r c' :
  open ctx nc password st = Ret r c' → set c' = st.
Proof.
  unfold open. intros HO.
  eapply (keeps_final same _ (newConn nc st)); [|done|by rewrite HO]. unfold authenticate. keeps_tac.
Qed.

Lemma keeps_settings_Diverges {A} : keeps same (λ _, @Diverges Conn A).
Proof. done. Qed.

#[local] Hint Resolve keeps_settings_Diverges : rcon.

Lemma keeps_settings_drain fuel : keeps same (drain_loop fuel).
Proof. induction fuel; cbn [drain_loop]; keeps_tac. Qed.

Lemma keeps_settings_multi fuel req sen b : keeps same (multi_loop fuel req sen b).
Proof.
  assert (keeps same drainSourceMirror) by (intros c; apply keeps_settings_drain).
  revert b. induction fuel; intros b; cbn [multi_loop]; keeps_tac.
Qed.

Lemma keeps_settings_idle fuel req first b : keeps same (idle_loop fuel req first b).
Proof. revert first b. induction fuel; intros first b; cbn [idle_loop]; keeps_tac. Qed.

Lemma keeps_settings_Execute ctx command : keeps same (Execute ctx command).
Proof.
  assert (∀ req sen, keeps same (readMultiPacket req sen)) by (intros req sen c; apply keeps_settings_multi).
  assert (∀ req, keeps same (readIdleDrain req)) by (intros req c; apply keeps_settings_idle).
  unfold Execute, readSinglePacket. keeps_tac.
Qed.
End Settings.

(** ** Authentication *)

(** The verdict of the auth response. *)
Definition auth_verdict (p : Packet) : result unit :=
  if negb (Type_ p =? TypeAuthResponse) then Err ErrInvalidAuthResponse
  else if ID p =? -1 then Err ErrAuthFailed else Ok tt.

(** The auth request a connection sends. *)
Definition auth_request (password : string) (c : Conn) : Packet :=
  {| ID := next_id (id c); Type_ := TypeAuth; Body := password |}.

(** The reply is an optional leading [TypeResponseValue] packet and the response. *)
Inductive auth_reply (resp : Packet) : list Packet → Prop :=
  | auth_direct : Type_ resp ≠ TypeResponseValue → auth_reply resp [resp]
  | auth_sentinel p : Type_ p = TypeResponseValue → auth_reply resp [p; resp].

(** The handshake once its reply has been read. *)
Lemma authenticate_reads password resp ps c c' :
  writable (sock c) → auth_reply resp ps →
  reads (wrote (encode (auth_request password c)) (set_id (next_id (id c)) c)) ps c' →
  authenticate password nextID c = Ret (auth_verdict resp) c'.
Proof.
  intros Hw Hr. set (c1 := wrote _ _). intros HRs.
  unfold authenticate. erewrite (bind_Ret nextID) by done. cbv beta.
  erewrite bind_Ret by (by apply WriteTo_conn). cbv beta iota.
  fold (auth_request password c). change (wrote _ _) with c1.
  assert (∀ p (c' : Conn), (if negb (Type_ p =? TypeAuthResponse) then ret (Err ErrInvalidAuthResponse) else
    if ID p =? -1 then ret (Err ErrAuthFailed) else ret (Ok tt)) c' = Ret (auth_verdict p) c') as Hend
    by (intros p c''; unfold auth_verdict; repeat case_match; done).
  destruct Hr as [Ht|p Ht]; inversion HRs as [|? n ? c3 ? ? HR1 HRs']; subst;
    inversion HRs' as [|? n' ? c4 ? ? HR2 HRs'']; subst;
    rewrite (bind_Ret _ _ _ _ _ HR1); unfold ret at 1, bind at 1.
  - apply Z.eqb_neq in Ht. rewrite Ht. unfold ret at 1, bind at 1. apply Hend.
  - inversion HRs''; subst. rewrite Ht, Z.eqb_refl. unfold bind at 1. rewrite (bind_Ret _ _ _ _ _ HR2).
    apply Hend.
Qed.

Lemma authenticate_verdict password resp ps rest c :
  writable (sock c) → Forall valid_packet ps → auth_reply resp ps →
  pending c = frames ps ++ rest →
  ∃ c', authenticate password nextID c = Ret (auth_verdict resp) c' ∧ pending c' = rest ∧
        frame c' = frame (wrote (encode (auth_request password c)) (set_id (next_id (id c)) c)).
Proof.
  intros Hw Hv Hr Hp. set (c1 := wrote _ _).
  destruct (reads_frames ps rest c1 Hv Hp) as (c2 & HRs & Hp2 & Hf2).
  exists c2. split_and!; [by eapply authenticate_reads|done|done].
Qed.

(** ** Theorems *)

(** A connection for the witnesses: authenticated, at time 0, with the given
    options and arrivals. *)
Definition sample (opts : list Option) (l : list (Z * arrival)) : Conn :=
  mkConn (NewReader (new_netConn l 0)) (newSettings opts) false 1.

(** The ids [nextID] hands out are positive [int32]s (never the -1 that
    means failure), whatever the counter held and across its wrap-around, and an
    id is not handed out again by any of the next [2^31 - 2] calls; in particular
    a command's request and sentinel ids differ. *)
Theorem request_ids_distinct (i : Z) (k j : nat) :
  1 ≤ Nat.iter (S k) next_id i < 2 ^ 31 ∧
  ((0 < j)%nat → Z.of_nat j < 2 ^ 31 - 1 →
     Nat.iter (j + S k) next_id i ≠ Nat.iter (S k) next_id i).
Proof.
  assert (∀ k i, 1 ≤ Nat.iter (S k) next_id i < 2 ^ 31) as Hr by (intros; apply next_id_range).
  split; [apply Hr|]. intros Hj1 Hj2. rewrite Nat.iter_add.
  specialize (Hr k i). set (a := Nat.iter (S k) next_id i) in *.
  rewrite next_id_iter by done. intros Heq.
  assert ((a - 1 + Z.of_nat j) mod (2 ^ 31 - 1) = a - 1) as Hm by lia.
  pose proof (Z.div_mod (a - 1 + Z.of_nat j) (2 ^ 31 - 1) ltac:(lia)). rewrite Hm in *.
  assert (Z.of_nat j = (2 ^ 31 - 1) * ((a - 1 + Z.of_nat j) / (2 ^ 31 - 1))) by lia. nia.
Qed.

Lemma request_ids_distinct_witness :
  Nat.iter (1 + S 0) next_id (2 ^ 31 - 2) ≠ Nat.iter (S 0) next_id (2 ^ 31 - 2).
Proof. apply (request_ids_distinct (2 ^ 31 - 2) 0 1); [lia|reflexivity]. Defined.

(** A command [Execute] may not run (closed connection, empty command, or one
    longer than a positive [maxCommandLen]) is refused with the matching sentinel
    error before any I/O: the connection is unchanged, no id is used, nothing is
    written and no deadline is set. *)
Theorem execute_refuses (ctx : Context) (command : string) (c : Conn) :
  ¬ accepts command c →
  Execute ctx command c =
    Ret (Err (if closed c then ErrClosed
              else if decide (command = "") then ErrCommandEmpty else ErrCommandTooLong)) c.
Proof.
  intros Hna. unfold Execute, gets at 1, bind at 1.
  destruct (closed c) eqn:Hc; [done|]. case_decide as He; [done|].
  destruct (Z.ltb_spec 0 (maxCommandLen (set c))),
    (Z.ltb_spec (maxCommandLen (set c)) (Z.of_nat (len command))); try done;
    exfalso; apply Hna; split_and!; [done|done|lia|done|done|lia|done|done|lia].
Qed.

Lemma execute_refuses_witness :
  Execute Background "" (sample [] []) = Ret (Err ErrCommandEmpty) (sample [] []).
Proof. apply (execute_refuses Background "" (sample [] [])). by intros (_ & ? & _). Defined.

(** After [Close] the socket is closed and every later [Execute] returns
    [ErrClosed]; closing twice is the only error [Close] reports. *)
Theorem close_is_final (ctx : Context) (command : string) (c : Conn) :
  ∃ c', Close c = Ret (if nc_closed (sock c) then Err errUseOfClosed else Ok tt) c' ∧
        nc_closed (sock c') = true ∧ closed c' = true ∧
        Execute ctx command c' = Ret (Err ErrClosed) c'.
Proof.
  unfold Close, modify, bind, zoom, CloseConn. change (sock (set_closed c)) with (sock c).
  destruct (nc_closed (sock c)) eqn:Hc; eexists; split_and!; done.
Qed.

Lemma Execute_multi_ok (ctx : Context) (command : string) (c : Conn)
    (chunks mirrors : list Packet) (echo : Packet) :
  mode (set c) = readMulti → accepts command c → usable ctx c →
  Forall valid_packet (chunks ++ echo :: mirrors) →
  Forall (λ p, belongs (ID (request command c)) p ∧ ID p ≠ ID (sentinel c)) chunks →
  ID echo = ID (sentinel c) →
  pending (armed ctx c) = frames (chunks ++ echo :: mirrors) →
  ∃ c' k, Execute ctx command c = Ret (Ok (bodies chunks)) c' ∧
    sent c' = sent c ++ encode (request command c) ++ encode (sentinel c) ∧
    pending c' = frames (drop k mirrors).
Proof.
  intros Hm Ha Hu Hv Hb He Hp. rewrite Execute_start, Hm by done.
  destruct (readMultiPacket_ok (next_id (id c)) (next_id (next_id (id c))) chunks echo mirrors
    (requested_multi ctx command c)) as (c' & k & HR & Hf & Hp'); [done..|].
  exists c', k. split_and!; [done| |done]. by apply frame_inv in Hf as (-> & _).
Qed.

(** C4: in the default mode, if the peer's bytes before the deadline are the
    chunks of the reply (ids the request's or -1), the echo of the sentinel and
    whole trailing mirror packets, then [Execute] returns the concatenation of the
    chunks' bodies, however the bytes are cut into segments and reads; it has
    written the command and the sentinel, and only mirror packets can be left. *)
Theorem execute_multi_reassembles (ctx : Context) (command : string) (c : Conn)
    (chunks mirrors : list Packet) (echo : Packet) :
  mode (set c) = readMulti → accepts command c → usable ctx c →
  Forall valid_packet (chunks ++ echo :: mirrors) →
  Forall (λ p, belongs (ID (request command c)) p ∧ ID p ≠ ID (sentinel c)) chunks →
  ID echo = ID (sentinel c) →
  pending (armed ctx c) = frames (chunks ++ echo :: mirrors) →
  ∃ c' k, Execute ctx command c = Ret (Ok (bodies chunks)) c' ∧
    sent c' = sent c ++ encode (request command c) ++ encode (sentinel c) ∧
    pending c' = frames (drop k mirrors).
Proof. apply Execute_multi_ok. Qed.

Lemma execute_multi_reassembles_witness :
  ∃ c' k, Execute Background "list" (sample [] [(3, Seg (encode (mkPacket 2 0 "hel")));
      (5, Seg (encode (mkPacket (-1) 0 "lo") ++ encode (mkPacket 3 0 "")))]) =
    Ret (Ok "hello") c' ∧ pending c' = frames (drop k []).
Proof.
  destruct (execute_multi_reassembles Background "list" (sample [] [(3, Seg (encode (mkPacket 2 0 "hel")));
      (5, Seg (encode (mkPacket (-1) 0 "lo") ++ encode (mkPacket 3 0 "")))])
    [mkPacket 2 0 "hel"; mkPacket (-1) 0 "lo"] [] (mkPacket 3 0 "")) as (c' & k & HE & _ & Hp).
  - reflexivity.
  - split_and!; [reflexivity|discriminate|vm_compute; discriminate].
  - split_and!; reflexivity.
  - repeat constructor; vm_compute; discriminate.
  - repeat constructor; vm_compute; (left; reflexivity) || (right; reflexivity) || discriminate.
  - reflexivity.
  - vm_compute. reflexivity.
  - exists c', k. split; [exact HE|exact Hp].
Defined.

(** C9: no truncated success. Whatever the peer sends, when [Execute] in the
    default mode succeeds, the packets it read are replies to this very request
    (or carry -1) followed by the echo of this command's sentinel, and the result
    is the concatenation of all their bodies. *)
Theorem execute_multi_sound (ctx : Context) (command out : string) (c c' : Conn) :
  mode (set c) = readMulti → accepts command c → usable ctx c →
  Execute ctx command c = Ret (Ok out) c' →
  ∃ ps n echo c1 c2, reads (requested_multi ctx command c) ps c1 ∧
    Forall (λ p, belongs (ID (request command c)) p) ps ∧
    ReadFrom c1 = Ret (n, Ok echo) c2 ∧ ID echo = ID (sentinel c) ∧ out = bodies ps.
Proof.
  intros Hm Ha Hu. rewrite Execute_start, Hm by done. intros HE.
  apply multi_loop_sound in HE as (ps & n & echo & c1 & c2 & HR & HF & HR2 & He & -> & _).
  exists ps, n, echo, c1, c2. split_and!; try done.
  revert HF. apply Forall_impl. by intros p [? _].
Qed.

Lemma execute_multi_sound_witness :
  ∃ ps, bodies ps = "ok" ∧ Forall (λ p, belongs 2 p) ps.
Proof.
  destruct (Execute Background "list" (sample [] [(3, Seg (encode (mkPacket 2 0 "ok") ++
      encode (mkPacket 3 0 "")))])) as [[out|e] c'| |] eqn:HE;
    [|vm_compute in HE; discriminate..].
  pose proof HE as HE'. vm_compute in HE'.
  destruct (execute_multi_sound Background "list" out
    (sample [] [(3, Seg (encode (mkPacket 2 0 "ok") ++ encode (mkPacket 3 0 "")))]) c')
    as (ps & n & echo & c1 & c2 & _ & HF & _ & _ & Hout).
  - reflexivity.
  - split_and!; [reflexivity|discriminate|vm_compute; discriminate].
  - split_and!; reflexivity.
  - exact HE.
  - exists ps. split; [congruence|exact HF].
Defined.

(** A packet that belongs neither to the request nor to the sentinel makes
    [Execute] fail with [ErrResponseMismatch], whatever correct chunks came before
    it: replies of another command are never returned. *)
Theorem execute_mismatch (ctx : Context) (command : string) (c : Conn)
    (chunks : list Packet) (bad : Packet) (rest : list byte) :
  mode (set c) = readMulti → accepts command c → usable ctx c →
  Forall valid_packet (chunks ++ [bad]) →
  Forall (λ p, belongs (ID (request command c)) p ∧ ID p ≠ ID (sentinel c)) chunks →
  ¬ belongs (ID (request command c)) bad → ID bad ≠ ID (sentinel c) →
  pending (armed ctx c) = frames (chunks ++ [bad]) ++ rest →
  ∃ c', Execute ctx command c = Ret (Err ErrResponseMismatch) c'.
Proof.
  intros Hm Ha Hu [Hvc [Hvb _]%Forall_cons_1]%Forall_app Hb Hnb Hns Hp.
  rewrite Execute_start, Hm by done. rewrite frames_app, <- app_assoc in Hp.
  set (c0 := requested_multi ctx command c).
  destruct (reads_frames chunks _ c0 Hvc Hp) as (c1 & HRs & Hp1 & _).
  rewrite frames_one in Hp1.
  destruct (ReadFrom_frame bad _ c1 Hvb Hp1) as (c2 & HR & _).
  pose proof (reads_left _ _ _ HRs) as Hl. apply ReadFrom_inv in HR as Hl2.
  exists c2. unfold readMultiPacket. erewrite multi_loop_reads by (done || lia).
  destruct (S (left_bytes c0) - length chunks)%nat eqn:Hfuel; [lia|].
  cbn [multi_loop]. rewrite (bind_Ret _ _ _ _ _ HR). unfold ret at 1, bind at 1.
  apply Z.eqb_neq in Hns. simpl in Hns. rewrite Hns.
  destruct (negb (ID bad =? next_id (id c)) && negb (ID bad =? -1)) eqn:E; [done|].
  by apply belongs_test in E.
Qed.

Lemma execute_mismatch_witness :
  ∃ c', Execute Background "list" (sample [] [(3, Seg (encode (mkPacket 9 0 "x")))]) =
    Ret (Err ErrResponseMismatch) c'.
Proof.
  apply (execute_mismatch Background "list" (sample [] [(3, Seg (encode (mkPacket 9 0 "x")))])
    [] (mkPacket 9 0 "x") []).
  - reflexivity.
  - split_and!; [reflexivity|discriminate|vm_compute; discriminate].
  - split_and!; reflexivity.
  - repeat constructor; vm_compute; discriminate.
  - constructor.
  - vm_compute. intros [?|?]; discriminate.
  - vm_compute. discriminate.
  - vm_compute. reflexivity.
Defined.

(** In single-packet mode [Execute] writes only the command and answers with
    the first packet of the stream: its body if the id is the request's or -1,
    [ErrResponseMismatch] otherwise; everything after that packet stays unread. *)
Theorem execute_single (ctx : Context) (command : string) (c : Conn) (p : Packet) (rest : list byte) :
  mode (set c) = readSingle → accepts command c → usable ctx c → valid_packet p →
  pending (armed ctx c) = encode p ++ rest →
  ∃ c', Execute ctx command c =
      Ret (if decide (ID p = ID (request command c) ∨ ID p = -1)
           then Ok (Body p) else Err ErrResponseMismatch) c' ∧
    sent c' = sent c ++ encode (request command c) ∧ pending c' = rest.
Proof.
  intros Hm Ha Hu Hv Hp. rewrite Execute_start, Hm by done.
  rewrite <- (pending_requested ctx command) in Hp.
  destruct (ReadFrom_frame p rest (requested ctx command c) Hv Hp) as (c' & HR & Hp' & Hf).
  apply frame_inv in Hf as (Hs & _). exists c'. split_and!; [|done|done].
  unfold readSinglePacket. rewrite (bind_Ret _ _ _ _ _ HR). unfold ret at 1, bind at 1.
  destruct (negb (ID p =? next_id (id c)) && negb (ID p =? -1)) eqn:E; case_decide as Hd; try done.
  - change (belongs (next_id (id c)) p) in Hd. apply belongs_test in Hd. congruence.
  - by apply belongs_test in E.
Qed.

Lemma execute_single_witness :
  ∃ c', Execute Background "list" (sample [WithSinglePacket] [(3, Seg (encode (mkPacket 2 0 "one")))]) =
    Ret (Ok "one") c'.
Proof.
  destruct (execute_single Background "list"
    (sample [WithSinglePacket] [(3, Seg (encode (mkPacket 2 0 "one")))]) (mkPacket 2 0 "one") [])
    as (c' & HE & _).
  - reflexivity.
  - split_and!; [reflexivity|discriminate|vm_compute; discriminate].
  - split_and!; reflexivity.
  - repeat constructor; vm_compute; discriminate.
  - vm_compute. reflexivity.
  - exists c'. exact HE.
Defined.

(** C10: with a deadline (the per-operation one or the context's) [Execute] in the
    multi- and single-packet modes always returns, whatever the peer sends or
    withholds, even if it stops reading or the socket fails, and never after the
    deadline. *)
Theorem execute_deadline (ctx : Context) (command : string) (c : Conn) (d : Z) :
  mode (set c) ≠ readIdle → exec_deadline ctx c = Some d →
  ∃ r c', Execute ctx command c = Ret r c' ∧
          nc_now (sock c) ≤ nc_now (sock c') ≤ Z.max (nc_now (sock c)) d.
Proof. apply Execute_timely. Qed.

Lemma execute_deadline_witness :
  ∃ r c', Execute Background "list" (sample [] []) = Ret r c' ∧
          0 ≤ nc_now (sock c') ≤ 5000000000.
Proof.
  destruct (execute_deadline Background "list" (sample [] []) 5000000000) as (r & c' & HE & Ht).
  - discriminate.
  - reflexivity.
  - exists r, c'. split; [exact HE|exact Ht].
Defined.

Lemma open_reply (ctx : Context) (nc : netConn) (password : string) (st : settings)
    (resp : Packet) (ps : list Packet) (rest : list byte) :
  usable ctx (newConn nc st) → Forall valid_packet ps → auth_reply resp ps →
  pending (armed ctx (newConn nc st)) = frames ps ++ rest →
  ∃ c', open ctx nc password st = Ret (auth_verdict resp) c' ∧ pending c' = rest ∧
    frame c' = frame (wrote (encode {| ID := 1; Type_ := TypeAuth; Body := password |})
                       (set_id 1 (armed ctx (newConn nc st)))).
Proof.
  intros Hu Hv Hr Hp. unfold open.
  erewrite bind_Ret by (etrans; [apply (apply_deadline ctx (newConn nc st))|]; destruct Hu as (-> & _); done).
  cbv beta iota.
  destruct (authenticate_verdict password resp ps rest (armed ctx (newConn nc st)))
    as (c' & HA & Hp' & Hf); [by apply (usable_writable ctx (newConn nc st) 0)|done..|].
  exists c'. split_and!; [|done|done].
  rewrite (bind_Ret _ _ _ _ _ HA). by destruct (auth_verdict resp) as [[]|].
Qed.

(** The handshake. [open] sends the password in a [TypeAuth] packet with id 1,
    skips one leading [TypeResponseValue] packet if there is one, and decides on
    the next packet alone: any other type is [ErrInvalidAuthResponse], id -1 is
    [ErrAuthFailed], and everything else authenticates, leaving the connection
    open, with its settings, and the rest of the stream unread. *)
Theorem open_verdict (ctx : Context) (nc : netConn) (password : string) (st : settings)
    (resp : Packet) (ps : list Packet) (rest : list byte) :
  usable ctx (newConn nc st) → Forall valid_packet ps → auth_reply resp ps →
  pending (armed ctx (newConn nc st)) = frames ps ++ rest →
  ∃ c', open ctx nc password st = Ret (auth_verdict resp) c' ∧
    sent c' = nc_out nc ++ encode {| ID := 1; Type_ := TypeAuth; Body := password |} ∧
    set c' = st ∧ closed c' = false ∧ id c' = 1 ∧ nc_closed (sock c') = false ∧ pending c' = rest.
Proof.
  intros Hu Hv Hr Hp. destruct (open_reply ctx nc password st resp ps rest Hu Hv Hr Hp) as (c' & HO & Hp' & Hf).
  apply frame_inv in Hf as (Hs & Hset & Hcl & Hid & Hsc & _).
  exists c'. split_and!; try done. rewrite Hsc. apply Hu.
Qed.

Lemma open_verdict_witness :
  ∃ c', open Background (new_netConn [(1, Seg (encode (mkPacket 1 0 "") ++ encode (mkPacket (-1) 2 "")))] 0)
      "wrong" (newSettings []) = Ret (Err ErrAuthFailed) c'.
Proof.
  destruct (open_verdict Background
    (new_netConn [(1, Seg (encode (mkPacket 1 0 "") ++ encode (mkPacket (-1) 2 "")))] 0)
    "wrong" (newSettings []) (mkPacket (-1) 2 "") [mkPacket 1 0 ""; mkPacket (-1) 2 ""] [])
    as (c' & HO & _).
  - split_and!; reflexivity.
  - repeat constructor; vm_compute; discriminate.
  - apply auth_sentinel. reflexivity.
  - vm_compute. reflexivity.
  - exists c'. exact HO.
Defined.

(** C39: [drainSourceMirror] is documented never to block because it only consumes
    buffered bytes. With the start of a frame buffered (one to three bytes of its
    size field) and a silent peer it does wait: until the read deadline, and for
    ever without one. *)
Theorem drain_waits_for_partial_frame (c : Conn) :
  b_err (br c) = None → (0 < Buffered (br c) < 4)%nat → nc_in (sock c) = [] →
  nc_closed (sock c) = false →
  before (nc_now (sock c)) (nc_rdeadline (sock c)) = true →
  match nc_rdeadline (sock c) with
  | Some d => ∃ c', drainSourceMirror c = Ret tt c' ∧ nc_now (sock c') = d
  | None => ∃ c', drainSourceMirror c = Blocks c'
  end.
Proof.
  destruct c as [[s buf err] st cl i]. unfold sock, Buffered. simpl. intros -> Hb Hin Hcl Hnow.
  unfold drainSourceMirror. simpl drain_loop. unfold gets at 1, bind at 1, Buffered. simpl.
  rewrite decide_True by lia.
  assert (∀ k, k ≠ 0%nat → Read k s =
    match nc_rdeadline s with
    | Some d => Ret ([], Some errTimeout) (set_in [] (Z.max (nc_now s) d) s)
    | None => Blocks s
    end) as HR.
  { intros k Hk. unfold Read, netConn_Reader. rewrite decide_False, Hcl, Hnow, Hin by done.
    simpl. by destruct (nc_rdeadline s). }
  destruct buf as [|x1 [|x2 [|x3 [|]]]]; simpl in Hb; try lia;
    unfold ReadFrom, ReadFull; simpl;
    unfold bind, Read, Conn_Reader, zoom, Read, bufio_Reader; simpl;
    rewrite HR by done; destruct (nc_rdeadline s) as [d|]; simpl in *; eexists;
    try done; (split; [done|simpl; lia]).
Qed.

Lemma drain_waits_for_partial_frame_witness :
  ∃ c', drainSourceMirror (mkConn (mkBufio (new_netConn [] 0) [x0a] None) (newSettings []) false 3) =
    Blocks c'.
Proof.
  apply (drain_waits_for_partial_frame
    (mkConn (mkBufio (new_netConn [] 0) [x0a] None) (newSettings []) false 3)).
  - reflexivity.
  - unfold Buffered. simpl. lia.
  - reflexivity.
  - reflexivity.
  - reflexivity.
Defined.
