(* ===== verification/IdleProps.v ===== *)
(** * Read-until-idle mode

    The segments of a reply as the peer flushed them, each holding whole
    packets. [cursor] tracks exactly how far the connection has read into them,
    and at what time; with it the loop of [readIdleDrain] is followed packet by
    packet under its moving deadline. *)

From S2P Require Import Prelude GoErrors GoIO GoNet Packet Options Conn ConnProps.

Local Open Scope Z_scope.

(** ** The segment under the cursor as a stream *)

Section Cursor.
Context (k : nat).

(** The segment that is followed by exactly [k] arrivals, if it is next, has
    bytes left and arrives in time. *)
Definition head_seg (s : netConn) : option (Z * list byte) :=
  match nc_in s with
  | (t, Seg (x :: bs)) :: l =>
      if bool_decide (length l = k) && negb (nc_closed s) &&
         before (nc_now s) (nc_rdeadline s) && before t (nc_rdeadline s)
      then Some (t, x :: bs) else None
  | _ => None
  end.

Definition cur_pending (b : bufio netConn) : list byte :=
  match b_err b, head_seg (b_rd b) with
  | None, Some (t, bs) =>
      if decide (b_buf b = [] ∨ t ≤ nc_now (b_rd b)) then b_buf b ++ bs else []
  | _, _ => b_buf b
  end.

(** The socket once that segment is consumed. *)
Definition settled (s : netConn) : netConn :=
  match head_seg s with
  | Some (t, _) => set_in (tail (nc_in s)) (Z.max (nc_now s) t) s
  | None => s
  end.

Lemma head_seg_Some s t bs :
  head_seg s = Some (t, bs) →
  ∃ l, nc_in s = (t, Seg bs) :: l ∧ length l = k ∧ bs ≠ [] ∧ nc_closed s = false ∧
       before (nc_now s) (nc_rdeadline s) = true ∧ before t (nc_rdeadline s) = true.
Proof.
  unfold head_seg. destruct (nc_in s) as [|[t' [[|x bs']| |]] l]; try done.
  case_match eqn:Hc; [|done]. intros [= <- <-]. apply andb_true_iff in Hc as [Hc ?].
  apply andb_true_iff in Hc as [Hc ?]. apply andb_true_iff in Hc as [Hc ?].
  exists l. by reflect_bools.
Qed.

Lemma head_seg_short s : (length (nc_in s) ≤ k)%nat → head_seg s = None.
Proof.
  unfold head_seg. destruct (nc_in s) as [|[t' [[|x bs']| |]] l]; try done. simpl. intros Hl.
  rewrite bool_decide_false by lia. done.
Qed.

(** One receive from the segment: what is left of it, and the clock. *)
Lemma recv_head_seg m s t bs :
  (0 < m)%nat → head_seg s = Some (t, bs) →
  ∃ s', Read m s = Ret (take m bs, None) s' ∧ settled s' = settled s ∧
        t ≤ nc_now s' ∧
        head_seg s' = match drop m bs with [] => None | bs' => Some (t, bs') end.
Proof.
  intros Hm Hh. pose proof Hh as (l & Hin & Hk & Hne & Hcl & Hnow & Ht)%head_seg_Some.
  destruct bs as [|x bs]; [done|].
  eexists. split_and!.
  - unfold Read, netConn_Reader. rewrite decide_False, Hcl, Hnow, Hin by lia. simpl.
    rewrite before_max, Hnow, Ht. done.
  - unfold settled at 2. rewrite Hh, Hin. simpl tail.
    destruct (drop m (x :: bs)) as [|x' bs'] eqn:Hd.
    + unfold settled. rewrite head_seg_short by (simpl; lia). done.
    + unfold settled, head_seg. simpl. rewrite Hcl, before_max, Hnow, Ht, bool_decide_true by done.
      simpl. unfold set_in. simpl. by rewrite Z.max_l by lia.
  - simpl. lia.
  - destruct (drop m (x :: bs)) as [|x' bs'] eqn:Hd.
    + apply head_seg_short. simpl. lia.
    + unfold head_seg. simpl. rewrite Hcl, before_max, Hnow, Ht, bool_decide_true by done. done.
Qed.

#[program] Definition cursor_Stream : Stream (bufio netConn) := {|
  frame b := (settled (b_rd b), b_err b);
  pending := cur_pending
|}.
Next Obligation.
  intros n [s buf err] Hn Hp. unfold Read, bufio_Reader. simpl.
  rewrite decide_False by lia. destruct n as [|n]; [lia|].
  unfold cur_pending in Hp. simpl in Hp.
  destruct buf as [|y buf].
  2:{ eexists _, _. split_and!; [done|done| | |done].
      { simpl. rewrite length_take. lia. }
      unfold cur_pending. simpl.
      destruct err as [e|]; [by rewrite take_drop|].
      destruct (head_seg s) as [[t bs]|]; [|by rewrite take_drop].
      rewrite !decide_True; [|by right; destruct_decide (decide (y :: buf = [] ∨ t ≤ nc_now s)) as HD;
        [destruct HD|]..]. simpl. by rewrite app_assoc, take_drop. }
  destruct err as [e|]; [done|].
  destruct (head_seg s) as [[t bs]|] eqn:Hh; [|done].
  set (m := if decide (bufio_size ≤ S n)%nat then S n else bufio_size).
  destruct (recv_head_seg m s t bs) as (s' & HR & Hset & Ht & Hh');
    [unfold m, bufio_size; clear; case_decide; lia|done|].
  apply head_seg_Some in Hh as Hx. destruct Hx as (l & _ & _ & Hne & _).
  rewrite HR. unfold m in *. clear Hp.
  assert (∀ bs', head_seg s' = match bs' with [] => None | _ => Some (t, bs') end →
    ∀ buf', cur_pending (mkBufio s' buf' None) = buf' ++ bs') as Hpend.
  { intros bs' E buf'. unfold cur_pending. simpl. rewrite E.
    destruct bs'; [by rewrite app_nil_r|]. rewrite decide_True by (by right). done. }
  assert (cur_pending (mkBufio s [] None) = bs) as ->.
  { unfold cur_pending. simpl. by rewrite Hh. }
  case_decide.
  - eexists _, _. split_and!; [done| | | |simpl; by rewrite Hset].
    + destruct bs; done.
    + rewrite length_take. lia.
    + rewrite (Hpend (drop (S n) bs)) by (rewrite Hh'; by destruct (drop (S n) bs)).
      simpl. by rewrite take_drop.
  - unfold bufio_size in *. destruct (take 4096 bs) as [|z zs] eqn:Htk; [by destruct bs|].
    eexists _, _. split_and!; [done|done| | |simpl; by rewrite Hset].
    + simpl. rewrite length_take. lia.
    + rewrite (Hpend (drop 4096 bs)) by (rewrite Hh'; by destruct (drop 4096 bs)).
      rewrite app_assoc, take_drop, <- Htk. by rewrite take_drop.
Qed.
End Cursor.

(** ** Following the loop *)

#[export] Instance belongs_dec req p : Decision (belongs req p).
Proof. unfold belongs. apply _. Defined.

(** [ps] are the packets left in the buffer and the current segment, [l] what
    arrives after it; [T] is the time at which that segment is all read. *)
Record cursor (ps : list Packet) (l : list (Z * arrival)) (T : Z) (c : Conn) : Prop := {
  cur_err : b_err (br c) = None;
  cur_open : nc_closed (sock c) = false;
  cur_pos :
    (b_buf (br c) = frames ps ∧ nc_in (sock c) = l ∧ nc_now (sock c) = T) ∨
    (∃ t bs, bs ≠ [] ∧ nc_in (sock c) = (t, Seg bs) :: l ∧ b_buf (br c) ++ bs = frames ps ∧
       (b_buf (br c) = [] ∨ t ≤ nc_now (sock c)) ∧ T = Z.max (nc_now (sock c)) t)
}.

(** Everything of the connection but its read position. *)
Definition same_conn (c c' : Conn) : Prop :=
  set c' = set c ∧ closed c' = closed c ∧ id c' = id c ∧ sent c' = sent c ∧
  nc_rdeadline (sock c') = nc_rdeadline (sock c).

Lemma Read_sock_mono n a (s s' : netConn) : Read n s = Ret a s' → nc_now s ≤ nc_now s'.
Proof.
  destruct a as [bs e]. unfold Read, netConn_Reader.
  repeat case_match; intros HR; simplify_eq; simpl; try lia.
  match goal with H : recv _ _ _ _ = _ |- _ => apply recv_inv in H as (_ & _ & _ & ? & _); lia end.
Qed.

Lemma Read_now_mono k a c c' :
  Read k c = Ret a c' → nc_now (sock c) ≤ nc_now (sock c').
Proof.
  intros (b & HR & ->)%zoom_inv. destruct c as [[s buf err] st cl i]. unfold sock. cbn in *.
  revert HR. unfold Read at 1, bufio_Reader. simpl.
  repeat case_match; intros HR; simplify_eq; simpl; try lia; by eapply Read_sock_mono.
Qed.

Section CursorFacts.
Context (l : list (Z * arrival)).
Let V : Stream Conn := Conn_Stream_of (cursor_Stream (length l)).

(** The stream view of a connection at a cursor. *)
Lemma cursor_view ps T c :
  cursor ps l T c →
  before (nc_now (sock c)) (nc_rdeadline (sock c)) = true →
  before T (nc_rdeadline (sock c)) = true →
  @pending _ _ V c = frames ps ∧ settled (length l) (sock c) = set_in l T (sock c).
Proof.
  intros [Herr Hopen Hpos] Hnow HT.
  cbn [V pending Conn_Stream_of cursor_Stream]. unfold cur_pending. rewrite Herr.
  fold (sock c).
  destruct Hpos as [(-> & Hin & HnT)|(t & bs & Hbs & Hin & Hfr & Hg & HT')].
  - unfold settled. rewrite !head_seg_short by (rewrite Hin; done). split; [done|].
    destruct (sock c). simpl in *. by subst.
  - assert (head_seg (length l) (sock c) = Some (t, bs)) as Hh.
    { unfold head_seg. rewrite Hin, Hopen, Hnow. destruct bs; [done|].
      rewrite HT', before_max in HT. apply andb_true_iff in HT as [_ ->].
      by rewrite bool_decide_true. }
    unfold settled. rewrite Hh, Hin, decide_True by done. by rewrite HT'.
Qed.

(** And back: the cursor from the view, once the segment was touched. *)
Lemma view_cursor ps T c (s0 : netConn) :
  @pending _ _ V c = frames ps → settled (length l) (sock c) = set_in l T s0 →
  nc_closed s0 = false → b_err (br c) = None → T ≤ nc_now (sock c) →
  cursor ps l T c ∧ nc_now (sock c) = T ∧ nc_out (sock c) = nc_out s0 ∧
  nc_rdeadline (sock c) = nc_rdeadline s0.
Proof.
  cbn [V pending Conn_Stream_of cursor_Stream]. unfold cur_pending, settled. fold (sock c).
  intros Hp Hset Hopen Herr HT. rewrite Herr in Hp.
  destruct (head_seg (length l) (sock c)) as [[t bs]|] eqn:Hh.
  - apply head_seg_Some in Hh as (l' & Hin & _ & Hbs & Hcl & _). rewrite Hin in Hset.
    unfold set_in in Hset. injection Hset as Hl' ? _ ? _ _ HnT _. simpl in Hl'. subst l'.
    assert (nc_now (sock c) = T) by lia. split_and!; try done.
    rewrite decide_True in Hp by (right; lia).
    constructor; [done|done|]. right. exists t, bs. split_and!; try done; (right; lia) || lia.
  - rewrite Hset. split_and!; try done. constructor; rewrite ?Hset; try done. by left.
Qed.

(** Reading any bytes at a cursor advances the clock to [T]. *)
Lemma cursor_touch ps T c bs e c1 :
  cursor ps l T c →
  before (nc_now (sock c)) (nc_rdeadline (sock c)) = true →
  before T (nc_rdeadline (sock c)) = true →
  Read 4 c = Ret (bs, e) c1 → T ≤ nc_now (sock c1).
Proof.
  intros [Herr Hopen Hpos] Hnow HT HR. apply Read_now_mono in HR as Hmono.
  destruct Hpos as [(_ & _ & <-)|(t & bs' & Hbs & Hin & _ & Hg & ->)]; [done|].
  destruct Hg as [Hbuf|]; [|lia].
  apply zoom_inv in HR as (b & HR & ->). revert HR Hmono. unfold sock in *.
  destruct c as [[s buf err] st cl i]. cbn in *. subst buf err.
  unfold Read at 1, bufio_Reader. simpl.
  destruct (Read bufio_size s) as [[ds e'] s'| |] eqn:HRs; [|done..].
  intros HR _.
  assert (nc_now s `max` t ≤ nc_now s') as Hs.
  { revert HRs. unfold Read, netConn_Reader. rewrite Hopen, Hnow, Hin.
    destruct bs' as [|x bs']; [done|]. cbn -[take drop]. rewrite HT.
    intros [= <- <- <-]. done. }
  destruct ds; simplify_eq; simpl; lia.
Qed.

Lemma cursor_read p ps T c :
  cursor (p :: ps) l T c → valid_packet p →
  before (nc_now (sock c)) (nc_rdeadline (sock c)) = true →
  before T (nc_rdeadline (sock c)) = true →
  ∃ n c', ReadFrom c = Ret (n, Ok p) c' ∧ cursor ps l T c' ∧ nc_now (sock c') = T ∧ same_conn c c'.
Proof.
  intros Hc Hv Hnow HT. destruct (cursor_view _ _ _ Hc Hnow HT) as [Hp Hset].
  destruct (@ReadFrom_frame _ _ V p (frames ps) c Hv Hp) as (c' & HR & Hp' & Hf).
  injection Hf as Hset' Herr' Hs Hcl Hid.
  assert (T ≤ nc_now (sock c')) as HTle.
  { apply (ReadFrom_touch (λ x, T ≤ nc_now (sock x))) in HR; [done| |].
    - intros k a s1 s2 ? Hk%Read_now_mono. lia.
    - intros bs e s1 HR1 _. by eapply cursor_touch. }
  destruct (view_cursor ps T c' (sock c)) as (? & ? & ? & ?); try done.
  - etrans; [exact Hset'|exact Hset].
  - apply Hc.
  - etrans; [exact Herr'|apply Hc].
  - eexists _, c'. split_and!; try done.
Qed.
End CursorFacts.

(** ** Bursts of packets *)

(** A reply as the peer flushed it: segments of whole packets with their times. *)
Definition script (bursts : list (Z * list Packet)) : list (Z * arrival) :=
  (λ x, (x.1, Seg (frames x.2))) <$> bursts.

Definition packets (bursts : list (Z * list Packet)) : list Packet := concat bursts.*2.

(** Each segment arrives within [w] of the previous one, and the first within
    [w] of [T]. *)
Fixpoint on_time (w T : Z) (bursts : list (Z * list Packet)) : Prop :=
  match bursts with
  | [] => True
  | (t, ps) :: rest =>
      t < T + w ∧ ps ≠ [] ∧ Forall valid_packet ps ∧ on_time w (Z.max T t) rest
  end.

(** The time the last segment is read. *)
Definition last_time (T : Z) (bursts : list (Z * list Packet)) : Z :=
  fold_left (λ T x, Z.max T x.1) bursts T.

(** Nothing but the end of the stream arrives before [D]. *)
Definition quiet (D : Z) (l : list (Z * arrival)) : Prop :=
  match l with
  | [] => True
  | (_, Fin) :: _ => True
  | (_, Seg []) :: _ => False
  | (t, _) :: _ => D ≤ t
  end.

(** The read deadline moved to [w] from now. *)
Definition rearmed (w : Z) (c : Conn) : Conn :=
  set_sock (set_deadlines (Some (nc_now (sock c) + w)) (nc_wdeadline (sock c)) (sock c)) c.

Lemma cursor_rearmed ps l T w c : cursor ps l T c → cursor ps l T (rearmed w c).
Proof. intros [? ? Hpos]. by constructor. Qed.

Lemma cursor_next l t q qs T c :
  cursor [] ((t, Seg (frames (q :: qs))) :: l) T c → cursor (q :: qs) l (Z.max T t) c.
Proof.
  intros [Herr Hopen [(Hb & Hin & HT)|(t' & bs & Hbs & _ & Hb & _)]].
  - constructor; [done..|]. right. exists t, (frames (q :: qs)).
    split_and!; try done; [|by left|by rewrite HT].
    by rewrite Hb.
  - exfalso. by destruct (b_buf (br c)), bs.
Qed.

(** At the end of the bursts the read times out or meets the end of the stream. *)
Lemma cursor_quiet l T w c :
  0 < w → cursor [] l T c → nc_now (sock c) = T → quiet (T + w) l →
  ∃ e c', ReadFrom (rearmed w c) = Ret (0, Err e) c' ∧
    isIdleTimeout e || Is e EOF = true ∧ sent c' = sent c ∧ id c' = id c ∧
    T ≤ nc_now (sock c').
Proof.
  intros Hw [Herr Hopen Hpos] HT Hq. unfold quiet in Hq.
  destruct c as [[s buf err] st cl i]. unfold sock, sent in *. simpl in *. subst err.
  destruct Hpos as [(-> & Hin & _)|(t & bs & Hbs & _ & Hb & _)]; [|by destruct buf, bs].
  set (s1 := set_deadlines (Some (nc_now s + w)) (nc_wdeadline s) s).
  assert (∃ e s2, Read bufio_size s1 = Ret ([], Some e) s2 ∧ isIdleTimeout e || Is e EOF = true ∧
            nc_out s2 = nc_out s ∧ T ≤ nc_now s2) as (e & s2 & HR & He & Ho & Hn).
  { unfold Read, netConn_Reader, s1. simpl. rewrite Hopen, Hin.
    destruct (Z.ltb_spec (nc_now s) (nc_now s + w)); [|lia]. simpl.
    destruct l as [|[t a] l]; simpl.
    { eexists _, _. split_and!; [done|done|done|simpl; lia]. }
    destruct (Z.ltb_spec (nc_now s `max` t) (nc_now s + w));
      destruct a as [[|x bs]| |e]; try lia; try done;
      eexists _, _; (split_and!; [done|done|done|simpl; lia]). }
  exists e, (set_br (mkBufio s2 [] None) (mkConn (mkBufio s1 [] None) st cl i)).
  split_and!; try done. apply ReadFrom_fails.
  unfold Read, Conn_Reader, zoom, rearmed. simpl. unfold Read at 1, bufio_Reader. simpl.
  unfold set_sock, set_br, set_rd, sock. simpl. fold s1. by rewrite HR.
Qed.

(** The builder after one more packet. *)
Definition append_if (req : Z) (b : string) (p : Packet) : string :=
  if (ID p =? req) || (ID p =? -1) then String.append b (Body p) else b.

Lemma append_if_bodies req b p ps :
  String.append (append_if req b p) (bodies (filter (belongs req) ps)) =
  String.append b (bodies (filter (belongs req) (p :: ps))).
Proof.
  unfold append_if. rewrite filter_cons. unfold belongs at 2.
  destruct (Z.eqb_spec (ID p) req), (Z.eqb_spec (ID p) (-1)); simpl;
    case_decide; simpl; rewrite ?string_app_assoc; done || tauto.
Qed.

(** Every iteration but the first starts by moving the deadline. *)
Lemma idle_loop_rearms fuel req b c :
  nc_closed (sock c) = false →
  idle_loop (S fuel) req false b c =
  (do (_, r) <- ReadFrom;
   match r with
   | Err err => if isIdleTimeout err || Is err EOF then ret (Ok b) else ret (Err err)
   | Ok resp => idle_loop fuel req false (append_if req b resp)
   end) (rearmed (idleWindow (set c)) c).
Proof.
  intros Hopen. cbn [idle_loop negb]. unfold gets at 1. erewrite bind_Ret.
  2:{ erewrite bind_Ret by done. apply zoom_Ret. unfold SetReadDeadline. by rewrite Hopen. }
  done.
Qed.

Lemma idle_step fuel req b p ps l T w c :
  cursor (p :: ps) l T c → valid_packet p → idleWindow (set c) = w →
  nc_now (sock c) ≤ T < nc_now (sock c) + w →
  ∃ c', idle_loop (S fuel) req false b c = idle_loop fuel req false (append_if req b p) c' ∧
        cursor ps l T c' ∧ nc_now (sock c') = T ∧ same_conn (rearmed w c) c'.
Proof.
  intros Hc Hp Hw HT. rewrite idle_loop_rearms, Hw by apply Hc.
  destruct (cursor_read l p ps T (rearmed w c)) as (n & c1 & HR & Hc1 & HT' & Hsame);
    [by apply cursor_rearmed|done|simpl; apply Z.ltb_lt; lia..|].
  exists c1. by rewrite (bind_Ret _ _ _ _ _ HR).
Qed.

Lemma idle_loop_bursts fuel bursts ps tl T w b req c :
  cursor ps (script bursts ++ tl) T c → nc_now (sock c) = T → idleWindow (set c) = w → 0 < w →
  Forall valid_packet ps → on_time w T bursts → quiet (last_time T bursts + w) tl →
  (length (ps ++ packets bursts) < fuel)%nat →
  ∃ c', idle_loop fuel req false b c =
        Ret (Ok (String.append b (bodies (filter (belongs req) (ps ++ packets bursts))))) c' ∧
        sent c' = sent c ∧ id c' = id c ∧ last_time T bursts ≤ nc_now (sock c').
Proof.
  revert bursts ps T b c.
  induction fuel as [|fuel IH]; intros bursts ps T b c Hc HT Hw Hw0 Hv Ht Hq Hf; [lia|].
  assert (∀ p ps' bursts' T', cursor (p :: ps') (script bursts' ++ tl) T' c →
    T ≤ T' < T + w → Forall valid_packet (p :: ps') → on_time w T' bursts' →
    last_time T' bursts' = last_time T bursts → ps ++ packets bursts = (p :: ps') ++ packets bursts' →
    ∃ c', idle_loop (S fuel) req false b c =
      Ret (Ok (String.append b (bodies (filter (belongs req) (ps ++ packets bursts))))) c' ∧
      sent c' = sent c ∧ id c' = id c ∧ last_time T bursts ≤ nc_now (sock c')) as Hstep.
  { intros p ps' bursts' T' Hc' HT' [Hp Hps']%Forall_cons_1 Ht' Hlt Heq.
    rewrite Heq in Hf |- *. rewrite <- Hlt in Hq |- *.
    destruct (idle_step fuel req b p ps' _ T' w c Hc' Hp Hw) as (c1 & -> & Hc1 & HT1 & Hs);
      [lia|]. destruct Hs as (Hset & _ & Hid & Hsent & _).
    destruct (IH bursts' ps' T' (append_if req b p) c1) as (c2 & HL & Hs2 & Hi2 & Hn2);
      try done; [by rewrite Hset|simpl in Hf; lia|].
    exists c2. rewrite HL, append_if_bodies, Hs2, Hi2, Hsent, Hid. done. }
  destruct ps as [|p ps]; [|apply (Hstep p ps bursts T); try done; lia].
  destruct bursts as [|[t [|q qs]] bursts]; [|by destruct Ht as (_ & ? & _)|].
  - destruct (cursor_quiet tl T w c) as (e & c1 & HR & He & ? & ? & ?); [done..|].
    rewrite idle_loop_rearms, Hw by apply Hc.
    rewrite (bind_Ret _ _ _ _ _ HR), He. simpl. rewrite string_app_nil_r. by exists c1.
  - destruct Ht as (? & _ & Hvq & Ht).
    apply (Hstep q qs bursts (Z.max T t)); try done; [|lia]. by apply cursor_next.
Qed.

Lemma script_packets bursts tl :
  (14 * length (packets bursts) ≤ script_bytes (script bursts ++ tl))%nat.
Proof.
  induction bursts as [|[t ps] bursts IH]; [simpl; lia|].
  change (script ((t, ps) :: bursts) ++ tl) with ((t, Seg (frames ps)) :: script bursts ++ tl).
  rewrite script_bytes_cons.
  change (packets ((t, ps) :: bursts)) with (ps ++ packets bursts). rewrite length_app.
  pose proof (length_frames ps). lia.
Qed.

Lemma Execute_idle_bursts (ctx : Context) (command : string) (c : Conn)
    (t : Z) (ps : list Packet) (bursts : list (Z * list Packet)) (tl : list (Z * arrival)) :
  let w := idleWindow (set c) in
  let T := Z.max (nc_now (sock c)) t in
  mode (set c) = readIdle → accepts command c → usable ctx c → 0 < w →
  b_buf (br c) = [] → b_err (br c) = None →
  nc_in (sock c) = script ((t, ps) :: bursts) ++ tl →
  ps ≠ [] → Forall valid_packet ps → before t (exec_deadline ctx c) = true →
  on_time w T bursts → quiet (last_time T bursts + w) tl →
  ∃ c', Execute ctx command c =
      Ret (Ok (bodies (filter (belongs (ID (request command c))) (ps ++ packets bursts)))) c' ∧
    sent c' = sent c ++ encode (request command c) ∧ last_time T bursts ≤ nc_now (sock c').
Proof.
  intros w T Hm Ha Hu Hw Hbuf Herr Hin Hne Hv Ht Hot Hq.
  rewrite Execute_start, Hm by done. set (c1 := requested ctx command c).
  destruct ps as [|p ps]; [done|]. apply Forall_cons_1 in Hv as [Hp Hps].
  assert (cursor (p :: ps) (script bursts ++ tl) T c1) as Hc.
  { constructor; [done|apply Hu|]. right. exists t, (frames (p :: ps)).
    split_and!; try done; [|by left]. change (b_buf (br c) ++ frames (p :: ps) = frames (p :: ps)).
    by rewrite Hbuf. }
  destruct Hu as (Hopen & Hwf & Hnow).
  destruct (cursor_read (script bursts ++ tl) p ps T c1) as (n & c2 & HR & Hc2 & HT2 & Hs2); [done..| |].
  { change (before T (exec_deadline ctx c) = true). unfold T. by rewrite before_max, Hnow, Ht. }
  destruct Hs2 as (Hset & _ & _ & Hsent & _).
  unfold readIdleDrain. cbn [idle_loop negb]. unfold ret at 1, bind at 1.
  rewrite (bind_Ret _ _ _ _ _ HR). cbv beta iota zeta.
  fold (append_if (next_id (id c)) "" p).
  destruct (idle_loop_bursts (left_bytes c1) bursts ps tl T w (append_if (next_id (id c)) "" p)
    (next_id (id c)) c2) as (c3 & HL & Hs3 & _ & Hn3); try done.
  - by rewrite Hset.
  - change (left_bytes c1) with (length (b_buf (br c)) + script_bytes (nc_in (sock c)))%nat.
    rewrite Hin. pose proof (script_packets ((t, p :: ps) :: bursts) tl). change (packets ((t, p :: ps) :: bursts)) with ((p :: ps) ++ packets bursts) in *.
    simpl length in *. lia.
  - exists c3. rewrite HL, append_if_bodies. split_and!; [done| |done]. by rewrite Hs3, Hsent.
Qed.

(** ** Theorems *)

(** C28: in read-until-idle mode, when the peer flushes the reply in segments of
    whole packets, the first before the deadline and each next one within the idle
    window of the previous, and then goes quiet for a window or closes, [Execute]
    returns the concatenated bodies of the packets that carry the request's id or
    -1 (others are skipped), having written only the command. *)
Theorem execute_idle_reassembles (ctx : Context) (command : string) (c : Conn)
    (t : Z) (ps : list Packet) (bursts : list (Z * list Packet)) (tl : list (Z * arrival)) :
  let w := idleWindow (set c) in
  let T := Z.max (nc_now (sock c)) t in
  mode (set c) = readIdle → accepts command c → usable ctx c → 0 < w →
  b_buf (br c) = [] → b_err (br c) = None →
  nc_in (sock c) = script ((t, ps) :: bursts) ++ tl →
  ps ≠ [] → Forall valid_packet ps → before t (exec_deadline ctx c) = true →
  on_time w T bursts → quiet (last_time T bursts + w) tl →
  ∃ c', Execute ctx command c =
      Ret (Ok (bodies (filter (belongs (ID (request command c))) (ps ++ packets bursts)))) c' ∧
    sent c' = sent c ++ encode (request command c) ∧ last_time T bursts ≤ nc_now (sock c').
Proof. apply Execute_idle_bursts. Qed.

Lemma execute_idle_reassembles_witness :
  ∃ c', Execute Background "help" (sample [WithReadUntilIdle 0]
      (script [(3, [mkPacket 2 0 "a|"]); (60000000, [mkPacket 7 0 "stray"; mkPacket 2 0 "b"])])) =
    Ret (Ok "a|b") c'.
Proof.
  destruct (execute_idle_reassembles Background "help" (sample [WithReadUntilIdle 0]
      (script [(3, [mkPacket 2 0 "a|"]); (60000000, [mkPacket 7 0 "stray"; mkPacket 2 0 "b"])]))
    3 [mkPacket 2 0 "a|"] [(60000000, [mkPacket 7 0 "stray"; mkPacket 2 0 "b"])] [])
    as (c' & HE & _).
  - reflexivity.
  - split_and!; [reflexivity|discriminate|vm_compute; discriminate].
  - split_and!; reflexivity.
  - reflexivity.
  - reflexivity.
  - reflexivity.
  - reflexivity.
  - discriminate.
  - repeat constructor; vm_compute; discriminate.
  - reflexivity.
  - split_and!; [reflexivity|discriminate| |exact I].
    repeat constructor; vm_compute; discriminate.
  - exact I.
  - exists c'. rewrite HE. vm_compute. reflexivity.
Defined.

(** [n] packets, 50 ms apart, after time [T]. *)
Fixpoint drip (n : nat) (T : Z) : list (Z * list Packet) :=
  match n with
  | 0%nat => []
  | S n' => (T + 50 * Millisecond, [mkPacket 2 0 "."]) :: drip n' (T + 50 * Millisecond)
  end.

Lemma drip_on_time n T : on_time DefaultIdleWindow T (drip n T).
Proof.
  revert T. induction n as [|n IH]; intros T; [done|]. cbn [drip on_time].
  unfold DefaultIdleWindow, Millisecond in *. split_and!; [lia|done| |].
  - repeat constructor; vm_compute; discriminate.
  - replace (T `max` (T + 50 * 1000000)) with (T + 50 * 1000000) by lia. apply IH.
Qed.

Lemma drip_last_time n T : last_time T (drip n T) = T + 50 * Millisecond * Z.of_nat n.
Proof.
  revert T. unfold last_time. induction n as [|n IH]; intros T; cbn [drip fold_left fst]; [lia|].
  unfold Millisecond in *. replace (T `max` (T + 50 * 1000000)) with (T + 50 * 1000000) by lia.
  rewrite IH. lia.
Qed.

(** C40: in read-until-idle mode the context's deadline does not bound the round
    trip: from the second packet on only the idle window does. For every [n] there
    is a peer, sending a packet every 50 ms, with which [Execute] under a context
    that expires at 60 ms returns [n] times 50 ms after its first packet, without
    an error, although its documentation says the context's deadline bounds it. *)
Theorem idle_outlives_context (n : nat) :
  ∃ out c', Execute (mkContext (Some (60 * Millisecond)) None) "help"
      (sample [WithReadUntilIdle 0] (script (drip (S n) 0))) = Ret (Ok out) c' ∧
    50 * Millisecond + 50 * Millisecond * Z.of_nat n ≤ nc_now (sock c').
Proof.
  destruct (Execute_idle_bursts (mkContext (Some (60 * Millisecond)) None) "help"
    (sample [WithReadUntilIdle 0] (script (drip (S n) 0))) (50 * Millisecond)
    [mkPacket 2 0 "."] (drip n (50 * Millisecond)) []) as (c' & HE & _ & Hn); try done.
  - by rewrite app_nil_r.
  - repeat constructor; vm_compute; discriminate.
  - apply drip_on_time.
  - eexists _, c'. split; [exact HE|].
    change (nc_now (sock (sample _ _)) `max` (50 * Millisecond)) with (50 * Millisecond) in Hn.
    by rewrite drip_last_time in Hn.
Qed.

(** A reply of two packets, the second of which stalls in the middle for longer
    than the idle window, then the reply to a second command. *)
Definition stalled : list (Z * arrival) :=
  let p2 := mkPacket 2 0 "two two two two" in
  [(1, Seg (encode (mkPacket 2 0 "one") ++ take 6 (encode p2)));
   (500, Seg (drop 6 (encode p2)));
   (600, Seg (encode (mkPacket 3 0 "pong")))].

(** In read-until-idle mode a response that stalls inside a packet does more than
    end the read early: the bytes of the cut packet that had arrived are gone, so
    the next command takes the rest of that packet for the start of its own reply
    and fails, although the server sent only well-formed packets and answered it. *)
Theorem idle_cut_desyncs :
  ∃ c1 c2, Execute Background "list" (sample [WithReadUntilIdle 100] stalled) = Ret (Ok "one") c1 ∧
    Execute Background "ping" c1 = Ret (Err ErrResponseTooShort) c2.
Proof.
  destruct (Execute Background "list" (sample [WithReadUntilIdle 100] stalled)) as [r1 c1| |] eqn:H1;
    [|vm_compute in H1; discriminate..].
  destruct (Execute Background "ping" c1) as [r2 c2| |] eqn:H2;
    vm_compute in H1; injection H1 as <- <-; vm_compute in H2; try discriminate.
  injection H2 as <- <-. eexists _, _. split; reflexivity.
Qed.
