(* ===== verification/Resume.v ===== *)
(** * Computations that can be interrupted between their actions

    [GoM S A] runs a computation in one go. Goroutines that share a state
    interleave, so here a computation is a [prog]: a tree of atomic actions, each
    one call on the shared state (one buffered read, one write, one deadline). A
    goroutine is a [prog] and the scheduler runs one action at a time; [denote]
    runs all of them without interference.

    [wp R B p s Q]: from state [s], while between two actions other goroutines
    change the state only as [R] allows, no action of [p] spins, [p] blocks only
    in a state where [B] holds, and its result satisfies [Q]. *)

From S2P Require Import Prelude GoErrors GoIO GoNet Packet.

Inductive prog (S A : Type) : Type :=
  | Pure (a : A)
  | Act (B : Type) (m : GoM S B) (k : B → prog S A).
Arguments Pure {S A} a.
Arguments Act {S A} {B} m k.

Fixpoint pbind {S A B} (p : prog S A) (k : A → prog S B) : prog S B :=
  match p with
  | Pure a => k a
  | Act m k' => Act m (λ b, pbind (k' b) k)
  end.

Definition act {S A} (m : GoM S A) : prog S A := Act m Pure.

Notation "'run' x <- p ; k" := (pbind p (λ x, k))
  (at level 10, x pattern, p at level 100, k at level 200) : rcon_scope.
Notation "'run_try' x <- p ; k" :=
  (pbind p (λ r, match r with Ok x => k | Err e => Pure (Err e) end))
  (at level 10, x pattern, p at level 100, k at level 200) : rcon_scope.

(** Run alone. *)
Fixpoint denote {S A} (p : prog S A) : GoM S A :=
  match p with
  | Pure a => ret a
  | Act m k => bind m (λ b, denote (k b))
  end.

Lemma denote_bind {S A B} (p : prog S A) (k : A → prog S B) s :
  denote (pbind p k) s = bind (denote p) (λ a, denote (k a)) s.
Proof.
  revert s. induction p as [a|C m k' IH]; intros s; simpl; [done|].
  unfold bind. destruct (m s); [apply IH|done..].
Qed.

Lemma bind_ext {S A B} (m m' : GoM S A) (k k' : A → GoM S B) s :
  m s = m' s → (∀ a s', k a s' = k' a s') → bind m k s = bind m' k' s.
Proof. unfold bind. intros -> Hk. by destruct (m' s). Qed.

Lemma bind_assoc {S A B C} (m : GoM S A) (k : A → GoM S B) (l : B → GoM S C) s :
  bind (bind m k) l s = bind m (λ a, bind (k a) l) s.
Proof. unfold bind. by destruct (m s). Qed.

(** A program whose actions are those of [m]. *)
Definition implements {S A} (p : prog S A) (m : GoM S A) : Prop := ∀ s, denote p s = m s.

Lemma implements_Pure {S A} (a : A) : @implements S A (Pure a) (ret a).
Proof. by intros s. Qed.

Lemma implements_act {S A} (m : GoM S A) : implements (act m) m.
Proof. intros s. simpl. unfold bind, ret. by destruct (m s). Qed.

Lemma implements_Act {S A B} (m : GoM S B) (k : B → prog S A) (l : B → GoM S A) :
  (∀ b, implements (k b) (l b)) → implements (Act m k) (bind m l).
Proof. intros Hk s. simpl. apply bind_ext; [done|]. intros b s'. apply Hk. Qed.

Lemma implements_bind {S A B} (p : prog S A) m (k : A → prog S B) l :
  implements p m → (∀ a, implements (k a) (l a)) → implements (pbind p k) (bind m l).
Proof.
  intros Hp Hk s. rewrite denote_bind. apply bind_ext; [apply Hp|].
  intros a s'. apply Hk.
Qed.

#[export] Hint Resolve implements_Pure implements_act : rcon.

Ltac implements_tac :=
  repeat first
    [ solve [eauto with rcon]
    | match goal with
      | |- ∀ _, _ => intros ?
      | |- implements (pbind _ _) (bind _ _) => apply implements_bind
      | |- implements (Act _ _) (bind _ _) => apply implements_Act
      | |- implements (match ?x with _ => _ end) _ => destruct x
      | |- implements (let _ := _ in _) _ => cbv zeta
      end ].

(** ** io.ReadFull and the codec, action by action *)

Section Codec.
Context {S : Type} `{Reader S} `{Writer S}.

Definition spin {A} : prog S A := act (λ _, Diverges).

Fixpoint pread_loop (fuel need : nat) (acc : list byte) : prog S (list byte * option error) :=
  if decide (need = 0) then Pure (acc, None) else
  match fuel with
  | 0 => spin
  | Datatypes.S fuel' =>
      Act (Read need) (λ '(bs, e),
        match e with
        | None => pread_loop fuel' (need - length bs) (acc ++ bs)
        | Some e => Pure (acc ++ bs, Some e)
        end)
  end.

Definition pReadFull (n : nat) : prog S (list byte * option error) :=
  run (bs, e) <- pread_loop n n [];
  if decide (n <= length bs) then Pure (bs, None) else
  match e with
  | Some EOF => Pure (bs, Some (if decide (bs = []) then EOF else ErrUnexpectedEOF))
  | e => Pure (bs, e)
  end.

Definition pWriteTo (p : Packet) : prog S (Z * option error) :=
  Act (Write (frame_buffer p)) (λ '(n, err), Pure (Z.of_nat n, err)).

Definition pReadFrom : prog S (Z * result Packet) :=
  (run (sizeField, err) <- pReadFull 4;
  match err with
  | Some e => Pure (0, Err e)
  | None =>
      let sizeU := Uint32 sizeField in
      if MaxPayloadSize + MinPacketSize <? sizeU then Pure (4, Err ErrResponseTooLong) else
      let size := sizeU in
      if size <? MinPacketSize then Pure (4, Err ErrResponseTooShort) else
      run (body, err) <- pReadFull (Z.to_nat size);
      match err with
      | Some e => Pure (4, Err e)
      | None =>
          Pure (4 + size,
               Ok {| ID := int32 (Uint32 (slice 0 4 body));
                     Type_ := int32 (Uint32 (slice 4 8 body));
                     Body := string_of (slice 8 (Z.to_nat (size - PaddingSize)) body) |})
      end
  end)%Z.

Lemma implements_spin {A} : implements spin (λ _ : S, @Diverges S A).
Proof. by intros s. Qed.

Lemma implements_read_loop fuel need acc :
  implements (pread_loop fuel need acc) (read_loop fuel need acc).
Proof.
  revert need acc. induction fuel as [|fuel IH]; intros need acc; simpl; case_decide;
    implements_tac; apply implements_spin.
Qed.

Lemma implements_ReadFull n : implements (pReadFull n) (ReadFull n).
Proof.
  apply implements_bind; [apply implements_read_loop|].
  intros [bs e]. implements_tac.
Qed.
Local Hint Resolve implements_ReadFull : rcon.

Lemma implements_WriteTo p : implements (pWriteTo p) (WriteTo p).
Proof. unfold pWriteTo, WriteTo. implements_tac. Qed.

Lemma implements_ReadFrom : implements pReadFrom ReadFrom.
Proof. unfold pReadFrom, ReadFrom. implements_tac. Qed.
End Codec.

#[export] Hint Resolve implements_spin implements_ReadFrom implements_WriteTo : rcon.

(** ** Programs among other goroutines *)

Section Interference.
Context {S : Type} (R : S → S → Prop) (B : S → Prop).
Context `{!Reflexive R} `{!Transitive R}.

Fixpoint wp {A} (p : prog S A) (s : S) (Q : A → S → Prop) : Prop :=
  match p with
  | Pure a => ∀ s1, R s s1 → Q a s1
  | Act m k =>
      ∀ s1, R s s1 →
        match m s1 with
        | Ret b s2 => wp (k b) s2 Q
        | Blocks _ => B s1
        | Diverges => False
        end
  end.

(** Interference before the program starts changes nothing. *)
Lemma wp_stable {A} (p : prog S A) s s' Q : R s s' → wp p s Q → wp p s' Q.
Proof. intros HR. destruct p; simpl; intros Hp s1 Hs1; apply Hp; by etrans. Qed.

Lemma wp_mono {A} (p : prog S A) s (Q Q' : A → S → Prop) :
  (∀ a s', Q a s' → Q' a s') → wp p s Q → wp p s Q'.
Proof.
  intros HQ. revert s. induction p as [a|C m k IH]; intros s; simpl; [naive_solver|].
  intros Hp s1 Hs1. specialize (Hp s1 Hs1). destruct (m s1); [by apply IH|done..].
Qed.

Lemma wp_bind {A C} (p : prog S A) (k : A → prog S C) s Q :
  wp p s (λ a s', wp (k a) s' Q) → wp (pbind p k) s Q.
Proof.
  revert s. induction p as [a|D m k' IH]; intros s; simpl; [intros Hk; by apply Hk|].
  intros Hp s1 Hs1. specialize (Hp s1 Hs1). destruct (m s1); [by apply IH|done..].
Qed.

(** What a [wp] says of a run without interference. *)
Lemma wp_denote {A} (p : prog S A) s Q :
  wp p s Q → match denote p s with Ret a s' => Q a s' | Blocks _ => True | Diverges => False end.
Proof.
  revert s. induction p as [a|C m k IH]; intros s; simpl; [naive_solver|].
  intros Hp. specialize (Hp s ltac:(done)). unfold bind. destruct (m s); [by apply IH|done..].
Qed.

(** *** Reading, with a bound on the bytes that can still arrive *)

Context `{HRd : Reader S} `{!ReaderLaws S}.
Context (I : S → Prop).

(** Interference keeps the invariant and adds no input. *)
Class Tame : Prop := {
  tame_left s s' : R s s' → left_bytes s' ≤ left_bytes s;
  tame_inv s s' : R s s' → I s → I s';
  tame_read n s : I s → match Read n s with Ret _ s' => I s' | Blocks _ => B s | Diverges => False end
}.
Context `{!Tame}.

Lemma wp_read_loop fuel need acc s :
  need ≤ fuel → I s →
  wp (pread_loop fuel need acc) s (λ r s',
    I s' ∧ ∃ ds, r.1 = acc ++ ds ∧ length ds ≤ need ∧ left_bytes s' + length ds ≤ left_bytes s ∧
    (r.2 = None → length ds = need)).
Proof.
  revert need acc s. induction fuel as [|fuel IH]; intros need acc s Hf HI; simpl;
    (case_decide as Hn; [|try lia]).
  1, 2: intros s1 Hs1; pose proof (tame_left _ _ Hs1); split; [by eapply tame_inv|];
    exists []; rewrite app_nil_r; simpl; repeat split; lia.
  intros s1 Hs1. pose proof (tame_left _ _ Hs1). pose proof (tame_inv _ _ Hs1 HI) as HI1.
  pose proof (tame_read need s1 HI1) as Hr.
  destruct (Read need s1) as [[bs e] s2| |] eqn:HR; [|done..].
  pose proof (Read_len _ _ _ _ _ HR). pose proof (Read_left _ _ _ _ _ HR).
  destruct e as [e|].
  - intros s3 Hs3. pose proof (tame_left _ _ Hs3). split; [by eapply tame_inv|].
    exists bs. simpl. repeat split; [lia..|done].
  - assert (bs ≠ []) by (eapply Read_progress; [|done]; lia).
    assert (0 < length bs) by (destruct bs; simpl; [done|lia]).
    eapply wp_mono, IH; [|lia|done].
    intros [r e] s3 (HI3 & ds & -> & ? & ? & He). split; [done|]. simpl in *.
    exists (bs ++ ds). rewrite app_assoc, length_app. repeat split; [lia..|].
    intros E. specialize (He E). lia.
Qed.

Lemma wp_ReadFull n s :
  I s → wp (pReadFull n) s (λ r s',
    I s' ∧ left_bytes s' + length r.1 ≤ left_bytes s ∧ (r.2 = None → length r.1 = n)).
Proof.
  intros HI. apply wp_bind. eapply wp_mono, (wp_read_loop n n [] s); [|done..].
  intros [bs e] s' (HI' & ds & Hds & ? & ? & He). simpl in *. subst bs.
  assert (∀ e' : option error, (e' = None → length ds = n) → wp (Pure (ds, e')) s' (λ r s',
    I s' ∧ left_bytes s' + length r.1 ≤ left_bytes s ∧ (r.2 = None → length r.1 = n))) as HP.
  { intros e' He' s1 Hs1. pose proof (tame_left _ _ Hs1).
    split; [by eapply tame_inv|]. simpl. split; [lia|done]. }
  repeat case_match; apply HP; try done; lia.
Qed.

(** A packet takes at least 14 of the bytes left. *)
Definition took (s : S) (r : Z * result Packet) (s' : S) : Prop :=
  I s' ∧ left_bytes s' ≤ left_bytes s ∧
  match r.2 with Ok _ => left_bytes s' + 14 ≤ left_bytes s | Err _ => True end.

Lemma wp_ReadFrom s :
  I s → wp pReadFrom s (took s).
Proof.
  intros HI. apply wp_bind. eapply wp_mono, (wp_ReadFull 4 s); [|done].
  intros [sz e] s1 (HI1 & Hl1 & He). simpl in *.
  assert (∀ n e', wp (Pure (n, Err e')) s1 (took s)) as HP.
  { intros n' e' s2 Hs2. pose proof (tame_left _ _ Hs2).
    split; [by eapply tame_inv|]. simpl. split; [lia|done]. }
  destruct e as [e|]; [apply HP|]. specialize (He eq_refl).
  destruct (_ <? _)%Z; [apply HP|]. destruct (Uint32 sz <? MinPacketSize)%Z eqn:Hm; [apply HP|].
  reflect_bools. unfold MinPacketSize, HeaderSize, PaddingSize in Hm.
  apply wp_bind. eapply wp_mono, wp_ReadFull; [|done].
  intros [body e] s2 (HI2 & Hl2 & He2). simpl in *.
  destruct e as [e|]; intros s3 Hs3; pose proof (tame_left _ _ Hs3);
    (split; [by eapply tame_inv|]); simpl; split; try lia; try done.
  specialize (He2 eq_refl). lia.
Qed.
End Interference.

#[global] Arguments wp_bind {S R B _ A C} p k s Q.
#[global] Arguments wp_stable {S R B _ A} p s s' Q.
#[global] Arguments wp_denote {S R B _ A} p s Q.
#[global] Arguments wp_ReadFrom {S R B _ _ _ I _} s.
#[global] Arguments tame_left {S R B _ _ I _} s s'.
#[global] Arguments tame_inv {S R B _ _ I _} s s'.

(** ** What a program has done when it returns

    [wlp R p s Q]: if [p] returns, among other goroutines that change the state as
    [R] allows, its result satisfies [Q]. *)

Section Partial.
Context {S : Type} (R : S → S → Prop).

Fixpoint wlp {A} (p : prog S A) (s : S) (Q : A → S → Prop) : Prop :=
  match p with
  | Pure a => ∀ s1, R s s1 → Q a s1
  | Act m k => ∀ s1 b s2, R s s1 → m s1 = Ret b s2 → wlp (k b) s2 Q
  end.

Lemma wlp_mono {A} (p : prog S A) s (Q Q' : A → S → Prop) :
  (∀ a s', Q a s' → Q' a s') → wlp p s Q → wlp p s Q'.
Proof. intros HQ. revert s. induction p as [a|C m k IH]; intros s; simpl; [naive_solver|]. eauto. Qed.

Lemma wlp_bind `{!Reflexive R} {A C} (p : prog S A) (k : A → prog S C) s Q :
  wlp p s (λ a s', wlp (k a) s' Q) → wlp (pbind p k) s Q.
Proof. revert s. induction p as [a|D m k' IH]; intros s; simpl; [intros Hk; by apply Hk|]. eauto. Qed.

(** It adds to what a [wp] says of the result. *)
Lemma wp_wlp B {A} (p : prog S A) s Q Q' :
  wp R B p s Q → wlp p s Q' → wp R B p s (λ a s', Q a s' ∧ Q' a s').
Proof.
  revert s. induction p as [a|C m k IH]; intros s; simpl; [auto|].
  intros Hp Hl s1 Hs1. specialize (Hp s1 Hs1). destruct (m s1) eqn:Hm; [|done..]. eauto.
Qed.

(** *** Reading, with the bytes still to come *)

Context `{HRd : Reader S} `{!Reflexive R} (unread : S → list byte).

Class Streams : Prop := {
  streams_others s s' : R s s' → unread s' = unread s;
  streams_read n s bs e s' : Read n s = Ret (bs, e) s' → unread s = bs ++ unread s' ∧ length bs ≤ n
}.
Context `{!Streams}.

Lemma wlp_read_loop fuel need acc s :
  wlp (pread_loop fuel need acc) s (λ r s',
    ∃ ds, r.1 = acc ++ ds ∧ unread s = ds ++ unread s' ∧ length ds ≤ need ∧ (r.2 = None → length ds = need)).
Proof.
  revert need acc s. induction fuel as [|fuel IH]; intros need acc s; cbn [pread_loop]; case_decide as Hn;
    try (intros s1 Hs1; exists []; rewrite app_nil_r, (streams_others _ _ Hs1); simpl; split_and!; [done|done|lia|lia]); [by intros s1 b s2 _ [=]|].
  intros s1 [bs e] s2 Hs1 HR. pose proof (streams_others _ _ Hs1) as Hu.
  destruct (streams_read _ _ _ _ _ HR) as [Hr Hl]. destruct e as [e|].
  - intros s3 Hs3. exists bs. simpl. rewrite (streams_others _ _ Hs3), <- Hr, Hu. by split_and!.
  - eapply wlp_mono, IH. intros [r e] s3 (ds & -> & Hd & Hle & He). simpl in *. exists (bs ++ ds).
    rewrite app_assoc, length_app, <- Hu, Hr, Hd, app_assoc. split_and!; [done|done|lia|].
    intros E. specialize (He E). lia.
Qed.

Lemma wlp_ReadFull n s :
  wlp (pReadFull n) s (λ r s', unread s = r.1 ++ unread s' ∧ (r.2 = None → length r.1 = n)).
Proof.
  apply wlp_bind. eapply wlp_mono, (wlp_read_loop n n [] s).
  intros [bs e] s1 (ds & Hds & Hu & Hle & He). simpl in *. subst bs.
  assert (∀ e' : option error, (e' = None → length ds = n) → wlp (Pure (ds, e')) s1 (λ r s',
    unread s = r.1 ++ unread s' ∧ (r.2 = None → length r.1 = n))) as HP.
  { intros e' He' s2 Hs2. simpl. by rewrite (streams_others _ _ Hs2). }
  repeat case_match; apply HP; try done; lia.
Qed.

(** The packet read is the one the bytes still to come begin with. *)
Lemma wlp_ReadFrom s :
  wlp pReadFrom s (λ r s', match r.2 with Ok p => ∃ n, decode EOF (unread s) = (n, Ok p) | Err _ => True end).
Proof.
  apply wlp_bind. eapply wlp_mono, wlp_ReadFull. intros [sz [e|]] s1 [Hu Hsz]; simpl in Hu, Hsz; [done|].
  specialize (Hsz eq_refl). cbv zeta.
  destruct (Z.ltb_spec (MaxPayloadSize + MinPacketSize) (Uint32 sz)) as [?|Hmax]; [done|].
  destruct (Z.ltb_spec (Uint32 sz) MinPacketSize) as [?|Hmin]; [done|].
  apply wlp_bind. eapply wlp_mono, wlp_ReadFull. intros [body [e|]] s2 [Hu2 Hbody] s3 _; simpl in *; [done|].
  specialize (Hbody eq_refl). exists (4 + Uint32 sz)%Z. unfold decode.
  rewrite Hu, take_app_length', drop_app_length', Hu2 by done.
  rewrite decide_False by (rewrite length_app; lia). rewrite !decide_False by lia.
  rewrite decide_False by (rewrite length_app; lia). do 2 f_equal. unfold MinPacketSize, HeaderSize, PaddingSize in *.
  rewrite <- (decode_body_take (Z.to_nat (Uint32 sz))), take_app_length', decode_body_slices by lia.
  by replace (Z.to_nat (Uint32 sz - 2)) with (Z.to_nat (Uint32 sz) - 2) by lia.
Qed.
End Partial.

#[global] Arguments wlp_bind {S R _ A C} p k s Q.
#[global] Arguments wlp_ReadFrom {S R _ _ unread _} s.
#[global] Arguments wp_wlp {S R B A} p s Q Q'.
#[global] Arguments streams_others {S R _ unread _} s s'.
