(* ===== verification/ConnConc.v ===== *)
(** * rcon/conn.go: one connection shared by several goroutines

    [Execute] may be called by many goroutines at once and [Close] by another
    while they run. [Execute] checks the closed flag (an atomic load) and its
    argument, takes the mutex, and holds it for the whole round trip; [Close]
    takes no lock: it sets the flag and closes the socket.

    [round_trip] is what [Execute] does with the mutex held, as a program whose
    actions are the calls on the shared connection: the deadline, each write, each
    read through the buffer. [xstep t st] is goroutine [t]'s next step; between
    any two steps another goroutine can run. A read that has nothing to return,
    or a write the peer does not take, is not enabled: it waits until the socket is
    closed under it. *)

From S2P Require Import Prelude GoErrors GoIO GoNet Packet Options Conn Resume.

Local Open Scope Z_scope.

(** ** The round trip, action by action *)

Definition on_sock {A} (m : GoM netConn A) : prog Conn A := act (zoom sock set_sock m).

Definition preadSinglePacket (reqID : Z) : prog Conn (result string) :=
  run (_, r) <- pReadFrom;
  run_try resp <- Pure r;
  if negb (ID resp =? reqID) && negb (ID resp =? -1) then Pure (Err ErrResponseMismatch)
  else Pure (Ok (Body resp)).

Fixpoint pdrain_loop (fuel : nat) : prog Conn unit :=
  match fuel with
  | 0%nat => spin
  | S fuel' =>
      Act (gets (λ c, Buffered (br c))) (λ n,
      if decide (0 < n)%nat then
        run (_, r) <- pReadFrom;
        match r with
        | Err _ => Pure tt
        | Ok _ => pdrain_loop fuel'
        end
      else Pure tt)
  end.

Definition pdrainSourceMirror : prog Conn unit :=
  Act (gets left_bytes) (λ n, pdrain_loop (S n)).

Fixpoint pmulti_loop (fuel : nat) (reqID sentinelID : Z) (b : string) : prog Conn (result string) :=
  match fuel with
  | 0%nat => spin
  | S fuel' =>
      run (_, r) <- pReadFrom;
      run_try resp <- Pure r;
      if ID resp =? sentinelID then
        run _ <- pdrainSourceMirror;
        Pure (Ok b)
      else if negb (ID resp =? reqID) && negb (ID resp =? -1) then Pure (Err ErrResponseMismatch)
      else pmulti_loop fuel' reqID sentinelID (String.append b (Body resp))
  end.

Definition preadMultiPacket (reqID sentinelID : Z) : prog Conn (result string) :=
  Act (gets left_bytes) (λ n, pmulti_loop (S n) reqID sentinelID "").

Fixpoint pidle_loop (fuel : nat) (reqID : Z) (first : bool) (b : string) : prog Conn (result string) :=
  match fuel with
  | 0%nat => spin
  | S fuel' =>
      run_try _ <-
        (if negb first then
           Act (gets (λ c, c)) (λ c,
           on_sock (SetReadDeadline (Some (nc_now (sock c) + idleWindow (set c)))))
         else Pure (Ok tt));
      run (_, r) <- pReadFrom;
      match r with
      | Err err =>
          if first then Pure (Err err)
          else if isIdleTimeout err || Is err EOF then Pure (Ok b)
          else Pure (Err err)
      | Ok resp =>
          let b := if (ID resp =? reqID) || (ID resp =? -1)
                   then String.append b (Body resp) else b in
          pidle_loop fuel' reqID false b
      end
  end.

Definition preadIdleDrain (reqID : Z) : prog Conn (result string) :=
  Act (gets left_bytes) (λ n, pidle_loop (S n) reqID true "").

(** [Execute] between [c.mu.Lock()] and the deferred [c.mu.Unlock()]. *)
Definition round_trip (ctx : Context) (command : string) : prog Conn (result string) :=
  Act (gets set) (λ st,
  run_try _ <- on_sock (applyContextDeadline ctx (deadline st));
  run reqID <- act nextID;
  run (_, err) <- pWriteTo {| ID := reqID; Type_ := TypeExecCommand; Body := command |};
  match err with
  | Some e => Pure (Err e)
  | None =>
      match mode st with
      | readSingle => preadSinglePacket reqID
      | readIdle => preadIdleDrain reqID
      | readMulti =>
          run sentinelID <- act nextID;
          run (_, err) <- pWriteTo {| ID := sentinelID; Type_ := TypeResponseValue; Body := "" |};
          match err with
          | Some e => Pure (Err e)
          | None => preadMultiPacket reqID sentinelID
          end
      end
  end).

(** The checks of [Execute] before the mutex. *)
Definition precheck (command : string) (c : Conn) : option error :=
  if closed c then Some ErrClosed else
  if decide (command = "") then Some ErrCommandEmpty else
  if (0 <? maxCommandLen (set c)) && (maxCommandLen (set c) <? Z.of_nat (len command))
  then Some ErrCommandTooLong else None.

(** ** Goroutines *)

Inductive xpc :=
  | XCall (ctx : Context) (command : string)     (* Execute: before closed.Load() *)
  | XLock (ctx : Context) (command : string)     (* waiting for mu *)
  | XHold (ctx : Context) (command : string) (p : prog Conn (result string))
  | XRet (r : result string)
  | CStore                                       (* Close: before closed.Store(true) *)
  | CSock                                        (* before conn.Close() *)
  | CRet (r : result unit).

(** What happened with the mutex free or released, in order. *)
Inductive event :=
  | Ran (t : nat) (ctx : Context) (command : string) (r : result string)
  | Waited (d : Z).

Record xstate := mkX {
  x_mu : option nat;
  x_conn : Conn;
  x_threads : gmap nat xpc;
  x_log : list event
}.

Definition xinit (c : Conn) : xstate := mkX None c ∅ [].

Definition xgoto (t : nat) (p : xpc) (c : Conn) (st : xstate) : xstate :=
  mkX (x_mu st) c (<[t := p]> (x_threads st)) (x_log st).

Definition xlock (t : nat) (st : xstate) : option xstate :=
  match x_mu st with
  | None => Some (mkX (Some t) (x_conn st) (x_threads st) (x_log st))
  | Some _ => None
  end.
Definition xunlock (e : event) (st : xstate) : xstate :=
  mkX None (x_conn st) (x_threads st) (x_log st ++ [e]).

Definition xstep (t : nat) (st : xstate) : option xstate :=
  let c := x_conn st in
  p ← x_threads st !! t;
  match p with
  | XCall ctx command =>
      match precheck command c with
      | Some e => Some (xgoto t (XRet (Err e)) c st)
      | None => Some (xgoto t (XLock ctx command) c st)
      end
  | XLock ctx command => xgoto t (XHold ctx command (round_trip ctx command)) c <$> xlock t st
  | XHold ctx command (Pure r) => Some (xgoto t (XRet r) c (xunlock (Ran t ctx command r) st))
  | XHold ctx command (Act m k) =>
      match m c with
      | Ret b c' => Some (xgoto t (XHold ctx command (k b)) c' st)
      | Blocks _ | Diverges => None
      end
  | CStore => Some (xgoto t CSock (set_closed c) st)
  | CSock =>
      match zoom sock set_sock CloseConn c with
      | Ret r c' => Some (xgoto t (CRet r) c' st)
      | Blocks _ | Diverges => None
      end
  | XRet _ | CRet _ => None
  end.

(** The calls a goroutine makes. *)
Inductive xcall := CallExecute (ctx : Context) (command : string) | CallConnClose.

Definition xentry (k : xcall) : xpc :=
  match k with CallExecute ctx command => XCall ctx command | CallConnClose => CStore end.

Definition xstart (t : nat) (k : xcall) (st : xstate) : xstate :=
  xgoto t (xentry k) (x_conn st) st.

(** Time that passes while no command is in flight. *)
Definition xwait (d : Z) (st : xstate) : xstate :=
  let c := x_conn st in
  mkX (x_mu st) (set_sock (set_now (nc_now (sock c) + d) (sock c)) c) (x_threads st)
    (x_log st ++ [Waited d]).

Inductive xmove : xstate → xstate → Prop :=
  | xmove_go t st st' : xstep t st = Some st' → xmove st st'
  | xmove_call t k st : x_threads st !! t = None → xmove st (xstart t k st)
  | xmove_wait d st : 0 ≤ d → x_mu st = None → xmove st (xwait d st).

Definition xreach : xstate → xstate → Prop := rtc xmove.

(** Calls made one after the other. *)
Inductive serial : Conn → list event → Conn → Prop :=
  | serial_nil c : serial c [] c
  | serial_ran c l c1 t ctx command r c2 :
      serial c l c1 → Execute ctx command c1 = Ret r c2 →
      serial c (l ++ [Ran t ctx command r]) c2
  | serial_wait c l c1 d :
      serial c l c1 →
      serial c (l ++ [Waited d]) (set_sock (set_now (nc_now (sock c1) + d) (sock c1)) c1).
