(* ===== verification/ConnConcProps.v ===== *)
(** * Correctness of a shared connection

    [round_trip] does what [Execute] does after its checks ([Execute_alone]); a
    round trip interrupted by [Close] neither spins nor stays blocked
    ([wp_round_trip]); and the invariant of all interleavings ([xinv]). The
    claims: calls serialise, a refused or returned call is one of the serial
    ones, nothing follows [Close] on the wire, [Close] frees whoever is blocked,
    and the mutex cannot deadlock. *)

From S2P Require Import Prelude GoErrors GoIO GoNet Packet Options Conn ConnProps Resume ConnConc.

Local Open Scope Z_scope.

(** ** The actions of a round trip are those of [Execute] *)

Lemma implements_single req : implements (preadSinglePacket req) (readSinglePacket req).
Proof. unfold preadSinglePacket, readSinglePacket. implements_tac. Qed.

Lemma implements_drain_loop fuel : implements (pdrain_loop fuel) (drain_loop fuel).
Proof. induction fuel as [|fuel IH]; cbn [pdrain_loop drain_loop]; implements_tac. Qed.

Lemma implements_drain : implements pdrainSourceMirror drainSourceMirror.
Proof. intros c. exact (implements_drain_loop (S (left_bytes c)) c). Qed.
#[export] Hint Resolve implements_single implements_drain : rcon.

Lemma implements_multi_loop fuel req sen b :
  implements (pmulti_loop fuel req sen b) (multi_loop fuel req sen b).
Proof. revert b. induction fuel as [|fuel IH]; intros b; cbn [pmulti_loop multi_loop]; implements_tac. Qed.

Lemma implements_multi req sen : implements (preadMultiPacket req sen) (readMultiPacket req sen).
Proof. intros c. exact (implements_multi_loop (S (left_bytes c)) req sen "" c). Qed.

Lemma implements_idle_loop fuel req first b :
  implements (pidle_loop fuel req first b) (idle_loop fuel req first b).
Proof.
  revert first b. induction fuel as [|fuel IH]; intros first b; cbn [pidle_loop idle_loop]; [implements_tac|].
  apply implements_bind; [|implements_tac].
  destruct first; simpl; unfold on_sock; implements_tac.
Qed.

Lemma implements_idle req : implements (preadIdleDrain req) (readIdleDrain req).
Proof. intros c. exact (implements_idle_loop (S (left_bytes c)) req true "" c). Qed.
#[export] Hint Resolve implements_multi implements_idle : rcon.

(** [Execute] is its checks, then the round trip. *)
Lemma Execute_alone ctx command c :
  Execute ctx command c =
  match precheck command c with
  | Some e => Ret (Err e) c
  | None => denote (round_trip ctx command) c
  end.
Proof.
  unfold Execute, precheck. rewrite (bind_Ret (gets _) _ c c c eq_refl).
  destruct (closed c); [done|]. case_decide; [done|].
  destruct (_ && _); [done|]. symmetry. unfold round_trip. cbn [denote].
  rewrite (bind_Ret (gets _) _ c (set c) c eq_refl).
  generalize (set c). intros st. revert c.
  match goal with |- ∀ c, denote ?p c = ?m c => change (implements p m) end.
  unfold on_sock. implements_tac.
Qed.

(** ** A round trip while another goroutine closes the connection *)

(** What [Close] leaves alone: the connection with both closed flags set. *)
Definition shut (c : Conn) : Conn := set_sock (set_sock_closed (sock c)) (set_closed c).

(** [c'] is [c] after any part of any number of [Close] calls. *)
Definition closing (c c' : Conn) : Prop :=
  shut c = shut c' ∧ (closed c = true → closed c' = true) ∧
  (nc_closed (sock c) = true → nc_closed (sock c') = true).

#[export] Instance closing_refl : Reflexive closing.
Proof. done. Qed.
#[export] Instance closing_trans : Transitive closing.
Proof. intros c1 c2 c3 (? & ? & ?) (? & ? & ?). split_and!; [congruence|auto..]. Qed.

Lemma shut_eq c c' :
  shut c = shut c' →
  set c' = set c ∧ id c' = id c ∧ b_buf (br c') = b_buf (br c) ∧ b_err (br c') = b_err (br c) ∧
  set_sock_closed (sock c') = set_sock_closed (sock c).
Proof.
  destruct c as [[s buf err] st cl i], c' as [[s' buf' err'] st' cl' i'].
  unfold shut, set_sock, set_br, set_rd, set_closed, sock; simpl.
  intros E. injection E; intros. split_and!; try done. unfold set_sock_closed. congruence.
Qed.

Lemma closing_sock c c' :
  closing c c' →
  nc_in (sock c') = nc_in (sock c) ∧ nc_out (sock c') = nc_out (sock c) ∧
  nc_rdeadline (sock c') = nc_rdeadline (sock c) ∧ nc_wdeadline (sock c') = nc_wdeadline (sock c) ∧
  left_bytes c' = left_bytes c.
Proof.
  intros [(_ & _ & Hb & _ & Hs)%shut_eq _]. injection Hs as Hin Hout _ Hrd Hwd _ _ _.
  split_and!; try done. change (left_bytes c') with (length (b_buf (br c')) + script_bytes (nc_in (sock c')))%nat.
  rewrite Hb, Hin. done.
Qed.

Section RoundTrip.
(** [may]: nothing bounds the round trip. *)
Context (may : Prop).

Definition stuck_ok (c : Conn) : Prop := may ∧ nc_closed (sock c) = false.
Definition bounded (c : Conn) : Prop :=
  may ∨ is_Some (nc_rdeadline (sock c)) ∧ is_Some (nc_wdeadline (sock c)).

Lemma Read_stuck n c c' :
  Read n c = Blocks c' → nc_closed (sock c) = false ∧ nc_rdeadline (sock c) = None.
Proof.
  unfold Read, Conn_Reader, zoom, Read, bufio_Reader.
  destruct (Read _ (b_rd (br c))) as [[bs e] r|r|] eqn:HR; repeat case_match; intros; simplify_eq.
  all: unfold Read, netConn_Reader in HR; unfold sock; repeat case_match; simplify_eq; split; try done.
  all: by eapply recv_None.
Qed.

Lemma Read_deadlines n c r c' :
  Read n c = Ret r c' →
  nc_rdeadline (sock c') = nc_rdeadline (sock c) ∧ nc_wdeadline (sock c') = nc_wdeadline (sock c).
Proof.
  intros (b & HR & ->)%zoom_inv. unfold sock in *. cbn [set_br br].
  revert HR. unfold Read, bufio_Reader.
  destruct (Read _ (b_rd (br c))) as [[bs e] r'| |] eqn:HN;
    repeat case_match; intros; simplify_eq; simpl; try done.
  all: revert HN; unfold Read, netConn_Reader; repeat case_match; intros; by simplify_eq.
Qed.

Lemma closing_left c c' : closing c c' → left_bytes c' = left_bytes c.
Proof. by intros (_ & _ & _ & _ & ->)%closing_sock. Qed.

Lemma closing_bounded c c' : closing c c' → bounded c → bounded c'.
Proof. intros (_ & _ & Hd & Hw & _)%closing_sock. unfold bounded. by rewrite Hd, Hw. Qed.

#[export] Instance closing_tame : Tame closing stuck_ok bounded.
Proof.
  split.
  - intros c c' Hc. by rewrite (closing_left _ _ Hc).
  - apply closing_bounded.
  - intros n c Hc. destruct (Read n c) as [r c'|c'|] eqn:HR; [| |by apply Read_converges in HR].
    + unfold bounded in *. by destruct (Read_deadlines _ _ _ _ HR) as [-> ->].
    + apply Read_stuck in HR as [? Hd]. destruct Hc as [?|[[? ?] _]]; [done|congruence].
Qed.

Abbreviation cwp := (wp closing stuck_ok).
Abbreviation any := (λ _ _, True).

Lemma wp_pure {A} (a : A) c : cwp (Pure a) c any.
Proof. by intros c1. Qed.
Local Hint Resolve wp_pure : rcon.

Lemma wp_single req c : bounded c → cwp (preadSinglePacket req) c any.
Proof.
  intros Hc. apply wp_bind. eapply wp_mono, wp_ReadFrom; [|done].
  intros [n r] c1 _. destruct r; cbn [pbind]; [case_match|]; auto with rcon.
Qed.

Lemma wp_drain_loop fuel c :
  bounded c → (left_bytes c < fuel)%nat → cwp (pdrain_loop fuel) c any.
Proof.
  revert c. induction fuel as [|fuel IH]; intros c Hc Hf; [lia|]. cbn [pdrain_loop].
  intros c1 Hc1. pose proof (closing_left _ _ Hc1). pose proof (closing_bounded _ _ Hc1 Hc) as Hb.
  cbn [gets]. case_decide; [|auto with rcon].
  apply wp_bind. eapply wp_mono, wp_ReadFrom; [|done].
  intros [n r] c2 (Hb2 & ? & Hr). cbn [snd] in Hr. destruct r; [|auto with rcon].
  apply IH; [done|lia].
Qed.

Lemma wp_drain c : bounded c → cwp pdrainSourceMirror c any.
Proof.
  intros Hc c1 Hc1. cbn [gets]. apply wp_drain_loop; [by eapply closing_bounded|lia].
Qed.

Lemma wp_multi_loop fuel req sen b c :
  bounded c → (left_bytes c < fuel)%nat → cwp (pmulti_loop fuel req sen b) c any.
Proof.
  revert b c. induction fuel as [|fuel IH]; intros b c Hc Hf; [lia|]. cbn [pmulti_loop].
  apply wp_bind. eapply wp_mono, wp_ReadFrom; [|done].
  intros [n r] c1 (Hb & ? & Hr). cbn [snd] in Hr. destruct r as [resp|]; cbn [pbind]; [|auto with rcon].
  case_match.
  - apply wp_bind. eapply wp_mono, wp_drain; [|done]. auto with rcon.
  - case_match; [auto with rcon|]. apply IH; [done|lia].
Qed.

Lemma wp_multi req sen c : bounded c → cwp (preadMultiPacket req sen) c any.
Proof.
  intros Hc c1 Hc1. cbn [gets]. apply wp_multi_loop; [by eapply closing_bounded|lia].
Qed.

(** Actions that never wait. *)
Lemma wp_on_sock {A} (m : GoM netConn A) (Q : A → Conn → Prop) c :
  (∀ c1, closing c c1 →
     ∃ a s, m (sock c1) = Ret a s ∧ ∀ c2, closing (set_sock s c1) c2 → Q a c2) →
  cwp (on_sock m) c Q.
Proof.
  intros Hm c1 Hc1. destruct (Hm c1 Hc1) as (a & s & HR & HQ).
  rewrite (zoom_Ret _ _ _ _ _ _ HR). exact HQ.
Qed.

(** A write returns, or waits for a peer that does not read: on an open socket
    and without a write deadline. *)
Lemma Write_bounded bs c :
  bounded c → match Write bs c with
              | Ret _ c' => bounded c'
              | Blocks c' => stuck_ok c
              | Diverges => False
              end.
Proof.
  intros Hc. unfold Write, Conn_Writer, zoom.
  destruct (Write bs (sock c)) as [r s|s|] eqn:HW.
  - destruct (Write_frame bs (sock c) s) as (_ & Hr & Hw & _); [by rewrite HW|].
    unfold bounded, sock in *. simpl. by rewrite Hr, Hw.
  - destruct Hc as [Hm|[_ [d Hd]]]; [split; [done|]|].
    + revert HW. unfold Write, netConn_Writer. by destruct (nc_closed (sock c)).
    + destruct (Write_deadline bs (sock c) d Hd) as (a & s' & HW' & _). congruence.
  - revert HW. unfold Write, netConn_Writer, stalled_write. repeat case_match; done.
Qed.

Lemma wp_WriteTo p c : bounded c → cwp (pWriteTo p) c (λ _ c', bounded c').
Proof.
  intros Hc c1 Hc1. pose proof (Write_bounded (frame_buffer p) c1 (closing_bounded _ _ Hc1 Hc)) as HW.
  destruct (Write (frame_buffer p) c1) as [[n e] c2|c2|]; [|done..].
  intros c3 Hc3. by eapply closing_bounded.
Qed.

Lemma wp_nextID c : bounded c → cwp (act nextID) c (λ _ c', bounded c').
Proof.
  intros Hc c1 Hc1 c2 Hc2. eapply closing_bounded; [done|].
  exact (closing_bounded _ _ Hc1 Hc).
Qed.

Lemma wp_idle_deadline fuel (first : bool) c :
  bounded c → (left_bytes c < fuel)%nat →
  cwp (if negb first then
         Act (gets (λ c, c)) (λ c,
         on_sock (SetReadDeadline (Some (nc_now (sock c) + idleWindow (set c)))))
       else Pure (Ok tt)) c
    (λ _ c', bounded c' ∧ (left_bytes c' < fuel)%nat).
Proof.
  intros Hc Hf. destruct first; simpl negb; cbn iota.
  { intros c1 Hc1. split; [by eapply closing_bounded|]. by rewrite (closing_left _ _ Hc1). }
  intros c1 Hc1. cbn [gets]. apply wp_on_sock. intros c2 Hc2.
  pose proof (closing_left _ _ Hc1). pose proof (closing_left _ _ Hc2).
  unfold SetReadDeadline. destruct (nc_closed (sock c2)) eqn:Hn; eexists _, _; (split; [done|]);
    intros c3 Hc3; pose proof (closing_left _ _ Hc3) as Hl;
    (split; [eapply closing_bounded; [done|]|rewrite Hl]).
  - replace (set_sock (sock c2) c2) with c2 by (by destruct c2 as [[]]).
    eapply closing_bounded, Hc. by etrans.
  - change (left_bytes c2 < fuel)%nat. lia.
  - destruct (closing_bounded _ _ Hc2 (closing_bounded _ _ Hc1 Hc)) as [?|[_ ?]];
      [by left|right; split; [by eexists|done]].
  - change (left_bytes c2 < fuel)%nat. lia.
Qed.

Lemma wp_idle_loop fuel req first b c :
  bounded c → (left_bytes c < fuel)%nat → cwp (pidle_loop fuel req first b) c any.
Proof.
  revert first b c. induction fuel as [|fuel IH]; intros first b c Hc Hf; [lia|]. cbn [pidle_loop].
  apply wp_bind. eapply wp_mono, wp_idle_deadline; [|done..].
  intros [[]|e] c1 (Hb & Hl); [|auto with rcon].
  apply wp_bind. eapply wp_mono, wp_ReadFrom; [|done].
  intros [n r] c2 (Hb2 & ? & Hr). cbn [snd] in Hr.
  destruct r; [apply IH; [done|lia]|]. repeat case_match; auto with rcon.
Qed.

Lemma wp_idle req c : bounded c → cwp (preadIdleDrain req) c any.
Proof.
  intros Hc c1 Hc1. cbn [gets]. apply wp_idle_loop; [by eapply closing_bounded|lia].
Qed.

Lemma effective_deadline_None ctx op now :
  effective_deadline ctx op now = None → ctx_deadline ctx = None ∧ op ≤ 0.
Proof. unfold effective_deadline. repeat case_match; intros; simplify_eq; reflect_bools; auto. Qed.

Lemma wp_deadline ctx c st :
  (ctx_deadline ctx = None ∧ deadline st ≤ 0 → may) →
  cwp (on_sock (applyContextDeadline ctx (deadline st))) c
    (λ r c', match r with Ok _ => bounded c' | Err _ => True end).
Proof.
  intros Hmay. apply wp_on_sock. intros c1 _.
  unfold applyContextDeadline, gets, bind, SetDeadline.
  destruct (nc_closed (sock c1)); eexists _, _; (split; [done|]); intros c2 Hc2; [done|].
  eapply closing_bounded; [done|]. unfold bounded. cbn.
  destruct (effective_deadline _ _ _) eqn:He; [right; split; by eexists|left].
  by apply Hmay, (effective_deadline_None _ _ _ He).
Qed.

Lemma wp_round_trip ctx command c :
  (ctx_deadline ctx = None ∧ deadline (set c) ≤ 0 → may) →
  cwp (round_trip ctx command) c any.
Proof.
  intros Hmay c1 [(Hset & _)%shut_eq _]. cbn [gets]. rewrite Hset.
  apply wp_bind. eapply wp_mono, wp_deadline; [|done].
  intros [_u|e] c2 Hb; [|auto with rcon].
  apply wp_bind. eapply wp_mono, wp_nextID; [|done]. intros req c3 Hb3.
  apply wp_bind. eapply wp_mono, wp_WriteTo; [|done]. intros [n [e|]] c4 Hb4; [auto with rcon|].
  destruct (mode (set c)); [|by apply wp_single|by apply wp_idle].
  apply wp_bind. eapply wp_mono, wp_nextID; [|done]. intros sen c5 Hb5.
  apply wp_bind. eapply wp_mono, wp_WriteTo; [|done]. intros [n' [e|]] c6 Hb6; [auto with rcon|].
  by apply wp_multi.
Qed.
End RoundTrip.

(** ** Invariants of every interleaving *)

(** The actions a round trip is made of. *)
Inductive conn_action : ∀ {B}, GoM Conn B → Prop :=
  | act_read n : conn_action (Read n)
  | act_write bs : conn_action (Write bs)
  | act_deadline ctx d : conn_action (zoom sock set_sock (applyContextDeadline ctx d))
  | act_rdeadline d : conn_action (zoom sock set_sock (SetReadDeadline d))
  | act_id : conn_action nextID
  | act_gets {B} (f : Conn → B) : conn_action (gets f)
  | act_spin {B} : conn_action (λ _, @Diverges Conn B).

Fixpoint pall {A} (p : prog Conn A) : Prop :=
  match p with
  | Pure _ => True
  | Act m k => conn_action m ∧ ∀ b, pall (k b)
  end.

Lemma pall_bind {A B} (p : prog Conn A) (k : A → prog Conn B) :
  pall p → (∀ a, pall (k a)) → pall (pbind p k).
Proof.
  intros Hp Hk. revert Hp. induction p as [a|C m k' IH]; simpl; [done|].
  intros [Hm Hp]. split; [done|]. intros b. apply IH, Hp.
Qed.

Lemma pall_act {A} (m : GoM Conn A) : conn_action m → pall (act m).
Proof. done. Qed.

#[export] Hint Constructors conn_action : rcon.

Ltac pall_tac :=
  repeat first
    [ solve [eauto with rcon]
    | match goal with
      | |- ∀ _, _ => intros ?
      | |- pall (pbind _ _) => apply pall_bind
      | |- pall (act _) => apply pall_act
      | |- pall (on_sock _) => apply pall_act
      | |- pall (Pure _) => exact I
      | |- pall spin => apply pall_act
      | |- pall (Act _ _) => split
      | |- pall (match ?x with _ => _ end) => destruct x
      | |- pall (let _ := _ in _) => cbv zeta
      end ].

Lemma pall_ReadFrom : pall pReadFrom.
Proof.
  assert (∀ fuel need acc, pall (pread_loop (S:=Conn) fuel need acc)) as Hloop.
  { induction fuel as [|fuel IH]; intros need acc; cbn [pread_loop]; pall_tac. }
  unfold pReadFrom, pReadFull. pall_tac.
Qed.
#[export] Hint Resolve pall_ReadFrom : rcon.

Lemma pall_drain_loop fuel : pall (pdrain_loop fuel).
Proof. induction fuel as [|fuel IH]; cbn [pdrain_loop]; pall_tac. Qed.
#[export] Hint Resolve pall_drain_loop : rcon.

Lemma pall_multi_loop fuel req sen b : pall (pmulti_loop fuel req sen b).
Proof.
  revert b. induction fuel as [|fuel IH]; intros b; cbn [pmulti_loop]; unfold pdrainSourceMirror; pall_tac.
Qed.

Lemma pall_idle_loop fuel req first b : pall (pidle_loop fuel req first b).
Proof. revert first b. induction fuel as [|fuel IH]; intros first b; cbn [pidle_loop]; pall_tac. Qed.
#[export] Hint Resolve pall_multi_loop pall_idle_loop : rcon.

Lemma pall_round_trip ctx command : pall (round_trip ctx command).
Proof.
  unfold round_trip, pWriteTo, preadSinglePacket, preadMultiPacket, preadIdleDrain. pall_tac.
Qed.

Lemma action_settings {B} (m : GoM Conn B) s0 : conn_action m → keeps (λ c, set c = s0) m.
Proof.
  intros Hm. destruct Hm; eauto using keeps_settings_Read, keeps_settings_Write,
    keeps_settings_sock, keeps_settings_nextID, keeps_gets. by intros c.
Qed.

Lemma action_closed {B} (m : GoM Conn B) b : conn_action m → keeps (λ c, closed c = b) m.
Proof.
  assert (∀ {T A} get (set : T → Conn → Conn) (m : GoM T A),
    (∀ t c, closed (set t c) = closed c) → keeps (λ c, closed c = b) (zoom get set m)) as Hz.
  { intros T A get set m' Hset c Hc. unfold zoom. destruct (m' _); try done; by rewrite Hset. }
  intros Hm. destruct Hm; try (by apply Hz); by intros c.
Qed.

(** An action on a closed socket sends nothing and leaves it closed. *)
Lemma action_dead {B} (m : GoM Conn B) out :
  conn_action m → keeps (λ c, nc_closed (sock c) = true ∧ nc_out (sock c) = out) m.
Proof.
  intros Hm c [Hc Ho]. destruct Hm as [n|bs|ctx d|d| |B f|B]; try done.
  - unfold Read, Conn_Reader, zoom, Read, bufio_Reader, Read, netConn_Reader. unfold sock in *.
    rewrite Hc. repeat case_match; simplify_eq; done.
  - unfold Write, Conn_Writer, zoom, Write, netConn_Writer. by rewrite Hc.
  - unfold zoom, applyContextDeadline, bind, gets, SetDeadline. by rewrite Hc.
  - unfold zoom, SetReadDeadline. by rewrite Hc.
Qed.

(** What bounds a round trip: the context's deadline or the connection's own. *)
Definition unbounded (ctx : Context) (s0 : settings) : Prop :=
  ctx_deadline ctx = None ∧ deadline s0 ≤ 0.

Record xinv (s0 : settings) (st : xstate) : Prop := {
  xi_set : set (x_conn st) = s0;
  xi_hold t ctx command p :
    x_threads st !! t = Some (XHold ctx command p) →
    x_mu st = Some t ∧ pall p ∧
    wp closing (stuck_ok (unbounded ctx s0)) p (x_conn st) (λ _ _, True);
  xi_mu t : x_mu st = Some t → ∃ ctx command p, x_threads st !! t = Some (XHold ctx command p);
  xi_lock t ctx command :
    x_threads st !! t = Some (XLock ctx command) →
    closed (x_conn st) = false → precheck command (x_conn st) = None;
  xi_close t : x_threads st !! t = Some CSock → closed (x_conn st) = true
}.

Lemma precheck_same command c c' :
  set c' = set c → closed c' = closed c → precheck command c' = precheck command c.
Proof. unfold precheck. by intros -> ->. Qed.

(** A goroutine that does not hold the mutex moves from [p] to [q] and changes
    the connection as [Close] does. *)
Definition quiet (p : xpc) : Prop :=
  match p with XHold _ _ _ => False | _ => True end.

Lemma xinv_quiet s0 t (q : xpc) c' st :
  xinv s0 st → quiet q →
  (∀ p', x_threads st !! t = Some p' → quiet p') →
  closing (x_conn st) c' →
  (∀ ctx command, q = XLock ctx command → closed c' = false → precheck command c' = None) →
  (q = CSock → closed c' = true) →
  xinv s0 (xgoto t q c' st).
Proof.
  intros [Hs Hh Hm Hl Hk] Hq Hp Hc HqL HqC. pose proof Hc as [(Hset & _)%shut_eq [Hcl _]].
  split; cbn [xgoto x_mu x_conn x_threads].
  - by rewrite Hset.
  - intros t1 ctx command p1. destruct (decide (t = t1)) as [->|Hne].
    { rewrite lookup_insert_eq. intros [= ->]. done. }
    rewrite lookup_insert_ne by done. intros (? & ? & Hwp)%Hh. split_and!; [done..|].
    by eapply wp_stable.
  - intros t1 (ctx & command & p1 & Ht1)%Hm. exists ctx, command, p1.
    rewrite lookup_insert_ne; [done|]. intros ->. by apply Hp in Ht1.
  - intros t1 ctx command. destruct (decide (t = t1)) as [->|Hne].
    { rewrite lookup_insert_eq. intros [= ->]. exact (HqL _ _ eq_refl). }
    rewrite lookup_insert_ne by done. intros Ht1 Hf.
    assert (closed (x_conn st) = false) as Hf' by (destruct (closed (x_conn st)); [by rewrite Hcl in Hf|done]).
    erewrite precheck_same; [by eapply Hl|done|congruence].
  - intros t1. destruct (decide (t = t1)) as [->|Hne].
    { rewrite lookup_insert_eq. intros [= ->]. by apply HqC. }
    rewrite lookup_insert_ne by done. intros Ht1. eapply Hcl, Hk, Ht1.
Qed.

(** The holder's next action. *)
Lemma xinv_act s0 t ctx command B (m : GoM Conn B) k b c' st :
  xinv s0 st → x_threads st !! t = Some (XHold ctx command (Act m k)) →
  m (x_conn st) = Ret b c' → xinv s0 (xgoto t (XHold ctx command (k b)) c' st).
Proof.
  intros [Hs Hh Hm Hl HC] Ht HR. destruct (Hh _ _ _ _ Ht) as (Hmu & [Ha Hk] & Hwp).
  pose proof (action_settings m s0 Ha _ Hs) as Hs'. rewrite HR in Hs'.
  pose proof (action_closed m _ Ha (x_conn st) eq_refl) as Hcl. rewrite HR in Hcl.
  specialize (Hwp (x_conn st) ltac:(done)). rewrite HR in Hwp.
  split; cbn [xgoto x_mu x_conn x_threads]; [done|..].
  - intros t1 ctx1 command1 p1. destruct (decide (t = t1)) as [->|Hne].
    { rewrite lookup_insert_eq. intros [= <- <- <-]. split_and!; [done|apply Hk|done]. }
    rewrite lookup_insert_ne by done. intros (? & _)%Hh. congruence.
  - intros t1 Ht1. assert (t1 = t) as -> by congruence. rewrite lookup_insert_eq. eauto.
  - intros t1 ctx1 command1. destruct (decide (t = t1)) as [->|Hne].
    { by rewrite lookup_insert_eq. }
    rewrite lookup_insert_ne by done. intros Ht1 Hf.
    erewrite precheck_same; [eapply Hl|..]; [done|congruence|congruence|done].
  - intros t1. destruct (decide (t = t1)) as [->|Hne]; [by rewrite lookup_insert_eq|].
    rewrite lookup_insert_ne by done. intros Ht1%HC. congruence.
Qed.

(** Taking and releasing the mutex. *)
Lemma xinv_lock s0 t ctx command st :
  xinv s0 st → x_mu st = None →
  xinv s0 (xgoto t (XHold ctx command (round_trip ctx command)) (x_conn st)
             (mkX (Some t) (x_conn st) (x_threads st) (x_log st))).
Proof.
  intros [Hs Hh Hm Hl HC] Hmu. split; cbn [xgoto x_mu x_conn x_threads]; [done|..].
  - intros t1 ctx1 command1 p1. destruct (decide (t = t1)) as [->|Hne].
    { rewrite lookup_insert_eq. intros [= <- <- <-].
      split_and!; [done|apply pall_round_trip|]. apply wp_round_trip. by rewrite Hs. }
    rewrite lookup_insert_ne by done. intros (? & _)%Hh. congruence.
  - intros t1 [= <-]. rewrite lookup_insert_eq. eauto.
  - intros t1 ctx1 command1. destruct (decide (t = t1)) as [->|Hne].
    { by rewrite lookup_insert_eq. }
    rewrite lookup_insert_ne by done. apply Hl.
  - intros t1. destruct (decide (t = t1)) as [->|Hne]; [by rewrite lookup_insert_eq|].
    rewrite lookup_insert_ne by done. apply HC.
Qed.

Lemma xinv_unlock s0 t ctx command p r e st :
  xinv s0 st → x_threads st !! t = Some (XHold ctx command p) →
  xinv s0 (xgoto t (XRet r) (x_conn st) (xunlock e st)).
Proof.
  intros [Hs Hh Hm Hl HC] Ht. destruct (Hh _ _ _ _ Ht) as (Hmu & _).
  split; cbn [xgoto xunlock x_mu x_conn x_threads]; [done| |done| |].
  - intros t1 ctx1 command1 p1. destruct (decide (t = t1)) as [->|Hne].
    { by rewrite lookup_insert_eq. }
    rewrite lookup_insert_ne by done. intros (? & _)%Hh. congruence.
  - intros t1 ctx1 command1. destruct (decide (t = t1)) as [->|Hne].
    { by rewrite lookup_insert_eq. }
    rewrite lookup_insert_ne by done. apply Hl.
  - intros t1. destruct (decide (t = t1)) as [->|Hne]; [by rewrite lookup_insert_eq|].
    rewrite lookup_insert_ne by done. apply HC.
Qed.

(** The cases of a step. *)
Inductive xcase (t : nat) (st : xstate) : xstate → Prop :=
  | case_refuse ctx command e :
      x_threads st !! t = Some (XCall ctx command) → precheck command (x_conn st) = Some e →
      xcase t st (xgoto t (XRet (Err e)) (x_conn st) st)
  | case_admit ctx command :
      x_threads st !! t = Some (XCall ctx command) → precheck command (x_conn st) = None →
      xcase t st (xgoto t (XLock ctx command) (x_conn st) st)
  | case_lock ctx command :
      x_threads st !! t = Some (XLock ctx command) → x_mu st = None →
      xcase t st (xgoto t (XHold ctx command (round_trip ctx command)) (x_conn st)
                    (mkX (Some t) (x_conn st) (x_threads st) (x_log st)))
  | case_act ctx command B (m : GoM Conn B) k b c' :
      x_threads st !! t = Some (XHold ctx command (Act m k)) → m (x_conn st) = Ret b c' →
      xcase t st (xgoto t (XHold ctx command (k b)) c' st)
  | case_unlock ctx command r :
      x_threads st !! t = Some (XHold ctx command (Pure r)) →
      xcase t st (xgoto t (XRet r) (x_conn st) (xunlock (Ran t ctx command r) st))
  | case_store :
      x_threads st !! t = Some CStore → xcase t st (xgoto t CSock (set_closed (x_conn st)) st)
  | case_sock r c' :
      x_threads st !! t = Some CSock → zoom sock set_sock CloseConn (x_conn st) = Ret r c' →
      xcase t st (xgoto t (CRet r) c' st).

Lemma xstep_case t st st' : xstep t st = Some st' → xcase t st st'.
Proof.
  unfold xstep. destruct (x_threads st !! t) as [p|] eqn:Ht; [|done]. simpl.
  destruct p as [ctx command|ctx command|ctx command [r|B m k]|r| | |r]; try done.
  - case_match; intros [= <-]; by econstructor.
  - unfold xlock. destruct (x_mu st) eqn:Hm; [done|]. intros [= <-]. by apply case_lock.
  - intros [= <-]. by econstructor.
  - destruct (m (x_conn st)) eqn:HR; intros [= <-]. by econstructor.
  - intros [= <-]. by constructor.
  - destruct (zoom sock set_sock CloseConn (x_conn st)) eqn:HR; intros [= <-]. by apply case_sock.
Qed.

Lemma closing_CloseConn c r c' :
  zoom sock set_sock CloseConn c = Ret r c' → closing c c' ∧ nc_closed (sock c') = true.
Proof.
  intros (s & Hs & ->)%zoom_inv. revert Hs. unfold CloseConn.
  destruct (nc_closed (sock c)) eqn:Hn; intros [= <- <-]; repeat split; try done.
  all: by destruct c as [[]].
Qed.

Lemma xinv_move s0 st st' : xinv s0 st → xmove st st' → xinv s0 st'.
Proof.
  intros HI Hmove. destruct Hmove as [t st st' Hstep%xstep_case|t k st Ht|d st Hd Hmu].
  - destruct Hstep; eauto using xinv_act, xinv_lock, xinv_unlock.
    all: eapply xinv_quiet; [done|done| | | |done].
    all: try (intros ?; match goal with H : x_threads _ !! _ = _ |- _ => rewrite H end; by intros [= <-]).
    all: try done; try (by intros ? ? [= <- <-]).
    by eapply closing_CloseConn.
  - eapply xinv_quiet; [done|by destruct k| |done|by destruct k..].
    intros p'. by rewrite Ht.
  - destruct HI as [Hs Hh Hm Hl HC]. split; try done.
    intros t ctx command p (Hmu' & _)%Hh. simpl in *. congruence.
Qed.

Lemma xinv_reach c0 st : xreach (xinit c0) st → xinv (set c0) st.
Proof.
  intros Hr. eapply (rtc_ind_r (xinv (set c0))); [|by eauto using xinv_move|exact Hr].
  split; try done.
Qed.

(** *** Serialisation *)

Definition sinv (c0 : Conn) (st : xstate) : Prop :=
  closed (x_conn st) = false →
  ∃ c, serial c0 (x_log st) c ∧ (x_mu st = None → x_conn st = c) ∧
    ∀ t ctx command p, x_threads st !! t = Some (XHold ctx command p) →
      Execute ctx command c = denote p (x_conn st).

Lemma sinv_quiet c0 t q c' st :
  sinv c0 st → quiet q → (closed c' = false → c' = x_conn st) → sinv c0 (xgoto t q c' st).
Proof.
  intros HS Hq Hc Hf. simpl in *. specialize (Hc Hf) as ->.
  destruct (HS Hf) as (c & Hser & Hmu & Hh). exists c. split_and!; [done..|].
  intros t1 ctx command p. destruct (decide (t = t1)) as [->|Hne].
  - rewrite lookup_insert_eq. intros [= ->]. done.
  - rewrite lookup_insert_ne by done. apply Hh.
Qed.

Lemma sinv_step s0 c0 t st st' : xinv s0 st → sinv c0 st → xcase t st st' → sinv c0 st'.
Proof.
  intros HI HS Hstep.
  destruct Hstep as [| |ctx command Ht Hmu|ctx command B m k b c' Ht HR|ctx command r Ht|Ht|r c' Ht HR];
    try (by apply sinv_quiet).
  - intros Hf. destruct (HS Hf) as (c & Hser & Hc & Hh). specialize (Hc Hmu).
    exists c. split_and!; [done|done|]. simpl in Hf |- *.
    intros t1 ctx1 command1 p. destruct (decide (t = t1)) as [->|Hne].
    + rewrite lookup_insert_eq. intros [= <- <- <-]. rewrite Execute_alone, <- Hc.
      by rewrite (xi_lock _ _ HI _ _ _ Ht Hf).
    + rewrite lookup_insert_ne by done. intros (? & _)%(xi_hold _ _ HI). congruence.
  - intros Hf. simpl in Hf. destruct (xi_hold _ _ HI _ _ _ _ Ht) as (Hmu & [Ha _] & _).
    pose proof (action_closed m _ Ha (x_conn st) eq_refl) as Hcl. rewrite HR in Hcl.
    destruct HS as (c & Hser & Hc & Hh); [congruence|]. exists c. split_and!; [done| |].
    { simpl. congruence. }
    intros t1 ctx1 command1 p. simpl. destruct (decide (t = t1)) as [->|Hne].
    + rewrite lookup_insert_eq. intros [= <- <- <-]. rewrite (Hh _ _ _ _ Ht). simpl.
      by rewrite (bind_Ret _ _ _ _ _ HR).
    + rewrite lookup_insert_ne by done. intros (? & _)%(xi_hold _ _ HI). congruence.
  - intros Hf. simpl in Hf. destruct (HS Hf) as (c & Hser & Hc & Hh).
    exists (x_conn st). split_and!; [|done|].
    { simpl. eapply serial_ran; [done|]. by rewrite (Hh _ _ _ _ Ht). }
    intros t1 ctx1 command1 p. simpl. destruct (decide (t = t1)) as [->|Hne].
    + by rewrite lookup_insert_eq.
    + rewrite lookup_insert_ne by done. intros (Hm1 & _)%(xi_hold _ _ HI).
      apply (xi_hold _ _ HI) in Ht as (? & _). congruence.
  - apply sinv_quiet; [done..|]. intros Hf. apply closing_CloseConn in HR as [(_ & Hcl & _) _].
    apply (xi_close _ _ HI) in Ht. specialize (Hcl Ht). congruence.
Qed.

Lemma sinv_reach c0 st : xreach (xinit c0) st → sinv c0 st.
Proof.
  intros Hr. enough (xinv (set c0) st ∧ sinv c0 st) by tauto.
  eapply (rtc_ind_r (λ st, xinv (set c0) st ∧ sinv c0 st)); [| |exact Hr].
  { split; [by apply xinv_reach, rtc_refl|]. intros _. exists c0. split_and!; [constructor|done..]. }
  intros st1 st2 _ Hmove [HI HS]. split; [by eapply xinv_move|].
  destruct Hmove as [t st1 st2 Hstep%xstep_case|t k st1 Ht|d st1 Hd Hmu].
  - by eapply sinv_step.
  - apply sinv_quiet; [done|by destruct k|done].
  - intros Hf. destruct (HS Hf) as (c & Hser & Hc & Hh). specialize (Hc Hmu) as <-.
    eexists. split_and!; [by constructor|done|].
    intros t ctx command p (Hm1 & _)%(xi_hold _ _ HI). congruence.
Qed.

(** A call that returned was refused by the checks or is in the log. *)
Definition refused (r : result string) : Prop :=
  r = Err ErrClosed ∨ r = Err ErrCommandEmpty ∨ r = Err ErrCommandTooLong.

Lemma precheck_refused command c e : precheck command c = Some e → refused (Err e).
Proof. unfold precheck, refused. repeat case_match; naive_solver. Qed.

Definition accounted (st : xstate) : Prop :=
  ∀ t r, x_threads st !! t = Some (XRet r) →
    refused r ∨ ∃ ctx command, Ran t ctx command r ∈ x_log st.

Lemma accounted_goto t q c' st l :
  accounted st → (∀ r, q = XRet r → refused r ∨ ∃ ctx command, Ran t ctx command r ∈ x_log st ++ l) →
  ∀ mu, accounted (mkX mu c' (<[t := q]> (x_threads st)) (x_log st ++ l)).
Proof.
  intros HA Hq mu t1 r. simpl. destruct (decide (t = t1)) as [->|Hne].
  - rewrite lookup_insert_eq. intros [= ->]. by apply Hq.
  - rewrite lookup_insert_ne by done. intros [?|(ctx & command & ?)]%HA; [by left|].
    right. exists ctx, command. apply elem_of_app. by left.
Qed.

Lemma accounted_move st st' : accounted st → xmove st st' → accounted st'.
Proof.
  intros HA Hmove. destruct Hmove as [t st st' Hstep%xstep_case|t k st Ht|d st Hd Hmu].
  - destruct Hstep; unfold xgoto, xunlock; simpl;
      lazymatch goal with |- context [_ ++ _] => idtac | _ => rewrite <- (app_nil_r (x_log st)) end;
      apply accounted_goto; try done; intros ? [= <-]; eauto using precheck_refused.
    right. eexists _, _. apply elem_of_app. right. by left.
  - unfold xstart, xgoto. rewrite <- (app_nil_r (x_log st)). apply accounted_goto; [done|].
    by destruct k.
  - intros t r Ht. destruct (HA _ _ Ht) as [?|(ctx & command & ?)]; [by left|].
    right. exists ctx, command. apply elem_of_app. by left.
Qed.

Lemma accounted_reach c0 st : xreach (xinit c0) st → accounted st.
Proof.
  intros Hr. eapply (rtc_ind_r accounted); [|by eauto using accounted_move|exact Hr].
  intros t r. simpl. by rewrite lookup_empty.
Qed.

(** *** After Close *)

(** The goroutine runs alone for [n] steps, or until it has to wait. *)
Fixpoint alone (n : nat) (t : nat) (st : xstate) : xstate :=
  match n with
  | 0%nat => st
  | S n' => match xstep t st with Some st' => alone n' t st' | None => st end
  end.

Lemma alone_reach n t st : xreach st (alone n t st).
Proof.
  revert st. induction n as [|n IH]; intros st; simpl; [apply rtc_refl|].
  destruct (xstep t st) eqn:Hs; [|apply rtc_refl]. eapply rtc_l; [by econstructor|apply IH].
Qed.

(** From a state where its actions can only block with an open socket, the holder
    comes to its end on a closed one, and sends nothing. *)
Lemma holder_returns may t ctx command p st :
  x_threads st !! t = Some (XHold ctx command p) → pall p →
  wp closing (stuck_ok may) p (x_conn st) (λ _ _, True) →
  nc_closed (sock (x_conn st)) = true →
  ∃ n r, let st' := alone n t st in
    x_threads st' !! t = Some (XRet r) ∧ x_mu st' = None ∧
    x_log st' = x_log st ++ [Ran t ctx command r] ∧
    nc_out (sock (x_conn st')) = nc_out (sock (x_conn st)).
Proof.
  revert st. induction p as [r|B m k IH]; intros st Ht Ha Hwp Hc.
  - exists 1%nat, r. simpl. unfold xstep. rewrite Ht. simpl. by rewrite lookup_insert_eq.
  - destruct Ha as [Ha Hk]. pose proof (Hwp _ (closing_refl _)) as Hw.
    pose proof (action_dead m _ Ha (x_conn st) (conj Hc eq_refl)) as Hd.
    destruct (m (x_conn st)) as [b c'| |] eqn:HR; [|by destruct Hw; congruence|done].
    destruct Hd as [Hc' Ho].
    destruct (IH b (xgoto t (XHold ctx command (k b)) c' st)) as (n & r & Ht' & Hmu & Hl & Ho');
      [by simpl; rewrite lookup_insert_eq|done..|].
    exists (S n), r. simpl. unfold xstep. rewrite Ht. simpl. rewrite HR.
    split_and!; [done..|]. by rewrite Ho'.
Qed.

(** A move keeps a closed connection closed and its output as it is. *)
Lemma dead_move s0 st st' :
  xinv s0 st → xmove st st' →
  (closed (x_conn st) = true → closed (x_conn st') = true) ∧
  (nc_closed (sock (x_conn st)) = true →
   nc_closed (sock (x_conn st')) = true ∧ nc_out (sock (x_conn st')) = nc_out (sock (x_conn st))).
Proof.
  intros HI Hmove. destruct Hmove as [t st st' Hstep%xstep_case|t k st Ht|d st Hd Hmu]; [|done..].
  destruct Hstep as [| | |ctx command B m k b c' Ht HR| | |r c' Ht HR]; try done.
  - destruct (xi_hold _ _ HI _ _ _ _ Ht) as (_ & [Ha _] & _). simpl. split.
    + intros Hc. pose proof (action_closed m _ Ha (x_conn st) Hc) as H. by rewrite HR in H.
    + intros Hc. pose proof (action_dead m _ Ha (x_conn st) (conj Hc eq_refl)) as H. by rewrite HR in H.
  - apply closing_CloseConn in HR as [Hcl Hn]. pose proof (closing_sock _ _ Hcl) as (_ & ? & _).
    destruct Hcl as (_ & ? & _). done.
Qed.

(** What becomes of a goroutine: one that had not passed the check is refused;
    one that waits for the mutex gets the socket's error. *)
Definition fate (p : xpc) (c : Conn) : Prop :=
  match p with
  | XRet r => r = Err errUseOfClosed
  | XLock _ _ => True
  | XHold ctx _ p => wp closing (λ _, False) p c (λ r _, r = Err errUseOfClosed)
  | _ => False
  end.

Lemma wp_round_trip_dead ctx command c :
  nc_closed (sock c) = true →
  wp closing (λ _, False) (round_trip ctx command) c (λ r _, r = Err errUseOfClosed).
Proof.
  intros Hc c1 (_ & _ & Hc1). specialize (Hc1 Hc). cbn [gets].
  intros c2 (_ & _ & Hc2). specialize (Hc2 Hc1).
  unfold zoom, applyContextDeadline, bind, gets, SetDeadline. rewrite Hc2.
  by intros c3 _.
Qed.

Lemma fate_closing p c c' : closing c c' → fate p c → fate p c'.
Proof. intros Hc. destruct p; try done. by apply wp_stable. Qed.

(** Another goroutine's step changes the connection only as [Close] does, unless
    it holds the mutex. *)
Lemma fate_move s0 t p st st' :
  xinv s0 st → xmove st st' → nc_closed (sock (x_conn st)) = true →
  x_threads st !! t = Some p → fate p (x_conn st) →
  ∃ p', x_threads st' !! t = Some p' ∧ fate p' (x_conn st').
Proof.
  intros HI Hmove Hc Hp Hf. destruct Hmove as [t' st st' Hstep%xstep_case|t' k st Ht|d st Hd Hmu].
  - destruct (decide (t' = t)) as [->|Hne].
    + destruct Hstep as [ctx command e Ht|ctx command Ht|ctx command Ht Hmu
        |ctx command B m k b c' Ht HR|ctx command r Ht|Ht|r c' Ht HR]; simplify_eq;
        simpl; rewrite lookup_insert_eq; try done; (eexists; split; [done|]).
      * by apply wp_round_trip_dead.
      * specialize (Hf _ (closing_refl _)). by rewrite HR in Hf.
      * exact (Hf _ (closing_refl _)).
    + exists p. destruct Hstep as [ctx command e Ht|ctx command Ht|ctx command Ht Hmu
        |ctx command B m k b c' Ht HR|ctx command r Ht|Ht|r c' Ht HR];
        simpl; rewrite lookup_insert_ne by done; (split; [done|]); try done.
      * destruct (xi_hold _ _ HI _ _ _ _ Ht) as (? & _).
        destruct p; try done. apply (xi_hold _ _ HI) in Hp as (? & _). congruence.
      * by eapply fate_closing, Hf.
      * apply closing_CloseConn in HR as [Hcl _]. by eapply fate_closing, Hf.
  - exists p. simpl. rewrite lookup_insert_ne by congruence. done.
  - exists p. split; [done|]. destruct p; try done.
    apply (xi_hold _ _ HI) in Hp as (? & _). congruence.
Qed.

Lemma fate_reach c0 st st' t p :
  xreach (xinit c0) st → xreach st st' → nc_closed (sock (x_conn st)) = true →
  x_threads st !! t = Some p → fate p (x_conn st) →
  ∃ p', x_threads st' !! t = Some p' ∧ fate p' (x_conn st').
Proof.
  intros Hr Hr' Hc Hp Hf. revert p Hp Hf.
  induction Hr' as [st|st st1 st2 Hmove _ IH]; intros p Hp Hf; [by eauto|].
  pose proof (xinv_reach _ _ Hr) as HI.
  destruct (fate_move _ _ _ _ _ HI Hmove Hc Hp Hf) as (p' & Hp' & Hf').
  eapply IH; [|by eapply dead_move|done..]. by eapply rtc_r.
Qed.

Lemma dead_reach c0 st st' :
  xreach (xinit c0) st → xreach st st' →
  (closed (x_conn st) = true → closed (x_conn st') = true) ∧
  (nc_closed (sock (x_conn st)) = true →
   nc_closed (sock (x_conn st')) = true ∧ nc_out (sock (x_conn st')) = nc_out (sock (x_conn st))).
Proof.
  intros Hr Hr'. induction Hr' as [st|st st1 st2 Hmove _ IH]; [done|].
  destruct (dead_move _ _ _ (xinv_reach _ _ Hr) Hmove) as [Hc Hn].
  destruct IH as [Hc' Hn']; [by eapply rtc_r|]. split; [by auto|].
  intros [H1 H2]%Hn. destruct (Hn' H1). split; congruence.
Qed.

Lemma refused_after_close c0 st st' t ctx command :
  xreach (xinit c0) st → xreach st st' → closed (x_conn st) = true →
  x_threads st !! t = Some (XCall ctx command) ∨ x_threads st !! t = Some (XRet (Err ErrClosed)) →
  x_threads st' !! t = Some (XCall ctx command) ∨ x_threads st' !! t = Some (XRet (Err ErrClosed)).
Proof.
  intros Hr Hr'. induction Hr' as [st|st st1 st2 Hmove _ IH]; [done|]. intros Hc Ht.
  apply IH; [by eapply rtc_r|by eapply dead_move; [eapply xinv_reach|..]|].
  clear IH. destruct Hmove as [t' st st' Hstep%xstep_case|t' k st Ht'|d st Hd Hmu]; [| |done].
  - destruct (decide (t' = t)) as [->|Hne].
    + destruct Hstep as [ctx1 command1 e Ht1 He|ctx1 command1 Ht1 He| | | | |];
        destruct Ht; simplify_eq; simpl; rewrite lookup_insert_eq;
        unfold precheck in *; rewrite Hc in *; simplify_eq; auto.
    + destruct Hstep; simpl; by rewrite lookup_insert_ne.
  - simpl. rewrite lookup_insert_ne; [done|]. intros ->. destruct Ht; congruence.
Qed.

(** *** Samples *)

(** Goroutines run in the order given; one that has to wait is skipped. *)
Definition xrun (ts : list nat) (st : xstate) : xstate :=
  foldl (λ st t, default st (xstep t st)) st ts.

Lemma xrun_reach ts st : xreach st (xrun ts st).
Proof.
  revert st. induction ts as [|t ts IH]; intros st; simpl; [apply rtc_refl|].
  destruct (xstep t st) eqn:Hs; simpl; [|apply IH].
  eapply rtc_l; [by econstructor|apply IH].
Qed.

Lemma xstart_reach t k c0 st :
  x_threads st !! t = None → xreach (xinit c0) st → xreach (xinit c0) (xstart t k st).
Proof. intros Ht Hr. eapply rtc_r; [done|by constructor]. Qed.

(** Two goroutines call [Execute] at once: the first is in its round trip when the
    second passes the checks. *)
Definition two_callers : xstate :=
  let c := sample [WithSinglePacket] [(3, Seg (encode (mkPacket 2 0 "one") ++ encode (mkPacket 3 0 "two")))] in
  xstart 2 (CallExecute Background "second") (xstart 1 (CallExecute Background "first") (xinit c)).

(** One blocked in a read nothing answers or bounds, one queued behind it, and
    the goroutine that closes. *)
Definition blocked_callers : xstate :=
  let c := sample [WithDeadline 0] [] in
  xstart 3 CallConnClose
    (xstart 2 (CallExecute Background "second") (xstart 1 (CallExecute Background "first") (xinit c))).

Lemma two_callers_reach : xreach (xinit (x_conn two_callers)) two_callers.
Proof. do 2 (apply xstart_reach; [reflexivity|]). apply rtc_refl. Qed.

Lemma blocked_callers_reach : xreach (xinit (x_conn blocked_callers)) blocked_callers.
Proof. do 3 (apply xstart_reach; [reflexivity|]). apply rtc_refl. Qed.

(** ** Theorems *)

(** C5: concurrent [Execute] calls are serialised. In every interleaving, while the
    connection is not closed, the completed round trips and the connection they
    leave are those of the same [Execute] calls made one after the other, in the
    order the mutex was released; the call that holds the mutex, if any, will end
    as [Execute] does in that order; and every result a caller got is either a
    refusal by the checks or the result of its call in that sequence. *)
Theorem concurrent_calls_serialize (c0 : Conn) (st : xstate) :
  xreach (xinit c0) st → closed (x_conn st) = false →
  ∃ c, serial c0 (x_log st) c ∧
    match x_mu st with
    | None => x_conn st = c
    | Some t => ∃ ctx command p, x_threads st !! t = Some (XHold ctx command p) ∧
                  Execute ctx command c = denote p (x_conn st)
    end ∧
    ∀ t r, x_threads st !! t = Some (XRet r) →
      refused r ∨ ∃ ctx command, Ran t ctx command r ∈ x_log st.
Proof.
  intros Hr Hc. pose proof (xinv_reach _ _ Hr) as HI.
  destruct (sinv_reach _ _ Hr Hc) as (c & Hser & Hmu & Hh). exists c.
  split_and!; [done| |by eapply accounted_reach].
  destruct (x_mu st) as [t|] eqn:Hm; [|by apply Hmu].
  destruct (xi_mu _ _ HI t Hm) as (ctx & command & p & Ht). eauto 10.
Qed.

Lemma concurrent_calls_serialize_witness :
  let st := xrun (1 :: 2 :: 1 :: 2 :: replicate 12 1 ++ replicate 12 2)%nat two_callers in
  x_log st = [Ran 1 Background "first" (Ok "one"); Ran 2 Background "second" (Ok "two")] ∧
  ∃ c, serial (x_conn two_callers) (x_log st) c ∧ x_conn st = c.
Proof.
  intros st. split; [vm_compute; reflexivity|].
  destruct (concurrent_calls_serialize (x_conn two_callers) st) as (c & Hs & Hc & _).
  - etrans; [apply two_callers_reach|apply xrun_reach].
  - vm_compute. reflexivity.
  - exists c. split; [exact Hs|exact Hc].
Defined.

(** C21: [Close] unblocks a round trip in flight. Once the socket is closed, the
    goroutine that holds the mutex needs no other goroutine to return from
    [Execute] and release the mutex, whatever it was waiting for and whichever
    read mode it is in; it sends nothing more on the way. *)
Theorem close_unblocks_execute (c0 : Conn) (st : xstate) (t : nat) :
  xreach (xinit c0) st → nc_closed (sock (x_conn st)) = true → x_mu st = Some t →
  ∃ n ctx command r, let st' := alone n t st in
    x_threads st' !! t = Some (XRet r) ∧ x_mu st' = None ∧
    x_log st' = x_log st ++ [Ran t ctx command r] ∧
    nc_out (sock (x_conn st')) = nc_out (sock (x_conn st)).
Proof.
  intros Hr Hc Hm. pose proof (xinv_reach _ _ Hr) as HI.
  destruct (xi_mu _ _ HI t Hm) as (ctx & command & p & Ht).
  destruct (xi_hold _ _ HI _ _ _ _ Ht) as (_ & Ha & Hwp).
  destruct (holder_returns _ _ _ _ _ _ Ht Ha Hwp Hc) as (n & r & H). by exists n, ctx, command, r.
Qed.

Lemma close_unblocks_execute_witness :
  let stuck := alone 20 1 blocked_callers in
  let st := alone 2 3 stuck in
  xstep 1 stuck = None ∧
  ∃ n r, x_threads (alone n 1 st) !! 1%nat = Some (XRet r) ∧ x_mu (alone n 1 st) = None.
Proof.
  intros stuck st. split; [vm_compute; reflexivity|].
  destruct (close_unblocks_execute (x_conn blocked_callers) st 1) as (n & ctx & command & r & Ht & Hm & _).
  - etrans; [apply blocked_callers_reach|].
    etrans; apply alone_reach.
  - vm_compute. reflexivity.
  - vm_compute. reflexivity.
  - exists n, r. split; [exact Ht|exact Hm].
Defined.

(** Nothing follows [Close]. From the moment [Close] has set the flag, an
    [Execute] that has not yet made its first check can only return [ErrClosed];
    from the moment it has closed the socket, the socket stays closed and no
    goroutine sends another byte. *)
Theorem nothing_after_close (c0 : Conn) (st st' : xstate) :
  xreach (xinit c0) st → xreach st st' →
  (closed (x_conn st) = true → ∀ t ctx command, x_threads st !! t = Some (XCall ctx command) →
     x_threads st' !! t = Some (XCall ctx command) ∨
     x_threads st' !! t = Some (XRet (Err ErrClosed))) ∧
  (nc_closed (sock (x_conn st)) = true →
     nc_closed (sock (x_conn st')) = true ∧ nc_out (sock (x_conn st')) = nc_out (sock (x_conn st))).
Proof.
  intros Hr Hr'. split; [|by eapply dead_reach].
  intros Hc t ctx command Ht. eapply refused_after_close; eauto.
Qed.

Lemma nothing_after_close_witness :
  let st := alone 2 3 blocked_callers in
  let st' := alone 1 2 st in
  closed (x_conn st) = true ∧ x_threads st' !! 2%nat = Some (XRet (Err ErrClosed)) ∧
  nc_out (sock (x_conn st')) = nc_out (sock (x_conn st)).
Proof.
  intros st st'.
  destruct (nothing_after_close (x_conn blocked_callers) st st') as [Hr Ho].
  - etrans; [apply blocked_callers_reach|apply alone_reach].
  - apply alone_reach.
  - split; [vm_compute; reflexivity|]. split; [|apply Ho; vm_compute; reflexivity].
    destruct (Hr eq_refl 2%nat Background "second" eq_refl) as [H|H]; [|exact H].
    exfalso. vm_compute in H. discriminate.
Defined.

(** C37: an [Execute] that has passed its checks and waits for the mutex when the
    socket is closed returns the socket's error, "use of closed network
    connection", which is not [ErrClosed]. *)
Theorem queued_execute_error (c0 : Conn) (st st' : xstate) (t : nat) (ctx : Context)
    (command : string) (r : result string) :
  xreach (xinit c0) st → xreach st st' → nc_closed (sock (x_conn st)) = true →
  x_threads st !! t = Some (XLock ctx command) → x_threads st' !! t = Some (XRet r) →
  r = Err errUseOfClosed ∧ Is errUseOfClosed ErrClosed = false.
Proof.
  intros Hr Hr' Hc Ht Ht'. split; [|done].
  destruct (fate_reach _ _ _ _ _ Hr Hr' Hc Ht I) as (p' & Hp' & Hf).
  rewrite Ht' in Hp'. injection Hp' as <-. exact Hf.
Qed.

Lemma queued_execute_error_witness :
  let st := alone 2 3 (alone 1 2 (alone 20 1 blocked_callers)) in
  let st' := alone 20 2 (alone 20 1 st) in
  ∃ r, x_threads st' !! 2%nat = Some (XRet r) ∧ r = Err errUseOfClosed.
Proof.
  intros st st'. exists (Err errUseOfClosed). split; [vm_compute; reflexivity|].
  refine (proj1 (queued_execute_error (x_conn blocked_callers) st st' 2 Background "second" _ _ _ _ _ _)).
  - etrans; [apply blocked_callers_reach|].
    do 2 (etrans; [apply alone_reach|]). apply alone_reach.
  - etrans; apply alone_reach.
  - vm_compute. reflexivity.
  - vm_compute. reflexivity.
  - vm_compute. reflexivity.
Defined.

(** The mutex of a connection cannot deadlock. Whenever a call is unfinished,
    some goroutine can take a step, unless the goroutine in its round trip is
    waiting for the server with neither a deadline on its context nor one of the
    connection, on a socket nobody has closed. *)
Theorem connection_progress (c0 : Conn) (st : xstate) (t : nat) (p : xpc) :
  xreach (xinit c0) st → x_threads st !! t = Some p →
  (∀ r, p ≠ XRet r) → (∀ r, p ≠ CRet r) →
  (∃ t' st', xstep t' st = Some st') ∨
  (∃ t' ctx command p', x_mu st = Some t' ∧ x_threads st !! t' = Some (XHold ctx command p') ∧
     unbounded ctx (set c0) ∧ nc_closed (sock (x_conn st)) = false).
Proof.
  intros Hr Ht Hx Hc. pose proof (xinv_reach _ _ Hr) as HI.
  destruct (x_mu st) as [t'|] eqn:Hm.
  - destruct (xi_mu _ _ HI t' Hm) as (ctx & command & p' & Ht').
    destruct (xi_hold _ _ HI _ _ _ _ Ht') as (_ & _ & Hwp).
    destruct p' as [r|B m k].
    { left. exists t'. unfold xstep. rewrite Ht'. by eexists. }
    specialize (Hwp _ (closing_refl _)).
    destruct (m (x_conn st)) eqn:HR; [|right; destruct Hwp; eauto 10|done].
    left. exists t'. unfold xstep. rewrite Ht'. simpl. rewrite HR. by eexists.
  - left. exists t. unfold xstep. rewrite Ht. simpl.
    destruct p as [ctx command|ctx command|ctx command p|r| | |r].
    + case_match; by eexists.
    + unfold xlock. rewrite Hm. by eexists.
    + apply (xi_hold _ _ HI) in Ht as (? & _). congruence.
    + by destruct (Hx r).
    + by eexists.
    + unfold zoom, CloseConn. destruct (nc_closed _); by eexists.
    + by destruct (Hc r).
Qed.

Lemma connection_progress_witness :
  (∃ t' st', xstep t' two_callers = Some st') ∨
  (∃ t' ctx command p', x_mu two_callers = Some t' ∧
     x_threads two_callers !! t' = Some (XHold ctx command p') ∧
     unbounded ctx (set (x_conn two_callers)) ∧ nc_closed (sock (x_conn two_callers)) = false).
Proof.
  apply (connection_progress (x_conn two_callers) two_callers 1 (XCall Background "first")).
  - apply two_callers_reach.
  - vm_compute. reflexivity.
  - discriminate.
  - discriminate.
Defined.
