(* ===== verification/ConnType.v ===== *)
(** * The well-formedness of a connection

    The invariant of the [Conn] structure itself: the id counter is zero or a
    positive [int32], at most one buffer of input is held back, and no read error
    is pending in the buffer. It holds from [open] on, through every interleaving
    of [Execute] and [Close]. *)

From S2P Require Import Prelude GoErrors GoIO GoNet Packet Options Conn ConnProps Resume ConnConc ConnConcProps.

Local Open Scope Z_scope.

Record wf_conn (c : Conn) : Prop := {
  wf_id : 0 ≤ id c < 2 ^ 31;
  wf_buf : (length (b_buf (br c)) ≤ bufio_size)%nat;
  wf_err : b_err (br c) = None
}.

Lemma keeps_wf_zoom {A} (m : GoM netConn A) : keeps wf_conn (zoom sock set_sock m).
Proof. intros c [Hi Hb He]. unfold zoom. destruct (m (sock c)); [by split..|done]. Qed.

(** A read of the socket returns bytes or an error, not both. *)
Lemma recv_either n now dl l bs e l' now' :
  recv n now dl l = Some (bs, e, l', now') → bs = [] ∨ e = None.
Proof.
  induction l as [|[t [[|b bs']| |e']] l IH]; simpl; repeat case_match; naive_solver.
Qed.

Lemma netRead_either n (s s' : netConn) bs e : Read n s = Ret (bs, e) s' → bs = [] ∨ e = None.
Proof.
  unfold Read, netConn_Reader. repeat case_match; intros; simplify_eq; auto. by eapply recv_either.
Qed.

Lemma keeps_wf_Read n : keeps wf_conn (Read n).
Proof.
  intros c [Hi Hb He]. unfold Read, Conn_Reader, zoom.
  assert (∀ b, (length (b_buf b) ≤ bufio_size)%nat → b_err b = None → wf_conn (set_br b c)) as Hset by (by split).
  unfold Read, bufio_Reader. rewrite He.
  destruct (decide (n = 0%nat)); [by destruct (b_buf (br c)) eqn:E; apply Hset; simpl; rewrite ?E|].
  destruct (b_buf (br c)) as [|x buf] eqn:E.
  2:{ apply Hset; [|done]. simpl in *. rewrite length_drop. simpl. lia. }
  destruct (Read _ (b_rd (br c))) as [[bs e] s'|s'|] eqn:HR; [|by apply Hset; simpl; rewrite ?E|done].
  pose proof (Read_len _ _ _ _ _ HR) as Hl. pose proof (netRead_either _ _ _ _ _ HR) as Hor.
  destruct (decide (bufio_size ≤ n)%nat); [apply Hset; simpl; [lia|done]|].
  destruct bs as [|b bs]; [apply Hset; simpl; [lia|done]|].
  destruct Hor as [|Hor]; [done|]. apply Hset; [|done]. cbn [b_buf]. rewrite length_drop. lia.
Qed.

Lemma keeps_wf_nextID : keeps wf_conn nextID.
Proof. intros c [Hi Hb He]. pose proof (next_id_range (id c)). split; simpl; [lia|done..]. Qed.

#[export] Hint Resolve keeps_wf_zoom keeps_wf_Read keeps_wf_nextID : rcon.

Lemma action_wf {B} (m : GoM Conn B) : conn_action m → keeps wf_conn m.
Proof. intros []; auto with rcon; [exact (keeps_wf_zoom _)|by intros c]. Qed.

Lemma open_wf ctx nc password st r c' : open ctx nc password st = Ret r c' → wf_conn c'.
Proof.
  intros HO. unfold open in HO.
  assert (keeps wf_conn (try _ <- zoom sock set_sock (applyContextDeadline ctx (deadline st));
    try _ <- authenticate password nextID; ret (Ok tt))) as Hk.
  { assert (∀ bs, keeps wf_conn (Write bs)) by (intros bs; exact (keeps_wf_zoom _)).
    assert (keeps wf_conn ReadFrom) by (apply keeps_ReadFrom; auto with rcon).
    assert (∀ p, keeps wf_conn (WriteTo p)) by (intros p; by apply keeps_WriteTo).
    unfold authenticate. keeps_tac. }
  specialize (Hk (newConn nc st)). rewrite HO in Hk. apply Hk. split; simpl; [lia| |done].
  unfold bufio_size. lia.
Qed.

Lemma wf_move s0 st st' : xinv s0 st → wf_conn (x_conn st) → xmove st st' → wf_conn (x_conn st').
Proof.
  intros HI Hw Hmove. destruct Hmove as [t st st' Hstep%xstep_case|t k st Ht|d st Hd Hmu]; [|done|].
  - destruct Hstep as [| | |ctx command B m k b c' Ht HR| | |r c' Ht HR]; try done.
    + destruct (xi_hold _ _ HI _ _ _ _ Ht) as (_ & [Ha _] & _).
      pose proof (action_wf m Ha _ Hw) as H. by rewrite HR in H.
    + by destruct Hw.
    + pose proof (keeps_wf_zoom CloseConn _ Hw) as H. by rewrite HR in H.
  - by destruct Hw.
Qed.

(** C30: a connection is well formed for life. Whatever the server sends and however
    the dial and the handshake go, [open] returns a connection whose id counter is
    an id in range, that holds back at most 4096 bytes of input and no read error;
    every sequence and interleaving of [Execute] and [Close] calls, complete or
    interrupted at any point, keeps it so. *)
Theorem connection_well_formed (ctx : Context) (nc : netConn) (password : string) (set : settings)
    (r : result unit) (c0 : Conn) (st : xstate) :
  open ctx nc password set = Ret r c0 → xreach (xinit c0) st → wf_conn (x_conn st).
Proof.
  intros HO%open_wf Hr.
  enough (xinv (Conn.set c0) st ∧ wf_conn (x_conn st)) by tauto.
  eapply (rtc_ind_r (λ st, xinv (Conn.set c0) st ∧ wf_conn (x_conn st))); [| |exact Hr].
  - split; [by apply xinv_reach, rtc_refl|done].
  - intros st1 st2 _ Hm [HI Hw]. split; [by eapply xinv_move|by eapply wf_move].
Qed.

(** A server that accepts the password and answers one command. *)
Definition sample_net : netConn :=
  new_netConn [(1, Seg (encode (mkPacket 1 TypeAuthResponse "") ++ encode (mkPacket 2 0 "one")))] 0.

Lemma connection_well_formed_witness :
  ∃ c0, open Background sample_net "pw" (newSettings [WithSinglePacket]) = Ret (Ok tt) c0 ∧
    let st := alone 20 1 (xstart 1 (CallExecute Background "list") (xinit c0)) in
    x_threads st !! 1%nat = Some (XRet (Ok "one")) ∧ wf_conn (x_conn st).
Proof.
  destruct (open Background sample_net "pw" (newSettings [WithSinglePacket])) as [r c0| |] eqn:HO;
    [|vm_compute in HO; discriminate..].
  exists c0. pose proof (connection_well_formed _ _ _ _ _ _
    (alone 20 1 (xstart 1 (CallExecute Background "list") (xinit c0))) HO) as Hw.
  vm_compute in HO. injection HO as <- <-. split; [reflexivity|]. split; [vm_compute; reflexivity|].
  apply Hw. unfold xreach. etrans; [|apply alone_reach]. apply rtc_once, xmove_call. reflexivity.
Defined.
