(* ===== verification/Server.v ===== *)
(** * rconserver: serving one connection

    [rconserver/handler.go], [response.go], [auth.go] and the connection part of
    [server.go] ([serveConn], [dispatch]). The user's [Handler] is a parameter:
    a function from a request and the handler's own state to the writes it makes,
    whether it then panics, its next state and the time it takes. A connection being served is its
    socket and the handler's state ([served]); the server reads the socket
    directly, without a buffer. The lifecycle part of [server.go] is in
    [Lifecycle]. *)

From S2P Require Import Prelude GoErrors GoIO GoNet Packet.

Local Open Scope Z_scope.

(** ** handler.go *)

Record Request := mkRequest {
  Command : string;
  RemoteAddr : string;
  req_ctx : option Context
}.

(** [Request.Context]: an unset context is [Background]. *)
Definition Request_Context (r : Request) : Context := default Background (req_ctx r).

(** The calls a handler makes on its [ResponseWriter]. *)
Inductive write_call :=
  | CallWrite (p : list byte)
  | CallWriteString (s : string).

(** One call of a handler that returns: its writes, whether it panicked, its next
    state and how long it took. *)
Record handler_run (H : Type) := mkTimedRun {
  hr_writes : list write_call;
  hr_panics : bool;
  hr_next : H;
  hr_time : Z
}.
Arguments mkTimedRun {H} _ _ _ _.
Arguments hr_writes {H} _.
Arguments hr_panics {H} _.
Arguments hr_next {H} _.
Arguments hr_time {H} _.

(** A call that returns at once. *)
Definition mkRun {H} (writes : list write_call) (panics : bool) (next : H) : handler_run H :=
  mkTimedRun writes panics next 0.

(** [Handler.ServeRCON], for the calls that return. Here a connection is served by
    one goroutine that waits for the call, so a call that does not return is the
    end of what this model says of the connection; [ServeConc] has the calls that
    are still running, or never return, beside the other goroutines. *)
Definition Handler (H : Type) : Type := Request → H → handler_run H.

(** [HandlerFunc]: a function is a handler. *)
Definition HandlerFunc {H} (f : Request → H → handler_run H) : Handler H := λ r, f r.

(** ** response.go *)

Record responseWriter := mkResponseWriter { rw_buf : list byte }.

Definition rw_Write (p : list byte) (w : responseWriter) : nat * responseWriter :=
  (length p, mkResponseWriter (rw_buf w ++ p)).

Definition rw_WriteString (s : string) (w : responseWriter) : nat * responseWriter :=
  (len s, mkResponseWriter (rw_buf w ++ bytes_of s)).

Definition rw_call (w : responseWriter) (call : write_call) : responseWriter :=
  match call with
  | CallWrite p => (rw_Write p w).2
  | CallWriteString s => (rw_WriteString s w).2
  end.

Fixpoint write_chunks {S} `{Writer S} (fuel : nat) (reqID : Z) (body : list byte) :
    GoM S (option error) :=
  match body with
  | [] => ret None
  | _ =>
      match fuel with
      | 0%nat => λ _, Diverges
      | Datatypes.S fuel' =>
          let n := Nat.min (length body) (Z.to_nat MaxPayloadSize) in
          do (_, err) <- WriteTo {| ID := reqID; Type_ := TypeResponseValue;
                                    Body := string_of (take n body) |};
          match err with
          | Some e => ret (Some e)
          | None => write_chunks fuel' reqID (drop n body)
          end
      end
  end.

Definition writeResponse {S} `{Writer S} (reqID : Z) (body : list byte) : GoM S (option error) :=
  match body with
  | [] =>
      do (_, err) <- WriteTo {| ID := reqID; Type_ := TypeResponseValue; Body := "" |};
      ret err
  | _ => write_chunks (length body) reqID body
  end.

(** ** auth.go *)

(** [subtle.ConstantTimeCompare]: or of the byte-wise xors. *)
Definition ConstantTimeCompare (x y : list byte) : Z :=
  if decide (length x = length y) then
    let v := foldl (λ v p, Z.lor v (Z.lxor (byte_to_Z p.1) (byte_to_Z p.2))) 0 (zip x y) in
    if v =? 0 then 1 else 0
  else 0.

Section Server.
Context {H : Type}.

(** The exported configuration of a [Server]; [None] is a nil field. *)
Record Server := mkServer {
  Addr : string;
  srv_Handler : option (Handler H);
  Password : string;
  Authenticator : option (string → bool);
  ReadTimeout : Z
}.

Definition errNilHandler : error := ErrorString "rconserver: nil Handler".
Definition errNoAuthConfigured : error :=
  ErrorString "rconserver: no Password or Authenticator configured".

Definition validate (s : Server) : result unit :=
  match srv_Handler s with
  | None => Err errNilHandler
  | Some _ =>
      match Authenticator s with
      | None => if decide (Password s = "") then Err errNoAuthConfigured else Ok tt
      | Some _ => Ok tt
      end
  end.

Definition checkPassword (s : Server) (password : string) : bool :=
  match Authenticator s with
  | Some f => f password
  | None => ConstantTimeCompare (bytes_of password) (bytes_of (Password s)) =? 1
  end.

Definition srv_authenticate {S} `{Reader S} `{Writer S} (s : Server) : GoM S (result bool) :=
  do (_, r) <- ReadFrom;
  try req <- ret r;
  if negb (Type_ req =? TypeAuth) then ret (Err errNotAuth) else
  let ok := checkPassword s (Body req) in
  do (_, err) <- WriteTo {| ID := ID req; Type_ := TypeResponseValue; Body := "" |};
  match err with
  | Some e => ret (Err e)
  | None =>
      let id := if ok then ID req else -1 in
      do (_, err) <- WriteTo {| ID := id; Type_ := TypeAuthResponse; Body := "" |};
      match err with
      | Some e => ret (Err e)
      | None => ret (Ok ok)
      end
  end.

(** ** server.go: one connection *)

Record served := mkServed {
  sv_conn : netConn;
  sv_handler : H
}.

Definition set_sv_conn (c : netConn) (s : served) : served := mkServed c (sv_handler s).

#[export] Instance served_Reader : Reader served := λ n, zoom sv_conn set_sv_conn (Read n).
#[export] Instance served_Writer : Writer served := λ bs, zoom sv_conn set_sv_conn (Write bs).

#[export] Program Instance served_ReaderLaws : ReaderLaws served := {|
  left_bytes s := left_bytes (sv_conn s)
|}.
Next Obligation. intros n c bs e c' (b & HR & ->)%zoom_inv. exact (Read_len _ _ _ _ _ HR). Qed.
Next Obligation. intros n c bs c' Hn (b & HR & ->)%zoom_inv. exact (Read_progress _ _ _ _ Hn HR). Qed.
Next Obligation. intros n c bs e c' (b & HR & ->)%zoom_inv. exact (Read_left _ _ _ _ _ HR). Qed.
Next Obligation.
  intros n c. unfold Read, served_Reader, zoom.
  destruct (Read n (sv_conn c)) eqn:HR; try done. by apply Read_converges in HR.
Qed.

#[export] Program Instance served_Stream : Stream served := {|
  frame s := (frame (sv_conn s), sv_handler s);
  pending s := pending (sv_conn s)
|}.
Next Obligation.
  intros n s Hn Hp. destruct (Read_pending n (sv_conn s)) as (bs & c & HR & ? & ? & ? & Hf); [done..|].
  exists bs, (set_sv_conn c s). split_and!; try done.
  - by apply zoom_Ret.
  - cbn [set_sv_conn sv_conn sv_handler]. by rewrite Hf.
Qed.

(** The connection once a handler has run: the clock has moved by the time of the
    call. *)
Definition after_call (run : handler_run H) (s : served) : served :=
  mkServed (set_now (nc_now (sv_conn s) + Z.max 0 (hr_time run)) (sv_conn s)) (hr_next run).

(** [dispatch]: run the handler, then frame what it wrote; a panic is recovered
    into [errHandlerPanic] and nothing is written. *)
Definition dispatch (handler : Handler H) (r : Request) (reqID : Z) : GoM served (option error) :=
  do h <- gets sv_handler;
  let run := handler r h in
  do _ <- modify (after_call run);
  if hr_panics run then ret (Some errHandlerPanic)
  else writeResponse reqID (rw_buf (fold_left rw_call (hr_writes run) (mkResponseWriter []))).

(** [_ = conn.SetReadDeadline(time.Now().Add(s.ReadTimeout))] when it is set *)
Definition arm_read (s : Server) : GoM served unit :=
  if 0 <? ReadTimeout s then
    do c <- gets sv_conn;
    do _ <- zoom sv_conn set_sv_conn (SetReadDeadline (Some (nc_now c + ReadTimeout s)));
    ret tt
  else ret tt.

Section ServeConn.
Context (s : Server) (handler : Handler H) (doneCtx : option Context).

Fixpoint serve_loop (fuel : nat) : GoM served unit :=
  match fuel with
  | 0%nat => λ _, Diverges
  | S fuel' =>
      do _ <- arm_read s;
      do (_, r) <- ReadFrom;
      match r with
      | Err _ => ret tt
      | Ok req =>
          if Type_ req =? TypeExecCommand then
            do c <- gets sv_conn;
            do err <- dispatch handler
              {| Command := Body req; RemoteAddr := nc_remote c; req_ctx := doneCtx |} (ID req);
            match err with
            | Some _ => ret tt
            | None => serve_loop fuel'
            end
          else if Type_ req =? TypeResponseValue then
            do _ <- WriteTo {| ID := ID req; Type_ := TypeResponseValue; Body := "" |};
            serve_loop fuel'
          else serve_loop fuel'
      end
  end.

(** The body of [serveConn], before the deferred close. *)
Definition serve_body : GoM served unit :=
  do _ <- arm_read s;
  do r <- srv_authenticate s;
  match r with
  | Err _ => ret tt
  | Ok false => ret tt
  | Ok true => λ st, serve_loop (S (left_bytes st)) st
  end.

Definition serveConn : GoM served unit :=
  do _ <- serve_body;
  do _ <- zoom sv_conn set_sv_conn CloseConn;
  ret tt.
End ServeConn.
End Server.
Arguments Server : clear implicits.
Arguments served : clear implicits.
