(* ===== verification/ServerProps.v ===== *)
(** * Properties of a served connection

    [session] is the protocol a server speaks on one authenticated connection, as
    a function on packets; [serveConn] is shown to implement it on the wire. *)

From S2P Require Import Prelude GoErrors GoIO GoNet Packet Server.

Local Open Scope Z_scope.

(** ** Constant-time comparison *)

Lemma byte_to_Z_inj a b : byte_to_Z a = byte_to_Z b → a = b.
Proof.
  unfold byte_to_Z. intros E%N2Z.inj.
  pose proof (Byte.of_to_N a) as Ha. rewrite E, (Byte.of_to_N b) in Ha. congruence.
Qed.

Lemma foldl_lor_xor v (ps : list (byte * byte)) :
  foldl (λ v p, Z.lor v (Z.lxor (byte_to_Z p.1) (byte_to_Z p.2))) v ps = 0 ↔
  v = 0 ∧ Forall (λ p, p.1 = p.2) ps.
Proof.
  revert v. induction ps as [|[a b] ps IH]; intros v; simpl.
  - split; [done|by intros [? _]].
  - rewrite IH, Z.lor_eq_0_iff, Z.lxor_eq_0_iff, Forall_cons_iff. simpl. split.
    + intros [[? ?%byte_to_Z_inj] ?]. done.
    + by intros (-> & -> & ?).
Qed.

Lemma ConstantTimeCompare_spec x y : ConstantTimeCompare x y = 1 ↔ x = y.
Proof.
  unfold ConstantTimeCompare. case_decide as Hl.
  2:{ split; [done|]. by intros ->. }
  match goal with |- (if ?v =? 0 then _ else _) = _ ↔ _ => destruct (Z.eqb_spec v 0) as [E|E] end.
  - split; [intros _|done]. apply foldl_lor_xor in E as [_ E].
    revert y Hl E. induction x as [|a x IH]; intros [|b y]; try done. simpl. intros [= Hl] [Hab E]%Forall_cons_1.
    simpl in Hab. subst. f_equal. by apply IH.
  - split; [done|]. intros ->. exfalso. apply E, foldl_lor_xor. split; [done|].
    clear. induction y as [|b y IH]; simpl; by constructor.
Qed.

(** ** Blocks *)

Section Blocks.
Context (k : nat) (Hk : (0 < k)%nat).
Implicit Types body : list byte.

(** [body] cut into blocks of [k] bytes, the last one possibly shorter. *)
Definition blocks body : list (list byte) :=
  (λ i, take k (drop (k * i) body)) <$> seq 0 ((length body + (k - 1)) / k).

Lemma blocks_nil : blocks [] = [].
Proof. unfold blocks. simpl. by rewrite Nat.div_small by lia. Qed.

(** Peeling the first block. *)
Lemma blocks_step body : body ≠ [] → blocks body = take k body :: blocks (drop k body).
Proof.
  intros Hb. unfold blocks. rewrite length_drop.
  assert (0 < length body)%nat by (destruct body; [done|simpl; lia]).
  replace ((length body + (k - 1)) / k)%nat with (S ((length body - k + (k - 1)) / k))%nat.
  - cbn [seq fmap list_fmap]. rewrite Nat.mul_0_r, drop_0. f_equal.
    rewrite <- fmap_S_seq, <- list_fmap_compose. apply list_fmap_ext. intros i x _. cbn.
    rewrite drop_drop. do 2 f_equal. lia.
  - destruct (decide (length body ≤ k)%nat).
    + rewrite (Nat.div_small (length body - k + (k - 1))) by lia.
      apply (Nat.div_unique _ _ _ (length body - 1)); lia.
    + replace (length body + (k - 1))%nat with (1 * k + (length body - k + (k - 1)))%nat by lia.
      by rewrite Nat.div_add_l by lia.
Qed.

Lemma blocks_ind (P : list byte → Prop) :
  P [] → (∀ body, body ≠ [] → P (drop k body) → P body) → ∀ body, P body.
Proof.
  intros H0 Hs body. remember (length body) as n eqn:Hn. revert body Hn.
  induction n as [n IH] using lt_wf_ind. intros body ->.
  destruct (decide (body = [])) as [->|Hb]; [done|].
  apply Hs; [done|]. eapply IH; [|done]. rewrite length_drop. destruct body; [done|simpl; lia].
Qed.

Lemma concat_blocks body : concat (blocks body) = body.
Proof.
  induction body as [|body Hb IH] using blocks_ind; [by rewrite blocks_nil|].
  rewrite blocks_step by done. simpl. by rewrite IH, take_drop.
Qed.

Lemma blocks_bounds body : Forall (λ b, (0 < length b ≤ k)%nat) (blocks body).
Proof.
  induction body as [|body Hb IH] using blocks_ind; [by rewrite blocks_nil|].
  rewrite blocks_step by done. constructor; [|done]. rewrite length_take.
  destruct body; [done|simpl; lia].
Qed.
End Blocks.

Section ServerProps.
Context {H : Type}.
Implicit Types (s : Server H) (st : served H).

Lemma checkPassword_password s pw :
  Authenticator s = None → checkPassword s pw = bool_decide (pw = Password s).
Proof.
  intros HA. unfold checkPassword. rewrite HA. apply eq_true_iff_eq.
  rewrite Z.eqb_eq, ConstantTimeCompare_spec, bool_decide_eq_true. split.
  - intros E%(f_equal string_of). by rewrite !string_of_bytes_of in E.
  - by intros ->.
Qed.

(** ** writeResponse *)

(** [MaxPayloadSize] as a length. *)
Definition payload : nat := Z.to_nat MaxPayloadSize.

Lemma payload_pos : (0 < payload)%nat.
Proof. unfold payload, MaxPayloadSize. lia. Qed.

Definition response_packet (reqID : Z) (b : list byte) : Packet :=
  mkPacket reqID TypeResponseValue (string_of b).

(** The packets of a response: one empty packet, or a packet per block. *)
Definition response_packets (reqID : Z) (body : list byte) : list Packet :=
  match body with
  | [] => [response_packet reqID []]
  | _ => response_packet reqID <$> blocks payload body
  end.

Lemma bodies_response reqID bs :
  bodies (response_packet reqID <$> bs) = string_of (concat bs).
Proof.
  induction bs as [|b bs IH]; [done|]. cbn [concat]. rewrite string_of_app, <- IH. done.
Qed.

Lemma response_packets_bodies reqID body : bodies (response_packets reqID body) = string_of body.
Proof.
  destruct body as [|x body]; [done|]. unfold response_packets.
  by rewrite bodies_response, concat_blocks by apply payload_pos.
Qed.

Lemma response_packets_valid reqID body :
  is_int32 reqID →
  Forall (λ p, valid_packet p ∧ ID p = reqID ∧ Type_ p = TypeResponseValue) (response_packets reqID body).
Proof.
  intros Hid. assert (∀ b, (length b ≤ payload)%nat →
    valid_packet (response_packet reqID b) ∧ ID (response_packet reqID b) = reqID ∧
    Type_ (response_packet reqID b) = TypeResponseValue) as Hb.
  { intros b Hb. split_and!; try done. split_and!; [done|done|]. simpl.
    rewrite len_string_of. unfold payload, MaxPayloadSize in *. lia. }
  unfold response_packets. destruct body as [|x body].
  - repeat constructor; apply (Hb []); simpl; lia.
  - apply Forall_fmap. eapply Forall_impl; [|apply (blocks_bounds payload payload_pos)].
    intros b [_ Hl]. by apply Hb.
Qed.

(** ** Writing on a served connection *)

Definition sv_wrote (bs : list byte) st : served H :=
  set_sv_conn (set_out (nc_out (sv_conn st) ++ bs) None (sv_conn st)) st.

Lemma WriteTo_served p st :
  writable (sv_conn st) →
  WriteTo p st = Ret (14 + Z.of_nat (len (Body p)), None) (sv_wrote (encode p) st).
Proof.
  intros Hw. unfold WriteTo. rewrite frame_buffer_encode. erewrite bind_Ret.
  2:{ unfold Write, served_Writer. apply zoom_Ret. by apply Write_writable. }
  unfold ret. rewrite length_encode.
  by replace (Z.of_nat (14 + len (Body p))) with (14 + Z.of_nat (len (Body p))) by lia.
Qed.

Lemma sv_wrote_wrote bs bs' st : sv_wrote bs' (sv_wrote bs st) = sv_wrote (bs ++ bs') st.
Proof. unfold sv_wrote, set_sv_conn, set_out. simpl. by rewrite app_assoc. Qed.

Lemma sv_wrote_writable bs st : writable (sv_conn st) → writable (sv_conn (sv_wrote bs st)).
Proof. by intros (? & ? & ?). Qed.

Lemma write_chunks_packets fuel reqID body st :
  writable (sv_conn st) → (length body ≤ fuel)%nat →
  write_chunks fuel reqID body st =
  Ret None (sv_wrote (frames (response_packet reqID <$> blocks payload body)) st).
Proof.
  revert body st. induction fuel as [|fuel IH]; intros body st Hw Hf;
    destruct body as [|x body]; try (simpl in Hf; lia).
  1, 2: rewrite blocks_nil by apply payload_pos; unfold sv_wrote, set_sv_conn, set_out; simpl;
    rewrite app_nil_r; destruct Hw as (_ & _ & <-); by destruct st as [[]].
  rewrite blocks_step by (done || apply payload_pos).
  cbn [write_chunks]. set (b := x :: body) in *. fold payload.
  assert (take (length b `min` payload) b = take payload b ∧
          drop (length b `min` payload) b = drop payload b) as [-> ->].
  { destruct (decide (length b ≤ payload)%nat).
    - by rewrite Nat.min_l, !take_ge, !drop_ge by lia.
    - by rewrite Nat.min_r by lia. }
  erewrite bind_Ret by (by apply WriteTo_served). cbv beta iota.
  rewrite IH; [|by apply sv_wrote_writable|].
  - by rewrite sv_wrote_wrote.
  - rewrite length_drop. pose proof payload_pos. simpl in *. lia.
Qed.

Lemma writeResponse_packets reqID body st :
  writable (sv_conn st) →
  writeResponse reqID body st = Ret None (sv_wrote (frames (response_packets reqID body)) st).
Proof.
  intros Hw. unfold writeResponse. destruct body as [|x body].
  - erewrite bind_Ret by (by apply WriteTo_served). unfold response_packets. by rewrite frames_one.
  - by apply write_chunks_packets.
Qed.
End ServerProps.

(** ** The protocol of a session *)

Section Session.
Context {H : Type} (srv : Server H) (handler : Handler H) (doneCtx : option Context).
Implicit Types (st : served H).

(** What a run of the handler wrote. *)
Definition written (run : handler_run H) : list byte :=
  rw_buf (fold_left rw_call (hr_writes run) (mkResponseWriter [])).

(** The reply to one packet of an authenticated client at [remote], the
    handler's next state, and whether the connection stays open. *)
Definition answer (remote : string) (p : Packet) (h : H) : list Packet * H * bool :=
  if Type_ p =? TypeExecCommand then
    let run := handler {| Command := Body p; RemoteAddr := remote; req_ctx := doneCtx |} h in
    if hr_panics run then ([], hr_next run, false)
    else (response_packets (ID p) (written run), hr_next run, true)
  else if Type_ p =? TypeResponseValue then ([mkPacket (ID p) TypeResponseValue ""], h, true)
  else ([], h, true).

Fixpoint session (remote : string) (ps : list Packet) (h : H) : list Packet * H * bool :=
  match ps with
  | [] => ([], h, true)
  | p :: ps =>
      let '(out, h, go) := answer remote p h in
      if go then let '(out', h, go) := session remote ps h in (out ++ out', h, go)
      else (out, h, false)
  end.

(** The socket is open, accepts writes and has no deadlines. *)
Definition steady st : Prop :=
  nc_closed (sv_conn st) = false ∧ nc_wfail (sv_conn st) = None ∧
  nc_wdeadline (sv_conn st) = None ∧ nc_rdeadline (sv_conn st) = None.

(** From [st] to [st']: [bs] written, the handler in state [h], [rest] pending. *)
Record moved st st' (bs : list byte) (h : H) (rest : list byte) : Prop := {
  mv_steady : steady st';
  mv_out : nc_out (sv_conn st') = nc_out (sv_conn st) ++ bs;
  mv_handler : sv_handler st' = h;
  mv_pending : pending st' = rest;
  mv_tail : script_tail None (nc_in (sv_conn st')) = script_tail None (nc_in (sv_conn st));
  mv_remote : nc_remote (sv_conn st') = nc_remote (sv_conn st)
}.

Lemma steady_writable st : steady st → writable (sv_conn st).
Proof. intros (? & Hw & Hd & _). split_and!; [done| |done]. by rewrite Hd. Qed.

Lemma moved_trans st1 st2 st3 bs1 bs2 h1 h2 r1 r2 :
  moved st1 st2 bs1 h1 r1 → moved st2 st3 bs2 h2 r2 → moved st1 st3 (bs1 ++ bs2) h2 r2.
Proof.
  intros [? Ho1 ? ? ? ?] [? Ho2 ? ? ? ?]. constructor; try done; try congruence.
  by rewrite Ho2, Ho1, app_assoc.
Qed.

Lemma moved_wrote st bs : steady st → moved st (sv_wrote bs st) bs (sv_handler st) (pending st).
Proof. intros (? & ? & ? & ?). by constructor. Qed.

Lemma moved_handler st run : steady st → moved st (after_call run st) [] (hr_next run) (pending st).
Proof.
  intros Hs. constructor; try done; simpl; [by rewrite app_nil_r|].
  destruct Hs as (Hc & _ & _ & Hd). unfold nc_pending. simpl. by rewrite Hc, Hd.
Qed.

Lemma moved_read p rest st :
  steady st → valid_packet p → pending st = encode p ++ rest →
  ∃ n st', ReadFrom st = Ret (n, Ok p) st' ∧ moved st st' [] (sv_handler st) rest.
Proof.
  intros (Hc & Hw & Hwd & Hrd) Hv Hp.
  destruct (ReadFrom_frame p rest st Hv Hp) as (st' & HR & Hp' & Hf).
  exists (14 + Z.of_nat (len (Body p))), st'. split; [done|].
  injection Hf as Htl Ho Hwf Hrd' Hwd' Hcl Hre Hb Hh.
  rewrite Hrd in *. constructor; try done; [by split_and!; congruence| |].
  - by rewrite Ho, app_nil_r.
  - by rewrite Hrd' in Htl.
Qed.

Lemma arm_read_off st : ReadTimeout srv ≤ 0 → arm_read srv st = Ret tt st.
Proof. intros Hr. unfold arm_read. by rewrite (proj2 (Z.ltb_ge _ _)). Qed.

Lemma dispatch_runs r reqID st :
  steady st →
  let run := handler r (sv_handler st) in
  if hr_panics run then
    dispatch handler r reqID st = Ret (Some errHandlerPanic) (after_call run st)
  else
    dispatch handler r reqID st =
    Ret None (sv_wrote (frames (response_packets reqID (written run))) (after_call run st)).
Proof.
  intros Hs run. unfold dispatch, gets, modify, bind. fold run.
  destruct (hr_panics run); [done|]. apply writeResponse_packets.
  by apply (steady_writable (after_call run st)).
Qed.

(** One packet: the loop does what [answer] says. *)
Lemma serve_one fuel p rest st :
  ReadTimeout srv ≤ 0 → steady st → valid_packet p → pending st = encode p ++ rest →
  let '(out, h, go) := answer (nc_remote (sv_conn st)) p (sv_handler st) in
  ∃ st', serve_loop srv handler doneCtx (S fuel) st =
         (if go then serve_loop srv handler doneCtx fuel st' else Ret tt st') ∧
         moved st st' (frames out) h rest.
Proof.
  intros Hr Hs Hv Hp. destruct (moved_read p rest st Hs Hv Hp) as (n & st1 & HR & Hm1).
  pose proof (mv_steady _ _ _ _ _ Hm1) as Hs1.
  assert (serve_loop srv handler doneCtx (S fuel) st =
    (if Type_ p =? TypeExecCommand then
       do err <- dispatch handler {| Command := Body p; RemoteAddr := nc_remote (sv_conn st1);
                                     req_ctx := doneCtx |} (ID p);
       match err with Some _ => ret tt | None => serve_loop srv handler doneCtx fuel end
     else if Type_ p =? TypeResponseValue then
       do _ <- WriteTo {| ID := ID p; Type_ := TypeResponseValue; Body := "" |};
       serve_loop srv handler doneCtx fuel
     else serve_loop srv handler doneCtx fuel) st1) as ->.
  { cbn [serve_loop]. rewrite (bind_Ret _ _ _ _ _ (arm_read_off st Hr)), (bind_Ret _ _ _ _ _ HR).
    cbv beta iota. by destruct (Type_ p =? TypeExecCommand). }
  unfold answer. rewrite (mv_remote _ _ _ _ _ Hm1).
  destruct (Type_ p =? TypeExecCommand); [|destruct (Type_ p =? TypeResponseValue)].
  - pose proof (dispatch_runs {| Command := Body p; RemoteAddr := nc_remote (sv_conn st);
      req_ctx := doneCtx |} (ID p) st1 Hs1) as HD.
    rewrite (mv_handler _ _ _ _ _ Hm1) in HD. cbv zeta in HD |- *.
    set (run := handler _ _) in *.
    pose proof (moved_trans _ _ _ _ _ _ _ _ _ Hm1 (moved_handler st1 run Hs1)) as Hm2.
    rewrite (mv_pending _ _ _ _ _ Hm1) in Hm2.
    destruct (hr_panics run); rewrite (bind_Ret _ _ _ _ _ HD); (eexists; split; [done|]).
    + exact Hm2.
    + rewrite <- (mv_pending _ _ _ _ _ Hm2).
      exact (moved_trans _ _ _ _ _ _ _ _ _ Hm2 (moved_wrote _ _ (mv_steady _ _ _ _ _ Hm2))).
  - erewrite bind_Ret by (by apply WriteTo_served, steady_writable).
    eexists. split; [done|]. rewrite frames_one.
    pose proof (moved_trans _ _ _ _ _ _ _ _ _ Hm1 (moved_wrote st1
      (encode (mkPacket (ID p) TypeResponseValue "")) Hs1)) as Hm2.
    by rewrite (mv_pending _ _ _ _ _ Hm1), (mv_handler _ _ _ _ _ Hm1) in Hm2.
  - exists st1. by split.
Qed.
Lemma serve_loop_session fuel ps rest st :
  ReadTimeout srv ≤ 0 → steady st → Forall valid_packet ps → pending st = frames ps ++ rest →
  let '(out, h, go) := session (nc_remote (sv_conn st)) ps (sv_handler st) in
  ∃ st' rest', serve_loop srv handler doneCtx (length ps + fuel) st =
         (if go then serve_loop srv handler doneCtx fuel st' else Ret tt st') ∧
         moved st st' (frames out) h rest' ∧ (go = true → rest' = rest).
Proof.
  intros Hr. revert st. induction ps as [|p ps IH]; intros st Hs Hv Hp.
  { exists st, rest. split_and!; [done| |done]. constructor; try done. simpl. by rewrite app_nil_r. }
  apply Forall_cons_1 in Hv as [Hvp Hv]. rewrite frames_cons, <- app_assoc in Hp.
  pose proof (serve_one (length ps + fuel) p _ st Hr Hs Hvp Hp) as Hone. cbn [session].
  destruct (answer _ p _) as [[o1 h1] [|]]; destruct Hone as (st1 & HL & Hm).
  2:{ exists st1. eexists. by split_and!. }
  specialize (IH st1 (mv_steady _ _ _ _ _ Hm) Hv (mv_pending _ _ _ _ _ Hm)).
  rewrite (mv_remote _ _ _ _ _ Hm), (mv_handler _ _ _ _ _ Hm) in IH.
  destruct (session _ ps _) as [[o2 h2] go]. destruct IH as (st2 & rest' & HL2 & Hm2 & Hr2).
  exists st2, rest'. split_and!; [|rewrite frames_app; by eapply moved_trans|done].
  simpl Nat.add. by rewrite HL, HL2.
Qed.

(** The handshake: the replies, and the verdict on the password. *)
Definition auth_answer (p : Packet) : list Packet :=
  [mkPacket (ID p) TypeResponseValue "";
   mkPacket (if checkPassword srv (Body p) then ID p else -1) TypeAuthResponse ""].

Lemma srv_authenticate_packet p rest st :
  steady st → valid_packet p → pending st = encode p ++ rest →
  ∃ st', (if Type_ p =? TypeAuth
          then srv_authenticate srv st = Ret (Ok (checkPassword srv (Body p))) st' ∧
               moved st st' (frames (auth_answer p)) (sv_handler st) rest
          else srv_authenticate srv st = Ret (Err errNotAuth) st' ∧
               moved st st' [] (sv_handler st) rest).
Proof.
  intros Hs Hv Hp. destruct (moved_read p rest st Hs Hv Hp) as (n & st1 & HR & Hm).
  pose proof (mv_steady _ _ _ _ _ Hm) as Hs1.
  unfold srv_authenticate. rewrite !(bind_Ret _ _ _ _ _ HR).
  destruct (Type_ p =? TypeAuth) eqn:Ht; unfold ret at 1, bind at 1; rewrite Ht; [|by exists st1].
  cbn [negb]. cbv zeta.
  erewrite bind_Ret by (by apply WriteTo_served, steady_writable). cbv beta iota.
  erewrite bind_Ret by (by apply WriteTo_served, sv_wrote_writable, steady_writable). cbv beta iota.
  rewrite sv_wrote_wrote. eexists. split; [done|].
  unfold auth_answer. rewrite frames_cons, frames_one.
  rewrite <- (mv_pending _ _ _ _ _ Hm), <- (mv_handler _ _ _ _ _ Hm).
  exact (moved_trans _ _ _ _ _ _ _ _ _ Hm (moved_wrote st1 _ Hs1)).
Qed.
(** The peer is silent from here on ([[]]), or ends the stream. *)
Definition ends (l : list (Z * arrival)) : bool :=
  match l with (_, Fin) :: _ => true | _ => false end.

Lemma recv_dry n now l :
  arriving None l = [] → script_tail None l = [] ∨ ends (script_tail None l) = true →
  match recv n now None l with
  | None => ends (script_tail None l) = false
  | Some (bs, e, _, _) => ends (script_tail None l) = true ∧ bs = [] ∧ e = Some EOF
  end.
Proof.
  induction l as [|[t [[|b bs]| |e]] l IH]; simpl; try done.
  intros _ [?|?]; done.
Qed.

Lemma serve_end fuel st :
  ReadTimeout srv ≤ 0 → steady st → pending st = [] →
  let tl := script_tail None (nc_in (sv_conn st)) in
  tl = [] ∨ ends tl = true →
  ∃ st', serve_loop srv handler doneCtx (S fuel) st = (if ends tl then Ret tt st' else Blocks st') ∧
         nc_out (sv_conn st') = nc_out (sv_conn st) ∧ sv_handler st' = sv_handler st ∧
         nc_closed (sv_conn st') = false.
Proof.
  intros Hr (Hc & Hw & Hwd & Hrd) Hp tl Htl. cbn [serve_loop].
  rewrite (bind_Ret _ _ _ _ _ (arm_read_off st Hr)).
  simpl in Hp. unfold nc_pending in Hp. rewrite Hc, Hrd in Hp. simpl in Hp.
  pose proof (recv_dry 4 (nc_now (sv_conn st)) _ Hp Htl) as Hdry. fold tl in Hdry.
  assert (Read 4 st = match recv 4 (nc_now (sv_conn st)) None (nc_in (sv_conn st)) with
    | Some (bs, e, l, now) => Ret (bs, e) (set_sv_conn (set_in l now (sv_conn st)) st)
    | None => Blocks st end) as HR.
  { unfold Read, served_Reader, zoom, Read, netConn_Reader. rewrite Hc, Hrd. simpl.
    destruct (recv 4 _ None _) as [[[[bs e] l] now]|]; [done|]. by destruct st. }
  destruct (recv 4 _ None _) as [[[[bs e] l] now]|].
  - destruct Hdry as (-> & -> & ->). apply ReadFrom_fails in HR.
    rewrite (bind_Ret _ _ _ _ _ HR). eexists. by split_and!.
  - rewrite Hdry. exists st. split_and!; try done.
    unfold bind at 1, ReadFrom, ReadFull. cbn [read_loop]. rewrite decide_False by lia.
    unfold bind. by rewrite HR.
Qed.

(** The body of [serveConn] on a whole conversation. *)
Lemma serve_body_session auth ps st :
  ReadTimeout srv ≤ 0 → steady st → Forall valid_packet (auth :: ps) → Type_ auth = TypeAuth →
  pending st = frames (auth :: ps) →
  let tl := script_tail None (nc_in (sv_conn st)) in
  tl = [] ∨ ends tl = true →
  let '(out, h, go) :=
    if checkPassword srv (Body auth) then session (nc_remote (sv_conn st)) ps (sv_handler st)
    else ([], sv_handler st, false) in
  ∃ st', serve_body srv handler doneCtx st =
           (if negb go || ends tl then Ret tt st' else Blocks st') ∧
         nc_out (sv_conn st') = nc_out (sv_conn st) ++ frames (auth_answer auth ++ out) ∧
         sv_handler st' = h ∧ nc_closed (sv_conn st') = false.
Proof.
  intros Hr Hs [Hva Hv]%Forall_cons_1 Hty Hp tl Htl. rewrite frames_cons in Hp.
  destruct (srv_authenticate_packet auth _ st Hs Hva Hp) as (st1 & HA).
  rewrite Hty, Z.eqb_refl in HA. destruct HA as [HA Hm1].
  unfold serve_body. rewrite (bind_Ret _ _ _ _ _ (arm_read_off st Hr)), (bind_Ret _ _ _ _ _ HA).
  destruct (checkPassword srv (Body auth)).
  2:{ exists st1. rewrite app_nil_r. split_and!; [done|apply Hm1..|apply Hm1]. }
  pose proof (mv_pending _ _ _ _ _ Hm1) as Hp1. rewrite <- (app_nil_r (frames ps)) in Hp1.
  assert (length ps ≤ left_bytes st1)%nat as Hlen.
  { pose proof (length_frames ps) as Hf. rewrite app_nil_r in Hp1. rewrite <- Hp1 in Hf.
    pose proof (length_nc_pending (sv_conn st1)). simpl in *. lia. }
  pose proof (serve_loop_session (S (left_bytes st1) - length ps) ps [] st1 Hr
    (mv_steady _ _ _ _ _ Hm1) Hv Hp1) as HL.
  rewrite (mv_remote _ _ _ _ _ Hm1), (mv_handler _ _ _ _ _ Hm1) in HL.
  replace (length ps + (S (left_bytes st1) - length ps))%nat with (S (left_bytes st1)) in HL by lia.
  destruct (session _ ps _) as [[out h] go]. destruct HL as (st2 & rest & HL & Hm2 & Hrest).
  pose proof (moved_trans _ _ _ _ _ _ _ _ _ Hm1 Hm2) as Hm. rewrite <- frames_app in Hm.
  destruct go.
  2:{ exists st2. split_and!; [exact HL|apply Hm..|apply Hm]. }
  rewrite (Hrest eq_refl) in Hm. cbn [negb orb].
  destruct (S (left_bytes st1) - length ps)%nat as [|fuel] eqn:Hfuel; [lia|].
  destruct (serve_end fuel st2) as (st3 & HL3 & Ho & Hh & Hc); [done|apply Hm|apply Hm| |].
  { by rewrite (mv_tail _ _ _ _ _ Hm). }
  exists st3. rewrite (mv_tail _ _ _ _ _ Hm) in HL3. fold tl in HL3.
  split_and!; [by rewrite HL, HL3|by rewrite Ho; apply Hm|by rewrite Hh; apply Hm|done].
Qed.
End Session.

(** ** Served connections under any input *)

Section AnyInput.
Context {H : Type} (srv : Server H) (handler : Handler H) (doneCtx : option Context).
Implicit Types (st : served H).

Lemma keeps_handler_Read (h : H) k : keeps (λ st, sv_handler st = h) (Read k).
Proof.
  intros st Hst. unfold Read, served_Reader, zoom. by destruct (Read k (sv_conn st)).
Qed.

Lemma keeps_handler_Write (h : H) bs : keeps (λ st, sv_handler st = h) (Write bs).
Proof.
  intros st Hst. unfold Write, served_Writer, zoom. by destruct (Write bs (sv_conn st)).
Qed.

#[local] Hint Resolve keeps_handler_Read keeps_handler_Write : rcon.

Lemma keeps_handler_authenticate (h : H) : keeps (λ st, sv_handler st = h) (srv_authenticate srv).
Proof. unfold srv_authenticate. keeps_tac. Qed.

(** [arm_read] always returns, and touches only the read deadline. *)
Lemma arm_read_spec st :
  ∃ st', arm_read srv st = Ret tt st' ∧ sv_handler st' = sv_handler st ∧
    nc_now (sv_conn st') = nc_now (sv_conn st) ∧
    nc_closed (sv_conn st') = nc_closed (sv_conn st) ∧ left_bytes st' = left_bytes st ∧
    nc_wfail (sv_conn st') = nc_wfail (sv_conn st) ∧
    (0 < ReadTimeout srv → nc_closed (sv_conn st) = false →
     nc_rdeadline (sv_conn st') = Some (nc_now (sv_conn st) + ReadTimeout srv)).
Proof.
  unfold arm_read. destruct (Z.ltb_spec 0 (ReadTimeout srv)).
  - unfold bind, gets, zoom, SetReadDeadline. destruct (nc_closed (sv_conn st)) eqn:Hc;
      eexists; split_and!; try done.
  - exists st. split_and!; try done. lia.
Qed.

(** Authentication succeeds only on a [TypeAuth] packet with a good password. *)
Lemma srv_authenticate_true st st' :
  srv_authenticate srv st = Ret (Ok true) st' →
  ∃ n p st1, ReadFrom st = Ret (n, Ok p) st1 ∧ Type_ p = TypeAuth ∧
             checkPassword srv (Body p) = true.
Proof.
  intros ([n r] & st1 & HR & Hk)%bind_inv. unfold ret at 1, bind at 1 in Hk.
  destruct r as [p|e]; [|done].
  destruct (Z.eqb_spec (Type_ p) TypeAuth); cbn [negb] in Hk; [|done].
  apply bind_inv in Hk as ([? [e1|]] & st2 & _ & Hk); [done|].
  apply bind_inv in Hk as ([? [e2|]] & st3 & _ & Hk); [done|].
  injection Hk as Hk _. by exists n, p, st1.
Qed.

(** The clock has not passed [d], neither will a read let it, and a write takes no
    time. *)
Definition until (d : Z) st : Prop :=
  nc_now (sv_conn st) ≤ d ∧ takes (sv_conn st) ∧
  (nc_closed (sv_conn st) = true ∨ nc_rdeadline (sv_conn st) = Some d).

Lemma Read_until d k st : until d st → ∃ a st', Read k st = Ret a st' ∧ until d st'.
Proof.
  intros (Hn & Ht & [Hc|Hd]); unfold Read, served_Reader, zoom.
  - assert (∃ a, Read k (sv_conn st) = Ret a (sv_conn st)) as [a ->].
    { unfold Read, netConn_Reader. rewrite Hc. case_decide; by eexists. }
    eexists _, _. split; [done|]. split_and!; [done|done|by left].
  - destruct (Read_deadline k (sv_conn st) d Hd) as (a & c' & HR & Hd' & _ & Hn'). rewrite HR.
    eexists _, _. split; [done|]. unfold until, takes in *. simpl.
    rewrite (Read_wfail _ _ _ _ HR). split_and!; [lia|done|by right].
Qed.

Lemma ReadFrom_until d st :
  until d st → ∃ a st', ReadFrom st = Ret a st' ∧ nc_now (sv_conn st') ≤ d ∧ takes (sv_conn st').
Proof.
  intros Hu. destruct (ReadFrom_live (until d) st) as (a & st' & HR & ? & ? & _);
    [intros; by apply Read_until|done|]. eauto.
Qed.

(** A write the peer takes, or that fails, takes no time and nothing of the input. *)
Definition same_time st st' : Prop :=
  left_bytes st' = left_bytes st ∧ nc_now (sv_conn st') = nc_now (sv_conn st) ∧ takes (sv_conn st').

Lemma WriteTo_takes p st :
  takes (sv_conn st) → ∃ a st', WriteTo p st = Ret a st' ∧ same_time st st'.
Proof.
  intros Ht. destruct (Write_takes (frame_buffer p) _ Ht) as ([n e] & c & HW & Hn & Ht').
  destruct (Write_frame (frame_buffer p) (sv_conn st) c) as (Hi & _); [by rewrite HW|].
  unfold WriteTo. erewrite bind_Ret by (apply zoom_Ret, HW). eexists _, _. split; [done|].
  split_and!; [|done|done]. simpl. by rewrite Hi.
Qed.

Lemma same_time_trans st1 st2 st3 : same_time st1 st2 → same_time st2 st3 → same_time st1 st3.
Proof. intros (? & ? & ?) (? & ? & ?). split_and!; [congruence..|done]. Qed.

Lemma writeResponse_takes reqID body st :
  takes (sv_conn st) → ∃ a st', writeResponse reqID body st = Ret a st' ∧ same_time st st'.
Proof.
  unfold writeResponse. destruct body as [|x body]; intros Ht.
  { destruct (WriteTo_takes (mkPacket reqID TypeResponseValue "") st Ht) as ([n e] & st' & HW & Hs).
    rewrite (bind_Ret _ _ _ _ _ HW). by eexists _, _. }
  set (b := x :: body). assert (length b ≤ length b)%nat as Hf by done.
  revert Hf. generalize (length b) at 2 3 as fuel. generalize b as bs. clear b x body.
  intros bs fuel. revert bs st Ht. induction fuel as [|fuel IH]; intros [|x bs] st Ht Hf;
    try (eexists _, _; by split_and!); [simpl in Hf; lia|].
  cbn [write_chunks]. set (n := Nat.min _ _).
  destruct (WriteTo_takes (mkPacket reqID TypeResponseValue (string_of (take n (x :: bs)))) st Ht)
    as ([m [e|]] & st1 & HW & Hs); rewrite (bind_Ret _ _ _ _ _ HW); [by eexists _, _|].
  destruct (IH (drop n (x :: bs)) st1) as (a & st2 & HL & Hs2); [apply Hs|..].
  - rewrite length_drop. unfold n, MaxPayloadSize. simpl in *. lia.
  - exists a, st2. split; [done|by eapply same_time_trans].
Qed.

(** No call of the handler takes longer than [D]. *)
Context (D : Z).
Definition quick : Prop := 0 ≤ D ∧ ∀ r h, hr_time (handler r h) ≤ D.

Lemma dispatch_takes r reqID st :
  quick → takes (sv_conn st) →
  ∃ a st', dispatch handler r reqID st = Ret a st' ∧ left_bytes st' = left_bytes st ∧
    nc_now (sv_conn st') ≤ nc_now (sv_conn st) + D ∧ takes (sv_conn st').
Proof.
  intros [HD Hq] Ht. specialize (Hq r (sv_handler st)). unfold dispatch, gets, modify, bind.
  case_match; [eexists _, _; split_and!; [done|done|simpl; lia|done]|].
  match goal with |- context [writeResponse ?i ?b ?s] =>
    destruct (writeResponse_takes i b s) as (a & st' & HW & Hl & Hn & Ht'); [done|] end.
  exists a, st'. split_and!; [done|done|rewrite Hn; simpl; lia|done].
Qed.

(** The loop ends, after [n] packets, each of which came within [ReadTimeout] of
    the end of the one before it. *)
Lemma serve_loop_until fuel st :
  0 < ReadTimeout srv → quick → takes (sv_conn st) → (left_bytes st < fuel)%nat →
  ∃ n st', serve_loop srv handler doneCtx fuel st = Ret tt st' ∧ (14 * n ≤ left_bytes st)%nat ∧
    nc_now (sv_conn st') ≤ nc_now (sv_conn st) + ReadTimeout srv * (Z.of_nat n + 1) + D * Z.of_nat n.
Proof.
  intros Hr Hq. revert st. induction fuel as [|fuel IH]; intros st Ht Hf; [lia|]. cbn [serve_loop].
  destruct (arm_read_spec st) as (st0 & HA & _ & Hn0 & Hc0 & Hl0 & Hw0 & Hd0).
  rewrite (bind_Ret _ _ _ _ _ HA).
  destruct (ReadFrom_until (nc_now (sv_conn st) + ReadTimeout srv) st0) as ([n r] & st1 & HR & Hn1 & Ht1).
  { unfold until, takes. rewrite Hw0. split_and!; [lia|done|].
    destruct (nc_closed (sv_conn st)) eqn:Hc; [by left|right; auto]. }
  rewrite (bind_Ret _ _ _ _ _ HR). destruct r as [p|e]; [|exists 0%nat, st1; split_and!; [done|lia|lia]].
  apply ReadFrom_inv in HR as (_ & _ & -> & Hl1).
  assert (∀ st2, left_bytes st2 = left_bytes st1 → nc_now (sv_conn st2) ≤ nc_now (sv_conn st1) + D →
    takes (sv_conn st2) → ∃ n st', serve_loop srv handler doneCtx fuel st2 = Ret tt st' ∧
      (14 * n ≤ left_bytes st)%nat ∧
      nc_now (sv_conn st') ≤ nc_now (sv_conn st) + ReadTimeout srv * (Z.of_nat n + 1) + D * Z.of_nat n) as Hnext.
  { intros st2 Hl2 Hn2 Ht2. destruct (IH st2 Ht2) as (n & st' & HL & Hn & Hb); [lia|].
    exists (S n), st'. split_and!; [done|lia|]. rewrite Nat2Z.inj_succ. lia. }
  destruct Hq as [HD Hq].
  destruct (Type_ p =? TypeExecCommand); [|destruct (Type_ p =? TypeResponseValue)].
  - unfold gets at 1, bind at 1.
    destruct (dispatch_takes {| Command := Body p; RemoteAddr := nc_remote (sv_conn st1);
      req_ctx := doneCtx |} (ID p) st1) as ([e|] & st2 & HDi & Hl2 & Hn2 & Ht2); [done|done|..];
      rewrite (bind_Ret _ _ _ _ _ HDi); [|by apply Hnext].
    exists 1%nat, st2. split_and!; [done|lia|lia].
  - destruct (WriteTo_takes (mkPacket (ID p) TypeResponseValue "") st1 Ht1) as (a & st2 & HW & Hl2 & Hn2 & Ht2).
    rewrite (bind_Ret _ _ _ _ _ HW). apply Hnext; [done|lia|done].
  - apply Hnext; [done|lia|done].
Qed.

Lemma srv_authenticate_until d st :
  until d st → ∃ r st', srv_authenticate srv st = Ret r st' ∧ nc_now (sv_conn st') ≤ d ∧
    takes (sv_conn st') ∧ (r = Ok true → (14 + left_bytes st' ≤ left_bytes st)%nat).
Proof.
  intros Hu. unfold srv_authenticate.
  destruct (ReadFrom_until d st Hu) as ([n [p|e]] & st1 & HR & Hn & Ht);
    rewrite (bind_Ret _ _ _ _ _ HR); unfold ret at 1, bind at 1; [|by eexists _, _].
  apply ReadFrom_inv in HR as (_ & _ & -> & Hl).
  case_match; [by eexists _, _|]. cbv zeta.
  destruct (WriteTo_takes (mkPacket (ID p) TypeResponseValue "") st1 Ht)
    as ([? [e|]] & st2 & HW & Hl2 & Hn2 & Ht2); rewrite (bind_Ret _ _ _ _ _ HW);
    [eexists _, _; split_and!; [done|lia|done|done]|].
  match goal with |- context [WriteTo ?p] => destruct (WriteTo_takes p st2 Ht2)
    as ([? [e|]] & st3 & HW3 & Hl3 & Hn3 & Ht3) end; rewrite (bind_Ret _ _ _ _ _ HW3);
    eexists _, _; (split_and!; [done|lia|done|]); [done|lia].
Qed.
End AnyInput.

(** ** Theorems *)

Section Theorems.
Context {H : Type} (srv : Server H) (handler : Handler H) (doneCtx : option Context).
Implicit Types (st : served H).

Lemma serveConn_session (auth : Packet) (ps : list Packet) st :
  ReadTimeout srv ≤ 0 → steady st → Forall valid_packet (auth :: ps) → Type_ auth = TypeAuth →
  pending st = frames (auth :: ps) →
  let tl := script_tail None (nc_in (sv_conn st)) in
  tl = [] ∨ ends tl = true →
  let '(out, h, go) :=
    if checkPassword srv (Body auth)
    then session handler doneCtx (nc_remote (sv_conn st)) ps (sv_handler st)
    else ([], sv_handler st, false) in
  ∃ st', final (serveConn srv handler doneCtx st) = Some st' ∧
    nc_out (sv_conn st') = nc_out (sv_conn st) ++ frames (auth_answer srv auth ++ out) ∧
    sv_handler st' = h ∧ nc_closed (sv_conn st') = negb go || ends tl.
Proof.
  intros Hr Hs Hv Hty Hp tl Htl.
  pose proof (serve_body_session srv handler doneCtx auth ps st Hr Hs Hv Hty Hp Htl) as HB.
  destruct (if checkPassword srv (Body auth) then _ else _) as [[out h] go].
  destruct HB as (st1 & HB & Ho & Hh & Hc). fold tl in HB. unfold serveConn.
  destruct (negb go || ends tl).
  - exists (set_sv_conn (set_sock_closed (sv_conn st1)) st1). split_and!; try done.
    rewrite (bind_Ret _ _ _ _ _ HB). erewrite bind_Ret; [done|].
    apply zoom_Ret. unfold CloseConn. by rewrite Hc.
  - exists st1. split_and!; try done. unfold bind at 1. by rewrite HB.
Qed.

(** C3: without a read timeout [serveConn] implements the session protocol. On a connection where the
    client's bytes are a [TypeAuth] packet and a sequence of packets (however they
    are cut into segments) after which it is silent or closes, the server writes
    the two handshake packets and, if the password is good, the replies of
    [session]: every command's framed response in order, an echo for every
    sentinel, nothing for unknown types, and nothing from a panicking handler on.
    The handler's state is the one [session] computes, and the connection is closed
    exactly when it ended or was dropped. *)
Theorem serve_conn_refines_session (auth : Packet) (ps : list Packet) st :
  ReadTimeout srv ≤ 0 → steady st → Forall valid_packet (auth :: ps) → Type_ auth = TypeAuth →
  pending st = frames (auth :: ps) →
  let tl := script_tail None (nc_in (sv_conn st)) in
  tl = [] ∨ ends tl = true →
  let '(out, h, go) :=
    if checkPassword srv (Body auth)
    then session handler doneCtx (nc_remote (sv_conn st)) ps (sv_handler st)
    else ([], sv_handler st, false) in
  ∃ st', final (serveConn srv handler doneCtx st) = Some st' ∧
    nc_out (sv_conn st') = nc_out (sv_conn st) ++ frames (auth_answer srv auth ++ out) ∧
    sv_handler st' = h ∧ nc_closed (sv_conn st') = negb go || ends tl.
Proof. apply serveConn_session. Qed.

(** Only an authenticated client reaches the handler. Whatever bytes arrive and
    at whatever times, if serving a connection changed the handler's state, then
    the first packet read was a [TypeAuth] packet whose password the server
    accepts. *)
Theorem no_handler_before_auth st st' :
  final (serveConn srv handler doneCtx st) = Some st' → sv_handler st' ≠ sv_handler st →
  ∃ st0 n p st1, arm_read srv st = Ret tt st0 ∧ ReadFrom st0 = Ret (n, Ok p) st1 ∧
    Type_ p = TypeAuth ∧ checkPassword srv (Body p) = true.
Proof.
  intros Hfin Hne. destruct (arm_read_spec srv st) as (st0 & HA & Hh0 & _).
  pose proof (keeps_handler_authenticate srv (sv_handler st) st0 Hh0) as Hk.
  assert (∀ s : served H, sv_handler s = sv_handler st →
    final ((do _ <- zoom sv_conn set_sv_conn CloseConn; ret tt) s) ≠ Some st') as Hclose.
  { intros s Hs. unfold bind, zoom, CloseConn. destruct (nc_closed (sv_conn s)); simpl;
      intros [= <-]; by apply Hne. }
  unfold serveConn, serve_body in Hfin. unfold bind at 1 in Hfin.
  rewrite (bind_Ret _ _ _ _ _ HA) in Hfin. unfold bind at 1 in Hfin.
  destruct (srv_authenticate srv st0) as [[[]|e] st1|st1|] eqn:HAuth; simpl in Hfin.
  - apply srv_authenticate_true in HAuth as (n & p & st2 & ? & ? & ?).
    by exists st0, n, p, st2.
  - by apply Hclose in Hfin.
  - by apply Hclose in Hfin.
  - congruence.
  - done.
Qed.

(** C33: with a positive [ReadTimeout] no client that takes what it is sent can hold
    a connection for longer than its bytes allow. Whatever arrives and whenever,
    the handshake is over by [ReadTimeout] after the start, so a client that does
    not authenticate is gone by then; and [serveConn] returns, with the socket
    closed, by [(n + 1) * ReadTimeout + n * D] after the start, where [n] is at
    most one for every 14 bytes the client sends and [D] bounds one call of the
    handler. *)
Theorem serve_conn_read_timeout (D : Z) st :
  0 < ReadTimeout srv → nc_closed (sv_conn st) = false → takes (sv_conn st) → quick handler D →
  ∃ n st0 r st1 st', arm_read srv st = Ret tt st0 ∧ srv_authenticate srv st0 = Ret r st1 ∧
    nc_now (sv_conn st1) ≤ nc_now (sv_conn st) + ReadTimeout srv ∧
    serveConn srv handler doneCtx st = Ret tt st' ∧ nc_closed (sv_conn st') = true ∧
    (r ≠ Ok true → nc_now (sv_conn st') = nc_now (sv_conn st1)) ∧
    nc_now (sv_conn st') ≤ nc_now (sv_conn st) + (Z.of_nat n + 1) * ReadTimeout srv + Z.of_nat n * D ∧
    (14 * n ≤ left_bytes (sv_conn st))%nat.
Proof.
  intros Hr Hc Ht Hq. destruct (arm_read_spec srv st) as (st0 & HA & _ & Hn0 & Hc0 & Hl0 & Hw0 & Hd0).
  destruct (srv_authenticate_until srv (nc_now (sv_conn st) + ReadTimeout srv) st0)
    as (r & st1 & HAuth & Hn1 & Ht1 & Hl1).
  { unfold until, takes. rewrite Hw0. split_and!; [lia|done|right; auto]. }
  assert (∃ n st2, serve_body srv handler doneCtx st = Ret tt st2 ∧ (r ≠ Ok true → st2 = st1) ∧
    nc_now (sv_conn st2) ≤ nc_now (sv_conn st) + (Z.of_nat n + 1) * ReadTimeout srv + Z.of_nat n * D ∧
    (14 * n ≤ left_bytes st)%nat) as (n & st2 & HB & Heq & Hn2 & Hn).
  { unfold serve_body. rewrite (bind_Ret _ _ _ _ _ HA), (bind_Ret _ _ _ _ _ HAuth).
    destruct r as [[]|e]; [|by exists 0%nat, st1; split_and!; [..|lia|lia]..].
    destruct (serve_loop_until srv handler doneCtx D (S (left_bytes st1)) st1)
      as (n & st2 & HL & Hn & Hb); [done..|lia|].
    specialize (Hl1 eq_refl). exists (S n), st2. destruct Hq as [? _].
    split_and!; [done|done|rewrite Nat2Z.inj_succ; nia|lia]. }
  exists n, st0, r, st1. unfold serveConn. rewrite (bind_Ret _ _ _ _ _ HB).
  unfold bind, zoom, CloseConn, ret.
  destruct (nc_closed (sv_conn st2)) eqn:Hc2; eexists; split_and!; try done;
    intros Hne; by rewrite (Heq Hne).
Qed.

(** [serveConn] always closes the connection it was given when it returns. *)
Theorem serve_conn_closes st st' :
  serveConn srv handler doneCtx st = Ret tt st' → nc_closed (sv_conn st') = true.
Proof.
  intros (? & st1 & _ & Hk)%bind_inv. apply bind_inv in Hk as (r & st2 & HC & [= <-]).
  apply zoom_inv in HC as (c & HC & ->). revert HC. unfold CloseConn.
  destruct (nc_closed (sv_conn st1)) eqn:Hc; by intros [= <- <-].
Qed.

(** The password check without an [Authenticator] is string equality: the
    constant-time comparison accepts exactly the configured password. *)
Theorem check_password_exact (pw : string) :
  Authenticator srv = None → checkPassword srv pw = true ↔ pw = Password srv.
Proof. intros HA. by rewrite checkPassword_password, bool_decide_eq_true. Qed.

(** [writeResponse] splits a body losslessly: on a writable connection it writes
    the frames of [TypeResponseValue] packets with the request's id, each of them a
    legal packet, whose bodies concatenate to the body; an empty body is one empty
    packet, and no packet of a non-empty body is empty. *)
Theorem write_response_splits (reqID : Z) (body : list byte) st :
  is_int32 reqID → writable (sv_conn st) →
  ∃ ps st', writeResponse reqID body st = Ret None st' ∧
    nc_out (sv_conn st') = nc_out (sv_conn st) ++ frames ps ∧
    Forall (λ p, valid_packet p ∧ ID p = reqID ∧ Type_ p = TypeResponseValue) ps ∧
    bodies ps = string_of body ∧
    (if decide (body = []) then ps = [mkPacket reqID TypeResponseValue ""]
     else Forall (λ p, Body p ≠ "") ps).
Proof.
  intros Hid Hw. eexists (response_packets reqID body), _.
  split_and!; [by apply writeResponse_packets|done|by apply response_packets_valid|
    apply response_packets_bodies|].
  unfold response_packets. destruct body as [|x body]; [done|].
  apply Forall_fmap. eapply Forall_impl; [|apply (blocks_bounds payload payload_pos)].
  intros b [Hb _] E. simpl in E. apply len_zero in E. rewrite len_string_of in E. lia.
Qed.
End Theorems.

(** A server for the witnesses: it answers with the command and counts calls. *)
Definition echo_handler : Handler nat := λ r n,
  mkRun [CallWriteString (Command r)] (bool_decide (Command r = "boom")) (S n).
Definition echo_server (timeout : Z) : Server nat :=
  mkServer "" (Some echo_handler) "secret" None timeout.
Definition talk : list Packet :=
  [mkPacket 1 TypeAuth "secret"; mkPacket 2 TypeExecCommand "hi"; mkPacket 3 0 ""].
Definition talking : served nat := mkServed (new_netConn [(1, Seg (frames talk)); (2, Fin)] 0) 0%nat.

Lemma serve_conn_refines_session_witness :
  ∃ st', final (serveConn (echo_server 0) echo_handler None talking) = Some st' ∧
    nc_out (sv_conn st') = frames [mkPacket 1 0 ""; mkPacket 1 2 ""; mkPacket 2 0 "hi"; mkPacket 3 0 ""] ∧
    sv_handler st' = 1%nat.
Proof.
  destruct (serve_conn_refines_session (echo_server 0) echo_handler None
    (mkPacket 1 TypeAuth "secret") (tail talk) talking) as (st' & HF & Ho & Hh & _).
  - discriminate.
  - split_and!; reflexivity.
  - repeat constructor; vm_compute; discriminate.
  - reflexivity.
  - vm_compute. reflexivity.
  - right. reflexivity.
  - exists st'. split_and!; [exact HF|rewrite Ho; vm_compute; reflexivity|exact Hh].
Defined.

Lemma no_handler_before_auth_witness :
  ∃ st0 n p st1, arm_read (echo_server 0) talking = Ret tt st0 ∧
    ReadFrom st0 = Ret (n, Ok p) st1 ∧ Type_ p = TypeAuth ∧
    checkPassword (echo_server 0) (Body p) = true.
Proof.
  destruct (final (serveConn (echo_server 0) echo_handler None talking)) as [st'|] eqn:HF;
    [|vm_compute in HF; discriminate].
  apply (no_handler_before_auth (echo_server 0) echo_handler None talking st').
  - exact HF.
  - vm_compute in HF. injection HF as <-. simpl. discriminate.
Defined.

Lemma serve_conn_read_timeout_witness :
  let st := mkServed (new_netConn [(1, Seg (frames (take 2 talk)))] 0) 0%nat in
  ∃ n st', serveConn (echo_server 50) echo_handler None st = Ret tt st' ∧
    nc_closed (sv_conn st') = true ∧ nc_now (sv_conn st') ≤ (Z.of_nat n + 1) * 50 ∧
    (14 * n ≤ 36)%nat.
Proof.
  intros st. destruct (serve_conn_read_timeout (echo_server 50) echo_handler None 0 st)
    as (n & st0 & r & st1 & st' & _ & _ & _ & HS & Hc & _ & Hn & Hl).
  - reflexivity.
  - reflexivity.
  - intros k u. discriminate.
  - split; [discriminate|]. intros r h. discriminate.
  - exists n, st'. split_and!; [exact HS|exact Hc| |exact Hl].
    change (nc_now (sv_conn st)) with 0 in Hn. change (ReadTimeout (echo_server 50)) with 50 in Hn. lia.
Defined.

Lemma serve_conn_closes_witness :
  ∃ st', serveConn (echo_server 0) echo_handler None talking = Ret tt st' ∧
    nc_closed (sv_conn st') = true.
Proof.
  destruct (serveConn (echo_server 0) echo_handler None talking) as [[] st'| |] eqn:HS;
    [|vm_compute in HS; discriminate..].
  exists st'. split; [reflexivity|]. exact (serve_conn_closes _ _ _ _ _ HS).
Defined.

Lemma check_password_exact_witness : checkPassword (echo_server 0) "secret" = true ↔ "secret" = "secret".
Proof. apply (check_password_exact (echo_server 0) "secret"). reflexivity. Defined.

Lemma write_response_splits_witness :
  ∃ ps st', writeResponse 7 [x41] (mkServed (new_netConn [] 0) 0%nat) = Ret None st' ∧
    nc_out (sv_conn st') = frames ps.
Proof.
  destruct (write_response_splits 7 [x41] (mkServed (new_netConn [] 0) 0%nat))
    as (ps & st' & HW & Ho & _).
  - split; [discriminate|reflexivity].
  - split_and!; reflexivity.
  - exists ps, st'. split; [exact HW|exact Ho].
Defined.

(** [ReadTimeout] bounds reads only: a client that sends a wrong password and does
    not read the answer keeps [serveConn] in the write of the handshake, for which
    no deadline is ever set, although it has not authenticated. *)
Definition unread_answer : served nat :=
  let nc := new_netConn [(1, Seg (frames [mkPacket 1 TypeAuth "wrong"]))] 0 in
  mkServed (set_out [] (Some (0%nat, WStall None)) nc) 0%nat.

Theorem unread_answer_holds_connection :
  ∃ st', serveConn (echo_server 50) echo_handler None unread_answer = Blocks st' ∧ nc_closed (sv_conn st') = false.
Proof. eexists. split; [vm_compute; reflexivity|reflexivity]. Qed.
