(* ===== verification/EndToEnd.v ===== *)
(** * The client against the server

    [rcon.Open] and [rcon.Conn.Execute] on one end, [rconserver]'s [serveConn] on
    the other: the bytes each side writes are the bytes the other reads. *)

From S2P Require Import Prelude GoErrors GoIO GoNet Packet Options Conn ConnProps Server ServerProps.

Local Open Scope Z_scope.

(** ** A stream that has arrived by time [t] *)

Definition arrived_at (t : Z) (c : Conn) : Prop := Forall (λ a, a.1 = t) (nc_in (sock c)).

Lemma recv_times t n now dl l bs e l' now' :
  Forall (λ a, a.1 = t) l → recv n now dl l = Some (bs, e, l', now') → Forall (λ a, a.1 = t) l'.
Proof.
  induction 1 as [|[t' [[|b bs']| |e']] l Ht Hl IH]; simpl; repeat case_match; intros; simplify_eq/=;
    eauto; repeat constructor; done.
Qed.

Lemma keeps_arrived_Read t k : keeps (arrived_at t) (Read k).
Proof.
  assert (∀ n s, Forall (λ a, a.1 = t) (nc_in s) →
    match Read n s with Ret _ s' | Blocks s' => Forall (λ a, a.1 = t) (nc_in s') | Diverges => True end) as HR.
  { intros n s Hs. unfold Read, netConn_Reader. repeat case_match; simplify_eq/=; try done.
    by eapply recv_times. }
  intros [[s buf err] st cl i] Hc. unfold arrived_at, sock in *. simpl in Hc.
  unfold Read, Conn_Reader, zoom. simpl. unfold Read at 1, bufio_Reader. simpl.
  set (n := if decide (bufio_size ≤ k)%nat then k else bufio_size). specialize (HR n s Hc).
  destruct (Read n s) as [[bs e] s'|s'|]; repeat case_match; simplify_eq/=; done.
Qed.

Lemma keeps_arrived_Write t bs : keeps (arrived_at t) (Write bs).
Proof.
  apply (keeps_Write_sock (λ s, Forall (λ a, a.1 = t) (nc_in s))).
  intros s s' HW%Write_frame. by destruct HW as (-> & _).
Qed.

Lemma keeps_arrived_nextID t : keeps (arrived_at t) nextID.
Proof. by intros c Hc. Qed.

Lemma keeps_arrived_deadline t ctx d : keeps (arrived_at t) (zoom sock set_sock (applyContextDeadline ctx d)).
Proof.
  intros c Hc. unfold zoom, applyContextDeadline, gets, bind, SetDeadline, arrived_at, sock in *.
  repeat case_match; simplify_eq/=; done.
Qed.

#[local] Hint Resolve keeps_arrived_Read keeps_arrived_Write keeps_arrived_nextID keeps_arrived_deadline : rcon.

Lemma open_arrived t ctx nc password st r c' :
  Forall (λ a, a.1 = t) (nc_in nc) → open ctx nc password st = Ret r c' → arrived_at t c'.
Proof.
  intros Hl HO. unfold open in HO.
  eapply (keeps_final (arrived_at t) _ (newConn nc st)); [|done|by rewrite HO].
  unfold authenticate. keeps_tac.
Qed.

(** Bytes that have arrived are pending under every deadline to come. *)
Lemma arriving_same t d1 d2 l :
  Forall (λ a, a.1 = t) l → before t d1 = true → before t d2 = true → arriving d1 l = arriving d2 l.
Proof.
  induction 1 as [|[t' [[|b bs]| |e]] l Ht Hl IH]; simpl; intros H1 H2; try done; [by apply IH|].
  simpl in Ht. subst. rewrite H1, H2. by rewrite IH.
Qed.

Lemma pending_rearmed t ctx c :
  arrived_at t c → b_err (br c) = None → nc_closed (sock c) = false →
  before (nc_now (sock c)) (nc_rdeadline (sock c)) = true → before t (nc_rdeadline (sock c)) = true →
  before (nc_now (sock c)) (exec_deadline ctx c) = true → before t (exec_deadline ctx c) = true →
  pending (armed ctx c) = pending c.
Proof.
  intros Ht He Hc H1 H2 H3 H4. destruct c as [[s buf err] st cl i]. unfold arrived_at, sock in *. simpl in *.
  unfold bufio_pending, exec_deadline, sock in *. simpl in *. subst. f_equal. unfold nc_pending. simpl.
  rewrite Hc, H1, H3. simpl. by apply (arriving_same t).
Qed.

(** ** One conversation *)

Section Conversation.
Context {H : Type} (srv : Server H) (handler : Handler H) (doneCtx : option Context).
Context (password command : string) (h : H).

(** What a fresh client sends for one command: ids 1, 2 and 3. *)
Definition auth_packet : Packet := mkPacket 1 TypeAuth password.
Definition command_packets : list Packet :=
  [mkPacket 2 TypeExecCommand command; mkPacket 3 TypeResponseValue ""].

(** The server at the end of a connection on which the client sent just that. *)
Definition accepted : served H :=
  mkServed (new_netConn [(0, Seg (frames (auth_packet :: command_packets))); (0, Fin)] 0) h.

(** The handler's run on the command. *)
Definition command_run : handler_run H := handler (mkRequest command "" doneCtx) h.

(** The client whose peer's bytes [bs] arrive at time [t]. *)
Definition dialed (t : Z) (bs : list byte) : netConn := new_netConn [(t, Seg bs)] 0.

Hypothesis Hpassword : Z.of_nat (len password) ≤ MaxPayloadSize.
Hypothesis Hcommand : Z.of_nat (len command) ≤ DefaultMaxCommandLen.

Lemma conversation_valid : Forall valid_packet (auth_packet :: command_packets).
Proof.
  unfold DefaultMaxCommandLen, MaxPayloadSize in *.
  unfold command_packets. apply Forall_cons_2; [|apply Forall_cons_2; [|apply Forall_cons_2; [|by apply Forall_nil]]];
    (split_and!; cbn [ID Type_ Body auth_packet]);
    unfold is_int32, TypeAuth, TypeExecCommand, TypeResponseValue, MaxPayloadSize;
    first [lia|done|vm_compute; done].
Qed.

Lemma pending_seg t bs rest dl now :
  before now dl = true → before t dl = true → arriving dl rest = [] →
  nc_pending (mkNetConn ((t, Seg bs) :: rest) [] None dl dl false now "" "") = bs.
Proof.
  intros Hn Ht Hr. unfold nc_pending. simpl. rewrite Hn. simpl.
  destruct bs; [done|]. rewrite Ht, Hr. by rewrite app_nil_r.
Qed.

Lemma server_side :
  ReadTimeout srv ≤ 0 → hr_panics command_run = false →
  ∃ st', final (serveConn srv handler doneCtx accepted) = Some st' ∧ nc_closed (sv_conn st') = true ∧
    if checkPassword srv password
    then nc_out (sv_conn st') = frames (auth_answer srv auth_packet ++
           response_packets 2 (written command_run) ++ [mkPacket 3 TypeResponseValue ""]) ∧
         sv_handler st' = hr_next command_run
    else nc_out (sv_conn st') = frames (auth_answer srv auth_packet) ∧ sv_handler st' = h.
Proof.
  intros Hr Hnp.
  pose proof (serveConn_session srv handler doneCtx auth_packet command_packets accepted Hr) as HS.
  specialize (HS ltac:(split_and!; done) conversation_valid eq_refl).
  specialize (HS ltac:(apply (pending_seg 0 _ [(0, Fin)] None 0); done)).
  assert (script_tail None (nc_in (sv_conn accepted)) = [(0, Fin)]) as Htl.
  { simpl. destruct (frames (auth_packet :: command_packets)) eqn:Hf; [by apply frames_nil in Hf|done]. }
  cbv zeta in HS. rewrite Htl in HS. specialize (HS (or_intror eq_refl)). cbn [auth_packet Body] in HS.
  unfold session, command_packets, answer in HS. cbn [Type_ Body ID] in HS.
  change (nc_remote (sv_conn accepted)) with "" in HS. change (sv_handler accepted) with h in HS.
  fold command_run in HS. rewrite Hnp in HS.
  destruct (checkPassword srv password); destruct HS as (st' & HF & Ho & Hh & Hc);
    exists st'; (split; [exact HF|]); (split; [exact Hc|]); (split; [|exact Hh]).
  - rewrite Ho. by rewrite app_nil_r.
  - rewrite Ho. by rewrite app_nil_r.
Qed.

Context (t : Z) (Ht : 0 ≤ t < DefaultDeadline).

(** The handshake on the client's side. *)
Lemma client_auth rest :
  ∃ c, Open Background (dialed t (frames (auth_answer srv auth_packet) ++ rest)) password [] =
         Ret (if checkPassword srv password then Ok tt else Err ErrAuthFailed) c ∧
       pending c = rest ∧ arrived_at t c ∧ 0 ≤ nc_now (sock c) ≤ DefaultDeadline ∧
       frame c = frame (wrote (encode auth_packet)
         (set_id 1 (armed Background (newConn (dialed t (frames (auth_answer srv auth_packet) ++ rest)) (newSettings []))))).
Proof.
  set (nc := dialed t _). unfold Open.
  destruct (open_reply Background nc password (newSettings [])
    (mkPacket (if checkPassword srv password then 1 else -1) TypeAuthResponse "")
    (auth_answer srv auth_packet) rest) as (c & HO & Hp & Hf).
  - split_and!; done.
  - unfold auth_answer. apply Forall_cons_2; [|apply Forall_cons_2; [|by apply Forall_nil]];
      (split_and!; cbn [ID Type_ Body auth_packet]);
      unfold is_int32, TypeResponseValue, TypeAuthResponse, MaxPayloadSize;
      try destruct (checkPassword srv password); first [lia|done].
  - by apply auth_sentinel.
  - apply (pending_seg t _ [] (Some DefaultDeadline) 0); [done|apply Z.ltb_lt; lia|done].
  - exists c. split_and!.
    + rewrite HO. by destruct (checkPassword srv password).
    + done.
    + eapply open_arrived; [|exact HO]. by repeat constructor.
    + destruct (open_timely Background nc password (newSettings []) DefaultDeadline eq_refl) as (r & c' & HO' & Hn).
      rewrite HO in HO'. injection HO' as _ <-. simpl in Hn. lia.
    + destruct (open_timely Background nc password (newSettings []) DefaultDeadline eq_refl) as (r & c' & HO' & Hn).
      rewrite HO in HO'. injection HO' as _ <-. simpl in Hn. unfold DefaultDeadline, Second in *. lia.
    + exact Hf.
Qed.

(** The command on the client's side, after a good handshake. *)
Lemma client_exec c out :
  pending c = frames (response_packets 2 out ++ [mkPacket 3 TypeResponseValue ""]) →
  arrived_at t c → 0 ≤ nc_now (sock c) ≤ DefaultDeadline → command ≠ "" →
  (∃ bs, frame c = frame (wrote (encode auth_packet)
     (set_id 1 (armed Background (newConn (dialed t bs) (newSettings [])))))) →
  ∃ c', Execute Background command c = Ret (Ok (string_of out)) c' ∧
        sent c' = frames (auth_packet :: command_packets) ∧ pending c' = [].
Proof.
  intros Hp Ha Hn Hne [bs Hf].
  pose proof (frame_inv _ _ Hf) as (Hs & Hset & Hcl & Hid & Hsc & Hwf & Hrd & Herr).
  cbn [set closed id] in *.
  assert (before (nc_now (sock c)) (nc_rdeadline (sock c)) = true) as Hb by (by injection Hf).
  assert (exec_deadline Background c = Some (nc_now (sock c) + DefaultDeadline)) as Hd
    by (unfold exec_deadline; by rewrite Hset).
  assert (before (nc_now (sock c)) (exec_deadline Background c) = true) as Hb'.
  { rewrite Hd. apply Z.ltb_lt. unfold DefaultDeadline, Second in *. lia. }
  destruct (Execute_multi_ok Background command c (response_packets 2 out) [] (mkPacket 3 TypeResponseValue ""))
    as (c' & k & HE & Hsent & Hp').
  - by rewrite Hset.
  - split_and!; [by rewrite Hcl|done|by rewrite Hset].
  - split_and!; [by rewrite Hsc|by rewrite Hwf|done].
  - apply Forall_app. split; [|by repeat constructor].
    eapply Forall_impl; [|apply response_packets_valid; done]. by intros p (? & _).
  - eapply Forall_impl; [|apply response_packets_valid; done].
    intros p (_ & Hidp & _). unfold belongs, request, sentinel. cbn [ID]. rewrite Hid, Hidp.
    split; [by left|done].
  - unfold sentinel. cbn [ID]. by rewrite Hid.
  - rewrite (pending_rearmed t); [done|done|by rewrite Herr|by rewrite Hsc|done| |done|].
    + rewrite Hrd. apply Z.ltb_lt. simpl. lia.
    + rewrite Hd. apply Z.ltb_lt. lia.
  - exists c'. rewrite HE, response_packets_bodies, Hsent, Hs, Hp', drop_nil. split_and!; [done| |done].
    unfold request, sentinel. rewrite Hid. done.
Qed.
End Conversation.

(** ** Theorem *)

(** Client and server understand each other. A server runs [serveConn] on the
    bytes a client with default options sends for one command; a client runs
    [Open] and [Execute] on the bytes that server wrote, arriving at any time
    before the deadline. If the password is accepted, [Execute] returns exactly
    what the handler wrote, of any length, the client has sent exactly the bytes
    the server read, and the handler ran once; if it is rejected, [Open] fails
    with [ErrAuthFailed] and the handler did not run. *)
Theorem client_server_roundtrip {H} (srv : Server H) (handler : Handler H) (doneCtx : option Context)
    (password command : string) (h : H) (t : Z) :
  Z.of_nat (len password) ≤ MaxPayloadSize → Z.of_nat (len command) ≤ DefaultMaxCommandLen →
  command ≠ "" → ReadTimeout srv ≤ 0 → 0 ≤ t < DefaultDeadline →
  hr_panics (command_run handler doneCtx command h) = false →
  ∃ st', final (serveConn srv handler doneCtx (accepted password command h)) = Some st' ∧
    let nc := dialed t (nc_out (sv_conn st')) in
    if checkPassword srv password then
      ∃ c c', Open Background nc password [] = Ret (Ok tt) c ∧
        Execute Background command c =
          Ret (Ok (string_of (written (command_run handler doneCtx command h)))) c' ∧
        sent c' = frames (auth_packet password :: command_packets command) ∧
        sv_handler st' = hr_next (command_run handler doneCtx command h)
    else
      ∃ c, Open Background nc password [] = Ret (Err ErrAuthFailed) c ∧ sv_handler st' = h.
Proof.
  intros Hpw Hcmd Hne Hr Ht Hnp.
  destruct (server_side srv handler doneCtx password command h Hpw Hcmd Hr Hnp) as (st' & HF & _ & HS).
  exists st'. split; [done|]. cbv zeta.
  set (out := response_packets 2 _ ++ _) in HS.
  destruct (checkPassword srv password) eqn:Hok; destruct HS as [Ho Hh].
  - rewrite Ho, frames_app. destruct (client_auth srv password command t Ht (frames out)) as (c & HO & Hp & Ha & Hn & Hf).
    rewrite Hok in HO.
    destruct (client_exec password command Hcmd t Ht c (written (command_run handler doneCtx command h)))
      as (c' & HE & Hsent & _); [done..|by eexists|].
    exists c, c'. by split_and!.
  - rewrite Ho, <- (app_nil_r (frames _)). destruct (client_auth srv password command t Ht []) as (c & HO & _).
    rewrite Hok in HO. by exists c.
Qed.

Lemma client_server_roundtrip_witness :
  ∃ st' c c', final (serveConn (echo_server 0) echo_handler None (accepted "secret" "hi" 0%nat)) = Some st' ∧
    Open Background (dialed 3 (nc_out (sv_conn st'))) "secret" [] = Ret (Ok tt) c ∧
    Execute Background "hi" c = Ret (Ok "hi") c'.
Proof.
  destruct (client_server_roundtrip (echo_server 0) echo_handler None "secret" "hi" 0%nat 3)
    as (st' & HF & HC).
  - vm_compute. discriminate.
  - vm_compute. discriminate.
  - discriminate.
  - discriminate.
  - vm_compute. split; [discriminate|reflexivity].
  - reflexivity.
  - destruct HC as (c & c' & HO & HE & _). exists st', c, c'. split; [exact HF|]. split; [exact HO|exact HE].
Defined.
