(* ===== verification/Dialogue.v ===== *)
(** * A conversation of many commands between client and server

    The server answers a command after it has read it, so what answers a later
    command arrives later: [later l c] is the connection [c] on which [l] arrives
    after everything else. Reading what is there does not depend on it, which
    makes one [Execute] a step from one quiet state to the next ([ready]); a
    conversation of any length is a run of such steps ([converse]). *)

From S2P Require Import Prelude GoErrors GoIO GoNet Packet Options Conn ConnProps Server ServerProps EndToEnd.

Local Open Scope Z_scope.

(** ** What arrives later does not matter *)

Lemma script_bytes_app l1 l2 : script_bytes (l1 ++ l2) = (script_bytes l1 + script_bytes l2)%nat.
Proof. induction l1 as [|[t a] l1 IH]; [done|]. cbn [app]. rewrite !script_bytes_cons, IH. lia. Qed.

Lemma reads_app c ps qs c' : reads c (ps ++ qs) c' → ∃ c1, reads c ps c1 ∧ reads c1 qs c'.
Proof.
  revert c. induction ps as [|p ps IH]; intros c; simpl; [eexists; split; [constructor|done]|].
  inversion 1 as [|? n ? c1 ? ? HR HRs]; subst. destruct (IH c1 HRs) as (c2 & ? & ?).
  exists c2. split; [by econstructor|done].
Qed.

Section Later.
Context (l : list (Z * arrival)).

Definition later (c : Conn) : Conn :=
  set_sock (set_in (nc_in (sock c) ++ l) (nc_now (sock c)) (sock c)) c.

Lemma recv_later n now dl l0 bs l' now' :
  recv n now dl l0 = Some (bs, None, l', now') →
  recv n now dl (l0 ++ l) = Some (bs, None, l' ++ l, now').
Proof.
  induction l0 as [|[t [[|b bs']| |e]] l0 IH]; simpl.
  - by destruct dl.
  - done.
  - case_match; [|done]. intros [= <- <- <-]. by destruct (drop n (b :: bs')).
  - by case_match.
  - by case_match.
Qed.

(** A receive that fails returns no bytes. *)
Lemma recv_fails n now dl l0 bs e l' now' : recv n now dl l0 = Some (bs, Some e, l', now') → bs = [].
Proof. induction l0 as [|[t [[|b bs']| |e']] l0 IH]; simpl; repeat case_match; naive_solver. Qed.

Lemma sock_Read_fails n (s : netConn) bs e s' : Read n s = Ret (bs, Some e) s' → bs = [].
Proof.
  unfold Read, netConn_Reader. repeat case_match; intros HR; simplify_eq; try done. by eapply recv_fails.
Qed.

Lemma Read_fails n (c : Conn) bs e c' : Read n c = Ret (bs, Some e) c' → bs = [].
Proof.
  intros (b & HR & ->)%zoom_inv. destruct c as [[s buf err] st cl i]. unfold Read, bufio_Reader in HR. simpl in HR.
  repeat case_match; simplify_eq; try done. by eapply sock_Read_fails.
Qed.

Lemma sock_Read_later n (s : netConn) bs s' :
  Read n s = Ret (bs, None) s' →
  Read n (set_in (nc_in s ++ l) (nc_now s) s) = Ret (bs, None) (set_in (nc_in s' ++ l) (nc_now s') s').
Proof.
  unfold Read, netConn_Reader. cbn [set_in nc_closed nc_now nc_rdeadline nc_in].
  case_decide; [by intros [= <- <-]|]. do 2 (case_match; [done|]).
  destruct (recv n _ _ (nc_in s)) as [[[[bs' e] l'] now']|] eqn:HR; [|done].
  intros [= <- -> <-]. by rewrite (recv_later _ _ _ _ _ _ _ HR).
Qed.

Lemma Read_later n (c : Conn) bs c' :
  Read n c = Ret (bs, None) c' → Read n (later c) = Ret (bs, None) (later c').
Proof.
  intros (b & HR & ->)%zoom_inv. destruct c as [[s buf err] st cl i].
  unfold Read, Conn_Reader, zoom, Read, bufio_Reader in *. simpl in *.
  case_decide; [destruct buf; simplify_eq; done|]. destruct buf; [|by simplify_eq].
  destruct err; [by simplify_eq|].
  destruct (Read _ s) as [[ds e] s'| |] eqn:Hs; [|done..].
  destruct e as [e|].
  - apply sock_Read_fails in Hs as ->. case_decide; simplify_eq.
  - apply sock_Read_later in Hs. unfold sock. simpl. rewrite Hs. case_decide; [by simplify_eq|].
    destruct ds; by simplify_eq.
Qed.

Lemma read_loop_later fuel need acc (c : Conn) bs c' :
  read_loop fuel need acc c = Ret (bs, None) c' →
  read_loop fuel need acc (later c) = Ret (bs, None) (later c').
Proof.
  revert need acc c. induction fuel as [|fuel IH]; intros need acc c; simpl; (case_decide; [by intros [= <- <-]|]).
  - done.
  - intros ([ds [e|]] & c1 & HR & HK)%bind_inv; [done|].
    rewrite (bind_Ret _ _ _ _ _ (Read_later _ _ _ _ HR)). by apply IH.
Qed.

Lemma read_loop_fails fuel need acc (c : Conn) bs e c' :
  read_loop fuel need acc c = Ret (bs, Some e) c' → (length bs < length acc + need)%nat.
Proof.
  revert need acc c. induction fuel as [|fuel IH]; intros need acc c; simpl; (case_decide; [done|]); [done|].
  intros ([ds [e'|]] & c1 & HR & HK)%bind_inv.
  - apply Read_fails in HR as ->. injection HK as <- <- <-. rewrite app_nil_r. lia.
  - pose proof (Read_len _ _ _ _ _ HR). apply IH in HK. rewrite length_app in HK. lia.
Qed.

Lemma ReadFull_later n (c : Conn) bs c' :
  ReadFull n c = Ret (bs, None) c' → ReadFull n (later c) = Ret (bs, None) (later c').
Proof.
  intros ([ds [e|]] & c1 & HL & HK)%bind_inv.
  - apply read_loop_fails in HL. simpl in HL. rewrite decide_False in HK by lia. by destruct e.
  - unfold ReadFull. rewrite (bind_Ret _ _ _ _ _ (read_loop_later _ _ _ _ _ _ HL)).
    by case_decide; injection HK as <- <-.
Qed.

Lemma ReadFrom_later n p (c : Conn) c' :
  ReadFrom c = Ret (n, Ok p) c' → ReadFrom (later c) = Ret (n, Ok p) (later c').
Proof.
  intros ([szf [e|]] & c1 & HR & HK)%bind_inv; [done|]. unfold ReadFrom.
  rewrite (bind_Ret _ _ _ _ _ (ReadFull_later _ _ _ _ HR)). cbv zeta in *.
  do 2 (case_match; [done|]). apply bind_inv in HK as ([body [e|]] & c2 & HR2 & HK); [done|].
  rewrite (bind_Ret _ _ _ _ _ (ReadFull_later _ _ _ _ HR2)). by injection HK as <- <- <-.
Qed.

Lemma reads_later c ps c' : reads c ps c' → reads (later c) ps (later c').
Proof. induction 1; econstructor; [by apply ReadFrom_later|done]. Qed.

Lemma left_later (c : Conn) : (left_bytes c ≤ left_bytes (later c))%nat.
Proof. destruct c as [[s buf err] st cl i]. unfold later, sock. simpl. rewrite script_bytes_app. lia. Qed.

End Later.

(** A reply that is all there is read the same way whatever comes after it. *)
Lemma readMultiPacket_later req sen chunks echo c :
  Forall valid_packet (chunks ++ [echo]) →
  Forall (λ p, belongs req p ∧ ID p ≠ sen) chunks → ID echo = sen →
  pending c = frames (chunks ++ [echo]) →
  ∃ c', (∀ l, readMultiPacket req sen (later l c) = Ret (Ok (bodies chunks)) (later l c')) ∧
        frame c' = frame c ∧ pending c' = [].
Proof.
  intros Hv Hb He Hp.
  pose proof (length_pending c) as Hl. rewrite Hp in Hl.
  pose proof (length_frames (chunks ++ [echo])) as Hl'. rewrite length_app in Hl'.
  destruct (reads_frames _ [] c Hv) as (c2 & HRs & Hp2 & Hf2); [by rewrite app_nil_r|].
  exists c2. split_and!; [intros l; pose proof (left_later l c) as Hll|done|done].
  apply reads_app in HRs as (c1 & HR1 & HR2). inversion HR2 as [|? n ? c3 ? ? HR HR3]; subst.
  inversion HR3; subst. unfold readMultiPacket.
  erewrite multi_loop_reads by (by apply reads_later || done || lia).
  destruct (S (left_bytes (later l c)) - length chunks)%nat eqn:Hfuel; [simpl in *; lia|].
  cbn [multi_loop]. rewrite (bind_Ret _ _ _ _ _ (ReadFrom_later l _ _ _ _ HR)). unfold ret at 1, bind at 1.
  rewrite Z.eqb_refl. unfold bind, drainSourceMirror. cbn [drain_loop]. unfold bind, gets.
  rewrite decide_False; [done|]. assert (b_buf (br c2) = []) as Hbuf.
  { by apply app_eq_nil in Hp2 as [? _]. }
  unfold Buffered. change (b_buf (br (later l c2))) with (b_buf (br c2)). rewrite Hbuf. simpl. lia.
Qed.

Lemma later_app l1 l2 c : later (l1 ++ l2) c = later l2 (later l1 c).
Proof. destruct c as [[s buf err] st cl i]. unfold later, sock. simpl. by rewrite app_assoc. Qed.

Lemma later_nil c : later [] c = c.
Proof. destruct c as [[[] buf err] st cl i]. unfold later, sock, set_in. simpl. by rewrite app_nil_r. Qed.

(** ** What arrives in time *)

(** The segments of [l] hold [bs], cut in any way, and arrive before [hi]. *)
Definition delivered (hi : Z) (bs : list byte) (l : list (Z * arrival)) : Prop :=
  (∃ cuts, l.*2 = Seg <$> cuts ∧ concat cuts = bs) ∧ Forall (λ a, a.1 < hi) l.

Lemma delivered_mono hi hi' bs l : hi ≤ hi' → delivered hi bs l → delivered hi' bs l.
Proof. intros Hh [? Hl]. split; [done|]. eapply Forall_impl; [|exact Hl]. simpl. intros a Ha. lia. Qed.

(** Only empty segments. *)
Definition quiet (l : list (Z * arrival)) : Prop := Forall (λ a, a.2 = Seg []) l.

Lemma arriving_quiet dl q l :
  quiet q → arriving dl (q ++ l) = arriving dl l ∧ script_tail dl (q ++ l) = script_tail dl l.
Proof. induction 1 as [|[t a] q Ha _ IH]; simpl in *; [done|]. by subst a. Qed.

Lemma arriving_delivered hi bs l l' dl :
  delivered hi bs l → (∀ d, dl = Some d → hi ≤ d) →
  arriving dl (l ++ l') = bs ++ arriving dl l' ∧ script_tail dl (l ++ l') = script_tail dl l'.
Proof.
  intros [(cuts & Hl & <-) Ht] Hd. revert cuts Hl. induction Ht as [|[t a] l Ht _ IH]; intros cuts Hl.
  { by destruct cuts. }
  destruct cuts as [|cut cuts]; [done|]. simpl in *. injection Hl as -> Hl. destruct (IH cuts Hl) as [Ha Hs].
  assert (before t dl = true) as Hb by (destruct dl as [d|]; [|done]; apply Z.ltb_lt; specialize (Hd d eq_refl); lia).
  destruct cut; simpl; [done|]. by rewrite Hb, Ha, Hs, app_assoc.
Qed.

(** With nothing after it. *)
Lemma arriving_all hi bs l dl :
  delivered hi bs l → (∀ d, dl = Some d → hi ≤ d) → arriving dl l = bs ∧ script_tail dl l = [].
Proof.
  intros Hl Hd. destruct (arriving_delivered hi bs l [] dl Hl Hd) as [Ha Hs].
  by rewrite app_nil_r in Ha, Hs; rewrite Ha, app_nil_r.
Qed.

Lemma quiet_drained dl l : arriving dl l = [] → script_tail dl l = [] → quiet l.
Proof.
  induction l as [|[t [[|b bs]| |e]] l IH]; simpl; intros Ha Hs; try done; [by constructor|constructor; [done|by apply IH]|].
  revert Ha Hs. by destruct (before t dl).
Qed.

(** ** From one quiet state to the next *)

(** Authenticated, between two commands: nothing unread, id [i] used last, [out] sent. *)
Record ready (st : settings) (i : Z) (out : list byte) (c : Conn) : Prop := {
  rd_set : set c = st;
  rd_open : closed c = false;
  rd_id : id c = i;
  rd_sock : nc_closed (sock c) = false;
  rd_wfail : nc_wfail (sock c) = None;
  rd_buf : b_buf (br c) = [];
  rd_err : b_err (br c) = None;
  rd_sent : sent c = out;
  rd_in : quiet (nc_in (sock c))
}.

(** What the client sends for a command after id [i], and what answers it. *)
Definition question (i : Z) (command : string) : list Packet :=
  [mkPacket (next_id i) TypeExecCommand command; mkPacket (next_id (next_id i)) TypeResponseValue ""].
Definition reply (i : Z) (out : list byte) : list Packet :=
  response_packets (next_id i) out ++ [mkPacket (next_id (next_id i)) TypeResponseValue ""].

(** All pending bytes read: nothing is left but silence. *)
Lemma drained c c' :
  frame c' = frame c → b_err (br c) = None → nc_closed (sock c) = false →
  before (nc_now (sock c)) (nc_rdeadline (sock c)) = true →
  script_tail (nc_rdeadline (sock c)) (nc_in (sock c)) = [] → pending c' = [] →
  b_buf (br c') = [] ∧ quiet (nc_in (sock c')).
Proof.
  intros Hf Herr Hcl Hb Ht Hp. pose proof (frame_inv _ _ Hf) as (_ & _ & _ & _ & Hcl' & _ & Hrd' & Herr').
  apply app_eq_nil in Hp as [Hbuf Hp]. rewrite Herr', Herr in Hp. split; [done|].
  assert (script_tail (nc_rdeadline (sock c')) (nc_in (sock c')) = script_tail (nc_rdeadline (sock c)) (nc_in (sock c)))
    as Hin by (by injection Hf).
  assert (before (nc_now (sock c')) (nc_rdeadline (sock c')) = before (nc_now (sock c)) (nc_rdeadline (sock c)))
    as Hnow by (by injection Hf).
  change (b_rd (br c')) with (sock c') in *.
  apply (quiet_drained (nc_rdeadline (sock c'))); [|congruence].
  unfold pending, netConn_Stream, nc_pending in Hp.
  by rewrite Hcl', Hcl, Hnow, Hb in Hp.
Qed.

(** The script of a ready connection once a reply is on its way. *)
Lemma pending_ready ctx st i out c l hi bs :
  ready st i out c → delivered hi bs l →
  before (nc_now (sock c)) (exec_deadline ctx c) = true → (∀ d, exec_deadline ctx c = Some d → hi ≤ d) →
  pending (armed ctx (later l c)) = bs ∧
  script_tail (exec_deadline ctx c) (nc_in (sock (later l c))) = [].
Proof.
  intros [] Hl Hb Hd. destruct (arriving_all hi bs l (exec_deadline ctx c) Hl Hd) as [Ha Ht].
  destruct (arriving_quiet (exec_deadline ctx c) _ l rd_in0) as [Ha' Ht'].
  split; [|by change (nc_in (sock (later l c))) with (nc_in (sock c) ++ l); rewrite Ht'].
  destruct c as [[s buf err] st' cl i']. unfold later, armed, exec_deadline, sock in *. simpl in *.
  unfold sock in *. simpl in *. subst. unfold bufio_pending. simpl. unfold nc_pending. simpl.
  by rewrite rd_sock0, Hb, Ha'.
Qed.

Lemma reply_valid i out : Forall valid_packet (reply i out).
Proof.
  unfold reply. apply Forall_app. split.
  - eapply Forall_impl; [|apply response_packets_valid, next_id_int32]. by intros p (? & _).
  - repeat constructor; cbn [ID Type_ Body]; try done; apply next_id_int32.
Qed.

(** One command: the reply arrives, [Execute] returns it, and the connection is
    ready again; what comes later is still to come. *)
Lemma Execute_ready ctx command st i out c l hi o :
  ready st i out c → mode st = readMulti → command ≠ "" →
  (0 < maxCommandLen st → Z.of_nat (len command) ≤ maxCommandLen st) →
  before (nc_now (sock c)) (exec_deadline ctx c) = true → (∀ d, exec_deadline ctx c = Some d → hi ≤ d) →
  delivered hi (frames (reply i o)) l →
  ∃ c', (∀ rest, Execute ctx command (later (l ++ rest) c) = Ret (Ok (string_of o)) (later rest c')) ∧
        ready st (next_id (next_id i)) (out ++ frames (question i command)) c'.
Proof.
  intros Hr Hm Hne Hlen Hb Hd Hl. destruct (pending_ready ctx _ _ _ _ _ _ _ Hr Hl Hb Hd) as [Hp Ht].
  pose proof Hr as [Hset Hcl Hid Hsc Hwf Hbuf Herr Hsent Hin].
  destruct (readMultiPacket_later (next_id i) (next_id (next_id i)) (response_packets (next_id i) o)
    (mkPacket (next_id (next_id i)) TypeResponseValue "") (requested_multi ctx command (later l c)))
    as (c' & HE & Hf & Hp').
  - apply reply_valid.
  - eapply Forall_impl; [|apply response_packets_valid, next_id_int32]. intros p (_ & Hp' & _).
    rewrite Hp'. split; [by left|]. intros E. by apply (next_id_fresh i).
  - done.
  - by rewrite pending_requested_multi.
  - exists c'. split.
    + intros rest. rewrite later_app, Execute_start.
      * change (set (later rest (later l c))) with (set c). rewrite Hset, Hm.
        change (id (later rest (later l c))) with (id c). rewrite Hid, <- (response_packets_bodies (next_id i) o).
        exact (HE rest).
      * split_and!; [done|done|by change (set (later rest (later l c))) with (set c); rewrite Hset].
      * split_and!; done.
    + destruct (drained _ _ Hf) as [Hbuf' Hin']; [done|done|exact Hb|exact Ht|done|].
      pose proof (frame_inv _ _ Hf) as (Hs' & Hset' & Hcl' & Hid' & Hsc' & Hwf' & _ & Herr').
      split; [by rewrite Hset'|by rewrite Hcl'|by rewrite Hid', <- Hid|by rewrite Hsc'|by rewrite Hwf'
             |done|by rewrite Herr'| |done].
      rewrite Hs', <- Hsent. unfold question. rewrite frames_cons, frames_one, <- Hid. done.
Qed.

(** The handshake, from a fresh socket to the first ready state. *)
Lemma open_ready {H} (srv : Server H) ctx password st now l rest hi :
  let nc := new_netConn (l ++ rest) now in
  before now (effective_deadline ctx (deadline st) now) = true →
  (∀ d, effective_deadline ctx (deadline st) now = Some d → hi ≤ d) →
  delivered hi (frames (auth_answer srv (auth_packet password))) l →
  ∃ c', open ctx nc password st =
          Ret (if checkPassword srv password then Ok tt else Err ErrAuthFailed) (later rest c') ∧
        ready st 1 (frames [auth_packet password]) c'.
Proof.
  intros nc Hb Hd Hl. set (c0 := newConn (new_netConn l now) st).
  assert (newConn nc st = later rest c0) as Hnc by done.
  destruct (arriving_all hi _ l (exec_deadline ctx c0) Hl Hd) as [Ha Ht].
  set (c1 := wrote (encode (auth_request password (armed ctx c0))) (set_id 1 (armed ctx c0))).
  destruct (reads_frames (auth_answer srv (auth_packet password)) [] c1) as (c2 & HRs & Hp2 & Hf2).
  { unfold auth_answer. repeat constructor; cbn [ID Type_ Body auth_packet];
      try destruct (checkPassword _ _); done. }
  { rewrite app_nil_r, <- Ha. unfold c1. rewrite pending_wrote.
    change (nc_pending (sock (armed ctx c0)) = arriving (exec_deadline ctx c0) l). unfold nc_pending.
    simpl. change (exec_deadline ctx c0) with (effective_deadline ctx (deadline st) now). by rewrite Hb. }
  exists c2. split.
  - unfold open. fold (newConn nc st). rewrite Hnc.
    erewrite bind_Ret by (apply (apply_deadline ctx (later rest c0))). cbv beta iota.
    erewrite bind_Ret.
    2:{ eapply (authenticate_reads password
          (mkPacket (if checkPassword srv password then 1 else -1) TypeAuthResponse "")
          (auth_answer srv (auth_packet password)));
        [split_and!; done|by apply auth_sentinel|apply (reads_later rest _ _ _ HRs)]. }
    by destruct (checkPassword srv password).
  - destruct (drained _ _ Hf2) as [Hbuf Hin]; [done|done|exact Hb|exact Ht|done|].
    pose proof (frame_inv _ _ Hf2) as (Hs & Hset & Hcl & Hid & Hsc & Hwf & _ & Herr).
    split; [by rewrite Hset|by rewrite Hcl|by rewrite Hid|by rewrite Hsc|by rewrite Hwf|done|by rewrite Herr| |done].
    rewrite Hs, frames_one. done.
Qed.

(** ** The clock *)

(** Some bytes arrive at [t]. *)
Definition comes (t : Z) (l : list (Z * arrival)) : Prop := ∃ bs, bs ≠ [] ∧ (t, Seg bs) ∈ l.

Lemma recv_comes n now dl l bs e l' now' t :
  (0 < n)%nat → recv n now dl l = Some (bs, e, l', now') → comes t l → comes t l' ∨ t ≤ now'.
Proof.
  intros Hn HR (bs0 & Hne & Hin). revert HR. induction l as [|[t1 a] l IH]; [by apply elem_of_nil in Hin|].
  destruct a as [[|b bs1]| |e1]; simpl.
  - apply IH. apply elem_of_cons in Hin as [[= -> ->]|]; done.
  - case_match.
    + intros [= <- <- <- <-]. apply elem_of_cons in Hin as [[= -> ->]|Hin]; [right; lia|left].
      exists bs0. split; [done|]. destruct (drop n (b :: bs1)); [done|by right].
    + intros [= <- <- <- <-]. left. by exists bs0.
  - case_match; intros [= <- <- <- <-]; left; by exists bs0.
  - case_match; intros [= <- <- <- <-]; left; by exists bs0.
Qed.

Section Heard.
Context (l : list (Z * arrival)).

(** Whatever of [l] is no longer to come, the clock has passed it. *)
Definition heard (c : Conn) : Prop :=
  ∀ t, comes t l → comes t (nc_in (sock c)) ∨ t ≤ nc_now (sock c).

Lemma keeps_heard_Read k : keeps heard (Read k).
Proof.
  assert (∀ n (s : netConn), (∀ t, comes t l → comes t (nc_in s) ∨ t ≤ nc_now s) →
    match Read n s with
    | Ret _ s' | Blocks s' => ∀ t, comes t l → comes t (nc_in s') ∨ t ≤ nc_now s'
    | Diverges => True
    end) as HR.
  { intros n s Hs. unfold Read, netConn_Reader. repeat case_match; simplify_eq/=; try done.
    match goal with HR : recv _ _ _ _ = _ |- _ => rename HR into Hrecv end.
    intros t Ht. pose proof (recv_inv _ _ _ _ _ _ _ _ Hrecv ltac:(lia)) as (_ & _ & _ & Hn & _).
    destruct (Hs t Ht) as [Hc|Hc]; [|right; lia]. eapply recv_comes; [|done|done]. lia. }
  intros [[s buf err] st cl i] Hc. unfold heard, sock in *. simpl in Hc.
  unfold Read, Conn_Reader, zoom. simpl. unfold Read at 1, bufio_Reader. simpl.
  set (n := if decide (bufio_size ≤ k)%nat then k else bufio_size). specialize (HR n s Hc).
  destruct (Read n s) as [[bs e] s'|s'|]; repeat case_match; simplify_eq/=; done.
Qed.

Lemma keeps_heard_Write bs : keeps heard (Write bs).
Proof.
  apply (keeps_Write_sock (λ s, ∀ t, comes t l → comes t (nc_in s) ∨ t ≤ nc_now s)).
  intros s s' HW%Write_frame Hs t Ht. destruct HW as (-> & _ & _ & _ & Hn & _).
  destruct (Hs t Ht); [by left|right; lia].
Qed.

Lemma keeps_heard_nextID : keeps heard nextID.
Proof. by intros c Hc. Qed.

Lemma keeps_heard_deadline ctx d : keeps heard (zoom sock set_sock (applyContextDeadline ctx d)).
Proof.
  intros c Hc. unfold zoom, applyContextDeadline, gets, bind, SetDeadline, heard, sock in *.
  repeat case_match; simplify_eq/=; done.
Qed.

Lemma keeps_heard_idle_deadline d : keeps heard (zoom sock set_sock (SetReadDeadline d)).
Proof. intros c Hc. unfold zoom, SetReadDeadline, heard, sock in *. repeat case_match; simplify_eq/=; done. Qed.

Lemma keeps_heard_Diverges {A} : keeps heard (λ _, @Diverges Conn A).
Proof. done. Qed.

#[local] Hint Resolve keeps_heard_Read keeps_heard_Write keeps_heard_nextID keeps_heard_deadline
  keeps_heard_idle_deadline keeps_heard_Diverges : rcon.

Lemma keeps_heard_Execute ctx command : keeps heard (Execute ctx command).
Proof.
  assert (∀ fuel, keeps heard (drain_loop fuel)) as Hdr by (induction fuel; cbn [drain_loop]; keeps_tac).
  assert (keeps heard drainSourceMirror) by (intros c; apply Hdr).
  assert (∀ fuel req sen b, keeps heard (multi_loop fuel req sen b)) as Hm
    by (induction fuel; intros req sen b; cbn [multi_loop]; keeps_tac).
  assert (∀ fuel req first b, keeps heard (idle_loop fuel req first b)) as Hi
    by (induction fuel; intros req first b; cbn [idle_loop]; keeps_tac).
  assert (∀ req sen, keeps heard (readMultiPacket req sen)) by (intros req sen c; apply Hm).
  assert (∀ req, keeps heard (readIdleDrain req)) by (intros req c; apply Hi).
  unfold Execute, readSinglePacket. keeps_tac.
Qed.
End Heard.

Lemma quiet_comes t l : quiet l → ¬ comes t l.
Proof. intros Hq (bs & Hne & Hin). apply list_elem_of_In, (proj1 (Forall_forall _ _) Hq) in Hin. by injection Hin. Qed.

(** Once [l] is all read, the clock has passed every arrival in it. *)
Lemma Execute_heard ctx command l c r c' :
  Execute ctx command (later l c) = Ret r c' → quiet (nc_in (sock c')) →
  ∀ t, comes t l → t ≤ nc_now (sock c').
Proof.
  intros HE Hq t Ht. pose proof (keeps_heard_Execute l ctx command (later l c)) as HK.
  rewrite HE in HK. destruct (HK ltac:(intros t' (bs & ? & ?); left; exists bs; split; [done|]; simpl; set_solver) t Ht)
    as [Hc|Hc]; [by apply quiet_comes in Hc|done].
Qed.

(** ** Many commands *)

Fixpoint questions (i : Z) (commands : list string) : list Packet :=
  match commands with
  | [] => []
  | command :: commands => question i command ++ questions (next_id (next_id i)) commands
  end.

Fixpoint replies (i : Z) (outs : list (list byte)) : list (list Packet) :=
  match outs with
  | [] => []
  | out :: outs => reply i out :: replies (next_id (next_id i)) outs
  end.

(** A command, when it is given, and what arrives in answer to it. *)
Record turn := mkTurn {
  tn_at : Z;
  tn_command : string;
  tn_arrivals : list (Z * arrival)
}.

Definition wait_until (t : Z) : GoM Conn unit :=
  modify (λ c, set_sock (set_now (Z.max (nc_now (sock c)) t) (sock c)) c).

(** A caller that runs one command after the other, each at its time. *)
Fixpoint converse (ctx : Context) (turns : list turn) : GoM Conn (list (result string)) :=
  match turns with
  | [] => ret []
  | tn :: turns =>
      do _ <- wait_until (tn_at tn);
      do r <- Execute ctx (tn_command tn);
      do rs <- converse ctx turns;
      ret (r :: rs)
  end.

(** A command [Execute] takes, with the default limit. *)
Definition good_command (command : string) : Prop :=
  command ≠ "" ∧ Z.of_nat (len command) ≤ DefaultMaxCommandLen.

(** The replies arrive in their turns, within [d] of the command. *)
Definition in_time (d : Z) : list turn → list (list Packet) → Prop :=
  Forall2 (λ tn ps, delivered (tn_at tn + d) (frames ps) (tn_arrivals tn)).

Lemma ready_wait t st i out c l :
  ready st i out c →
  ∃ c', wait_until t (later l c) = Ret tt (later l c') ∧ ready st i out c' ∧
        nc_now (sock c') = Z.max (nc_now (sock c)) t.
Proof.
  intros []. exists (set_sock (set_now (Z.max (nc_now (sock c)) t) (sock c)) c).
  split_and!; [done|by split|done].
Qed.

Lemma converse_ready turns outs i out c rest :
  ready (newSettings []) i out c →
  Forall (λ tn, good_command (tn_command tn)) turns →
  in_time DefaultDeadline turns (replies i outs) →
  ∃ c' i', converse Background turns (later (concat (tn_arrivals <$> turns) ++ rest) c) =
          Ret ((λ o, Ok (string_of o)) <$> outs) (later rest c') ∧
        ready (newSettings []) i' (out ++ frames (questions i (tn_command <$> turns))) c'.
Proof.
  revert outs i out c. induction turns as [|tn turns IH]; intros outs i out c Hr Hc Ht.
  { destruct outs; [|by inversion Ht]. exists c, i. split; [done|]. simpl. by rewrite app_nil_r. }
  destruct outs as [|o outs]; [by inversion Ht|]. apply Forall2_cons_1 in Ht as [Hl Ht].
  apply Forall_cons_1 in Hc as [[Hne Hlen] Hc].
  cbn [converse fmap list_fmap concat]. rewrite <- app_assoc.
  destruct (ready_wait (tn_at tn) _ _ _ _ (tn_arrivals tn ++ concat (tn_arrivals <$> turns) ++ rest) Hr)
    as (c1 & HW & Hr1 & Hn1). rewrite (bind_Ret _ _ _ _ _ HW).
  assert (exec_deadline Background c1 = Some (nc_now (sock c1) + DefaultDeadline)) as Hed
    by (unfold exec_deadline; by rewrite (rd_set _ _ _ _ Hr1)).
  destruct (Execute_ready Background (tn_command tn) _ _ _ c1 (tn_arrivals tn) (tn_at tn + DefaultDeadline) o Hr1) as (c2 & HE & Hr2);
    [done|done|done| | |done|].
  { rewrite Hed. apply Z.ltb_lt. unfold DefaultDeadline, Second. lia. }
  { rewrite Hed. intros d [= <-]. lia. }
  rewrite (bind_Ret _ _ _ _ _ (HE _)).
  destruct (IH outs _ _ _ Hr2 Hc Ht) as (c3 & i3 & HC & Hr3). rewrite (bind_Ret _ _ _ _ _ HC).
  exists c3, i3. split; [done|]. cbn [questions]. by rewrite frames_app, app_assoc.
Qed.

(** ** The server's side *)

Section Serving.
Context {H : Type} (srv : Server H) (handler : Handler H) (doneCtx : option Context) (password : string).

(** What the handler writes for the commands, one after the other, and its state. *)
Fixpoint outputs (commands : list string) (h : H) : list (list byte) * H :=
  match commands with
  | [] => ([], h)
  | command :: commands =>
      let run := command_run handler doneCtx command h in
      let (outs, h') := outputs commands (hr_next run) in
      (written run :: outs, h')
  end.

(** It panics on none of them. *)
Fixpoint no_panic (commands : list string) (h : H) : Prop :=
  match commands with
  | [] => True
  | command :: commands =>
      let run := command_run handler doneCtx command h in
      hr_panics run = false ∧ no_panic commands (hr_next run)
  end.

Lemma session_questions i commands h :
  no_panic commands h →
  session handler doneCtx "" (questions i commands) h =
    (concat (replies i (outputs commands h).1), (outputs commands h).2, true).
Proof.
  revert i h. induction commands as [|command commands IH]; intros i h; [done|].
  cbn [no_panic outputs questions question app session]. intros [Hp Hn].
  assert (answer handler doneCtx "" (mkPacket (next_id i) TypeExecCommand command) h =
    (response_packets (next_id i) (written (command_run handler doneCtx command h)),
     hr_next (command_run handler doneCtx command h), true)) as ->.
  { unfold answer, command_run in *. cbn [Type_ Body ID Z.eqb TypeExecCommand Pos.eqb]. by rewrite Hp. }
  cbv iota beta. change (answer handler doneCtx "" (mkPacket ?j TypeResponseValue "") ?h') with
    ([mkPacket j TypeResponseValue ""], h', true). cbv iota beta. rewrite (IH _ _ Hn).
  destruct (outputs commands _) as [outs h']. cbn [fst snd replies concat]. unfold reply. by rewrite <- app_assoc.
Qed.

(** The packets a client with these commands sends. *)
Definition transcript (commands : list string) : list Packet := auth_packet password :: questions 1 commands.

Lemma questions_valid i commands : Forall good_command commands → Forall valid_packet (questions i commands).
Proof.
  intros Hc. revert i. induction Hc as [|command commands [_ Hlen] _ IH]; intros i; [done|].
  cbn [questions question app].
  apply Forall_cons_2; [|apply Forall_cons_2; [|apply IH]];
    (split_and!; cbn [ID Type_ Body]; [apply next_id_int32|done|]); [|done].
  unfold DefaultMaxCommandLen, MaxPayloadSize in *. lia.
Qed.

(** The server's end of a connection: the client's bytes, then the client hangs up. *)
Definition serving (l : list (Z * arrival)) (h : H) : served H :=
  mkServed (new_netConn (l ++ [(0, Fin)]) 0) h.

Lemma serve_transcript commands l hi h :
  Z.of_nat (len password) ≤ MaxPayloadSize → Forall good_command commands →
  ReadTimeout srv ≤ 0 → no_panic commands h → delivered hi (frames (transcript commands)) l →
  ∃ st', final (serveConn srv handler doneCtx (serving l h)) = Some st' ∧ nc_closed (sv_conn st') = true ∧
    if checkPassword srv password
    then nc_out (sv_conn st') = frames (auth_answer srv (auth_packet password)) ++
           concat (frames <$> replies 1 (outputs commands h).1) ∧
         sv_handler st' = (outputs commands h).2
    else nc_out (sv_conn st') = frames (auth_answer srv (auth_packet password)) ∧ sv_handler st' = h.
Proof.
  intros Hpw Hc Hr Hn Hl.
  destruct (arriving_delivered hi _ l [(0, Fin)] None Hl ltac:(done)) as [Ha Ht].
  pose proof (serveConn_session srv handler doneCtx (auth_packet password) (questions 1 commands) (serving l h) Hr)
    as HS.
  specialize (HS ltac:(split_and!; done)).
  specialize (HS ltac:(apply Forall_cons_2; [split_and!; done|by apply questions_valid]) eq_refl).
  specialize (HS ltac:(change (arriving None (l ++ [(0, Fin)]) = frames (transcript commands)); by rewrite Ha, app_nil_r)).
  cbv zeta in HS. change (nc_in (sv_conn (serving l h))) with (l ++ [(0, Fin)]) in HS. rewrite Ht in HS.
  specialize (HS (or_intror eq_refl)). cbn [auth_packet Body] in HS.
  change (nc_remote (sv_conn (serving l h))) with "" in HS. change (sv_handler (serving l h)) with h in HS.
  rewrite session_questions in HS by done.
  destruct (checkPassword srv password); destruct HS as (st' & HF & Ho & Hh & Hcl);
    exists st'; (split; [exact HF|]); (split; [exact Hcl|]); (split; [|exact Hh]).
  - rewrite Ho, frames_app, frames_concat. done.
  - by rewrite Ho, app_nil_r.
Qed.
End Serving.

(** The client's side, on what such a server writes. *)
Lemma client_converses {H} (srv : Server H) (password : string) (turns : list turn) (outs : list (list byte))
    (hello : list (Z * arrival)) :
  Z.of_nat (len password) ≤ MaxPayloadSize → Forall good_command (tn_command <$> turns) →
  delivered DefaultDeadline (frames (auth_answer srv (auth_packet password))) hello →
  in_time DefaultDeadline turns (replies 1 outs) →
  let nc := new_netConn (hello ++ concat (tn_arrivals <$> turns)) 0 in
  if checkPassword srv password then
    ∃ c c', Open Background nc password [] = Ret (Ok tt) c ∧
      converse Background turns c = Ret ((λ o, Ok (string_of o)) <$> outs) c' ∧
      sent c' = frames (transcript password (tn_command <$> turns))
  else ∃ c, Open Background nc password [] = Ret (Err ErrAuthFailed) c.
Proof.
  intros Hpw Hc Hhello Hin nc.
  destruct (open_ready srv Background password (newSettings []) 0 hello (concat (tn_arrivals <$> turns)) DefaultDeadline)
    as (c & HO & Hrd); [done|by intros d [= <-]|done|].
  destruct (checkPassword srv password); [|by eexists].
  destruct (converse_ready turns outs 1 _ c [] Hrd) as (c' & i' & HC & Hrd'); [exact (proj1 (Forall_fmap _ _ _) Hc)|done|].
  rewrite app_nil_r in HC. eexists _, _. split_and!; [exact HO|exact HC|].
  rewrite later_nil. etrans; [exact (rd_sent _ _ _ _ Hrd')|].
  unfold transcript. by rewrite <- frames_app.
Qed.

(** ** Theorem *)

(** C1: client and server understand each other, for any number of commands. The
    server, which sets no read timeout and whose handler does not panic on them, runs [serveConn] on the bytes a client with default options sends to
    authenticate and run the commands; the client runs [Open] and then [Execute]
    for each command at its time, on the bytes that server writes. Whatever the
    segments these bytes are cut into and whenever they arrive (a reply within
    the deadline of its command), if the password is accepted every [Execute]
    returns exactly what the handler wrote for its command, of any length, in
    order, the handler's state being threaded through, and the client has sent
    exactly the bytes the server read; if it is rejected, [Open] fails with
    [ErrAuthFailed] and the handler never ran. *)
Theorem conversation_roundtrip {H} (srv : Server H) (handler : Handler H) (doneCtx : option Context)
    (password : string) (h : H) (turns : list turn) (hello arrive : list (Z * arrival)) (hi : Z) :
  let commands := tn_command <$> turns in
  let outs := (outputs handler doneCtx commands h).1 in
  Z.of_nat (len password) ≤ MaxPayloadSize → Forall good_command commands → ReadTimeout srv ≤ 0 →
  no_panic handler doneCtx commands h →
  delivered hi (frames (transcript password commands)) arrive →
  delivered DefaultDeadline (frames (auth_answer srv (auth_packet password))) hello →
  in_time DefaultDeadline turns (replies 1 outs) →
  let nc := new_netConn (hello ++ concat (tn_arrivals <$> turns)) 0 in
  ∃ st', final (serveConn srv handler doneCtx (serving arrive h)) = Some st' ∧ nc_closed (sv_conn st') = true ∧
    if checkPassword srv password then
      nc_out (sv_conn st') = frames (auth_answer srv (auth_packet password)) ++ concat (frames <$> replies 1 outs) ∧
      sv_handler st' = (outputs handler doneCtx commands h).2 ∧
      ∃ c c', Open Background nc password [] = Ret (Ok tt) c ∧
        converse Background turns c = Ret ((λ o, Ok (string_of o)) <$> outs) c' ∧
        sent c' = frames (transcript password commands)
    else
      nc_out (sv_conn st') = frames (auth_answer srv (auth_packet password)) ∧ sv_handler st' = h ∧
      ∃ c, Open Background nc password [] = Ret (Err ErrAuthFailed) c.
Proof.
  intros commands outs Hpw Hc Hr Hn Harr Hhello Hin nc.
  destruct (serve_transcript srv handler doneCtx password commands arrive hi h) as (st' & HF & Hcl & HS); [done..|].
  exists st'. split_and!; [done..|].
  pose proof (client_converses srv password turns outs hello Hpw Hc Hhello Hin) as HC.
  destruct (checkPassword srv password); destruct HS as [Ho Hh]; by split_and!.
Qed.

(** Bytes that arrive in two segments at time [t]. *)
Definition two_segs (t : Z) (bs : list byte) : list (Z * arrival) :=
  [(t, Seg (take 5 bs)); (t, Seg (drop 5 bs))].

Lemma two_segs_delivered t hi bs : t < hi → delivered hi bs (two_segs t bs).
Proof.
  intros Ht. split; [|by repeat constructor]. exists [take 5 bs; drop 5 bs]. split; [done|].
  simpl. by rewrite app_nil_r, take_drop.
Qed.

(** Two commands to the echo server, the second a minute after the first. *)
Definition sample_turns : list turn :=
  [mkTurn 10 "hi" (two_segs 12 (frames (reply 1 (bytes_of "hi"))));
   mkTurn (60 * Second) "there" (two_segs (61 * Second) (frames (reply 3 (bytes_of "there"))))].

Lemma conversation_roundtrip_witness :
  ∃ st' c c',
    final (serveConn (echo_server 0) echo_handler None
      (serving (two_segs 9 (frames (transcript "secret" ["hi"; "there"]))) 0%nat)) = Some st' ∧
    sv_handler st' = 2%nat ∧
    Open Background (new_netConn (two_segs 4 (frames (auth_answer (echo_server 0) (auth_packet "secret"))) ++
      concat (tn_arrivals <$> sample_turns)) 0) "secret" [] = Ret (Ok tt) c ∧
    converse Background sample_turns c = Ret [Ok "hi"; Ok "there"] c'.
Proof.
  destruct (conversation_roundtrip (echo_server 0) echo_handler None "secret" 0%nat sample_turns
    (two_segs 4 (frames (auth_answer (echo_server 0) (auth_packet "secret"))))
    (two_segs 9 (frames (transcript "secret" ["hi"; "there"]))) 10) as (st' & HF & _ & HC).
  - vm_compute. discriminate.
  - repeat constructor; try discriminate; vm_compute; discriminate.
  - discriminate.
  - repeat split.
  - apply two_segs_delivered. reflexivity.
  - apply two_segs_delivered. reflexivity.
  - constructor; [apply two_segs_delivered; reflexivity|].
    constructor; [apply two_segs_delivered; reflexivity|constructor].
  - destruct HC as (_ & Hh & c & c' & HO & HC & _). exists st', c, c'.
    split; [exact HF|]. split; [exact Hh|]. split; [exact HO|exact HC].
Defined.
