(* ===== verification/FakeRcon.v ===== *)
(** * internal/fakercon: the scripted server of the test suites

    Its [ServeRCON] as a [Handler] over its own state, the operations that
    configure it, and what a client gets from it: a configured reply, a long reply
    of the configured length, an empty reply for an unknown command, a dropped
    connection when armed. *)

From S2P Require Import Prelude GoErrors GoIO GoNet Packet Options Conn ConnProps Server ServerProps EndToEnd.

Local Open Scope Z_scope.

Record fake := mkFake {
  replies : gmap string string;
  longCmds : gmap string Z;
  dropOnce : bool
}.

Definition new_fake : fake := mkFake ∅ ∅ false.

Definition Handle (cmd reply : string) (s : fake) : fake :=
  mkFake (<[cmd := reply]> (replies s)) (longCmds s) (dropOnce s).
Definition HandleLong (cmd : string) (totalLen : Z) (s : fake) : fake :=
  mkFake (replies s) (<[cmd := totalLen]> (longCmds s)) (dropOnce s).
Definition DropNext (s : fake) : fake := mkFake (replies s) (longCmds s) true.

(** [strings.Repeat("A", n)], which panics for a negative count. *)
Definition RepeatA (n : Z) : option string :=
  if n <? 0 then None else Some (string_of (replicate (Z.to_nat n) x41)).

Definition ServeRCON : Handler fake := λ r s,
  if dropOnce s then mkRun [] true (mkFake (replies s) (longCmds s) false) else
  match longCmds s !! Command r with
  | Some longLen =>
      match RepeatA longLen with
      | Some body => mkRun [CallWriteString body] false s
      | None => mkRun [] true s
      end
  | None =>
      match replies s !! Command r with
      | Some reply => mkRun [CallWriteString reply] false s
      | None => mkRun [] false s
      end
  end.

(** The server [Start] builds: the password and the fake as its handler. *)
Definition fake_server (password : string) : Server fake :=
  mkServer "" (Some ServeRCON) password None 0.

(** A command configured with [HandleLong] runs without a panic and writes that
    many bytes, whatever single reply is configured for it too. *)
Lemma HandleLong_run cmd n ctx s :
  0 ≤ n → dropOnce s = false →
  let run := command_run ServeRCON ctx cmd (HandleLong cmd n s) in
  hr_panics run = false ∧ written run = replicate (Z.to_nat n) x41.
Proof.
  intros Hn Hd. unfold command_run, ServeRCON, RepeatA. cbn [dropOnce HandleLong Command longCmds].
  rewrite Hd, lookup_insert_eq. destruct (Z.ltb_spec n 0); [lia|]. split; [done|].
  unfold written. simpl. by rewrite bytes_of_string_of.
Qed.

(** An armed drop panics once, so the connection is dropped and the next command runs. *)
Lemma DropNext_run r s :
  hr_panics (ServeRCON r (DropNext s)) = true ∧ dropOnce (hr_next (ServeRCON r (DropNext s))) = false.
Proof. done. Qed.
