(* ===== verification/World.v ===== *)
(** * The client's side of the network: many connections and a clock

    [World] is what the code above [rcon.Conn] acts on: the clock, the sockets
    the program has been given so far (its heap: a [*rcon.Conn] or a [net.Conn]
    is an index into it, and closing or reading through one is seen by every
    holder of it) and the network's answers to the coming connection attempts.
    [DialContext] is [net.Dialer.DialContext] and [Dial] is [rcon.Dial].

    [Dialer] is what the client relies on of a dial function, its own or a
    caller's: a success hands over one fresh open socket, anything else none. *)

From S2P Require Import Prelude GoErrors GoIO GoNet Packet Options Conn.

Local Open Scope Z_scope.

(** ** State *)

(** A socket of the heap: bare, or wrapped in the [rcon.Conn] that reads it. *)
Inductive slot :=
  | SSock (nc : netConn)
  | SConn (c : Conn).

Definition slot_sock (s : slot) : netConn :=
  match s with SSock nc => nc | SConn c => sock c end.

Definition slot_closed (s : slot) : bool := nc_closed (slot_sock s).

(** The answer of the network to a connection attempt, at an absolute time. *)
Inductive dial_answer :=
  | Connects (t : Z) (arrivals : list (Z * arrival))
  | Refuses (t : Z) (e : error).

Record World := mkWorld {
  w_now : Z;
  w_slots : list slot;
  w_dials : list dial_answer
}.

Definition set_clock (t : Z) (w : World) : World := mkWorld t (w_slots w) (w_dials w).
Definition set_slots (l : list slot) (w : World) : World := mkWorld (w_now w) l (w_dials w).
Definition set_dials (l : list dial_answer) (w : World) : World := mkWorld (w_now w) (w_slots w) l.

(** Store slot [l] as its owner left it; its clock is the world's. *)
Definition put (l : nat) (s : slot) (w : World) : World :=
  set_clock (nc_now (slot_sock s)) (set_slots (<[l := s]> (w_slots w)) w).

(** ** Contexts *)

Definition earliest (a b : option Z) : option Z :=
  match a, b with
  | Some x, Some y => Some (Z.min x y)
  | Some x, None => Some x
  | None, b => b
  end.

(** [context.WithTimeout(ctx, d)] at time [now]. *)
Definition WithTimeout (ctx : Context) (d now : Z) : Context :=
  mkContext (earliest (ctx_deadline ctx) (Some (now + d))) (ctx_cancel ctx).

(** When and with what [ctx.Err()] the context is done. *)
Definition ctx_done (ctx : Context) : option (Z * error) :=
  match ctx_deadline ctx, ctx_cancel ctx with
  | Some d, Some c => Some (if c <? d then (c, ContextCanceled) else (d, ContextDeadlineExceeded))
  | Some d, None => Some (d, ContextDeadlineExceeded)
  | None, Some c => Some (c, ContextCanceled)
  | None, None => None
  end.

(** ** net.Dialer *)

(** [net]'s error for a dial that its context ended. *)
Definition dial_error (e : error) : error :=
  match e with
  | ContextDeadlineExceeded => OpError true NetTimeout
  | ContextCanceled => OpError false NetCanceled
  | e => OpError false e
  end.

Definition alloc (nc : netConn) (w : World) : World :=
  set_slots (w_slots w ++ [SSock nc]) w.

(** [(&net.Dialer{Timeout: timeout}).DialContext(ctx, "tcp", address)]: a
    non-zero timeout and the context's deadline both bound the attempt. The
    address only selects the peer, which is what [w_dials] stands for: the
    theorems quantify over every sequence of answers. *)
Definition DialContext (timeout : Z) (ctx : Context) : GoM World (result nat) := λ w,
  let ctx := if timeout =? 0 then ctx else WithTimeout ctx timeout (w_now w) in
  let expire t e w := Ret (Err (dial_error e)) (set_clock (Z.max (w_now w) t) w) in
  match w_dials w with
  | [] =>
      match ctx_done ctx with
      | None => Blocks w
      | Some (t, e) => expire t e w
      end
  | a :: dials =>
      let w := set_dials dials w in
      let answer :=
        match a with
        | Connects t l =>
            let t := Z.max (w_now w) t in
            Ret (Ok (length (w_slots w))) (alloc (new_netConn l t) (set_clock t w))
        | Refuses t e =>
            let t := Z.max (w_now w) t in Ret (Err (OpError false e)) (set_clock t w)
        end in
      let t := Z.max (w_now w) (match a with Connects t _ | Refuses t _ => t end) in
      match ctx_done ctx with
      | None => answer
      | Some (d, e) => if t <? d then answer else expire d e w
      end
  end.

(** ** Operations on a slot *)

(** Wrap slot [l] with [rcon.open]; the socket stays with the caller. *)
Definition open_slot (ctx : Context) (l : nat) (password : string) (set : settings) :
    GoM World (result unit) := λ w,
  match w_slots w !! l with
  | Some s =>
      match open ctx (set_now (w_now w) (slot_sock s)) password set with
      | Ret r c => Ret r (put l (SConn c) w)
      | Blocks c => Blocks (put l (SConn c) w)
      | Diverges => Diverges
      end
  | None => Diverges
  end.

(** [nc.Close()] on the socket of slot [l]. *)
Definition close_slot (l : nat) : GoM World (result unit) := λ w,
  match w_slots w !! l with
  | Some (SSock nc) =>
      zoom (λ _, nc) (λ nc w, set_slots (<[l := SSock nc]> (w_slots w)) w) CloseConn w
  | Some (SConn c) =>
      zoom (λ _, sock c) (λ nc w, set_slots (<[l := SConn (set_sock nc c)]> (w_slots w)) w) CloseConn w
  | None => Diverges
  end.

(** A method of the [*rcon.Conn] at [l]. *)
Definition on_conn {A} (l : nat) (m : GoM Conn A) : GoM World A := λ w,
  match w_slots w !! l with
  | Some (SConn c) =>
      match m (set_sock (set_now (w_now w) (sock c)) c) with
      | Ret a c => Ret a (put l (SConn c) w)
      | Blocks c => Blocks (put l (SConn c) w)
      | Diverges => Diverges
      end
  | _ => Diverges
  end.

(** ** rcon.Dial *)

Definition Dial (ctx : Context) (address password : string) (opts : list Option) :
    GoM World (result nat) :=
  let set := newSettings opts in
  try l <- DialContext (dialTimeout set) ctx;
  do r <- open_slot ctx l password set;
  match r with
  | Err err => do _ <- close_slot l; ret (Err err)
  | Ok _ => ret (Ok l)
  end.

(** ** The dialer interface *)

(** [DialFunc] of rconclient/options.go; [None] is a nil connection. *)
Definition DialFunc : Type := Context → string → GoM World (result (option nat)).

(** A success hands over one fresh open socket, anything else none. *)
Class Dialer (d : DialFunc) : Prop :=
  dial_fresh ctx address w r w' :
    d ctx address w = Ret r w' →
    match r with
    | Ok (Some l) => l = length (w_slots w) ∧
        ∃ nc, w_slots w' = w_slots w ++ [SSock nc] ∧ nc_closed nc = false
    | _ => w_slots w' = w_slots w
    end.

(** The dialer honours its context's deadline. *)
Class TimelyDialer (d : DialFunc) : Prop :=
  dial_timely ctx address w t :
    ctx_deadline ctx = Some t →
    ∃ r w', d ctx address w = Ret r w' ∧ w_now w ≤ w_now w' ≤ Z.max (w_now w) t.

(** The dialer gives up by itself, also under a context that never ends. *)
Class ReturningDialer (d : DialFunc) : Prop :=
  dial_returns ctx address w : ∃ r w', d ctx address w = Ret r w'.

(** Plain TCP as a dialer. *)
Definition tcp (timeout : Z) : DialFunc := λ ctx _,
  try l <- DialContext timeout ctx; ret (Ok (Some l)).

#[export] Instance tcp_Dialer timeout : Dialer (tcp timeout).
Proof.
  intros ctx address w r w' (r1 & w1 & HD & HE)%bind_inv. unfold DialContext in HD.
  repeat case_match; simplify_eq; unfold ret in HE; simplify_eq; simpl; try done;
    (split; [done|]); by eexists.
Qed.

Lemma ctx_done_deadline ctx t :
  ctx_deadline ctx = Some t → ∃ d e, ctx_done ctx = Some (d, e) ∧ d ≤ t.
Proof.
  unfold ctx_done. intros ->. destruct (ctx_cancel ctx) as [c|]; [|by eexists _, _].
  destruct (Z.ltb_spec c t); eexists _, _; (split; [done|lia]).
Qed.

Lemma WithTimeout_deadline ctx d now :
  ∃ t, ctx_deadline (WithTimeout ctx d now) = Some t ∧ t ≤ now + d.
Proof. simpl. destruct (ctx_deadline ctx); eexists; (split; [done|]); lia. Qed.

Lemma DialContext_timely timeout ctx w t :
  ctx_deadline ctx = Some t →
  ∃ r w', DialContext timeout ctx w = Ret r w' ∧ w_now w ≤ w_now w' ≤ Z.max (w_now w) t.
Proof.
  intros Hd. unfold DialContext.
  set (ctx' := if timeout =? 0 then ctx else WithTimeout ctx timeout (w_now w)).
  assert (∃ d e, ctx_done ctx' = Some (d, e) ∧ d ≤ t) as (d & e & -> & Hle).
  { unfold ctx'. destruct (timeout =? 0); [by apply ctx_done_deadline|].
    destruct (ctx_done_deadline (WithTimeout ctx timeout (w_now w)) (Z.min t (w_now w + timeout)))
      as (d & e & Hde & ?); [simpl; by rewrite Hd|].
    exists d, e. split; [done|lia]. }
  destruct (w_dials w) as [|a l]; [eexists _, _; split; [done|simpl; lia]|].
  destruct (Z.ltb_spec (Z.max (w_now (set_dials l w)) (match a with Connects t _ | Refuses t _ => t end)) d)
    as [Hlt|Hge].
  - destruct a; eexists _, _; (split; [done|]); simpl in *; lia.
  - eexists _, _. split; [done|]. simpl in *. lia.
Qed.

#[export] Instance tcp_TimelyDialer timeout : TimelyDialer (tcp timeout).
Proof.
  intros ctx address w t Hd. destruct (DialContext_timely timeout ctx w t Hd) as ([l|e] & w' & HD & Ht);
    unfold tcp; rewrite (bind_Ret _ _ _ _ _ HD); by eexists _, _.
Qed.

(** A TCP dialer with a timeout of its own always comes back. *)
Lemma tcp_ReturningDialer timeout : timeout ≠ 0 → ReturningDialer (tcp timeout).
Proof.
  intros Hne ctx address w.
  assert (DialContext timeout ctx w = DialContext 0 (WithTimeout ctx timeout (w_now w)) w) as HE.
  { unfold DialContext. by destruct (Z.eqb_spec timeout 0). }
  destruct (WithTimeout_deadline ctx timeout (w_now w)) as (t & Ht & _).
  destruct (DialContext_timely 0 _ w t Ht) as (r & w' & HD & _). rewrite <- HE in HD.
  unfold tcp. rewrite (bind_Ret _ _ _ _ _ HD). destruct r; by eexists _, _.
Qed.
