(* ===== verification/Client.v ===== *)
(** * rconclient: the client, its retries and its sessions

    [Client] with its options, [dial], [executeOnce], [Execute] and its retry
    loop, [isRetryable], [ExponentialBackoff], and [Session]. Everything acts on
    [World]; the logger is left out. A backoff function may panic ([None]), and
    [Execute] then does: [ended] is how a call ends. When a backoff timer and the
    context fire at the same instant, Go's [select] may take either; [tie] is its
    choice. *)

From S2P Require Import Prelude GoErrors GoIO GoNet Packet Options Conn World.

Local Open Scope Z_scope.

(** ** Configuration *)

Definition DefaultTimeout : Z := 10 * Second.
Definition DefaultDialTimeout : Z := 5 * Second.

(** The delay before retry attempt [n]; [None] is a panic. *)
Definition BackoffFunc : Type := Z → option Z.

Record Client := mkClient {
  timeout : Z;
  dialTimeout : Z;
  attempts : Z;
  backoff : option BackoffFunc;
  dialer : option DialFunc;
  singlePacket : bool;
  idleDrain : bool;
  idleWindow : Z
}.

Definition Option : Type := Client → Client.

Definition WithTimeout (d : Z) : Option := λ c,
  mkClient d (dialTimeout c) (attempts c) (backoff c) (dialer c) (singlePacket c) (idleDrain c) (idleWindow c).
Definition WithDialTimeout (d : Z) : Option := λ c,
  mkClient (timeout c) d (attempts c) (backoff c) (dialer c) (singlePacket c) (idleDrain c) (idleWindow c).
Definition WithRetry (n : Z) (b : option BackoffFunc) : Option := λ c,
  mkClient (timeout c) (dialTimeout c) n b (dialer c) (singlePacket c) (idleDrain c) (idleWindow c).
Definition WithDialer (d : DialFunc) : Option := λ c,
  mkClient (timeout c) (dialTimeout c) (attempts c) (backoff c) (Some d) (singlePacket c) (idleDrain c) (idleWindow c).
Definition WithSinglePacket : Option := λ c,
  mkClient (timeout c) (dialTimeout c) (attempts c) (backoff c) (dialer c) true (idleDrain c) (idleWindow c).
Definition WithReadUntilIdle (window : Z) : Option := λ c,
  mkClient (timeout c) (dialTimeout c) (attempts c) (backoff c) (dialer c) (singlePacket c) true window.

Definition New (opts : list Option) : Client :=
  fold_left (λ c opt, opt c) opts
    (mkClient DefaultTimeout DefaultDialTimeout 1 None None false false 0).

(** ** Retry policy *)

(** [rand.Int64N(n)] panics for [n <= 0]; [draw n] is the number it draws. *)
Definition Int64N (draw : Z → Z) (n : Z) : option Z :=
  if n <=? 0 then None else Some (draw n).

(** [x << k] on [int64]. *)
Definition shl64 (x k : Z) : Z := if 64 <=? k then 0 else int64 (Z.shiftl x k).

(** [draw] is indexed by the attempt: each call draws anew. *)
Definition ExponentialBackoff (draw : Z → Z → Z) (base max : Z) : BackoffFunc := λ attempt,
  let attempt := if attempt <? 1 then 1 else attempt in
  let d := shl64 base (attempt - 1) in
  let d := if (max <? d) || (d <=? 0) then max else d in
  Int64N (draw attempt) (int64 (d + 1)).

(** [isRetryable] of a non-nil error. *)
Definition isRetryable (err : error) : bool :=
  if Is err ErrAuthFailed || Is err ErrCommandEmpty || Is err ErrCommandTooLong then false
  else if Is err EOF then true
  else match AsNetError err with Some _ => true | None => false end.

(** ** Operations *)

Definition errNilConn : error :=
  ErrorString "rconclient: dialer returned a nil connection with no error".

(** The connection options [dial] passes to [rcon]. *)
Definition dial_opts (c : Client) : list Options.Option :=
  if idleDrain c then [Options.WithReadUntilIdle (idleWindow c)]
  else if singlePacket c then [Options.WithSinglePacket]
  else [].

Definition dial (c : Client) (ctx : Context) (address password : string) : GoM World (result nat) :=
  let opts := dial_opts c in
  match dialer c with
  | Some d =>
      try nc <- d ctx address;
      match nc with
      | None => ret (Err errNilConn)
      | Some l =>
          do r <- open_slot ctx l password (newSettings opts);
          match r with
          | Err err => do _ <- close_slot l; ret (Err err)
          | Ok _ => ret (Ok l)
          end
      end
  | None => Dial ctx address password (Options.WithDialTimeout (dialTimeout c) :: opts)
  end.

Definition executeOnce (c : Client) (ctx : Context) (address password command : string) :
    GoM World (result string) :=
  try conn <- dial c ctx address password;
  do out <- on_conn conn (Conn.Execute ctx command);
  do _ <- on_conn conn Conn.Close;
  ret out.

(** The context of a call: bounded by the client's timeout when it is set. *)
Definition call_ctx (c : Client) (ctx : Context) (now : Z) : Context :=
  if 0 <? timeout c then World.WithTimeout ctx (timeout c) now else ctx.

(** How a call ends. *)
Inductive ended (A : Type) :=
  | Returned (r : A)
  | Panicked.
Arguments Returned {A} r.
Arguments Panicked {A}.

Section Execute.
Context (tie : Z → bool) (c : Client) (address password command : string).

(** [select { case <-time.After(d): case <-ctx.Done(): return "", ctx.Err() }]:
    [None] when the timer was taken. *)
Definition sleep (ctx : Context) (d : Z) : GoM World (option error) := λ w,
  let wake := Z.max (w_now w) (w_now w + d) in
  match ctx_done ctx with
  | None => Ret None (set_clock wake w)
  | Some (t, e) =>
      let t := Z.max (w_now w) t in
      if (wake <? t) || ((wake =? t) && tie wake) then Ret None (set_clock wake w)
      else Ret (Some e) (set_clock t w)
  end.

(** The loop over [attempt], with [n] the attempts left after this one. *)
Fixpoint attempt_loop (n : nat) (ctx : Context) (attempt : Z) : GoM World (ended (result string)) :=
  do r <- executeOnce c ctx address password command;
  match r with
  | Ok out => ret (Returned (Ok out))
  | Err err =>
      if negb (isRetryable err) then ret (Returned (Err err)) else
      match n with
      | 0%nat => ret (Returned (Err err))
      | S n' =>
          match backoff c with
          | None => attempt_loop n' ctx (attempt + 1)
          | Some b =>
              match b attempt with
              | None => ret Panicked
              | Some d =>
                  do woken <- sleep ctx d;
                  match woken with
                  | Some err => ret (Returned (Err err))
                  | None => attempt_loop n' ctx (attempt + 1)
                  end
              end
          end
      end
  end.

Definition Execute (ctx : Context) : GoM World (ended (result string)) := λ w,
  let ctx := call_ctx c ctx (w_now w) in
  let attempts := if attempts c <? 1 then 1 else attempts c in
  attempt_loop (Z.to_nat (attempts - 1)) ctx 1 w.
End Execute.

(** The client and the helper of the package level. *)
Definition DefaultClient : Client := New [].
Definition Execute_default (tie : Z → bool) (ctx : Context) (address password command : string) :
    GoM World (ended (result string)) :=
  Execute tie DefaultClient address password command ctx.

(** ** Sessions *)

Record Session := mkSession {
  s_client : Client;
  s_address : string;
  s_password : string;
  s_conn : nat
}.

Definition set_conn (l : nat) (s : Session) : Session :=
  mkSession (s_client s) (s_address s) (s_password s) l.

Definition DialSession (c : Client) (ctx : Context) (address password : string) :
    GoM World (result Session) :=
  try conn <- dial c ctx address password;
  ret (Ok (mkSession c address password conn)).

(** [Session.Execute] over the session and the world. *)
Definition SessionM : Type → Type := GoM (Session * World).
Definition on_world {A} (m : GoM World A) : SessionM A :=
  zoom snd (λ w sw, (sw.1, w)) m.

Definition SessionExecute (ctx : Context) (command : string) : SessionM (result string) :=
  do s <- gets fst;
  do now <- on_world (gets w_now);
  let ctx := call_ctx (s_client s) ctx now in
  do r <- on_world (on_conn (s_conn s) (Conn.Execute ctx command));
  match r with
  | Ok out => ret (Ok out)
  | Err err =>
      if negb (isRetryable err) then ret (Err err) else
      do _ <- on_world (on_conn (s_conn s) Conn.Close);
      do conn <- on_world (dial (s_client s) ctx (s_address s) (s_password s));
      match conn with
      | Err derr => ret (Err derr)
      | Ok l =>
          do _ <- modify (λ sw, (set_conn l sw.1, sw.2));
          on_world (on_conn l (Conn.Execute ctx command))
      end
  end.

Definition SessionClose : SessionM (result unit) :=
  do s <- gets fst;
  on_world (on_conn (s_conn s) Conn.Close).
