(* ===== verification/ClientProps.v ===== *)
(** * Properties of the client

    Lemmas on the heap of sockets, and the theorems about [Client.Execute] (no
    connection leaks, the call is bounded by the client's timeout, which attempts
    are made and which outcome is returned), [ExponentialBackoff] and [Session]. *)

From S2P Require Import Prelude GoErrors GoIO GoNet Packet Options Conn ConnProps World Client.

Local Open Scope Z_scope.

(** ** One way to connect *)

(** What [dial] does, whoever establishes the socket. *)
Definition connect (d : DialFunc) (set : settings) (ctx : Context) (address password : string) :
    GoM World (result nat) :=
  try nc <- d ctx address;
  match nc with
  | None => ret (Err errNilConn)
  | Some l =>
      do r <- open_slot ctx l password set;
      match r with
      | Err err => do _ <- close_slot l; ret (Err err)
      | Ok _ => ret (Ok l)
      end
  end.

Definition transport (c : Client) : DialFunc :=
  match dialer c with Some d => d | None => tcp (Client.dialTimeout c) end.

Definition client_settings (c : Client) : settings :=
  newSettings match dialer c with
              | Some _ => dial_opts c
              | None => Options.WithDialTimeout (Client.dialTimeout c) :: dial_opts c
              end.

Lemma dial_connect c ctx address password w :
  dial c ctx address password w = connect (transport c) (client_settings c) ctx address password w.
Proof.
  unfold dial, connect, transport, client_settings. destruct (dialer c); [done|].
  unfold Dial, tcp. set (st := newSettings _).
  assert (Options.dialTimeout st = Client.dialTimeout c) as ->.
  { unfold st, dial_opts. by destruct (idleDrain c), (singlePacket c). }
  unfold bind, ret. destruct (DialContext _ _ w) as [[l|e] w'| |]; done.
Qed.

(** The connection's read mode is the client's. *)
Lemma client_mode c :
  mode (client_settings c) =
    if idleDrain c then readIdle else if singlePacket c then readSingle else readMulti.
Proof.
  unfold client_settings, dial_opts.
  destruct (dialer c), (idleDrain c), (singlePacket c); try done;
    simpl; unfold newSettings; simpl; by case_match.
Qed.

(** ** The heap *)

(** Nothing older than the call changed, and what the call added is closed. *)
Definition leaves_closed (w w' : World) : Prop :=
  ∃ new, w_slots w' = w_slots w ++ new ∧ Forall (λ s, slot_closed s = true) new.

#[export] Instance leaves_closed_preorder : PreOrder leaves_closed.
Proof.
  split.
  - intros w. exists []. by rewrite app_nil_r.
  - intros w1 w2 w3 (n1 & H1 & F1) (n2 & H2 & F2). exists (n1 ++ n2).
    rewrite H2, H1, app_assoc. split; [done|by apply Forall_app].
Qed.

Lemma leaves_closed_same w w' : w_slots w' = w_slots w → leaves_closed w w'.
Proof. intros H. exists []. by rewrite H, app_nil_r. Qed.

(** [w'] is [w] with one more slot. *)
Definition grown (w w' : World) (s : slot) : Prop := w_slots w' = w_slots w ++ [s].

Lemma grown_lookup w w' s : grown w w' s → w_slots w' !! length (w_slots w) = Some s.
Proof. intros ->. by rewrite list_lookup_middle. Qed.

Lemma grown_put w w' s s' :
  grown w w' s → grown w (put (length (w_slots w)) s' w') s'.
Proof.
  unfold grown. intros H. simpl. rewrite H.
  by rewrite insert_app_r_alt, Nat.sub_diag by lia.
Qed.

Lemma grown_closed w w' s : grown w w' s → slot_closed s = true → leaves_closed w w'.
Proof. intros H Hs. exists [s]. split; [done|by constructor]. Qed.

Lemma CloseConn_closes nc : ∃ r nc', CloseConn nc = Ret r nc' ∧ nc_closed nc' = true ∧ nc_now nc' = nc_now nc.
Proof. unfold CloseConn. destruct (nc_closed nc) eqn:?; by eexists _, _. Qed.

Lemma close_slot_spec l s w :
  w_slots w !! l = Some s →
  ∃ r s', close_slot l w = Ret r (set_slots (<[l := s']> (w_slots w)) w) ∧ slot_closed s' = true.
Proof.
  intros Hs. unfold close_slot. rewrite Hs.
  destruct (CloseConn_closes (slot_sock s)) as (r & nc' & HC & Hc & _).
  destruct s as [nc|c]; unfold zoom; simpl in HC; rewrite HC; eexists _, _; (split; [done|]); exact Hc.
Qed.

Lemma Conn_Close_spec c :
  ∃ r c', Conn.Close c = Ret r c' ∧ closed c' = true ∧ nc_closed (sock c') = true ∧
          nc_now (sock c') = nc_now (sock c) ∧ set c' = set c.
Proof.
  unfold Conn.Close, modify, bind, zoom.
  destruct (CloseConn_closes (sock (set_closed c))) as (r & nc' & -> & Hc & Ht).
  by eexists _, _.
Qed.

Lemma on_conn_Ret {A} l (m : GoM Conn A) w c a c' :
  w_slots w !! l = Some (SConn c) →
  m (set_sock (set_now (w_now w) (sock c)) c) = Ret a c' →
  on_conn l m w = Ret a (put l (SConn c') w).
Proof. intros Hl Hm. unfold on_conn. by rewrite Hl, Hm. Qed.

Lemma on_conn_inv {A} l (m : GoM Conn A) w c a w' :
  w_slots w !! l = Some (SConn c) → on_conn l m w = Ret a w' →
  ∃ c', m (set_sock (set_now (w_now w) (sock c)) c) = Ret a c' ∧ w' = put l (SConn c') w.
Proof. intros Hl. unfold on_conn. rewrite Hl. case_match; naive_solver. Qed.

(** ** Connecting *)

Lemma open_slot_inv ctx l password st w s r w' :
  w_slots w !! l = Some s → open_slot ctx l password st w = Ret r w' →
  ∃ c, open ctx (set_now (w_now w) (slot_sock s)) password st = Ret r c ∧ w' = put l (SConn c) w.
Proof. intros Hl. unfold open_slot. rewrite Hl. case_match; naive_solver. Qed.

(** A successful [connect] adds one connection with the given settings; a failed
    one leaves no open socket. *)
Lemma connect_inv d `{!Dialer d} st ctx address password w r w' :
  connect d st ctx address password w = Ret r w' →
  match r with
  | Ok l => l = length (w_slots w) ∧ ∃ c, grown w w' (SConn c) ∧ set c = st
  | Err _ => leaves_closed w w'
  end.
Proof.
  intros ([[l|]|e] & w1 & HD & HK)%bind_inv; apply dial_fresh in HD; cycle 1;
    [unfold ret in HK; simplify_eq; by apply leaves_closed_same..|].
  destruct HD as (-> & nc & Hg & Hnc). change (grown w w1 (SSock nc)) in Hg.
  apply bind_inv in HK as (r1 & w2 & HO & HK).
  apply (open_slot_inv _ _ _ _ _ _ _ _ (grown_lookup _ _ _ Hg)) in HO as (c & HO & ->).
  apply (grown_put _ _ _ (SConn c)) in Hg. set (w2 := put _ _ w1) in *.
  destruct r1 as [u|e]; [unfold ret in HK; simplify_eq|].
  - split; [done|]. exists c. split; [done|]. by eapply open_settings.
  - destruct (close_slot_spec _ _ _ (grown_lookup _ _ _ Hg)) as (r2 & s' & HC & Hs').
    rewrite (bind_Ret _ _ _ _ _ HC) in HK. unfold ret in HK. simplify_eq.
    eapply grown_closed, Hs'. exact (grown_put _ _ _ s' Hg).
Qed.

Lemma effective_deadline_ctx ctx op now t :
  ctx_deadline ctx = Some t → ∃ d, effective_deadline ctx op now = Some d ∧ d ≤ t.
Proof.
  unfold effective_deadline. intros ->. repeat case_match; simplify_eq; eexists; (split; [done|]); lia.
Qed.

(** The call returns, and not after [t]. *)
Definition prompt {A} (t : Z) (o : outcome World A) (w : World) : Prop :=
  ∃ r w', o = Ret r w' ∧ w_now w ≤ w_now w' ≤ Z.max (w_now w) t.

Lemma prompt_ret {A} t (a : A) w w' :
  w_now w ≤ w_now w' ≤ Z.max (w_now w) t → prompt t (ret a w') w.
Proof. intros. by exists a, w'. Qed.

Lemma prompt_bind {A B} t (m : GoM World A) (k : A → GoM World B) w :
  prompt t (m w) w →
  (∀ a w', m w = Ret a w' → w_now w ≤ w_now w' ≤ Z.max (w_now w) t → prompt t (k a w') w') →
  prompt t (bind m k w) w.
Proof.
  intros (a & w1 & HM & Ht) Hk. rewrite (bind_Ret _ _ _ _ _ HM).
  destruct (Hk a w1 HM Ht) as (b & w2 & -> & Ht2). exists b, w2. split; [done|lia].
Qed.

(** From a dial that has come back, the handshake ends by its own deadline. *)
Lemma connect_after d `{!Dialer d} st ctx address password w r1 w1 t :
  d ctx address w = Ret r1 w1 → effective_deadline ctx (deadline st) (w_now w1) = Some t →
  ∃ r w', connect d st ctx address password w = Ret r w' ∧ w_now w1 ≤ w_now w' ≤ Z.max (w_now w1) t.
Proof.
  intros HD Hd1. unfold connect. rewrite (bind_Ret _ _ _ _ _ HD).
  destruct r1 as [[l|]|e]; [|apply prompt_ret; lia..].
  apply dial_fresh in HD as (-> & nc & Hg & _). pose proof (grown_lookup _ _ _ Hg) as Hl.
  destruct (open_timely ctx (set_now (w_now w1) nc) password st t Hd1) as (r & c & HO & Htc).
  apply prompt_bind.
  - exists r, (put (length (w_slots w)) (SConn c) w1). unfold open_slot. rewrite Hl. simpl slot_sock.
    rewrite HO. split; [done|]. simpl in *. lia.
  - intros r' w2 HO' Hn2. destruct r'; [apply prompt_ret; lia|].
    apply (open_slot_inv _ _ _ _ _ _ _ _ Hl) in HO' as (c' & _ & ->).
    apply (grown_put _ _ _ (SConn c')) in Hg.
    destruct (close_slot_spec _ _ _ (grown_lookup _ _ _ Hg)) as (r2 & s' & HC & _).
    apply prompt_bind; [|intros; apply prompt_ret; lia].
    rewrite HC. eexists _, _. split; [done|]. simpl. lia.
Qed.

Lemma connect_prompt d `{!Dialer d} `{!TimelyDialer d} st ctx address password w t :
  ctx_deadline ctx = Some t → prompt t (connect d st ctx address password w) w.
Proof.
  intros Ht. destruct (dial_timely ctx address w t Ht) as (r1 & w1 & HD & Hn1).
  destruct (effective_deadline_ctx ctx (deadline st) (w_now w1) t Ht) as (d1 & Hd1 & Hle).
  destruct (connect_after d st ctx address password w r1 w1 d1 HD Hd1) as (r & w' & HC & Hn).
  exists r, w'. split; [done|lia].
Qed.

(** ** One attempt *)

Section Client.
Context (tie : Z → bool) (c : Client) (address password command : string) `{!Dialer (transport c)}.
Implicit Types (w : World) (ctx : Context).

Lemma executeOnce_closes ctx w r w' :
  executeOnce c ctx address password command w = Ret r w' → leaves_closed w w'.
Proof.
  intros ([l|e] & w1 & HD & HK)%bind_inv; rewrite dial_connect in HD; apply connect_inv in HD; [|done| |done].
  - destruct HD as (-> & cn & Hg & _).
    apply bind_inv in HK as (out & w2 & HE & HK).
    apply (on_conn_inv _ _ _ _ _ _ (grown_lookup _ _ _ Hg)) in HE as (cn2 & _ & ->).
    apply (grown_put _ _ _ (SConn cn2)) in Hg.
    apply bind_inv in HK as (rc & w3 & HC & HK).
    apply (on_conn_inv _ _ _ _ _ _ (grown_lookup _ _ _ Hg)) in HC as (cn3 & HC & ->).
    apply (grown_put _ _ _ (SConn cn3)) in Hg.
    destruct (Conn_Close_spec (set_sock (set_now (w_now (put (length (w_slots w)) (SConn cn2) w1))
      (sock cn2)) cn2)) as (? & ? & HC' & _ & Hc & _).
    rewrite HC' in HC. unfold ret in HK. simplify_eq. by eapply grown_closed.
  - unfold ret in HK. by simplify_eq.
Qed.

Lemma attempt_loop_closes n ctx a w r w' :
  attempt_loop tie c address password command n ctx a w = Ret r w' → leaves_closed w w'.
Proof.
  assert (∀ ctx d w, match sleep tie ctx d w with
                     | Ret _ w' => leaves_closed w w' | _ => True end) as Hsleep.
  { intros ctx' d v. unfold sleep. repeat case_match; simplify_eq; by apply leaves_closed_same. }
  revert a w. induction n as [|n IH]; intros a w; cbn [attempt_loop];
    intros (r1 & w1 & HO%executeOnce_closes & HK)%bind_inv; etrans; try exact HO;
    repeat case_match; unfold ret in HK; simplify_eq; try done; try by eapply IH.
  apply bind_inv in HK as (s & w2 & HS & HK). specialize (Hsleep ctx z w1). rewrite HS in Hsleep.
  etrans; [exact Hsleep|]. destruct s; [by simplify_eq|by eapply IH].
Qed.

Context `{!TimelyDialer (transport c)}.

Lemma on_conn_Execute_prompt ctx l cn w t :
  w_slots w !! l = Some (SConn cn) → mode (set cn) ≠ readIdle → ctx_deadline ctx = Some t →
  prompt t (on_conn l (Conn.Execute ctx command) w) w.
Proof.
  intros Hl Hm Ht. set (cn' := set_sock (set_now (w_now w) (sock cn)) cn).
  destruct (effective_deadline_ctx ctx (deadline (set cn')) (w_now w) t Ht) as (d & Hd & Hle).
  destruct (Execute_timely ctx command cn' d Hm Hd) as (r & c' & HE & Hc).
  rewrite (on_conn_Ret _ _ _ _ _ _ Hl HE). eexists _, _. split; [done|].
  change (nc_now (sock cn')) with (w_now w) in Hc. simpl. lia.
Qed.

Lemma on_conn_Close_prompt l cn w t :
  w_slots w !! l = Some (SConn cn) → prompt t (on_conn l Conn.Close w) w.
Proof.
  intros Hl. set (cn' := set_sock (set_now (w_now w) (sock cn)) cn).
  destruct (Conn_Close_spec cn') as (r & c' & HC & _ & _ & Hn & _).
  rewrite (on_conn_Ret _ _ _ _ _ _ Hl HC). eexists _, _. split; [done|].
  change (nc_now (sock cn')) with (w_now w) in Hn. simpl. lia.
Qed.

Lemma executeOnce_prompt ctx w t :
  idleDrain c = false → ctx_deadline ctx = Some t →
  prompt t (executeOnce c ctx address password command w) w.
Proof.
  intros Hi Ht. unfold executeOnce. apply prompt_bind.
  { rewrite dial_connect. by apply connect_prompt. }
  intros [l|e] w1 HD Hn1; [|apply prompt_ret; lia].
  rewrite dial_connect in HD. apply connect_inv in HD as (-> & cn & Hg & Hset); [|done].
  apply prompt_bind.
  { eapply on_conn_Execute_prompt; [by eapply grown_lookup| |done].
    rewrite Hset, client_mode, Hi. by destruct (singlePacket c). }
  intros out w2 HE Hn2. apply (on_conn_inv _ _ _ _ _ _ (grown_lookup _ _ _ Hg)) in HE as (cn2 & _ & ->).
  apply (grown_put _ _ _ (SConn cn2)) in Hg.
  apply prompt_bind; [|intros; apply prompt_ret; lia].
  eapply on_conn_Close_prompt. by eapply grown_lookup.
Qed.

Lemma sleep_prompt ctx d w t :
  ctx_deadline ctx = Some t → prompt t (sleep tie ctx d w) w.
Proof.
  intros Ht. destruct (ctx_done_deadline _ _ Ht) as (t' & e & Hd & Hle).
  unfold sleep. rewrite Hd. case_match eqn:Hb; eexists _, _; (split; [done|]); simpl; [|lia].
  apply orb_true_iff in Hb as [Hb|[Hb _]%andb_true_iff]; reflect_bools; lia.
Qed.

Lemma attempt_loop_prompt n ctx a w t :
  idleDrain c = false → ctx_deadline ctx = Some t →
  prompt t (attempt_loop tie c address password command n ctx a w) w.
Proof.
  intros Hi Ht. revert a w. induction n as [|n IH]; intros a w; cbn [attempt_loop];
    (apply prompt_bind; [by apply executeOnce_prompt|]); intros [out|e] w1 _ Hn1;
    repeat case_match; try (apply prompt_ret; lia); try apply IH.
  apply prompt_bind; [by apply sleep_prompt|].
  intros [err|] w2 _ Hn2; [apply prompt_ret; lia|apply IH].
Qed.

End Client.

(** ** The retry policy as a relation *)

Section Policy.
(** One attempt, the errors worth another one, and the wait after attempt [a],
    which gives the context's error if the context ended first. *)
Context (attempt : World → result string → World → Prop) (worth : error → Prop).
Context (waits : Z → World → option error → World → Prop).

(** From attempt [a] on, the attempts failed with the errors [es], every one
    worth retrying, and each wait that followed ran its course. *)
Inductive failed_tries (a : Z) : World → list error → World → Prop :=
  | failed_nil w : failed_tries a w [] w
  | failed_snoc w es w1 e w2 w3 :
      failed_tries a w es w1 → attempt w1 (Err e) w2 → worth e →
      waits (a + Z.of_nat (length es)) w2 None w3 →
      failed_tries a w (es ++ [e]) w3.

(** The outcome of a call that may make [N] attempts: that of the first attempt
    that succeeds or fails for good, of the last one allowed, or the context's
    error when it ends during a wait. *)
Inductive concludes (N : nat) (a : Z) (w : World) (r : result string) (w' : World) : Prop :=
  | concludes_attempt es w1 :
      failed_tries a w es w1 → (length es < N)%nat → attempt w1 r w' →
      (∀ e, r = Err e → worth e → S (length es) = N) →
      concludes N a w r w'
  | concludes_stopped es w1 e w2 err :
      failed_tries a w es w1 → (S (length es) < N)%nat → attempt w1 (Err e) w2 →
      worth e → waits (a + Z.of_nat (length es)) w2 (Some err) w' → r = Err err →
      concludes N a w r w'.
End Policy.

(** *** The policy, stated without the code *)

(** [x] is in the tree of errors that [e] wraps. *)
Inductive wraps (x : error) : error → Prop :=
  | wraps_here : wraps x x
  | wraps_op t i : wraps x i → wraps x (OpError t i)
  | wraps_f1 msg i : wraps x i → wraps x (Errorf1 msg i)
  | wraps_left i j : wraps x i → wraps x (Errorf2 i j)
  | wraps_right i j : wraps x j → wraps x (Errorf2 i j).

(** The connection ended or the network failed: [io.EOF] and the types that are
    [net.Error]s. *)
Definition transport_error (x : error) : Prop :=
  x = EOF ∨ (∃ t i, x = OpError t i) ∨ x = OsErrDeadlineExceeded ∨ x = ContextDeadlineExceeded ∨
  x = NetTimeout ∨ x = NetErrClosed.

(** A refused password and commands that can never be sent. *)
Definition permanent_error (x : error) : Prop :=
  x = ErrAuthFailed ∨ x = ErrCommandEmpty ∨ x = ErrCommandTooLong.

(** Retried: failures of the transport, unless one of those is behind them. *)
Definition worth_retrying (e : error) : Prop :=
  (∃ x, wraps x e ∧ transport_error x) ∧ ¬ ∃ x, wraps x e ∧ permanent_error x.

Section PolicyOf.
Context (tie : Z → bool) (c : Client) (address password command : string) (ctx : Context).

(** One attempt: a new connection, the command on it, and the connection closed. *)
Inductive one_attempt : World → result string → World → Prop :=
  | attempt_undialed e w w' :
      dial c ctx address password w = Ret (Err e) w' → one_attempt w (Err e) w'
  | attempt_made l w w1 out w2 cerr w3 :
      dial c ctx address password w = Ret (Ok l) w1 →
      on_conn l (Conn.Execute ctx command) w1 = Ret out w2 →
      on_conn l Conn.Close w2 = Ret cerr w3 → one_attempt w out w3.

(** The wait after attempt [a]: none without a backoff function; otherwise the
    delay the function gives for [a] passes, unless the context ends earlier: then
    the wait ends there, with the context's error. At the same instant either may
    happen ([tie]). *)
Inductive backoff_wait (a : Z) : World → option error → World → Prop :=
  | wait_none w : backoff c = None → backoff_wait a w None w
  | wait_over b d w wake :
      backoff c = Some b → b a = Some d → wake = w_now w + Z.max 0 d →
      (∀ t e, ctx_done ctx = Some (t, e) → wake < Z.max (w_now w) t ∨ wake = Z.max (w_now w) t ∧ tie wake = true) →
      backoff_wait a w None (set_clock wake w)
  | wait_cut b d w t e stop :
      backoff c = Some b → b a = Some d → ctx_done ctx = Some (t, e) → stop = Z.max (w_now w) t →
      stop < w_now w + Z.max 0 d ∨ stop = w_now w + Z.max 0 d ∧ tie stop = false →
      backoff_wait a w (Some e) (set_clock stop w).

(** What a call with at most [N] attempts ends with. *)
Definition policy (N : nat) : World → result string → World → Prop :=
  concludes one_attempt worth_retrying backoff_wait N 1.
End PolicyOf.

#[local] Hint Constructors wraps : rcon.

Lemma Is_wraps e x : (∀ y, is_method y x = false) → Is e x = true ↔ wraps x e.
Proof.
  intros Hm. split.
  - induction e; cbn [Is]; rewrite Hm, ?orb_false_r, ?orb_true_iff, bool_decide_eq_true; intros Hx;
      repeat destruct Hx as [Hx|Hx]; subst; auto with rcon.
  - induction 1; [apply Is_refl|..]; cbn [Is]; by rewrite IHwraps, ?orb_true_r.
Qed.

Lemma AsNetError_wraps e :
  is_Some (AsNetError e) ↔ ∃ x, wraps x e ∧ transport_error x ∧ x ≠ EOF.
Proof.
  unfold transport_error. split.
  - induction e; cbn [AsNetError]; intros [t Ht]; try discriminate;
      try (eexists; split; [apply wraps_here|split; [|discriminate]]; by eauto 12).
    + destruct (IHe (mk_is_Some _ _ Ht)) as (x & Hx & ?). exists x. split; [by constructor|done].
    + destruct (AsNetError e1); [destruct IHe1 as (x & Hx & ?)|destruct IHe2 as (x & Hx & ?)];
        [by eexists|exists x; split; [by constructor|done]|by eexists|exists x; split; [by constructor|done]].
  - intros (x & Hx & Ht & Hne).
    induction Hx as [|t i _ IH|msg i _ IH|i j _ IH|i j _ IH]; cbn [AsNetError]; [|by eexists|done|..].
    + destruct Ht as [->|[(t & i & ->)|[->|[->|[->| ->]]]]]; cbn [AsNetError]; try done; by eexists.
    + destruct IH as [t ->]. by eexists.
    + destruct (AsNetError i); [by eexists|done].
Qed.

(** [isRetryable] decides what is worth retrying. *)
Lemma isRetryable_worth e : isRetryable e = true ↔ worth_retrying e.
Proof.
  assert (Is e ErrAuthFailed || Is e ErrCommandEmpty || Is e ErrCommandTooLong = true ↔
          ∃ x, wraps x e ∧ permanent_error x) as Hp.
  { rewrite !orb_true_iff, !Is_wraps by (by intros []). unfold permanent_error. naive_solver. }
  assert (Is e EOF = true ∨ is_Some (AsNetError e) ↔ ∃ x, wraps x e ∧ transport_error x) as Ht.
  { rewrite Is_wraps, AsNetError_wraps by (by intros []). split.
    - intros [?|(x & ? & ? & _)]; [exists EOF; split; [done|by left]|eauto].
    - intros (x & Hx & Hx'). destruct (decide (x = EOF)) as [->|]; [by left|right; eauto]. }
  unfold isRetryable, worth_retrying. rewrite <- Hp, <- Ht.
  destruct (Is e ErrAuthFailed || _ || _); [by split; [|intros [_ []]]|].
  destruct (Is e EOF); [by split; [split; [left|]|]|].
  destruct (AsNetError e); split; [by split; [right; eexists|]|done|done|by intros [[?|[? ?]] _]].
Qed.

(** *** The loop follows the policy *)

Lemma concludes_ext (at1 at2 : World → result string → World → Prop) (wo1 wo2 : error → Prop)
    (wt1 wt2 : Z → World → option error → World → Prop) N a w r w' :
  (∀ w r w', at1 w r w' ↔ at2 w r w') → (∀ e, wo1 e ↔ wo2 e) → (∀ a w o w', wt1 a w o w' ↔ wt2 a w o w') →
  concludes at1 wo1 wt1 N a w r w' → concludes at2 wo2 wt2 N a w r w'.
Proof.
  intros Ha Hw Ht. assert (∀ es v, failed_tries at1 wo1 wt1 a w es v → failed_tries at2 wo2 wt2 a w es v) as Hf.
  { induction 1 as [|w es w1 e w2 w3 _ IH ? ? ?]; [constructor|].
    econstructor; [exact IH|by apply Ha|by apply Hw|by apply Ht]. }
  intros [es v ? ? ? Hlast|es v e v2 err ? ? ? ? ? ?].
  - eapply concludes_attempt; [by apply Hf|done|by apply Ha|]. intros e He Hwe. by eapply Hlast, Hw.
  - eapply concludes_stopped; [by apply Hf|done|by apply Ha|by apply Hw|by apply Ht|done].
Qed.

Section Retry.
Context (tie : Z → bool) (c : Client) (address password command : string) (ctx : Context).
Local Abbreviation once := (executeOnce c ctx address password command).
Local Abbreviation attempt := (λ w r w', once w = Ret r w').
Local Abbreviation worth := (λ e, isRetryable e = true).

(** The wait the loop makes before attempt [a + 1]. *)
Inductive pause (a : Z) : World → option error → World → Prop :=
  | pause_none w : backoff c = None → pause a w None w
  | pause_sleep b d w stop w' :
      backoff c = Some b → b a = Some d → sleep tie ctx d w = Ret stop w' → pause a w stop w'.

Lemma once_attempt w r w' : once w = Ret r w' ↔ one_attempt c address password command ctx w r w'.
Proof.
  unfold executeOnce. split.
  - intros ([l|e] & w1 & HD & HK)%bind_inv.
    + apply bind_inv in HK as (out & w2 & HE & (cerr & w3 & HC & [= <- <-])%bind_inv). by eapply attempt_made.
    + injection HK as <- <-. by apply attempt_undialed.
  - destruct 1 as [e w w' HD|l w w1 out w2 cerr w3 HD HE HC]; rewrite (bind_Ret _ _ _ _ _ HD); [done|].
    by rewrite (bind_Ret _ _ _ _ _ HE), (bind_Ret _ _ _ _ _ HC).
Qed.

Lemma pause_wait a w o w' : pause a w o w' ↔ backoff_wait tie c ctx a w o w'.
Proof.
  split.
  - destruct 1 as [w Hb|b d w stop w' Hb Hd HS]; [by apply wait_none|]. unfold sleep in HS.
    replace (Z.max (w_now w) (w_now w + d)) with (w_now w + Z.max 0 d) in HS by lia.
    destruct (ctx_done ctx) as [[t e]|] eqn:Hc; [|injection HS as <- <-; apply (wait_over tie c ctx a b d); [done..|congruence]].
    case_match eqn:Ht; injection HS as <- <-.
    + apply (wait_over tie c ctx a b d); [done..|]. intros t' e' Hc'. rewrite Hc in Hc'. injection Hc' as <- <-.
      apply orb_true_iff in Ht as [?|[? ?]%andb_true_iff]; reflect_bools; [left; lia|right; split; [lia|done]].
    + apply (wait_cut tie c ctx a b d _ t); [done..|].
      apply orb_false_iff in Ht as [? [?|?]%andb_false_iff]; reflect_bools; [left; lia|].
      destruct (Z.eq_dec (Z.max (w_now w) t) (w_now w + Z.max 0 d)) as [E|]; [right; by rewrite E|left; lia].
  - destruct 1 as [w Hb|b d w wake Hb Hd Hw Ht|b d w t e stop Hb Hd Hc Hw Ht]; [by apply pause_none|..];
      apply (pause_sleep a b d); try done; unfold sleep;
      replace (Z.max (w_now w) (w_now w + d)) with (w_now w + Z.max 0 d) by lia.
    + rewrite <- Hw. destruct (ctx_done ctx) as [[t e]|]; [|done]. destruct (Ht t e eq_refl) as [Hlt|[Heq Htie]].
      * by rewrite (proj2 (Z.ltb_lt _ _) Hlt).
      * rewrite (proj2 (Z.eqb_eq _ _) Heq), Htie. by rewrite orb_true_r.
    + rewrite Hc, <- Hw. destruct Ht as [Hlt|[Heq Htie]].
      * rewrite (proj2 (Z.ltb_ge _ _)), (proj2 (Z.eqb_neq _ _)) by lia. done.
      * rewrite <- Heq, Z.ltb_irrefl, Z.eqb_refl, Htie. done.
Qed.

Local Abbreviation failed_tries := (failed_tries attempt worth pause).
Local Abbreviation concludes := (concludes attempt worth pause).

(** Putting a first failed attempt in front, and taking it off. *)
Lemma failed_tries_cons a w e w1 w2 es w3 :
  once w = Ret (Err e) w1 → isRetryable e = true → pause a w1 None w2 →
  failed_tries (a + 1) w2 es w3 → failed_tries a w (e :: es) w3.
Proof.
  intros Ho Hr Hp Hf. induction Hf as [w2|w2 es w4 e' w5 w6 _ IH Ho' Hr' Hp'].
  - change [e] with ([] ++ [e]). econstructor; [constructor|done..|].
    by replace (a + Z.of_nat (length [])) with a by (simpl; lia).
  - change (e :: es ++ [e']) with ((e :: es) ++ [e']). econstructor; [by apply IH|done..|].
    by replace (a + Z.of_nat (length (e :: es))) with (a + 1 + Z.of_nat (length es)) by (simpl; lia).
Qed.

Lemma failed_tries_uncons a w es w3 :
  failed_tries a w es w3 →
  match es with
  | [] => w3 = w
  | e :: es' => ∃ w1 w2, once w = Ret (Err e) w1 ∧ isRetryable e = true ∧ pause a w1 None w2 ∧
                         failed_tries (a + 1) w2 es' w3
  end.
Proof.
  induction 1 as [w|w es w1 e w2 w3 Hf IH Ho Hr Hp]; [done|].
  destruct es as [|e0 es]; simpl in *.
  - subst. exists w2, w3. rewrite Z.add_0_r in Hp. split_and!; [done..|constructor].
  - destruct IH as (v1 & v2 & Hv1 & Hv2 & Hv3 & Hf'). exists v1, v2. split_and!; try done.
    econstructor; [done..|]. by replace (a + 1 + Z.of_nat (length es)) with (a + Z.of_nat (S (length es))) by lia.
Qed.

Lemma concludes_cons N a w e w1 w2 r w' :
  once w = Ret (Err e) w1 → isRetryable e = true → pause a w1 None w2 →
  concludes N (a + 1) w2 r w' → concludes (S N) a w r w'.
Proof.
  intros Ho Hr Hp [es v Hf Hl Hv Hlast|es v e' v2 err Hf Hl Hv Hr' Hp' ->];
    pose proof (failed_tries_cons _ _ _ _ _ _ _ Ho Hr Hp Hf) as Hf'.
  - eapply concludes_attempt; [done|simpl; lia|done|]. intros e' He' Hre'. simpl. f_equal. by apply (Hlast e').
  - eapply concludes_stopped; [done|simpl; lia|done..| |done].
    by replace (a + Z.of_nat (length (e :: es))) with (a + 1 + Z.of_nat (length es)) by (simpl; lia).
Qed.

(** After a first failed attempt a conclusion is one of the rest, or a stop. *)
Lemma concludes_uncons N a w e w1 r w' :
  once w = Ret (Err e) w1 → isRetryable e = true → concludes (S (S N)) a w r w' →
  (∃ w2, pause a w1 None w2 ∧ concludes (S N) (a + 1) w2 r w') ∨
  (∃ err, pause a w1 (Some err) w' ∧ r = Err err).
Proof.
  intros Ho Hr Hc. inversion Hc as [es v Hf Hl Hv Hlast|es v e' v2 err Hf Hl Hv Hr' Hp' Hre];
    apply failed_tries_uncons in Hf; destruct es as [|e0 es]; subst.
  - rewrite Ho in Hv. injection Hv as <- <-. specialize (Hlast e eq_refl Hr). simpl in Hlast. lia.
  - destruct Hf as (v1 & v2 & Hv1 & Hv2 & Hv3 & Hf). rewrite Ho in Hv1. injection Hv1 as <- <-.
    left. exists v2. split; [done|]. eapply concludes_attempt; [done|simpl in *; lia|done|].
    intros e' He' Hre'. specialize (Hlast e' He' Hre'). simpl in Hlast. lia.
  - rewrite Ho in Hv. injection Hv as <- <-. right. exists err.
    split; [|done]. by replace (a + Z.of_nat (length [])) with a in Hp' by (simpl; lia).
  - destruct Hf as (v1 & v3 & Hv1 & Hv2 & Hv3 & Hf). rewrite Ho in Hv1. injection Hv1 as <- <-.
    left. exists v3. split; [done|]. eapply concludes_stopped; [done|simpl in *; lia|done..| |done].
    by replace (a + 1 + Z.of_nat (length es)) with (a + Z.of_nat (length (e :: es))) by (simpl; lia).
Qed.

(** A first attempt that decides the call. *)
Lemma concludes_first N a w r1 w1 r w' :
  once w = Ret r1 w1 → (∀ e, r1 = Err e → isRetryable e = true → N = 0%nat) →
  concludes (S N) a w r w' ↔ r = r1 ∧ w' = w1.
Proof.
  intros Ho Hd. split.
  - intros [es v Hf Hl Hv _|es v e' v2 err Hf Hl Hv Hr' _ _];
      apply failed_tries_uncons in Hf; destruct es as [|e0 es].
    + subst v. rewrite Ho in Hv. by simplify_eq.
    + destruct Hf as (v1 & v2 & Hv1 & Hv2 & _). rewrite Ho in Hv1. injection Hv1 as -> ->.
      specialize (Hd _ eq_refl Hv2). simpl in *. lia.
    + subst v. rewrite Ho in Hv. injection Hv as -> ->. specialize (Hd _ eq_refl Hr'). simpl in *. lia.
    + destruct Hf as (v1 & v3 & Hv1 & Hv2 & _). rewrite Ho in Hv1. injection Hv1 as -> ->.
      specialize (Hd _ eq_refl Hv2). simpl in *. lia.
  - intros [-> ->]. eapply concludes_attempt; [constructor|simpl; lia|done|].
    intros e He Hr. simpl. f_equal. symmetry. by apply (Hd e).
Qed.

(** A call concludes only if its first attempt returns. *)
Lemma concludes_once N a w r w' : concludes N a w r w' → ∃ r1 w1, once w = Ret r1 w1.
Proof.
  intros [es v Hf _ Hv _|es v e' v2 err Hf _ Hv _ _ _]; apply failed_tries_uncons in Hf;
    (destruct es; [subst; by eexists _, _|destruct Hf as (? & ? & ? & _); by eexists _, _]).
Qed.

Lemma attempt_loop_concludes n a w r w' :
  attempt_loop tie c address password command n ctx a w = Ret (Returned r) w' ↔
  concludes (S n) a w r w'.
Proof.
  revert a w. induction n as [|n IH]; intros a w; cbn [attempt_loop]; unfold bind at 1;
    (destruct (once w) as [[out|e] w1|w1|] eqn:Ho;
      [rewrite (concludes_first _ _ _ _ _ _ _ Ho) by done; unfold ret; split; [by intros [= <- <-]|by intros [-> ->]]
      | |split; [done|]; intros (? & ? & ?)%concludes_once; congruence..]).
  all: destruct (isRetryable e) eqn:Hr; cbn [negb];
    [|rewrite (concludes_first _ _ _ _ _ _ _ Ho) by congruence; unfold ret; split; [by intros [= <- <-]|by intros [-> ->]]].
  { rewrite (concludes_first _ _ _ _ _ _ _ Ho) by done. unfold ret. split; [by intros [= <- <-]|by intros [-> ->]]. }
  split.
  - intros HL. destruct (backoff c) as [b|] eqn:Hb.
    + destruct (b a) as [d|] eqn:Hd; [|done]. apply bind_inv in HL as ([err|] & w2 & HS & HL).
      * unfold ret in HL. simplify_eq. eapply (concludes_stopped _ _ _ _ _ _ _ _ [] w);
          [constructor|simpl; lia|done..| |done].
        replace (a + Z.of_nat (length [])) with a by (simpl; lia). by eapply pause_sleep.
      * eapply concludes_cons; [done..|by eapply pause_sleep|by apply IH].
    + eapply concludes_cons; [done..|by apply pause_none|by apply IH].
  - intros Hc. destruct (concludes_uncons _ _ _ _ _ _ _ Ho Hr Hc) as [(w2 & Hp & Hc')|(err & Hp & ->)];
      inversion Hp as [? Hb|b d ? ? ? Hb Hd Hs]; subst; rewrite Hb, ?Hd, ?(bind_Ret _ _ _ _ _ Hs);
      try done; by apply IH.
Qed.
End Retry.

(** ** Theorems on [Client.Execute] *)

(** A server for the witnesses: it accepts the password and answers one command. *)
Definition good_server (t : Z) : dial_answer :=
  Connects t [(t, Seg (frames
    [mkPacket 1 TypeAuthResponse ""; mkPacket 2 TypeResponseValue "pong";
     mkPacket 3 TypeResponseValue ""]))].

(** A server that closes the connection at once, and one that refuses it. *)
Definition rude_server (t : Z) : dial_answer := Connects t [(t, Fin)].
Definition no_server (t : Z) : dial_answer := Refuses t (ErrorString "connection refused").

Definition sample_world (l : list dial_answer) : World := mkWorld 0 [] l.
Definition retrying : Client := New [WithRetry 3 (Some (λ _, Some 1000))].

(** C20: [Client.Execute] leaks no connection. However the call ends (a result, an
    error after any number of attempts, or a panic of the backoff function),
    every socket it was given is closed and every other socket is untouched. *)
Theorem client_execute_no_leak (tie : Z → bool) (c : Client) (ctx : Context)
    (address password command : string) (w w' : World) (r : ended (result string)) :
  Dialer (transport c) →
  Client.Execute tie c address password command ctx w = Ret r w' →
  leaves_closed w w'.
Proof. intros HD. by apply attempt_loop_closes. Qed.

Lemma client_execute_no_leak_witness :
  ∃ r w', Client.Execute (λ _, true) retrying "a" "pw" "ping" Background
            (sample_world [rude_server 1; no_server 5; good_server 9]) = Ret r w' ∧
          leaves_closed (sample_world [rude_server 1; no_server 5; good_server 9]) w' ∧
          length (w_slots w') = 2%nat.
Proof.
  destruct (Client.Execute (λ _, true) retrying "a" "pw" "ping" Background
    (sample_world [rude_server 1; no_server 5; good_server 9])) as [r w'| |] eqn:HE;
    [|vm_compute in HE; discriminate..].
  exists r, w'. split; [reflexivity|]. split.
  - exact (client_execute_no_leak (λ _, true) retrying Background "a" "pw" "ping" _ w' r
      (tcp_Dialer Client.DefaultDialTimeout) HE).
  - vm_compute in HE. injection HE as <- <-. reflexivity.
Defined.

(** C17: the client's timeout bounds the whole call. With a positive timeout and a
    dialer that honours its context (the built-in TCP dialer does), [Execute] in
    the multi- and single-packet modes returns, whatever the servers and the
    network do, no later than [timeout] after it was called: dials, handshakes,
    round trips, retries and backoff included. *)
Theorem client_execute_timeout (tie : Z → bool) (c : Client) (ctx : Context)
    (address password command : string) (w : World) :
  Dialer (transport c) → TimelyDialer (transport c) →
  0 < Client.timeout c → idleDrain c = false →
  ∃ r w', Client.Execute tie c address password command ctx w = Ret r w' ∧
          w_now w ≤ w_now w' ≤ w_now w + Client.timeout c.
Proof.
  intros HD HT Ht Hi. unfold Client.Execute, call_ctx. destruct (Z.ltb_spec 0 (Client.timeout c)); [|lia].
  destruct (WithTimeout_deadline ctx (Client.timeout c) (w_now w)) as (t & Hd & Hle).
  destruct (attempt_loop_prompt tie c address password command
    (Z.to_nat ((if attempts c <? 1 then 1 else attempts c) - 1)) _ 1 w t Hi Hd) as (r & w' & HE & Hn).
  exists r, w'. split; [exact HE|lia].
Qed.

Lemma client_execute_timeout_witness :
  ∃ r w', Client.Execute (λ _, true) retrying "a" "pw" "ping" Background
            (sample_world [rude_server 1; no_server 5]) = Ret r w' ∧
          0 ≤ w_now w' ≤ DefaultTimeout.
Proof.
  destruct (client_execute_timeout (λ _, true) retrying Background "a" "pw" "ping"
    (sample_world [rude_server 1; no_server 5])) as (r & w' & HE & Ht).
  - exact (tcp_Dialer Client.DefaultDialTimeout).
  - exact (tcp_TimelyDialer Client.DefaultDialTimeout).
  - reflexivity.
  - reflexivity.
  - exists r, w'. split; [exact HE|exact Ht].
Defined.

(** C18: the retry policy. [Client.Execute] returns exactly the outcome [policy]
    prescribes. Attempts are made one after the other, at most [attempts] (at least
    one), each on a connection of its own that is closed again. One that failed with
    a transport error (the end of the stream, or a network error anywhere in the
    tree it wraps), and with no refused password and no unsendable command in that
    tree, is followed by its wait and the next attempt; the first that succeeds,
    fails for good or is the last allowed decides. The wait after attempt [a] is the
    backoff's delay for [a], cut short by the end of the context, whose error is
    then the result. *)
Theorem client_execute_retries (tie : Z → bool) (c : Client) (ctx : Context)
    (address password command : string) (w w' : World) (r : result string) :
  Client.Execute tie c address password command ctx w = Ret (Returned r) w' ↔
  policy tie c address password command (call_ctx c ctx (w_now w))
    (Z.to_nat (Z.max 1 (attempts c))) w r w'.
Proof.
  unfold Client.Execute, policy. rewrite attempt_loop_concludes.
  replace (S _) with (Z.to_nat (Z.max 1 (attempts c))) by (destruct (Z.ltb_spec (attempts c) 1); lia).
  split; apply concludes_ext; intros; first [apply once_attempt|apply isRetryable_worth|apply pause_wait|
    symmetry; first [apply once_attempt|apply isRetryable_worth|apply pause_wait]].
Qed.

Lemma client_execute_retries_witness :
  let w := sample_world [rude_server 1; good_server 9] in
  ∃ w', policy (λ _, true) retrying "a" "pw" "ping" (call_ctx retrying Background 0) 3 w (Ok "pong") w'.
Proof.
  intros w. destruct (Client.Execute (λ _, true) retrying "a" "pw" "ping" Background w)
    as [r w'| |] eqn:HE; [|vm_compute in HE; discriminate..].
  assert (r = Returned (Ok "pong")) as -> by (vm_compute in HE; injection HE as <- _; reflexivity).
  exists w'. exact (proj1 (client_execute_retries _ _ _ _ _ _ _ _ _) HE).
Defined.

(** ** Backoff *)

Lemma shl64_small base k :
  0 < base → 0 ≤ k → base * 2 ^ k < 2 ^ 63 → shl64 base k = base * 2 ^ k.
Proof.
  intros Hb Hk Hlt. unfold shl64.
  assert (k < 63). { apply (Z.pow_lt_mono_r_iff 2); [lia..|nia]. }
  destruct (Z.leb_spec 64 k); [lia|]. rewrite Z.shiftl_mul_pow2 by lia.
  unfold int64. rewrite Z.mod_small by nia. lia.
Qed.

(** The bound the jitter is drawn below, when [max] leaves room for it. *)
Lemma ExponentialBackoff_cap draw base max a d :
  d = shl64 base ((if a <? 1 then 1 else a) - 1) → 0 ≤ max < 2 ^ 63 - 1 →
  ExponentialBackoff draw base max a =
    Some (draw (if a <? 1 then 1 else a) ((if decide (0 < d ≤ max) then d else max) + 1)).
Proof.
  intros -> Hm. unfold ExponentialBackoff, Int64N. set (d := shl64 _ _).
  assert ((if (max <? d) || (d <=? 0) then max else d) = (if decide (0 < d ≤ max) then d else max)) as ->.
  { destruct (Z.ltb_spec max d), (Z.leb_spec d 0); simpl; case_decide; done || lia. }
  assert (int64 ((if decide (0 < d ≤ max) then d else max) + 1) =
          (if decide (0 < d ≤ max) then d else max) + 1) as ->.
  { unfold int64. rewrite Z.mod_small; [lia|case_decide; lia]. }
  destruct (Z.leb_spec ((if decide (0 < d ≤ max) then d else max) + 1) 0); [case_decide; lia|done].
Qed.

(** C35: [ExponentialBackoff] with a cap in [0, MaxInt64) never panics and never
    waits longer than the cap, for any attempt number, shift overflow included;
    as long as doubling [base] does not overflow, the wait is drawn uniformly
    below [min(max, base * 2^(attempt-1)) + 1] (full jitter). With a negative cap
    it always panics, and with the cap [MaxInt64] it panics as soon as the
    doubling overflows to a non-positive number. *)
Theorem backoff_bounds (draw : Z → Z → Z) (base max a : Z) :
  (∀ a n, 0 < n → 0 ≤ draw a n < n) → is_int64 max →
  (0 ≤ max < 2 ^ 63 - 1 →
     (∃ d, ExponentialBackoff draw base max a = Some d ∧ 0 ≤ d ≤ max) ∧
     (0 < base → 1 ≤ a → base * 2 ^ (a - 1) < 2 ^ 63 →
        ExponentialBackoff draw base max a = Some (draw a (Z.min max (base * 2 ^ (a - 1)) + 1)))) ∧
  (max < 0 → ExponentialBackoff draw base max a = None) ∧
  (max = 2 ^ 63 - 1 → 1 ≤ a → shl64 base (a - 1) ≤ 0 → ExponentialBackoff draw base max a = None).
Proof.
  intros Hdraw Hm. split_and!.
  - intros Hmax. rewrite (ExponentialBackoff_cap draw base max a _ eq_refl Hmax). split.
    + eexists. split; [done|]. set (n := (if decide _ then _ else _) + 1).
      assert (0 < n ≤ max + 1) as [Hn1 Hn2] by (unfold n; case_decide; lia).
      pose proof (Hdraw (if a <? 1 then 1 else a) n Hn1). lia.
    + intros Hb Ha Hlt. destruct (Z.ltb_spec a 1); [lia|].
      rewrite shl64_small by lia. do 2 f_equal. case_decide; nia.
  - intros Hneg. unfold ExponentialBackoff, Int64N. set (d := shl64 _ _).
    replace ((max <? d) || (d <=? 0)) with true
      by (symmetry; apply orb_true_iff; rewrite Z.ltb_lt, Z.leb_le; lia).
    unfold is_int64, int64 in *. rewrite Z.mod_small by lia.
    destruct (Z.leb_spec (max + 1 + 2 ^ 63 - 2 ^ 63) 0); [done|lia].
  - intros -> Ha Hd. unfold ExponentialBackoff, Int64N. destruct (Z.ltb_spec a 1); [lia|].
    apply Z.leb_le in Hd. rewrite Hd, orb_true_r. done.
Qed.

Lemma backoff_bounds_witness :
  ExponentialBackoff (λ _ n, n - 1) Second (30 * Second) 3 = Some (4 * Second) ∧
  ExponentialBackoff (λ _ n, n - 1) Second (2 ^ 63 - 1) 35 = None.
Proof.
  split.
  - destruct (backoff_bounds (λ _ n, n - 1) Second (30 * Second) 3) as [H _].
    + intros. lia.
    + unfold is_int64, Second. lia.
    + destruct H as [_ H]; [unfold Second; lia|]. rewrite H by (unfold Second; lia). reflexivity.
  - destruct (backoff_bounds (λ _ n, n - 1) Second (2 ^ 63 - 1) 35) as (_ & _ & H).
    + intros. lia.
    + unfold is_int64. lia.
    + apply H; [lia|lia|vm_compute; discriminate].
Defined.
