(* ===== verification/SessionProps.v ===== *)
(** * Properties of sessions

    [Session.Execute] keeps one connection: the invariant [live] (the session
    refers to a connection made with the client's settings), what a reconnect
    does to the old connection, the bound on a call, and what is left of a
    session whose reconnect failed. *)

From S2P Require Import Prelude GoErrors GoIO GoNet Packet Options Conn ConnProps World Client ClientProps.

Local Open Scope Z_scope.

Implicit Types (w : World) (s : Session) (ctx : Context).

(** The session refers to a connection with its client's settings. *)
Definition live s w : Prop :=
  ∃ cn, w_slots w !! s_conn s = Some (SConn cn) ∧ set cn = client_settings (s_client s).

(** ** One call, step by step *)

(** How a call goes, from the outcomes of its three steps. *)
Inductive session_run ctx command s w : result string → Session → World → Prop :=
  | run_first r w1 :
      on_conn (s_conn s) (Conn.Execute ctx command) w = Ret r w1 →
      (∀ e, r = Err e → isRetryable e = false) →
      session_run ctx command s w r s w1
  | run_lost e w1 rc w2 derr w3 :
      on_conn (s_conn s) (Conn.Execute ctx command) w = Ret (Err e) w1 → isRetryable e = true →
      on_conn (s_conn s) Conn.Close w1 = Ret rc w2 →
      dial (s_client s) ctx (s_address s) (s_password s) w2 = Ret (Err derr) w3 →
      session_run ctx command s w (Err derr) s w3
  | run_again e w1 rc w2 l w3 r w4 :
      on_conn (s_conn s) (Conn.Execute ctx command) w = Ret (Err e) w1 → isRetryable e = true →
      on_conn (s_conn s) Conn.Close w1 = Ret rc w2 →
      dial (s_client s) ctx (s_address s) (s_password s) w2 = Ret (Ok l) w3 →
      on_conn l (Conn.Execute ctx command) w3 = Ret r w4 →
      session_run ctx command s w r (set_conn l s) w4.

Lemma SessionExecute_run ctx command s w r s' w' :
  SessionExecute ctx command (s, w) = Ret r (s', w') ↔
  session_run (call_ctx (s_client s) ctx (w_now w)) command s w r s' w'.
Proof.
  unfold SessionExecute, on_world, zoom, gets, modify, bind, ret. simpl fst. simpl snd.
  set (k := call_ctx _ _ _). cbv zeta. split.
  - destruct (on_conn (s_conn s) (Conn.Execute k command) w) as [[out|e] w1| |] eqn:H1; try done.
    { intros [= <- <- <-]. by eapply run_first. }
    destruct (isRetryable e) eqn:Hr; cbn [negb fst snd];
      [|intros [= <- <- <-]; eapply run_first; [done|by intros ? [= <-]]].
    destruct (on_conn (s_conn s) Conn.Close w1) as [rc w2| |] eqn:H2; try done; cbn [fst snd].
    destruct (dial (s_client s) k (s_address s) (s_password s) w2) as [[l|derr] w3| |] eqn:H3; try done; cbn [fst snd];
      [|intros HR; simplify_eq; by eapply run_lost].
    destruct (on_conn l (Conn.Execute k command) w3) as [r4 w4| |] eqn:H4; try done.
    intros HR. simplify_eq. by eapply run_again.
  - intros [r0 w1 H1 Hr|e w1 rc w2 derr w3 H1 Hr H2 H3|e w1 rc w2 l w3 r0 w4 H1 Hr H2 H3 H4]; rewrite H1.
    + destruct r0 as [out|e]; [done|]. by rewrite (Hr e).
    + rewrite Hr. cbn [negb fst snd]. rewrite H2. cbn [fst snd]. by rewrite H3.
    + rewrite Hr. cbn [negb fst snd]. rewrite H2. cbn [fst snd]. rewrite H3. cbn [fst snd]. by rewrite H4.
Qed.

(** ** The steps on the heap *)

Lemma on_conn_slots {A} l (m : GoM Conn A) w a w' :
  on_conn l m w = Ret a w' → ∃ cn, w_slots w' = <[l := SConn cn]> (w_slots w).
Proof. unfold on_conn. intros. repeat case_match; simplify_eq. by eexists. Qed.

Lemma on_conn_Execute_settings ctx command l cn w r w' :
  w_slots w !! l = Some (SConn cn) → on_conn l (Conn.Execute ctx command) w = Ret r w' →
  ∃ cn', w_slots w' = <[l := SConn cn']> (w_slots w) ∧ w_slots w' !! l = Some (SConn cn') ∧ set cn' = set cn.
Proof.
  intros Hl HE. destruct (on_conn_inv _ _ _ _ _ _ Hl HE) as (cn' & Hr & ->).
  exists cn'. simpl. split_and!; [done|apply list_lookup_insert_eq; by eapply lookup_lt_Some|].
  pose proof (keeps_settings_Execute (set cn) ctx command (set_sock (set_now (w_now w) (sock cn)) cn) eq_refl) as Hk.
  by rewrite Hr in Hk.
Qed.

Lemma on_conn_Close_closed l cn w :
  w_slots w !! l = Some (SConn cn) →
  ∃ r cn', on_conn l Conn.Close w = Ret r (put l (SConn cn') w) ∧ closed cn' = true ∧
           slot_closed (SConn cn') = true ∧ nc_now (sock cn') = w_now w.
Proof.
  intros Hl. destruct (Conn_Close_spec (set_sock (set_now (w_now w) (sock cn)) cn))
    as (r & cn' & HC & Hcl & Hs & Hn & _).
  exists r, cn'. split_and!; [by apply (on_conn_Ret _ _ _ _ _ _ Hl HC)|done..].
Qed.

(** A closed connection refuses without touching the network. *)
Lemma on_conn_Execute_closed ctx command l cn w :
  w_slots w !! l = Some (SConn cn) → closed cn = true →
  ∃ w', on_conn l (Conn.Execute ctx command) w = Ret (Err ErrClosed) w' ∧
        w_dials w' = w_dials w ∧ w_now w' = w_now w ∧ length (w_slots w') = length (w_slots w).
Proof.
  intros Hl Hc. set (cn' := set_sock (set_now (w_now w) (sock cn)) cn).
  assert (Conn.Execute ctx command cn' = Ret (Err ErrClosed) cn') as HE
    by (unfold Conn.Execute, gets, bind; change (closed cn') with (closed cn); by rewrite Hc).
  exists (put l (SConn cn') w). split_and!; [by apply (on_conn_Ret _ _ _ _ _ _ Hl HE)|done|done|].
  simpl. by rewrite length_insert.
Qed.

(** After a retryable failure and the [Close] that follows it, the old slot holds
    a closed connection and nothing else has changed. *)
Lemma failed_and_closed ctx command l cn w r w1 rc w2 :
  w_slots w !! l = Some (SConn cn) →
  on_conn l (Conn.Execute ctx command) w = Ret r w1 → on_conn l Conn.Close w1 = Ret rc w2 →
  ∃ cn', w_slots w2 = <[l := SConn cn']> (w_slots w) ∧ closed cn' = true ∧
         slot_closed (SConn cn') = true ∧ set cn' = set cn ∧ length (w_slots w2) = length (w_slots w).
Proof.
  intros Hl H1 H2. destruct (on_conn_Execute_settings _ _ _ _ _ _ _ Hl H1) as (c1 & Hs1 & Hl1 & Hset).
  destruct (on_conn_inv _ _ _ _ _ _ Hl1 H2) as (c2 & HC & ->).
  destruct (Conn_Close_spec (set_sock (set_now (w_now w1) (sock c1)) c1))
    as (r' & c2' & HC' & Hcl & Hs & _ & Hset'). rewrite HC' in HC. simplify_eq.
  exists c2. simpl. rewrite Hs1, list_insert_insert_eq, length_insert. split_and!; try done. by rewrite <- Hset.
Qed.

(** What a call can change on the heap: the session's own slot, slots it opened
    and closed again, and after a reconnect the slot of the new connection. *)
Lemma session_run_slots ctx command s w r s' w' `{!Dialer (transport (s_client s))} :
  live s w → session_run ctx command s w r s' w' →
  live s' w' ∧ s_client s' = s_client s ∧
  ∀ l sl, l ≠ s_conn s' → w_slots w' !! l = Some sl → slot_closed sl = false →
          l ≠ s_conn s ∧ w_slots w !! l = Some sl.
Proof.
  intros (cn & Hl & Hset) [r0 w1 H1 _|e w1 rc w2 derr w3 H1 _ H2 H3|e w1 rc w2 l w3 r0 w4 H1 _ H2 H3 H4].
  - destruct (on_conn_Execute_settings _ _ _ _ _ _ _ Hl H1) as (c1 & Hs1 & Hl1 & Hset1).
    split_and!; [exists c1; split; [done|congruence]|done|].
    intros l sl Hne. rewrite Hs1, list_lookup_insert_ne by done. auto.
  - destruct (failed_and_closed _ _ _ _ _ _ _ _ _ Hl H1 H2) as (c2 & Hs2 & _ & Hc2 & Hset2 & Hlen).
    rewrite dial_connect in H3. apply connect_inv in H3 as (new & Hs3 & Hnew); [|done].
    apply lookup_lt_Some in Hl as Hlt. split_and!; [exists c2; split; [|congruence]|done|].
    + rewrite Hs3, lookup_app_l, Hs2 by lia. by apply list_lookup_insert_eq.
    + intros l sl Hne. rewrite Hs3. intros [Hsl|[_ Hsl]]%lookup_app_Some Hop.
      * rewrite Hs2, list_lookup_insert_ne in Hsl by done. done.
      * eapply Forall_lookup_1 in Hnew; [|done]. congruence.
  - destruct (failed_and_closed _ _ _ _ _ _ _ _ _ Hl H1 H2) as (c2 & Hs2 & _ & Hc2 & Hset2 & Hlen).
    rewrite dial_connect in H3. apply connect_inv in H3 as (-> & c3 & Hg & Hset3); [|done].
    destruct (on_conn_Execute_settings _ _ _ _ _ _ _ (grown_lookup _ _ _ Hg) H4)
      as (c4 & Hs4 & Hl4 & Hset4).
    split_and!; [exists c4; split; [exact Hl4|simpl; congruence]|done|].
    intros l sl Hne. simpl in Hne. rewrite Hs4, list_lookup_insert_ne by done. rewrite Hg.
    intros [Hsl|[Hge Hsl]]%lookup_app_Some Hop.
    + rewrite Hs2 in Hsl. destruct (decide (l = s_conn s)) as [->|Hn].
      * rewrite list_lookup_insert_eq in Hsl by (by eapply lookup_lt_Some). congruence.
      * by rewrite list_lookup_insert_ne in Hsl by done.
    + apply lookup_lt_Some in Hsl. simpl in Hsl. lia.
Qed.

(** A reconnect, from the point where the command has failed: the old connection is
    closed before the new one is dialled. *)
Lemma session_run_reconnect ctx command s w r s' w' e w1 `{!Dialer (transport (s_client s))} :
  live s w → session_run ctx command s w r s' w' →
  on_conn (s_conn s) (Conn.Execute ctx command) w = Ret (Err e) w1 → isRetryable e = true →
  ∃ w2 sl, w_slots w2 = <[s_conn s := sl]> (w_slots w) ∧ slot_closed sl = true ∧
    ((∃ derr, dial (s_client s) ctx (s_address s) (s_password s) w2 = Ret (Err derr) w' ∧
        r = Err derr ∧ s' = s ∧
        ∀ l sl, w_slots w' !! l = Some sl → slot_closed sl = false → l ≠ s_conn s ∧ w_slots w !! l = Some sl) ∨
     (∃ l w3, dial (s_client s) ctx (s_address s) (s_password s) w2 = Ret (Ok l) w3 ∧
        s' = set_conn l s ∧ l ≠ s_conn s ∧ on_conn l (Conn.Execute ctx command) w3 = Ret r w')).
Proof.
  intros (cn & Hl & Hset) HR H1 Hr. apply lookup_lt_Some in Hl as Hlt.
  destruct HR as [r0 w1' H1' Hf|e' w1' rc w2 derr w3 H1' _ H2 H3|e' w1' rc w2 l w3 r0 w4 H1' _ H2 H3 H4];
    rewrite H1 in H1'; injection H1' as <- <-; [by rewrite (Hf e) in Hr|..];
    destruct (failed_and_closed _ _ _ _ _ _ _ _ _ Hl H1 H2) as (c2 & Hs2 & _ & Hc2 & _ & Hlen);
    exists w2, (SConn c2); (split_and!; [done..|]); pose proof H3 as H3'; rewrite dial_connect in H3'.
  - left. exists derr. split_and!; [done..|]. apply connect_inv in H3' as (new & Hs3 & Hnew); [|done].
    intros l sl. rewrite Hs3. intros [Hsl|[_ Hsl]]%lookup_app_Some Hop.
    + rewrite Hs2 in Hsl. destruct (decide (l = s_conn s)) as [->|Hne].
      * rewrite list_lookup_insert_eq in Hsl by done. congruence.
      * by rewrite list_lookup_insert_ne in Hsl by done.
    + eapply Forall_lookup_1 in Hnew; [|done]. congruence.
  - right. exists l, w3. apply connect_inv in H3' as (-> & _); [|done]. split_and!; [done..|lia|done].
Qed.

(** A call keeps every existing slot but the session's own, whose connection keeps
    its settings, and a new connection is fresh. *)
Lemma session_run_others ctx command s w r s' w' `{!Dialer (transport (s_client s))} :
  live s w → session_run ctx command s w r s' w' →
  s_address s' = s_address s ∧ s_password s' = s_password s ∧
  (s_conn s' = s_conn s ∨ s_conn s' = length (w_slots w)) ∧ live s w' ∧
  ∀ l, (l < length (w_slots w))%nat → l ≠ s_conn s → w_slots w' !! l = w_slots w !! l.
Proof.
  intros (cn & Hl & Hset) [r0 w1 H1 _|e w1 rc w2 derr w3 H1 _ H2 H3|e w1 rc w2 l w3 r0 w4 H1 _ H2 H3 H4];
    apply lookup_lt_Some in Hl as Hlt.
  - destruct (on_conn_Execute_settings _ _ _ _ _ _ _ Hl H1) as (c1 & Hs1 & Hl1 & Hset1).
    split_and!; [done|done|by left|exists c1; split; [done|congruence]|].
    intros l _ Hne. by rewrite Hs1, list_lookup_insert_ne.
  - destruct (failed_and_closed _ _ _ _ _ _ _ _ _ Hl H1 H2) as (c2 & Hs2 & _ & _ & Hset2 & Hlen).
    rewrite dial_connect in H3. apply connect_inv in H3 as (new & Hs3 & _); [|done].
    split_and!; [done|done|by left|exists c2; split; [|congruence]|].
    + rewrite Hs3, lookup_app_l, Hs2 by lia. by apply list_lookup_insert_eq.
    + intros l Hlt' Hne. by rewrite Hs3, lookup_app_l, Hs2, list_lookup_insert_ne by (lia || done).
  - destruct (failed_and_closed _ _ _ _ _ _ _ _ _ Hl H1 H2) as (c2 & Hs2 & _ & _ & Hset2 & Hlen).
    rewrite dial_connect in H3. apply connect_inv in H3 as (-> & c3 & Hg & _); [|done].
    apply on_conn_slots in H4 as (c4 & Hs4).
    split_and!; [done|done|right; simpl; lia|exists c2; split; [|congruence]|].
    + rewrite Hs4, list_lookup_insert_ne, Hg, lookup_app_l, Hs2 by lia. by apply list_lookup_insert_eq.
    + intros l Hlt' Hne.
      by rewrite Hs4, list_lookup_insert_ne, Hg, lookup_app_l, Hs2, list_lookup_insert_ne by (lia || done).
Qed.

(** [Session.Close] always returns and closes the session's connection only. *)
Lemma SessionClose_spec s w :
  live s w →
  ∃ r w' cn, SessionClose (s, w) = Ret r (s, w') ∧ w_slots w' = <[s_conn s := SConn cn]> (w_slots w) ∧
             slot_closed (SConn cn) = true ∧ live s w'.
Proof.
  intros (cn & Hl & Hset). destruct (Conn_Close_spec (set_sock (set_now (w_now w) (sock cn)) cn))
    as (r & cn' & HC & _ & Hs & _ & Hset').
  exists r, (put (s_conn s) (SConn cn') w), cn'. split_and!; [|done|done|].
  - unfold SessionClose, gets, bind, on_world, zoom. cbn [fst snd]. by rewrite (on_conn_Ret _ _ _ _ _ _ Hl HC).
  - exists cn'. simpl. split; [apply list_lookup_insert_eq; by eapply lookup_lt_Some|by rewrite Hset'].
Qed.

(** ** Calls always return

    Every connection of a client has an operation deadline, so with a dialer that
    comes back by itself no call waits for ever, whatever its context. *)

Lemma client_deadline (c : Client) : 0 < deadline (client_settings c).
Proof. unfold client_settings, dial_opts. by destruct (dialer c), (idleDrain c), (singlePacket c). Qed.

Lemma effective_deadline_op ctx op now :
  0 < op → ∃ d, effective_deadline ctx op now = Some d.
Proof. intros Hop%Z.ltb_lt. unfold effective_deadline. rewrite Hop. repeat case_match; by eexists. Qed.

Lemma dial_client_returns (c : Client) ctx address password w :
  Dialer (transport c) → ReturningDialer (transport c) →
  ∃ r w', dial c ctx address password w = Ret r w'.
Proof.
  intros HD HR. destruct (HR ctx address w) as (r1 & w1 & HT).
  destruct (effective_deadline_op ctx _ (w_now w1) (client_deadline c)) as (t & Ht).
  destruct (connect_after _ _ ctx address password w r1 w1 t HT Ht) as (r & w' & HC & _).
  rewrite dial_connect. by exists r, w'.
Qed.

Lemma on_conn_Execute_returns (c : Client) ctx command l cn w :
  w_slots w !! l = Some (SConn cn) → set cn = client_settings c → idleDrain c = false →
  ∃ r w', on_conn l (Conn.Execute ctx command) w = Ret r w'.
Proof.
  intros Hl Hset Hi. set (cn' := set_sock (set_now (w_now w) (sock cn)) cn).
  destruct (effective_deadline_op ctx _ (w_now w) (client_deadline c)) as (t & Ht).
  destruct (Execute_timely ctx command cn' t) as (r & c' & HE & _).
  - change (set cn') with (set cn). rewrite Hset, client_mode, Hi. by destruct (singlePacket c).
  - unfold exec_deadline. change (set cn') with (set cn). by rewrite Hset.
  - rewrite (on_conn_Ret _ _ _ _ _ _ Hl HE). by eexists _, _.
Qed.

Lemma SessionExecute_returns ctx command s w :
  Dialer (transport (s_client s)) → ReturningDialer (transport (s_client s)) →
  idleDrain (s_client s) = false → live s w →
  ∃ r s' w', SessionExecute ctx command (s, w) = Ret r (s', w').
Proof.
  intros HD HR Hi (cn & Hl & Hset). setoid_rewrite SessionExecute_run. set (k := call_ctx _ _ _).
  destruct (on_conn_Execute_returns _ k command _ _ _ Hl Hset Hi) as (r1 & w1 & H1).
  destruct (match r1 with Ok _ => false | Err e => isRetryable e end) eqn:Hr; cycle 1.
  { exists r1, s, w1. eapply run_first; [done|by intros e ->]. }
  destruct r1 as [|e]; [done|].
  destruct (on_conn_Execute_settings _ _ _ _ _ _ _ Hl H1) as (c1 & _ & Hl1 & _).
  destruct (on_conn_Close_closed _ _ _ Hl1) as (rc & c2 & H2 & _).
  edestruct (dial_client_returns (s_client s) k (s_address s) (s_password s)) as ([l|derr] & w3 & H3);
    [done..| |exists (Err derr), s, w3; by eapply run_lost].
  pose proof H3 as H3'. rewrite dial_connect in H3'. apply connect_inv in H3' as (-> & c3 & Hg & Hset3); [|done].
  destruct (on_conn_Execute_returns _ k command _ _ _ (grown_lookup _ _ _ Hg) Hset3 Hi) as (r4 & w4 & H4).
  eexists r4, _, w4. by eapply run_again.
Qed.

(** ** Theorems *)

(** A session for the witnesses: a connection that the server has closed. *)
Definition dropped : World :=
  mkWorld 0 [SConn (mkConn (NewReader (new_netConn [(0, Fin)] 0)) (newSettings []) false 1)] [].
Definition with_dials (l : list dial_answer) : World := set_dials l dropped.
Definition sample_session : Session := mkSession (New []) "a" "pw" 0.

Lemma sample_live l : live sample_session (with_dials l).
Proof. by eexists. Qed.

(** C29: a session holds one connection. [Session.Execute] keeps the session on a
    connection with the client's settings, and whatever sockets are open after a
    call, other than the session's own, were open before it and are unchanged. When
    the command fails with a retryable error, the session's connection is closed,
    and nothing else touched, before the reconnect is dialled. If that fails, the
    call returns its error and leaves no socket open that was not open before, the
    session's own included; if it succeeds, the session moves to the new connection
    and the command is run there once more. *)
Theorem session_one_connection ctx (command : string) s s' w w' (r : result string) :
  Dialer (transport (s_client s)) → live s w →
  SessionExecute ctx command (s, w) = Ret r (s', w') →
  let k := call_ctx (s_client s) ctx (w_now w) in
  live s' w' ∧
  (∀ l sl, l ≠ s_conn s' → w_slots w' !! l = Some sl → slot_closed sl = false →
           l ≠ s_conn s ∧ w_slots w !! l = Some sl) ∧
  (∀ e w1, on_conn (s_conn s) (Conn.Execute k command) w = Ret (Err e) w1 → isRetryable e = true →
   ∃ w2 sl, w_slots w2 = <[s_conn s := sl]> (w_slots w) ∧ slot_closed sl = true ∧
     ((∃ derr, dial (s_client s) k (s_address s) (s_password s) w2 = Ret (Err derr) w' ∧
         r = Err derr ∧ s' = s ∧
         ∀ l sl, w_slots w' !! l = Some sl → slot_closed sl = false → l ≠ s_conn s ∧ w_slots w !! l = Some sl) ∨
      (∃ l w3, dial (s_client s) k (s_address s) (s_password s) w2 = Ret (Ok l) w3 ∧
         s' = set_conn l s ∧ l ≠ s_conn s ∧ on_conn l (Conn.Execute k command) w3 = Ret r w'))).
Proof.
  intros HD Hl HE%SessionExecute_run k.
  destruct (session_run_slots _ _ _ _ _ _ _ Hl HE) as (? & _ & ?). split_and!; [done..|].
  intros e w1 H1 Hr. by eapply session_run_reconnect.
Qed.

Lemma session_one_connection_witness :
  ∃ s' w', SessionExecute Background "ping" (sample_session, with_dials [good_server 5]) = Ret (Ok "pong") (s', w') ∧
    live s' w' ∧ s_conn s' = 1%nat ∧
    (∀ sl, w_slots w' !! 0%nat = Some sl → slot_closed sl = false → 0%nat ≠ 0%nat).
Proof.
  destruct (SessionExecute Background "ping" (sample_session, with_dials [good_server 5]))
    as [r [s' w']| |] eqn:HE; [|vm_compute in HE; discriminate..].
  pose proof (session_one_connection Background "ping" sample_session s' (with_dials [good_server 5]) w' r
    (tcp_Dialer Client.DefaultDialTimeout) (sample_live _) HE) as (Hl & Ho & _).
  vm_compute in HE. injection HE as <- <- <-. eexists _, _. split; [reflexivity|]. split; [exact Hl|].
  split; [reflexivity|]. intros sl Hsl Hop. apply (Ho 0%nat sl); [discriminate|exact Hsl|exact Hop].
Defined.

(** The client's timeout bounds a session call, reconnect included. With a
    positive timeout, a dialer that honours its context and a mode other than
    read-until-idle, [Session.Execute] returns no later than [timeout] after the
    call, whatever the old and the new connection do. *)
Theorem session_execute_timeout ctx (command : string) s w :
  Dialer (transport (s_client s)) → TimelyDialer (transport (s_client s)) →
  0 < Client.timeout (s_client s) → idleDrain (s_client s) = false → live s w →
  ∃ r s' w', SessionExecute ctx command (s, w) = Ret r (s', w') ∧
             w_now w ≤ w_now w' ≤ w_now w + Client.timeout (s_client s).
Proof.
  intros HD HT Ht Hi (cn & Hl & Hset).
  assert (∃ t, ctx_deadline (call_ctx (s_client s) ctx (w_now w)) = Some t ∧
               t ≤ w_now w + Client.timeout (s_client s)) as (t & Hd & Hle).
  { unfold call_ctx. destruct (Z.ltb_spec 0 (Client.timeout (s_client s))); [|lia].
    apply WithTimeout_deadline. }
  assert (mode (client_settings (s_client s)) ≠ readIdle) as Hm.
  { rewrite client_mode, Hi. by destruct (singlePacket (s_client s)). }
  assert (∃ r s' w', session_run (call_ctx (s_client s) ctx (w_now w)) command s w r s' w' ∧
                     w_now w ≤ w_now w' ≤ Z.max (w_now w) t) as (r & s' & w' & HR & Hn).
  { set (k := call_ctx _ _ _) in *.
    destruct (on_conn_Execute_prompt command k _ cn w t Hl) as (r1 & w1 & H1 & Hn1); [by rewrite Hset|done|].
    destruct (match r1 with Ok _ => false | Err e => isRetryable e end) eqn:Hr; cycle 1.
    { exists r1, s, w1. split; [|done]. eapply run_first; [done|by intros e ->]. }
    destruct r1 as [|e]; [done|].
    destruct (on_conn_Execute_settings _ _ _ _ _ _ _ Hl H1) as (c1 & _ & Hl1 & _).
    destruct (on_conn_Close_prompt _ _ _ t Hl1) as (rc & w2 & H2 & Hn2).
    destruct (connect_prompt _ (client_settings (s_client s)) k (s_address s) (s_password s) w2 t Hd)
      as ([l|derr] & w3 & H3 & Hn3); rewrite <- dial_connect in H3; cycle 1.
    { exists (Err derr), s, w3. split; [by eapply run_lost|lia]. }
    pose proof H3 as H3'. rewrite dial_connect in H3'. apply connect_inv in H3' as (-> & c3 & Hg & Hset3); [|done].
    destruct (on_conn_Execute_prompt command k _ c3 w3 t (grown_lookup _ _ _ Hg)) as (r4 & w4 & H4 & Hn4);
      [by rewrite Hset3|done|].
    eexists r4, _, w4. split; [by eapply run_again|lia]. }
  exists r, s', w'. split; [by apply SessionExecute_run|lia].
Qed.

Lemma session_execute_timeout_witness :
  ∃ r s' w', SessionExecute Background "ping" (sample_session, with_dials [rude_server 7]) = Ret r (s', w') ∧
             0 ≤ w_now w' ≤ Client.DefaultTimeout.
Proof.
  destruct (session_execute_timeout Background "ping" sample_session (with_dials [rude_server 7]))
    as (r & s' & w' & HE & Ht).
  - exact (tcp_Dialer Client.DefaultDialTimeout).
  - exact (tcp_TimelyDialer Client.DefaultDialTimeout).
  - reflexivity.
  - reflexivity.
  - apply sample_live.
  - exists r, s', w'. split; [exact HE|exact Ht].
Defined.

(** C38: a failed reconnect ends a session. When a call fails with a retryable
    error and the reconnect fails too, the call returns the reconnect's error and
    the session keeps its closed connection: every later call returns
    [ErrClosed] and never dials, also when the server is back. *)
Theorem session_dead_after_failed_reconnect ctx (command : string) s w (derr : error) w' :
  Dialer (transport (s_client s)) → live s w →
  (∃ e w1 rc w2,
     on_conn (s_conn s) (Conn.Execute (call_ctx (s_client s) ctx (w_now w)) command) w = Ret (Err e) w1 ∧
     isRetryable e = true ∧ on_conn (s_conn s) Conn.Close w1 = Ret rc w2 ∧
     dial (s_client s) (call_ctx (s_client s) ctx (w_now w)) (s_address s) (s_password s) w2 =
       Ret (Err derr) w') →
  SessionExecute ctx command (s, w) = Ret (Err derr) (s, w') ∧
  ∀ ctx' command' dials, ∃ w'',
    SessionExecute ctx' command' (s, set_dials dials w') = Ret (Err ErrClosed) (s, w'') ∧
    w_dials w'' = dials ∧ length (w_slots w'') = length (w_slots w').
Proof.
  intros HD (cn & Hl & Hset) (e & w1 & rc & w2 & H1 & Hr & H2 & H3). split.
  { apply SessionExecute_run. by eapply run_lost. }
  intros ctx' command' dials.
  destruct (failed_and_closed _ _ _ _ _ _ _ _ _ Hl H1 H2) as (c2 & Hs2 & Hcl2 & _ & _ & Hlen).
  rewrite dial_connect in H3. apply connect_inv in H3 as (new & Hs3 & _); [|done].
  apply lookup_lt_Some in Hl as Hlt.
  assert (w_slots (set_dials dials w') !! s_conn s = Some (SConn c2)) as Hl'.
  { simpl. rewrite Hs3, lookup_app_l, Hs2 by lia. by apply list_lookup_insert_eq. }
  destruct (on_conn_Execute_closed (call_ctx (s_client s) ctx' (w_now (set_dials dials w'))) command' _ _ _ Hl' Hcl2)
    as (w'' & HE & Hd & _ & Hn).
  exists w''. split_and!; [|done|done].
  apply SessionExecute_run. eapply run_first; [done|]. by intros e' [= <-].
Qed.

Lemma session_dead_after_failed_reconnect_witness :
  ∃ w' w'', SessionExecute Background "ping" (sample_session, with_dials [no_server 7]) =
              Ret (Err (OpError false (ErrorString "connection refused"))) (sample_session, w') ∧
            SessionExecute Background "ping" (sample_session, set_dials [good_server 9] w') =
              Ret (Err ErrClosed) (sample_session, w'').
Proof.
  destruct (SessionExecute Background "ping" (sample_session, with_dials [no_server 7]))
    as [r [s' w']| |] eqn:HE; [|vm_compute in HE; discriminate..].
  destruct (session_dead_after_failed_reconnect Background "ping" sample_session (with_dials [no_server 7])
    (OpError false (ErrorString "connection refused")) w') as [H1 H2].
  - exact (tcp_Dialer Client.DefaultDialTimeout).
  - apply sample_live.
  - vm_compute in HE. injection HE as <- <- <-. eexists _, _, _, _.
    split; [vm_compute; reflexivity|]. split; [reflexivity|].
    split; [vm_compute; reflexivity|vm_compute; reflexivity].
  - destruct (H2 Background "ping" [good_server 9]) as (w'' & H3 & _).
    exists w', w''. split; [|exact H3]. rewrite <- H1. symmetry. exact HE.
Defined.
