(* ===== verification/Talk.v ===== *)
(** * Programs that talk to the server

    The default client of rconclient over plain TCP, connected to a peer that
    answers as [serveConn] does: what [dial], [Session.Execute] and the one-shot
    [Client.Execute] make of it, given that the network answers in time. The HTTP
    gateway and the command line build on it. *)

From S2P Require Import Prelude GoErrors GoIO GoNet Packet Options Conn ConnProps Server ServerProps EndToEnd Dialogue World Client ClientProps.

Local Open Scope Z_scope.

(** ** Deadlines *)

(** [ctx] leaves time until [hi], and [now] is before its end. *)
Definition leaves_time (ctx : Context) (now hi : Z) : Prop :=
  ∀ d, ctx_deadline ctx = Some d → now < d ∧ hi ≤ d.

Lemma deadline_bounds ctx now hi :
  hi ≤ now + DefaultDeadline → leaves_time ctx now hi →
  before now (effective_deadline ctx DefaultDeadline now) = true ∧
  ∀ d, effective_deadline ctx DefaultDeadline now = Some d → hi ≤ d.
Proof.
  intros Hhi Hctx. unfold effective_deadline. replace (0 <? DefaultDeadline) with true by done.
  assert (now < now + DefaultDeadline) as HD by (unfold DefaultDeadline, Second; lia).
  destruct (ctx_deadline ctx) as [d|] eqn:Hd; [destruct (Hctx d Hd); case_match|];
    (split; [apply Z.ltb_lt; lia|intros ? [= <-]; lia]).
Qed.

(** The client's own timeout leaves time for a reply in the window of the connection. *)
Lemma call_ctx_time ctx now hi :
  hi ≤ now + DefaultDeadline → leaves_time ctx now hi → leaves_time (call_ctx DefaultClient ctx now) now hi.
Proof.
  intros Hhi Hctx d. unfold call_ctx. replace (0 <? Client.timeout DefaultClient) with true by done.
  change (Client.timeout DefaultClient) with DefaultTimeout.
  unfold World.WithTimeout, earliest, DefaultTimeout, DefaultDeadline, Second in *. cbn [ctx_deadline].
  destruct (ctx_deadline ctx) as [d'|] eqn:Hd; [destruct (Hctx d' Hd)|]; intros [= <-]; lia.
Qed.

(** ** Connecting *)

Lemma DialContext_connects timeout ctx w t l ds :
  w_dials w = Connects t l :: ds → let T := Z.max (w_now w) t in
  ctx_cancel ctx = None → leaves_time ctx T T → (timeout = 0 ∨ T < w_now w + timeout) →
  DialContext timeout ctx w =
    Ret (Ok (length (w_slots w))) (mkWorld T (w_slots w ++ [SSock (new_netConn l T)]) ds).
Proof.
  intros Hds T Hcan Hctx Hto. unfold DialContext. rewrite Hds.
  set (ctx' := if timeout =? 0 then ctx else World.WithTimeout ctx timeout (w_now w)).
  assert (ctx_cancel ctx' = None ∧ leaves_time ctx' T T) as [Hcan' Hctx'].
  { unfold ctx'. destruct (Z.eqb_spec timeout 0); [done|]. split; [done|]. intros d.
    unfold World.WithTimeout, earliest. cbn [ctx_deadline].
    destruct (ctx_deadline ctx) as [d'|] eqn:Hd; [destruct (Hctx d' Hd)|]; intros [= <-]; lia. }
  unfold ctx_done. rewrite Hcan'. destruct (ctx_deadline ctx') as [d|] eqn:Hd; [|done].
  destruct (Hctx' d Hd) as [Hlt _]. cbn [set_dials w_now]. fold T. by replace (T <? d) with true by lia.
Qed.

Section Peer.
Context {H : Type} (srv : Server H).

(** The handshake with a server: a ready connection in a fresh slot, or the
    refusal of the password. *)
Lemma dial_ready ctx address password w t hello rest ds hi :
  w_dials w = Connects t (hello ++ rest) :: ds → let T := Z.max (w_now w) t in
  ctx_cancel ctx = None → T < w_now w + Client.DefaultDialTimeout → leaves_time ctx T hi →
  hi ≤ T + DefaultDeadline →
  delivered hi (frames (auth_answer srv (auth_packet password))) hello →
  ∃ w', dial DefaultClient ctx address password w =
          Ret (if checkPassword srv password then Ok (length (w_slots w)) else Err ErrAuthFailed) w' ∧
    (checkPassword srv password = true → w_dials w' = ds ∧ T ≤ w_now w' ≤ T + DefaultDeadline ∧
     ∃ c, w_slots w' = w_slots w ++ [SConn (later rest c)] ∧
          ready (newSettings []) 1 (frames [auth_packet password]) c).
Proof.
  intros Hds T Hcan Hto Hctx Hhi Hl.
  unfold dial, dial_opts. change (dialer DefaultClient) with (@None DialFunc). cbv iota.
  change (idleDrain DefaultClient) with false. change (singlePacket DefaultClient) with false. cbv iota.
  unfold Dial. change (newSettings [Options.WithDialTimeout (Client.dialTimeout DefaultClient)]) with (newSettings []).
  erewrite bind_Ret.
  2:{ apply DialContext_connects; [done..| |by right]. intros d Hd. destruct (Hctx d Hd). fold T. lia. }
  destruct (deadline_bounds ctx T hi Hhi Hctx) as [Hb Hd].
  destruct (open_ready srv ctx password (newSettings []) T hello rest hi) as (c & HO & Hr); [done..|].
  fold T. unfold bind at 1, open_slot. cbn [w_slots w_now].
  rewrite list_lookup_middle by done. cbn [slot_sock].
  change (set_now T (new_netConn (hello ++ rest) T)) with (new_netConn (hello ++ rest) T). rewrite HO.
  destruct (checkPassword srv password).
  - eexists. split; [done|]. intros _. cbn [put set_clock set_slots w_dials w_now w_slots slot_sock].
    split; [done|]. split.
    + assert (∃ d, effective_deadline ctx DefaultDeadline T = Some d ∧ d ≤ T + DefaultDeadline) as (d & Hed & Hdd).
      { unfold effective_deadline. replace (0 <? DefaultDeadline) with true by done.
        repeat case_match; eexists; (split; [done|lia]). }
      destruct (open_timely ctx (new_netConn (hello ++ rest) T) password (newSettings []) d)
        as (r & c' & HO' & Hn); [exact Hed|].
      rewrite HO in HO'. injection HO' as _ <-. change (nc_now (new_netConn (hello ++ rest) T)) with T in Hn.
      unfold DefaultDeadline, Second in *. lia.
    + exists c. split; [|done]. by rewrite insert_app_r_alt, Nat.sub_diag by lia.
  - unfold bind. match goal with |- context [close_slot ?l ?w'] =>
      destruct (close_slot_spec l (SConn (later rest c)) w') as (r & s' & -> & _) end.
    + cbn [put set_clock set_slots w_slots]. rewrite insert_app_r_alt, Nat.sub_diag by lia.
      simpl. by rewrite list_lookup_middle.
    + by eexists.
Qed.

(** ** One command on a ready connection *)

(** The slot of a ready connection on which [l] is still to arrive. *)
Definition talking (w : World) (l : nat) (i : Z) (out : list byte) (rest : list (Z * arrival)) : Prop :=
  ∃ c, w_slots w !! l = Some (SConn (later rest c)) ∧ ready (newSettings []) i out c.

Lemma talking_Execute ctx command w l i out arr rest hi o :
  talking w l i out (arr ++ rest) → good_command command →
  hi ≤ w_now w + DefaultDeadline → leaves_time ctx (w_now w) hi →
  delivered hi (frames (reply i o)) arr →
  ∃ w' s', on_conn l (Conn.Execute ctx command) w = Ret (Ok (string_of o)) w' ∧
    w_slots w' = <[l := s']> (w_slots w) ∧ w_dials w' = w_dials w ∧
    (w_now w ≤ w_now w' ≤ w_now w + DefaultDeadline ∧ ∀ t, comes t arr → t ≤ w_now w') ∧
    talking w' l (next_id (next_id i)) (out ++ frames (question i command)) rest.
Proof.
  intros (c & Hc & Hr) [Hne Hlen] Hhi Hctx Hl.
  set (c1 := set_sock (set_now (w_now w) (sock c)) c).
  assert (ready (newSettings []) i out c1) as Hr1 by (by destruct Hr).
  destruct (deadline_bounds ctx (w_now w) hi Hhi Hctx) as [Hb Hd].
  assert (exec_deadline ctx c1 = effective_deadline ctx DefaultDeadline (w_now w)) as Hed
    by (unfold exec_deadline; by rewrite (rd_set _ _ _ _ Hr1)).
  destruct (Execute_ready ctx command _ _ _ c1 arr hi o Hr1) as (c2 & HE & Hr2);
    [done|done|done|by rewrite Hed|by rewrite Hed|done|].
  assert (∃ d, exec_deadline ctx (later (arr ++ rest) c1) = Some d ∧ d ≤ w_now w + DefaultDeadline) as (d & Hd' & Hdd).
  { change (exec_deadline ctx (later (arr ++ rest) c1)) with (exec_deadline ctx c1). rewrite Hed.
    unfold effective_deadline. replace (0 <? DefaultDeadline) with true by done.
    repeat case_match; eexists; (split; [done|lia]). }
  destruct (Execute_timely ctx command (later (arr ++ rest) c1) d) as (r & c' & HE' & Hn);
    [change (set (later (arr ++ rest) c1)) with (set c1); by rewrite (rd_set _ _ _ _ Hr1)|done|].
  rewrite HE in HE'. injection HE' as _ <-.
  eexists _, _. split; [eapply on_conn_Ret; [done|apply HE]|].
  split; [done|]. split; [done|]. split.
  { change (nc_now (sock (later (arr ++ rest) c1))) with (w_now w) in Hn.
    split; [change (w_now w ≤ nc_now (sock (later rest c2)) ≤ w_now w + DefaultDeadline);
      unfold DefaultDeadline, Second in *; lia|]. pose proof (HE []) as HE0. rewrite app_nil_r, later_nil in HE0.
    exact (Execute_heard _ _ _ _ _ _ HE0 (rd_in _ _ _ _ Hr2)). }
  exists c2. split; [|done]. cbn [put set_clock set_slots w_slots].
  apply list_lookup_insert_eq. by eapply lookup_lt_Some.
Qed.

(** The one-shot call: dial, run, close. *)
Lemma Execute_talks tie address password command w t hello arr rest ds hi0 hi o :
  w_dials w = Connects t (hello ++ arr ++ rest) :: ds → let T := Z.max (w_now w) t in
  T < w_now w + Client.DefaultDialTimeout → hi0 ≤ T + DefaultDeadline → hi ≤ T + DefaultDeadline →
  good_command command →
  delivered hi0 (frames (auth_answer srv (auth_packet password))) hello →
  delivered hi (frames (reply 1 o)) arr →
  ∃ w', Client.Execute tie DefaultClient address password command Background w =
    Ret (Returned (if checkPassword srv password then Ok (string_of o) else Err ErrAuthFailed)) w'.
Proof.
  intros Hds T HT Hhi0 Hhi Hc Hhello Harr. unfold Client.Execute. cbv zeta.
  change (Z.to_nat ((if attempts DefaultClient <? 1 then 1 else attempts DefaultClient) - 1)) with 0%nat.
  set (ctx := call_ctx DefaultClient Background (w_now w)).
  assert (∀ now hi, now < w_now w + DefaultTimeout → hi ≤ w_now w + DefaultTimeout → leaves_time ctx now hi) as Hctx
    by (intros ???? d [= <-]; unfold DefaultTimeout, Second in *; lia).
  assert (T + DefaultDeadline < w_now w + DefaultTimeout) as HT'
    by (unfold Client.DefaultDialTimeout, DefaultDeadline, DefaultTimeout, Second in *; lia).
  assert (T < w_now w + DefaultTimeout) as HT2 by (unfold DefaultDeadline, Second in *; lia).
  destruct (dial_ready ctx address password w t hello (arr ++ rest) ds hi0) as (w1 & HD & Hok);
    [done|done|done|apply Hctx; [done|fold T; lia]|done|done|].
  cbn [attempt_loop]. unfold executeOnce. unfold bind at 1 2. rewrite HD.
  destruct (checkPassword srv password); [|by eexists].
  destruct Hok as (_ & [Hn1 Hn2] & c & Hsl & Hr); [done|]. fold T in Hn1, Hn2.
  destruct (talking_Execute ctx command w1 (length (w_slots w)) 1 (frames [auth_packet password]) arr rest hi o)
    as (w2 & s2 & HE & Hsl2 & _ & _ & c2 & Hc2 & _);
    [by exists c; rewrite Hsl, list_lookup_middle|done|lia|apply Hctx; lia|done|].
  unfold bind. rewrite HE. unfold on_conn at 1. rewrite Hc2.
  destruct (Conn_Close_spec (set_sock (set_now (w_now w2) (sock (later rest c2))) (later rest c2)))
    as (r & c3 & -> & _). by eexists.
Qed.

Lemma SessionExecute_talks ctx command s w i out arr rest hi o :
  s_client s = DefaultClient → talking w (s_conn s) i out (arr ++ rest) → good_command command →
  hi ≤ w_now w + DefaultDeadline → leaves_time ctx (w_now w) hi →
  delivered hi (frames (reply i o)) arr →
  ∃ w' s', SessionExecute ctx command (s, w) = Ret (Ok (string_of o)) (s, w') ∧
    w_slots w' = <[s_conn s := s']> (w_slots w) ∧ w_dials w' = w_dials w ∧
    (w_now w ≤ w_now w' ≤ w_now w + DefaultDeadline ∧ ∀ t, comes t arr → t ≤ w_now w') ∧
    talking w' (s_conn s) (next_id (next_id i)) (out ++ frames (question i command)) rest.
Proof.
  intros Hs Ht Hc Hhi Hctx Hl.
  destruct (talking_Execute (call_ctx DefaultClient ctx (w_now w)) command w (s_conn s) i out arr rest hi o)
    as (w' & s' & HE & Hsl & Hds & Hn & Ht'); [done..|by apply call_ctx_time|done|].
  exists w', s'. split; [|exact (conj Hsl (conj Hds (conj Hn Ht')))].
  unfold SessionExecute. unfold gets at 1, bind at 1. cbn [fst]. unfold on_world at 1, gets, zoom, bind at 1.
  cbn [fst snd]. rewrite Hs. unfold bind, on_world, zoom. cbn [snd]. by rewrite HE.
Qed.
End Peer.
