(* ===== verification/Recovery.v ===== *)
(** * A dropped connection

    A server whose handler panics drops the connection without a reply (this is
    how [fakercon.DropNext] simulates a failure). A session notices the end of the
    stream, reconnects once and runs the command again. *)

From S2P Require Import Prelude GoErrors GoIO GoNet Packet Options Conn ConnProps Server ServerProps EndToEnd FakeRcon Dialogue World Client ClientProps Talk.

Local Open Scope Z_scope.

(** ** The end of the stream in place of a reply *)

Lemma recv_quiet_Fin n now dl q t :
  quiet q → before (Z.max now t) dl = true →
  recv n now dl (q ++ [(t, Fin)]) = Some ([], Some EOF, [(t, Fin)], Z.max now t).
Proof.
  intros Hq Hb. induction Hq as [|[t' a] q Ha _ IH]; simpl; [by rewrite Hb|]. simpl in Ha. by subst a.
Qed.

Lemma sock_Read_end n (s : netConn) q t :
  (0 < n)%nat → nc_in s = q ++ [(t, Fin)] → quiet q → nc_closed s = false →
  before (Z.max (nc_now s) t) (nc_rdeadline s) = true →
  Read n s = Ret ([], Some EOF) (set_in [(t, Fin)] (Z.max (nc_now s) t) s).
Proof.
  intros Hn Hin Hq Hc Hb. unfold Read, netConn_Reader. rewrite decide_False, Hc by lia.
  pose proof Hb as Hb0. rewrite before_max in Hb0. apply andb_true_iff in Hb0 as [-> _]. simpl.
  by rewrite Hin, recv_quiet_Fin.
Qed.

(** Reading a packet where the stream ends. *)
Lemma ReadFrom_end (c : Conn) q t :
  b_buf (br c) = [] → b_err (br c) = None → nc_in (sock c) = q ++ [(t, Fin)] → quiet q →
  nc_closed (sock c) = false → before (Z.max (nc_now (sock c)) t) (nc_rdeadline (sock c)) = true →
  ∃ c', ReadFrom c = Ret (0, Err EOF) c' ∧ nc_now (sock c') = Z.max (nc_now (sock c)) t.
Proof.
  destruct c as [[s buf err] st cl i]. unfold sock. simpl. intros -> -> Hin Hq Hc Hb.
  assert (Read 4 (mkConn (mkBufio s [] None) st cl i) =
    Ret ([], Some EOF) (mkConn (mkBufio (set_in [(t, Fin)] (Z.max (nc_now s) t) s) [] None) st cl i)) as HR.
  { unfold Read, Conn_Reader, zoom, Read, bufio_Reader. simpl.
    rewrite (sock_Read_end _ s q t) by (done || unfold bufio_size; lia). done. }
  eexists. split.
  - unfold ReadFrom, ReadFull. erewrite bind_Ret; [|erewrite bind_Ret; [|cbn [read_loop]; rewrite decide_False by done;
      rewrite (bind_Ret _ _ _ _ _ HR); done]; done]. done.
  - done.
Qed.

(** [Execute] on a ready connection whose peer hangs up at [t]. *)
Lemma Execute_dropped ctx command st i out c t :
  ready st i out c → mode st = readMulti → command ≠ "" →
  (0 < maxCommandLen st → Z.of_nat (len command) ≤ maxCommandLen st) →
  before (Z.max (nc_now (sock c)) t) (exec_deadline ctx c) = true →
  ∃ c', Conn.Execute ctx command (later [(t, Fin)] c) = Ret (Err EOF) c' ∧
        nc_now (sock c') = Z.max (nc_now (sock c)) t.
Proof.
  intros Hr Hm Hne Hlen Hb. pose proof Hb as Hb0. rewrite before_max in Hb0. apply andb_true_iff in Hb0 as [Hb0 _].
  destruct Hr as [Hset Hcl Hid Hsc Hwf Hbuf Herr Hsent Hin].
  rewrite Execute_start.
  2:{ split_and!; [done|done|by change (set (later _ c)) with (set c); rewrite Hset]. }
  2:{ split_and!; done. }
  change (set (later [(t, Fin)] c)) with (set c). rewrite Hset, Hm.
  set (c1 := requested_multi ctx command (later [(t, Fin)] c)).
  destruct (ReadFrom_end c1 (nc_in (sock c)) t) as (c' & HR & Hn); [done..|].
  exists c'. split; [|done]. unfold readMultiPacket. cbn [multi_loop]. by rewrite (bind_Ret _ _ _ _ _ HR).
Qed.

(** ** Session.Execute reconnects *)

Section Reconnect.
Context {H : Type} (srv : Server H).

(** The failed command and the close leave slot [l] closed and the clock at the
    end of the old stream. *)
Lemma drop_and_close ctx command w l i out t :
  talking w l i out [(t, Fin)] → good_command command →
  leaves_time ctx (Z.max (w_now w) t) (Z.max (w_now w) t) →
  Z.max (w_now w) t < w_now w + DefaultDeadline →
  ∃ w1 w2 r s, on_conn l (Conn.Execute ctx command) w = Ret (Err EOF) w1 ∧
    on_conn l Conn.Close w1 = Ret r w2 ∧ w_now w2 = Z.max (w_now w) t ∧ w_dials w2 = w_dials w ∧
    w_slots w2 = <[l := s]> (w_slots w) ∧ slot_closed s = true.
Proof.
  intros (c & Hc & Hr) [Hne Hlen] Hctx Ht.
  set (c1 := set_sock (set_now (w_now w) (sock c)) c).
  assert (ready (newSettings []) i out c1) as Hr1 by (by destruct Hr).
  destruct (Execute_dropped ctx command _ i out c1 t Hr1) as (c2 & HE & Hn); [done|done|done| |].
  { change (nc_now (sock c1)) with (w_now w). unfold exec_deadline. rewrite (rd_set _ _ _ _ Hr1).
    change (nc_now (sock c1)) with (w_now w). change (deadline (newSettings [])) with DefaultDeadline.
    unfold effective_deadline. replace (0 <? DefaultDeadline) with true by done.
    destruct (ctx_deadline ctx) as [d|] eqn:Hd; [destruct (Hctx d Hd); case_match|]; apply Z.ltb_lt; lia. }
  destruct (Conn_Close_spec (set_sock (set_now (nc_now (sock c2)) (sock c2)) c2)) as (r & c3 & HC & _ & Hcl & Hn3 & _).
  assert (w_slots (put l (SConn c2) w) !! l = Some (SConn c2)) as Hl.
  { apply list_lookup_insert_eq. by eapply lookup_lt_Some. }
  eexists _, _, _, _. split; [by eapply on_conn_Ret|]. split; [by eapply on_conn_Ret|].
  cbn [put set_clock set_slots w_now w_dials w_slots slot_sock]. split_and!.
  - rewrite Hn3. exact Hn.
  - done.
  - apply list_insert_insert_eq.
  - exact Hcl.
Qed.

Lemma SessionExecute_reconnects command s w i out td t hello arr rest ds o :
  s_client s = DefaultClient → talking w (s_conn s) i out [(td, Fin)] → good_command command →
  w_dials w = Connects t (hello ++ arr ++ rest) :: ds → checkPassword srv (s_password s) = true →
  let hi := w_now w + DefaultDeadline in
  td < hi → t < hi →
  delivered hi (frames (auth_answer srv (auth_packet (s_password s)))) hello →
  delivered hi (frames (reply 1 o)) arr →
  ∃ w' s1 s2, SessionExecute Background command (s, w) =
      Ret (Ok (string_of o)) (set_conn (length (w_slots w)) s, w') ∧
    w_slots w' = <[s_conn s := s1]> (w_slots w) ++ [s2] ∧ slot_closed s1 = true ∧
    talking w' (length (w_slots w)) 3 (frames (auth_packet (s_password s) :: question 1 command)) rest.
Proof.
  intros Hs Ht Hc Hds Hpw hi Htd Ht2 Hhello Harr.
  set (ctx := call_ctx DefaultClient Background (w_now w)).
  assert (∀ now hi, now < w_now w + DefaultTimeout → hi ≤ w_now w + DefaultTimeout → leaves_time ctx now hi) as Hctx
    by (intros ???? d [= <-]; unfold DefaultTimeout, Second in *; lia).
  assert (DefaultTimeout = 2 * DefaultDeadline) as HDT by done.
  assert (0 < DefaultDeadline) as HD0 by done.
  destruct (drop_and_close ctx command w (s_conn s) i out td)
    as (w1 & w2 & r & s1 & HE & HC & Hn2 & Hds2 & Hsl2 & Hcl); [done|done|apply Hctx; lia|lia|].
  assert (length (w_slots w2) = length (w_slots w)) as Hlen by (by rewrite Hsl2, length_insert).
  destruct (dial_ready srv ctx (s_address s) (s_password s) w2 t hello (arr ++ rest) ds hi) as (w3 & HDl & Hok);
    [by rewrite Hds2|done|change Client.DefaultDialTimeout with DefaultDeadline; lia|apply Hctx; lia|lia|done|].
  rewrite Hpw in HDl. destruct (Hok Hpw) as (_ & [Hn3 Hn3'] & c & Hsl3 & Hr).
  destruct (talking_Execute ctx command w3 (length (w_slots w2)) 1 (frames [auth_packet (s_password s)]) arr rest hi o)
    as (w4 & s2 & HE4 & Hsl4 & _ & _ & Ht4);
    [by exists c; rewrite Hsl3, list_lookup_middle|done|lia|apply Hctx; lia|done|].
  exists w4, s1, s2. split_and!.
  - unfold SessionExecute. unfold gets at 1, bind at 1. cbn [fst]. unfold on_world at 1, gets, zoom, bind at 1.
    cbn [fst snd]. rewrite Hs. fold ctx. unfold bind, on_world, zoom. cbn [fst snd]. rewrite HE.
    change (negb (isRetryable EOF)) with false. cbn [fst snd]. rewrite HC. cbn [fst snd]. rewrite HDl.
    unfold modify. cbn [fst snd]. by rewrite HE4, Hlen.
  - rewrite Hsl4, Hsl3, insert_app_r_alt, Nat.sub_diag by lia. by rewrite Hsl2.
  - done.
  - rewrite <- Hlen. by rewrite <- frames_app in Ht4.
Qed.
End Reconnect.

(** A server whose handler panics on the command sends the handshake and hangs up. *)
Lemma serve_panic {H} (srv : Server H) (handler : Handler H) doneCtx password command l hi h :
  Z.of_nat (len password) ≤ MaxPayloadSize → good_command command → ReadTimeout srv ≤ 0 →
  checkPassword srv password = true →
  hr_panics (command_run handler doneCtx command h) = true →
  delivered hi (frames (transcript password [command])) l →
  ∃ st', final (serveConn srv handler doneCtx (serving l h)) = Some st' ∧ nc_closed (sv_conn st') = true ∧
    nc_out (sv_conn st') = frames (auth_answer srv (auth_packet password)) ∧
    sv_handler st' = hr_next (command_run handler doneCtx command h).
Proof.
  intros Hpw Hc Hr Hok Hp Hl.
  destruct (arriving_delivered hi _ l [(0, Fin)] None Hl ltac:(done)) as [Ha Ht].
  pose proof (serveConn_session srv handler doneCtx (auth_packet password) (questions 1 [command]) (serving l h) Hr) as HS.
  specialize (HS ltac:(split_and!; done)).
  specialize (HS ltac:(apply Forall_cons_2; [split_and!; done|by apply questions_valid; constructor]) eq_refl).
  specialize (HS ltac:(change (arriving None (l ++ [(0, Fin)]) = frames (transcript password [command])); by rewrite Ha, app_nil_r)).
  cbv zeta in HS. change (nc_in (sv_conn (serving l h))) with (l ++ [(0, Fin)]) in HS. rewrite Ht in HS.
  specialize (HS (or_intror eq_refl)). cbn [auth_packet Body] in HS. rewrite Hok in HS.
  change (nc_remote (sv_conn (serving l h))) with "" in HS. change (sv_handler (serving l h)) with h in HS.
  cbn [questions question app session] in HS. unfold answer in HS at 1. cbn [Type_ Body ID Z.eqb TypeExecCommand Pos.eqb] in HS.
  fold (command_run handler doneCtx command h) in HS. unfold command_run in *. rewrite Hp in HS.
  destruct HS as (st' & HF & Ho & Hh & Hcl). exists st'. split_and!; [done|done| |done].
  by rewrite Ho, app_nil_r.
Qed.

(** ** Theorem *)

(** C19: a session survives a dropped connection. A session dials a server; the
    server's handler panics on the command, so [serveConn] hangs up after the
    handshake without a reply. [Session.Execute] then closes the dead connection,
    dials again and runs the command a second time; the server, carrying on with
    its handler's state, answers, and [Execute] returns exactly what the handler
    wrote the second time. The first connection is closed, the second is the
    session's. All of it happens within the client's timeout when the network
    answers within 5 seconds. *)
Theorem session_survives_drop {H} (srv : Server H) (handler : Handler H) (doneCtx : option Context)
    (address password command : string) (h : H) (w : World) (t1 td t2 hi : Z)
    (hello1 hello2 arr arrive : list (Z * arrival)) (ds : list dial_answer) :
  let h1 := hr_next (command_run handler doneCtx command h) in
  let again := command_run handler doneCtx command h1 in
  let T := Z.max (w_now w) t1 in
  Z.of_nat (len password) ≤ MaxPayloadSize → good_command command → ReadTimeout srv ≤ 0 →
  checkPassword srv password = true →
  hr_panics (command_run handler doneCtx command h) = true → hr_panics again = false →
  delivered hi (frames (transcript password [command])) arrive →
  w_dials w = Connects t1 (hello1 ++ [(td, Fin)]) :: Connects t2 (hello2 ++ arr) :: ds →
  T < w_now w + Client.DefaultDialTimeout → td < T + DefaultDeadline → t2 < T + DefaultDeadline →
  delivered (T + DefaultDeadline) (frames (auth_answer srv (auth_packet password))) hello1 →
  delivered (T + DefaultDeadline) (frames (auth_answer srv (auth_packet password))) hello2 →
  delivered (T + DefaultDeadline) (frames (reply 1 (written again))) arr →
  (∃ st1 st2, final (serveConn srv handler doneCtx (serving arrive h)) = Some st1 ∧
     nc_closed (sv_conn st1) = true ∧ nc_out (sv_conn st1) = frames (auth_answer srv (auth_packet password)) ∧
     final (serveConn srv handler doneCtx (serving arrive (sv_handler st1))) = Some st2 ∧
     nc_out (sv_conn st2) = frames (auth_answer srv (auth_packet password)) ++ frames (reply 1 (written again))) ∧
  ∃ s w1 s' w2 dead live, DialSession DefaultClient Background address password w = Ret (Ok s) w1 ∧
    SessionExecute Background command (s, w1) = Ret (Ok (string_of (written again))) (s', w2) ∧
    w_slots w2 = w_slots w ++ [dead; live] ∧ slot_closed dead = true ∧ s_conn s' = S (s_conn s).
Proof.
  intros h1 again T Hpw Hc Hr Hok Hp Hnp Harr Hds HT Htd Ht2 Hh1 Hh2 Hrep. split.
  { destruct (serve_panic srv handler doneCtx password command arrive hi h) as (st1 & HF1 & Hcl & Ho & Hst); [done..|].
    destruct (serve_transcript srv handler doneCtx password [command] arrive hi h1) as (st2 & HF2 & _ & HS);
      [done|by constructor|done|by split|done|].
    rewrite Hok in HS. exists st1, st2. rewrite Hst. split_and!; [done..|]. destruct HS as [-> _].
    cbn [outputs fst replies fmap list_fmap concat]. by rewrite app_nil_r. }
  destruct (dial_ready srv Background address password w t1 hello1 [(td, Fin)] (Connects t2 (hello2 ++ arr) :: ds)
    (T + DefaultDeadline)) as (w1 & HD & Hdr); [done..|]. rewrite Hok in HD.
  destruct (Hdr Hok) as (Hds1 & [Hn1 _] & c & Hsl & Hrd). fold T in Hn1.
  set (s := mkSession DefaultClient address password (length (w_slots w))).
  destruct (SessionExecute_reconnects srv command s w1 1 (frames [auth_packet password]) td t2 hello2 arr [] ds
    (written again)) as (w2 & s1 & s2 & HE & Hsl2 & Hcl & _);
    [done|by exists c; rewrite Hsl, list_lookup_middle|done|by rewrite app_nil_r|done|lia|lia|by eapply delivered_mono; [|done]; lia..|].
  exists s, w1. eexists _, w2, s1, s2. split_and!; [|exact HE| |done|].
  - unfold DialSession. by rewrite (bind_Ret _ _ _ _ _ HD).
  - rewrite Hsl2, Hsl. cbn [s s_conn]. rewrite insert_app_r_alt, Nat.sub_diag by lia. simpl. by rewrite <- app_assoc.
  - rewrite Hsl, length_app. simpl. lia.
Qed.

(** The fake server of the tests, armed to drop the next command. *)
Lemma session_survives_drop_witness :
  let f := Handle "list" "a b" new_fake in
  let srv := fake_server "pw" in
  let hello t := two_segs t (frames (auth_answer srv (auth_packet "pw"))) in
  let w := mkWorld 0 [] [Connects 1 (hello 2 ++ [(5, Fin)]);
    Connects 6 (hello 7 ++ two_segs 8 (frames (reply 1 (bytes_of "a b"))))] in
  ∃ s w1 s' w2, DialSession DefaultClient Background "addr" "pw" w = Ret (Ok s) w1 ∧
    SessionExecute Background "list" (s, w1) = Ret (Ok "a b") (s', w2) ∧ s_conn s' = 1%nat.
Proof.
  intros f srv hello w.
  destruct (session_survives_drop srv ServeRCON None "addr" "pw" "list" (DropNext f) w 1 5 6 10
    (hello 2) (hello 7) (two_segs 8 (frames (reply 1 (bytes_of "a b"))))
    (two_segs 9 (frames (transcript "pw" ["list"]))) []) as [_ (s & w1 & s' & w2 & dead & live & HD & HE & Hs & _ & Hc)].
  - vm_compute. discriminate.
  - split; [discriminate|vm_compute; discriminate].
  - discriminate.
  - reflexivity.
  - reflexivity.
  - reflexivity.
  - apply two_segs_delivered. reflexivity.
  - reflexivity.
  - reflexivity.
  - reflexivity.
  - reflexivity.
  - apply two_segs_delivered. reflexivity.
  - apply two_segs_delivered. reflexivity.
  - apply two_segs_delivered. reflexivity.
  - exists s, w1, s', w2. split; [exact HD|]. split; [exact HE|]. rewrite Hc. vm_compute in HD. injection HD as <- _. reflexivity.
Defined.
