(* ===== verification/Lifecycle.v ===== *)
(** * rconserver: the lifecycle of a server

    [Serve], [Close], [Shutdown], [trackConn] and [trackListener] of
    [rconserver/server.go] as goroutines over the shared [Server] fields. [pc] is
    where a goroutine stands: one constructor per point at which another
    goroutine can interleave (lock operations, atomic loads and stores, accepts,
    closes). [step t ch st] is goroutine [t]'s next step; [ch] resolves what the
    source leaves open: what [Accept] returns, which map entry a [range] visits
    next, what a connection's peer and handler do, which case a [select] takes.

    A connection goroutine is abstracted to what the lifecycle sees of it: it is
    serving, running a handler ([dispatch] between [handlerWG.Add] and [Done]),
    about to close its connection, or about to untrack it ([serveConn] itself is
    modelled in [Server]; [ServeConc] runs it in the place of this abstraction). *)

From S2P Require Import Prelude GoErrors GoIO GoNet Packet Server.

(** Where a goroutine stands. [ln] and [c] identify listeners and connections. *)
Inductive pc :=
  (* Serve(ln) *)
  | SvInit (ln : nat)
  | SvTrack (ln : nat)                      (* trackListener(&ln, true): before Lock *)
  | SvTrackLoad (ln : nat)
  | SvTrackAdd (ln : nat)
  | SvRefused (ln : nat)
  | SvAccept (ln : nat)
  | SvAcceptErr (ln : nat) (e : error)
  | SvTrackC (ln c : nat)                   (* trackConn(conn, true): before Lock *)
  | SvTrackCLoad (ln c : nat)
  | SvTrackCAdd (ln c : nat)
  | SvGo (ln c : nat)
  | SvDropC (ln c : nat)
  | SvUntrack (ln : nat) (e : error)        (* deferred trackListener(&ln, false) *)
  | SvCloseLn (ln : nat) (e : error)        (* deferred ln.Close() *)
  | SvDone (ln : nat) (e : error)
  (* the goroutine of a connection *)
  | GServe (c : nat)
  | GHandle (c : nat)
  | GClose (c : nat)
  | GUntrack (c : nat)
  | GDone
  (* Close() *)
  | ClStore
  | ClLock
  | ClCancel
  | ClLns (todo : gmap nat nat) (err : option error)
  | ClConns (todo : gset nat) (err : option error)
  | ClDone (err : option error)
  (* Shutdown(ctx) *)
  | SdStore
  | SdLock
  | SdLns (todo : gmap nat nat)
  | SdCancel
  | SdWait (done : bool)                    (* the select; done: closed by the waiting goroutine *)
  | SdLock2 (err : option error)
  | SdConns (todo : gset nat) (err : option error)
  | SdDone (err : option error).

(** The shared state. [None] is a nil map or a nil [cancel]; a tracked listener's
    key is the address of the [Serve] call's own variable, so the calling
    goroutine's number. *)
Record lstate := mkL {
  mu : option nat;
  conns : option (gset nat);
  listeners : option (gmap nat nat);
  inShutdown : bool;
  cancel : option bool;
  handlerWG : nat;
  ln_closed : gset nat;
  c_closed : gset nat;
  accepted : gset nat;
  threads : gmap nat pc
}.

Definition init : lstate := mkL None None None false None 0 ∅ ∅ ∅ ∅.

(** What the source leaves open. *)
Inductive choice :=
  | Next
  | Pick (n : nat)            (* a map entry, or a fresh goroutine number *)
  | AcceptConn (c : nat)
  | AcceptFail (e : error)
  | Begin                     (* a command was read: run the handler *)
  | Leave                     (* serveConn stops serving *)
  | CtxDone (e : error).

Definition goto (t : nat) (p : pc) (st : lstate) : lstate :=
  mkL (mu st) (conns st) (listeners st) (inShutdown st) (cancel st) (handlerWG st)
    (ln_closed st) (c_closed st) (accepted st) (<[t := p]> (threads st)).
Definition set_mu (m : option nat) (st : lstate) : lstate :=
  mkL m (conns st) (listeners st) (inShutdown st) (cancel st) (handlerWG st)
    (ln_closed st) (c_closed st) (accepted st) (threads st).
Definition set_conns (x : option (gset nat)) (st : lstate) : lstate :=
  mkL (mu st) x (listeners st) (inShutdown st) (cancel st) (handlerWG st)
    (ln_closed st) (c_closed st) (accepted st) (threads st).
Definition set_listeners (x : option (gmap nat nat)) (st : lstate) : lstate :=
  mkL (mu st) (conns st) x (inShutdown st) (cancel st) (handlerWG st)
    (ln_closed st) (c_closed st) (accepted st) (threads st).
Definition set_shutdown (st : lstate) : lstate :=
  mkL (mu st) (conns st) (listeners st) true (cancel st) (handlerWG st)
    (ln_closed st) (c_closed st) (accepted st) (threads st).
Definition set_cancel (x : option bool) (st : lstate) : lstate :=
  mkL (mu st) (conns st) (listeners st) (inShutdown st) x (handlerWG st)
    (ln_closed st) (c_closed st) (accepted st) (threads st).
Definition set_wg (n : nat) (st : lstate) : lstate :=
  mkL (mu st) (conns st) (listeners st) (inShutdown st) (cancel st) n
    (ln_closed st) (c_closed st) (accepted st) (threads st).
Definition close_ln (ln : nat) (st : lstate) : lstate :=
  mkL (mu st) (conns st) (listeners st) (inShutdown st) (cancel st) (handlerWG st)
    ({[ln]} ∪ ln_closed st) (c_closed st) (accepted st) (threads st).
Definition close_c (c : nat) (st : lstate) : lstate :=
  mkL (mu st) (conns st) (listeners st) (inShutdown st) (cancel st) (handlerWG st)
    (ln_closed st) ({[c]} ∪ c_closed st) (accepted st) (threads st).
Definition accept (c : nat) (st : lstate) : lstate :=
  mkL (mu st) (conns st) (listeners st) (inShutdown st) (cancel st) (handlerWG st)
    (ln_closed st) (c_closed st) ({[c]} ∪ accepted st) (threads st).

(** [s.mu.Lock()]: enabled when nobody holds it. *)
Definition lock (t : nat) (st : lstate) : option lstate :=
  match mu st with None => Some (set_mu (Some t) st) | Some _ => None end.
Definition unlock (st : lstate) : lstate := set_mu None st.

(** The result of [Close] on a listener, kept if it is the first error. *)
Definition first_err (ln : nat) (err : option error) (st : lstate) : option error :=
  match err with
  | None => if decide (ln ∈ ln_closed st) then Some errUseOfClosed else None
  | Some e => Some e
  end.

(** *** Serve *)
Definition step_serve (t : nat) (p : pc) (ch : choice) (st : lstate) : option lstate :=
  match p, ch with
  | SvInit ln, Next =>
      match mu st with
      | Some _ => None
      | None =>
          let st := set_conns (Some (default ∅ (conns st))) st in
          let st := set_listeners (Some (default ∅ (listeners st))) st in
          let st := set_cancel (Some (default false (cancel st))) st in
          Some (goto t (SvTrack ln) st)
      end
  | SvTrack ln, Next => (goto t (SvTrackLoad ln)) <$> (lock t st)
  | SvTrackLoad ln, Next =>
      if inShutdown st then Some (goto t (SvRefused ln) (unlock st))
      else Some (goto t (SvTrackAdd ln) st)
  | SvTrackAdd ln, Next =>
      (* assignment to a nil map panics; Serve made it before *)
      (l ← listeners st;
      Some (goto t (SvAccept ln) (unlock (set_listeners (Some (<[t := ln]> l)) st))))
  | SvRefused ln, Next => Some (goto t (SvCloseLn ln ErrServerClosed) (close_ln ln st))
  | SvAccept ln, AcceptConn c =>
      if decide ((ln ∉ ln_closed st) ∧ (c ∉ accepted st))
      then Some (goto t (SvTrackC ln c) (accept c st)) else None
  | SvAccept ln, AcceptFail e => Some (goto t (SvAcceptErr ln e) st)
  | SvAcceptErr ln e, Next =>
      Some (goto t (SvUntrack ln (if inShutdown st then ErrServerClosed else e)) st)
  | SvTrackC ln c, Next => (goto t (SvTrackCLoad ln c)) <$> (lock t st)
  | SvTrackCLoad ln c, Next =>
      if inShutdown st then Some (goto t (SvDropC ln c) (unlock st))
      else Some (goto t (SvTrackCAdd ln c) st)
  | SvTrackCAdd ln c, Next =>
      (l ← conns st;
      Some (goto t (SvGo ln c) (unlock (set_conns (Some ({[c]} ∪ l)) st))))
  | SvGo ln c, Pick t' =>
      if decide (t' ∉ dom (threads st))
      then Some (goto t (SvAccept ln) (goto t' (GServe c) st)) else None
  | SvDropC ln c, Next => Some (goto t (SvUntrack ln ErrServerClosed) (close_c c st))
  | SvUntrack ln e, Next =>
      match mu st with
      | Some _ => None
      | None => Some (goto t (SvCloseLn ln e) (set_listeners ((delete t) <$> (listeners st)) st))
      end
  | SvCloseLn ln e, Next => Some (goto t (SvDone ln e) (close_ln ln st))
  | _, _ => None
  end.

(** *** The goroutine of a connection *)
Definition step_conn (t : nat) (p : pc) (ch : choice) (st : lstate) : option lstate :=
  match p, ch with
  | GServe c, Begin => Some (goto t (GHandle c) (set_wg (S (handlerWG st)) st))
  | GServe c, Leave => Some (goto t (GClose c) st)
  | GHandle c, Next => Some (goto t (GServe c) (set_wg (pred (handlerWG st)) st))
  | GHandle c, Leave => Some (goto t (GClose c) (set_wg (pred (handlerWG st)) st))
  | GClose c, Next => Some (goto t (GUntrack c) (close_c c st))
  | GUntrack c, Next =>
      match mu st with
      | Some _ => None
      | None => Some (goto t GDone (set_conns ((λ l, l ∖ {[c]}) <$> conns st) st))
      end
  | _, _ => None
  end.

(** *** Close *)
Definition step_close (t : nat) (p : pc) (ch : choice) (st : lstate) : option lstate :=
  match p, ch with
  | ClStore, Next => Some (goto t ClLock (set_shutdown st))
  | ClLock, Next => (goto t ClCancel) <$> (lock t st)
  | ClCancel, Next =>
      Some (goto t (ClLns (default ∅ (listeners st)) None) (set_cancel ((λ _, true) <$> cancel st) st))
  | ClLns todo err, Pick k =>
      ln ← todo !! k;
      Some (goto t (ClLns (delete k todo) (first_err ln err st)) (close_ln ln st))
  | ClLns todo err, Next =>
      if decide (todo = ∅) then Some (goto t (ClConns (default ∅ (conns st)) err) st) else None
  | ClConns todo err, Pick c =>
      if decide (c ∈ todo) then Some (goto t (ClConns (todo ∖ {[c]}) err) (close_c c st)) else None
  | ClConns todo err, Next =>
      if decide (todo = ∅) then Some (goto t (ClDone err) (unlock st)) else None
  | _, _ => None
  end.

(** *** Shutdown *)
Definition step_shutdown (t : nat) (p : pc) (ch : choice) (st : lstate) : option lstate :=
  match p, ch with
  | SdStore, Next => Some (goto t SdLock (set_shutdown st))
  | SdLock, Next => (λ st, goto t (SdLns (default ∅ (listeners st))) st) <$> lock t st
  | SdLns todo, Pick k =>
      ln ← todo !! k;
      Some (goto t (SdLns (delete k todo)) (close_ln ln st))
  | SdLns todo, Next =>
      if decide (todo = ∅) then Some (goto t SdCancel (unlock st)) else None
  | SdCancel, Next => Some (goto t (SdWait false) (set_cancel ((λ _, true) <$> cancel st) st))
  | SdWait false, Next =>
      (* go func() { s.handlerWG.Wait(); close(done) }() *)
      if decide (handlerWG st = 0) then Some (goto t (SdWait true) st) else None
  | SdWait true, Next => Some (goto t (SdLock2 None) st)
  | SdWait _, CtxDone e => Some (goto t (SdLock2 (Some e)) st)
  | SdLock2 err, Next => (λ st, goto t (SdConns (default ∅ (conns st)) err) st) <$> lock t st
  | SdConns todo err, Pick c =>
      if decide (c ∈ todo) then Some (goto t (SdConns (todo ∖ {[c]}) err) (close_c c st)) else None
  | SdConns todo err, Next =>
      if decide (todo = ∅) then Some (goto t (SdDone err) (unlock st)) else None
  | _, _ => None
  end.

Definition step (t : nat) (ch : choice) (st : lstate) : option lstate :=
  p ← threads st !! t;
  match p with
  | SvInit _ | SvTrack _ | SvTrackLoad _ | SvTrackAdd _ | SvRefused _ | SvAccept _ | SvAcceptErr _ _
  | SvTrackC _ _ | SvTrackCLoad _ _ | SvTrackCAdd _ _ | SvGo _ _ | SvDropC _ _ | SvUntrack _ _
  | SvCloseLn _ _ | SvDone _ _ => step_serve t p ch st
  | GServe _ | GHandle _ | GClose _ | GUntrack _ | GDone => step_conn t p ch st
  | ClStore | ClLock | ClCancel | ClLns _ _ | ClConns _ _ | ClDone _ => step_close t p ch st
  | _ => step_shutdown t p ch st
  end.

(** *** Calls *)

(** The public calls. [Serve] validates the configuration first and, when that
    fails, returns without touching the listener; [ListenAndServe] validates
    before it listens. *)
Inductive call := CallServe (ln : nat) | CallClose | CallShutdown.

Definition entry (c : call) : pc :=
  match c with CallServe ln => SvInit ln | CallClose => ClStore | CallShutdown => SdStore end.

Definition start {H} (s : Server H) (t : nat) (c : call) (st : lstate) : result lstate :=
  match c, validate s with
  | CallServe _, Err e => Err e
  | _, _ => Ok (goto t (entry c) st)
  end.

Definition ListenAndServe {H} (s : Server H) (listen : string → result nat) (t : nat) (st : lstate) :
    result lstate :=
  match validate s with
  | Err e => Err e
  | Ok _ =>
      match listen (Addr s) with
      | Err e => Err e
      | Ok ln => start s t (CallServe ln) st
      end
  end.

(** The package's [ListenAndServe]: a server with one password. *)
Definition ListenAndServe_default {H} (addr password : string) (handler : Handler H)
    (listen : string → result nat) (t : nat) (st : lstate) : result lstate :=
  ListenAndServe (mkServer addr (Some handler) password None 0) listen t st.

(** What can happen: a goroutine's step, or a call from outside. *)
Inductive lstep {H} (s : Server H) : lstate → lstate → Prop :=
  | lstep_go t ch st st' : step t ch st = Some st' → lstep s st st'
  | lstep_call t c st st' :
      threads st !! t = None → start s t c st = Ok st' → lstep s st st'.

Inductive reachable {H} (s : Server H) : lstate → Prop :=
  | reach_init : reachable s init
  | reach_step st st' : reachable s st → lstep s st st' → reachable s st'.
