(* ===== verification/LifecycleProps.v ===== *)
(** * Properties of the server's lifecycle

    Invariants of every reachable state, whatever the interleaving: the lock, the
    tracked sets, who is responsible for an accepted connection, and what is
    closed once a [Close] or [Shutdown] has returned. *)

From S2P Require Import Prelude GoErrors GoIO GoNet Packet Server Lifecycle.

(** ** Views of a goroutine's position *)

(** It holds [mu]. *)
Definition holds (p : pc) : bool :=
  match p with
  | SvTrackLoad _ | SvTrackAdd _ | SvTrackCLoad _ _ | SvTrackCAdd _ _
  | ClCancel | ClLns _ _ | ClConns _ _ | SdLns _ | SdConns _ _ => true
  | _ => false
  end.

(** It has stored [inShutdown]. *)
Definition stored (p : pc) : bool :=
  match p with
  | ClLock | ClCancel | ClLns _ _ | ClConns _ _ | ClDone _
  | SdLock | SdLns _ | SdCancel | SdWait _ | SdLock2 _ | SdConns _ _ | SdDone _ => true
  | _ => false
  end.

(** It found [inShutdown] unset and is about to add to a tracked set. *)
Definition adding (p : pc) : bool :=
  match p with SvTrackAdd _ | SvTrackCAdd _ _ => true | _ => false end.

(** It has locked [mu] after storing [inShutdown]. *)
Definition swept (p : pc) : bool :=
  match p with ClLock | SdLock => false | _ => stored p end.

(** The tracked listeners it has not closed yet ([None]: it has not begun). *)
Definition lns_left (p : pc) : option (gmap nat nat) :=
  match p with
  | ClLns todo _ | SdLns todo => Some todo
  | ClConns _ _ | ClDone _ | SdCancel | SdWait _ | SdLock2 _ | SdConns _ _ | SdDone _ => Some ∅
  | _ => None
  end.

(** The same for connections. *)
Definition conns_left (p : pc) : option (gset nat) :=
  match p with
  | ClConns todo _ | SdConns todo _ => Some todo
  | ClDone _ | SdDone _ => Some ∅
  | _ => None
  end.

(** The connection a goroutine has in hand. *)
Definition carries (p : pc) : option nat :=
  match p with
  | SvTrackC _ c | SvTrackCLoad _ c | SvTrackCAdd _ c | SvGo _ c | SvDropC _ c
  | GServe c | GHandle c | GClose c | GUntrack c => Some c
  | _ => None
  end.

(** Of those, the ones that [trackConn] has added. *)
Definition serves (p : pc) : option nat :=
  match p with SvGo _ c | GServe c | GHandle c | GClose c | GUntrack c => Some c | _ => None end.

(** Of those, the ones it will refuse once the server is shutting down. *)
Definition offers (p : pc) : option nat :=
  match p with SvTrackC _ c | SvTrackCLoad _ c | SvDropC _ c => Some c | _ => None end.

(** It is running a handler. *)
Definition handling (p : pc) : bool := match p with GHandle _ => true | _ => false end.

Definition tracked (st : lstate) : gset nat := default ∅ (conns st).
Definition tracked_lns (st : lstate) : gmap nat nat := default ∅ (listeners st).

(** ** What one step does *)

(** The effect of a step of goroutine [t] from [p] to [p'] on everything but the
    positions of the goroutines. *)
Record effect (t : nat) (p p' : pc) (st st' : lstate) : Prop := {
  ef_lock :
    (holds p' = holds p ∧ mu st' = mu st) ∨
    (holds p = false ∧ holds p' = true ∧ mu st = None ∧ mu st' = Some t) ∨
    (holds p = true ∧ holds p' = false ∧ mu st' = None);
  ef_shutdown : inShutdown st = true → inShutdown st' = true;
  ef_stored : stored p' = true → stored p = true ∨ inShutdown st' = true;
  ef_adding : adding p' = true → inShutdown st = false;
  ef_swept : swept p' = true → swept p = true ∨ mu st = None;
  ef_ln_closed : ln_closed st ⊆ ln_closed st';
  ef_c_closed : c_closed st ⊆ c_closed st';
  ef_lns k ln : tracked_lns st' !! k = Some ln → tracked_lns st !! k = Some ln ∨ adding p = true;
  ef_lns_left todo' k ln :
    lns_left p' = Some todo' → tracked_lns st !! k = Some ln → todo' !! k = Some ln ∨ ln ∈ ln_closed st' ∨
      ∃ todo, lns_left p = Some todo ∧ todo !! k ≠ Some ln;
  ef_conns c : c ∈ tracked st' → c ∈ tracked st ∨ adding p = true;
  ef_conns_left todo' c :
    conns_left p' = Some todo' → c ∈ tracked st → c ∈ todo' ∨ c ∈ c_closed st' ∨
      ∃ todo, conns_left p = Some todo ∧ c ∉ todo;
  ef_accepted : accepted st ⊆ accepted st';
  ef_new c : c ∈ accepted st' → c ∈ accepted st ∨ carries p' = Some c;
  ef_carries c : carries p' = Some c → carries p = Some c ∨ ((c ∉ accepted st) ∧ c ∈ accepted st');
  ef_served c : serves p' = Some c → serves p = Some c ∨ c ∈ tracked st';
  ef_untracked c : c ∈ tracked st → c ∈ tracked st' ∨ carries p = Some c;
  ef_closes c : p' = GUntrack c → c ∈ c_closed st';
  ef_kept c : carries p = Some c → c ∈ tracked st → c ∈ tracked st' ∨ p' = GDone
}.

(** The position reached, with the connection goroutine [Serve] may have started. *)
Definition moves (t : nat) (p p' : pc) (st st' : lstate) : Prop :=
  (threads st' = <[t := p']> (threads st) ∧
     ∀ c, carries p = Some c → carries p' = Some c ∨ c ∈ c_closed st' ∨ p = GUntrack c) ∨
  (∃ t' ln c, p = SvGo ln c ∧ p' = SvAccept ln ∧ t' ≠ t ∧ threads st !! t' = None ∧
     threads st' = <[t := p']> (<[t' := GServe c]> (threads st))).

Ltac step_cases H :=
  unfold step in H; apply bind_Some in H as (? & ? & H);
  case_match; simplify_eq; unfold step_serve, step_conn, step_close, step_shutdown, lock in H;
  repeat (case_match; simplify_option_eq).

Lemma lns_left_delete (todo : gmap nat nat) n x k ln (closed : gset nat) :
  todo !! n = Some x →
  delete n todo !! k = Some ln ∨ ln ∈ {[x]} ∪ closed ∨
    ∃ todo0, Some todo = Some todo0 ∧ todo0 !! k ≠ Some ln.
Proof.
  intros Hx. destruct (decide (todo !! k = Some ln)) as [Hk|Hk]; [|by right; right; eexists].
  destruct (decide (k = n)) as [->|Hn]; [right; left; set_solver|left; by rewrite lookup_delete_ne].
Qed.

Lemma conns_left_delete (todo : gset nat) n c (closed : gset nat) :
  c ∈ todo ∖ {[n]} ∨ c ∈ {[n]} ∪ closed ∨ ∃ todo0, Some todo = Some todo0 ∧ (c ∉ todo0).
Proof.
  destruct (decide (c ∈ todo)); [|by right; right; eexists].
  destruct (decide (c = n)); set_solver.
Qed.

Lemma step_effect t ch st st' :
  step t ch st = Some st' →
  ∃ p p', threads st !! t = Some p ∧ threads st' !! t = Some p' ∧ effect t p p' st st'.
Proof.
  intros HS. step_cases HS; eexists _, _; (split; [done|]); (split; [apply lookup_insert_eq|]);
    (split; simpl; try done; intros; unfold tracked_lns, tracked in *; simpl in *; simplify_eq;
     try (by left); try (by right); try (by right; left); try (by right; right); try set_solver).
  - rewrite Heqo in *. set_solver.
  - left. destruct (listeners st); simpl in *; [|done]. by apply lookup_delete_Some in H1 as [_ ?].
  - left. destruct (conns st); set_solver.
  - destruct (decide (c0 = c)) as [->|]; [by right|]. left. destruct (conns st); set_solver.
  - by apply lns_left_delete.
  - right. right. exists ∅. split; [done|set_solver].
  - by apply conns_left_delete.
  - by apply lns_left_delete.
  - right. right. exists ∅. split; [done|set_solver].
  - by apply conns_left_delete.
Qed.

Lemma step_moves t ch st st' p p' :
  step t ch st = Some st' → threads st !! t = Some p → threads st' !! t = Some p' → moves t p p' st st'.
Proof.
  intros HS Hp Hp'. step_cases HS; simpl in Hp'; rewrite lookup_insert_eq in Hp'; simplify_eq;
    try (left; split; [reflexivity|intros ? Hc; simpl in Hc; simplify_eq; simpl; set_solver]).
  right. eexists n, _, _. split_and!; try reflexivity; [|by apply not_elem_of_dom].
  intros ->. by eapply elem_of_dom_2 in H.
Qed.

(** ** The invariant *)

Record linv (st : lstate) : Prop := {
  li_holds t p : threads st !! t = Some p → holds p = true → mu st = Some t;
  li_held t : mu st = Some t → ∃ p, threads st !! t = Some p ∧ holds p = true;
  li_stored t p : threads st !! t = Some p → stored p = true → inShutdown st = true;
  li_adding t p t' q :
    threads st !! t = Some p → adding p = true → threads st !! t' = Some q → swept q = true → False;
  li_lns t p todo k ln :
    threads st !! t = Some p → lns_left p = Some todo → tracked_lns st !! k = Some ln →
    todo !! k = Some ln ∨ ln ∈ ln_closed st;
  li_conns t p todo c :
    threads st !! t = Some p → conns_left p = Some todo → c ∈ tracked st → c ∈ todo ∨ c ∈ c_closed st;
  li_accepted t p c : threads st !! t = Some p → carries p = Some c → c ∈ accepted st;
  li_unique t p t' p' c :
    threads st !! t = Some p → threads st !! t' = Some p' → carries p = Some c → carries p' = Some c → t = t';
  li_owner c : c ∈ accepted st → c ∈ c_closed st ∨ ∃ t p, threads st !! t = Some p ∧ carries p = Some c;
  li_tracked t p c : threads st !! t = Some p → serves p = Some c → c ∈ tracked st;
  li_untrack t c : threads st !! t = Some (GUntrack c) → c ∈ c_closed st
}.

(** Positions relate as the source's code does. *)
Lemma adding_holds p : adding p = true → holds p = true.
Proof. by destruct p. Qed.
Lemma swept_stored p : swept p = true → stored p = true.
Proof. by destruct p. Qed.
Lemma lns_left_swept p todo : lns_left p = Some todo → swept p = true.
Proof. by destruct p. Qed.
Lemma conns_left_swept p todo : conns_left p = Some todo → swept p = true.
Proof. by destruct p. Qed.
Lemma serves_carries p c : serves p = Some c → carries p = Some c.
Proof. by destruct p. Qed.

(** A goroutine of the new state: the one that moved, one that stayed, or a new
    connection goroutine. *)
Lemma moved_thread t st st' p p' t' q :
  moves t p p' st st' → threads st' !! t' = Some q →
  (t' = t ∧ q = p') ∨ (t' ≠ t ∧ threads st !! t' = Some q) ∨
  (t' ≠ t ∧ threads st !! t' = None ∧ ∃ ln c, p = SvGo ln c ∧ p' = SvAccept ln ∧ q = GServe c).
Proof.
  intros [[-> _]|(n & ln & c & -> & -> & Hn & Hfresh & ->)];
    rewrite lookup_insert_Some; [naive_solver|].
  intros [[<- <-]|[Hne Hq]]; [by left|]. apply lookup_insert_Some in Hq as [[<- <-]|[? ?]]; [|by right; left].
  right. right. split_and!; [done|done|by eexists _, _].
Qed.

Lemma spawn_unique t st st' p p' t1 t2 q1 q2 :
  moves t p p' st st' → t1 ≠ t → t2 ≠ t → threads st !! t1 = None → threads st !! t2 = None →
  threads st' !! t1 = Some q1 → threads st' !! t2 = Some q2 → t1 = t2.
Proof.
  intros [[-> _]|(n & ln & c & -> & -> & Hn & Hf & ->)] Hne1 Hne2 Hn1 Hn2;
    rewrite !lookup_insert_Some; naive_solver.
Qed.

(** Take a goroutine of the new state apart. *)
Ltac by_mover Hm Hq :=
  destruct (moved_thread _ _ _ _ _ _ _ Hm Hq) as [[-> ->]|[[? ?]|(? & ? & ? & ? & ? & ? & ->)]]; subst.

Section Step.
Context (t : nat) (ch : choice) (st st' : lstate).
Hypothesis Hinv : linv st.
Hypothesis Hstep : step t ch st = Some st'.

(** Everything known about the step, at once. *)
Lemma step_facts :
  ∃ p p', threads st !! t = Some p ∧ threads st' !! t = Some p' ∧ effect t p p' st st' ∧ moves t p p' st st'.
Proof.
  destruct (step_effect _ _ _ _ Hstep) as (p & p' & Hp & Hp' & He).
  exists p, p'. split_and!; try done. by eapply step_moves.
Qed.

(** The moved goroutine's own fact, and its stability for the others, give the
    invariant at every goroutine. *)
Lemma lock_step : (∀ t' q, threads st' !! t' = Some q → holds q = true → mu st' = Some t') ∧
  (∀ t', mu st' = Some t' → ∃ q, threads st' !! t' = Some q ∧ holds q = true).
Proof.
  destruct step_facts as (p & p' & Hp & Hp' & He & Hm).
  pose proof (li_holds st Hinv) as H1. pose proof (li_held st Hinv) as H2. split.
  - intros t' q Hq Hh. destruct (moved_thread _ _ _ _ _ _ _ Hm Hq) as [[-> ->]|[[Hne Hq']|(_ & _ & ? & ? & _ & _ & ->)]].
    + destruct (ef_lock _ _ _ _ _ He) as [[Hs ->]|[(_ & _ & _ & ->)|(_ & Hc & _)]]; [|done|congruence].
      apply (H1 _ _ Hp). congruence.
    + pose proof (H1 _ _ Hq' Hh) as Hmu.
      destruct (ef_lock _ _ _ _ _ He) as [[_ ->]|[(_ & _ & Hn & _)|(Hc & _ & _)]]; [done|congruence|].
      rewrite (H1 _ _ Hp Hc) in Hmu. congruence.
    + done.
  - intros t' Hmu. destruct (ef_lock _ _ _ _ _ He) as [[Hs Hmu']|[(_ & Hh & _ & Hmu')|(_ & _ & Hmu')]];
      rewrite Hmu' in Hmu; [|simplify_eq; by exists p'|done].
    destruct (H2 _ Hmu) as (q & Hq & Hh). destruct (decide (t' = t)) as [->|Hne].
    + simplify_eq. exists p'. split; [done|congruence].
    + exists q. split; [|done]. destruct Hm as [[-> _]|(n & ln & c & -> & -> & Hn & Hf & ->)];
        rewrite !lookup_insert_ne by congruence; done.
Qed.

Lemma stored_step t' q : threads st' !! t' = Some q → stored q = true → inShutdown st' = true.
Proof.
  destruct step_facts as (p & p' & Hp & Hp' & He & Hm). intros Hq Hs. by_mover Hm Hq; [| |done].
  - destruct (ef_stored _ _ _ _ _ He Hs); [|done].
    apply (ef_shutdown _ _ _ _ _ He). by eapply (li_stored st Hinv).
  - apply (ef_shutdown _ _ _ _ _ He). by eapply (li_stored st Hinv).
Qed.

Lemma adding_step t1 p1 t2 p2 :
  threads st' !! t1 = Some p1 → adding p1 = true → threads st' !! t2 = Some p2 → swept p2 = true → False.
Proof.
  destruct step_facts as (p & p' & Hp & Hp' & He & Hm). intros H1 Ha H2 Hs.
  by_mover Hm H1; [| |done]; by_mover Hm H2; try done.
  - by destruct p'.
  - assert (inShutdown st = true) by (eapply (li_stored st Hinv); [done|by apply swept_stored]).
    apply (ef_adding _ _ _ _ _ He) in Ha. congruence.
  - destruct (ef_swept _ _ _ _ _ He Hs) as [Hs'|Hmu]; [by eapply (li_adding st Hinv t1 p1 t p)|].
    assert (mu st = Some t1) by (eapply (li_holds st Hinv); [done|by apply adding_holds]). congruence.
  - by eapply (li_adding st Hinv t1 p1 t2 p2).
Qed.

Lemma lns_step t' q todo k ln :
  threads st' !! t' = Some q → lns_left q = Some todo → tracked_lns st' !! k = Some ln →
  todo !! k = Some ln ∨ ln ∈ ln_closed st'.
Proof.
  destruct step_facts as (p & p' & Hp & Hp' & He & Hm). intros Hq Hl Hk.
  assert (tracked_lns st !! k = Some ln) as Hk0.
  { destruct (ef_lns _ _ _ _ _ He _ _ Hk) as [?|Ha]; [done|exfalso].
    by_mover Hm Hq; [|by eapply (li_adding st Hinv t p t' q); [..|by eapply lns_left_swept]|done].
    destruct (ef_swept _ _ _ _ _ He (lns_left_swept _ _ Hl)) as [Hs|Hmu]; [by destruct p|].
    rewrite (li_holds st Hinv _ _ Hp (adding_holds _ Ha)) in Hmu. done. }
  pose proof (ef_ln_closed _ _ _ _ _ He). by_mover Hm Hq; [| |done].
  - destruct (ef_lns_left _ _ _ _ _ He _ _ _ Hl Hk0) as [?|[?|(todo0 & Hl0 & Hn)]]; [by left|by right|].
    destruct (li_lns st Hinv _ _ _ _ _ Hp Hl0 Hk0); [done|set_solver].
  - edestruct (li_lns st Hinv t' q) as [?|?]; [done..|by left|set_solver].
Qed.

Lemma conns_step t' q todo c :
  threads st' !! t' = Some q → conns_left q = Some todo → c ∈ tracked st' →
  c ∈ todo ∨ c ∈ c_closed st'.
Proof.
  destruct step_facts as (p & p' & Hp & Hp' & He & Hm). intros Hq Hl Hc.
  assert (c ∈ tracked st) as Hc0.
  { destruct (ef_conns _ _ _ _ _ He _ Hc) as [?|Ha]; [done|exfalso].
    by_mover Hm Hq; [|by eapply (li_adding st Hinv t p t' q); [..|by eapply conns_left_swept]|done].
    destruct (ef_swept _ _ _ _ _ He (conns_left_swept _ _ Hl)) as [Hs|Hmu]; [by destruct p|].
    rewrite (li_holds st Hinv _ _ Hp (adding_holds _ Ha)) in Hmu. done. }
  pose proof (ef_c_closed _ _ _ _ _ He). by_mover Hm Hq; [| |done].
  - destruct (ef_conns_left _ _ _ _ _ He _ _ Hl Hc0) as [?|[?|(todo0 & Hl0 & Hn)]]; [by left|by right|].
    destruct (li_conns st Hinv _ _ _ _ Hp Hl0 Hc0); [done|set_solver].
  - edestruct (li_conns st Hinv t' q) as [?|?]; [done..|by left|set_solver].
Qed.

Lemma accepted_step t' q c : threads st' !! t' = Some q → carries q = Some c → c ∈ accepted st'.
Proof.
  destruct step_facts as (p & p' & Hp & Hp' & He & Hm). intros Hq Hc.
  pose proof (ef_accepted _ _ _ _ _ He) as Hs. by_mover Hm Hq.
  - destruct (ef_carries _ _ _ _ _ He _ Hc) as [Hc'|[_ ?]]; [|done]. apply Hs. by eapply (li_accepted st Hinv).
  - apply Hs. by eapply (li_accepted st Hinv).
  - apply Hs. by eapply (li_accepted st Hinv _ _ _ Hp).
Qed.

Lemma unique_step t1 p1 t2 p2 c :
  threads st' !! t1 = Some p1 → threads st' !! t2 = Some p2 →
  carries p1 = Some c → carries p2 = Some c → t1 = t2.
Proof.
  destruct step_facts as (p & p' & Hp & Hp' & He & Hm).
  assert (∀ t3 p3, t3 ≠ t → threads st !! t3 = Some p3 → carries p' = Some c → carries p3 = Some c → False)
    as Hold.
  { intros t3 p3 Hne H3 Hc' Hc3. destruct (ef_carries _ _ _ _ _ He _ Hc') as [Hc|[Hn _]].
    - apply Hne. by eapply (li_unique st Hinv).
    - apply Hn. by eapply (li_accepted st Hinv). }
  intros H1 H2 Hc1 Hc2. by_mover Hm H1; by_mover Hm H2; simplify_eq/=; try done.
  - exfalso. eauto.
  - exfalso. eauto.
  - by eapply (li_unique st Hinv).
  - exfalso. assert (t1 = t) by (by eapply (li_unique st Hinv _ _ _ _ _ H0 Hp)). done.
  - exfalso. assert (t2 = t) by (by eapply (li_unique st Hinv _ _ _ _ _ H4 Hp)). done.
  - by eapply (spawn_unique t st st' _ _ t1 t2).
Qed.

Lemma owner_step c : c ∈ accepted st' → c ∈ c_closed st' ∨ ∃ t' q, threads st' !! t' = Some q ∧ carries q = Some c.
Proof.
  destruct step_facts as (p & p' & Hp & Hp' & He & Hm). intros Hc.
  destruct (ef_new _ _ _ _ _ He _ Hc) as [Hc0|?]; [|right; by eexists _, _].
  destruct (li_owner st Hinv _ Hc0) as [Hcl|(t' & q & Hq & Hcq)];
    [left; by apply (ef_c_closed _ _ _ _ _ He)|].
  destruct Hm as [[Hth Hk]|(n & ln & c' & -> & -> & Hn & Hf & Hth)].
  - destruct (decide (t' = t)) as [->|Hne].
    + simplify_eq. destruct (Hk _ Hcq) as [?|[?| ->]]; [right; by eexists _, _|by left|].
      left. simplify_eq/=. apply (ef_c_closed _ _ _ _ _ He). by eapply (li_untrack st Hinv).
    + right. exists t', q. by rewrite Hth, lookup_insert_ne.
  - right. destruct (decide (t' = t)) as [->|Hne].
    + simplify_eq/=. exists n, (GServe c). by rewrite Hth, lookup_insert_ne, lookup_insert_eq.
    + exists t', q. by rewrite Hth, !lookup_insert_ne by congruence.
Qed.

Lemma tracked_step t' q c : threads st' !! t' = Some q → serves q = Some c → c ∈ tracked st'.
Proof.
  destruct step_facts as (p & p' & Hp & Hp' & He & Hm). intros Hq Hc.
  assert (∀ t1 p1, threads st !! t1 = Some p1 → serves p1 = Some c →
    c ∈ tracked st' ∨ t1 = t) as Hold.
  { intros t1 p1 H1 Hc1. destruct (ef_untracked _ _ _ _ _ He c) as [?|Hcp]; [|by left|right].
    - by eapply (li_tracked st Hinv).
    - eapply (li_unique st Hinv); [done|exact Hp|by apply serves_carries|done]. }
  by_mover Hm Hq.
  - destruct (ef_served _ _ _ _ _ He _ Hc) as [Hsp|?]; [|done].
    destruct (ef_kept _ _ _ _ _ He c) as [?| ->]; [by apply serves_carries|by eapply (li_tracked st Hinv)|done|done].
  - destruct (Hold _ _ H0 Hc); [done|congruence].
  - simplify_eq/=. destruct (ef_kept _ _ _ _ _ He c) as [?|?]; [done|by eapply (li_tracked st Hinv _ _ _ Hp)|done|done].
Qed.

Lemma untrack_step t' c : threads st' !! t' = Some (GUntrack c) → c ∈ c_closed st'.
Proof.
  destruct step_facts as (p & p' & Hp & Hp' & He & Hm). intros Hq.
  destruct (moved_thread _ _ _ _ _ _ _ Hm Hq) as [[-> <-]|[[? ?]|(? & ? & ? & ? & ? & ? & ?)]]; [| |done].
  - by apply (ef_closes _ _ _ _ _ He).
  - apply (ef_c_closed _ _ _ _ _ He). by eapply (li_untrack st Hinv).
Qed.
End Step.

Lemma linv_step t ch st st' : linv st → step t ch st = Some st' → linv st'.
Proof.
  intros Hi Hs. destruct (lock_step t ch st st' Hi Hs) as [Hl1 Hl2]. split.
  - exact Hl1.
  - exact Hl2.
  - by eapply stored_step.
  - by eapply adding_step.
  - by eapply lns_step.
  - by eapply conns_step.
  - by eapply accepted_step.
  - by eapply unique_step.
  - by eapply owner_step.
  - by eapply tracked_step.
  - by eapply untrack_step.
Qed.

(** A call puts a new goroutine at the entry of its function, with nothing in hand. *)
Lemma linv_start t c st : linv st → threads st !! t = None → linv (goto t (entry c) st).
Proof.
  intros [] Ht. pose proof (λ p q, lookup_insert_Some (threads st) t p (entry c) q) as Hlk.
  split; simpl.
  - intros t' p. rewrite Hlk. intros [[<- <-]|[_ ?]]; [by destruct c|eauto].
  - intros t' (p & Hp & Hh)%li_held0. exists p. rewrite lookup_insert_ne by congruence. done.
  - intros t' p. rewrite Hlk. intros [[<- <-]|[_ ?]]; [by destruct c|eauto].
  - intros t1 p1 t2 p2. rewrite !Hlk.
    intros [[<- <-]|[_ ?]] ? [[<- <-]|[_ ?]] ?; [by destruct c..|eauto].
  - intros t' p todo k ln. rewrite Hlk. intros [[<- <-]|[_ ?]]; [by destruct c|by eapply li_lns0].
  - intros t' p todo k. rewrite Hlk. intros [[<- <-]|[_ ?]]; [by destruct c|by eapply li_conns0].
  - intros t' p k. rewrite Hlk. intros [[<- <-]|[_ ?]]; [by destruct c|by eapply li_accepted0].
  - intros t1 p1 t2 p2 k. rewrite !Hlk.
    intros [[<- <-]|[_ ?]] [[<- <-]|[_ ?]] ??; [by destruct c..|by eapply li_unique0].
  - intros k [?|(t' & p & Hp & Hc)]%li_owner0; [by left|right].
    exists t', p. rewrite lookup_insert_ne by congruence. done.
  - intros t' p k. rewrite Hlk. intros [[<- <-]|[_ ?]]; [by destruct c|by eapply li_tracked0].
  - intros t' k. rewrite Hlk. intros [[<- ?]|[_ ?]]; [by destruct c|by eapply li_untrack0].
Qed.

Lemma start_goto {H} (s : Server H) t c st st' : start s t c st = Ok st' → st' = goto t (entry c) st.
Proof. unfold start. destruct c, (validate s); by intros [= <-]. Qed.

Lemma linv_init : linv init.
Proof. split; simpl; try done; intros *; set_solver. Qed.

Lemma reachable_linv {H} (s : Server H) st : reachable s st → linv st.
Proof.
  induction 1 as [|st st' _ IH Hs]; [apply linv_init|].
  destruct Hs as [t ch st st' Hs|t c st st' Ht Hs]; [by eapply linv_step|].
  rewrite (start_goto _ _ _ _ _ Hs). by apply linv_start.
Qed.

(** ** Initialisation and the count of running handlers *)

(** [Serve] is past its initialisation of the shared fields. *)
Definition ready (p : pc) : bool :=
  match p with
  | SvTrack _ | SvTrackLoad _ | SvTrackAdd _ | SvAccept _ | SvTrackC _ _ | SvTrackCLoad _ _
  | SvTrackCAdd _ _ | SvGo _ _ => true
  | _ => false
  end.

(** The listener of a [Serve] call between tracking and untracking it. *)
Definition listening (p : pc) : option nat :=
  match p with
  | SvAccept ln | SvAcceptErr ln _ | SvTrackC ln _ | SvTrackCLoad ln _ | SvTrackCAdd ln _
  | SvGo ln _ | SvDropC ln _ | SvUntrack ln _ => Some ln
  | _ => None
  end.

(** The goroutines that run a handler. *)
Definition handlers (m : gmap nat pc) : gmap nat pc := filter (λ tp, handling tp.2 = true) m.

Record minv (st : lstate) : Prop := {
  mi_ready t p : threads st !! t = Some p → ready p = true → is_Some (listeners st) ∧ is_Some (conns st);
  mi_wg : handlerWG st = size (handlers (threads st));
  mi_done t ln e : threads st !! t = Some (SvDone ln e) → ln ∈ ln_closed st;
  mi_lns k ln : tracked_lns st !! k = Some ln → ∃ p, threads st !! k = Some p ∧ listening p = Some ln
}.

Record effect2 (t : nat) (p p' : pc) (st st' : lstate) : Prop := {
  e2_made : is_Some (listeners st) ∧ is_Some (conns st) → is_Some (listeners st') ∧ is_Some (conns st');
  e2_ready : ready p' = true → ready p = true ∨ is_Some (listeners st') ∧ is_Some (conns st');
  e2_wg : (handlerWG st' = handlerWG st ∧ handling p' = handling p) ∨
          (handlerWG st' = S (handlerWG st) ∧ handling p = false ∧ handling p' = true) ∨
          (handlerWG st' = pred (handlerWG st) ∧ handling p = true ∧ handling p' = false);
  e2_done ln e : p' = SvDone ln e → ln ∈ ln_closed st';
  e2_lns k ln : tracked_lns st' !! k = Some ln →
    (k = t ∧ listening p' = Some ln) ∨
    (tracked_lns st !! k = Some ln ∧ (k = t → listening p = Some ln → listening p' = Some ln))
}.

Lemma step_effect2 t ch st st' p p' :
  step t ch st = Some st' → threads st !! t = Some p → threads st' !! t = Some p' → effect2 t p p' st st'.
Proof.
  intros HS Hp Hp'. step_cases HS; simpl in Hp'; rewrite lookup_insert_eq in Hp'; simplify_eq;
    (split; simpl; [rewrite ?fmap_is_Some; try (by auto); intros [? ?]; split; done
                   |intros Hr; try done; try (by left); right; by eauto|by auto
                   |intros ? ? [=]; subst; set_solver
                   |unfold tracked_lns; simpl; intros k ln1 Hk; try (by right)]).
  - rewrite Heqo. simpl. apply lookup_insert_Some in Hk as [[<- <-]|[? ?]]; [by left|right].
    split; [done|congruence].
  - right. destruct (listeners st); simpl in *; [|done]. apply lookup_delete_Some in Hk as [? ?].
    split; [done|congruence].
Qed.

(** Moving one goroutine changes the count by what it starts or stops handling. *)
Lemma size_handlers_insert t p m :
  size (handlers (<[t := p]> m)) =
    (if handling p then 1 else 0) +
    (size (handlers m) - match m !! t with Some q => if handling q then 1 else 0 | None => 0 end).
Proof.
  assert (handlers m !! t = match m !! t with Some q => if handling q then Some q else None | None => None end)
    as Hl.
  { unfold handlers. destruct (m !! t) as [q|] eqn:Hq; [destruct (handling q) eqn:Hh|].
    - by apply map_lookup_filter_Some.
    - apply map_lookup_filter_None. right. intros ? ?. simplify_eq/=. congruence.
    - apply map_lookup_filter_None. by left. }
  assert (size (delete t (handlers m)) =
    size (handlers m) - match m !! t with Some q => if handling q then 1 else 0 | None => 0 end) as Hd.
  { rewrite map_size_delete, Hl. destruct (m !! t) as [q|]; [destruct (handling q)|]; simpl; lia. }
  rewrite <- Hd. unfold handlers. destruct (handling p) eqn:Hp.
  - rewrite map_filter_insert_True by done. rewrite <- insert_delete_eq, map_size_insert_None; [done|].
    apply lookup_delete_eq.
  - rewrite map_filter_insert_False by (simpl; congruence). by rewrite map_filter_delete.
Qed.

Lemma size_handlers_pos t q m : m !! t = Some q → handling q = true → 0 < size (handlers m).
Proof.
  intros Hq Hh. assert (handlers m !! t = Some q) as Hl by (by apply map_lookup_filter_Some).
  destruct (decide (size (handlers m) = 0)) as [Hz|]; [|lia].
  apply map_size_empty_inv in Hz. rewrite Hz in Hl. done.
Qed.

Lemma minv_step t ch st st' : minv st → step t ch st = Some st' → minv st'.
Proof.
  intros [Hr Hw Hd Hl] HS. destruct (step_effect _ _ _ _ HS) as (p & p' & Hp & Hp' & He).
  pose proof (step_moves _ _ _ _ _ _ HS Hp Hp') as Hm.
  destruct (step_effect2 _ _ _ _ _ _ HS Hp Hp') as [Em Er Ew Ed El]. split.
  - intros t' q Hq Hrq.
    destruct (moved_thread _ _ _ _ _ _ _ Hm Hq) as [[-> ->]|[[? ?]|(? & ? & ? & ? & ? & ? & ->)]];
      [|by apply Em; eapply Hr|done].
    destruct (Er Hrq); [apply Em; by eapply Hr|done].
  - destruct Hm as [[-> _]|(n & ln & c & -> & -> & Hn & Hf & ->)].
    + rewrite size_handlers_insert, Hp.
      destruct Ew as [[-> ->]|[(-> & -> & ->)|(-> & Hh & ->)]]; rewrite Hw; [|lia|rewrite Hh; lia].
      destruct (handling p) eqn:Hh; [pose proof (size_handlers_pos _ _ _ Hp Hh)|]; lia.
    + rewrite !size_handlers_insert, lookup_insert_ne, Hp, Hf by done. simpl.
      destruct Ew as [[-> _]|[(_ & _ & ?)|(_ & ? & _)]]; [lia|done..].
  - intros t' ln e Hq. destruct (moved_thread _ _ _ _ _ _ _ Hm Hq) as [[-> <-]|[[? ?]|(? & ? & ? & ? & ? & ? & ?)]].
    + by eapply Ed.
    + apply (ef_ln_closed _ _ _ _ _ He). by eapply Hd.
    + done.
  - intros k ln Hk. destruct (El _ _ Hk) as [[-> ?]|[Hk0 Hsame]]; [by exists p'|].
    destruct (Hl _ _ Hk0) as (q & Hq & Hlq). destruct (decide (k = t)) as [->|Hne].
    + simplify_eq. exists p'. auto.
    + exists q. split; [|done]. destruct Hm as [[-> _]|(n & ln' & c & -> & -> & Hn & Hf & ->)];
        rewrite !lookup_insert_ne by congruence; done.
Qed.

Lemma minv_start t c st : minv st → threads st !! t = None → minv (goto t (entry c) st).
Proof.
  intros [Hr Hw Hd Hl] Ht. split; simpl.
  - intros t' p. rewrite lookup_insert_Some. intros [[<- <-]|[_ ?]]; [by destruct c|by eapply Hr].
  - rewrite size_handlers_insert, Ht, Hw. destruct c; simpl; lia.
  - intros t' ln e. rewrite lookup_insert_Some. intros [[<- ?]|[_ ?]]; [by destruct c|by eapply Hd].
  - intros k ln (p & Hp & Hlp)%Hl. exists p. rewrite lookup_insert_ne by congruence. done.
Qed.

Lemma reachable_minv {H} (s : Server H) st : reachable s st → minv st.
Proof.
  induction 1 as [|st st' _ IH Hs]; [split; simpl; done|].
  destruct Hs as [t ch st st' Hs|t c st st' Ht Hs]; [by eapply minv_step|].
  rewrite (start_goto _ _ _ _ _ Hs). by apply minv_start.
Qed.

(** ** Theorems *)

(** A server and runs of it, for the witnesses. *)
Definition any_handler : Handler unit := λ _ u, mkRun [] false u.
Definition any_server : Server unit := mkServer ":27015" (Some any_handler) "pw" None 0.

Inductive event := Ev (t : nat) (ch : choice) | EvCall (t : nat) (c : call).

Definition run_event (st : option lstate) (e : event) : option lstate :=
  st ← st;
  match e with
  | Ev t ch => step t ch st
  | EvCall t c =>
      match threads st !! t with
      | Some _ => None
      | None => match start any_server t c st with Ok st' => Some st' | Err _ => None end
      end
  end.

Definition run (es : list event) : option lstate := fold_left run_event es (Some init).

Lemma run_reachable es st : run es = Some st → reachable any_server st.
Proof.
  unfold run. revert st. induction es as [|e es IH] using rev_ind; intros st.
  - intros [= <-]. constructor.
  - rewrite fold_left_app. simpl. destruct (fold_left run_event es (Some init)) as [st0|]; [|done].
    simpl. intros He. eapply reach_step; [by apply IH|].
    destruct e as [t ch|t c]; [by eapply lstep_go|]. destruct (threads st0 !! t) eqn:Ht; [done|].
    destruct (start any_server t c st0) eqn:Hs; simplify_eq. by eapply lstep_call.
Qed.

(** A [Serve] call that has accepted connection 7 and serves it. *)
Definition serving_run : list event :=
  EvCall 0 (CallServe 5) :: map (λ _, Ev 0 Next) (seq 0 4) ++
  [Ev 0 (AcceptConn 7); Ev 0 Next; Ev 0 Next; Ev 0 Next; Ev 0 (Pick 1)].

(** The same, with a second connection accepted when [Close] is called and runs. *)
Definition closing_run : list event :=
  serving_run ++ [Ev 0 (AcceptConn 8); EvCall 2 CallClose; Ev 2 Next; Ev 2 Next; Ev 2 Next;
    Ev 2 (Pick 0); Ev 2 Next; Ev 2 (Pick 7); Ev 2 Next].

(** No accepted connection is ever lost. In every reachable state, under every
    interleaving of [Serve], [Close], [Shutdown] and connection goroutines, a
    connection that was accepted and is not closed is in the hands of exactly one
    goroutine, which is still going to close it; a connection goroutine's
    connection is in the tracked set, where [Close] and [Shutdown] find it. *)
Theorem accepted_conn_has_owner {H} (s : Server H) (st : lstate) (c : nat) :
  reachable s st → c ∈ accepted st → c ∉ c_closed st →
  ∃ t p, threads st !! t = Some p ∧ carries p = Some c ∧
    (serves p = Some c → c ∈ tracked st) ∧
    (∀ t' p', threads st !! t' = Some p' → carries p' = Some c → t' = t).
Proof.
  intros Hr Ha Hc. pose proof (reachable_linv _ _ Hr) as Hi.
  destruct (li_owner _ Hi _ Ha) as [?|(t & p & Hp & Hcp)]; [done|].
  exists t, p. split_and!; [done|done| |].
  - by apply (li_tracked _ Hi t p).
  - intros t' p' Hp' Hcp'. by eapply (li_unique _ Hi).
Qed.

Lemma accepted_conn_has_owner_witness :
  ∃ st t p, run serving_run = Some st ∧ threads st !! t = Some p ∧ carries p = Some 7.
Proof.
  destruct (run serving_run) as [st|] eqn:Hrun; [|vm_compute in Hrun; discriminate].
  destruct (accepted_conn_has_owner any_server st 7 (run_reachable _ _ Hrun)) as (t & p & Ht & Hc & _).
  - vm_compute in Hrun. injection Hrun as <-. vm_compute. reflexivity.
  - vm_compute in Hrun. injection Hrun as <-. vm_compute. intros [=].
  - exists st, t, p. split; [reflexivity|]. split; [exact Ht|exact Hc].
Defined.

(** C11: [Close] and [Shutdown] leave nothing behind. Once either has returned, and
    for ever after, the server is marked as shut down, every tracked listener and
    every tracked connection is closed, so every connection a goroutine serves
    is; an accepted connection can only still be open in the hands of a [Serve]
    call that has not offered it to [trackConn] yet, or was just refused. *)
Theorem closed_server_is_closed {H} (s : Server H) (st : lstate) (t : nat) (err : option error) :
  reachable s st → threads st !! t = Some (ClDone err) ∨ threads st !! t = Some (SdDone err) →
  inShutdown st = true ∧
  (∀ k ln, tracked_lns st !! k = Some ln → ln ∈ ln_closed st) ∧
  (∀ c, c ∈ tracked st → c ∈ c_closed st) ∧
  (∀ c, c ∈ accepted st → c ∉ c_closed st →
     ∃ t' p, threads st !! t' = Some p ∧ offers p = Some c).
Proof.
  intros Hr Ht. pose proof (reachable_linv _ _ Hr) as Hi.
  assert (∃ p, threads st !! t = Some p ∧ stored p = true ∧ swept p = true ∧
    lns_left p = Some ∅ ∧ conns_left p = Some ∅) as (p & Hp & Hst & Hsw & Hln & Hcn)
    by (destruct Ht; by eexists).
  assert (∀ c, c ∈ tracked st → c ∈ c_closed st) as Hc.
  { intros c Hc. destruct (li_conns _ Hi _ _ _ _ Hp Hcn Hc); [set_solver|done]. }
  split_and!; [by eapply (li_stored _ Hi)| |exact Hc|].
  - intros k ln Hk. by destruct (li_lns _ Hi _ _ _ _ _ Hp Hln Hk).
  - intros c Ha Hop. destruct (li_owner _ Hi _ Ha) as [?|(t' & q & Hq & Hcq)]; [done|].
    exists t', q. split; [done|].
    assert (serves q ≠ Some c) by (intros Hs; apply Hop, Hc; by eapply (li_tracked _ Hi)).
    assert (adding q = false) by (destruct (adding q) eqn:Hq'; [exfalso; by eapply (li_adding _ Hi t' q t p)|done]).
    by destruct q.
Qed.

Lemma closed_server_is_closed_witness :
  ∃ st, run closing_run = Some st ∧ inShutdown st = true ∧
        (∃ t' p, threads st !! t' = Some p ∧ offers p = Some 8).
Proof.
  destruct (run closing_run) as [st|] eqn:Hrun; [|vm_compute in Hrun; discriminate].
  destruct (closed_server_is_closed any_server st 2 None (run_reachable _ _ Hrun)) as (Hs & _ & _ & Ho).
  - left. vm_compute in Hrun. injection Hrun as <-. reflexivity.
  - exists st. split; [reflexivity|]. split; [exact Hs|]. apply Ho.
    + vm_compute in Hrun. injection Hrun as <-. vm_compute. reflexivity.
    + vm_compute in Hrun. injection Hrun as <-. vm_compute. intros [=].
Defined.

(** No deadlock on [mu] and no write to a nil map. In every reachable state
    the goroutine that holds the lock can take its next step, whatever the others
    do: in particular [trackConn] and [trackListener] only ever add to maps
    [Serve] has made. *)
Theorem lock_holder_steps {H} (s : Server H) (st : lstate) (t : nat) :
  reachable s st → mu st = Some t → ∃ ch st', step t ch st = Some st'.
Proof.
  intros Hr Hmu. pose proof (reachable_linv _ _ Hr) as Hi. pose proof (reachable_minv _ _ Hr) as Hm.
  destruct (li_held _ Hi _ Hmu) as (p & Hp & Hh).
  assert (ready p = true → is_Some (listeners st) ∧ is_Some (conns st)) as Hready by (by apply (mi_ready _ Hm t)).
  unfold step. rewrite Hp. simpl.
  destruct p as [| |ln|ln| | | | |ln c|ln c| | | | | | | | | | | | |  |todo err|todo err| | | |todo| | | |todo err|];
    try done.
  - exists Next. simpl. case_match; by eexists.
  - destruct Hready as [[l Hl] _]; [done|]. exists Next. simpl. rewrite Hl. by eexists.
  - exists Next. simpl. case_match; by eexists.
  - destruct Hready as [_ [l Hl]]; [done|]. exists Next. simpl. rewrite Hl. by eexists.
  - exists Next. by eexists.
  - destruct (decide (todo = ∅)) as [->|(k & ln & Hk)%map_choose].
    + exists Next. by eexists.
    + exists (Pick k). simpl. rewrite Hk. by eexists.
  - destruct (decide (todo = ∅)) as [->|(c & Hc)%set_choose_L].
    + exists Next. by eexists.
    + exists (Pick c). simpl. rewrite decide_True by done. by eexists.
  - destruct (decide (todo = ∅)) as [->|(k & ln & Hk)%map_choose].
    + exists Next. by eexists.
    + exists (Pick k). simpl. rewrite Hk. by eexists.
  - destruct (decide (todo = ∅)) as [->|(c & Hc)%set_choose_L].
    + exists Next. by eexists.
    + exists (Pick c). simpl. rewrite decide_True by done. by eexists.
Qed.

Lemma lock_holder_steps_witness :
  ∃ st ch st', run (firstn 16 closing_run) = Some st ∧ step 2 ch st = Some st'.
Proof.
  destruct (run (firstn 16 closing_run)) as [st|] eqn:Hrun; [|vm_compute in Hrun; discriminate].
  destruct (lock_holder_steps any_server st 2 (run_reachable _ _ Hrun)) as (ch & st' & Hs).
  - vm_compute in Hrun. injection Hrun as <-. reflexivity.
  - exists st, ch, st'. split; [reflexivity|exact Hs].
Defined.

(** A graceful shutdown waits for the handlers. [handlerWG] counts exactly the
    handlers that are running, so when the goroutine that waits for them closes
    [done] no handler is running; and [Shutdown] goes on without a context error
    only if [done] has been closed. A handler that begins after that is not waited
    for. *)
Theorem shutdown_waits_for_handlers {H} (s : Server H) (st st' : lstate) (t : nat) (ch : choice) (done : bool) :
  reachable s st → threads st !! t = Some (SdWait done) → step t ch st = Some st' →
  (threads st' !! t = Some (SdWait true) ∧ ∀ t' c, threads st' !! t' ≠ Some (GHandle c)) ∨
  (threads st' !! t = Some (SdLock2 None) ∧ done = true) ∨
  (∃ e, ch = CtxDone e ∧ threads st' !! t = Some (SdLock2 (Some e))).
Proof.
  intros Hr Ht Hs. pose proof (reachable_minv _ _ Hr) as Hm.
  unfold step in Hs. rewrite Ht in Hs. simpl in Hs. destruct done, ch; simplify_eq/=;
    rewrite ?lookup_insert_eq; [by right; left|by right; right; eexists| |by right; right; eexists].
  case_decide as Hz; simplify_eq/=. left. rewrite lookup_insert_eq. split; [done|]. intros t' c.
  destruct (decide (t' = t)) as [->|Hne]; [by rewrite lookup_insert_eq|].
  rewrite lookup_insert_ne by done. intros Hh.
  pose proof (size_handlers_pos _ _ _ Hh eq_refl). pose proof (mi_wg _ Hm). lia.
Qed.

(** A server shutting down with no handler running. *)
Definition waiting_run : list event :=
  serving_run ++ [EvCall 3 CallShutdown; Ev 3 Next; Ev 3 Next; Ev 3 (Pick 0); Ev 3 Next; Ev 3 Next].

Lemma shutdown_waits_for_handlers_witness :
  ∃ st st', run waiting_run = Some st ∧ step 3 Next st = Some st' ∧
            threads st' !! 1 ≠ Some (GHandle 7).
Proof.
  destruct (run waiting_run) as [st|] eqn:Hrun; [|vm_compute in Hrun; discriminate].
  destruct (step 3 Next st) as [st'|] eqn:Hs;
    [|vm_compute in Hrun; injection Hrun as <-; vm_compute in Hs; discriminate].
  exists st, st'. split; [reflexivity|]. split; [exact Hs|].
  destruct (shutdown_waits_for_handlers any_server st st' 3 Next false (run_reachable _ _ Hrun))
    as [[_ Hh]|[[_ Hd]|(e & He & _)]].
  - vm_compute in Hrun. injection Hrun as <-. reflexivity.
  - exact Hs.
  - exact (Hh 1 7).
  - discriminate.
  - discriminate.
Defined.

(** [done] stays closed: a handler can run while [Shutdown] is past its wait, if
    its command is read after the handlers were last counted. *)
Definition late_run : list event := waiting_run ++ [Ev 3 Next; Ev 1 Begin; Ev 3 Next].

Lemma late_handler_not_waited_for :
  ∃ st, run late_run = Some st ∧ threads st !! 3 = Some (SdLock2 None) ∧ threads st !! 1 = Some (GHandle 7).
Proof.
  destruct (run late_run) as [st|] eqn:Hrun; [|vm_compute in Hrun; discriminate].
  exists st. vm_compute in Hrun. injection Hrun as <-. split_and!; reflexivity.
Qed.

(** ** An unsynchronised access *)

(** [Serve] and [Shutdown] called at the same time, before the first [Serve] has
    made the server's context. *)
Definition racing_run : list event :=
  [EvCall 0 (CallServe 5); EvCall 1 CallShutdown; Ev 1 Next; Ev 1 Next; Ev 1 Next].

(** [Shutdown] reads [s.cancel] without holding [mu]: there is a reachable state
    in which it is about to read it, [Serve] is about to write it, nobody holds
    the lock, and both steps are enabled. *)
Theorem shutdown_races_serve :
  ∃ st, reachable any_server st ∧ mu st = None ∧ cancel st = None ∧
    threads st !! 0 = Some (SvInit 5) ∧ threads st !! 1 = Some SdCancel ∧
    (∃ st', step 0 Next st = Some st' ∧ cancel st' = Some false) ∧
    (∃ st', step 1 Next st = Some st' ∧ cancel st' = None).
Proof.
  destruct (run racing_run) as [st|] eqn:Hrun; [|vm_compute in Hrun; discriminate].
  exists st. split; [by apply (run_reachable _ _ Hrun)|].
  vm_compute in Hrun. injection Hrun as <-.
  split_and!; [reflexivity..| |]; eexists; split; reflexivity.
Qed.
