(* ===== verification/LifecycleLive.v ===== *)
(** * A server that is closed comes to an end

    [Close] and [Shutdown] return, and once one of them has, every [Serve] call and
    every connection goroutine ends. A goroutine waits for [mu], whose holder can
    go on; for a running handler, which may never return; or for the network, on
    a listener or connection that has been closed under it. Apart from accepted
    connections, commands and calls from outside, the goroutines have only
    finitely many steps to make. *)

From S2P Require Import Prelude GoErrors GoIO GoNet Packet Server Lifecycle LifecycleProps.

(** What comes from outside: a connection to accept, a command, a call. *)
Definition outside (ch : choice) : bool :=
  match ch with AcceptConn _ | Begin => true | _ => false end.

Inductive arrives {H} (s : Server H) (st : lstate) : lstate → Prop :=
  | arrives_event t ch st' : outside ch = true → step t ch st = Some st' → arrives s st st'
  | arrives_call t c st' : threads st !! t = None → start s t c st = Ok st' → arrives s st st'.

(** A step that nothing outside can hold up: [Accept] fails on a closed listener,
    serving stops on a closed connection. A handler is not taken to return, and
    [Shutdown] is not taken to be helped by its context. *)
Definition forced (t : nat) (ch : choice) (st : lstate) : Prop :=
  outside ch = false ∧
  match threads st !! t with
  | Some (SvAccept ln) => ln ∈ ln_closed st
  | Some (GServe c) => c ∈ c_closed st
  | Some (GHandle _) => False
  | Some (SdWait _) => ch = Next
  | _ => True
  end.

(** However the goroutines are scheduled, with at most [n] arrivals they reach [Q]:
    until then one of them can always go on, and no choice of steps goes on for
    ever. *)
Inductive ends {H} (s : Server H) (Q : lstate → Prop) : nat → lstate → Prop :=
  | ends_now n st : Q st → ends s Q n st
  | ends_later n st :
      (∃ t ch st', forced t ch st ∧ step t ch st = Some st') →
      (∀ t ch st', outside ch = false → step t ch st = Some st' → ends s Q n st') →
      (∀ m st', n = S m → arrives s st st' → ends s Q m st') →
      ends s Q n st.

(** Returned, waiting for a peer, or waiting for a handler. *)
Definition returned (p : pc) : Prop :=
  match p with SvDone _ _ | GDone | ClDone _ | SdDone _ => True | _ => False end.
Definition idles (st : lstate) (p : pc) : Prop :=
  match p with
  | SvAccept ln => ln ∉ ln_closed st
  | GServe c => c ∉ c_closed st
  | GHandle _ => True
  | SdWait false => handlerWG st ≠ 0
  | _ => returned p
  end.
Definition at_peace (st : lstate) : Prop := map_Forall (λ _ p, idles st p) (threads st).

(** Returned, or held up by a handler that has not. *)
Definition rests (st : lstate) (p : pc) : Prop :=
  match p with
  | GHandle _ => True
  | SdWait false => handlerWG st ≠ 0
  | _ => returned p
  end.

(** The server is over: every goroutine has returned, the ones that run or wait for
    a handler apart, and every listener it served and every connection it accepted
    is closed. *)
Definition over (st : lstate) : Prop :=
  map_Forall (λ _ p, rests st p) (threads st) ∧
  (∀ c, c ∈ accepted st → c ∈ c_closed st) ∧
  (∀ t ln e, threads st !! t = Some (SvDone ln e) → ln ∈ ln_closed st).

#[global] Instance idles_dec st p : Decision (idles st p).
Proof. destruct p; simpl; try case_match; apply _. Defined.

(** ** Somebody can go on *)

Section Progress.
Context {H : Type} (s : Server H) (st : lstate).
Hypothesis Hreach : reachable s st.

Definition goes_on : Prop := ∃ t ch st', forced t ch st ∧ step t ch st = Some st'.

Lemma holder_goes_on t : mu st = Some t → goes_on.
Proof.
  intros Hmu. destruct (lock_holder_steps s st t Hreach Hmu) as (ch & st' & Hs).
  destruct (li_held _ (reachable_linv _ _ Hreach) _ Hmu) as (p & Hp & Hh).
  exists t, ch, st'. split; [|done]. unfold forced. rewrite Hp. unfold step in Hs. rewrite Hp in Hs. simpl in Hs.
  by destruct p, ch.
Qed.

(** Who waits for [mu] gets it, or its holder goes on. *)
Lemma free_goes_on : (mu st = None → goes_on) → goes_on.
Proof. intros Hf. destruct (mu st) as [t|] eqn:Hmu; [by eapply holder_goes_on|by apply Hf]. Qed.

Lemma lock_goes_on t p :
  threads st !! t = Some p → holds p = true → goes_on.
Proof. intros Hp Hh. eapply holder_goes_on. by eapply (li_holds _ (reachable_linv _ _ Hreach)). Qed.

Lemma server_progress t p : threads st !! t = Some p → ¬ idles st p → goes_on.
Proof.
  intros Hp Hr. destruct (holds p) eqn:Hh; [by eapply lock_goes_on|].
  assert (∀ ch st', forced t ch st → step t ch st = Some st' → goes_on) as Hgo by (intros; by eexists _, _, _).
  unfold step, forced in Hgo. rewrite Hp in Hgo. simpl in Hgo.
  destruct p; simpl in Hr, Hh; try done; try (by eapply (Hgo Next));
    try (apply free_goes_on; intros Hmu; unfold step_serve, step_conn, step_close, step_shutdown, lock in Hgo;
         rewrite Hmu in Hgo; by eapply (Hgo Next)).
  - eapply (Hgo (AcceptFail errUseOfClosed)); [split; [done|by apply dec_stable]|done].
  - eapply (Hgo (Pick (fresh (dom (threads st))))); [done|]. simpl. rewrite decide_True; [done|apply is_fresh].
  - eapply (Hgo Leave); [split; [done|by apply dec_stable]|done].
  - destruct done; [by eapply (Hgo Next)|]. apply dec_stable in Hr.
    eapply (Hgo Next); [done|]. simpl. by rewrite decide_True.
Qed.
End Progress.

(** ** Only finitely many steps *)

(** Steps after which [Close] or [Shutdown] may find more to close, and the
    others; a [Serve] call about to start a goroutine carries its weight. *)
Definition phase (p : pc) : nat :=
  match p with
  | ClStore => 4 | ClLock | SdStore => 3 | ClCancel | SdLock => 2
  | ClLns _ _ | SdLns _ | SdCancel | SdWait _ | SdLock2 _ => 1
  | _ => 0
  end.
Definition weight (p : pc) : nat :=
  match p with
  | SvInit _ => 9 | SvTrack _ => 8 | SvTrackLoad _ => 7 | SvTrackAdd _ => 6 | SvRefused _ => 4
  | SvAccept _ => 5 | SvAcceptErr _ _ => 4
  | SvTrackC _ _ => 15 | SvTrackCLoad _ _ => 14 | SvTrackCAdd _ _ => 13 | SvGo _ _ => 12 | SvDropC _ _ => 4
  | SvUntrack _ _ => 3 | SvCloseLn _ _ => 2
  | GHandle _ => 7 | GServe _ => 6 | GClose _ => 3 | GUntrack _ => 2
  | ClLns todo _ => 1 + size todo | ClConns todo _ => 1 + size todo
  | SdLns todo => 5 + size todo | SdCancel => 4 | SdWait done => (if done then 2 else 3) | SdLock2 _ => 1 | SdConns todo _ => 1 + size todo
  | _ => 0
  end.

Lemma size_delete_lt (todo : gmap nat nat) k ln : todo !! k = Some ln → size todo = S (size (delete k todo)).
Proof. intros Hk. by rewrite <- (insert_delete_id todo k ln Hk), map_size_insert_None, delete_insert_eq, delete_delete_eq by apply lookup_delete_eq. Qed.

Lemma total_spawn (f : pc → nat) t n p q r (m : gmap nat pc) :
  m !! t = Some p → (n ∉ dom m) → total f (<[t := q]> (<[n := r]> m)) + f p = total f m + f q + f r.
Proof.
  intros Hp Hn. rewrite not_elem_of_dom in Hn. pose proof (total_move f t p q (<[n := r]> m)) as HM.
  rewrite lookup_insert_ne in HM by congruence. rewrite (total_insert f n r m Hn) in HM. specialize (HM Hp). lia.
Qed.

(** A step of its own brings a goroutine forward, or starts another one. *)
Lemma step_forward t ch st st' :
  outside ch = false → step t ch st = Some st' →
  ∃ p q, threads st !! t = Some p ∧
    (threads st' = <[t := q]> (threads st) ∧ (phase q < phase p ∨ phase q = phase p ∧ weight q < weight p) ∨
     ∃ ln c n, p = SvGo ln c ∧ q = SvAccept ln ∧ (n ∉ dom (threads st)) ∧
       threads st' = <[t := q]> (<[n := GServe c]> (threads st))).
Proof.
  intros Ho Hs. step_cases Hs; try done; (eexists _, _; split; [done|]);
    try (left; split; [reflexivity|]; simpl;
         try match goal with Hk : ?todo !! ?k = Some _ |- _ => pose proof (size_delete_lt todo k _ Hk) end;
         try match goal with Hc : ?c ∈ ?todo |- _ => pose proof (size_taken c todo Hc) end; lia).
  right. by eexists _, _, _.
Qed.

Lemma server_total_down t ch st st' :
  outside ch = false → step t ch st = Some st' →
  total phase (threads st') < total phase (threads st) ∨
  total phase (threads st') = total phase (threads st) ∧ total weight (threads st') < total weight (threads st).
Proof.
  intros Ho (p & q & Hp & [[-> Hd]|(ln & c & n & -> & -> & Hn & ->)])%step_forward; [| |done].
  - pose proof (total_move phase t p q _ Hp). pose proof (total_move weight t p q _ Hp). lia.
  - pose proof (total_spawn phase _ _ _ (SvAccept ln) (GServe c) _ Hp Hn) as HA.
    pose proof (total_spawn weight _ _ _ (SvAccept ln) (GServe c) _ Hp Hn) as HB. simpl in *. lia.
Qed.

(** ** Listeners stay tracked while they are served *)

Definition listed (st : lstate) : Prop :=
  ∀ t p ln, threads st !! t = Some p → listening p = Some ln → tracked_lns st !! t = Some ln.

(** A step touches its own goroutine's listener only. *)
Lemma step_listed t ch st st' p p' :
  step t ch st = Some st' → threads st !! t = Some p → threads st' !! t = Some p' →
  (∀ ln, listening p' = Some ln → listening p = Some ln ∧ tracked_lns st' = tracked_lns st ∨
         tracked_lns st' !! t = Some ln) ∧
  (∀ t', t' ≠ t → tracked_lns st' !! t' = tracked_lns st !! t').
Proof.
  intros HS Hp Hp'. unfold tracked_lns. step_cases HS; simpl in Hp'; rewrite lookup_insert_eq in Hp'; simplify_eq;
    simpl; (split; [intros ? [=]; subst; auto|intros t' Hne; try done]).
  - right. by rewrite lookup_insert_eq.
  - by rewrite lookup_insert_ne.
  - destruct (listeners st); simpl; [by rewrite lookup_delete_ne|done].
Qed.

Lemma listed_step t ch st st' : listed st → step t ch st = Some st' → listed st'.
Proof.
  intros HL HS. destruct (step_effect _ _ _ _ HS) as (p & p' & Hp & Hp' & _).
  pose proof (step_moves _ _ _ _ _ _ HS Hp Hp') as Hm.
  destruct (step_listed _ _ _ _ _ _ HS Hp Hp') as [Hself Hother].
  intros t1 q ln Hq Hln. by_mover Hm Hq; [|rewrite Hother by done; by eapply HL|done].
  destruct (Hself _ Hln) as [[Hl ->]|?]; [by eapply HL|done].
Qed.

Lemma reachable_listed {H} (s : Server H) st : reachable s st → listed st.
Proof.
  induction 1 as [|st st' _ IH Hs]; [intros ? ? ? ?; done|].
  destruct Hs as [t ch st st' Hs|t c st st' Ht Hs]; [by eapply listed_step|].
  rewrite (start_goto _ _ _ _ _ Hs). intros t1 q ln. simpl.
  intros [[<- <-]|[? ?]]%lookup_insert_Some; [by destruct c|by eapply IH].
Qed.

(** ** Theorems *)

Lemma arrives_lstep {H} (s : Server H) st st' : arrives s st st' → lstep s st st'.
Proof. intros []; by econstructor. Qed.

(** Every schedule comes to peace. *)
Lemma ends_at_peace {H} (s : Server H) n st : reachable s st → ends s at_peace n st.
Proof.
  revert st. induction n as [n IHn] using lt_wf_ind. intros st.
  remember (total phase (threads st)) as a eqn:Ha. revert st Ha.
  induction a as [a IHa] using lt_wf_ind. intros st Ha.
  remember (total weight (threads st)) as b eqn:Hb. revert st Ha Hb.
  induction b as [b IHb] using lt_wf_ind. intros st Ha Hb Hr.
  destruct (decide (at_peace st)) as [Hp|(t & p & Hp & Hi)%map_not_Forall]; [by apply ends_now| |apply _].
  apply ends_later.
  - by eapply server_progress.
  - intros t1 ch st' Ho Hs.
    assert (reachable s st') as Hr' by (eapply reach_step; [exact Hr|by eapply lstep_go]).
    destruct (server_total_down _ _ _ _ Ho Hs) as [Hlt|[Heq Hlt]].
    + by eapply IHa; [rewrite Ha; exact Hlt| |].
    + by eapply IHb; [rewrite Hb; exact Hlt|congruence| |].
  - intros m st' -> Hs%arrives_lstep. apply IHn; [lia|]. by eapply reach_step.
Qed.

(** A call of [Close] or [Shutdown] has returned. *)
Definition shut (st : lstate) : Prop :=
  ∃ t err, threads st !! t = Some (ClDone err) ∨ threads st !! t = Some (SdDone err).

Lemma shut_lstep {H} (s : Server H) st st' : lstep s st st' → shut st → shut st'.
Proof.
  intros Hs (t & err & Hd). exists t, err. destruct Hs as [t1 ch st st' Hs|t1 c st st' Ht Hs].
  - destruct (step_effect _ _ _ _ Hs) as (p & p' & Hp & Hp' & _).
    pose proof (step_moves _ _ _ _ _ _ Hs Hp Hp') as Hm.
    assert (t ≠ t1) as Hne.
    { intros ->. unfold step in Hs. destruct Hd as [Hd|Hd]; rewrite Hd in Hs; simpl in Hs; by destruct ch. }
    destruct Hm as [[-> _]|(n & ln & c & _ & _ & _ & Hf & ->)]; rewrite !lookup_insert_ne; try done; [];
      intros ->; destruct Hd; congruence.
  - rewrite (start_goto _ _ _ _ _ Hs). simpl. rewrite lookup_insert_ne; [done|]. intros ->. destruct Hd; congruence.
Qed.

(** With the sockets closed, peace is the end. *)
Lemma shut_over {H} (s : Server H) st : reachable s st → shut st → at_peace st → over st.
Proof.
  intros Hr (t & err & Hd) Hp. pose proof (reachable_linv _ _ Hr) as Hi.
  assert (∃ p, threads st !! t = Some p ∧ lns_left p = Some ∅ ∧ conns_left p = Some ∅) as (p & Ht & Hln & Hcn)
    by (destruct Hd; by eexists).
  assert (map_Forall (λ _ p, rests st p) (threads st)) as HR.
  { intros t' q Hq. specialize (Hp t' q Hq). destruct q; try done; simpl in Hp; exfalso; apply Hp.
    - destruct (li_lns _ Hi _ _ _ t' ln Ht Hln) as [?|?]; [|done..]. by eapply (reachable_listed _ _ Hr).
    - destruct (li_conns _ Hi _ _ _ c Ht Hcn) as [?|?]; [|set_solver|done]. by eapply (li_tracked _ Hi). }
  split_and!; [done| |intros; by eapply (mi_done _ (reachable_minv _ _ Hr))].
  intros c Hc. destruct (li_owner _ Hi _ Hc) as [?|(t' & q & Hq & Hcq)]; [done|].
  specialize (HR _ _ Hq). destruct q; try done. simplify_eq/=.
  destruct (li_conns _ Hi _ _ _ c Ht Hcn) as [?|?]; [|set_solver|done]. by eapply (li_tracked _ Hi).
Qed.

Lemma ends_over {H} (s : Server H) n st : ends s at_peace n st → reachable s st → shut st → ends s over n st.
Proof.
  induction 1 as [n st Hp|n st Hgo Hown IHown Harr IHarr]; intros Hr Hs; [by eapply ends_now, shut_over|].
  apply ends_later; [done| |].
  - intros t ch st' Ho Hst. assert (lstep s st st') as Hl by (by eapply lstep_go).
    apply (IHown t ch); [done|done|by eapply reach_step|by eapply shut_lstep].
  - intros m st' Hm Ha. pose proof (arrives_lstep _ _ _ Ha) as Hl.
    apply (IHarr m); [done|done|by eapply reach_step|by eapply shut_lstep].
Qed.

(** A server can always be brought to an end. In every reachable state, however
    the goroutines are scheduled from there and with any number of further
    connections, commands and calls, every goroutine returns, waits for a peer on
    an open listener or connection, or runs or (in [Shutdown]) waits for a handler
    that has not returned: calls of [Close] return. Once one of [Close] and
    [Shutdown] has, there is no open listener or connection to wait on: every
    [Serve] call returns, and so does every connection goroutine whose handler
    does, and every accepted connection and served listener is closed. *)
Theorem closed_server_ends {H} (s : Server H) (st : lstate) (n : nat) :
  reachable s st → ends s at_peace n st ∧ (shut st → ends s over n st).
Proof. intros Hr. split; [by apply ends_at_peace|]. by apply ends_over; [apply ends_at_peace|]. Qed.

Lemma closed_server_ends_witness :
  ∃ st, run closing_run = Some st ∧ shut st ∧ ¬ over st ∧ ends any_server over 4 st.
Proof.
  destruct (run closing_run) as [st|] eqn:Hrun; [|vm_compute in Hrun; discriminate].
  destruct (closed_server_ends any_server st 4 (run_reachable _ _ Hrun)) as [_ He].
  assert (shut st) as Hs.
  { exists 2, None. left. vm_compute in Hrun. injection Hrun as <-. reflexivity. }
  exists st. split; [reflexivity|]. split; [exact Hs|]. split; [|exact (He Hs)].
  intros (_ & Hc & _). vm_compute in Hrun. injection Hrun as <-.
  assert (8 ∈ ({[7]} : gset nat)) as Hbad by (apply (Hc 8); vm_compute; reflexivity).
  vm_compute in Hbad. discriminate.
Defined.
