(* ===== verification/ServeConc.v ===== *)
(** * rconserver: the lifecycle with its connections

    [Lifecycle] sees of a connection goroutine only that it serves, runs a handler
    or stops. Here the goroutine is [serveConn] itself, a tree of actions on its
    socket ([gprog]): every read, write and deadline is one step, the return of
    the handler's call is one, and [handlerWG.Add] and [handlerWG.Done] of
    [dispatch] are steps of their own, so that [Close], [Shutdown] and other
    connections interleave anywhere. The sockets are the ones [Close] and
    [Shutdown] close. A read that has nothing to return, or a write the peer does
    not take, is not enabled: it waits until the socket is closed under it. A
    handler's call can return whenever the scheduler lets it, if ever.

    [kstate] is a [Lifecycle] state with the sockets of the accepted connections,
    the programs of their goroutines and the state of the handler, which all
    connections share. *)

From S2P Require Import Prelude GoErrors GoIO GoNet Packet Resume Server Lifecycle.

Local Open Scope Z_scope.

(** ** serveConn, action by action *)

(** The goroutine of a connection, up to its deferred [conn.Close()]. *)
Inductive gprog (S : Type) : Type :=
  | GEnd
  | GAct (calls : bool) (B : Type) (m : GoM S B) (k : B → gprog S)   (* calls: the handler's call *)
  | GAdd (k : gprog S)                       (* s.handlerWG.Add(1) *)
  | GWgDone (k : gprog S).                   (* s.handlerWG.Done() *)
Arguments GEnd {S}.
Arguments GAct {S} calls {B} m k.
Arguments GAdd {S} k.
Arguments GWgDone {S} k.

Fixpoint lift {S A} (p : prog S A) (k : A → gprog S) : gprog S :=
  match p with
  | Pure a => k a
  | Act m k' => GAct false m (λ b, lift (k' b) k)
  end.

Notation "'go' x <- p ; k" := (lift p (λ x, k))
  (at level 10, x pattern, p at level 100, k at level 200) : rcon_scope.

Section Programs.
Context {H : Type} (s : Server H) (handler : Handler H) (doneCtx : option Context).

Definition parm_read : prog (served H) unit :=
  if 0 <? ReadTimeout s then
    Act (gets sv_conn) (λ c,
    Act (zoom sv_conn set_sv_conn (SetReadDeadline (Some (nc_now c + ReadTimeout s)))) (λ _,
    Pure tt))
  else Pure tt.

Definition pauthenticate : prog (served H) (result bool) :=
  run (_, r) <- pReadFrom;
  run_try req <- Pure r;
  if negb (Type_ req =? TypeAuth) then Pure (Err errNotAuth) else
  let ok := checkPassword s (Body req) in
  run (_, err) <- pWriteTo {| ID := ID req; Type_ := TypeResponseValue; Body := "" |};
  match err with
  | Some e => Pure (Err e)
  | None =>
      let id := if ok then ID req else -1 in
      run (_, err) <- pWriteTo {| ID := id; Type_ := TypeAuthResponse; Body := "" |};
      match err with
      | Some e => Pure (Err e)
      | None => Pure (Ok ok)
      end
  end.

Fixpoint pwrite_chunks (fuel : nat) (reqID : Z) (body : list byte) : prog (served H) (option error) :=
  match body with
  | [] => Pure None
  | _ =>
      match fuel with
      | 0%nat => spin
      | S fuel' =>
          let n := Nat.min (length body) (Z.to_nat MaxPayloadSize) in
          run (_, err) <- pWriteTo {| ID := reqID; Type_ := TypeResponseValue;
                                      Body := string_of (take n body) |};
          match err with
          | Some e => Pure (Some e)
          | None => pwrite_chunks fuel' reqID (drop n body)
          end
      end
  end.

Definition pwriteResponse (reqID : Z) (body : list byte) : prog (served H) (option error) :=
  match body with
  | [] =>
      run (_, err) <- pWriteTo {| ID := reqID; Type_ := TypeResponseValue; Body := "" |};
      Pure err
  | _ => pwrite_chunks (length body) reqID body
  end.

(** [s.Handler.ServeRCON(rw, r)] on the state the connections share. *)
Definition serve_rcon (r : Request) : GoM (served H) (handler_run H) := λ sv,
  let hr := handler r (sv_handler sv) in
  Ret hr (after_call hr sv).

(** The rest of [dispatch], before the deferred [Done]. *)
Definition prespond (reqID : Z) (hr : handler_run H) : prog (served H) (option error) :=
  if hr_panics hr then Pure (Some errHandlerPanic)
  else pwriteResponse reqID (rw_buf (fold_left rw_call (hr_writes hr) (mkResponseWriter []))).

(** [dispatch]. *)
Definition gdispatch (r : Request) (reqID : Z) (k : option error → gprog (served H)) : gprog (served H) :=
  GAdd (GAct true (serve_rcon r) (λ hr,
  go err <- prespond reqID hr;
  GWgDone (k err))).

Fixpoint gserve_loop (fuel : nat) : gprog (served H) :=
  match fuel with
  | 0%nat => GAct false (λ _, @Diverges (served H) unit) (λ _, GEnd)
  | S fuel' =>
      go _ <- parm_read;
      go (_, r) <- pReadFrom;
      match r with
      | Err _ => GEnd
      | Ok req =>
          if Type_ req =? TypeExecCommand then
            GAct false (gets sv_conn) (λ c,
            gdispatch {| Command := Body req; RemoteAddr := nc_remote c; req_ctx := doneCtx |} (ID req)
              (λ err, match err with
                      | Some _ => GEnd
                      | None => gserve_loop fuel'
                      end))
          else if Type_ req =? TypeResponseValue then
            go _ <- pWriteTo {| ID := ID req; Type_ := TypeResponseValue; Body := "" |};
            gserve_loop fuel'
          else gserve_loop fuel'
      end
  end.

Definition gserveConn : gprog (served H) :=
  go _ <- parm_read;
  go r <- pauthenticate;
  match r with
  | Err _ => GEnd
  | Ok false => GEnd
  | Ok true => GAct false (gets left_bytes) (λ n, gserve_loop (S n))
  end.
End Programs.

(** *** Run alone, it is serveConn *)

Fixpoint gdenote {S} (g : gprog S) : GoM S unit :=
  match g with
  | GEnd => ret tt
  | GAct _ m k => bind m (λ b, gdenote (k b))
  | GAdd k | GWgDone k => gdenote k
  end.

Lemma gdenote_lift {S A} (p : prog S A) (k : A → gprog S) (m : GoM S A) (l : A → GoM S unit) s :
  implements p m → (∀ a s', gdenote (k a) s' = l a s') → gdenote (lift p k) s = bind m l s.
Proof.
  intros Hp Hk. transitivity (bind (denote p) (λ a, gdenote (k a)) s).
  - clear. revert s. induction p as [a|B m' k' IH]; intros s; simpl; [done|].
    rewrite bind_assoc. by apply bind_ext.
  - by apply bind_ext; [apply Hp|].
Qed.

Section Alone.
Context {H : Type} (s : Server H) (handler : Handler H) (doneCtx : option Context).

Lemma implements_arm_read : implements (parm_read s) (arm_read s).
Proof. unfold parm_read, arm_read. implements_tac. Qed.

Lemma implements_authenticate : implements (pauthenticate s) (srv_authenticate s).
Proof. unfold pauthenticate, srv_authenticate. implements_tac. Qed.

Lemma implements_write_chunks fuel reqID body :
  implements (@pwrite_chunks H fuel reqID body) (write_chunks fuel reqID body).
Proof.
  revert body. induction fuel as [|fuel IH]; intros body; destruct body; cbn [pwrite_chunks write_chunks]; implements_tac.
Qed.
Local Hint Resolve implements_arm_read implements_authenticate implements_write_chunks : rcon.

Lemma implements_writeResponse reqID body :
  implements (@pwriteResponse H reqID body) (writeResponse reqID body).
Proof. destruct body; [unfold pwriteResponse, writeResponse; implements_tac|apply implements_write_chunks]. Qed.

Lemma gdenote_dispatch r reqID k (l : option error → GoM (served H) unit) sv :
  (∀ err sv', gdenote (k err) sv' = l err sv') →
  gdenote (gdispatch handler r reqID k) sv = bind (dispatch handler r reqID) l sv.
Proof.
  intros Hk. cbn [gdispatch gdenote]. unfold dispatch, gets, modify, serve_rcon, prespond, bind at 1 2 3 4.
  destruct (hr_panics _); [apply Hk|].
  apply gdenote_lift; [apply implements_writeResponse|exact Hk].
Qed.

Lemma gdenote_serve_loop fuel sv :
  gdenote (gserve_loop s handler doneCtx fuel) sv = serve_loop s handler doneCtx fuel sv.
Proof.
  revert sv. induction fuel as [|fuel IH]; intros sv; [done|]. cbn [gserve_loop serve_loop].
  apply gdenote_lift; [auto with rcon|]. intros _ sv1. apply gdenote_lift; [auto with rcon|].
  intros [n [req|e]] sv2; [|done]. destruct (Type_ req =? TypeExecCommand).
  - cbn [gdenote]. apply bind_ext; [done|]. intros c sv3. apply gdenote_dispatch.
    intros [e|] sv4; [done|apply IH].
  - destruct (Type_ req =? TypeResponseValue); [|apply IH].
    apply gdenote_lift; [auto with rcon|]. intros _ sv3. apply IH.
Qed.

Lemma gdenote_serveConn sv : gdenote (gserveConn s handler doneCtx) sv = serve_body s handler doneCtx sv.
Proof.
  apply gdenote_lift; [auto with rcon|]. intros _ sv1. apply gdenote_lift; [auto with rcon|].
  intros [[]|e] sv2; try done. apply gdenote_serve_loop.
Qed.
End Alone.

(** ** The machine *)

Record kstate (H : Type) := mkK {
  k_life : lstate;
  k_socks : gmap nat netConn;
  k_progs : gmap nat (gprog (served H));
  k_handler : H
}.
Arguments mkK {H} _ _ _ _.
Arguments k_life {H} _.
Arguments k_socks {H} _.
Arguments k_progs {H} _.
Arguments k_handler {H} _.

(** [conn.Close()] on a socket, its error dropped. *)
Definition shut_sock (nc : netConn) : netConn :=
  match CloseConn nc with Ret _ nc' => nc' | _ => nc end.

(** The connection a step accepts. *)
Definition accepts (p : pc) (ch : choice) : option nat :=
  match p, ch with SvAccept _, AcceptConn c => Some c | _, _ => None end.

(** The connection a step closes. *)
Definition closes (p : pc) (ch : choice) : option nat :=
  match p, ch with
  | SvDropC _ c, Next | GClose c, Next => Some c
  | ClConns _ _, Pick c | SdConns _ _, Pick c => Some c
  | _, _ => None
  end.

Section Machine.
Context {H : Type} (s : Server H) (handler : Handler H) (doneCtx : option Context).
(** The socket [Accept] returns for each connection. *)
Context (peer : nat → netConn).

Definition socks_after (p : pc) (ch : choice) (socks : gmap nat netConn) : gmap nat netConn :=
  match accepts p ch, closes p ch with
  | Some c, _ => <[c := peer c]> socks
  | None, Some c => alter shut_sock c socks
  | None, None => socks
  end.

(** [go func() {...}()] in [Serve]. *)
Definition progs_after (p : pc) (ch : choice) (progs : gmap nat (gprog (served H))) :
    gmap nat (gprog (served H)) :=
  match p, ch with
  | SvGo _ _, Pick t' => <[t' := gserveConn s handler doneCtx]> progs
  | _, _ => progs
  end.

(** A connection goroutine's next step on connection [c]. *)
Definition step_serving (t c : nat) (st : kstate H) : option (kstate H) :=
  g ← k_progs st !! t;
  let to ch g := (λ life, mkK life (k_socks st) (<[t := g]> (k_progs st)) (k_handler st)) <$> step t ch (k_life st) in
  match g with
  | GEnd => to Leave GEnd
  | GAdd k => to Begin k
  | GWgDone k => to Next k
  | GAct _ m k =>
      nc ← k_socks st !! c;
      match m (mkServed nc (k_handler st)) with
      | Ret b sv => Some (mkK (k_life st) (<[c := sv_conn sv]> (k_socks st)) (<[t := k b]> (k_progs st)) (sv_handler sv))
      | Blocks _ | Diverges => None
      end
  end.

Definition kstep (t : nat) (ch : choice) (st : kstate H) : option (kstate H) :=
  p ← threads (k_life st) !! t;
  match p with
  | GServe c | GHandle c => match ch with Next => step_serving t c st | _ => None end
  | _ =>
      life ← step t ch (k_life st);
      Some (mkK life (socks_after p ch (k_socks st)) (progs_after p ch (k_progs st)) (k_handler st))
  end.

(** Time passes on the sockets, as much on each as [d] says. *)
Definition kwait (d : nat → Z) (st : kstate H) : kstate H :=
  mkK (k_life st) (map_imap (λ c nc, Some (set_now (nc_now nc + d c) nc)) (k_socks st)) (k_progs st) (k_handler st).

Definition kcall (t : nat) (c : call) (st : kstate H) : result (kstate H) :=
  match start s t c (k_life st) with
  | Ok life => Ok (mkK life (k_socks st) (k_progs st) (k_handler st))
  | Err e => Err e
  end.

Definition kinit (h : H) : kstate H := mkK init ∅ ∅ h.

Inductive kmove : kstate H → kstate H → Prop :=
  | kmove_go t ch st st' : kstep t ch st = Some st' → kmove st st'
  | kmove_call t c st st' :
      threads (k_life st) !! t = None → kcall t c st = Ok st' → kmove st st'
  | kmove_wait d st : (∀ c, 0 ≤ d c) → kmove st (kwait d st).

(** Steps and calls only: time passes in the connections' own reads. *)
Inductive kgo : kstate H → kstate H → Prop :=
  | kgo_step t ch st st' : kstep t ch st = Some st' → kgo st st'
  | kgo_call t c st st' : threads (k_life st) !! t = None → kcall t c st = Ok st' → kgo st st'.

Definition kreach (h : H) : kstate H → Prop := rtc kmove (kinit h).
End Machine.
