(* ===== verification/ServeConcProps.v ===== *)
(** * Properties of the server with its connections

    First what one connection goroutine does while others close its socket, call
    the handler and let time pass ([gwp]): it never spins, waits only on an open
    socket, in a read without a read timeout or in a write to a peer that does not
    read, and keeps [handlerWG] in step.
    Then the invariant of the machine, which ties each goroutine of the lifecycle
    to its socket and its program, and with it the theorems: the machine refines
    [Lifecycle], and under every schedule a server that is closed ends. *)

From S2P Require Import Prelude GoErrors GoIO GoNet Packet Resume Server Lifecycle LifecycleProps LifecycleLive ServeConc.

Local Open Scope Z_scope.

(** ** One connection among other goroutines *)

Section Goroutine.
Context {H : Type} (s : Server H) (handler : Handler H) (doneCtx : option Context).
Implicit Types sv : served H.

(** What others do to a goroutine's socket and handler between two of its steps:
    close the socket, change the handler's state, let time pass. *)
Definition disturbed sv sv' : Prop :=
  (left_bytes sv' ≤ left_bytes sv)%nat ∧
  (nc_closed (sv_conn sv) = true → nc_closed (sv_conn sv') = true) ∧
  nc_rdeadline (sv_conn sv') = nc_rdeadline (sv_conn sv) ∧
  nc_in (sv_conn sv') = nc_in (sv_conn sv).

#[global] Instance disturbed_refl : Reflexive disturbed.
Proof. by intros sv. Qed.
#[global] Instance disturbed_trans : Transitive disturbed.
Proof. intros sv1 sv2 sv3 (? & ? & ? & ?) (? & ? & ? & ?). split_and!; [lia|auto|congruence..]. Qed.

(** The peer does not read any more. *)
Definition stalled (nc : netConn) : Prop := ∃ k, nc_wfail nc = Some (k, WStall None).

(** Where it may wait: on an open socket, in a read (not while it handles a
    command) without a timeout, or in a write to a peer that does not read. *)
Definition may_wait (h : bool) sv : Prop :=
  nc_closed (sv_conn sv) = false ∧ (h = false ∧ ReadTimeout s ≤ 0 ∨ stalled (sv_conn sv)).

(** A read deadline is set if there is a read timeout. *)
Definition timed sv : Prop :=
  nc_closed (sv_conn sv) = true ∨ (0 < ReadTimeout s → nc_rdeadline (sv_conn sv) ≠ None).

Lemma timed_disturbed sv sv' : disturbed sv sv' → timed sv → timed sv'.
Proof. intros (_ & Hc & Hd & _) [?|Ht]; [left; auto|right]. by rewrite Hd. Qed.

(** Goroutine [g] from [sv] on, inside a handler if [h]; it enters one only if [ok]. *)
Context (ok : Prop).

Fixpoint gwp (h : bool) (g : gprog (served H)) sv : Prop :=
  match g with
  | GEnd => h = false
  | GAdd k => h = false ∧ ok ∧ gwp true k sv
  | GWgDone k => h = true ∧ gwp false k sv
  | GAct calls m k =>
      (calls = true → h = true) ∧ ∀ sv1, disturbed sv sv1 →
        match m sv1 with
        | Ret b sv2 => gwp h (k b) sv2
        | Blocks _ => may_wait h sv1
        | Diverges => False
        end
  end.

Lemma gwp_stable h g sv sv' : disturbed sv sv' → gwp h g sv → gwp h g sv'.
Proof.
  intros HR. revert h. induction g as [|calls B m k _|k IH|k IH]; intros h; simpl; [done| |naive_solver..].
  intros [Hh Hg]. split; [done|]. intros sv1 Hs1. apply Hg. by etrans.
Qed.

Abbreviation swp h := (wp disturbed (may_wait h)).

Lemma gwp_lift {A} h (p : prog (served H) A) k sv :
  swp h p sv (λ a sv', gwp h (k a) sv') → gwp h (lift p k) sv.
Proof.
  revert sv. induction p as [a|B m k' IH]; intros sv; simpl; [intros Hk; by apply Hk|].
  intros Hp. split; [done|]. intros sv1 Hs1. specialize (Hp sv1 Hs1). destruct (m sv1); [by apply IH|done..].
Qed.

(** *** Its actions *)

Lemma served_Read n sv :
  timed sv → match Read n sv with Ret _ sv' => timed sv' | Blocks _ => may_wait false sv | Diverges => False end.
Proof.
  intros Ht. unfold Read, served_Reader, zoom, Read, netConn_Reader.
  destruct (decide (n = 0)%nat); [destruct sv; exact Ht|].
  destruct (nc_closed (sv_conn sv)) eqn:Hc; [by left|].
  destruct (negb _) eqn:Hb; [destruct sv; exact Ht|].
  destruct (recv _ _ _ _) as [[[[bs e] l] now]|] eqn:HR.
  - destruct Ht as [?|Ht]; [congruence|]. by right.
  - apply recv_None in HR. split; [done|]. left. split; [done|]. destruct Ht as [?|Ht]; [congruence|].
    destruct (Z.ltb_spec 0 (ReadTimeout s)); [by destruct Ht|lia].
Qed.

#[local] Instance disturbed_tame : Tame disturbed (may_wait false) timed.
Proof. split; [by intros sv sv' (? & _)|apply timed_disturbed|apply served_Read]. Qed.

(** What a write or a deadline leaves alone. *)
Definition after sv sv' : Prop := timed sv' ∧ (left_bytes sv' ≤ left_bytes sv)%nat.

Lemma after_disturbed sv sv1 sv2 : after sv sv1 → disturbed sv1 sv2 → after sv sv2.
Proof. intros [Ht Hl] Hd. split; [by eapply timed_disturbed|]. destruct Hd as [? _]. lia. Qed.

(** A write returns, or waits for a peer that does not read. *)
Lemma served_Write h bs sv :
  timed sv → match Write bs sv with Ret _ sv' => after sv sv' | Blocks _ => may_wait h sv | Diverges => False end.
Proof.
  intros Ht. unfold Write, served_Writer, zoom. destruct (Write bs (sv_conn sv)) as [r nc|nc|] eqn:HW.
  - destruct (Write_frame bs (sv_conn sv) nc) as (Hi & Hr & _ & Hc & _); [by rewrite HW|].
    unfold after, timed in *. simpl. by rewrite Hi, Hr, Hc.
  - destruct (Write_blocks _ _ _ HW) as (_ & Hc & k & Hk). split; [done|]. right. by exists k.
  - by apply Write_converges in HW.
Qed.

Lemma wp_serve_write h p sv : timed sv → swp h (pWriteTo p) sv (λ _ sv', after sv sv').
Proof.
  intros Ht sv1 Hs1. pose proof (served_Write h (frame_buffer p) _ (timed_disturbed _ _ Hs1 Ht)) as HW.
  destruct Hs1 as [Hl _]. destruct (Write (frame_buffer p) sv1) as [[n err] sv2|sv2|]; [|done..].
  intros sv3 Hs3. eapply after_disturbed; [|done]. destruct HW as [Ht2 Hl2]. split; [done|lia].
Qed.

Lemma wp_arm_read h sv : swp h (parm_read s) sv (λ _ sv', after sv sv').
Proof.
  unfold parm_read. destruct (Z.ltb_spec 0 (ReadTimeout s)) as [Hr|Hr].
  - intros sv1 [Hl1 _]. simpl. intros sv2 [Hl2 _]. unfold zoom, SetReadDeadline. destruct (nc_closed (sv_conn sv2)) eqn:Hc.
    + intros sv3 Hs3. split; [left; by apply Hs3|]. destruct Hs3 as [Hl3 _].
      unfold set_sv_conn in Hl3. destruct sv2. simpl in *. lia.
    + intros sv3 (Hl3 & _ & Hd & _). split; [|unfold set_sv_conn in Hl3; destruct sv2; simpl in *; lia].
      right. intros _. by rewrite Hd.
  - intros sv1 [Hl1 _]. split; [right; lia|done].
Qed.

Lemma wp_write_chunks h fuel reqID body sv :
  timed sv → (length body ≤ fuel)%nat → swp h (pwrite_chunks fuel reqID body) sv (λ _ sv', after sv sv').
Proof.
  revert body sv. induction fuel as [|fuel IH]; intros body sv Ht Hf; (destruct body as [|b body]; [|simpl in Hf; try lia]);
    cbn [pwrite_chunks]; try (intros sv1 Hs1; by eapply after_disturbed; [split; [exact Ht|reflexivity]|]).
  apply wp_bind. eapply wp_mono, wp_serve_write; [|done]. intros [n [e|]] sv1 [Ht1 Hl1].
  - intros sv2 Hs2. by eapply after_disturbed; [split; [exact Ht1|exact Hl1]|].
  - eapply wp_mono, IH; [|done|].
    + intros _ sv2 [Ht2 Hl2]. split; [done|lia].
    + rewrite length_drop. simpl. unfold MaxPayloadSize. lia.
Qed.

Lemma wp_respond reqID hr sv :
  timed sv → swp true (@prespond H reqID hr) sv (λ _ sv', after sv sv').
Proof.
  intros Ht. unfold prespond.
  destruct (hr_panics hr); [intros sv3 Hs3; by eapply after_disturbed; [split; [exact Ht|reflexivity]|]|].
  unfold pwriteResponse. destruct (rw_buf _) as [|b body]; [|by apply wp_write_chunks].
  apply wp_bind. eapply wp_mono, wp_serve_write; [|done]. intros [n err] sv3 Ha sv4 Hs4. by eapply after_disturbed.
Qed.

(** The handler is entered with [handlerWG] counted, and left with it counted back. *)
Lemma gwp_dispatch r reqID k sv :
  ok → timed sv → (∀ err sv', (left_bytes sv' ≤ left_bytes sv)%nat → gwp false (k err) sv') →
  gwp false (gdispatch handler r reqID k) sv.
Proof.
  intros Hok Ht Hk. split_and!; [done|done|]. cbn [gwp]. split; [done|]. intros sv1 Hs1.
  pose proof (timed_disturbed _ _ Hs1 Ht) as Ht1. destruct Hs1 as [Hl1 _].
  unfold serve_rcon. set (hr := handler r (sv_handler sv1)). cbv zeta.
  apply gwp_lift. eapply wp_mono, wp_respond; [|exact Ht1]. intros err sv2 [_ Hl2].
  split; [done|]. apply Hk. simpl in *. lia.
Qed.

Lemma wp_authenticate sv : timed sv → swp false (pauthenticate s) sv (λ _ _, True).
Proof.
  intros Ht. apply wp_bind. eapply wp_mono, wp_ReadFrom; [|done]. intros [n [req|e]] sv1 (Ht1 & _); cbn [pbind]; [|done].
  destruct (negb _); [done|]. apply wp_bind. eapply wp_mono, wp_serve_write; [|done].
  intros [n2 [e|]] sv2 [Ht2 _]; [done|]. apply wp_bind. eapply wp_mono, wp_serve_write; [|done].
  by intros [n3 [e|]] sv3 _.
Qed.

(** *** Its program *)

Lemma gwp_serve_loop fuel sv :
  ok → (left_bytes sv < fuel)%nat → gwp false (gserve_loop s handler doneCtx fuel) sv.
Proof.
  intros Hok. revert sv. induction fuel as [|fuel IH]; intros sv Hf; [lia|]. cbn [gserve_loop].
  apply gwp_lift. eapply wp_mono, wp_arm_read. intros _ sv1 [Ht1 Hl1].
  apply gwp_lift. eapply wp_mono, wp_ReadFrom; [|done].
  intros [n [req|e]] sv2 (Ht2 & Hl2 & Hl2'); [|done]. cbn [snd] in Hl2'.
  destruct (Type_ req =? TypeExecCommand).
  - split; [done|]. intros sv3 Hs3. pose proof (timed_disturbed _ _ Hs3 Ht2) as Ht3. destruct Hs3 as [Hl3 _].
    apply gwp_dispatch; [done|done|]. intros [e|] sv4 Hl4; [done|]. apply IH. lia.
  - destruct (Type_ req =? TypeResponseValue); [|apply IH; lia].
    apply gwp_lift. eapply wp_mono, wp_serve_write; [|done]. intros _ sv3 [_ Hl3]. apply IH. lia.
Qed.

(** The bytes still to come. *)
Definition unread sv : list byte := sent_bytes (nc_in (sv_conn sv)).

Lemma unread_disturbed sv sv' : disturbed sv sv' → unread sv' = unread sv.
Proof. intros (_ & _ & _ & Hi). unfold unread. by rewrite Hi. Qed.

#[local] Instance disturbed_streams : Streams disturbed unread.
Proof.
  split; [exact unread_disturbed|].
  intros n sv bs e sv' HR. split; [|by eapply Read_len]. apply zoom_inv in HR as (nc & HR & ->).
  unfold unread, Read, netConn_Reader in *. simpl. repeat case_match; simplify_eq; try done. by eapply recv_sent.
Qed.

(** The bytes begin with a packet that logs in. *)
Definition logs_in (bs : list byte) : Prop :=
  ∃ n p, decode EOF bs = (n, Ok p) ∧ Type_ p = TypeAuth ∧ checkPassword s (Body p) = true.

Lemma wlp_arm_read sv : wlp disturbed (parm_read s) sv (λ _ sv', unread sv' = unread sv).
Proof.
  unfold parm_read. destruct (0 <? ReadTimeout s); [|intros sv1 Hs1; by apply unread_disturbed].
  intros sv1 c sv2 Hs1 [= <- <-] sv3 u sv4 Hs3 (nc & HD & ->)%zoom_inv sv5 Hs5.
  rewrite (unread_disturbed _ _ Hs5), <- (unread_disturbed _ _ Hs1), <- (unread_disturbed _ _ Hs3).
  unfold SetReadDeadline in HD. by case_match; simplify_eq.
Qed.

Lemma wlp_authenticate sv :
  wlp disturbed (pauthenticate s) sv (λ r _, r = Ok true → logs_in (unread sv)).
Proof.
  assert (∀ (e : error) sv1, wlp disturbed (Pure (Err e)) sv1 (λ r _, r = Ok true → logs_in (unread sv))) as HE
    by (intros e sv1 sv2 _ [=]).
  apply wlp_bind. eapply wlp_mono, wlp_ReadFrom. intros [n [req|e]] sv1 Hd; cbn [pbind]; [|apply HE].
  destruct Hd as [n' Hd]. destruct (Type_ req =? TypeAuth) eqn:Hty; cbn [negb]; [|apply HE]. reflect_bools.
  intros sv2 [n2 err] sv3 _ _. cbn [pbind]. destruct err; [apply HE|].
  intros sv4 [n4 err] sv5 _ _. cbn [pbind]. destruct err; [apply HE|].
  intros sv6 _ [= Hok']. by exists n', req.
Qed.

Lemma gwp_serveConn sv : (logs_in (unread sv) → ok) → gwp false (gserveConn s handler doneCtx) sv.
Proof.
  intros Hok. apply gwp_lift. eapply wp_mono, (wp_wlp _ _ _ _ (wp_arm_read _ _) (wlp_arm_read _)).
  intros _ sv1 [[Ht1 _] Hu1]. apply gwp_lift.
  eapply wp_mono, (wp_wlp _ _ _ _ (wp_authenticate _ Ht1) (wlp_authenticate _)).
  intros [[]|e] sv2 [_ Ha]; [|done..]. split; [done|]. intros sv3 _. apply gwp_serve_loop; [|lia].
  apply Hok. rewrite <- Hu1. by apply Ha.
Qed.

(** *** What its actions leave alone *)

(** Nothing was read, written or closed. *)
Definition untouched (nc nc' : netConn) : Prop :=
  nc_closed nc' = nc_closed nc ∧ nc_in nc' = nc_in nc ∧ nc_out nc' = nc_out nc.

(** On a closed socket the action reads and writes nothing; outside a handler it
    does not touch the handler's state; what was sent stays sent, and waiting
    changes nothing. *)
Definition inert (h : bool) {A} (m : GoM (served H) A) : Prop :=
  ∀ sv,
  match m sv with
  | Ret _ sv' =>
      (nc_closed (sv_conn sv) = true → untouched (sv_conn sv) (sv_conn sv')) ∧ (h = false → sv_handler sv' = sv_handler sv) ∧
      nc_out (sv_conn sv) `prefix_of` nc_out (sv_conn sv')
  | Blocks sv' => sv' = sv
  | Diverges => True
  end.

Fixpoint pinert (h : bool) {A} (p : prog (served H) A) : Prop :=
  match p with
  | Pure _ => True
  | Act m k => inert h m ∧ ∀ b, pinert h (k b)
  end.
Fixpoint ginert (h : bool) (g : gprog (served H)) : Prop :=
  match g with
  | GEnd => True
  | GAct _ m k => inert h m ∧ ∀ b, ginert h (k b)
  | GAdd k => ginert true k
  | GWgDone k => ginert false k
  end.

Lemma pinert_bind h {A B} (p : prog (served H) A) (k : A → prog (served H) B) :
  pinert h p → (∀ a, pinert h (k a)) → pinert h (pbind p k).
Proof. intros Hp Hk. induction p as [a|C m k' IH]; simpl in *; [done|]. split; [apply Hp|]. intros b. apply IH, Hp. Qed.

Lemma ginert_lift h {A} (p : prog (served H) A) (k : A → gprog (served H)) :
  pinert h p → (∀ a, ginert h (k a)) → ginert h (lift p k).
Proof. intros Hp Hk. induction p as [a|C m k' IH]; simpl in *; [done|]. split; [apply Hp|]. intros b. apply IH, Hp. Qed.

Lemma inert_zoom h {A} (m : GoM netConn A) :
  (∀ nc, nc_closed nc = true → ∃ a, m nc = Ret a nc) →
  (∀ nc, match m nc with Ret _ nc' => nc_out nc `prefix_of` nc_out nc' | Blocks nc' => nc' = nc | Diverges => True end) →
  inert h (zoom sv_conn set_sv_conn m).
Proof.
  intros Hm Ho [nc hd]. specialize (Ho nc). unfold zoom. simpl.
  destruct (m nc) as [a nc'|nc'|] eqn:HE; [|by rewrite Ho|done].
  split_and!; [|done|exact Ho]. intros Hc. destruct (Hm _ Hc) as (a' & HE').
  rewrite HE' in HE. injection HE as <- <-. by split_and!.
Qed.

Lemma inert_Read h n : inert h (Read n).
Proof.
  apply inert_zoom; [intros nc Hc|intros nc]; unfold Read, netConn_Reader.
  - rewrite Hc. case_decide; by eexists.
  - repeat case_match; simplify_eq; done.
Qed.
Lemma inert_Write h bs : inert h (Write bs).
Proof.
  apply inert_zoom; [intros nc Hc|intros nc].
  - unfold Write, netConn_Writer. rewrite Hc. by eexists.
  - pose proof (Write_frame bs nc) as HF. pose proof (Write_blocks bs nc) as HB.
    destruct (Write bs nc) as [a nc'|nc'|]; [by apply HF|by apply HB|done].
Qed.
Lemma inert_deadline h d : inert h (zoom sv_conn set_sv_conn (SetReadDeadline d)).
Proof.
  apply inert_zoom; [intros nc Hc|intros nc]; unfold SetReadDeadline.
  - rewrite Hc. by eexists.
  - by destruct (nc_closed nc).
Qed.
Lemma inert_handler r : inert true (serve_rcon handler r).
Proof. by intros sv. Qed.
Lemma inert_gets h {A} (f : served H → A) : inert h (gets f).
Proof. by intros sv. Qed.
Lemma inert_Diverges h {A} : inert h (λ _, @Diverges (served H) A).
Proof. by intros sv. Qed.
Local Hint Resolve inert_Read inert_Write inert_deadline inert_handler inert_gets inert_Diverges : rcon.

Ltac inert_tac :=
  repeat first
    [ solve [eauto with rcon]
    | match goal with
      | |- ∀ _, _ => intros ?
      | |- pinert _ (pbind _ _) => apply pinert_bind
      | |- ginert _ (lift _ _) => apply ginert_lift
      | |- pinert _ (Pure _) => exact I
      | |- ginert _ GEnd => exact I
      | |- pinert _ (Act _ _) => split
      | |- ginert _ (GAct _ _ _) => split
      | |- inert _ _ ∧ _ => split
      | |- ginert _ (GAdd _) => cbn [ginert]
      | |- ginert _ (GWgDone _) => cbn [ginert]
      | |- pinert _ (match ?x with _ => _ end) => destruct x
      | |- ginert _ (match ?x with _ => _ end) => destruct x
      | |- pinert _ (let _ := _ in _) => cbv zeta
      end ].

Lemma pinert_read_loop h fuel need acc : pinert h (pread_loop fuel need acc).
Proof.
  revert need acc. induction fuel as [|fuel IH]; intros need acc; cbn [pread_loop]; unfold spin, act; inert_tac.
Qed.
Local Hint Resolve pinert_read_loop : rcon.
Lemma pinert_ReadFrom h : pinert h pReadFrom.
Proof. unfold pReadFrom, pReadFull. inert_tac. Qed.
Lemma pinert_WriteTo h p : pinert h (pWriteTo p).
Proof. unfold pWriteTo. inert_tac. Qed.
Local Hint Resolve pinert_ReadFrom pinert_WriteTo : rcon.
Lemma pinert_write_chunks h fuel reqID body : pinert h (pwrite_chunks fuel reqID body).
Proof.
  revert body. induction fuel as [|fuel IH]; intros body; cbn [pwrite_chunks]; unfold spin, act; inert_tac.
Qed.
Local Hint Resolve pinert_write_chunks : rcon.
Lemma pinert_respond reqID hr : pinert true (@prespond H reqID hr).
Proof. unfold prespond, pwriteResponse. inert_tac. Qed.
Lemma pinert_arm_read h : pinert h (parm_read s).
Proof. unfold parm_read. inert_tac. Qed.
Local Hint Resolve pinert_respond pinert_arm_read : rcon.

Lemma ginert_dispatch r reqID k : (∀ err, ginert false (k err)) → ginert false (gdispatch handler r reqID k).
Proof. intros Hk. unfold gdispatch. inert_tac. Qed.

Lemma ginert_serve_loop fuel : ginert false (gserve_loop s handler doneCtx fuel).
Proof.
  induction fuel as [|fuel IH]; cbn [gserve_loop]; inert_tac. apply ginert_dispatch. inert_tac.
Qed.
Local Hint Resolve ginert_serve_loop : rcon.

Lemma ginert_serveConn : ginert false (gserveConn s handler doneCtx).
Proof. unfold gserveConn, pauthenticate. inert_tac. Qed.
End Goroutine.

(** ** Connections of the lifecycle *)

(** The connection a goroutine serves or handles a command of. *)
Definition serving (p : pc) : option nat := match p with GServe c | GHandle c => Some c | _ => None end.

(** A connection that is not served yet. *)
Definition awaits (p : pc) : option nat :=
  match p with SvTrackC _ c | SvTrackCLoad _ c | SvTrackCAdd _ c | SvGo _ c => Some c | _ => None end.

(** What a step does to the connections. *)
Record cstep (p p' : pc) (ch : choice) (st st' : lstate) : Prop := {
  cs_closed c : c ∈ c_closed st' ↔ c ∈ c_closed st ∨ closes p ch = Some c;
  cs_accepted c : c ∈ accepted st' ↔ c ∈ accepted st ∨ accepts p ch = Some c;
  cs_fresh c : accepts p ch = Some c → c ∉ accepted st;
  cs_closes c : closes p ch = Some c → carries p = Some c ∨ ∃ todo, conns_left p = Some todo ∧ c ∈ todo;
  cs_tracked c : c ∈ tracked st' → c ∈ tracked st ∨ carries p = Some c;
  cs_left todo' c : conns_left p' = Some todo' → c ∈ todo' →
    c ∈ tracked st ∨ ∃ todo, conns_left p = Some todo ∧ c ∈ todo;
  cs_serving : serving p = None → serving p' = None;
  cs_awaits c : awaits p' = Some c → awaits p = Some c ∨ accepts p ch = Some c;
  cs_leaves c : p' = GClose c → serving p = Some c
}.

Lemma step_conns t ch st st' p p' :
  step t ch st = Some st' → threads st !! t = Some p → threads st' !! t = Some p' → cstep p p' ch st st'.
Proof.
  intros HS Hp Hp'. step_cases HS; simpl in Hp'; rewrite lookup_insert_eq in Hp'; simplify_eq;
    (split; simpl; unfold tracked in *; simpl;
     [set_solver|set_solver|set_solver|intros ? [=]; subst; eauto|intros c1 Hc1; try (by left); try set_solver
     |intros ? c1 [=] Hc1; subst; try (by left); try set_solver|done|intros ? [=]; subst; auto|intros ? [=]; subst; auto]).
  - rewrite Heqo. set_solver.
  - left. destruct (conns st); set_solver.
Qed.

(** The server knows only connections it has accepted. *)
Record known (st : lstate) : Prop := {
  kn_closed c : c ∈ c_closed st → c ∈ accepted st;
  kn_tracked c : c ∈ tracked st → c ∈ accepted st;
  kn_left t p todo c : threads st !! t = Some p → conns_left p = Some todo → c ∈ todo → c ∈ accepted st
}.

Lemma known_step t ch st st' : linv st → known st → step t ch st = Some st' → known st'.
Proof.
  intros HI [Hc Ht Hl] HS. destruct (step_effect _ _ _ _ HS) as (p & p' & Hp & Hp' & He).
  pose proof (step_moves _ _ _ _ _ _ HS Hp Hp') as Hm. pose proof (step_conns _ _ _ _ _ _ HS Hp Hp') as HC.
  pose proof (ef_accepted _ _ _ _ _ He) as Hsub.
  assert (∀ c, carries p = Some c → c ∈ accepted st) as Hcar by (intros c; by apply (li_accepted _ HI t p)).
  split.
  - intros c [?|Hcl]%(cs_closed _ _ _ _ _ HC); [by apply Hsub, Hc|].
    destruct (cs_closes _ _ _ _ _ HC c Hcl) as [?|(todo & ? & ?)]; [by apply Hsub, Hcar|by eapply Hsub, Hl].
  - intros c [?|?]%(cs_tracked _ _ _ _ _ HC); [by apply Hsub, Ht|by apply Hsub, Hcar].
  - intros t1 q todo c Hq Hq' Hin. by_mover Hm Hq; [|by eapply Hsub, Hl|done].
    destruct (cs_left _ _ _ _ _ HC _ _ Hq' Hin) as [?|(todo0 & ? & ?)]; [by apply Hsub, Ht|by eapply Hsub, Hl].
Qed.

Lemma reachable_known {H} (s : Server H) st : reachable s st → known st.
Proof.
  induction 1 as [|st st' Hr IH Hs]; [by split|].
  destruct Hs as [t ch st st' Hs|t c st st' Ht Hs]; [by eapply known_step; [eapply reachable_linv| |]|].
  rewrite (start_goto _ _ _ _ _ Hs). destruct IH as [Hc Htr Hl]. split; [done..|].
  intros t1 q todo c1. simpl. intros [[<- <-]|[? ?]]%lookup_insert_Some; [by destruct c|by eapply Hl].
Qed.

(** The two kinds of step. *)
Lemma kstep_inv {H} (s : Server H) handler doneCtx peer t ch (st st' : kstate H) :
  kstep s handler doneCtx peer t ch st = Some st' →
  ∃ p, threads (k_life st) !! t = Some p ∧
  ((∃ c, serving p = Some c ∧ ch = Next ∧ step_serving t c st = Some st') ∨
   (serving p = None ∧ ∃ life, step t ch (k_life st) = Some life ∧
      st' = mkK life (socks_after peer p ch (k_socks st)) (progs_after s handler doneCtx p ch (k_progs st)) (k_handler st))).
Proof.
  unfold kstep. destruct (threads (k_life st) !! t) as [p|]; [|done]. simpl. intros HS. exists p. split; [done|].
  destruct (serving p) as [c|] eqn:Hc.
  - left. exists c. by destruct p, ch; simplify_eq/=.
  - right. split; [done|].
    destruct p; try done; by (destruct (step t ch (k_life st)) as [life|]; [|done]; simplify_eq/=; eexists).
Qed.

(** Where a connection goroutine's own step leads. *)
Ltac goes_to :=
  match goal with HS : step _ _ _ = Some _, Hp : threads _ !! _ = Some _ |- _ =>
    unfold step in HS; rewrite Hp in HS; simpl in HS; simplify_eq; apply lookup_insert_eq end.

(** ** The invariant of the machine *)

Section Invariant.
Context {H : Type} (s : Server H) (handler : Handler H) (doneCtx : option Context) (peer : nat → netConn).

Abbreviation kstep := (kstep s handler doneCtx peer).
Abbreviation kmove := (kmove s handler doneCtx peer).

(** The peer of connection [c] logs in. *)
Definition authed (c : nat) : Prop := logs_in s (sent_bytes (nc_in (peer c))).

(** The goroutine's program fits its socket and its place in the lifecycle, and a
    handler runs only for a peer that logs in. *)
Definition fits (t : nat) (p : pc) (st : kstate H) : Prop :=
  ∀ c, serving p = Some c →
  (handling p = true → authed c) ∧
  ∃ g nc, k_progs st !! t = Some g ∧ k_socks st !! c = Some nc ∧
          gwp s (authed c) (handling p) g (mkServed nc (k_handler st)) ∧ ginert (handling p) g.

Record kinv (st : kstate H) : Prop := {
  ki_life : reachable s (k_life st);
  ki_sock c : c ∈ accepted (k_life st) →
    ∃ nc, k_socks st !! c = Some nc ∧ (c ∈ c_closed (k_life st) → nc_closed nc = true);
  ki_fits t p : threads (k_life st) !! t = Some p → fits t p st;
  ki_new t p c nc : threads (k_life st) !! t = Some p → awaits p = Some c → k_socks st !! c = Some nc →
    nc_in nc = nc_in (peer c)
}.

(** A socket after others had their turn. *)
Definition sock_later (nc nc' : netConn) : Prop := ∀ h h' : H, disturbed (mkServed nc h) (mkServed nc' h').

Lemma sock_later_refl nc : sock_later nc nc.
Proof. by intros h h'. Qed.
Lemma sock_later_shut nc : sock_later nc (shut_sock nc).
Proof. intros h h'. unfold shut_sock, CloseConn. destruct (nc_closed nc) eqn:Hc; by split_and!. Qed.
Lemma sock_later_wait d nc : sock_later nc (set_now (nc_now nc + d) nc).
Proof. by intros h h'. Qed.
Lemma shut_sock_closed nc : nc_closed (shut_sock nc) = true.
Proof. unfold shut_sock, CloseConn. by destruct (nc_closed nc) eqn:Hc. Qed.

(** A goroutine that did not move still fits. *)
Lemma fits_other t p st st' :
  fits t p st →
  (∀ g, k_progs st !! t = Some g → k_progs st' !! t = Some g) →
  (∀ c nc, serving p = Some c → k_socks st !! c = Some nc → ∃ nc', k_socks st' !! c = Some nc' ∧ sock_later nc nc') →
  fits t p st'.
Proof.
  intros Hf Hp Hs c Hc. destruct (Hf c Hc) as (Ha & g & nc & Hg & Hnc & Hw & Hk). split; [done|].
  destruct (Hs c nc Hc Hnc) as (nc' & Hnc' & Hl). exists g, nc'. split_and!; [auto|done| |done].
  eapply gwp_stable, Hw. apply Hl.
Qed.

Lemma fits_idle t p st : serving p = None → fits t p st.
Proof. intros Hp c Hc. congruence. Qed.

(** Sockets after a step of a goroutine that does not serve. *)
Lemma socks_after_later p ch socks c nc :
  socks !! c = Some nc → accepts p ch ≠ Some c →
  ∃ nc', socks_after peer p ch socks !! c = Some nc' ∧ sock_later nc nc' ∧
         (nc_closed nc = true ∨ closes p ch = Some c → nc_closed nc' = true) ∧ (nc_closed nc = true → nc' = nc).
Proof.
  intros Hnc Hf. unfold socks_after. destruct (accepts p ch) as [c1|] eqn:Ha.
  { exists nc. rewrite lookup_insert_ne by congruence. split_and!; [done|apply sock_later_refl| |done].
    intros [?|?]; [done|]. by destruct p, ch. }
  destruct (closes p ch) as [c1|] eqn:Hc; [|exists nc; split_and!; [done|apply sock_later_refl|by intros [?|?]|done]].
  destruct (decide (c1 = c)) as [->|Hne].
  - exists (shut_sock nc). rewrite lookup_alter_eq, Hnc. split_and!; [done|apply sock_later_shut| |].
    + intros _. apply shut_sock_closed.
    + intros Hcl. unfold shut_sock, CloseConn. by rewrite Hcl.
  - exists nc. rewrite lookup_alter_ne by done. split_and!; [done|apply sock_later_refl| |done]. intros [?|?]; congruence.
Qed.

(** A step of a goroutine that serves no connection. *)
Lemma kinv_life t ch p life st :
  kinv st → threads (k_life st) !! t = Some p → serving p = None → step t ch (k_life st) = Some life →
  kinv (mkK life (socks_after peer p ch (k_socks st)) (progs_after s handler doneCtx p ch (k_progs st)) (k_handler st)).
Proof.
  intros [Hr Hs Hf Hnew] Hp Hno HS. pose proof (reachable_linv _ _ Hr) as HI. pose proof (reachable_known _ _ Hr) as HK.
  destruct (step_effect _ _ _ _ HS) as (p0 & p' & Hp0 & Hp' & He). simplify_eq.
  pose proof (step_moves _ _ _ _ _ _ HS Hp Hp') as Hm. pose proof (step_conns _ _ _ _ _ _ HS Hp Hp') as HC.
  assert (∀ c, c ∈ accepted (k_life st) → accepts p ch ≠ Some c) as Hna
    by (intros c Hc Ha; by eapply (cs_fresh _ _ _ _ _ HC)).
  split; simpl.
  - eapply reach_step; [exact Hr|by eapply lstep_go].
  - intros c [Hc|Ha]%(cs_accepted _ _ _ _ _ HC).
    + destruct (Hs c Hc) as (nc & Hnc & Hcl).
      destruct (socks_after_later p ch _ c nc Hnc (Hna c Hc)) as (nc' & Hnc' & _ & Hcl' & _).
      exists nc'. split; [done|]. intros [?|?]%(cs_closed _ _ _ _ _ HC); apply Hcl'; auto.
    + exists (peer c). unfold socks_after. rewrite Ha, lookup_insert_eq. split; [done|].
      intros [?%(kn_closed _ HK)|?]%(cs_closed _ _ _ _ _ HC); [by destruct (Hna c)|by destruct p, ch].
  - intros t1 q Hq. by_mover Hm Hq; [by apply fits_idle, (cs_serving _ _ _ _ _ HC)| |].
    + eapply fits_other; [by apply Hf| |]; simpl.
      * intros g Hg. unfold progs_after. destruct p, ch; try done. rewrite lookup_insert_ne; [done|].
        intros ->. unfold step in HS. rewrite Hp in HS. simpl in HS. case_decide as Hd; [|done].
        destruct Hd. by eapply elem_of_dom_2.
      * intros c nc Hc Hnc. destruct (socks_after_later p ch _ c nc Hnc) as (nc' & ? & ? & _); [|by eexists].
        apply Hna. apply (li_accepted _ HI t1 q c); [done|by destruct q].
    + intros c Hc. simpl in Hc. simplify_eq. unfold step in HS. rewrite Hp in HS. simpl in HS. destruct ch as [|n| | | | |]; try done.
      case_decide; simplify_eq. simpl in Hq. rewrite lookup_insert_ne in Hq by done.
      apply lookup_insert_Some in Hq as [[<- _]|[_ ?]]; [|congruence].
      destruct (Hs c) as (nc & Hnc & _); [by eapply (li_accepted _ HI t)|].
      split; [done|]. exists (gserveConn s handler doneCtx), nc. simpl. rewrite lookup_insert_eq.
      split_and!; [done|done| |apply ginert_serveConn]. apply gwp_serveConn. unfold authed, unread. simpl.
      by rewrite (Hnew t _ c nc Hp eq_refl Hnc).
  - intros t1 q c nc' Hq Hc Hnc'.
    assert (∀ q1, threads (k_life st) !! t1 = Some q1 → awaits q1 = Some c → nc_in nc' = nc_in (peer c)) as Hkept.
    { intros q1 Hq1 Hc1. assert (c ∈ accepted (k_life st)) as Ha by (apply (li_accepted _ HI t1 q1); [done|by destruct q1]).
      destruct (Hs c Ha) as (nc & Hnc & _).
      destruct (socks_after_later p ch _ c nc Hnc (Hna c Ha)) as (nc1 & Hnc1 & Hl & _). simplify_eq.
      rewrite <- (Hnew t1 q1 c nc Hq1 Hc1 Hnc). by apply (Hl (k_handler st) (k_handler st)). }
    by_mover Hm Hq; [|by eapply Hkept|done].
    destruct (cs_awaits _ _ _ _ _ HC c Hc) as [?|Ha]; [by eapply Hkept|].
    unfold socks_after in Hnc'. rewrite Ha, lookup_insert_eq in Hnc'. by simplify_eq.
Qed.

(** A step of a connection goroutine that the lifecycle sees. *)
Lemma kinv_visible t c p p' ch g life st :
  kinv st → threads (k_life st) !! t = Some p → serving p = Some c →
  step t ch (k_life st) = Some life → threads life !! t = Some p' →
  (∀ nc, k_socks st !! c = Some nc → serving p' = None ∨
     serving p' = Some c ∧ (handling p' = true → authed c) ∧
     gwp s (authed c) (handling p') g (mkServed nc (k_handler st)) ∧ ginert (handling p') g) →
  kinv (mkK life (k_socks st) (<[t := g]> (k_progs st)) (k_handler st)).
Proof.
  intros [Hr Hs Hf Hn] Hp Hc HS Hp' Hg.
  pose proof (step_moves _ _ _ _ _ _ HS Hp Hp') as Hm. pose proof (step_conns _ _ _ _ _ _ HS Hp Hp') as HC.
  assert (closes p ch = None ∧ accepts p ch = None) as [Hcl Ha] by (by destruct p).
  split; simpl.
  - eapply reach_step; [exact Hr|by eapply lstep_go].
  - intros c1 [Hc1|?]%(cs_accepted _ _ _ _ _ HC); [|congruence]. destruct (Hs c1 Hc1) as (nc & Hnc & Hcn).
    exists nc. split; [done|]. intros [?|?]%(cs_closed _ _ _ _ _ HC); [auto|congruence].
  - intros t1 q Hq. by_mover Hm Hq; [| |done].
    + destruct (Hf t p Hp c Hc) as (_ & _ & nc & _ & Hnc & _).
      destruct (Hg nc Hnc) as [?|(Hc' & Ha' & Hw)]; [by apply fits_idle|].
      intros c1 Hc1. simplify_eq. split; [done|]. exists g, nc. simpl. by rewrite lookup_insert_eq.
    + eapply fits_other; [by apply Hf|simpl; by intros; rewrite lookup_insert_ne|].
      intros c1 nc _ Hnc. exists nc. split; [done|apply sock_later_refl].
  - intros t1 q c1 nc Hq Hc1. by_mover Hm Hq; [|by eapply Hn|done].
    destruct (cs_awaits _ _ _ _ _ HC c1 Hc1) as [?|?]; [by destruct p|congruence].
Qed.

(** A step of a connection goroutine. *)
Lemma kinv_serving t c p st st' :
  kinv st → threads (k_life st) !! t = Some p → serving p = Some c → step_serving t c st = Some st' → kinv st'.
Proof.
  intros HK Hp Hc HS. pose proof HK as [Hr Hs Hf Hn]. pose proof (reachable_linv _ _ Hr) as HI.
  destruct (Hf t p Hp c Hc) as (Hau & g & nc & Hg & Hnc & Hw & Hk). unfold step_serving in HS. rewrite Hg in HS. simpl in HS.
  destruct g as [|calls B m k|k|k]; simpl in Hw, Hk.
  - apply fmap_Some in HS as (life & HS & ->). assert (p = GServe c) as -> by (destruct p; by simplify_eq/=).
    eapply (kinv_visible t c _ (GClose c)); [done..|goes_to|by left].
  - rewrite Hnc in HS. simpl in HS. destruct Hw as [_ Hw]. specialize (Hw (mkServed nc (k_handler st)) ltac:(reflexivity)).
    destruct (m _) as [b sv| |] eqn:Hact; simplify_eq. split; simpl; [done| | |].
    + intros c1 Hc1. destruct (decide (c1 = c)) as [->|Hne]; [|rewrite lookup_insert_ne by done; auto].
      destruct (Hs c Hc1) as (nc1 & ? & Hcl). simplify_eq. exists (sv_conn sv). rewrite lookup_insert_eq.
      split; [done|]. intros Hin%Hcl. pose proof (proj1 Hk (mkServed nc (k_handler st))) as Hk1.
      rewrite Hact in Hk1. by rewrite (proj1 (proj1 Hk1 Hin)).
    + intros t1 q Hq. destruct (decide (t1 = t)) as [->|Hne].
      * intros c1 Hc1. simplify_eq. split; [done|]. exists (k b), (sv_conn sv). simpl. rewrite !lookup_insert_eq.
        split_and!; [done|done|by destruct sv|apply Hk].
      * eapply fits_other; [by apply Hf|simpl; by intros; rewrite lookup_insert_ne|].
        intros c1 nc1 Hc1 Hnc1. exists nc1. simpl. split; [|apply sock_later_refl].
        rewrite lookup_insert_ne; [done|]. intros ->. apply Hne. symmetry.
        eapply (li_unique _ HI t p t1 q); [done|done|by destruct p|by destruct q].
    + intros t1 q c1 nc1 Hq Hc1. rewrite lookup_insert_ne; [by eapply Hn|]. intros ->.
      assert (t = t1) as -> by (eapply (li_unique _ HI t p t1 q); [done|done|by destruct p|by destruct q]).
      simplify_eq. by destruct p.
  - destruct Hw as (Hh & Hok & Hw). apply fmap_Some in HS as (life & HS & ->).
    assert (p = GServe c) as -> by (destruct p; by simplify_eq/=).
    eapply (kinv_visible t c _ (GHandle c)); [done..|goes_to|]. intros nc1 Hnc1. simplify_eq. by right.
  - destruct Hw as [Hh Hw]. apply fmap_Some in HS as (life & HS & ->).
    assert (p = GHandle c) as -> by (destruct p; by simplify_eq/=).
    eapply (kinv_visible t c _ (GServe c)); [done..|goes_to|]. intros nc1 Hnc1. simplify_eq. by right.
Qed.

Lemma kinv_step t ch st st' : kinv st → kstep t ch st = Some st' → kinv st'.
Proof.
  intros HK (p & Hp & [(c & Hc & _ & HS)|(Hc & life & HS & ->)])%kstep_inv;
    [by eapply kinv_serving|by apply (kinv_life t)].
Qed.

Lemma kinv_call t c st st' :
  kinv st → threads (k_life st) !! t = None → kcall s t c st = Ok st' → kinv st'.
Proof.
  intros [Hr Hs Hf Hn] Ht HC. unfold kcall in HC. destruct (start s t c (k_life st)) as [life|] eqn:HS; simplify_eq.
  pose proof (start_goto _ _ _ _ _ HS) as ->. split; simpl; [|done| |].
  - eapply reach_step; [exact Hr|by eapply lstep_call].
  - intros t1 q [[<- <-]|[Hne Hq]]%lookup_insert_Some; [apply fits_idle; by destruct c|].
    eapply fits_other; [by apply Hf|done|]. intros c1 nc _ Hnc. exists nc. split; [done|apply sock_later_refl].
  - intros t1 q c1 nc [[<- <-]|[Hne Hq]]%lookup_insert_Some; [by destruct c|by eapply Hn].
Qed.

Lemma kinv_wait d st : kinv st → kinv (kwait d st).
Proof.
  intros [Hr Hs Hf Hn]. split; simpl; [done| | |].
  - intros c (nc & Hnc & Hcl)%Hs. rewrite map_lookup_imap, Hnc. by eexists.
  - intros t p Hp. eapply fits_other; [by apply Hf|done|]. intros c nc _ Hnc. simpl. rewrite map_lookup_imap, Hnc.
    eexists. split; [done|apply sock_later_wait].
  - intros t p c nc' Hp Hc. rewrite map_lookup_imap. intros (nc & Hnc & [= <-])%bind_Some. exact (Hn t p c nc Hp Hc Hnc).
Qed.

Lemma kinv_move st st' : kinv st → kmove st st' → kinv st'.
Proof. intros HK Hm. revert HK. destruct Hm; eauto using kinv_step, kinv_call, kinv_wait. Qed.

Lemma kinv_reach h st : kreach s handler doneCtx peer h st → kinv st.
Proof.
  apply (rtc_ind_r kinv); [|eauto using kinv_move]. split; simpl; [apply reach_init|done|done|done].
Qed.
End Invariant.

(** ** Theorems *)

Section Refinement.
Context {H : Type} (s : Server H) (handler : Handler H) (doneCtx : option Context) (peer : nat → netConn).

Abbreviation kstep := (kstep s handler doneCtx peer).
Abbreviation kmove := (kmove s handler doneCtx peer).

(** A move is one of the lifecycle, or the lifecycle does not see it. *)
Lemma kmove_life st st' : kmove st st' → k_life st' = k_life st ∨ lstep s (k_life st) (k_life st').
Proof.
  intros [t ch st0 st1 HS|t c st0 st1 Ht HC|d st0 _]; [| |by left].
  - destruct (kstep_inv _ _ _ _ _ _ _ _ HS) as (p & Hp & [(c & Hc & _ & HS1)|(Hc & life & HS1 & ->)]);
      [|right; by eapply lstep_go].
    assert (∀ ch f, f <$> step t ch (k_life st0) = Some st1 → (∀ life, k_life (f life) = life) →
      lstep s (k_life st0) (k_life st1)) as Hgo.
    { intros ch1 f (life & HS2 & ->)%fmap_Some Hf. rewrite Hf. by eapply lstep_go. }
    unfold step_serving in HS1. destruct (k_progs st0 !! t) as [[|calls B m k|k|k]|]; [| | | |done]; simpl in HS1;
      try (right; by eapply Hgo; [exact HS1|]).
    left. destruct (k_socks st0 !! c); [|done]. simpl in HS1. by case_match; simplify_eq.
  - right. unfold kcall in HC. destruct (start s t c (k_life st0)) eqn:HS; simplify_eq. by eapply lstep_call.
Qed.

(** Nothing happens on a closed socket. *)
Definition left_alone (c : nat) (st st' : kstate H) : Prop :=
  ∀ nc, k_socks st !! c = Some nc → nc_closed nc = true →
  ∃ nc', k_socks st' !! c = Some nc' ∧ nc_closed nc' = true ∧ nc_in nc' = nc_in nc ∧ nc_out nc' = nc_out nc.

Lemma kmove_left_alone c st st' :
  kinv s peer st → c ∈ accepted (k_life st) → kmove st st' → left_alone c st st'.
Proof.
  intros HK Ha Hm. destruct Hm as [t ch st st' HS|t k st st' Ht HC|d st _]; intros nc Hnc Hcl.
  - destruct (kstep_inv _ _ _ _ _ _ _ _ HS) as (p & Hp & [(c1 & Hc & _ & HS1)|(Hc & life & HS1 & ->)]).
    + destruct (ki_fits _ _ _ HK t p Hp c1 Hc) as (_ & g & nc1 & Hg & Hnc1 & _ & Hi). unfold step_serving in HS1.
      rewrite Hg in HS1. simpl in HS1. destruct g as [|calls B m k|k|k]; try (apply fmap_Some in HS1 as (life & _ & ->); by exists nc).
      rewrite Hnc1 in HS1. simpl in HS1. destruct (m _) as [b sv| |] eqn:Hact; simplify_eq. simpl.
      destruct (decide (c1 = c)) as [->|Hne]; [|rewrite lookup_insert_ne by done; by exists nc].
      simplify_eq. pose proof (proj1 Hi (mkServed nc (k_handler st))) as Hk1. rewrite Hact in Hk1.
      destruct (proj1 Hk1 Hcl) as (Hc1 & Hi1 & Ho1). exists (sv_conn sv). rewrite lookup_insert_eq.
      split_and!; [done|by rewrite Hc1|done|done].
    + destruct (socks_after_later (H := H) peer p ch _ c nc Hnc) as (nc' & ? & _ & _ & He); [|rewrite (He Hcl) in *; by exists nc].
      intros Hacc. destruct (step_effect _ _ _ _ HS1) as (p0 & p' & Hp0 & Hp' & _). simplify_eq.
      by eapply (cs_fresh _ _ _ _ _ (step_conns _ _ _ _ _ _ HS1 Hp Hp')).
  - unfold kcall in HC. case_match; simplify_eq. by exists nc.
  - simpl. rewrite map_lookup_imap, Hnc. by eexists.
Qed.

Lemma kmoves_left_alone c st st' :
  kinv s peer st → c ∈ accepted (k_life st) → rtc kmove st st' → left_alone c st st'.
Proof.
  intros HK Ha Hr. induction Hr as [st|st st1 st2 Hm _ IH]; intros nc Hnc Hcl; [by exists nc|].
  destruct (kmove_left_alone c _ _ HK Ha Hm nc Hnc Hcl) as (nc1 & Hnc1 & Hcl1 & Hi1 & Ho1).
  destruct (IH (kinv_move _ _ _ _ _ _ HK Hm)) with nc1 as (nc2 & ? & ? & Hi2 & Ho2); [|done..|].
  - destruct (kmove_life _ _ Hm) as [->|Hl]; [done|]. destruct Hl as [t ch st0 st0' HS|t k st0 st0' Ht HS].
    + destruct (step_effect _ _ _ _ HS) as (p & p' & _ & _ & He). by apply (ef_accepted _ _ _ _ _ He).
    + by rewrite (start_goto _ _ _ _ _ HS).
  - exists nc2. split_and!; [done|done|congruence|congruence].
Qed.
End Refinement.

(** A server with a peer that logs in and sends a command, for the witnesses. *)
Definition chatty (c : nat) : netConn :=
  new_netConn [(0, Seg (frame_buffer (mkPacket 1 TypeAuth "pw") ++ frame_buffer (mkPacket 2 TypeExecCommand "status")))] 0.

(** Runs of the machine, for the witnesses. *)
Section Runs.
Context (s : Server unit) (handler : Handler unit) (peer : nat → netConn).

Definition krun_event (st : option (kstate unit)) (e : event) : option (kstate unit) :=
  st ← st;
  match e with
  | Ev t ch => kstep s handler None peer t ch st
  | EvCall t c =>
      match threads (k_life st) !! t with
      | Some _ => None
      | None => match kcall s t c st with Ok st' => Some st' | Err _ => None end
      end
  end.

Definition krun (es : list event) : option (kstate unit) := fold_left krun_event es (Some (kinit tt)).

Lemma krun_go es st : krun es = Some st → rtc (kgo s handler None peer) (kinit tt) st.
Proof.
  unfold krun. revert st. induction es as [|e es IH] using rev_ind; intros st; [intros [= <-]; constructor|].
  rewrite fold_left_app. simpl. destruct (fold_left krun_event es (Some (kinit tt))) as [st0|]; [|done].
  simpl. intros He. eapply rtc_r; [by apply IH|].
  destruct e as [t ch|t c]; [by eapply kgo_step|]. destruct (threads (k_life st0) !! t) eqn:Ht; [done|].
  destruct (kcall s t c st0) eqn:Hs; simplify_eq. by eapply kgo_call.
Qed.

Lemma krun_reach es st : krun es = Some st → kreach s handler None peer tt st.
Proof.
  intros Hr%krun_go. unfold kreach. eapply (rtc_subrel _ _ _ _ _ Hr). Unshelve.
  intros st1 st2 []; [by eapply kmove_go|by eapply kmove_call].
Qed.
End Runs.

(** The server accepts connection 7, reads its password and its command, has called
    the handler and is about to answer when [Close] runs. *)
Definition cut_off : list event :=
  serving_run ++ map (λ _, Ev 1 Next) (seq 0 10) ++
  [EvCall 2 CallClose; Ev 2 Next; Ev 2 Next; Ev 2 Next; Ev 2 (Pick 0); Ev 2 Next; Ev 2 (Pick 7); Ev 2 Next].

(** What of a run the witnesses look at. *)
Definition seen (es : list event) : option (option pc * bool) :=
  st ← krun any_server any_handler chatty es; Some (threads (k_life st) !! 1%nat, bool_decide (7%nat ∈ c_closed (k_life st))).

Lemma cut_off_seen : seen cut_off = Some (Some (GHandle 7), true).
Proof. vm_compute. reflexivity. Qed.

(** C13: the lifecycle is what the server does. Run alone, the program of a
    connection goroutine is [serveConn]'s body. With any number of them beside
    [Serve], [Close] and [Shutdown], interleaved at every read, write and handler
    call, every reachable state is one of [Lifecycle] and every move is a step of
    [Lifecycle] or invisible to it; a connection [Lifecycle] counts as closed has
    a closed socket, on which nothing is read or written any more. *)
Theorem server_refines_lifecycle {H} (s : Server H) (handler : Handler H) (doneCtx : option Context)
    (peer : nat → netConn) (h : H) (st : kstate H) :
  kreach s handler doneCtx peer h st →
  (∀ sv, gdenote (gserveConn s handler doneCtx) sv = serve_body s handler doneCtx sv) ∧
  reachable s (k_life st) ∧
  (∀ st', kmove s handler doneCtx peer st st' → k_life st' = k_life st ∨ lstep s (k_life st) (k_life st')) ∧
  (∀ c, c ∈ c_closed (k_life st) → ∃ nc, k_socks st !! c = Some nc ∧ nc_closed nc = true ∧
     ∀ st', rtc (kmove s handler doneCtx peer) st st' →
       ∃ nc', k_socks st' !! c = Some nc' ∧ nc_in nc' = nc_in nc ∧ nc_out nc' = nc_out nc).
Proof.
  intros HK%kinv_reach. split_and!; [apply gdenote_serveConn|apply HK|apply kmove_life|].
  intros c Hc. pose proof (kn_closed _ (reachable_known _ _ (ki_life _ _ _ HK)) c Hc) as Ha.
  destruct (ki_sock _ _ _ HK c Ha) as (nc & Hnc & Hcl). exists nc. split_and!; [done|auto|]. intros st' Hr.
  destruct (kmoves_left_alone _ _ _ _ c _ _ HK Ha Hr nc Hnc (Hcl Hc)) as (nc' & ? & _ & ? & ?). by exists nc'.
Qed.

Lemma server_refines_lifecycle_witness :
  ∃ st nc, krun any_server any_handler chatty cut_off = Some st ∧ threads (k_life st) !! 1%nat = Some (GHandle 7) ∧
    k_socks st !! 7%nat = Some nc ∧ nc_closed nc = true ∧ reachable any_server (k_life st).
Proof.
  pose proof cut_off_seen as Hseen. unfold seen in Hseen.
  destruct (krun any_server any_handler chatty cut_off) as [st|] eqn:Hrun; [|discriminate Hseen]. injection Hseen as Ht Hc7.
  destruct (server_refines_lifecycle any_server any_handler None chatty tt st (krun_reach _ _ _ _ _ Hrun))
    as (_ & Hr & _ & Hc).
  destruct (Hc 7%nat (bool_decide_eq_true_1 _ Hc7)) as (nc & Hnc & Hcl & _).
  exists st, nc. split; [reflexivity|]. split; [exact Ht|]. split; [exact Hnc|]. split; [exact Hcl|exact Hr].
Defined.

(** C7: only authenticated clients reach the handler, under every interleaving. In
    every reachable state, a goroutine that runs a handler, and any step that
    changes the handler's state, belong to a connection whose peer's bytes begin
    with a [TypeAuth] packet holding a password the server accepts. *)
Theorem handler_needs_login {H} (s : Server H) (handler : Handler H) (doneCtx : option Context)
    (peer : nat → netConn) (h : H) (st : kstate H) (t : nat) :
  kreach s handler doneCtx peer h st →
  (∀ c, threads (k_life st) !! t = Some (GHandle c) → logs_in s (sent_bytes (nc_in (peer c)))) ∧
  (∀ ch st', kstep s handler doneCtx peer t ch st = Some st' → k_handler st' ≠ k_handler st →
     ∃ c, threads (k_life st) !! t = Some (GHandle c)).
Proof.
  intros HK%kinv_reach. split.
  - intros c Ht. by apply (ki_fits _ _ _ HK t _ Ht c).
  - intros ch st' (p & Hp & [(c & Hc & _ & HS)|(_ & life & _ & ->)])%kstep_inv Hne; [|done].
    destruct (ki_fits _ _ _ HK t p Hp c Hc) as (_ & g & nc & Hg & Hnc & _ & Hi).
    unfold step_serving in HS. rewrite Hg in HS. simpl in HS.
    destruct g as [|calls B m k|k|k]; try (apply fmap_Some in HS as (life & _ & ->); done).
    rewrite Hnc in HS. simpl in HS. destruct (m _) as [b sv| |] eqn:Hact; simplify_eq. simpl in Hne.
    pose proof (proj1 Hi (mkServed nc (k_handler st))) as Hi1. rewrite Hact in Hi1.
    exists c. destruct p; simplify_eq/=; [by destruct (proj1 (proj2 Hi1))|done].
Qed.

Lemma handler_needs_login_witness :
  ∃ st, krun any_server any_handler chatty cut_off = Some st ∧ threads (k_life st) !! 1%nat = Some (GHandle 7) ∧
    logs_in any_server (sent_bytes (nc_in (chatty 7))).
Proof.
  pose proof cut_off_seen as Hseen. unfold seen in Hseen.
  destruct (krun any_server any_handler chatty cut_off) as [st|] eqn:Hrun; [|discriminate Hseen]. injection Hseen as Ht _.
  exists st. split; [reflexivity|]. split; [exact Ht|].
  exact (proj1 (handler_needs_login any_server any_handler None chatty tt st 1 (krun_reach _ _ _ _ _ Hrun)) 7%nat Ht).
Defined.
