(* ===== verification/ServeLive.v ===== *)
(** * A closed server ends, with its connections

    [LifecycleLive] shows that a closed server comes to an end if connections that
    are closed stop being served. Here that is proved of [serveConn] itself: the
    goroutine of a connection waits only in a read or a write on an open socket, or
    for its handler, so once [Close] or [Shutdown] has closed the sockets only the
    handlers that have not returned are left; and it has only finitely many steps
    to make, because its program is a finite tree. No handler is taken to return
    and no peer to read. *)

From S2P Require Import Prelude GoErrors GoIO GoNet Packet Resume Server Lifecycle LifecycleProps LifecycleLive ServeConc ServeConcProps.

Local Open Scope Z_scope.

(** ** Programs get shorter *)

(** What is left of a program after one of its steps. *)
Definition next_of {S} (g' g : gprog S) : Prop :=
  match g with
  | GEnd => False
  | GAct _ m k => ∃ b, g' = k b
  | GAdd k | GWgDone k => g' = k
  end.

Lemma next_of_wf {S} : well_founded (@next_of S).
Proof.
  intros g. induction g as [|calls B m k IH|k IH|k IH]; constructor; intros g' Hg; simpl in Hg; [done| |by subst..].
  destruct Hg as [b ->]. apply IH.
Qed.

(** One entry of a map gets smaller. *)
Definition shrinks {A} (R : A → A → Prop) (m' m : gmap nat A) : Prop :=
  ∃ t x y, m !! t = Some x ∧ R y x ∧ m' = <[t := y]> m.

Lemma shrinks_insert {A} (R : A → A → Prop) k x (m : gmap nat A) :
  well_founded R → m !! k = None → Acc (shrinks R) m → Acc (shrinks R) (<[k := x]> m).
Proof.
  intros HR Hk Hm. revert x Hk. induction Hm as [m _ IHm]. intros x Hk.
  induction (HR x) as [x _ IHx]. constructor. intros m' (t & a & b & Ha & Hab & ->).
  destruct (decide (t = k)) as [->|Hne].
  - rewrite lookup_insert_eq in Ha. simplify_eq. rewrite insert_insert_eq. by apply IHx.
  - rewrite lookup_insert_ne in Ha by done. rewrite insert_insert_ne by done.
    apply IHm; [by exists t, a, b|by rewrite lookup_insert_ne].
Qed.

Lemma shrinks_wf {A} (R : A → A → Prop) : well_founded R → well_founded (shrinks R).
Proof.
  intros HR m. induction m as [|k x m Hk IH] using map_ind; [|by apply shrinks_insert].
  constructor. intros m' (t & a & b & Ha & _). done.
Qed.

Lemma map_Forall_or {A} (P : nat → A → Prop) (Q : Prop) (m : gmap nat A) :
  (∀ t x, m !! t = Some x → P t x ∨ Q) → map_Forall P m ∨ Q.
Proof.
  induction m as [|k x m Hk IH] using map_ind; intros Hm; [left; apply map_Forall_empty|].
  destruct (Hm k x) as [Hx|?]; [apply lookup_insert_eq| |by right].
  destruct IH as [IH|?]; [|left; by apply map_Forall_insert_2|by right].
  intros t y Hy. apply Hm. rewrite lookup_insert_ne; [done|congruence].
Qed.

(** ** Schedules *)

Section Schedules.
Context {H : Type} (s : Server H) (handler : Handler H) (doneCtx : option Context) (peer : nat → netConn).

Abbreviation kstep := (kstep s handler doneCtx peer).
Abbreviation kinv := (kinv s peer).

(** What comes from outside: a connection to accept, a call. *)
Inductive karrives (st : kstate H) : kstate H → Prop :=
  | karrives_conn t c st' : kstep t (AcceptConn c) st = Some st' → karrives st st'
  | karrives_call t c st' : threads (k_life st) !! t = None → kcall s t c st = Ok st' → karrives st st'.

(** The goroutine's next step is the return of its handler's call. *)
Definition calling (st : kstate H) (t : nat) : Prop :=
  match k_progs st !! t with Some (GAct true _ _) => True | _ => False end.

(** A step nothing outside can hold up: not an [Accept] on an open listener, not
    the return of a handler, not the end of [Shutdown]'s context. *)
Definition kforced (t : nat) (ch : choice) (st : kstate H) : Prop :=
  outside ch = false ∧
  match threads (k_life st) !! t with
  | Some (SvAccept ln) => ln ∈ ln_closed (k_life st)
  | Some (GServe _) | Some (GHandle _) => ¬ calling st t
  | Some (SdWait _) => ch = Next
  | _ => True
  end.

Definition kgoes_on (st : kstate H) : Prop := ∃ t ch st', kforced t ch st ∧ kstep t ch st = Some st'.

(** However the goroutines are scheduled and time passes before each of their
    steps, with at most [n] arrivals they reach [Q]: until then one of them can go
    on at once, and no choice of steps goes on for ever. *)
Inductive kends (Q : kstate H → Prop) : nat → kstate H → Prop :=
  | kends_now n st : Q st → kends Q n st
  | kends_later n st :
      kgoes_on st →
      (∀ d t ch st', (∀ c, 0 ≤ d c) → outside ch = false → kstep t ch (kwait d st) = Some st' → kends Q n st') →
      (∀ m d st', n = S m → (∀ c, 0 ≤ d c) → karrives (kwait d st) st' → kends Q m st') →
      kends Q n st.

(** The goroutine of connection [c], handling a command if [h], waits for its peer:
    its next action cannot return, the socket is open, and it reads without a read
    timeout (not while it handles a command) or the peer has stopped reading. *)
Definition kwaits (h : bool) (st : kstate H) (t c : nat) : Prop :=
  kstep t Next st = None ∧
  ∃ nc, k_socks st !! c = Some nc ∧ nc_closed nc = false ∧ (h = false ∧ ReadTimeout s ≤ 0 ∨ stalled nc).

(** Returned, waiting for a peer, or in or (in [Shutdown]) waiting for a handler. *)
Definition kidles (st : kstate H) (t : nat) (p : pc) : Prop :=
  match p with
  | SvAccept ln => ln ∉ ln_closed (k_life st)
  | GServe c => kwaits false st t c
  | GHandle c => kwaits true st t c ∨ calling st t
  | SdWait false => handlerWG (k_life st) ≠ 0%nat
  | _ => returned p
  end.
Definition kpeace (st : kstate H) : Prop := map_Forall (kidles st) (threads (k_life st)).

(** The server is over: every goroutine has returned, apart from a connection
    goroutine whose handler has not, and a [Shutdown] that waits for it; served
    listeners and accepted connections are closed, the sockets included. *)
Definition kover (st : kstate H) : Prop :=
  over (k_life st) ∧ (∀ t c, threads (k_life st) !! t = Some (GHandle c) → calling st t) ∧
  ∀ c, c ∈ accepted (k_life st) → ∃ nc, k_socks st !! c = Some nc ∧ nc_closed nc = true.

(** ** Somebody can go on *)

(** A connection goroutine goes on, waits for its peer, or is in its handler. *)
Lemma conn_goes_on t p c st :
  kinv st → threads (k_life st) !! t = Some p → serving p = Some c →
  (∃ st', kstep t Next st = Some st' ∧ ¬ calling st t) ∨ kwaits (handling p) st t c ∨
  p = GHandle c ∧ calling st t.
Proof.
  intros HK Hp Hc. destruct (ki_fits _ _ _ HK t p Hp c Hc) as (_ & g & nc & Hg & Hnc & Hw & _).
  assert (kstep t Next st = step_serving t c st) as Hs
    by (unfold ServeConc.kstep; rewrite Hp; by destruct p; simplify_eq/=).
  unfold kwaits, calling. rewrite Hs. unfold step_serving. rewrite Hg. simpl.
  destruct g as [|calls B m k|k|k]; simpl in Hw.
  - left. unfold step. rewrite Hp. destruct p; simplify_eq/=; (eexists; split; [done|tauto]).
  - destruct Hw as [Hcalls Hw]. destruct calls.
    { right; right. specialize (Hcalls eq_refl). destruct p; by simplify_eq/=. }
    rewrite Hnc. simpl. specialize (Hw (mkServed nc (k_handler st)) ltac:(reflexivity)).
    destruct (m _); [left; eexists; split; [done|tauto]| |done]. right; left. split; [done|]. exists nc. by split.
  - left. destruct Hw as [Hh _]. unfold step. rewrite Hp. destruct p; simplify_eq/=; (eexists; split; [done|tauto]).
  - left. destruct Hw as [Hh _]. unfold step. rewrite Hp. destruct p; simplify_eq/=; (eexists; split; [done|tauto]).
Qed.

Lemma closed_sock st c :
  kinv st → c ∈ c_closed (k_life st) → ∃ nc, k_socks st !! c = Some nc ∧ nc_closed nc = true.
Proof.
  intros HK Hc. destruct (ki_sock _ _ _ HK c) as (nc & Hnc & Hcl);
    [by apply (kn_closed _ (reachable_known _ _ (ki_life _ _ _ HK)))|]. exists nc. auto.
Qed.

(** A step the lifecycle is bound to make is made, if not by itself then by the
    connection's program. *)
Lemma life_goes_on st : kinv st → goes_on (k_life st) → kgoes_on st.
Proof.
  intros HK (t & ch & life & [Ho Hf] & HS). destruct (threads (k_life st) !! t) as [p|] eqn:Hp;
    [|unfold step in HS; by rewrite Hp in HS].
  destruct (serving p) as [c|] eqn:Hc.
  - destruct p; try done; simplify_eq/=.
    destruct (conn_goes_on t (GServe c) c st HK Hp eq_refl) as [(st' & Hs & Hn)|[(_ & nc & Hnc & Hop & _)|[? _]]]; [| |done].
    + exists t, Next, st'. split; [|done]. split; [done|]. by rewrite Hp.
    + destruct (closed_sock st c HK Hf) as (nc1 & Hnc1 & Hcl). congruence.
  - eexists t, ch, _. split; [split; [done|rewrite Hp; by destruct p]|].
    unfold ServeConc.kstep. rewrite Hp, HS. by destruct p.
Qed.

Lemma kprogress st : kinv st → kpeace st ∨ kgoes_on st.
Proof.
  intros HK. apply map_Forall_or. intros t p Hp. destruct (serving p) as [c|] eqn:Hc.
  - destruct (conn_goes_on t p c st HK Hp Hc) as [(st' & Hs & Hn)|[Hw|[-> Hw]]]; [right| |by left; right].
    + exists t, Next, st'. split; [|done]. split; [done|]. rewrite Hp. by destruct p.
    + left. destruct p; simplify_eq/=; auto.
  - destruct (decide (idles (k_life st) p)) as [Hi|Hi]; [left; by destruct p|right].
    apply life_goes_on; [done|]. eapply server_progress; [apply HK|done|done].
Qed.

(** ** Only finitely many steps *)

(** In a handler or not, a connection goroutine counts the same: its program
    shrinks. *)
Definition kweight (p : pc) : nat := match p with GHandle _ => 6 | _ => weight p end.

Lemma kweight_le p : (kweight p ≤ weight p)%nat.
Proof. destruct p; simpl; lia. Qed.

(** A step leaves fewer steps for the lifecycle, or a shorter program. *)
Definition kdown (st' st : kstate H) : Prop :=
  let ph st := total phase (threads (k_life st)) in
  let wt st := total kweight (threads (k_life st)) in
  (ph st' < ph st)%nat ∨ ph st' = ph st ∧
    ((wt st' < wt st)%nat ∨ wt st' = wt st ∧ shrinks next_of (k_progs st') (k_progs st)).

Lemma kdown_life t ch p life st socks progs h :
  threads (k_life st) !! t = Some p → serving p = None → outside ch = false →
  step t ch (k_life st) = Some life → kdown (mkK life socks progs h) st.
Proof.
  intros Hp Hc Ho HS. destruct (step_forward _ _ _ _ Ho HS) as (p0 & q & Hp0 & Hd). simplify_eq.
  assert (kweight p = weight p) as Hw by (by destruct p). unfold kdown. simpl.
  destruct Hd as [[-> Hd]|(ln & c & n & -> & -> & Hn & ->)].
  - pose proof (total_move phase t p q _ Hp). pose proof (total_move kweight t p q _ Hp). pose proof (kweight_le q). lia.
  - pose proof (total_spawn phase _ _ _ (SvAccept ln) (GServe c) _ Hp Hn).
    pose proof (total_spawn kweight _ _ _ (SvAccept ln) (GServe c) _ Hp Hn). simpl in *. lia.
Qed.

(** Entering and leaving a handler only shortens the program. *)
Lemma kdown_same t p q g g' life st :
  threads (k_life st) !! t = Some p → threads life = <[t := q]> (threads (k_life st)) →
  phase q = phase p → kweight q = kweight p → k_progs st !! t = Some g → next_of g' g →
  kdown (mkK life (k_socks st) (<[t := g']> (k_progs st)) (k_handler st)) st.
Proof.
  intros Hp Hth Hph Hwt Hg Hn. unfold kdown. simpl. rewrite Hth.
  pose proof (total_move phase t p q _ Hp). pose proof (total_move kweight t p q _ Hp).
  right. split; [lia|]. right. split; [lia|]. by exists t, g, g'.
Qed.

Lemma kdown_serving t p c st st' :
  kinv st → threads (k_life st) !! t = Some p → serving p = Some c → step_serving t c st = Some st' → kdown st' st.
Proof.
  intros HK Hp Hc HS. destruct (ki_fits _ _ _ HK t p Hp c Hc) as (_ & g & nc & Hg & Hnc & Hw & _).
  unfold step_serving in HS. rewrite Hg in HS. simpl in HS. destruct g as [|calls B m k|k|k]; simpl in Hw.
  - apply fmap_Some in HS as (life & HS & ->). unfold step in HS. rewrite Hp in HS.
    destruct p; simplify_eq/=. unfold kdown. simpl.
    pose proof (total_move phase t _ (GClose c) _ Hp). pose proof (total_move kweight t _ (GClose c) _ Hp). simpl in *. lia.
  - rewrite Hnc in HS. simpl in HS. destruct (m _) as [b sv| |]; simplify_eq. unfold kdown. simpl.
    right. split; [done|]. right. split; [done|]. exists t, (GAct calls m k), (k b). split_and!; [done|by exists b|done].
  - destruct Hw as [Hh _]. apply fmap_Some in HS as (life & HS & ->). unfold step in HS. rewrite Hp in HS.
    destruct p; simplify_eq/=. by eapply kdown_same.
  - destruct Hw as [Hh _]. apply fmap_Some in HS as (life & HS & ->). unfold step in HS. rewrite Hp in HS.
    destruct p; simplify_eq/=. by eapply kdown_same.
Qed.

Lemma kdown_step t ch st st' : kinv st → outside ch = false → kstep t ch st = Some st' → kdown st' st.
Proof.
  intros HK Ho (p & Hp & [(c & Hc & _ & HS)|(Hc & life & HS & ->)])%kstep_inv;
    [by eapply kdown_serving|by eapply kdown_life].
Qed.

Lemma kdown_wf : well_founded kdown.
Proof.
  intros st. remember (total phase (threads (k_life st))) as a eqn:Ha. revert st Ha.
  induction a as [a IHa] using lt_wf_ind. intros st Ha.
  remember (total kweight (threads (k_life st))) as b eqn:Hb. revert st Ha Hb.
  induction b as [b IHb] using lt_wf_ind. intros st Ha Hb.
  remember (k_progs st) as progs eqn:Hp. revert st Ha Hb Hp.
  induction (shrinks_wf _ next_of_wf progs) as [progs _ IHp]. intros st Ha Hb Hp.
  constructor. intros st' [Hlt|[Heq [Hlt|[Heq' Hs]]]].
  - by eapply IHa; [rewrite Ha; exact Hlt|].
  - by eapply IHb; [rewrite Hb; exact Hlt|congruence|].
  - eapply IHp; [rewrite Hp; exact Hs|congruence|congruence|done].
Qed.

(** ** Every schedule *)

Lemma karrives_move st st' : karrives st st' → kmove s handler doneCtx peer st st'.
Proof. intros []; by econstructor. Qed.

Lemma kends_peace n st : kinv st → kends kpeace n st.
Proof.
  revert st. induction n as [n IHn] using lt_wf_ind. intros st. induction (kdown_wf st) as [st _ IH]. intros HK.
  destruct (kprogress st HK) as [Hp|Hgo]; [by apply kends_now|].
  assert (∀ d, kinv (kwait d st)) as HW by (intros; by apply kinv_wait).
  apply kends_later; [done| |].
  - intros d t ch st' Hd Ho Hs. apply IH; [exact (kdown_step t ch (kwait d st) st' (HW d) Ho Hs)|].
    by eapply kinv_step; [apply (HW d)|].
  - intros m d st' -> Hd Ha%karrives_move. apply IHn; [lia|]. by eapply kinv_move; [apply (HW d)|].
Qed.

Lemma shut_kmove st st' : kmove s handler doneCtx peer st st' → shut (k_life st) → shut (k_life st').
Proof. intros [->|Hl]%kmove_life; [done|by eapply shut_lstep]. Qed.

(** With the sockets closed, peace is the end. *)
Lemma kpeace_over st : kinv st → shut (k_life st) → kpeace st → kover st.
Proof.
  intros HK Hs Hp. assert (over (k_life st)) as Ho.
  { eapply (shut_over s); [apply HK|done|]. intros t p Ht. specialize (Hp t p Ht). destruct p; try done.
    destruct Hp as (_ & nc & Hnc & Hop & _). intros Hc.
    destruct (closed_sock st c HK Hc) as (nc1 & ? & ?). congruence. }
  split_and!; [done| |].
  - intros t c Ht. destruct (Hp t _ Ht) as [(_ & nc & Hnc & Hop & _)|?]; [|done].
    destruct (closed_sock st c HK) as (nc1 & ? & ?); [|congruence]. apply Ho.
    by eapply (li_accepted _ (reachable_linv _ _ (ki_life _ _ _ HK)) t).
  - intros c Hc. apply closed_sock; [done|]. by apply Ho.
Qed.

Lemma kends_over n st : kends kpeace n st → kinv st → shut (k_life st) → kends kover n st.
Proof.
  induction 1 as [n st Hp|n st Hgo Hown IHown Harr IHarr]; intros HK Hs; [by eapply kends_now, kpeace_over|].
  assert (∀ d, kinv (kwait d st)) as HW by (intros; by apply kinv_wait).
  apply kends_later; [done| |].
  - intros d t ch st' Hd Ho Hst. apply (IHown d t ch); [done..| |].
    + by eapply kinv_step; [apply (HW d)|].
    + eapply shut_kmove; [by eapply kmove_go|done].
  - intros m d st' Hm Hd Ha. pose proof (karrives_move _ _ Ha) as Hl. apply (IHarr m d); [done..| |].
    + by eapply kinv_move; [apply (HW d)|].
    + by eapply shut_kmove.
Qed.
End Schedules.

(** With the handlers back, an ended server has no goroutine left. *)
Lemma kover_returned {H} (s : Server H) (peer : nat → netConn) (st : kstate H) :
  kinv s peer st → kover st → (∀ t, ¬ calling st t) → map_Forall (λ _ p, returned p) (threads (k_life st)).
Proof.
  intros HK ((Hr & _) & Hc & _) Hn t p Hp.
  assert (∀ t c, threads (k_life st) !! t ≠ Some (GHandle c)) as Hno by (intros t' c' Ht; by eapply Hn, Hc).
  specialize (Hr t p Hp). destruct p; try done; simpl in Hr.
  - by destruct (Hno t c).
  - destruct done; [done|]. rewrite (mi_wg _ (reachable_minv _ _ (ki_life _ _ _ HK))) in Hr.
    destruct (decide (handlers (threads (k_life st)) = ∅)) as [He|(t1 & p1 & Hp1)%map_choose];
      [by rewrite He, map_size_empty in Hr|].
    apply map_lookup_filter_Some in Hp1 as [Hp1 Hh]. destruct p1; try done. by destruct (Hno t1 c).
Qed.

(** C12: a server can always be brought to an end. In every state that [Serve],
    [Close], [Shutdown] and the connections' [serveConn] can reach, however they
    are scheduled from there, time passes and peers behave, with any number of
    further connections and calls, every goroutine returns, or waits for a peer: on
    an open listener, in a read on an open socket without a read timeout, or in a
    write on an open socket to a peer that has stopped reading; or it is in a
    handler that has not returned, or it is a [Shutdown] that waits for one. Nothing
    else holds a goroutine up, so [Close] returns. Once a call of [Close] or
    [Shutdown] has returned no peer is waited for any more: every [Serve] call
    returns and so does every connection goroutine but the ones whose handler has
    not returned, and every accepted connection's socket and every served listener
    is closed. *)
Theorem closed_server_winds_down {H} (s : Server H) (handler : Handler H) (doneCtx : option Context)
    (peer : nat → netConn) (h : H) (st : kstate H) (n : nat) :
  kreach s handler doneCtx peer h st →
  kends s handler doneCtx peer (kpeace s handler doneCtx peer) n st ∧
  (shut (k_life st) → kends s handler doneCtx peer kover n st).
Proof. intros HK%kinv_reach. split; [by apply kends_peace|]. by apply kends_over; [apply kends_peace|]. Qed.

(** The run of [cut_off]: connection 7 is in a handler, [Close] has returned. *)
Definition cut_off_state : kstate unit := default (kinit tt) (krun any_server any_handler chatty cut_off).

Lemma cut_off_done : threads (k_life cut_off_state) !! 2%nat = Some (ClDone None).
Proof. vm_compute. reflexivity. Qed.

Lemma cut_off_answers : (λ st, calling st 1) <$> krun any_server any_handler chatty cut_off = Some False.
Proof. vm_compute. reflexivity. Qed.

Lemma closed_server_winds_down_witness :
  shut (k_life cut_off_state) ∧ ¬ kover cut_off_state ∧
  kends any_server any_handler None chatty kover 5 cut_off_state.
Proof.
  assert (Hs : shut (k_life cut_off_state)) by (exists 2%nat, None; left; exact cut_off_done).
  pose proof cut_off_seen as Hseen. pose proof cut_off_answers as Hcall. unfold seen in Hseen. unfold cut_off_state in *.
  destruct (krun any_server any_handler chatty cut_off) as [st|] eqn:Hrun; [|discriminate Hseen]. injection Hseen as Ht _. injection Hcall as Hcall.
  split; [exact Hs|]. split; [intros (_ & Hc & _); rewrite <- Hcall; exact (Hc 1%nat _ Ht)|].
  exact (proj2 (closed_server_winds_down any_server any_handler None chatty tt st 5 (krun_reach _ _ _ _ _ Hrun)) Hs).
Defined.

(** A handler that does not return: [Shutdown] waits for it until its context ends,
    closes the connections and returns the context's error. The server is over and
    the handler still runs. *)
Definition timed_out : list event :=
  serving_run ++ map (λ _, Ev 1 Next) (seq 0 9) ++
  [EvCall 2 CallShutdown; Ev 2 Next; Ev 2 Next; Ev 2 (Pick 0); Ev 2 Next; Ev 2 Next;
   Ev 2 (CtxDone ContextDeadlineExceeded); Ev 2 Next; Ev 2 (Pick 7); Ev 2 Next].

Lemma shutdown_times_out :
  (λ st, (calling st 1, threads (k_life st) !! 2%nat, threads (k_life st) !! 1%nat)) <$>
    krun any_server any_handler chatty timed_out =
  Some (True, Some (SdDone (Some ContextDeadlineExceeded)), Some (GHandle 7)).
Proof. vm_compute. reflexivity. Qed.
