(* ===== verification/ServeAlone.v ===== *)
(** * Connections do not disturb each other

    With a handler that keeps no state, the goroutine of a connection writes what
    [serveConn] alone would write to the same peer, whatever the other connections,
    [Close] and [Shutdown] do: all of it if it is left to finish, a part of it from
    the start if its socket is closed. Time passes in the connection's own
    reads, writes and handler calls. *)

From S2P Require Import Prelude GoErrors GoIO GoNet Packet Resume Server Lifecycle LifecycleProps ServeConc ServeConcProps.

Local Open Scope Z_scope.

(** ** Programs run to the end *)

Section Programs.
Context {H : Type}.
Implicit Types (g : gprog (served H)) (sv : served H).

Lemma gwp_final (s : Server H) ok h g sv : gwp s ok h g sv → is_Some (final (gdenote g sv)).
Proof.
  revert h sv. induction g as [|calls B m k IH|k IH|k IH]; intros h sv; simpl; [by eexists| |naive_solver..].
  intros [_ Hg]. specialize (Hg sv ltac:(reflexivity)). unfold bind. destruct (m sv); [by eapply IH|by eexists|done].
Qed.

(** What a program has sent stays sent. *)
Lemma ginert_final h g sv sv' :
  ginert h g → final (gdenote g sv) = Some sv' → nc_out (sv_conn sv) `prefix_of` nc_out (sv_conn sv').
Proof.
  revert h sv. induction g as [|calls B m k IH|k IH|k IH]; intros h sv; simpl; [by intros _ [= ->]| |by eauto..].
  intros [Hm Hk]. specialize (Hm sv). unfold bind. destruct (m sv) as [b sv1|sv1|]; [| |done].
  - intros HF. etrans; [apply Hm|]. by eapply IH.
  - intros [= <-]. by rewrite Hm.
Qed.
End Programs.

(** ** The invariant *)

Section Alone.
Context (s : Server unit) (handler : Handler unit) (doneCtx : option Context) (peer : nat → netConn).

Abbreviation kstep := (kstep s handler doneCtx peer).
Abbreviation kinv := (kinv s peer).
Abbreviation kgo := (kgo s handler doneCtx peer).

(** [serveConn] alone, up to its deferred close. *)
Definition alone (c : nat) : outcome (served unit) unit :=
  gdenote (gserveConn s handler doneCtx) (mkServed (peer c) tt).

Definition sent_alone (c : nat) (nc : netConn) : Prop :=
  ∃ sv', final (alone c) = Some sv' ∧ nc_out nc `prefix_of` nc_out (sv_conn sv').

(** What goroutine [t] still has to do on an open socket is what [serveConn] alone
    has to do. *)
Definition on_course (t : nat) (p : pc) (st : kstate unit) : Prop :=
  ∀ c nc, k_socks st !! c = Some nc → nc_closed nc = false →
  (awaits p = Some c → nc = peer c) ∧
  (∀ g, serving p = Some c → k_progs st !! t = Some g → gdenote g (mkServed nc tt) = alone c) ∧
  (p = GClose c → alone c = Ret tt (mkServed nc tt)).

Record ainv (st : kstate unit) : Prop := {
  ai_inv : kinv st;
  ai_course t p : threads (k_life st) !! t = Some p → on_course t p st;
  ai_sent c nc : k_socks st !! c = Some nc → sent_alone c nc
}.

Lemma sent_alone_start c : sent_alone c (peer c).
Proof.
  destruct (gwp_final s True false (gserveConn s handler doneCtx) (mkServed (peer c) tt)) as [sv' HF];
    [by apply gwp_serveConn|].
  exists sv'. split; [done|]. eapply (ginert_final false _ (mkServed (peer c) tt)); [apply ginert_serveConn|done].
Qed.

(** A goroutine that did not move stays on course. *)
Lemma on_course_other t p st st' :
  on_course t p st → k_progs st' !! t = k_progs st !! t →
  (∀ c nc, carries p = Some c → k_socks st' !! c = Some nc → nc_closed nc = false → k_socks st !! c = Some nc) →
  on_course t p st'.
Proof.
  intros Hc Hp Hs c nc Hnc Hop. rewrite Hp.
  split_and!; [intros Ha|intros g Hg|intros ->]; (destruct (Hc c nc) as (H1 & H2 & H3); [apply Hs; [|done..]|done|]);
    first [by auto|by destruct p].
Qed.

(** An open socket after a step is an old one, or just accepted. *)
Lemma socks_after_open p ch socks c nc :
  socks_after peer p ch socks !! c = Some nc → nc_closed nc = false →
  accepts p ch = Some c ∧ nc = peer c ∨ socks !! c = Some nc.
Proof.
  unfold socks_after. destruct (accepts p ch) as [c1|] eqn:Ha.
  { intros [[<- <-]|[? ?]]%lookup_insert_Some; auto. }
  destruct (closes p ch) as [c1|]; [|by auto]. destruct (decide (c1 = c)) as [->|Hne].
  - rewrite lookup_alter_eq. intros (nc0 & _ & ->)%fmap_Some. by rewrite shut_sock_closed.
  - rewrite lookup_alter_ne by done. auto.
Qed.

Lemma socks_after_sent p ch socks c nc :
  (∀ nc, socks !! c = Some nc → sent_alone c nc) → socks_after peer p ch socks !! c = Some nc → sent_alone c nc.
Proof.
  intros Hs. unfold socks_after. destruct (accepts p ch) as [c1|].
  { intros [[<- <-]|[? ?]]%lookup_insert_Some; [apply sent_alone_start|auto]. }
  destruct (closes p ch) as [c1|]; [|by auto]. destruct (decide (c1 = c)) as [->|Hne].
  - rewrite lookup_alter_eq. intros (nc0 & Hnc0 & ->)%fmap_Some. destruct (Hs nc0 Hnc0) as (sv' & ? & ?).
    exists sv'. split; [done|]. unfold shut_sock, CloseConn. by destruct (nc_closed nc0).
  - rewrite lookup_alter_ne by done. auto.
Qed.

(** A step of a goroutine that serves no connection. *)
Lemma ainv_life t ch p life st :
  ainv st → threads (k_life st) !! t = Some p → serving p = None → step t ch (k_life st) = Some life →
  ainv (mkK life (socks_after peer p ch (k_socks st)) (progs_after s handler doneCtx p ch (k_progs st)) (k_handler st)).
Proof.
  intros [HK Hc Hs] Hp Hno HS. pose proof (reachable_linv _ _ (ki_life _ _ _ HK)) as HI.
  destruct (step_effect _ _ _ _ HS) as (p0 & p' & Hp0 & Hp' & He). simplify_eq.
  pose proof (step_moves _ _ _ _ _ _ HS Hp Hp') as Hm. pose proof (step_conns _ _ _ _ _ _ HS Hp Hp') as HC.
  split; [by eapply kinv_life| |intros c nc; simpl; apply socks_after_sent; auto]. simpl. intros t1 q Hq.
  by_mover Hm Hq.
  - intros c nc Hnc Hop. simpl in *. destruct (socks_after_open _ _ _ _ _ Hnc Hop) as [[Ha ->]|Hold].
    + split_and!; [done|by rewrite (cs_serving _ _ _ _ _ HC Hno)|]. intros Hg. by rewrite (cs_leaves _ _ _ _ _ HC c Hg) in Hno.
    + split_and!; [|by rewrite (cs_serving _ _ _ _ _ HC Hno)|].
      * intros Haw. destruct (cs_awaits _ _ _ _ _ HC c Haw) as [?|Ha]; [by apply (Hc t p Hp c nc Hold Hop)|].
        unfold socks_after in Hnc. rewrite Ha, lookup_insert_eq in Hnc. by simplify_eq.
      * intros Hg. by rewrite (cs_leaves _ _ _ _ _ HC c Hg) in Hno.
  - eapply on_course_other; [by apply Hc| |]; simpl.
    + unfold progs_after. destruct p, ch; try done. rewrite lookup_insert_ne; [done|].
      intros ->. unfold step in HS. rewrite Hp in HS. simpl in HS. case_decide as Hd; [|done].
      destruct Hd. by eapply elem_of_dom_2.
    + intros c nc Hcar Hnc Hop. destruct (socks_after_open _ _ _ _ _ Hnc Hop) as [[Ha _]|?]; [|done].
      destruct (cs_fresh _ _ _ _ _ HC c Ha). by apply (li_accepted _ HI t1 q).
  - intros c1 nc Hnc Hop. simpl in *. split_and!; [done| |done]. intros g [= ->].
    unfold step in HS. rewrite Hp in HS. simpl in HS. destruct ch as [|n| | | | |]; try done. simpl in Hnc.
    case_decide; simplify_eq. simpl in Hq. rewrite lookup_insert_ne in Hq by done.
    apply lookup_insert_Some in Hq as [[<- _]|[_ ?]]; [|congruence]. simpl. rewrite lookup_insert_eq. intros [= <-].
    by rewrite (proj1 (Hc t _ Hp c1 nc Hnc Hop) eq_refl).
Qed.

(** A step of a connection goroutine that the lifecycle sees. *)
Lemma ainv_visible t c p p' ch g life st :
  ainv st → threads (k_life st) !! t = Some p → serving p = Some c →
  step t ch (k_life st) = Some life → threads life !! t = Some p' → p' = GClose c ∨ serving p' = Some c →
  (∀ nc, k_socks st !! c = Some nc → nc_closed nc = false →
     gdenote g (mkServed nc tt) = alone c ∧ (p' = GClose c → g = GEnd)) →
  kinv (mkK life (k_socks st) (<[t := g]> (k_progs st)) (k_handler st)) →
  ainv (mkK life (k_socks st) (<[t := g]> (k_progs st)) (k_handler st)).
Proof.
  intros [HK Hc Hs] Hp Hsv HS Hp' Hq Hg HK'. pose proof (step_moves _ _ _ _ _ _ HS Hp Hp') as Hm.
  split; [done| |done]. simpl. intros t1 q Ht1. by_mover Hm Ht1; [| |done].
  - intros c1 nc Hnc Hop. simpl in *. rewrite lookup_insert_eq. split_and!.
    + intros Ha. exfalso. destruct Hq as [->|?]; [done|by destruct p'].
    + intros g1 Hc1 [= <-]. destruct Hq as [->|?]; [done|]. simplify_eq. by apply Hg.
    + intros ->. destruct Hq as [[= <-]|?]; [|done]. destruct (Hg nc Hnc Hop) as [<- HE]. by rewrite HE.
  - eapply on_course_other; [by apply Hc|simpl; by rewrite lookup_insert_ne|done].
Qed.

(** A step of a connection goroutine. *)
Lemma ainv_serving t c p st st' :
  ainv st → threads (k_life st) !! t = Some p → serving p = Some c → step_serving t c st = Some st' → ainv st'.
Proof.
  intros HA Hp Hsv HS. pose proof HA as [HK Hc Hs]. pose proof (reachable_linv _ _ (ki_life _ _ _ HK)) as HI.
  assert (kinv st') as HK' by (by eapply (kinv_serving s peer t c p st)).
  destruct (ki_fits _ _ _ HK t p Hp c Hsv) as (_ & g & nc & Hg & Hnc & Hw & Hi).
  assert (∀ nc1, k_socks st !! c = Some nc1 → nc_closed nc1 = false → gdenote g (mkServed nc1 tt) = alone c) as Hrun.
  { intros nc1 Hnc1 Hop. by apply (Hc t p Hp c nc1 Hnc1 Hop). }
  unfold step_serving in HS. rewrite Hg in HS. simpl in HS. destruct g as [|calls B m k|k|k]; simpl in Hw.
  - apply fmap_Some in HS as (life & HS & ->). assert (p = GServe c) as -> by (destruct p; by simplify_eq/=).
    eapply (ainv_visible t c _ (GClose c)); [done..|goes_to|by left|by auto|done].
  - rewrite Hnc in HS. simpl in HS. destruct (m _) as [b sv| |] eqn:Hact; simplify_eq. destruct Hi as [Hm Hk].
    specialize (Hm (mkServed nc (k_handler st))). rewrite Hact in Hm. destruct Hm as (Hcl & _ & _). simpl in Hcl.
    assert (nc_closed nc = false → gdenote (k b) sv = alone c) as Hnext.
    { intros Hop. rewrite <- (Hrun nc Hnc Hop). simpl. destruct (k_handler st). by rewrite (bind_Ret _ _ _ _ _ Hact). }
    split; [done| |]; simpl.
    + intros t1 q Hq. destruct (decide (t1 = t)) as [->|Hne].
      * simplify_eq. intros c1 nc1. simpl. rewrite lookup_insert_eq. intros [[<- <-]|[Hne Hnc1]]%lookup_insert_Some Hop.
        -- split_and!; [by destruct p| |by intros ->]. intros g1 _ [= <-]. destruct sv as [nc1 []]. apply Hnext.
           destruct (nc_closed nc) eqn:Hn; [|done]. simpl in *. destruct (Hcl eq_refl) as (Hcl' & _). congruence.
        -- split_and!; [by destruct p|congruence|by intros ->].
      * eapply on_course_other; [by apply Hc|simpl; by rewrite lookup_insert_ne|]. simpl. intros c1 nc1 Hcar.
        rewrite lookup_insert_ne; [done|]. intros ->. apply Hne.
        eapply (li_unique _ HI t1 q t p); [done|done|done|by destruct p].
    + intros c1 nc1 [[<- <-]|[Hne Hnc1]]%lookup_insert_Some; [|by apply Hs].
      destruct (Hs c nc Hnc) as (sv' & HF & Ho). exists sv'. split; [done|].
      destruct (nc_closed nc) eqn:Hn; [destruct (Hcl eq_refl) as (_ & _ & ->); exact Ho|].
      eapply ginert_final; [apply (Hk b)|]. by rewrite Hnext.
  - apply fmap_Some in HS as (life & HS & ->). destruct Hw as [Hh _].
    assert (p = GServe c) as -> by (destruct p; by simplify_eq/=).
    eapply (ainv_visible t c _ (GHandle c)); [done..|goes_to|by right| |done]. intros nc1 Hnc1 Hop. split; [by apply Hrun|done].
  - apply fmap_Some in HS as (life & HS & ->). destruct Hw as [Hh _].
    assert (p = GHandle c) as -> by (destruct p; by simplify_eq/=).
    eapply (ainv_visible t c _ (GServe c)); [done..|goes_to|by right| |done]. intros nc1 Hnc1 Hop. split; [by apply Hrun|done].
Qed.

Lemma ainv_go st st' : ainv st → kgo st st' → ainv st'.
Proof.
  intros HA Hgo. revert HA. destruct Hgo as [t ch st st' HS|t c st st' Ht HC]; intros HA.
  - destruct (kstep_inv _ _ _ _ _ _ _ _ HS) as (p & Hp & [(c & Hc & _ & HS1)|(Hc & life & HS1 & ->)]);
      [by eapply ainv_serving|by eapply ainv_life].
  - pose proof HA as [HK Hc Hs]. assert (kinv st') as HK' by (by eapply kinv_call).
    unfold kcall in HC. destruct (start s t c (k_life st)) as [life|] eqn:HS; simplify_eq.
    pose proof (start_goto _ _ _ _ _ HS) as ->. split; [done| |done]. simpl.
    intros t1 q [[<- <-]|[Hne Hq]]%lookup_insert_Some; [by destruct c|].
    eapply on_course_other; [by apply Hc|done|done].
Qed.

Lemma ainv_reach st : rtc kgo (kinit tt) st → ainv st.
Proof.
  intros Hr. eapply (rtc_ind_r ainv); [|by eauto using ainv_go|exact Hr].
  split; [|done|done]. apply (kinv_reach s handler doneCtx peer tt). constructor.
Qed.
End Alone.

(** ** Theorems *)

(** C14: connections do not disturb each other. With a handler that keeps no state,
    under every interleaving of connections, [Serve], [Close] and [Shutdown], what
    was sent on a connection is the beginning of what [serveConn] alone sends to
    the same peer. On a socket nobody closed it is all of it once the goroutine is
    done, and all there is to send once the goroutine waits for the peer. *)
Theorem connections_independent (s : Server unit) (handler : Handler unit) (doneCtx : option Context)
    (peer : nat → netConn) (st : kstate unit) (c : nat) (nc : netConn) :
  rtc (kgo s handler doneCtx peer) (kinit tt) st → k_socks st !! c = Some nc →
  (∃ sv', final (serve_body s handler doneCtx (mkServed (peer c) tt)) = Some sv' ∧
          nc_out nc `prefix_of` nc_out (sv_conn sv')) ∧
  (∀ t, nc_closed nc = false → threads (k_life st) !! t = Some (GClose c) →
     serve_body s handler doneCtx (mkServed (peer c) tt) = Ret tt (mkServed nc tt)) ∧
  (∀ t, nc_closed nc = false → threads (k_life st) !! t = Some (GServe c) →
     kstep s handler doneCtx peer t Next st = None →
     serve_body s handler doneCtx (mkServed (peer c) tt) = Blocks (mkServed nc tt)).
Proof.
  intros [HK Hc Hs]%ainv_reach Hnc. rewrite <- gdenote_serveConn. change (gdenote _ _) with (alone s handler doneCtx peer c).
  split_and!; [by apply Hs| |].
  - intros t Hop Ht. by apply (Hc t _ Ht c nc Hnc Hop).
  - intros t Hop Ht HN. destruct (ki_fits _ _ _ HK t _ Ht c eq_refl) as (_ & g & nc1 & Hg & Hnc1 & Hw & Hi). simplify_eq.
    rewrite <- (proj1 (proj2 (Hc t _ Ht c nc Hnc Hop)) g eq_refl Hg).
    unfold kstep in HN. rewrite Ht in HN. simpl in HN. unfold step_serving in HN. rewrite Hg in HN. simpl in HN.
    destruct g as [|calls B m k|k|k]; simpl in Hw; try (unfold step in HN; rewrite Ht in HN; done); [|by destruct Hw].
    rewrite Hnc in HN. simpl in HN. destruct Hw as [_ Hw]. specialize (Hw (mkServed nc (k_handler st)) ltac:(reflexivity)).
    destruct Hi as [Hi _]. specialize (Hi (mkServed nc (k_handler st))). destruct (k_handler st). simpl. unfold bind.
    destruct (m _) as [b sv|sv|]; [done|by rewrite Hi|done].
Qed.

(** Two clients of one server: connection 8 is accepted while 7 is being served. *)
Definition crowd : list event :=
  serving_run ++ [Ev 0 (AcceptConn 8); Ev 0 Next; Ev 0 Next; Ev 0 Next; Ev 0 (Pick 2)] ++
  concat (map (λ _, [Ev 1 Next; Ev 2 Next]) (seq 0 12)).

(** Both are answered and wait for the next command. *)
Definition crowd_seen : option (netConn * option pc * bool) :=
  st ← krun any_server any_handler chatty crowd; nc ← k_socks st !! 8%nat;
  Some (nc, threads (k_life st) !! 2%nat, bool_decide (is_Some (k_life <$> kstep any_server any_handler None chatty 2 Next st))).

Lemma crowd_facts : ∃ nc, crowd_seen = Some (nc, Some (GServe 8), false) ∧ nc_closed nc = false.
Proof. eexists. split; [vm_compute; reflexivity|reflexivity]. Qed.

Lemma connections_independent_witness :
  ∃ st nc, krun any_server any_handler chatty crowd = Some st ∧ k_socks st !! 8%nat = Some nc ∧
    serve_body any_server any_handler None (mkServed (chatty 8) tt) = Blocks (mkServed nc tt).
Proof.
  destruct crowd_facts as (nc & Hseen & Hop). unfold crowd_seen in Hseen.
  destruct (krun any_server any_handler chatty crowd) as [st|] eqn:Hrun; [|discriminate Hseen]. simpl in Hseen.
  destruct (k_socks st !! 8%nat) as [nc1|] eqn:Hnc; [|discriminate Hseen]. simpl in Hseen.
  injection Hseen as -> Ht HN. exists st, nc. split; [reflexivity|]. split; [exact Hnc|].
  destruct (connections_independent any_server any_handler None chatty st 8 nc (krun_go _ _ _ _ _ Hrun) Hnc) as (_ & _ & Hw).
  apply (Hw 2%nat Hop Ht). destruct (kstep any_server any_handler None chatty 2 Next st); [|reflexivity].
  exfalso. apply bool_decide_eq_false_1 in HN. apply HN. eexists. reflexivity.
Defined.
