(* ===== verification/BusyTalk.v ===== *)
(** * A conversation with a busy server

    A client's conversation with one of many connections of a server: the client's
    [Open] and [Execute] against the bytes the connection's goroutine wrote while
    other connections, [Serve], [Close] and [Shutdown] ran beside it. *)

From S2P Require Import Prelude GoErrors GoIO GoNet Packet Options Conn ConnProps Resume Server ServerProps EndToEnd Dialogue Lifecycle LifecycleProps ServeConc ServeConcProps ServeAlone.

Local Open Scope Z_scope.

(** The deferred close leaves what was sent. *)
Lemma serveConn_sent {H} (srv : Server H) handler doneCtx sv sv1 sv2 :
  serve_body srv handler doneCtx sv = Ret tt sv1 → final (serveConn srv handler doneCtx sv) = Some sv2 →
  nc_out (sv_conn sv2) = nc_out (sv_conn sv1).
Proof.
  intros HB. unfold serveConn. rewrite (bind_Ret _ _ _ _ _ HB). unfold bind, zoom, CloseConn.
  by destruct (nc_closed (sv_conn sv1)); intros [= <-].
Qed.

(** C2: a client is served as if it were alone. A server whose handler keeps no
    state and does not panic, and which sets no read timeout, serves any number of connections at once; the peer of connection [cn]
    sends what a client with default options sends to log in and run commands, cut
    into any segments, and hangs up. When its goroutine is done, the socket not
    having been closed under it, it has sent exactly the answers; and the client,
    to which they arrive in any segments within the deadline of their commands,
    logs in and gets from every [Execute] exactly what the handler wrote for its
    command. If the password is rejected, [Open] fails with [ErrAuthFailed]. *)
Theorem busy_server_conversation (srv : Server unit) (handler : Handler unit) (doneCtx : option Context)
    (peer : nat → netConn) (st : kstate unit) (t cn : nat) (nc : netConn)
    (password : string) (turns : list turn) (hello arrive : list (Z * arrival)) (hi : Z) :
  let commands := tn_command <$> turns in
  let outs := (outputs handler doneCtx commands tt).1 in
  Z.of_nat (len password) ≤ MaxPayloadSize → Forall good_command commands → ReadTimeout srv ≤ 0 →
  no_panic handler doneCtx commands tt →
  peer cn = new_netConn (arrive ++ [(0, Fin)]) 0 → delivered hi (frames (transcript password commands)) arrive →
  rtc (kgo srv handler doneCtx peer) (kinit tt) st →
  threads (k_life st) !! t = Some (GClose cn) → k_socks st !! cn = Some nc → nc_closed nc = false →
  delivered DefaultDeadline (frames (auth_answer srv (auth_packet password))) hello →
  in_time DefaultDeadline turns (replies 1 outs) →
  let socket := new_netConn (hello ++ concat (tn_arrivals <$> turns)) 0 in
  if checkPassword srv password then
    nc_out nc = frames (auth_answer srv (auth_packet password)) ++ concat (frames <$> replies 1 outs) ∧
    ∃ c c', Open Background socket password [] = Ret (Ok tt) c ∧
      converse Background turns c = Ret ((λ o, Ok (string_of o)) <$> outs) c' ∧
      sent c' = frames (transcript password commands)
  else
    nc_out nc = frames (auth_answer srv (auth_packet password)) ∧
    ∃ c, Open Background socket password [] = Ret (Err ErrAuthFailed) c.
Proof.
  intros commands outs Hpw Hc Hr Hn Hpeer Harr Hreach Ht Hnc Hop Hhello Hin socket.
  destruct (serve_transcript srv handler doneCtx password commands arrive hi tt) as (sv & HF & _ & HS); [done..|].
  assert (serve_body srv handler doneCtx (Dialogue.serving arrive tt) = Ret tt (mkServed nc tt)) as HB.
  { rewrite <- gdenote_serveConn. unfold Dialogue.serving. rewrite <- Hpeer.
    by apply (ai_course _ _ _ _ _ (ainv_reach _ _ _ _ _ Hreach) t _ Ht cn nc Hnc Hop). }
  pose proof (serveConn_sent _ _ _ _ _ _ HB HF) as Ho. simpl in Ho. rewrite Ho in HS.
  pose proof (client_converses srv password turns outs hello Hpw Hc Hhello Hin) as HC.
  destruct (checkPassword srv password); destruct HS as [HS _]; by split.
Qed.

(** A server that echoes its commands and keeps no state, with two clients that
    send the same commands, served in turns. *)
Definition echo : Handler unit := λ r _, mkRun [CallWriteString (Command r)] false tt.
Definition echoes : Server unit := mkServer "" (Some echo) "secret" None 0.
Definition pair_peer (_ : nat) : netConn :=
  new_netConn (two_segs 9 (frames (transcript "secret" ["hi"; "there"])) ++ [(0, Fin)]) 0.
Definition two_clients (n : nat) : list event :=
  serving_run ++ [Ev 0 (AcceptConn 8); Ev 0 Next; Ev 0 Next; Ev 0 Next; Ev 0 (Pick 2)] ++
  concat (map (λ _, [Ev 2 Next; Ev 1 Next]) (seq 0 n)).
Definition pair_seen (n : nat) : option (option pc * bool) :=
  st ← krun echoes echo pair_peer (two_clients n); nc ← k_socks st !! 7%nat;
  Some (threads (k_life st) !! 1%nat, nc_closed nc).

Lemma pair_seen_28 : pair_seen 28 = Some (Some (GClose 7), false).
Proof. vm_compute. reflexivity. Qed.

Lemma busy_server_conversation_witness :
  ∃ st c c', krun echoes echo pair_peer (two_clients 28) = Some st ∧
    threads (k_life st) !! 1%nat = Some (GClose 7) ∧
    Open Background (new_netConn (two_segs 4 (frames (auth_answer echoes (auth_packet "secret"))) ++
      concat (tn_arrivals <$> sample_turns)) 0) "secret" [] = Ret (Ok tt) c ∧
    converse Background sample_turns c = Ret [Ok "hi"; Ok "there"] c'.
Proof.
  pose proof pair_seen_28 as Hseen. unfold pair_seen in Hseen.
  destruct (krun echoes echo pair_peer (two_clients 28)) as [st|] eqn:Hrun; [|discriminate Hseen]. simpl in Hseen.
  destruct (k_socks st !! 7%nat) as [nc|] eqn:Hnc; [|discriminate Hseen]. simpl in Hseen. injection Hseen as Ht Hop.
  destruct (busy_server_conversation echoes echo None pair_peer st 1 7 nc "secret" sample_turns
    (two_segs 4 (frames (auth_answer echoes (auth_packet "secret"))))
    (two_segs 9 (frames (transcript "secret" ["hi"; "there"]))) 10) as (_ & c & c' & HO & HC & _).
  - vm_compute. discriminate.
  - repeat constructor; try discriminate; vm_compute; discriminate.
  - discriminate.
  - repeat split.
  - reflexivity.
  - apply two_segs_delivered. reflexivity.
  - exact (krun_go _ _ _ _ _ Hrun).
  - exact Ht.
  - exact Hnc.
  - exact Hop.
  - apply two_segs_delivered. reflexivity.
  - constructor; [apply two_segs_delivered; reflexivity|].
    constructor; [apply two_segs_delivered; reflexivity|constructor].
  - exists st, c, c'. split; [reflexivity|]. split; [exact Ht|]. split; [exact HO|exact HC].
Defined.
