(* ===== verification/FakeLife.v ===== *)
(** * internal/fakercon: starting and stopping the scripted server

    [Start] listens and serves in a goroutine of the server's lifecycle, [Addr] is
    where, [Close] is the server's. The [testing.TB] that may be passed only
    registers the [Close] and is left out; [listen] is what [net.Listen] gives: the
    listener and its address. *)

From S2P Require Import Prelude GoErrors GoIO GoNet Packet Options Conn ConnProps Server ServerProps EndToEnd FakeRcon Lifecycle LifecycleProps.

Record FakeServer := mkFakeServer {
  fk_srv : Server fake;
  fk_addr : string;
  fk_state : fake
}.

(** [None]: the nil server of a failed listen. The error of the [Serve] goroutine
    is dropped. *)
Definition Start (listen : result (nat * string)) (password : string) (t : nat) (st : lstate) :
    option (FakeServer * lstate) :=
  match listen with
  | Err _ => None
  | Ok (ln, addr) =>
      let s := mkFakeServer (fake_server password) addr new_fake in
      Some (s, match start (fk_srv s) t (CallServe ln) st with Ok st' => st' | Err _ => st end)
  end.

Definition fake_Addr (s : FakeServer) : string := fk_addr s.

Definition fake_Close (s : FakeServer) (t : nat) (st : lstate) : lstate :=
  match start (fk_srv s) t CallClose st with Ok st' => st' | Err _ => st end.

(** A fake server with a password serves; one without returns from [Serve] at once
    and its listener stays open, since [Serve] does not own it before it has
    validated the server. *)
Lemma Start_serves ln addr password t st :
  threads st !! t = None →
  ∃ s st', Start (Ok (ln, addr)) password t st = Some (s, st') ∧ fake_Addr s = addr ∧
    (if decide (password = "") then st' = st
     else threads st' !! t = Some (SvInit ln) ∧ lstep (fk_srv s) st st').
Proof.
  intros Ht. eexists _, _. split; [reflexivity|]. split; [done|].
  assert (start (fake_server password) t (CallServe ln) st =
    if decide (password = "") then Err errNoAuthConfigured else Ok (goto t (SvInit ln) st)) as Hs
    by (unfold start, validate; simpl; by repeat case_decide).
  cbn [fk_srv]. rewrite Hs. case_decide; [done|].
  split; [simpl; by rewrite lookup_insert_eq|]. eapply lstep_call; [done|]. exact Hs.
Qed.
