(* ===== verification/Cache.v ===== *)
(** * rconhttp: the session cache

    [sessionCache] of [rconhttp/cache.go] over the client's [World]: the map from
    keys to entries, the entries themselves (a heap: a [*cacheEntry] is an index
    into it and outlives its removal from the map), and the world their sessions
    act on. [execute], [reap] and [closeAll] are split where the source releases
    a lock: [get] and [collect] run under the cache's mutex, [use] and [evict]
    under an entry's. *)

From S2P Require Import Prelude GoErrors GoIO GoNet Packet Options Conn World Client.

Local Open Scope Z_scope.

(** rconhttp/backend.go *)
Record Backend := mkBackend {
  b_Addr : string;
  b_Password : string
}.

#[export] Instance Backend_eq_dec : EqDecision Backend.
Proof. solve_decision. Defined.

Record cacheEntry := mkEntry {
  e_backend : Backend;
  e_session : option Session;
  e_lastUsed : Z
}.

Record sessionCache := mkCache {
  c_entries : gmap string nat;
  c_heap : list cacheEntry;
  c_done : bool;
  c_world : World
}.

Definition set_entries (m : gmap string nat) (c : sessionCache) : sessionCache :=
  mkCache m (c_heap c) (c_done c) (c_world c).
Definition set_heap (l : list cacheEntry) (c : sessionCache) : sessionCache :=
  mkCache (c_entries c) l (c_done c) (c_world c).
Definition set_done (c : sessionCache) : sessionCache :=
  mkCache (c_entries c) (c_heap c) true (c_world c).
Definition set_world (w : World) (c : sessionCache) : sessionCache :=
  mkCache (c_entries c) (c_heap c) (c_done c) w.

(** Replace the session of the entry at [e]. *)
Definition put_session (e : nat) (s : option Session) (c : sessionCache) : sessionCache :=
  set_heap (alter (λ en, mkEntry (e_backend en) s (e_lastUsed en)) e (c_heap c)) c.

Definition isConnError (err : error) : bool :=
  Is err EOF || Is err ErrClosed || Is err ErrResponseMismatch ||
  match AsNetError err with Some _ => true | None => false end.

(** No NUL byte, which separates address and password in a key. *)
Fixpoint no_nul (s : string) : bool :=
  match s with
  | EmptyString => true
  | String a s => negb (bool_decide (a = Ascii.zero)) && no_nul s
  end.

Definition NUL : string := String Ascii.zero "".
Definition cacheKey (b : Backend) : string :=
  String.append (b_Addr b) (String.append NUL (b_Password b)).

Section Cache.
Context (client : Client) (idle : Z).

Definition newCache (w : World) : sessionCache := mkCache ∅ [] false w.

Definition get (b : Backend) : GoM sessionCache nat := λ c,
  let key := cacheKey b in
  let now := w_now (c_world c) in
  match c_entries c !! key with
  | Some e =>
      Ret e (set_heap (alter (λ en, mkEntry (e_backend en) (e_session en) now) e (c_heap c)) c)
  | None =>
      let e := length (c_heap c) in
      Ret e (set_entries (<[key := e]> (c_entries c)) (set_heap (c_heap c ++ [mkEntry b None now]) c))
  end.

Definition in_world {A} (m : GoM World A) : GoM sessionCache A := zoom c_world set_world m.

(** A call on session [s], stored back in entry [e]. *)
Definition on_session {A} (e : nat) (s : Session) (m : SessionM A) : GoM sessionCache A := λ c,
  match m (s, c_world c) with
  | Ret a (s', w) => Ret a (put_session e (Some s') (set_world w c))
  | Blocks (s', w) => Blocks (put_session e (Some s') (set_world w c))
  | Diverges => Diverges
  end.

(** [execute] after [get], while [e.mu] is held. *)
Definition use (e : nat) (ctx : Context) (b : Backend) (cmd : string) : GoM sessionCache (result string) :=
  do en <- gets (λ c, c_heap c !! e);
  try s <-
    match en ≫= e_session with
    | Some s => ret (Ok s)
    | None =>
        try s <- in_world (DialSession client ctx (b_Addr b) (b_Password b));
        do _ <- modify (put_session e (Some s));
        ret (Ok s)
    end;
  do r <- on_session e s (SessionExecute ctx cmd);
  match r with
  | Err err =>
      if isConnError err then
        do en <- gets (λ c, c_heap c !! e);
        match en ≫= e_session with
        | Some s =>
            do _ <- on_session e s SessionClose;
            do _ <- modify (put_session e None);
            ret (Err err)
        | None => λ _, Diverges
        end
      else ret (Err err)
  | Ok out => ret (Ok out)
  end.

Definition execute (ctx : Context) (b : Backend) (cmd : string) : GoM sessionCache (result string) :=
  do e <- get b;
  use e ctx b cmd.

(** Close the session of entry [e] and forget it, under [e.mu]. *)
Definition evict (e : nat) : GoM sessionCache unit :=
  do en <- gets (λ c, c_heap c !! e);
  match en ≫= e_session with
  | Some s =>
      do _ <- on_session e s SessionClose;
      modify (put_session e None)
  | None => ret tt
  end.

Fixpoint evict_all (es : list nat) : GoM sessionCache unit :=
  match es with
  | [] => ret tt
  | e :: es => do _ <- evict e; evict_all es
  end.

(** An entry last used before [cutoff]. *)
Definition stale (cutoff : Z) (heap : list cacheEntry) (e : nat) : Prop :=
  match heap !! e with Some en => e_lastUsed en < cutoff | None => False end.

#[export] Instance stale_dec cutoff heap e : Decision (stale cutoff heap e).
Proof. unfold stale. destruct (heap !! e); apply _. Defined.

(** The part of [reap] under the cache's mutex. *)
Definition collect (cutoff : Z) : GoM sessionCache (list nat) := λ c,
  let old := filter (λ ke, stale cutoff (c_heap c) ke.2) (c_entries c) in
  Ret (map_to_list old).*2
      (set_entries (filter (λ ke, ¬ stale cutoff (c_heap c) ke.2) (c_entries c)) c).

Definition reap : GoM sessionCache unit :=
  do now <- gets (λ c, w_now (c_world c));
  do es <- collect (now - idle);
  evict_all es.

Definition closeAll : GoM sessionCache (result unit) :=
  do entries <- gets c_entries;
  do _ <- modify (set_entries ∅);
  do _ <- evict_all (map_to_list entries).*2;
  ret (Ok tt).

Definition close : GoM sessionCache (result unit) :=
  do _ <- modify set_done;
  closeAll.

(** [startReaper] starts the reaper only for a positive timeout. *)
Definition reaps : bool := 0 <? idle.
End Cache.
