(* ===== verification/CacheProps.v ===== *)
(** * Properties of the session cache

    The invariant of every state the cache's operations reach: keys identify
    backends, every session is one for its key's backend, every open connection
    belongs to a session of the cache. *)

From S2P Require Import Prelude GoErrors GoIO GoNet Packet Options Conn ConnProps World Client ClientProps SessionProps Cache.

Local Open Scope Z_scope.

(** ** Keys *)

Definition session_backend (s : Session) : Backend := mkBackend (s_address s) (s_password s).

Lemma append_nul_inj a1 a2 p1 p2 :
  no_nul a1 = true → no_nul a2 = true →
  String.append a1 (String.append NUL p1) = String.append a2 (String.append NUL p2) → a1 = a2 ∧ p1 = p2.
Proof.
  revert a2. induction a1 as [|x a1 IH]; intros [|y a2]; simpl; intros H1 H2 He;
    injection He; intros; subst; reflect_bools; try done.
  destruct (IH a2) as [-> ->]; done.
Qed.

(** Addresses without a NUL byte make keys faithful. *)
Lemma cacheKey_inj b1 b2 :
  no_nul (b_Addr b1) = true → no_nul (b_Addr b2) = true → cacheKey b1 = cacheKey b2 → b1 = b2.
Proof.
  destruct b1 as [a1 p1], b2 as [a2 p2]. unfold cacheKey. simpl. intros H1 H2 He.
  by destruct (append_nul_inj _ _ _ _ H1 H2 He) as [-> ->].
Qed.

(** ** Entries *)

Lemma put_session_put e s1 s2 c : put_session e s2 (put_session e s1 c) = put_session e s2 c.
Proof.
  unfold put_session, set_heap. simpl. f_equal. apply list_eq. intros i.
  destruct (decide (i = e)) as [->|Hne]; [rewrite !list_lookup_alter_eq|by rewrite !list_lookup_alter_ne].
  by destruct (c_heap c !! e).
Qed.

Lemma put_session_same e en c : c_heap c !! e = Some en → put_session e (e_session en) c = c.
Proof.
  intros Hen. destruct c as [m h d w]. unfold put_session, set_heap. simpl in *. f_equal.
  apply list_eq. intros i. destruct (decide (i = e)) as [->|Hne]; [|by rewrite list_lookup_alter_ne].
  rewrite list_lookup_alter_eq, Hen. by destruct en.
Qed.

(** ** The invariant *)

Section Inv.
Context (client : Client) (idle : Z) `{!Dialer (transport client)}.
(** The sockets below [base] are not the cache's. *)
Context (base : list slot).

(** A session of the cache, made for its entry's key. *)
Record owned (en : cacheEntry) (s : Session) (w : World) : Prop := {
  ow_live : live s w;
  ow_client : s_client s = client;
  ow_key : cacheKey (session_backend s) = cacheKey (e_backend en);
  ow_nul : no_nul (s_address s) = true;
  ow_new : (length base ≤ s_conn s)%nat
}.

(** [out] are entries taken off the map whose sessions are still to be closed. *)
Record cinv (out : list nat) (c : sessionCache) : Prop := {
  ci_base : ∃ new, w_slots (c_world c) = base ++ new;
  ci_key key e :
    c_entries c !! key = Some e → ∃ en, c_heap c !! e = Some en ∧ cacheKey (e_backend en) = key;
  ci_inj e1 e2 en1 en2 s1 s2 :
    c_heap c !! e1 = Some en1 → c_heap c !! e2 = Some en2 →
    e_session en1 = Some s1 → e_session en2 = Some s2 → s_conn s1 = s_conn s2 → e1 = e2;
  ci_session e en s :
    c_heap c !! e = Some en → e_session en = Some s →
    owned en s (c_world c) ∧ (e ∈ out ∨ c_entries c !! cacheKey (e_backend en) = Some e);
  ci_open l sl :
    (length base ≤ l)%nat → w_slots (c_world c) !! l = Some sl → slot_closed sl = false →
    ∃ e en s, c_heap c !! e = Some en ∧ e_session en = Some s ∧ s_conn s = l
}.

Lemma cinv_new w : w_slots w = base → cinv [] (newCache w).
Proof.
  intros Hb. split; simpl; try done.
  - exists []. by rewrite app_nil_r.
  - intros l sl Hl Hs. apply lookup_lt_Some in Hs. rewrite Hb in Hs. lia.
Qed.

(** [live] only looks at the session's own slot. *)
Lemma live_same s w w' : w_slots w' !! s_conn s = w_slots w !! s_conn s → live s w → live s w'.
Proof. intros He (cn & Hl & Hset). exists cn. by rewrite He. Qed.

(** Marking an entry as used leaves its session. *)
Lemma touched_session now e0 (heap : list cacheEntry) e en :
  alter (λ en, mkEntry (e_backend en) (e_session en) now) e0 heap !! e = Some en →
  ∃ en0, heap !! e = Some en0 ∧ e_session en = e_session en0.
Proof.
  destruct (decide (e = e0)) as [->|Hne]; [|rewrite list_lookup_alter_ne by done; by eexists].
  rewrite list_lookup_alter_eq. destruct (heap !! e0); [|done]. intros [= <-]. by eexists.
Qed.

Lemma get_inv out b c e c' :
  cinv out c → get b c = Ret e c' →
  cinv out c' ∧ c_world c' = c_world c ∧
  ∃ en, c_heap c' !! e = Some en ∧ cacheKey (e_backend en) = cacheKey b ∧
        c_entries c' !! cacheKey b = Some e.
Proof.
  intros [Hb Hk Hi Hs Ho]. unfold get. destruct (c_entries c !! cacheKey b) as [e0|] eqn:He; intros [= <- <-].
  - destruct (Hk _ _ He) as (en & Hen & Hkey).
    split; [split; simpl; [done| | | |]|].
    + intros key e (en' & Hen' & Hkey')%Hk. destruct (decide (e = e0)) as [->|Hne].
      * rewrite list_lookup_alter_eq, Hen'. by eexists.
      * rewrite list_lookup_alter_ne by done. by eexists.
    + intros e1 e2 en1 en2 s1 s2 (x1 & Hx1 & Hs1)%touched_session (x2 & Hx2 & Hs2)%touched_session.
      rewrite Hs1, Hs2. by apply Hi.
    + intros e en' s. destruct (decide (e = e0)) as [->|Hne].
      * rewrite list_lookup_alter_eq, Hen. simpl. intros [= <-] Hse. simpl in Hse.
        destruct (Hs _ _ _ Hen Hse) as [[] ?]. by split.
      * rewrite list_lookup_alter_ne by done. apply Hs.
    + intros l sl Hl Hsl Hop. destruct (Ho l sl Hl Hsl Hop) as (e & en' & s & Hen' & Hse & Hcs).
      destruct (decide (e = e0)) as [->|Hne].
      * simplify_eq. eexists e0, _, s. rewrite list_lookup_alter_eq, Hen. by split_and!.
      * exists e, en', s. by rewrite list_lookup_alter_ne.
    + split; [done|]. simpl. eexists. rewrite list_lookup_alter_eq, Hen. by split_and!.
  - assert (∀ key e, c_entries c !! key = Some e → (e < length (c_heap c))%nat) as Hlt.
    { intros key e (en & Hen & _)%Hk. by eapply lookup_lt_Some. }
    split; [split; simpl; [done| | | |]|].
    + intros key e. rewrite lookup_insert_Some. intros [[<- <-]|[_ Hke]].
      * rewrite list_lookup_middle by done. by eexists.
      * destruct (Hk _ _ Hke) as (en & Hen & Hkey). exists en. split; [|done].
        by apply lookup_app_l_Some.
    + intros e1 e2 en1 en2 s1 s2 [H1|[_ H1]]%lookup_app_Some [H2|[_ H2]]%lookup_app_Some;
        [by apply Hi|apply list_lookup_singleton_Some in H2 as [_ <-]|apply list_lookup_singleton_Some in H1 as [_ <-]..];
        done.
    + intros e en s [Hen|[Hge Hen]]%lookup_app_Some Hse.
      * destruct (Hs _ _ _ Hen Hse) as [? [?|Hin]]; split; try done; [by left|right].
        rewrite lookup_insert_ne; [done|congruence].
      * apply list_lookup_singleton_Some in Hen as [_ <-]. done.
    + intros l sl Hl Hsl Hop. destruct (Ho l sl Hl Hsl Hop) as (e & en & s & Hen & Hse & Hcs).
      exists e, en, s. split_and!; try done. by apply lookup_app_l_Some.
    + split; [done|]. simpl. eexists. rewrite list_lookup_middle, lookup_insert_eq by done. by split_and!.
Qed.

(** A session's connection is a slot of the heap. *)
Lemma session_slot out c e en s :
  cinv out c → c_heap c !! e = Some en → e_session en = Some s →
  (s_conn s < length (w_slots (c_world c)))%nat.
Proof.
  intros Hc Hen Hse. destruct (ci_session _ _ Hc _ _ _ Hen Hse) as [[(cn & Hl & _) _ _ _ _] _].
  by eapply lookup_lt_Some.
Qed.

(** Replacing the session of entry [e] and the world under it. *)
Lemma cinv_update out c e en s' w' :
  cinv out c → c_heap c !! e = Some en →
  (e ∈ out ∨ c_entries c !! cacheKey (e_backend en) = Some e) →
  (∃ new, w_slots w' = base ++ new) →
  (∀ s, s' = Some s → owned en s w') →
  (∀ s e2 en2 s2, s' = Some s → e2 ≠ e → c_heap c !! e2 = Some en2 → e_session en2 = Some s2 →
     s_conn s2 ≠ s_conn s) →
  (∀ s, live s (c_world c) → s_client s = client → live s w') →
  (∀ l sl, (length base ≤ l)%nat → w_slots w' !! l = Some sl → slot_closed sl = false →
     (∃ s, s' = Some s ∧ s_conn s = l) ∨
     (w_slots (c_world c) !! l = Some sl ∧ ∀ s, e_session en = Some s → s_conn s ≠ l)) →
  cinv out (put_session e s' (set_world w' c)).
Proof.
  intros [Hb Hk Hi Hs Ho] Hen Hmap Hb' Hnew Hfresh Hstab Hopen. split; simpl.
  - done.
  - intros key e' (en' & Hen' & Hkey)%Hk. destruct (decide (e' = e)) as [->|Hne].
    + rewrite list_lookup_alter_eq, Hen'. by eexists.
    + rewrite list_lookup_alter_ne by done. by eexists.
  - intros e1 e2 en1 en2 s1 s2. destruct (decide (e1 = e)) as [->|H1], (decide (e2 = e)) as [->|H2]; [done|..];
      rewrite ?list_lookup_alter_eq, ?Hen, ?list_lookup_alter_ne by done.
    + intros [= <-] Hen2 Hs1 Hs2 Hc. exfalso. by eapply (Hfresh s1 e2).
    + intros Hen1 [= <-] Hs1 Hs2 Hc. exfalso. by eapply (Hfresh s2 e1).
    + apply Hi.
  - intros e' en' s. destruct (decide (e' = e)) as [->|Hne].
    + rewrite list_lookup_alter_eq, Hen. simpl. intros [= <-] Hse. simpl in Hse.
      destruct (Hnew _ Hse). by split.
    + rewrite list_lookup_alter_ne by done. intros Hen' Hse.
      destruct (Hs _ _ _ Hen' Hse) as [[Hlive Hcl] ?]. split; [split; auto|done].
  - intros l sl Hl Hsl Hop. destruct (Hopen l sl Hl Hsl Hop) as [(s & -> & Hc)|[Hsl0 Hne]].
    + eexists e, _, s. rewrite list_lookup_alter_eq, Hen. by split_and!.
    + destruct (Ho l sl Hl Hsl0 Hop) as (e' & en' & s & Hen' & Hse & Hcs).
      exists e', en', s. rewrite list_lookup_alter_ne; [done|].
      intros ->. simplify_eq. by eapply Hne.
Qed.

(** Closing the session of an entry. *)
Lemma evict_inv out c e en s :
  cinv out c → c_heap c !! e = Some en → e_session en = Some s →
  ∃ c', (do _ <- on_session e s SessionClose; modify (put_session e None)) c = Ret tt c' ∧
        cinv out c' ∧ c_entries c' = c_entries c ∧
        (∀ e', e' ≠ e → c_heap c' !! e' = c_heap c !! e') ∧
        (∃ en', c_heap c' !! e = Some en' ∧ e_session en' = None ∧ e_backend en' = e_backend en).
Proof.
  intros Hc Hen Hse. destruct (ci_session _ _ Hc _ _ _ Hen Hse) as [Hown Hmap].
  destruct (ci_base _ _ Hc) as [new Hb].
  destruct (SessionClose_spec s (c_world c) (ow_live _ _ _ Hown)) as (r & w' & cn & HC & Hs & Hcl & Hl).
  exists (put_session e None (set_world w' c)).
  assert (length base ≤ s_conn s)%nat as Hge by apply Hown.
  split_and!; [| |done|intros; by apply list_lookup_alter_ne|].
  - unfold on_session, bind, modify. by rewrite HC, put_session_put.
  - apply (cinv_update _ _ _ en); try done.
    + exists (<[(s_conn s - length base)%nat := SConn cn]> new). rewrite Hs, Hb.
      by apply insert_app_r_alt.
    + intros s0 (c0 & Hl0 & Hset0) Hcl0. destruct (decide (s_conn s0 = s_conn s)) as [He|Hne].
      * destruct Hl as (c1 & Hl1 & Hset1). exists c1. rewrite He. split; [done|].
        rewrite Hset1, Hcl0. f_equal. apply Hown.
      * exists c0. by rewrite Hs, list_lookup_insert_ne.
    + intros l sl _ Hsl Hop. right. rewrite Hs in Hsl. destruct (decide (l = s_conn s)) as [->|Hne].
      * destruct Hl as (c1 & Hl1 & _). rewrite Hs in Hl1. simplify_eq.
        apply list_lookup_insert_Some in Hl1 as [(_ & ? & _)|[? _]]; [|done]. simplify_eq. congruence.
      * rewrite list_lookup_insert_ne in Hsl by done. split; [done|]. intros s1 ?. simplify_eq. done.
  - simpl. eexists. rewrite list_lookup_alter_eq, Hen. by split_and!.
Qed.

(** A world with more closed slots. *)
Lemma cinv_leaves_closed out c e en w' :
  cinv out c → c_heap c !! e = Some en →
  (e ∈ out ∨ c_entries c !! cacheKey (e_backend en) = Some e) → e_session en = None →
  leaves_closed (c_world c) w' → cinv out (set_world w' c).
Proof.
  intros Hc Hen Hmap Hse (new & Hs & Hnew). destruct (ci_base _ _ Hc) as [old Hb].
  rewrite <- (put_session_same e en (set_world w' c)), Hse by done.
  apply (cinv_update _ _ _ en); try done.
  - exists (old ++ new). by rewrite Hs, Hb, app_assoc.
  - intros s (cn & Hl & Hset) _. exists cn. split; [|done]. rewrite Hs. by apply lookup_app_l_Some.
  - intros l sl _ Hsl Hop. right. split; [|intros; congruence]. rewrite Hs in Hsl.
    apply lookup_app_Some in Hsl as [?|[_ Hsl]]; [done|].
    eapply Forall_lookup_1 in Hnew; [|done]. congruence.
Qed.

(** A freshly dialed session. *)
Lemma cinv_dialed out c e en w' cn s b :
  cinv out c → c_heap c !! e = Some en →
  (e ∈ out ∨ c_entries c !! cacheKey (e_backend en) = Some e) → e_session en = None →
  cacheKey (e_backend en) = cacheKey b → no_nul (b_Addr b) = true →
  grown (c_world c) w' (SConn cn) → Conn.set cn = client_settings client →
  s = mkSession client (b_Addr b) (b_Password b) (length (w_slots (c_world c))) →
  cinv out (put_session e (Some s) (set_world w' c)).
Proof.
  intros Hc Hen Hmap Hse Hkey Hnul Hg Hset ->. destruct (ci_base _ _ Hc) as [old Hb].
  apply (cinv_update _ _ _ en); try done.
  - exists (old ++ [SConn cn]). by rewrite Hg, Hb, app_assoc.
  - intros s [= <-]. split; simpl; [|done|rewrite Hkey; by destruct b|done|rewrite Hb, length_app; lia].
    exists cn. split; [by apply grown_lookup|done].
  - intros s e2 en2 s2 [= <-] _ Hen2 Hse2. pose proof (session_slot _ _ _ _ _ Hc Hen2 Hse2). simpl. lia.
  - intros s (c0 & Hl & Hset0) _. exists c0. split; [|done]. rewrite Hg. by apply lookup_app_l_Some.
  - intros l sl _ Hsl Hop. rewrite Hg in Hsl. apply lookup_app_Some in Hsl as [?|[Hge Hsl]].
    + right. split; [done|intros; congruence].
    + left. eexists. split; [done|]. simpl. apply lookup_lt_Some in Hsl. simpl in Hsl. lia.
Qed.

(** A call on the session of an entry. *)
Lemma cinv_executed out c e en s ctx cmd r s' w' :
  cinv out c → c_heap c !! e = Some en → e_session en = Some s →
  SessionExecute ctx cmd (s, c_world c) = Ret r (s', w') →
  cinv out (put_session e (Some s') (set_world w' c)).
Proof.
  intros Hc Hen Hse HR%SessionExecute_run. destruct (ci_base _ _ Hc) as [old Hb].
  destruct (ci_session _ _ Hc _ _ _ Hen Hse) as [[Hl Hcl Hk Hn Hge] Hmap].
  assert (Dialer (transport (s_client s))) by (by rewrite Hcl).
  destruct (session_run_slots _ _ _ _ _ _ _ Hl HR) as (Hl' & Hcl' & Hopen).
  destruct (session_run_others _ _ _ _ _ _ _ Hl HR) as (Ha & Hp & Hconn & Hold & Hsame).
  assert (length base ≤ length (w_slots (c_world c)))%nat as Hbl by (rewrite Hb, length_app; lia).
  apply (cinv_update _ _ _ en); try done.
  - apply (prefix_kept base old). intros i Hi. rewrite Hsame by lia. by rewrite Hb.
  - intros s0 [= <-]. split; [done|congruence|unfold session_backend in *; congruence|congruence|].
    destruct Hconn as [->| ->]; lia.
  - intros s0 e2 en2 s2 [= <-] Hne Hen2 Hse2. pose proof (session_slot _ _ _ _ _ Hc Hen2 Hse2).
    destruct Hconn as [->| ->]; [|lia]. intros He. by eapply Hne, (ci_inj _ _ Hc).
  - intros s0 (c0 & Hl0 & Hset0) Hcl0. destruct (decide (s_conn s0 = s_conn s)) as [He|Hne].
    + destruct Hold as (c1 & Hl1 & Hset1). exists c1. rewrite He. split; [done|congruence].
    + exists c0. split; [|done]. rewrite Hsame; [done| |done]. by eapply lookup_lt_Some.
  - intros l sl Hl0 Hsl Hop. destruct (decide (l = s_conn s')) as [->|Hne]; [left; by eexists|right].
    destruct (Hopen l sl Hne Hsl Hop) as [Hne' Hsl']. split; [done|]. intros s0 ?. simplify_eq. done.
Qed.

(** ** The operations keep the invariant *)

(** [use] with a session in hand. *)
Lemma used_inv c e en s ctx cmd r c' :
  cinv [] c → c_heap c !! e = Some en → e_session en = Some s →
  (do r <- on_session e s (SessionExecute ctx cmd);
   match r with
   | Err err =>
       if isConnError err then
         do en <- gets (λ c, c_heap c !! e);
         match en ≫= e_session with
         | Some s => do _ <- on_session e s SessionClose; do _ <- modify (put_session e None); ret (Err err)
         | None => λ _, Diverges
         end
       else ret (Err err)
   | Ok out => ret (Ok out)
   end) c = Ret r c' → cinv [] c'.
Proof.
  intros Hc Hen Hse (r1 & c1 & H1 & HK)%bind_inv. unfold on_session in H1.
  destruct (SessionExecute ctx cmd (s, c_world c)) as [r0 [s1 w1]|[]|] eqn:HE; simplify_eq.
  pose proof (cinv_executed _ _ _ _ _ _ _ _ _ _ Hc Hen Hse HE) as Hc1.
  destruct r1 as [out|err]; [unfold ret in HK; by simplify_eq|].
  destruct (isConnError err); [|unfold ret in HK; by simplify_eq].
  set (c1 := put_session e (Some s1) (set_world w1 c)) in *.
  assert (c_heap c1 !! e = Some (mkEntry (e_backend en) (Some s1) (e_lastUsed en))) as Hen1
    by (simpl; by rewrite list_lookup_alter_eq, Hen).
  unfold gets, bind at 1 in HK. rewrite Hen1 in HK. simpl in HK.
  destruct (evict_inv _ _ _ _ _ Hc1 Hen1 eq_refl) as (c2 & H2 & Hc2 & _).
  apply bind_inv in HK as (r2 & c3 & H3 & HK).
  rewrite (bind_Ret _ _ _ _ _ H3) in H2. unfold modify in H2. simplify_eq.
  unfold modify, bind, ret in HK. by simplify_eq.
Qed.

Lemma use_inv c e en ctx b cmd r c' :
  cinv [] c → c_heap c !! e = Some en → c_entries c !! cacheKey (e_backend en) = Some e →
  cacheKey (e_backend en) = cacheKey b → no_nul (b_Addr b) = true →
  use client e ctx b cmd c = Ret r c' → cinv [] c'.
Proof.
  intros Hc Hen Hmap Hkey Hnul HU. unfold use, gets, bind at 1 in HU. rewrite Hen in HU. simpl in HU.
  destruct (e_session en) as [s|] eqn:Hse.
  { eapply (used_inv c e en s); [done..|exact HU]. }
  apply bind_inv in HU as ([s|err] & c1 & H1 & HU); apply bind_inv in H1 as ([s1|err1] & c2 & HD & HK);
    try (unfold bind, modify, ret in HK; by simplify_eq).
  all: apply zoom_inv in HD as (w1 & HD & ->); apply bind_inv in HD as ([l|err2] & w2 & HD & HL);
    unfold ret in HL; simplify_eq; rewrite dial_connect in HD; apply connect_inv in HD; try done.
  - destruct HD as (-> & cn & Hg & Hset). unfold bind, modify, ret in HK. simplify_eq.
    eapply used_inv; [| | |exact HU].
    + eapply (cinv_dialed [] c e en); by eauto.
    + simpl. by rewrite list_lookup_alter_eq, Hen.
    + done.
  - unfold ret in HK, HU. simplify_eq. eapply (cinv_leaves_closed [] c e en); by eauto.
Qed.

Lemma execute_inv c ctx b cmd r c' :
  cinv [] c → no_nul (b_Addr b) = true → execute client ctx b cmd c = Ret r c' → cinv [] c'.
Proof.
  intros Hc Hn (e & c1 & HG & HU)%bind_inv. destruct (get_inv _ _ _ _ _ Hc HG) as (Hc1 & _ & en & Hen & Hk & Hm).
  eapply use_inv; [done|done|by rewrite Hk|done..].
Qed.

Lemma cinv_shrink e es c :
  cinv (e :: es) c → (∀ en, c_heap c !! e = Some en → e_session en = None) → cinv es c.
Proof.
  intros [Hb Hk Hi Hs Ho] Hnone. split; [done..| |done].
  intros e' en s Hen Hse. destruct (Hs _ _ _ Hen Hse) as [? [[->|?]%elem_of_cons|?]]; [|by auto..].
  by rewrite (Hnone _ Hen) in Hse.
Qed.

(** What evicting one entry changes: its session is gone and its connection closed. *)
Lemma evict_spec e es c :
  cinv (e :: es) c →
  ∃ c', evict e c = Ret tt c' ∧ cinv es c' ∧ c_entries c' = c_entries c ∧
    c_heap c' = alter (λ en, mkEntry (e_backend en) None (e_lastUsed en)) e (c_heap c) ∧
    match c_heap c !! e ≫= e_session with
    | Some s => ∃ cn, w_slots (c_world c') = <[s_conn s := SConn cn]> (w_slots (c_world c)) ∧
                      slot_closed (SConn cn) = true
    | None => w_slots (c_world c') = w_slots (c_world c)
    end.
Proof.
  intros Hc. unfold evict, gets, bind at 1.
  destruct (c_heap c !! e ≫= e_session) as [s|] eqn:Hx.
  - destruct (c_heap c !! e) as [en|] eqn:Hen; [|done]. simpl in Hx.
    destruct (evict_inv _ _ _ _ _ Hc Hen Hx) as (c1 & HE & Hc1 & He1 & _ & en' & Hen' & Hn' & _).
    exists c1. split; [done|]. split; [eapply cinv_shrink; [done|]; intros ??; by simplify_eq|]. split; [done|].
    destruct (ci_session _ _ Hc _ _ _ Hen Hx) as [Hown _].
    destruct (SessionClose_spec s (c_world c) (ow_live _ _ _ Hown)) as (r & w' & cn & HC & Hs & Hcl & _).
    unfold on_session, bind, modify in HE. rewrite HC, put_session_put in HE. injection HE as <-.
    split; [done|]. by exists cn.
  - exists c. split_and!; [done| |done| |done].
    + eapply cinv_shrink; [done|]. intros en Hen. by rewrite Hen in Hx.
    + apply list_eq. intros i. destruct (decide (i = e)) as [->|]; [|by rewrite list_lookup_alter_ne].
      rewrite list_lookup_alter_eq. destruct (c_heap c !! e) as [[b s u]|]; simpl in *; by subst.
Qed.

(** The sessions of entries [es] are closed and forgotten, nothing else is touched. *)
Record evicted (es : list nat) (c c' : sessionCache) : Prop := {
  ev_entries : c_entries c' = c_entries c;
  ev_other e : e ∉ es → c_heap c' !! e = c_heap c !! e;
  ev_gone e en : e ∈ es → c_heap c' !! e = Some en → e_session en = None;
  ev_slots l :
    (∀ e en s, e ∈ es → c_heap c !! e = Some en → e_session en = Some s → s_conn s ≠ l) →
    w_slots (c_world c') !! l = w_slots (c_world c) !! l;
  ev_closed e en s :
    e ∈ es → c_heap c !! e = Some en → e_session en = Some s →
    ∃ sl, w_slots (c_world c') !! s_conn s = Some sl ∧ slot_closed sl = true
}.

Lemma evict_all_spec es c : cinv es c → ∃ c', evict_all es c = Ret tt c' ∧ cinv [] c' ∧ evicted es c c'.
Proof.
  revert c. induction es as [|e es IH]; intros c Hc.
  { exists c. split_and!; [done..|]. split; try done; by intros ? ? ?%not_elem_of_nil || intros ? ? ? ?%not_elem_of_nil. }
  destruct (evict_spec e es c Hc) as (c1 & HE & Hc1 & He1 & Hh1 & Hw1).
  destruct (IH c1 Hc1) as (c' & HA & Hc' & [Hm Ho Hg Hsl Hcl]).
  exists c'. cbn [evict_all]. rewrite (bind_Ret _ _ _ _ _ HE). split_and!; [done..|].
  assert (∀ e', e' ≠ e → c_heap c1 !! e' = c_heap c !! e') as Hh1' by (intros; by rewrite Hh1, list_lookup_alter_ne).
  (* entries of [es] with a session in [c1] had it in [c], and are not [e] *)
  assert (∀ e' en' s', c_heap c1 !! e' = Some en' → e_session en' = Some s' →
    e' ≠ e ∧ c_heap c !! e' = Some en') as Hold.
  { intros e' en' s' Hen' Hse'. destruct (decide (e' = e)) as [->|Hne]; [|by rewrite <- Hh1'].
    rewrite Hh1, list_lookup_alter_eq in Hen'. destruct (c_heap c !! e); [|done]. injection Hen' as <-. done. }
  split.
  - by rewrite Hm.
  - intros e' [Hne Hni]%not_elem_of_cons. by rewrite Ho, Hh1'.
  - intros e' en' Hin Hen'. destruct (decide (e' ∈ es)) as [Hin'|Hni]; [by eapply Hg|].
    apply elem_of_cons in Hin as [->|]; [|done]. rewrite Ho, Hh1, list_lookup_alter_eq in Hen' by done.
    destruct (c_heap c !! e); [|done]. by injection Hen' as <-.
  - intros l Hl. rewrite Hsl.
    + destruct (c_heap c !! e) as [en|] eqn:Hen; simpl in Hw1; [|by rewrite Hw1].
      destruct (e_session en) as [s|] eqn:Hse; [|by rewrite Hw1]. destruct Hw1 as (cn & -> & _).
      apply list_lookup_insert_ne. eapply Hl; [by left|done..].
    + intros e' en' s' Hin Hen' Hse'. destruct (Hold _ _ _ Hen' Hse'). eapply Hl; [by right|done..].
  - intros e' en s Hin Hen Hse. destruct (decide (e' = e)) as [->|Hne].
    + rewrite Hen in Hw1. simpl in Hw1. rewrite Hse in Hw1. destruct Hw1 as (cn & Hw1 & Hcn).
      rewrite Hsl.
      * exists (SConn cn). rewrite Hw1. split; [|done]. apply list_lookup_insert_eq. by eapply session_slot.
      * intros e2 en2 s2 _ Hen2 Hse2 Heq. destruct (Hold _ _ _ Hen2 Hse2) as [Hne2 Hen2'].
        by eapply Hne2, (ci_inj _ _ Hc).
    + apply elem_of_cons in Hin as [->|Hin]; [done|]. eapply Hcl; [done|by rewrite Hh1'|done].
Qed.

(** Evicting closes the sessions that were taken off the map, and always returns. *)
Lemma evict_all_inv es c :
  cinv es c → ∃ c', evict_all es c = Ret tt c' ∧ cinv [] c' ∧ c_entries c' = c_entries c.
Proof. intros (c' & ? & ? & [])%evict_all_spec. by exists c'. Qed.

(** Taking entries off the map: those in [es] are still to be closed. *)
Lemma cinv_unmap es m c :
  cinv [] c → m ⊆ c_entries c → (∀ key e, c_entries c !! key = Some e → m !! key = Some e ∨ e ∈ es) →
  cinv es (set_entries m c).
Proof.
  intros [Hb Hk Hi Hs Ho] Hsub Hes. split; simpl; [done| |done| |done].
  - intros key e He. apply Hk. by eapply lookup_weaken.
  - intros e en s Hen Hse. destruct (Hs _ _ _ Hen Hse) as [? [?|Hm]]; [by apply not_elem_of_nil in H0|].
    split; [done|]. destruct (Hes _ _ Hm); auto.
Qed.

(** What [reap] collects, and what it does to it. *)
Lemma reap_spec c :
  cinv [] c →
  let cut := w_now (c_world c) - idle in
  ∃ c' es, reap idle c = Ret tt c' ∧ cinv [] c' ∧
    (∀ e, e ∈ es ↔ ∃ key, c_entries c !! key = Some e ∧ stale cut (c_heap c) e) ∧
    evicted es (set_entries (filter (λ ke, ¬ stale cut (c_heap c) ke.2) (c_entries c)) c) c'.
Proof.
  intros Hc cut. unfold reap, gets, collect, bind at 1 2. fold cut.
  set (es := (map_to_list (filter (λ ke, stale cut (c_heap c) ke.2) (c_entries c))).*2).
  assert (∀ e, e ∈ es ↔ ∃ key, c_entries c !! key = Some e ∧ stale cut (c_heap c) e) as Hes.
  { intros e. unfold es. rewrite list_elem_of_fmap. split.
    - intros ([key e'] & -> & [??]%elem_of_map_to_list%map_lookup_filter_Some). by exists key.
    - intros (key & ? & ?). exists (key, e). split; [done|]. by apply elem_of_map_to_list, map_lookup_filter_Some. }
  destruct (evict_all_spec es (set_entries (filter (λ ke, ¬ stale cut (c_heap c) ke.2) (c_entries c)) c))
    as (c' & HE & Hc' & Hev).
  - apply cinv_unmap; [done|apply map_filter_subseteq|]. intros key e He.
    destruct (decide (stale cut (c_heap c) e)) as [Hst|Hst].
    + right. apply Hes. by exists key.
    + left. by apply map_lookup_filter_Some.
  - by exists c', es.
Qed.

Lemma reap_inv c : cinv [] c → ∃ c', reap idle c = Ret tt c' ∧ cinv [] c'.
Proof. intros (c' & _ & ? & ? & _)%reap_spec. by exists c'. Qed.

Lemma close_inv c :
  cinv [] c → ∃ c', close c = Ret (Ok tt) c' ∧ cinv [] c' ∧ c_entries c' = ∅.
Proof.
  intros Hc. unfold close, closeAll, modify, gets, bind at 1 2 3.
  destruct (evict_all_inv (map_to_list (c_entries (set_done c))).*2 (set_entries ∅ (set_done c)))
    as (c' & HE & Hc' & He').
  - apply cinv_unmap; [by destruct Hc|apply map_empty_subseteq|]. intros key e He. right.
    apply list_elem_of_fmap. exists (key, e). split; [done|]. by apply elem_of_map_to_list.
  - exists c'. rewrite (bind_Ret _ _ _ _ _ HE). by split_and!.
Qed.
End Inv.

(** ** Theorems *)

(** The states a cache gets into from an empty one: commands for backends whose
    address has no NUL byte, reaper runs, and time. *)
Inductive cache_reach (client : Client) (idle : Z) (w0 : World) : sessionCache → Prop :=
  | cr_new : cache_reach client idle w0 (newCache w0)
  | cr_execute c ctx b cmd r c' :
      cache_reach client idle w0 c → no_nul (b_Addr b) = true →
      execute client ctx b cmd c = Ret r c' → cache_reach client idle w0 c'
  | cr_reap c c' :
      cache_reach client idle w0 c → reap idle c = Ret tt c' → cache_reach client idle w0 c'
  | cr_wait c t :
      cache_reach client idle w0 c → w_now (c_world c) ≤ t →
      cache_reach client idle w0 (set_world (set_clock t (c_world c)) c).

Lemma cache_reach_inv client idle w0 c `{!Dialer (transport client)} :
  cache_reach client idle w0 c → cinv client (w_slots w0) [] c.
Proof.
  induction 1 as [|c ctx b cmd r c' _ IH Hn HE|c c' _ IH HE|c t _ IH _].
  - by apply cinv_new.
  - by eapply execute_inv.
  - destruct (reap_inv client idle _ _ IH) as (c1 & HE1 & Hc1). rewrite HE in HE1. by simplify_eq.
  - destruct IH as [Hb Hk Hi Hs Ho]. split; [done..| |done].
    intros e en s Hen Hse. destruct (Hs _ _ _ Hen Hse) as [[] ?]. by repeat split.
Qed.

(** Closing a cache, whatever it has been through. *)
Lemma close_releases (client : Client) (idle : Z) (w0 : World) (c : sessionCache) :
  Dialer (transport client) → cache_reach client idle w0 c →
  ∃ c', close c = Ret (Ok tt) c' ∧ c_entries c' = ∅ ∧
        ∃ new, w_slots (c_world c') = w_slots w0 ++ new ∧ Forall (λ s, slot_closed s = true) new.
Proof.
  intros HD Hr%cache_reach_inv; [|done]. destruct (close_inv client _ _ Hr) as (c' & HC & [[new Hb] Hk _ Hs Ho] & He).
  exists c'. split_and!; [done|done|]. exists new. split; [done|]. apply Forall_lookup_2. intros i sl Hi.
  destruct (slot_closed sl) eqn:Hop; [done|exfalso].
  destruct (Ho (length (w_slots w0) + i)%nat sl) as (e & en & s & Hen & Hse & _); [lia| |done|].
  - by rewrite Hb, lookup_app_r, Nat.add_comm, Nat.add_sub by lia.
  - destruct (Hs _ _ _ Hen Hse) as [_ [Hin|Hin]]; [by apply not_elem_of_nil in Hin|]. by rewrite He in Hin.
Qed.

(** A cache that has run one command. *)
Definition warm : outcome sessionCache (result string) :=
  execute (Client.New []) Background (mkBackend "a" "pw") "ping" (newCache (sample_world [good_server 5])).

(** C23: the reaper evicts exactly the idle sessions. In every state the cache gets
    into, [reap] returns; an entry last used more than the idle timeout ago is off
    the map, its session is forgotten and the session's connection is closed; every
    other entry is still in the map, unchanged, and its session's connection has
    not been touched. *)
Theorem reap_evicts_idle (client : Client) (idle : Z) (w0 : World) (c : sessionCache) :
  Dialer (transport client) → cache_reach client idle w0 c →
  ∃ c', reap idle c = Ret tt c' ∧
    ∀ key e en, c_entries c !! key = Some e → c_heap c !! e = Some en →
      if decide (idle < w_now (c_world c) - e_lastUsed en) then
        c_entries c' !! key = None ∧ (∀ en', c_heap c' !! e = Some en' → e_session en' = None) ∧
        (∀ s, e_session en = Some s →
           ∃ sl, w_slots (c_world c') !! s_conn s = Some sl ∧ slot_closed sl = true)
      else
        c_entries c' !! key = Some e ∧ c_heap c' !! e = Some en ∧
        (∀ s, e_session en = Some s → w_slots (c_world c') !! s_conn s = w_slots (c_world c) !! s_conn s).
Proof.
  intros HD Hr%cache_reach_inv; [|done].
  destruct (reap_spec client idle _ _ Hr) as (c' & es & HR & _ & Hes & [Hm Ho Hg Hsl Hcl]).
  exists c'. split; [done|]. intros key e en Hk Hen.
  assert (stale (w_now (c_world c) - idle) (c_heap c) e ↔ idle < w_now (c_world c) - e_lastUsed en) as Hst
    by (unfold stale; rewrite Hen; lia).
  case_decide as Hidle.
  - assert (e ∈ es) as Hin by (apply Hes; exists key; by rewrite Hst). split_and!.
    + rewrite Hm. apply map_lookup_filter_None. right. intros e' ?. simplify_eq/=. rewrite Hst. tauto.
    + intros en'. by apply Hg.
    + intros s Hs. by eapply Hcl.
  - assert (e ∉ es) as Hni by (rewrite Hes; intros (? & _ & ?%Hst); done). split_and!.
    + rewrite Hm. apply map_lookup_filter_Some. split; [done|]. simpl. by rewrite Hst.
    + by rewrite Ho.
    + intros s Hs. apply Hsl. intros e2 en2 s2 Hin Hen2 Hs2 Heq. apply Hni.
      by rewrite <- (ci_inj _ _ _ _ Hr e2 e en2 en s2 s Hen2 Hen Hs2 Hs Heq).
Qed.

Definition warm_cache : sessionCache :=
  match warm with Ret _ c => c | _ => newCache (sample_world []) end.
Definition warm_session : Session := mkSession (Client.New []) "a" "pw" 0.

Lemma warm_run : warm = Ret (Ok "pong") warm_cache.
Proof. vm_compute. reflexivity. Qed.

Lemma reap_evicts_idle_witness :
  ∃ c', reap 100 (set_world (set_clock 1000 (c_world warm_cache)) warm_cache) = Ret tt c' ∧
    c_entries c' !! cacheKey (mkBackend "a" "pw") = None ∧
    ∃ sl, w_slots (c_world c') !! 0%nat = Some sl ∧ slot_closed sl = true.
Proof.
  destruct (reap_evicts_idle (Client.New []) 100 (sample_world [good_server 5])
    (set_world (set_clock 1000 (c_world warm_cache)) warm_cache)) as (c' & HR & HE).
  - exact (tcp_Dialer Client.DefaultDialTimeout).
  - apply cr_wait; [|vm_compute; discriminate].
    refine (cr_execute _ _ _ _ _ _ _ _ _ (cr_new _ _ _) _ warm_run). reflexivity.
  - specialize (HE (cacheKey (mkBackend "a" "pw")) 0%nat (mkEntry (mkBackend "a" "pw") (Some warm_session) 0)
      ltac:(vm_compute; reflexivity) ltac:(vm_compute; reflexivity)).
    rewrite decide_True in HE by (vm_compute; reflexivity). destruct HE as (Hk & _ & Hc).
    exists c'. split; [exact HR|]. split; [exact Hk|]. exact (Hc warm_session eq_refl).
Defined.

(** [Handler.Close] releases everything. After any sequence of commands, reaper
    runs and waits, whatever the servers did, [close] returns without error,
    leaves the cache empty and every connection the cache has ever opened closed,
    and touches no other socket. *)
Theorem cache_close_releases (client : Client) (idle : Z) (w0 : World) (c : sessionCache) :
  Dialer (transport client) → cache_reach client idle w0 c →
  ∃ c', close c = Ret (Ok tt) c' ∧ c_entries c' = ∅ ∧
        ∃ new, w_slots (c_world c') = w_slots w0 ++ new ∧ Forall (λ s, slot_closed s = true) new.
Proof. apply close_releases. Qed.

Lemma cache_close_releases_witness :
  ∃ c c', warm = Ret (Ok "pong") c ∧ close c = Ret (Ok tt) c' ∧ c_entries c' = ∅.
Proof.
  destruct warm as [r c| |] eqn:HW; [|vm_compute in HW; discriminate..].
  destruct (cache_close_releases (Client.New []) 100 (sample_world [good_server 5]) c) as (c' & HC & He & _).
  - exact (tcp_Dialer Client.DefaultDialTimeout).
  - refine (cr_execute _ _ _ _ _ _ _ _ _ (cr_new _ _ _) _ HW). reflexivity.
  - exists c, c'. split; [|split; [exact HC|exact He]]. vm_compute in HW. injection HW as <- <-. reflexivity.
Defined.

(** A cached session is only reused for the same backend. In every state the
    cache reaches, the session found under the key of a backend with a NUL-free
    address was opened to that very address with that very password: a request
    with another password never runs on a session it could not have opened. *)
Theorem cache_isolates_backends (client : Client) (idle : Z) (w0 : World) (c : sessionCache)
    (b : Backend) (e : nat) (en : cacheEntry) (s : Session) :
  Dialer (transport client) → cache_reach client idle w0 c → no_nul (b_Addr b) = true →
  c_entries c !! cacheKey b = Some e → c_heap c !! e = Some en → e_session en = Some s →
  s_address s = b_Addr b ∧ s_password s = b_Password b.
Proof.
  intros HD Hr%cache_reach_inv Hn He Hen Hse; [|done].
  destruct (ci_key _ _ _ _ Hr _ _ He) as (en' & Hen' & Hkey). simplify_eq.
  destruct (ci_session _ _ _ _ Hr _ _ _ Hen Hse) as [[_ _ Hk Hn' _] _].
  assert (session_backend s = b) as <- by (apply cacheKey_inj; [done|done|congruence]). done.
Qed.

Lemma cache_isolates_backends_witness :
  ∃ c en s, warm = Ret (Ok "pong") c ∧ c_heap c !! 0%nat = Some en ∧ e_session en = Some s ∧
            s_address s = "a" ∧ s_password s = "pw".
Proof.
  destruct warm as [r c| |] eqn:HW; [|vm_compute in HW; discriminate..].
  pose proof (cache_isolates_backends (Client.New []) 100 (sample_world [good_server 5]) c
    (mkBackend "a" "pw") 0) as Hthm.
  assert (cache_reach (Client.New []) 100 (sample_world [good_server 5]) c) as Hr
    by (refine (cr_execute _ _ _ _ _ _ _ _ _ (cr_new _ _ _) _ HW); reflexivity).
  vm_compute in HW. injection HW as <- <-. eexists _, _, _.
  split; [reflexivity|]. split; [reflexivity|]. split; [reflexivity|].
  eapply Hthm; [exact (tcp_Dialer Client.DefaultDialTimeout)|exact Hr|reflexivity..].
Defined.
