(* ===== verification/CacheConc.v ===== *)
(** * rconhttp/cache.go: requests, the reaper and Close at the same time

    A request runs [execute] in its own goroutine, the reaper runs [reap] at every
    tick, and [close] may run beside them. Two kinds of mutex order them: the
    cache's [mu], held only around code that does not wait ([get], the first half
    of [reap] and of [closeAll], each one step here), and each entry's [mu], held
    from [e.mu.Lock()] to the unlock ([q_emu] says by whom). [qpc] is where a
    goroutine stands; [qstep t ch st] is its next step, [ch] resolving what the
    source leaves open: which entry a [range] visits, which case a [select] takes.

    Under an entry's mutex a request makes three moves: it dials when there is no
    session ([acquire]), runs the command, and drops the session on a connection
    error. Another goroutine can run between any two of them, and time can pass. *)

From S2P Require Import Prelude GoErrors GoIO GoNet Packet Options Conn World Client Cache.

Local Open Scope Z_scope.

Inductive qpc :=
  (* execute *)
  | QGet (ctx : Context) (b : Backend) (cmd : string)
  | QLock (e : nat) (t0 : Z) (ctx : Context) (b : Backend) (cmd : string)   (* got e at t0 *)
  | QAcquire (e : nat) (t0 : Z) (ctx : Context) (b : Backend) (cmd : string)
  | QRun (e : nat) (t0 : Z) (ctx : Context) (b : Backend) (cmd : string) (s : Session)
  | QDrop (e : nat) (t0 : Z) (b : Backend) (err : error)
  | QUnlock (e : nat) (t0 : Z) (b : Backend) (r : result string)
  | QRet (r : result string)
  (* the goroutine of startReaper *)
  | RSelect
  | RNow                                     (* reap: before time.Now() *)
  | RCollect (cutoff : Z)
  | REvict (todo : gset nat)
  | RHold (e : nat) (todo : gset nat)
  | RStop
  (* close *)
  | KOnce
  | KSwap
  | KEvict (todo : gset nat)
  | KHold (e : nat) (todo : gset nat)
  | KRet.

Record qstate := mkQ {
  q_cache : sessionCache;
  q_emu : gmap nat nat;
  q_threads : gmap nat qpc
}.

Inductive qchoice := Next | Pick (e : nat) | Tick.

Definition qnow (st : qstate) : Z := w_now (c_world (q_cache st)).

Definition qgoto (t : nat) (p : qpc) (c : sessionCache) (st : qstate) : qstate :=
  mkQ c (q_emu st) (<[t := p]> (q_threads st)).
Definition qlock (t e : nat) (st : qstate) : option qstate :=
  match q_emu st !! e with
  | None => Some (mkQ (q_cache st) (<[e := t]> (q_emu st)) (q_threads st))
  | Some _ => None
  end.
Definition qunlock (e : nat) (st : qstate) : qstate :=
  mkQ (q_cache st) (delete e (q_emu st)) (q_threads st).

(** A step that returns moves on; one that blocks waits. *)
Definition then_ {A} (o : outcome sessionCache A) (k : A → sessionCache → qstate) : option qstate :=
  match o with Ret a c => Some (k a c) | Blocks _ | Diverges => None end.

Section CacheConc.
Context (client : Client) (idle : Z).

(** [execute] after [e.mu.Lock()]: the entry's session, dialed when there is none. *)
Definition acquire (e : nat) (ctx : Context) (b : Backend) : GoM sessionCache (result Session) :=
  do en <- gets (λ c, c_heap c !! e);
  match en ≫= e_session with
  | Some s => ret (Ok s)
  | None =>
      try s <- in_world (DialSession client ctx (b_Addr b) (b_Password b));
      do _ <- modify (put_session e (Some s));
      ret (Ok s)
  end.

(** [e.session.Close()]; [e.session = nil], after a connection error. *)
Definition drop_session (e : nat) : GoM sessionCache unit :=
  do en <- gets (λ c, c_heap c !! e);
  match en ≫= e_session with
  | Some s =>
      do _ <- on_session e s SessionClose;
      modify (put_session e None)
  | None => λ _, Diverges
  end.

Definition step_request (t : nat) (p : qpc) (st : qstate) : option qstate :=
  let c := q_cache st in
  match p with
  | QGet ctx b cmd => then_ (get b c) (λ e c', qgoto t (QLock e (qnow st) ctx b cmd) c' st)
  | QLock e t0 ctx b cmd => qgoto t (QAcquire e t0 ctx b cmd) c <$> qlock t e st
  | QAcquire e t0 ctx b cmd =>
      then_ (acquire e ctx b c) (λ r c',
        qgoto t (match r with
                 | Ok s => QRun e t0 ctx b cmd s
                 | Err err => QUnlock e t0 b (Err err)
                 end) c' st)
  | QRun e t0 ctx b cmd s =>
      then_ (on_session e s (SessionExecute ctx cmd) c) (λ r c',
        qgoto t (match r with
                 | Err err => if isConnError err then QDrop e t0 b err else QUnlock e t0 b (Err err)
                 | Ok out => QUnlock e t0 b (Ok out)
                 end) c' st)
  | QDrop e t0 b err =>
      then_ (drop_session e c) (λ _ c', qgoto t (QUnlock e t0 b (Err err)) c' st)
  | QUnlock e t0 b r => Some (qgoto t (QRet r) c (qunlock e st))
  | _ => None
  end.

(** [select] takes the tick or, once [done] is closed, the end. *)
Definition step_reaper (t : nat) (p : qpc) (ch : qchoice) (st : qstate) : option qstate :=
  let c := q_cache st in
  match p, ch with
  | RSelect, Tick => Some (qgoto t RNow c st)
  | RSelect, Next => if c_done c then Some (qgoto t RStop c st) else None
  | RNow, Next => Some (qgoto t (RCollect (qnow st - idle)) c st)
  | RCollect cutoff, Next =>
      then_ (collect cutoff c) (λ es c', qgoto t (REvict (list_to_set es)) c' st)
  | REvict todo, Pick e =>
      if decide (e ∈ todo) then qgoto t (RHold e (todo ∖ {[e]})) c <$> qlock t e st else None
  | REvict todo, Next => if decide (todo = ∅) then Some (qgoto t RSelect c st) else None
  | RHold e todo, Next =>
      then_ (evict e c) (λ _ c', qgoto t (REvict todo) c' (qunlock e st))
  | _, _ => None
  end.

Definition step_qclose (t : nat) (p : qpc) (ch : qchoice) (st : qstate) : option qstate :=
  let c := q_cache st in
  match p, ch with
  | KOnce, Next => Some (qgoto t KSwap (set_done c) st)
  | KSwap, Next =>
      Some (qgoto t (KEvict (list_to_set (map_to_list (c_entries c)).*2)) (set_entries ∅ c) st)
  | KEvict todo, Pick e =>
      if decide (e ∈ todo) then qgoto t (KHold e (todo ∖ {[e]})) c <$> qlock t e st else None
  | KEvict todo, Next => if decide (todo = ∅) then Some (qgoto t KRet c st) else None
  | KHold e todo, Next =>
      then_ (evict e c) (λ _ c', qgoto t (KEvict todo) c' (qunlock e st))
  | _, _ => None
  end.

Definition qstep (t : nat) (ch : qchoice) (st : qstate) : option qstate :=
  p ← q_threads st !! t;
  match p with
  | QGet _ _ _ | QLock _ _ _ _ _ | QAcquire _ _ _ _ _ | QRun _ _ _ _ _ _ | QDrop _ _ _ _
  | QUnlock _ _ _ _ | QRet _ =>
      match ch with Next => step_request t p st | _ => None end
  | RSelect | RNow | RCollect _ | REvict _ | RHold _ _ | RStop => step_reaper t p ch st
  | KOnce | KSwap | KEvict _ | KHold _ _ | KRet => step_qclose t p ch st
  end.

(** [startReaper]: goroutine 0, only with a positive idle timeout. *)
Definition startReaper (c : sessionCache) : qstate :=
  if reaps idle then mkQ c ∅ {[0%nat := RSelect]} else mkQ c ∅ ∅.

(** What [New] leaves behind in a world. *)
Definition qinit (w : World) : qstate := startReaper (newCache w).

Inductive qcall := CallRequest (ctx : Context) (b : Backend) (cmd : string) | CallCacheClose.
Definition qentry (k : qcall) : qpc :=
  match k with CallRequest ctx b cmd => QGet ctx b cmd | CallCacheClose => KOnce end.

Definition qstart (t : nat) (k : qcall) (st : qstate) : qstate :=
  qgoto t (qentry k) (q_cache st) st.

Definition qwait (d : Z) (st : qstate) : qstate :=
  let c := q_cache st in
  mkQ (set_world (set_clock (qnow st + d) (c_world c)) c) (q_emu st) (q_threads st).

Inductive qmove : qstate → qstate → Prop :=
  | qmove_go t ch st st' : qstep t ch st = Some st' → qmove st st'
  | qmove_request t ctx b cmd st :
      q_threads st !! t = None → no_nul (b_Addr b) = true →
      qmove st (qstart t (CallRequest ctx b cmd) st)
  | qmove_close t st : q_threads st !! t = None → qmove st (qstart t CallCacheClose st)
  | qmove_wait d st : 0 ≤ d → qmove st (qwait d st).

(** Goroutines take the steps listed, skipping those not enabled. *)
Fixpoint qrun (l : list (nat * qchoice)) (st : qstate) : qstate :=
  match l with
  | [] => st
  | (t, ch) :: l => qrun l (default st (qstep t ch st))
  end.
End CacheConc.
