(* ===== verification/CacheConcProps.v ===== *)
(** * The session cache under concurrency

    [qinv] holds in every interleaving: an entry's session is touched only by the
    goroutine that holds the entry's mutex, and the session a request runs on was
    opened for its backend. [ginv] holds as long as requests are answered within
    the idle timeout and [Close] comes last: every session is found from the map
    or is in the hands of a goroutine about to close it. Without that condition a
    request can be left with an entry the reaper has already taken off the map;
    [reaper_orphans_session] is such a run. *)

From S2P Require Import Prelude GoErrors GoIO GoNet Packet Options Conn ConnProps World Client ClientProps SessionProps Cache CacheProps CacheConc.

Local Open Scope Z_scope.

(** ** What a goroutine holds *)

Definition holds (p : qpc) : option nat :=
  match p with
  | QAcquire e _ _ _ _ | QRun e _ _ _ _ _ | QDrop e _ _ _ | QUnlock e _ _ _ => Some e
  | RHold e _ | KHold e _ => Some e
  | _ => None
  end.

(** The entry, time and backend of a request between [get] and its return. *)
Definition inflight (p : qpc) : option (nat * Z * Backend) :=
  match p with
  | QLock e t0 _ b _ | QAcquire e t0 _ b _ | QRun e t0 _ b _ _ | QDrop e t0 b _ | QUnlock e t0 b _ =>
      Some (e, t0, b)
  | _ => None
  end.

(** The entries a goroutine has taken off the map and will still close. *)
Definition custody (p : qpc) : gset nat :=
  match p with
  | REvict todo | KEvict todo => todo
  | RHold e todo | KHold e todo => {[e]} ∪ todo
  | _ => ∅
  end.

Definition is_reaper (p : qpc) : bool :=
  match p with RSelect | RNow | RCollect _ | REvict _ | RHold _ _ | RStop => true | _ => false end.

Definition session_at (e : nat) (c : sessionCache) : option Session := c_heap c !! e ≫= e_session.

Definition entry_for (e : nat) (b : Backend) (c : sessionCache) : Prop :=
  no_nul (b_Addr b) = true ∧ ∃ en, c_heap c !! e = Some en ∧ cacheKey (e_backend en) = cacheKey b.

(** What a goroutine knows where it stands. *)
Definition wf (p : qpc) (c : sessionCache) : Prop :=
  match p with
  | QGet _ b _ => no_nul (b_Addr b) = true
  | QLock e _ _ b _ | QAcquire e _ _ b _ | QUnlock e _ b _ => entry_for e b c
  | QRun e _ _ b _ s => entry_for e b c ∧ session_at e c = Some s
  | QDrop e _ b _ => entry_for e b c ∧ is_Some (session_at e c)
  | _ => True
  end.

(** Between [c] and [c'] only the sessions of entries in [touch] changed. *)
Definition keeps_entries (touch : option nat) (c c' : sessionCache) : Prop :=
  ∀ e en, c_heap c !! e = Some en →
    ∃ en', c_heap c' !! e = Some en' ∧ e_backend en' = e_backend en ∧
           (touch ≠ Some e → e_session en' = e_session en) ∧
           (e_lastUsed en' = e_lastUsed en ∨ e_lastUsed en' = w_now (c_world c)).

Lemma keeps_entries_refl touch c : keeps_entries touch c c.
Proof. intros e en Hen. exists en. split_and!; auto. Qed.

Lemma keeps_entries_heap touch c c' : c_heap c' = c_heap c → keeps_entries touch c c'.
Proof. intros Hh e en Hen. exists en. rewrite Hh. split_and!; auto. Qed.

Lemma keeps_put e s w c : keeps_entries (Some e) c (put_session e s (set_world w c)).
Proof.
  intros e' en Hen. simpl. destruct (decide (e' = e)) as [->|Hne].
  - rewrite list_lookup_alter_eq, Hen. simpl. eexists. split_and!; [done|done| |by left]. by intros [].
  - rewrite list_lookup_alter_ne by done. exists en. split_and!; auto.
Qed.

Lemma entry_for_keeps touch e b c c' : keeps_entries touch c c' → entry_for e b c → entry_for e b c'.
Proof.
  intros Hk (Hn & en & Hen & Hkey). split; [done|]. destruct (Hk _ _ Hen) as (en' & Hen' & Hb & _).
  exists en'. by rewrite Hb.
Qed.

Lemma session_at_keeps touch e c c' :
  keeps_entries touch c c' → touch ≠ Some e → is_Some (c_heap c !! e) →
  session_at e c' = session_at e c.
Proof.
  intros Hk Ht [en Hen]. destruct (Hk _ _ Hen) as (en' & Hen' & _ & Hs & _).
  unfold session_at. rewrite Hen, Hen'. simpl. by apply Hs.
Qed.

Lemma wf_keeps touch p c c' :
  keeps_entries touch c c' → (∀ e, holds p = Some e → touch ≠ Some e) → wf p c → wf p c'.
Proof.
  intros Hk Hh. destruct p; simpl in *; try done; try (by apply entry_for_keeps with touch).
  all: intros [He Hs]; split; [by apply entry_for_keeps with touch c|].
  all: rewrite (session_at_keeps touch _ c c'); [done..|by apply Hh|].
  all: destruct He as (_ & en & -> & _); by eexists.
Qed.

(** ** What each action does to the cache *)

Section Actions.
Context (client : Client) `{!Dialer (transport client)} (base : list slot).

(** The sequential invariant, with no claim on which entries are in the map. *)
Definition cinv_any (c : sessionCache) : Prop := ∃ out, cinv client base out c.

Lemma cinv_weaken out out' c : (∀ e, e ∈ out → e ∈ out') → cinv client base out c → cinv client base out' c.
Proof.
  intros Hsub [Hb Hk Hi Hs Ho]. split; [done..| |done].
  intros e en s Hen Hse. destruct (Hs _ _ _ Hen Hse) as [? [?|?]]; auto.
Qed.

(** An action under entry [e]'s mutex. *)
Record acts (e : nat) (c c' : sessionCache) : Prop := {
  ac_inv : cinv_any c';
  ac_keeps : keeps_entries (Some e) c c';
  ac_map : c_entries c' = c_entries c;
  ac_len : length (c_heap c') = length (c_heap c);
  ac_done : c_done c' = c_done c
}.

(** No other entry gets a session. *)
Lemma acts_session e e' s c c' :
  acts e c c' → e' ≠ e → session_at e' c' = Some s → session_at e' c = Some s.
Proof.
  intros [_ Hk _ Hlen _] Hne Hs. rewrite <- Hs. symmetry. eapply session_at_keeps; [done|congruence|].
  apply lookup_lt_is_Some. rewrite <- Hlen. apply lookup_lt_is_Some.
  unfold session_at in Hs. destruct (c_heap c' !! e'); [by eexists|done].
Qed.

Lemma get_acts b c e c' :
  cinv_any c → no_nul (b_Addr b) = true → get b c = Ret e c' →
  cinv_any c' ∧ keeps_entries None c c' ∧ entry_for e b c' ∧ c_world c' = c_world c ∧
  c_done c' = c_done c ∧ c_entries c' !! cacheKey b = Some e ∧
  (∀ key e', c_entries c !! key = Some e' → c_entries c' !! key = Some e') ∧
  (∀ e' s, session_at e' c' = Some s → is_Some (session_at e' c)) ∧
  (∀ en, c_heap c' !! e = Some en → e_lastUsed en = w_now (c_world c)).
Proof.
  intros [out Hc] Hn HG. destruct (get_inv _ _ _ _ _ _ _ Hc HG) as (Hc' & Hw & en & Hen & Hk & Hm).
  split; [by exists out|]. split; [|split; [by split; eauto|split_and!; try done]].
  - clear Hc' Hw Hen Hk Hm. revert HG. unfold get. case_match eqn:He; intros [= <- <-]; intros e' en' Hen'; simpl.
    + destruct (decide (e' = n)) as [->|Hne].
      * rewrite list_lookup_alter_eq, Hen'. simpl. eexists. split_and!; try done. by right.
      * rewrite list_lookup_alter_ne by done. exists en'. split_and!; try done. by left.
    + exists en'. split_and!; try done; [by apply lookup_app_l_Some|by left].
  - revert HG. unfold get. by case_match; intros [= <- <-].
  - revert HG. unfold get. case_match eqn:He; intros [= <- <-]; simpl; [done|].
    intros key e' Hke. rewrite lookup_insert_ne; [done|congruence].
  - revert HG. unfold get, session_at. case_match eqn:He; intros [= <- <-]; simpl; intros e' s.
    + destruct (decide (e' = n)) as [->|Hne]; [rewrite list_lookup_alter_eq|by rewrite list_lookup_alter_ne; eauto].
      destruct (c_heap c !! n); [|done]. simpl. eauto.
    + destruct (decide (e' < length (c_heap c))%nat); [rewrite lookup_app_l by done; eauto|].
      rewrite lookup_app_r by lia. destruct (e' - length (c_heap c))%nat; done.
  - revert HG. unfold get. case_match eqn:He; intros [= <- <-]; simpl; intros en0.
    + rewrite list_lookup_alter_eq. destruct (c_heap c !! n); intros [= <-]. done.
    + rewrite list_lookup_middle by done. by intros [= <-].
Qed.

Lemma acquire_acts e ctx b c r c' :
  cinv_any c → entry_for e b c → acquire client e ctx b c = Ret r c' →
  acts e c c' ∧ match r with Ok s => session_at e c' = Some s | Err _ => True end.
Proof.
  intros [out Hc] (Hn & en & Hen & Hkey) HA.
  apply (cinv_weaken _ (e :: out)) in Hc; [|intros; by right].
  assert (e ∈ e :: out ∨ c_entries c !! cacheKey (e_backend en) = Some e) as Hin by (left; left).
  unfold acquire, gets, bind at 1 in HA. rewrite Hen in HA. simpl in HA.
  destruct (e_session en) as [s|] eqn:Hse.
  { unfold ret in HA. simplify_eq. split; [split|]; [by eexists|apply keeps_entries_refl|done..|].
    unfold session_at. by rewrite Hen. }
  apply bind_inv in HA as ([s|err] & c1 & HD & HK);
    apply zoom_inv in HD as (w1 & HD & ->); apply bind_inv in HD as ([l|err2] & w2 & HD & HL);
    unfold ret in HL; simplify_eq; rewrite dial_connect in HD; apply connect_inv in HD; try done.
  - destruct HD as (-> & cn & Hg & Hset). unfold bind, modify, ret in HK. simplify_eq.
    split; [split|].
    + exists (e :: out). by eapply (cinv_dialed _ _ _ c e en).
    + apply keeps_put.
    + done.
    + simpl. by rewrite length_alter.
    + done.
    + unfold session_at. simpl. by rewrite list_lookup_alter_eq, Hen.
  - unfold ret in HK. simplify_eq. split; [split|done].
    + exists (e :: out). by eapply (cinv_leaves_closed _ _ _ c e en).
    + by apply keeps_entries_heap.
    + done.
    + done.
    + done.
Qed.

Lemma run_acts e s ctx cmd c r c' :
  cinv_any c → session_at e c = Some s → on_session e s (SessionExecute ctx cmd) c = Ret r c' →
  acts e c c' ∧ is_Some (session_at e c').
Proof.
  intros [out Hc] Hs HR. unfold session_at in Hs. destruct (c_heap c !! e) as [en|] eqn:Hen; [|done].
  simpl in Hs. unfold on_session in HR.
  destruct (SessionExecute ctx cmd (s, c_world c)) as [r0 [s1 w1]|[]|] eqn:HE; simplify_eq.
  split; [split|].
  - exists out. by eapply (cinv_executed client base out c e en s).
  - apply keeps_put.
  - done.
  - simpl. by rewrite length_alter.
  - done.
  - unfold session_at. simpl. rewrite list_lookup_alter_eq, Hen. by eexists.
Qed.

Lemma evict_acts e c :
  cinv_any c → is_Some (c_heap c !! e) →
  ∃ c', evict e c = Ret tt c' ∧ acts e c c' ∧ session_at e c' = None.
Proof.
  intros [out Hc] [en Hen]. unfold evict, gets, bind at 1. rewrite Hen. simpl.
  destruct (e_session en) as [s|] eqn:Hse.
  - destruct (evict_inv _ _ _ _ _ _ _ Hc Hen Hse) as (c1 & HE & Hc1 & Hm & Ho & en' & Hen' & Hn' & Hb').
    exists c1. split; [done|]. split; [|unfold session_at; by rewrite Hen'].
    unfold on_session, bind, modify in HE. destruct (SessionClose (s, c_world c)) as [r [s1 w1]|[]|]; simplify_eq.
    rewrite put_session_put in *. split; [by exists out|apply keeps_put|done|simpl; by rewrite length_alter|done].
  - exists c. split; [done|]. split; [split; [by exists out|apply keeps_entries_refl|done..]|].
    unfold session_at. by rewrite Hen.
Qed.

(** Dropping a session after an error is evicting it. *)
Lemma drop_evict e c s : session_at e c = Some s → drop_session e c = evict e c.
Proof.
  unfold session_at, drop_session, evict, gets, bind at 1 3. intros ->. done.
Qed.

Lemma unmap_any m c : cinv_any c → m ⊆ c_entries c → cinv_any (set_entries m c).
Proof.
  intros [out [Hb Hk Hi Hs Ho]] Hsub. exists (out ++ seq 0 (length (c_heap c))). split; simpl; [done| |done| |done].
  - intros key e He. apply Hk. by eapply lookup_weaken.
  - intros e en s Hen Hse. destruct (Hs _ _ _ Hen Hse) as [? _]. split; [done|]. left.
    apply elem_of_app. right. apply elem_of_seq. apply lookup_lt_Some in Hen. lia.
Qed.
End Actions.

(** ** Invariants of every interleaving *)

Definition in_heap (es : gset nat) (c : sessionCache) : Prop := ∀ e, e ∈ es → is_Some (c_heap c !! e).

Lemma in_heap_keeps touch es c c' : keeps_entries touch c c' → in_heap es c → in_heap es c'.
Proof. intros Hk He e [en Hen]%He. destruct (Hk _ _ Hen) as (en' & ? & _). by eexists. Qed.

(** The entry mutexes before and after a step of [t] from [p] to [q]. *)
Definition mu_step (t : nat) (p q : qpc) (emu emu' : gmap nat nat) : Prop :=
  match holds p, holds q with
  | None, None => emu' = emu
  | Some e, Some e' => e' = e ∧ emu' = emu
  | None, Some e => emu !! e = None ∧ emu' = <[e := t]> emu
  | Some e, None => emu' = delete e emu
  end.

(** The mutex of an entry belongs to the one goroutine that stands inside it. *)
Definition owners (emu : gmap nat nat) (ths : gmap nat qpc) : Prop :=
  ∀ e t, emu !! e = Some t ↔ ∃ p, ths !! t = Some p ∧ holds p = Some e.

Lemma owners_step t p q emu emu' ths :
  owners emu ths → ths !! t = Some p → mu_step t p q emu emu' → owners emu' (<[t := q]> ths).
Proof.
  unfold owners. intros HO Hp Hm e t1.
  assert (∀ e, emu !! e = Some t ↔ holds p = Some e) as Hself.
  { intros e1. rewrite HO. split; [intros (p1 & ? & ?); congruence|by exists p]. }
  destruct (decide (t1 = t)) as [->|Hne].
  - rewrite lookup_insert_eq. trans (holds q = Some e); [|split; [by exists q|by intros (? & [= <-] & ?)]].
    unfold mu_step in Hm. destruct (holds p) as [ep|] eqn:Ep, (holds q) as [eq|] eqn:Eq.
    + destruct Hm as [-> ->]. apply Hself.
    + rewrite Hm, lookup_delete_Some, Hself. split; [|done]. intros [? [=]]. congruence.
    + destruct Hm as [_ ->]. rewrite lookup_insert_Some, Hself. split; [|intros [= ->]; by left].
      intros [[-> _]|[_ ?]]; done.
    + rewrite Hm. apply Hself.
  - rewrite lookup_insert_ne by done. rewrite <- (HO e t1).
    unfold mu_step in Hm. destruct (holds p) as [ep|] eqn:Ep, (holds q) as [eq|] eqn:Eq.
    + by destruct Hm as [-> ->].
    + rewrite Hm, lookup_delete_Some. split; [tauto|]. intros He. split; [|done]. intros ->.
      assert (emu !! e = Some t) by (by apply Hself). congruence.
    + destruct Hm as [? ->]. rewrite lookup_insert_Some. split.
      * intros [[_ ?]|[_ ?]]; congruence.
      * intros He. right. split; [congruence|done].
    + by rewrite Hm.
Qed.

(** What a step does to the map and to who must close what. *)
Inductive qtrans (idle now : Z) (p q : qpc) (c c' : sessionCache) : Prop :=
  | tr_entry :
      c_entries c' = c_entries c →
      (inflight q = inflight p ∨ inflight q = None) →
      (∀ e s, session_at e c' = Some s →
         is_Some (session_at e c) ∨ (∃ t0 b, inflight p = Some (e, t0, b))) →
      (∀ e, e ∈ custody p → e ∈ custody q ∨ session_at e c' = None) →
      (∀ cutoff, q = RCollect cutoff → p = RNow ∧ cutoff = now - idle) →
      qtrans idle now p q c c'
  | tr_get e ctx b cmd :
      p = QGet ctx b cmd → q = QLock e now ctx b cmd → keeps_entries None c c' →
      c_entries c' !! cacheKey b = Some e →
      (∀ key e', c_entries c !! key = Some e' → c_entries c' !! key = Some e') →
      (∀ e' s, session_at e' c' = Some s → is_Some (session_at e' c)) →
      (∀ en, c_heap c' !! e = Some en → e_lastUsed en = now) →
      qtrans idle now p q c c'
  | tr_take cutoff m :
      p = RCollect cutoff ∨ p = KSwap → inflight q = None → c_heap c' = c_heap c →
      c_entries c' = m → m ⊆ c_entries c → (∀ cut, q ≠ RCollect cut) →
      (∀ key e, c_entries c !! key = Some e → m !! key = Some e ∨
         (e ∈ custody q ∧ (p = KSwap ∨ ∃ en, c_heap c !! e = Some en ∧ e_lastUsed en < cutoff))) →
      qtrans idle now p q c c'.

Section Invariant.
Context (client : Client) `{!Dialer (transport client)} (idle : Z) (base : list slot).

Abbreviation qstep := (qstep client idle).
Abbreviation cinv_any := (cinv_any client base).

Record qinv (st : qstate) : Prop := {
  qi_cache : cinv_any (q_cache st);
  qi_mu : owners (q_emu st) (q_threads st);
  qi_wf t p : q_threads st !! t = Some p → wf p (q_cache st) ∧ in_heap (custody p) (q_cache st)
}.

(** A step of goroutine [t]. *)
Record qeffect (t : nat) (p q : qpc) (st st' : qstate) : Prop := {
  ef_at : q_threads st !! t = Some p;
  ef_to : q_threads st' = <[t := q]> (q_threads st);
  ef_cache : cinv_any (q_cache st');
  ef_keeps : keeps_entries (holds p) (q_cache st) (q_cache st');
  ef_wf : wf q (q_cache st') ∧ in_heap (custody q) (q_cache st');
  ef_mu : mu_step t p q (q_emu st) (q_emu st');
  ef_trans : qtrans idle (qnow st) p q (q_cache st) (q_cache st');
  ef_done : c_done (q_cache st) = true → c_done (q_cache st') = true;
  ef_role : is_reaper q = is_reaper p
}.

Lemma qinv_effect t p q st st' : qinv st → qeffect t p q st st' → qinv st'.
Proof.
  intros [Hc Hmu Hwf] [Hp Hto Hc' Hk [Hw Hh] Hm _ _ _]. split; [done| |].
  - rewrite Hto. by eapply owners_step.
  - intros t1 p1. rewrite Hto. destruct (decide (t1 = t)) as [->|Hne].
    { rewrite lookup_insert_eq. intros [= <-]. done. }
    rewrite lookup_insert_ne by done. intros Hp1. destruct (Hwf _ _ Hp1) as [Hw1 Hh1].
    split; [|by eapply in_heap_keeps]. eapply wf_keeps; [done| |done].
    intros e He Hpe. assert (q_emu st !! e = Some t1) by (apply Hmu; eauto).
    assert (q_emu st !! e = Some t) by (apply Hmu; eauto). congruence.
Qed.
(** A request's action under the entry's mutex. *)
Lemma effect_request t p q e t0 b st c' :
  q_threads st !! t = Some p → inflight p = Some (e, t0, b) → holds p = Some e →
  inflight q = Some (e, t0, b) → holds q = Some e → custody p = ∅ → custody q = ∅ →
  is_reaper q = is_reaper p →
  acts client base e (q_cache st) c' → wf q c' →
  qeffect t p q st (qgoto t q c' st).
Proof.
  intros Hp Hip Hhp Hiq Hhq Hcp Hcq Hr Ha Hw. split; try done.
  - apply Ha.
  - rewrite Hhp. apply Ha.
  - split; [done|]. rewrite Hcq. intros e' ?. set_solver.
  - unfold mu_step. by rewrite Hhp, Hhq.
  - apply tr_entry; [apply Ha|left; congruence| |rewrite Hcp; set_solver|by intros cut ->].
    intros e' s Hs. destruct (decide (e' = e)) as [->|Hne]; [right; eauto|left].
    rewrite (acts_session _ _ _ _ _ _ _ Ha Hne Hs). by eexists.
  - simpl. by rewrite (ac_done _ _ _ _ _ Ha).
Qed.

(** A step that leaves the cache's map and heap alone. *)
Lemma effect_idle t p q st c' emu' :
  qinv st → q_threads st !! t = Some p →
  c_entries c' = c_entries (q_cache st) → c_heap c' = c_heap (q_cache st) →
  c_world c' = c_world (q_cache st) → (c_done (q_cache st) = true → c_done c' = true) →
  mu_step t p q (q_emu st) emu' → wf q c' → custody p = custody q → is_reaper q = is_reaper p →
  (inflight q = inflight p ∨ inflight q = None) →
  (∀ cutoff, q = RCollect cutoff → p = RNow ∧ cutoff = qnow st - idle) →
  qeffect t p q st (mkQ c' emu' (<[t := q]> (q_threads st))).
Proof.
  intros HI Hp Hm Hh Hw Hd Hmu Hwf Hc Hr Hi Hcut. split; try done.
  - destruct (qi_cache _ HI) as [out [Hb Hk Hij Hs Ho]]. exists out.
    split; simpl; rewrite ?Hm, ?Hh, ?Hw; done.
  - by apply keeps_entries_heap.
  - split; [done|]. rewrite <- Hc. eapply in_heap_keeps; [by apply (keeps_entries_heap None)|].
    exact (proj2 (qi_wf _ HI _ _ Hp)).
  - simpl. apply tr_entry; [done|done| |rewrite Hc; auto|done].
    intros e s. unfold session_at. rewrite Hh. intros ->. left. by eexists.
Qed.

Lemma step_request_effect t p st st' :
  qinv st → q_threads st !! t = Some p → step_request client t p st = Some st' →
  ∃ q, qeffect t p q st st'.
Proof.
  intros HI Hp. destruct (qi_wf _ HI _ _ Hp) as [Hw _].
  destruct p as [ctx b cmd|e t0 ctx b cmd|e t0 ctx b cmd|e t0 ctx b cmd s|e t0 b err|e t0 b r| | | | | | | | | | | |];
    simpl; try done.
  - destruct (get b (q_cache st)) as [e c'| |] eqn:HG; intros [= <-].
    destruct (get_acts client base _ _ _ _ (qi_cache _ HI) Hw HG)
      as (Hc & Hk & He & Hwo & Hd & Hm & Hmm & Hs & Hl).
    eexists. split; try done.
    + by apply (tr_get _ _ _ _ _ _ e ctx b cmd).
    + simpl. by rewrite Hd.
  - unfold qlock. destruct (q_emu st !! e) eqn:Hl; intros [= <-]. eexists. unfold qgoto; cbn [q_emu q_threads]. apply effect_idle; try done. by left.
  - destruct (acquire client e ctx b (q_cache st)) as [r c'| |] eqn:HA; intros [= <-].
    destruct (acquire_acts client base _ _ _ _ _ _ (qi_cache _ HI) Hw HA) as [Ha Hs].
    assert (entry_for e b c') as He by (eapply entry_for_keeps; [apply Ha|done]).
    eexists. eapply effect_request; try done; by destruct r.
  - destruct Hw as [Hw Hs].
    destruct (on_session e s (SessionExecute ctx cmd) (q_cache st)) as [r c'| |] eqn:HR; intros [= <-].
    destruct (run_acts client base _ _ _ _ _ _ _ (qi_cache _ HI) Hs HR) as [Ha Hs'].
    assert (entry_for e b c') as He by (eapply entry_for_keeps; [apply Ha|done]).
    eexists. eapply effect_request; try done; destruct r as [|err]; simpl; try done; by destruct (isConnError err).
  - destruct Hw as [Hw [s Hs]]. rewrite (drop_evict _ _ _ Hs).
    destruct (evict_acts client base e _ (qi_cache _ HI)) as (c' & -> & Ha & _).
    { destruct Hw as (_ & en & -> & _). by eexists. }
    intros [= <-]. eexists. eapply effect_request; try done.
    eapply entry_for_keeps; [apply Ha|done].
  - intros [= <-]. eexists. unfold qgoto, qunlock; cbn [q_emu q_threads]. apply effect_idle; try done. by right.
Qed.

(** Closing the session of an entry taken off the map. *)
Lemma effect_evict t p q e todo st c' :
  q_threads st !! t = Some p → holds p = Some e → custody p = {[e]} ∪ todo → inflight p = None →
  holds q = None → custody q = todo → inflight q = None → (∀ cut, q ≠ RCollect cut) → wf q c' →
  is_reaper q = is_reaper p → in_heap (custody p) (q_cache st) →
  acts client base e (q_cache st) c' → session_at e c' = None →
  qeffect t p q st (qgoto t q c' (qunlock e st)).
Proof.
  intros Hp Hhp Hcp Hip Hhq Hcq Hiq Hq Hw Hr Hh Ha Hs. split; try done.
  - apply Ha.
  - rewrite Hhp. apply Ha.
  - split; [done|]. eapply in_heap_keeps; [apply Ha|]. intros e' He'. apply Hh. rewrite Hcp, <- Hcq. by apply elem_of_union_r.
  - unfold mu_step. by rewrite Hhp, Hhq.
  - apply tr_entry; [apply Ha|by right| | |intros cut ?; by destruct (Hq cut)].
    + intros e' s Hs'. simpl in Hs'. left. destruct (decide (e' = e)) as [->|Hne]; [congruence|].
      rewrite (acts_session _ _ _ _ _ _ _ Ha Hne Hs'). by eexists.
    + intros e' He'. rewrite Hcq. rewrite Hcp in He'.
      apply elem_of_union in He' as [->%elem_of_singleton|?]; [by right|by left].
  - simpl. by rewrite (ac_done _ _ _ _ _ Ha).
Qed.

Lemma step_reaper_effect t p ch st st' :
  qinv st → q_threads st !! t = Some p → step_reaper idle t p ch st = Some st' →
  ∃ q, qeffect t p q st st'.
Proof.
  intros HI Hp. destruct (qi_wf _ HI _ _ Hp) as [_ Hh].
  destruct p as [| | | | | | | | |cutoff|todo|e todo| | | | | |], ch as [|e'|]; simpl; try done.
  - destruct (c_done (q_cache st)); intros [= <-]. eexists. apply effect_idle; try done. by left.
  - intros [= <-]. eexists. apply effect_idle; try done. by left.
  - intros [= <-]. eexists. apply effect_idle; try done; [by left|]. by intros cut [= ->].
  - intros [= <-]. set (c := q_cache st) in *.
    set (m := filter (λ ke, ¬ stale cutoff (c_heap c) ke.2) (c_entries c)).
    assert (∀ key e, c_entries c !! key = Some e → m !! key = Some e ∨
      (e ∈ custody (REvict (list_to_set (map_to_list (filter (λ ke, stale cutoff (c_heap c) ke.2) (c_entries c))).*2))
       ∧ stale cutoff (c_heap c) e)) as Htake.
    { intros key e He. destruct (decide (stale cutoff (c_heap c) e)) as [Hst|Hst].
      - right. split; [|done]. simpl. apply elem_of_list_to_set, list_elem_of_fmap. exists (key, e).
        split; [done|]. apply elem_of_map_to_list. by apply map_lookup_filter_Some.
      - left. by apply map_lookup_filter_Some. }
    eexists. split; try done.
    + apply unmap_any; [apply HI|apply map_filter_subseteq].
    + by apply keeps_entries_heap.
    + split; [done|]. intros e. simpl. rewrite elem_of_list_to_set, list_elem_of_fmap.
      intros ([key e1] & -> & He%elem_of_map_to_list). apply map_lookup_filter_Some in He as [He _].
      destruct (qi_cache _ HI) as [out Hc]. destruct (ci_key _ _ _ _ Hc _ _ He) as (en & Hen & _). by exists en.
    + apply (tr_take _ _ _ _ _ _ cutoff m); try done; [by left|apply map_filter_subseteq|].
      intros key e [?|[? Hst]]%Htake; [by left|right]. split; [done|]. right.
      unfold stale in Hst. destruct (c_heap c !! e) as [en|] eqn:Hen; [by exists en|done].
  - case_decide; intros [= <-]. eexists. apply effect_idle; try done. by left.
  - case_decide; [|done]. unfold qlock. destruct (q_emu st !! e') eqn:Hl; intros [= <-].
    eexists. unfold qgoto; cbn [q_emu q_threads]. apply effect_idle; try done; [|by left].
    simpl. rewrite <- union_difference_L; [done|]. by apply singleton_subseteq_l.
  - destruct (evict_acts client base e _ (qi_cache _ HI)) as (c' & -> & Ha & Hs).
    { apply Hh. simpl. set_solver. }
    intros [= <-]. eexists. by eapply effect_evict.
Qed.

Lemma step_qclose_effect t p ch st st' :
  qinv st → q_threads st !! t = Some p → step_qclose t p ch st = Some st' →
  ∃ q, qeffect t p q st st'.
Proof.
  intros HI Hp. destruct (qi_wf _ HI _ _ Hp) as [_ Hh].
  destruct p as [| | | | | | | | | | | | | | |todo|e todo|], ch as [|e'|]; simpl; try done.
  - intros [= <-]. eexists. apply effect_idle; try done. by left.
  - intros [= <-]. eexists. split; try done.
    + apply unmap_any; [apply HI|apply map_empty_subseteq].
    + by apply keeps_entries_heap.
    + split; [done|]. intros e. simpl. rewrite elem_of_list_to_set, list_elem_of_fmap.
      intros ([key e1] & -> & He%elem_of_map_to_list).
      destruct (qi_cache _ HI) as [out Hc]. destruct (ci_key _ _ _ _ Hc _ _ He) as (en & Hen & _). by exists en.
    + apply (tr_take _ _ _ _ _ _ 0 ∅); try done; [by right|apply map_empty_subseteq|].
      intros key e He. right. split; [|by left]. simpl. apply elem_of_list_to_set, list_elem_of_fmap.
      exists (key, e). split; [done|]. by apply elem_of_map_to_list.
  - case_decide; intros [= <-]. eexists. apply effect_idle; try done. by left.
  - case_decide; [|done]. unfold qlock. destruct (q_emu st !! e') eqn:Hl; intros [= <-].
    eexists. unfold qgoto; cbn [q_emu q_threads]. apply effect_idle; try done; [|by left].
    simpl. rewrite <- union_difference_L; [done|]. by apply singleton_subseteq_l.
  - destruct (evict_acts client base e _ (qi_cache _ HI)) as (c' & -> & Ha & Hs).
    { apply Hh. simpl. set_solver. }
    intros [= <-]. eexists. by eapply effect_evict.
Qed.

Lemma qstep_effect t ch st st' :
  qinv st → qstep t ch st = Some st' → ∃ p q, qeffect t p q st st'.
Proof.
  intros HI. unfold CacheConc.qstep. destruct (q_threads st !! t) as [p|] eqn:Hp; [|done]. simpl.
  intros Hs. exists p.
  destruct p; try (destruct ch; [|done..]; by eapply step_request_effect);
    first [by eapply step_reaper_effect|by eapply step_qclose_effect].
Qed.

Lemma qinv_new p t st :
  qinv st → q_threads st !! t = None → holds p = None → wf p (q_cache st) → custody p = ∅ →
  qinv (qgoto t p (q_cache st) st).
Proof.
  intros [Hc Hmu Hwf] Ht Hh Hw Hcu. split; [done| |].
  - intros e t1. simpl. rewrite (Hmu e t1). destruct (decide (t1 = t)) as [->|Hne].
    + rewrite lookup_insert_eq, Ht. split; [by intros (? & ? & _)|]. intros (p1 & [= <-] & ?). congruence.
    + by rewrite lookup_insert_ne.
  - intros t1 p1. simpl. destruct (decide (t1 = t)) as [->|Hne].
    + rewrite lookup_insert_eq. intros [= <-]. split; [done|]. rewrite Hcu. intros e ?. set_solver.
    + rewrite lookup_insert_ne by done. apply Hwf.
Qed.

Lemma qinv_move st st' : qinv st → qmove client idle st st' → qinv st'.
Proof.
  intros HI Hm. destruct Hm as [t ch st st' Hs|t ctx b cmd st Ht Hn|t st Ht|d st Hd].
  - destruct (qstep_effect _ _ _ _ HI Hs) as (p & q & He). by eapply qinv_effect.
  - by apply qinv_new.
  - by apply qinv_new.
  - destruct HI as [[out [Hb Hk Hinj Hse Ho]] Hmu Hwf]. split; [|done|done].
    exists out. split; [done..| |done].
    intros e en s Hen Hs. destruct (Hse _ _ _ Hen Hs) as [[] ?]. by repeat split.
Qed.
End Invariant.

Definition qreach (client : Client) (idle : Z) (w0 : World) : qstate → Prop :=
  rtc (qmove client idle) (qinit idle w0).

Lemma qinv_init client idle w0 : qinv client (w_slots w0) (qinit idle w0).
Proof.
  assert (cinv_any client (w_slots w0) (newCache w0)) as Hc by (exists []; by apply cinv_new).
  unfold qinit, startReaper. destruct (reaps idle); split; try done.
  - intros e t. simpl. rewrite lookup_empty. split; [done|].
    intros (p & [_ <-]%lookup_singleton_Some & ?). done.
  - intros t p. simpl. intros [_ <-]%lookup_singleton_Some. done.
  - intros e t. simpl. rewrite !lookup_empty. split; [done|]. intros (p & ? & _). done.
Qed.

Lemma qinv_reach client idle w0 st `{!Dialer (transport client)} :
  qreach client idle w0 st → qinv client (w_slots w0) st.
Proof.
  intros Hr. eapply (rtc_ind_r (qinv client (w_slots w0))); [|by eauto using qinv_move|exact Hr].
  apply qinv_init.
Qed.

(** ** Runs in which requests are answered within the idle timeout *)

(** Every request in flight was received at most the idle timeout ago; matters
    only when there is a reaper. *)
Definition answered (idle : Z) (st : qstate) : Prop :=
  reaps idle = true →
  ∀ t p e t0 b, q_threads st !! t = Some p → inflight p = Some (e, t0, b) → qnow st - t0 ≤ idle.

(** [Close] takes the entries only when no request is in flight, as its
    documentation asks. *)
Definition orderly (st : qstate) : Prop :=
  ∀ t, q_threads st !! t = Some KSwap →
  ∀ t' p, q_threads st !! t' = Some p → inflight p = None.

(** A move of such a run: the clock does not run backwards. *)
Definition swift (client : Client) (idle : Z) (st st' : qstate) : Prop :=
  qmove client idle st st' ∧ qnow st ≤ qnow st' ∧ answered idle st ∧ orderly st.

Record ginv (idle : Z) (st : qstate) : Prop := {
  gi_map t p e t0 b :
    q_threads st !! t = Some p → inflight p = Some (e, t0, b) →
    c_entries (q_cache st) !! cacheKey b = Some e;
  gi_time t p e t0 b :
    q_threads st !! t = Some p → inflight p = Some (e, t0, b) →
    t0 ≤ qnow st ∧ ∀ en, c_heap (q_cache st) !! e = Some en → t0 ≤ e_lastUsed en;
  gi_cut t cutoff : q_threads st !! t = Some (RCollect cutoff) → cutoff ≤ qnow st - idle;
  gi_track e s :
    session_at e (q_cache st) = Some s →
    (∃ key, c_entries (q_cache st) !! key = Some e) ∨
    (∃ t p, q_threads st !! t = Some p ∧ e ∈ custody p);
  gi_role t p : q_threads st !! t = Some p → is_reaper p = true → reaps idle = true
}.

(** What keeps time and the sessions of entries keeps a session's tracking. *)
Lemma track_other (t : nat) (p q : qpc) (ths : gmap nat qpc) e :
  ths !! t = Some p → (e ∈ custody p → e ∈ custody q) →
  (∃ t1 p1, ths !! t1 = Some p1 ∧ e ∈ custody p1) →
  ∃ t1 p1, <[t := q]> ths !! t1 = Some p1 ∧ e ∈ custody p1.
Proof.
  intros Hp Hpq (t1 & p1 & H1 & He). destruct (decide (t1 = t)) as [->|Hne].
  - exists t, q. rewrite lookup_insert_eq. split; [done|]. apply Hpq. congruence.
  - exists t1, p1. by rewrite lookup_insert_ne.
Qed.

Section Swift.
Context (client : Client) `{!Dialer (transport client)} (idle : Z) (base : list slot).

(** The map after a step still has the entry of every request in flight. *)
Lemma ginv_map t p q st st' :
  qinv client base st → ginv idle st → answered idle st → orderly st → qeffect client idle base t p q st st' →
  ∀ t1 p1 e t0 b, q_threads st' !! t1 = Some p1 → inflight p1 = Some (e, t0, b) →
    c_entries (q_cache st') !! cacheKey b = Some e.
Proof.
  intros HI HG Ha Ho HE t1 p1 e t0 b. rewrite (ef_to _ _ _ _ _ _ _ _ HE).
  pose proof (ef_at _ _ _ _ _ _ _ _ HE) as Hp.
  destruct (ef_trans _ _ _ _ _ _ _ _ HE) as [Hm Hi _ _ _|e1 ctx b1 cmd -> -> _ Hme Hmm _ _|cutoff m Hpt Hiq Hh Hm Hsub _ Htake].
  - rewrite Hm. destruct (decide (t1 = t)) as [->|Hne].
    + rewrite lookup_insert_eq. intros [= <-] Hq. destruct Hi as [Hi|Hi]; [|congruence].
      apply (gi_map _ _ HG t p e t0 b); congruence.
    + rewrite lookup_insert_ne by done. apply (gi_map _ _ HG).
  - destruct (decide (t1 = t)) as [->|Hne].
    + rewrite lookup_insert_eq. intros [= <-] [= <- <- <-]. done.
    + rewrite lookup_insert_ne by done. intros H1 H2. eapply Hmm, (gi_map _ _ HG); done.
  - destruct (decide (t1 = t)) as [->|Hne]; [rewrite lookup_insert_eq; intros [= <-]; congruence|].
    rewrite lookup_insert_ne, Hm by done. intros H1 H2.
    pose proof (gi_map _ _ HG _ _ _ _ _ H1 H2) as Hin.
    destruct (Htake _ _ Hin) as [?|(_ & [->|(en & Hen & Hlt)])]; [done| |].
    + rewrite (Ho _ Hp _ _ H1) in H2. done.
    + destruct Hpt as [->| ->]; [|rewrite (Ho _ Hp _ _ H1) in H2; done].
      destruct (gi_time _ _ HG _ _ _ _ _ H1 H2) as [_ Hlast]. specialize (Hlast _ Hen).
      pose proof (gi_cut _ _ HG _ _ Hp). pose proof (gi_role _ _ HG _ _ Hp eq_refl) as Hr.
      specialize (Ha Hr _ _ _ _ _ H1 H2). lia.
Qed.

Lemma ginv_time t p q st st' :
  qinv client base st → ginv idle st → qnow st ≤ qnow st' → qeffect client idle base t p q st st' →
  ∀ t1 p1 e t0 b, q_threads st' !! t1 = Some p1 → inflight p1 = Some (e, t0, b) →
    t0 ≤ qnow st' ∧ ∀ en, c_heap (q_cache st') !! e = Some en → t0 ≤ e_lastUsed en.
Proof.
  intros HI HG Hnow HE t1 p1 e t0 b. rewrite (ef_to _ _ _ _ _ _ _ _ HE).
  pose proof (ef_at _ _ _ _ _ _ _ _ HE) as Hp.
  assert (∀ t2 p2, q_threads st !! t2 = Some p2 → inflight p2 = Some (e, t0, b) →
    t0 ≤ qnow st' ∧ ∀ en, c_heap (q_cache st') !! e = Some en → t0 ≤ e_lastUsed en) as Hold.
  { intros t2 p2 H1 H2. destruct (gi_time _ _ HG _ _ _ _ _ H1 H2) as [Ht Hl]. split; [lia|].
    intros en' Hen'. assert (entry_for e b (q_cache st)) as (_ & en & Hen & _).
    { destruct (qi_wf _ _ _ HI _ _ H1) as [Hw _]. destruct p2; simpl in *; simplify_eq; try done; apply Hw. }
    destruct (ef_keeps _ _ _ _ _ _ _ _ HE _ _ Hen) as (en2 & Hen2 & _ & _ & Hlast). simplify_eq.
    specialize (Hl _ Hen). unfold qnow in Ht. destruct Hlast as [->| ->]; lia. }
  destruct (decide (t1 = t)) as [->|Hne]; [|rewrite lookup_insert_ne by done; apply Hold].
  rewrite lookup_insert_eq. intros [= <-] Hq.
  destruct (ef_trans _ _ _ _ _ _ _ _ HE) as [_ Hi _ _ _|e1 ctx b1 cmd -> -> _ _ _ _ Hlast|cutoff m _ Hiq _ _ _ _ _].
  - destruct Hi as [Hi|Hi]; [|congruence]. apply (Hold t p); congruence.
  - injection Hq as <- <- <-. split; [done|]. intros en Hen. rewrite (Hlast _ Hen). lia.
  - congruence.
Qed.

Lemma ginv_track t p q st st' :
  ginv idle st → qeffect client idle base t p q st st' →
  ∀ e s, session_at e (q_cache st') = Some s →
    (∃ key, c_entries (q_cache st') !! key = Some e) ∨
    (∃ t1 p1, q_threads st' !! t1 = Some p1 ∧ e ∈ custody p1).
Proof.
  intros HG HE e s Hs. rewrite (ef_to _ _ _ _ _ _ _ _ HE).
  pose proof (ef_at _ _ _ _ _ _ _ _ HE) as Hp.
  destruct (ef_trans _ _ _ _ _ _ _ _ HE) as [Hm _ Hse Hcu _|e1 ctx b1 cmd -> -> _ _ Hmm Hse _|cutoff m Hpt _ Hh Hm Hsub _ Htake].
  - rewrite Hm. destruct (Hse _ _ Hs) as [[s0 Hs0]|(t0 & b & Hi)]; [|left; eexists; by eapply (gi_map _ _ HG)].
    destruct (gi_track _ _ HG _ _ Hs0) as [?|Hc]; [by left|right].
    eapply track_other; [done| |done]. intros [?|?]%Hcu; [done|congruence].
  - destruct (Hse _ _ Hs) as [s0 Hs0]. destruct (gi_track _ _ HG _ _ Hs0) as [[key Hk]|Hc].
    + left. exists key. by apply Hmm.
    + right. by eapply track_other.
  - assert (session_at e (q_cache st) = Some s) as Hs0 by (unfold session_at in *; by rewrite Hh in Hs).
    destruct (gi_track _ _ HG _ _ Hs0) as [[key Hk]|Hc].
    + destruct (Htake _ _ Hk) as [?|[? _]]; [left; exists key; congruence|right].
      exists t, q. by rewrite lookup_insert_eq.
    + right. eapply track_other; [done| |done]. intros Hin. exfalso.
      destruct Hpt as [->| ->]; simpl in Hin; set_solver.
Qed.
Lemma ginv_cut t p q st st' :
  ginv idle st → qnow st ≤ qnow st' → qeffect client idle base t p q st st' →
  ∀ t1 cutoff, q_threads st' !! t1 = Some (RCollect cutoff) → cutoff ≤ qnow st' - idle.
Proof.
  intros HG Hnow HE t1 cutoff. rewrite (ef_to _ _ _ _ _ _ _ _ HE).
  destruct (decide (t1 = t)) as [->|Hne].
  - rewrite lookup_insert_eq. intros [= ->].
    destruct (ef_trans _ _ _ _ _ _ _ _ HE) as [_ _ _ _ Hc|? ? ? ? _ ? _ _ _ _ _|? ? _ _ _ _ _ Hq _]; [|done|by destruct (Hq cutoff)].
    destruct (Hc _ eq_refl) as [_ ->]. lia.
  - rewrite lookup_insert_ne by done. intros Hc%(gi_cut _ _ HG). lia.
Qed.

Lemma ginv_effect t p q st st' :
  qinv client base st → ginv idle st → answered idle st → orderly st → qnow st ≤ qnow st' →
  qeffect client idle base t p q st st' → ginv idle st'.
Proof.
  intros HI HG Ha Ho Hnow HE. split.
  - by eapply ginv_map.
  - by eapply ginv_time.
  - by eapply ginv_cut.
  - by eapply ginv_track.
  - intros t1 p1. rewrite (ef_to _ _ _ _ _ _ _ _ HE). destruct (decide (t1 = t)) as [->|Hne].
    + rewrite lookup_insert_eq. intros [= <-]. rewrite (ef_role _ _ _ _ _ _ _ _ HE).
      apply (gi_role _ _ HG t), HE.
    + rewrite lookup_insert_ne by done. apply (gi_role _ _ HG).
Qed.

(** A new goroutine that is not in flight. *)
Lemma ginv_new t p st :
  ginv idle st → q_threads st !! t = None → inflight p = None → is_reaper p = false →
  ginv idle (qgoto t p (q_cache st) st).
Proof.
  intros [Hm Ht Hc Htr Hr] Hfree Hi Hnr.
  assert (∀ t1 p1, <[t := p]> (q_threads st) !! t1 = Some p1 → p1 = p ∨ q_threads st !! t1 = Some p1) as Hin.
  { intros t1 p1 [[_ ->]|[_ ?]]%lookup_insert_Some; auto. }
  split; simpl.
  - intros t1 p1 e t0 b [->|H1]%Hin H2; [congruence|eauto].
  - intros t1 p1 e t0 b [->|H1]%Hin H2; [congruence|eauto].
  - intros t1 cutoff [H1|H1]%Hin; [subst; done|eauto].
  - intros e s [?|(t1 & p1 & H1 & H2)]%Htr; [by left|right]. exists t1, p1.
    rewrite lookup_insert_ne; [done|]. congruence.
  - intros t1 p1 [->|H1]%Hin H2; [congruence|eauto].
Qed.

Lemma ginv_swift st st' :
  qinv client base st → ginv idle st → swift client idle st st' → ginv idle st'.
Proof.
  intros HI HG (Hm & Hnow & Ha & Ho).
  destruct Hm as [t ch st st' Hs|t ctx b cmd st Ht Hn|t st Ht|d st Hd].
  - destruct (qstep_effect _ _ _ _ _ _ _ HI Hs) as (p & q & He). by eapply ginv_effect.
  - by apply ginv_new.
  - by apply ginv_new.
  - destruct HG as [Hm Ht Hc Htr Hr]. split; [done| |intros t cut H%Hc; lia|done|done].
    intros t p e t0 b H1 H2. destruct (Ht _ _ _ _ _ H1 H2). split; [lia|done].
Qed.
End Swift.

Definition swift_reach (client : Client) (idle : Z) (w0 : World) : qstate → Prop :=
  rtc (swift client idle) (qinit idle w0).

Lemma ginv_init idle w0 : ginv idle (qinit idle w0).
Proof.
  unfold qinit, startReaper. destruct (reaps idle) eqn:Hr; split; try done; simpl.
  all: try (intros t p e t0 b [_ <-]%lookup_singleton_Some; done).
  by intros t cutoff [_ [=]]%lookup_singleton_Some.
Qed.

Lemma swift_inv client idle w0 st `{!Dialer (transport client)} :
  swift_reach client idle w0 st → qinv client (w_slots w0) st ∧ ginv idle st.
Proof.
  intros Hr. eapply (rtc_ind_r (λ st, qinv client (w_slots w0) st ∧ ginv idle st)); [| |exact Hr].
  - split; [apply qinv_init|apply ginv_init].
  - intros st1 st2 _ Hs [HI HG]. split; [by eapply qinv_move; [done|done|apply Hs]|by eapply ginv_swift].
Qed.

(** ** A request that meets nobody *)

(** Steps of one goroutine only. *)
Definition solo (client : Client) (idle : Z) (t : nat) : qstate → qstate → Prop :=
  rtc (λ st st', qstep client idle t Next st = Some st').

Section Alone.
Context (client : Client) (idle : Z) (t : nat).

Lemma solo_step p q c emu ths st' :
  ths !! t = Some p → inflight p ≠ None ∨ (∃ ctx b cmd, p = QGet ctx b cmd) →
  step_request client t p (mkQ c emu ths) = Some q → solo client idle t q st' →
  solo client idle t (mkQ c emu ths) st'.
Proof.
  intros Hp Hr Hs. apply rtc_l. unfold qstep. simpl. rewrite Hp. simpl.
  destruct p; simpl in *; try done; destruct Hr as [?|(? & ? & ? & ?)]; done.
Qed.

(** From [e.mu.Lock()] on: the end of [execute], with the mutex released. *)
Definition finishes (c c' : sessionCache) (p : qpc) (r : result string) : Prop :=
  ∀ emu ths, ths !! t = Some p →
  ∃ st', solo client idle t (mkQ c emu ths) st' ∧ q_cache st' = c' ∧
         (∀ e, holds p = Some e → q_emu st' = delete e emu) ∧ q_threads st' !! t = Some (QRet r).

Lemma finishes_step c c1 c' p q r :
  inflight p ≠ None → is_Some (holds p) → holds q = holds p →
  (∀ emu ths, step_request client t p (mkQ c emu ths) = Some (qgoto t q c1 (mkQ c emu ths))) →
  finishes c1 c' q r → finishes c c' p r.
Proof.
  intros Hi Hh Hq Hs HF emu ths Hp. destruct (HF emu (<[t := q]> ths)) as (st' & Hso & Hc & He & Ht);
    [by rewrite lookup_insert_eq|].
  exists st'. split_and!; [|done| |done].
  - eapply solo_step; [done|by left|apply Hs|exact Hso].
  - intros e. rewrite <- Hq. apply He.
Qed.

Lemma finishes_unlock c e t0 b r : finishes c c (QUnlock e t0 b r) r.
Proof.
  intros emu ths Hp. eexists. split_and!; [eapply solo_step; [done|by left|done|apply rtc_refl]|done| |].
  - by intros e1 [= <-].
  - simpl. by rewrite lookup_insert_eq.
Qed.

Lemma finishes_run c e t0 ctx b cmd s r c' :
  (do r <- on_session e s (SessionExecute ctx cmd);
   match r with
   | Err err =>
       if isConnError err then
         do en <- gets (λ c, c_heap c !! e);
         match en ≫= e_session with
         | Some s => do _ <- on_session e s SessionClose; do _ <- modify (put_session e None); ret (Err err)
         | None => λ _, Diverges
         end
       else ret (Err err)
   | Ok out => ret (Ok out)
   end) c = Ret r c' →
  finishes c c' (QRun e t0 ctx b cmd s) r.
Proof.
  intros (r1 & c1 & HR & HK)%bind_inv.
  apply (finishes_step _ c1 _ _
    (match r1 with Err err => if isConnError err then QDrop e t0 b err else QUnlock e t0 b (Err err)
                 | Ok out => QUnlock e t0 b (Ok out) end)); [done|by eexists| | |].
  - destruct r1 as [|err]; [done|]. by destruct (isConnError err).
  - intros emu ths. simpl. rewrite HR. done.
  - destruct r1 as [out|err]; [|destruct (isConnError err)];
      try (unfold ret in HK; simplify_eq; apply finishes_unlock).
    apply bind_inv in HK as (en & c2 & Hen & HK). unfold gets in Hen. simplify_eq.
    destruct (_ ≫= e_session) as [s1|] eqn:Hs1; [|done].
    apply bind_inv in HK as (r2 & c3 & H3 & HK). unfold modify, ret, bind in HK. simplify_eq.
    eapply finishes_step; [done|by eexists| | |apply finishes_unlock]; [done|].
    intros emu ths. simpl. unfold drop_session, gets, bind at 1. rewrite Hs1. simpl.
    by rewrite (bind_Ret _ _ _ _ _ H3).
Qed.

Lemma finishes_use c e t0 ctx b cmd r c' :
  use client e ctx b cmd c = Ret r c' → finishes c c' (QAcquire e t0 ctx b cmd) r.
Proof.
  intros HU. unfold use, gets, bind at 1 in HU. apply bind_inv in HU as (rs & c1 & HA & HU).
  assert (acquire client e ctx b c = Ret rs c1) as HQ by exact HA.
  apply (finishes_step _ c1 _ _
    (match rs with Ok s => QRun e t0 ctx b cmd s | Err err => QUnlock e t0 b (Err err) end));
    [done|by eexists|by destruct rs| |].
  - intros emu ths. simpl. by rewrite HQ.
  - destruct rs as [s|err]; [by apply finishes_run|]. unfold ret in HU. simplify_eq. apply finishes_unlock.
Qed.
End Alone.

(** ** Sample runs *)

(** Checks of a state, for runs that are evaluated. *)
Definition ages (st : qstate) : bool :=
  forallb (λ tp, match inflight tp.2 with Some _ => false | None => true end) (map_to_list (q_threads st)).
Definition swapping (st : qstate) : bool :=
  existsb (λ tp, match tp.2 with KSwap => true | _ => false end) (map_to_list (q_threads st)).
Definition young (idle : Z) (st : qstate) : bool :=
  forallb (λ tp, match inflight tp.2 with Some (_, t0, _) => qnow st - t0 <=? idle | None => true end)
    (map_to_list (q_threads st)).
Definition swift_ok (idle : Z) (st : qstate) : bool := young idle st && (negb (swapping st) || ages st).

Lemma swift_ok_spec idle st : swift_ok idle st = true → answered idle st ∧ orderly st.
Proof.
  unfold swift_ok. rewrite andb_true_iff. intros [Hy Ho]. split.
  - intros _ t p e t0 b Ht Hi. unfold young in Hy. rewrite forallb_forall in Hy.
    specialize (Hy (t, p)). rewrite <- list_elem_of_In, elem_of_map_to_list in Hy. specialize (Hy Ht).
    simpl in Hy. rewrite Hi in Hy. lia.
  - intros t Ht t' p Ht'. apply orb_true_iff in Ho as [Ho|Ho].
    + apply negb_true_iff in Ho. assert (swapping st = true); [|congruence].
      apply existsb_exists. exists (t, KSwap). by rewrite <- list_elem_of_In, elem_of_map_to_list.
    + unfold ages in Ho. rewrite forallb_forall in Ho. specialize (Ho (t', p)).
      rewrite <- list_elem_of_In, elem_of_map_to_list in Ho. specialize (Ho Ht'). simpl in Ho.
      by destruct (inflight p).
Qed.

Fixpoint swift_run (client : Client) (idle : Z) (l : list (nat * qchoice)) (st : qstate) : bool :=
  match l with
  | [] => true
  | (t, ch) :: l =>
      let st' := default st (qstep client idle t ch st) in
      swift_ok idle st && (qnow st <=? qnow st') && swift_run client idle l st'
  end.

Lemma swift_run_spec client idle l st :
  swift_run client idle l st = true → rtc (swift client idle) st (qrun client idle l st).
Proof.
  revert st. induction l as [|[t ch] l IH]; intros st; cbn [swift_run qrun]; [intros; apply rtc_refl|].
  rewrite !andb_true_iff. intros [[Hok Hn] Hl]. specialize (IH _ Hl).
  destruct (qstep client idle t ch st) as [st'|] eqn:Hs; simpl in *; [|done].
  eapply rtc_l; [|exact IH]. destruct (swift_ok_spec _ _ Hok). split_and!; [by econstructor|lia|done|done].
Qed.

Lemma qrun_reach client idle l st : rtc (qmove client idle) st (qrun client idle l st).
Proof.
  revert st. induction l as [|[t ch] l IH]; intros st; cbn [qrun]; [apply rtc_refl|].
  destruct (qstep client idle t ch st) eqn:Hs; simpl; [|apply IH]. eapply rtc_l; [by econstructor|apply IH].
Qed.

(** Two requests for one backend whose server takes until time 25 to answer, with
    an idle timeout of [idle]. *)
Definition plain : Client := Client.New [].
Definition backend : Backend := mkBackend "a" "pw".
Definition slow_world : World := sample_world [good_server 25; good_server 30].
Definition two_requests (idle : Z) : qstate :=
  qstart 2 (CallRequest Background backend "two")
    (qstart 1 (CallRequest Background backend "one") (qinit idle slow_world)).

Lemma two_requests_reach idle : qreach plain idle slow_world (two_requests idle).
Proof.
  unfold qreach, two_requests, qinit, startReaper.
  eapply rtc_r; [eapply rtc_r; [apply rtc_refl|]|]; apply qmove_request; by destruct (reaps idle).
Qed.

Lemma swift_request t client idle ctx b cmd st :
  q_threads st !! t = None → no_nul (b_Addr b) = true → swift_ok idle st = true →
  swift client idle st (qstart t (CallRequest ctx b cmd) st).
Proof.
  intros Ht Hn [Ha Ho]%swift_ok_spec. split_and!; [by constructor|unfold qnow; simpl; lia|done|done].
Qed.

Lemma two_requests_swift idle : swift_reach plain idle slow_world (two_requests idle).
Proof.
  unfold swift_reach, two_requests, qinit, startReaper.
  eapply rtc_r; [eapply rtc_r; [apply rtc_refl|apply (swift_request 1)]|apply (swift_request 2)];
    by destruct (reaps idle).
Qed.

(** The first request is answered at time 25. *)
Definition first_served : list (nat * qchoice) :=
  [(1, Next); (1, Next); (2, Next); (1, Next); (1, Next)]%nat.

(** The reaper then takes the entry off the map, which the second request still
    waits for; the second request runs after the reaper is done with the entry. *)
Definition reaped_between : list (nat * qchoice) :=
  first_served ++ [(0, Tick); (0, Next); (0, Next); (1, Next); (0, Pick 0); (0, Next); (0, Next);
                   (2, Next); (2, Next); (2, Next); (2, Next)]%nat.

Definition close_calls : list (nat * qchoice) := [(3, Next); (3, Next); (3, Pick 0); (3, Next); (3, Next); (0, Next)]%nat.

(** The state after [Close] when the reaper ran in between. *)
Definition orphaned : qstate :=
  qrun plain 10 close_calls (qstart 3 CallCacheClose (qrun plain 10 reaped_between (two_requests 10))).

(** An idle timeout of ten seconds. *)
Definition patient : Z := 10000000000.

(** Both requests are served in turn, then the cache is closed. *)
Definition both_served : qstate :=
  qrun plain patient (first_served ++ [(1, Next); (2, Next); (2, Next); (2, Next); (2, Next)]%nat)
    (two_requests patient).

Definition both_closed : qstate := qrun plain patient close_calls (qstart 3 CallCacheClose both_served).

Lemma closed_swift : swift_reach plain patient slow_world both_closed.
Proof.
  assert (rtc (swift plain patient) (two_requests patient) both_served) as H1
    by (apply swift_run_spec; vm_compute; reflexivity).
  assert (swift plain patient both_served (qstart 3 CallCacheClose both_served)) as H2.
  { split; [apply qmove_close; vm_compute; reflexivity|].
    split; [vm_compute; discriminate|apply swift_ok_spec; vm_compute; reflexivity]. }
  assert (rtc (swift plain patient) (qstart 3 CallCacheClose both_served) both_closed) as H3
    by (apply swift_run_spec; vm_compute; reflexivity).
  unfold swift_reach. etrans; [exact (two_requests_swift patient)|].
  etrans; [exact H1|]. eapply rtc_l; [exact H2|exact H3].
Qed.

(** ** Theorems *)

(** Nothing left to do for a goroutine: it has returned, or it is the reaper
    waiting for its next tick. *)
Definition at_rest (p : qpc) : Prop :=
  match p with QRet _ | RSelect | RStop | KRet => True | _ => False end.

(** C22: in every interleaving of requests (to addresses without NUL bytes, for which
    [cacheKey] is injective), the reaper and [Close], requests for one
    entry run one at a time, and a request only ever runs its command on a session
    that was dialed to its own backend's address with its own password. *)
Theorem cache_requests_exclusive (client : Client) (idle : Z) (w0 : World) (st : qstate) :
  Dialer (transport client) → qreach client idle w0 st →
  (∀ t1 t2 p1 p2 e, q_threads st !! t1 = Some p1 → q_threads st !! t2 = Some p2 →
     holds p1 = Some e → holds p2 = Some e → t1 = t2) ∧
  (∀ t e t0 ctx b cmd s, q_threads st !! t = Some (QRun e t0 ctx b cmd s) →
     s_address s = b_Addr b ∧ s_password s = b_Password b).
Proof.
  intros HD Hr%qinv_reach; [|done]. split.
  - intros t1 t2 p1 p2 e H1 H2 He1 He2.
    assert (q_emu st !! e = Some t1) by (apply (qi_mu _ _ _ Hr); eauto).
    assert (q_emu st !! e = Some t2) by (apply (qi_mu _ _ _ Hr); eauto). congruence.
  - intros t e t0 ctx b cmd s Ht. destruct (qi_wf _ _ _ Hr _ _ Ht) as [[(Hn & en & Hen & Hk) Hs] _].
    unfold session_at in Hs. rewrite Hen in Hs. simpl in Hs.
    destruct (qi_cache _ _ _ Hr) as [out Hc].
    destruct (ci_session _ _ _ _ Hc _ _ _ Hen Hs) as [[_ _ Hk' Hn' _] _].
    assert (session_backend s = b) as <- by (apply cacheKey_inj; [done|done|congruence]). done.
Qed.

Lemma cache_requests_exclusive_witness :
  let st := qrun plain 10 (take 4 first_served) (two_requests 10) in
  (∃ e t0 s, q_threads st !! 1%nat = Some (QRun e t0 Background backend "one" s) ∧
     s_address s = "a" ∧ s_password s = "pw").
Proof.
  intros st. destruct (cache_requests_exclusive plain 10 slow_world st) as [_ Hs].
  - exact (tcp_Dialer Client.DefaultDialTimeout).
  - unfold qreach. etrans; [apply two_requests_reach|apply qrun_reach].
  - destruct (q_threads st !! 1%nat) as [p|] eqn:Hp; [|vm_compute in Hp; discriminate].
    pose proof Hp as Hq. vm_compute in Hq. injection Hq as <-.
    eexists _, _, _. split; [reflexivity|]. exact (Hs _ _ _ _ _ _ _ Hp).
Defined.

(** A request that meets no other is [execute]. From a state in which nobody
    holds an entry's mutex, the goroutine's own steps take it to the result and the
    cache that [execute] computes in one go, and release the mutex. *)
Theorem solo_request_is_execute (client : Client) (idle : Z) (t : nat) (ctx : Context) (b : Backend)
    (cmd : string) (r : result string) (c' : sessionCache) (st : qstate) :
  q_threads st !! t = Some (QGet ctx b cmd) → q_emu st = ∅ →
  execute client ctx b cmd (q_cache st) = Ret r c' →
  ∃ st', solo client idle t st st' ∧ q_cache st' = c' ∧ q_emu st' = ∅ ∧
         q_threads st' !! t = Some (QRet r).
Proof.
  destruct st as [c emu ths]. simpl. intros Ht -> (e & c1 & HG & HU)%bind_inv.
  destruct (finishes_use client idle t _ _ (qnow (mkQ c ∅ ths)) _ _ _ _ _ HU {[e := t]}
    (<[t := QAcquire e (qnow (mkQ c ∅ ths)) ctx b cmd]>
       (<[t := QLock e (qnow (mkQ c ∅ ths)) ctx b cmd]> ths))) as (st' & Hso & Hc & He & Hr);
    [by rewrite lookup_insert_eq|].
  exists st'. split_and!; [|done| |done].
  - eapply solo_step; [done|right; eauto|simpl; by rewrite HG|].
    eapply solo_step; [simpl; by rewrite lookup_insert_eq|by left|done|]. exact Hso.
  - by rewrite (He _ eq_refl), delete_singleton_eq.
Qed.

Lemma solo_request_is_execute_witness :
  ∃ r c' st', execute plain Background backend "one" (q_cache (two_requests 10)) = Ret r c' ∧
    solo plain 10 1 (two_requests 10) st' ∧ q_cache st' = c' ∧ q_threads st' !! 1%nat = Some (QRet r).
Proof.
  destruct (execute plain Background backend "one" (q_cache (two_requests 10))) as [r c'| |] eqn:HE;
    [|vm_compute in HE; discriminate..].
  destruct (solo_request_is_execute plain 10 1 Background backend "one" r c' (two_requests 10))
    as (st' & Hs & Hc & _ & Ht).
  - reflexivity.
  - reflexivity.
  - exact HE.
  - exists r, c', st'. split; [reflexivity|]. split; [exact Hs|]. split; [exact Hc|exact Ht].
Defined.

(** C15: [Handler.Close] releases everything, also with requests (to addresses
    without NUL bytes, for which [cacheKey] is injective) and the reaper running in
    between. If time does not run backwards, every request is answered
    within the idle timeout of its arrival (when there is a reaper) and [Close]
    finds no request in flight, then once every goroutine is at rest and the map
    is empty, every connection the cache has ever opened is closed and no other
    socket was touched. *)
Theorem concurrent_close_releases (client : Client) (idle : Z) (w0 : World) (st : qstate) :
  Dialer (transport client) → swift_reach client idle w0 st →
  (∀ t p, q_threads st !! t = Some p → at_rest p) → c_entries (q_cache st) = ∅ →
  ∃ new, w_slots (c_world (q_cache st)) = w_slots w0 ++ new ∧ Forall (λ s, slot_closed s = true) new.
Proof.
  intros HD [HI HG]%swift_inv Hrest Hempty; [|done].
  destruct (qi_cache _ _ _ HI) as [out [[new Hb] _ _ _ Ho]]. exists new. split; [done|].
  apply Forall_lookup_2. intros i sl Hi. destruct (slot_closed sl) eqn:Hop; [done|exfalso].
  destruct (Ho (length (w_slots w0) + i)%nat sl) as (e & en & s & Hen & Hse & _); [lia| |done|].
  { by rewrite Hb, lookup_app_r, Nat.add_comm, Nat.add_sub by lia. }
  destruct (gi_track _ _ HG e s) as [[key Hk]|(t & p & Hp & Hin)].
  - unfold session_at. by rewrite Hen.
  - by rewrite Hempty in Hk.
  - specialize (Hrest _ _ Hp). destruct p; simpl in *; try done; set_solver.
Qed.

Lemma concurrent_close_releases_witness :
  let st := both_closed in
  q_threads st !! 2%nat = Some (QRet (Ok "pong")) ∧ length (w_slots (c_world (q_cache st))) = 2%nat ∧
  Forall (λ s, slot_closed s = true) (w_slots (c_world (q_cache st))).
Proof.
  intros st. split; [vm_compute; reflexivity|]. split; [vm_compute; reflexivity|].
  destruct (concurrent_close_releases plain patient slow_world st) as (new & Hn & Hf).
  - exact (tcp_Dialer Client.DefaultDialTimeout).
  - exact closed_swift.
  - apply map_Forall_lookup, map_Forall_to_list. vm_compute. repeat constructor.
  - vm_compute. reflexivity.
  - rewrite Hn. exact Hf.
Defined.

(** C36: the reaper can leave a session behind that nothing closes. With an idle
    timeout of 10 and a server that answers after 25, two requests arrive for one
    backend; while the second waits for the first, the reaper takes their entry
    off the map, and after the reaper has closed its session the second request
    dials anew on the entry it still holds. Then both requests return, [Close]
    returns, the reaper stops, the cache is empty, and a connection stays open. *)
Theorem reaper_orphans_session :
  qreach plain 10 slow_world orphaned ∧
  (∀ t p, q_threads orphaned !! t = Some p → at_rest p) ∧
  q_threads orphaned !! 3%nat = Some KRet ∧ c_entries (q_cache orphaned) = ∅ ∧
  ∃ sl, w_slots (c_world (q_cache orphaned)) !! 1%nat = Some sl ∧ slot_closed sl = false.
Proof.
  split_and!.
  - unfold qreach. etrans; [apply two_requests_reach|]. etrans; [apply qrun_reach|].
    eapply rtc_l; [|apply qrun_reach]. apply qmove_close. reflexivity.
  - apply map_Forall_lookup, map_Forall_to_list. vm_compute. repeat constructor.
  - reflexivity.
  - reflexivity.
  - destruct (w_slots (c_world (q_cache orphaned)) !! 1%nat) as [sl|] eqn:Hs;
      [|vm_compute in Hs; discriminate].
    exists sl. split; [done|]. vm_compute in Hs. injection Hs as <-. reflexivity.
Qed.
