(* ===== verification/CacheLive.v ===== *)
(** * Every request to the cache is answered

    No schedule of requests, reaper and [Close] leaves a goroutine waiting for
    ever: whoever waits for an entry's mutex waits for a goroutine that can go on,
    and apart from ticks and new calls the goroutines have only finitely many
    steps to make. [cache_progress] is the first half, the measure below the second. *)

From S2P Require Import Prelude GoErrors GoIO GoNet Packet Options Conn World Client ClientProps SessionProps Cache CacheProps CacheConc CacheConcProps.

Local Open Scope Z_scope.

(** What comes from outside: a tick of the reaper's ticker, a request, a call of
    [Close]. *)
Inductive arrival (client : Client) (idle : Z) (st : qstate) : qstate → Prop :=
  | arrives_tick t st' : qstep client idle t Tick st = Some st' → arrival client idle st st'
  | arrives_request t ctx b cmd :
      q_threads st !! t = None → no_nul (b_Addr b) = true →
      arrival client idle st (qstart t (CallRequest ctx b cmd) st)
  | arrives_close t : q_threads st !! t = None → arrival client idle st (qstart t CallCacheClose st).

(** A step a goroutine makes on its own account, after any wait. *)
Definition advances (client : Client) (idle : Z) (st st' : qstate) : Prop :=
  ∃ t ch, ch ≠ Tick ∧ qstep client idle t ch st = Some st'.

Definition settled (st : qstate) : Prop := map_Forall (λ _ p, at_rest p) (q_threads st).

(** However the goroutines are scheduled and time passes between their steps, with
    at most [n] arrivals they all come to rest: there is always one that can go
    on, and no choice of steps goes on for ever. *)
Inductive settles (client : Client) (idle : Z) : nat → qstate → Prop :=
  | settles_now n st : settled st → settles client idle n st
  | settles_later n st :
      (∀ d, 0 ≤ d → ∃ st', advances client idle (qwait d st) st') →
      (∀ d st', 0 ≤ d → advances client idle (qwait d st) st' → settles client idle n st') →
      (∀ m d st', n = S m → 0 ≤ d → arrival client idle (qwait d st) st' → settles client idle m st') →
      settles client idle n st.

(** ** Somebody can go on *)

Section Progress.
Context (client : Client) (idle : Z) (base : list slot).
Context `{!Dialer (transport client)} `{!ReturningDialer (transport client)}.
Context (Hidle : idleDrain client = false).

Abbreviation qinv := (qinv client base).
Abbreviation advances := (advances client idle).

Lemma acquire_returns e ctx b c : ∃ r c', acquire client e ctx b c = Ret r c'.
Proof.
  unfold acquire, gets, bind at 1. destruct (c_heap c !! e ≫= e_session) as [s|]; [by eexists _, _|].
  destruct (dial_client_returns client ctx (b_Addr b) (b_Password b) (c_world c)) as ([l|err] & w' & HD); [done..| |];
    unfold in_world, zoom, DialSession, bind; rewrite HD; by eexists _, _.
Qed.

Lemma run_returns e s ctx cmd c :
  cinv_any client base c → session_at e c = Some s → ∃ r c', on_session e s (SessionExecute ctx cmd) c = Ret r c'.
Proof.
  intros [out Hc] Hs. unfold session_at in Hs. destruct (c_heap c !! e) as [en|] eqn:Hen; [|done].
  destruct (ci_session _ _ _ _ Hc _ _ _ Hen Hs) as [[Hl Hcl _ _ _] _].
  destruct (SessionExecute_returns ctx cmd s (c_world c)) as (r & s' & w' & HE); [by rewrite Hcl..|done|].
  unfold on_session. rewrite HE. by eexists _, _.
Qed.

(** The goroutine that holds an entry's mutex never waits. *)
Lemma holder_advances t p e st :
  qinv st → q_threads st !! t = Some p → holds p = Some e → ∃ st', qstep client idle t Next st = Some st'.
Proof.
  intros [Hc Hmu Hwf] Hp Hh. destruct (Hwf _ _ Hp) as [Hw Hcu]. unfold qstep. rewrite Hp. simpl.
  destruct p; simpl in Hh; try done; simplify_eq; simpl in Hw, Hcu; unfold step_request, step_reaper, step_qclose.
  - destruct (acquire_returns e ctx b (q_cache st)) as (r & c' & ->). by eexists.
  - destruct (run_returns e s ctx cmd _ Hc (proj2 Hw)) as (r & c' & ->). by eexists.
  - destruct Hw as [(_ & en & Hen & _) [s Hs]]. rewrite (drop_evict _ _ _ Hs).
    destruct (evict_acts _ _ e _ Hc) as (c' & -> & _); by eexists.
  - by eexists.
  - destruct (evict_acts _ _ e _ Hc) as (c' & -> & _); [apply Hcu; set_solver|by eexists].
  - destruct (evict_acts _ _ e _ Hc) as (c' & -> & _); [apply Hcu; set_solver|by eexists].
Qed.

(** Who wants an entry's mutex gets it, or its holder goes on. *)
Lemma lock_advances t e st :
  qinv st → (∃ st', advances st st') ∨ ∃ st', qlock t e st = Some st'.
Proof.
  intros HI. unfold qlock. destruct (q_emu st !! e) as [t1|] eqn:He; [|right; by eexists].
  apply (qi_mu _ _ _ HI) in He as (p1 & Hp1 & Hh). left.
  destruct (holder_advances _ _ _ _ HI Hp1 Hh) as [st' Hs]. by exists st', t1, Next.
Qed.

Lemma cache_progress t p st :
  qinv st → q_threads st !! t = Some p → ¬ at_rest p → ∃ st', advances st st'.
Proof.
  intros HI Hp Hr. destruct (holds p) as [e|] eqn:Hh.
  { destruct (holder_advances _ _ _ _ HI Hp Hh) as [st' Hs]. by exists st', t, Next. }
  assert (∀ ch st', ch ≠ Tick → qstep client idle t ch st = Some st' → ∃ st', advances st st') as Hgo
    by (intros ch st' ? ?; by exists st', t, ch).
  assert (∀ e ch, ch ≠ Tick → (∀ st1, qlock t e st = Some st1 → ∃ st', qstep client idle t ch st = Some st') →
    ∃ st', advances st st') as Hlock.
  { intros e ch Hch Hs. destruct (lock_advances t e st HI) as [?|[st1 Hl]]; [done|].
    destruct (Hs _ Hl) as [st' Hst]. by eapply Hgo. }
  unfold qstep in Hgo, Hlock. rewrite Hp in Hgo, Hlock. simpl in Hgo, Hlock.
  destruct p; simpl in Hr, Hh; try done; unfold step_request, step_reaper, step_qclose in Hgo, Hlock.
  - unfold get in Hgo. destruct (c_entries (q_cache st) !! cacheKey b); by eapply (Hgo Next).
  - eapply (Hlock e Next); [done|]. intros st1 ->. by eexists.
  - by eapply (Hgo Next).
  - by eapply (Hgo Next).
  - destruct (decide (todo = ∅)) as [->|[e He]%set_choose_L]; [by eapply (Hgo Next)|].
    eapply (Hlock e (Pick e)); [done|]. intros st1 ->. rewrite decide_True by done. by eexists.
  - by eapply (Hgo Next).
  - by eapply (Hgo Next).
  - destruct (decide (todo = ∅)) as [->|[e He]%set_choose_L]; [by eapply (Hgo Next)|].
    eapply (Hlock e (Pick e)); [done|]. intros st1 ->. rewrite decide_True by done. by eexists.
Qed.
End Progress.

(** ** Only finitely many steps *)

(** Steps that may still find new entries to close, and all the others. *)
Definition phase (p : qpc) : nat :=
  match p with RNow | KOnce => 2 | QGet _ _ _ | RCollect _ | KSwap => 1 | _ => 0 end%nat.
Definition weight (p : qpc) : nat :=
  match p with
  | QLock _ _ _ _ _ => 5 | QAcquire _ _ _ _ _ => 4 | QRun _ _ _ _ _ _ => 3 | QDrop _ _ _ _ => 2
  | QUnlock _ _ _ _ => 1
  | REvict todo | KEvict todo => 2 * size todo + 2
  | RHold _ todo | KHold _ todo => 2 * size todo + 3
  | RSelect => 1
  | _ => 0
  end%nat.

(** A step of its own brings a goroutine forward. *)
Lemma advances_down client idle st st' :
  advances client idle st st' →
  ∃ t p q, q_threads st !! t = Some p ∧ q_threads st' = <[t := q]> (q_threads st) ∧
    ((phase q < phase p)%nat ∨ phase q = phase p ∧ (weight q < weight p)%nat).
Proof.
  intros (t & ch & Hch & Hs). unfold qstep in Hs. destruct (q_threads st !! t) as [p|] eqn:Hp; [|done]. simpl in Hs.
  unfold step_request, step_reaper, step_qclose, qlock, then_, get, collect in Hs. exists t, p.
  destruct p, ch; try done; repeat case_match; simplify_eq/=; try done;
    (eexists; split; [done|split; [reflexivity|simpl; try lia]]); right;
    (split; [done|]); pose proof (size_taken e todo); set_solver by lia.
Qed.

Lemma cache_total_down client idle st st' :
  advances client idle st st' →
  (total phase (q_threads st') < total phase (q_threads st))%nat ∨
  total phase (q_threads st') = total phase (q_threads st) ∧
  (total weight (q_threads st') < total weight (q_threads st))%nat.
Proof.
  intros (t & p & q & Hp & -> & Hd)%advances_down.
  pose proof (total_move phase t p q _ Hp). pose proof (total_move weight t p q _ Hp). lia.
Qed.

#[global] Instance at_rest_dec p : Decision (at_rest p).
Proof. destruct p; simpl; apply _. Defined.

Lemma arrival_move client idle st st' : arrival client idle st st' → qmove client idle st st'.
Proof. intros []; by econstructor. Qed.

Lemma settles_all client idle base n st :
  Dialer (transport client) → ReturningDialer (transport client) → idleDrain client = false →
  qinv client base st → settles client idle n st.
Proof.
  intros HD HR Hi. revert st. induction n as [n IHn] using lt_wf_ind. intros st.
  remember (total phase (q_threads st)) as a eqn:Ha. revert st Ha.
  induction a as [a IHa] using lt_wf_ind. intros st Ha.
  remember (total weight (q_threads st)) as b eqn:Hb. revert st Ha Hb.
  induction b as [b IHb] using lt_wf_ind. intros st Ha Hb HI.
  destruct (decide (settled st)) as [Hr|(t & p & Hp & Hr)%map_not_Forall]; [by apply settles_now| |apply _].
  assert (∀ d, 0 ≤ d → qinv client base (qwait d st)) as HW by (intros d ?; by apply (qinv_move client idle base st), qmove_wait).
  apply settles_later.
  - intros d Hd. by eapply (cache_progress client idle base Hi t p); [apply HW| |].
  - intros d st' Hd Hs. assert (qinv client base st') as HI'.
    { destruct Hs as (t1 & ch & _ & Hs). eapply qinv_move; [done|by apply (HW d)|by eapply qmove_go]. }
    apply cache_total_down in Hs. simpl in Hs. destruct Hs as [Hlt|[Heq Hlt]].
    + by eapply IHa; [rewrite Ha; exact Hlt| |].
    + by eapply IHb; [rewrite Hb; exact Hlt|congruence| |].
  - intros m d st' -> Hd Hs%arrival_move. apply IHn; [lia|]. eapply qinv_move; [done|by apply (HW d)|done].
Qed.

(** C16: no request waits for ever. In every state that requests, the reaper and
    [Close] can reach, however the goroutines are scheduled and time passes from
    there, with any number of further ticks and calls they all come to rest:
    every request returns, and so does [Close]. It is assumed that the client's
    dialer gives up by itself, as TCP with a dial timeout does, that the client is
    not in read-until-idle mode and that addresses hold no NUL byte. *)
Theorem cache_requests_answered (client : Client) (idle : Z) (w0 : World) (st : qstate) (n : nat) :
  Dialer (transport client) → ReturningDialer (transport client) → idleDrain client = false →
  qreach client idle w0 st → settles client idle n st.
Proof. intros HD HR Hi Hr. by eapply settles_all, qinv_reach. Qed.

Lemma cache_requests_answered_witness :
  settles plain 10 3 (two_requests 10) ∧ ¬ settled (two_requests 10).
Proof.
  split.
  - apply (cache_requests_answered plain 10 slow_world (two_requests 10) 3).
    + exact (tcp_Dialer Client.DefaultDialTimeout).
    + apply tcp_ReturningDialer. vm_compute. discriminate.
    + reflexivity.
    + apply two_requests_reach.
  - intros Hs. exact (Hs 1%nat (QGet Background backend "one") eq_refl).
Defined.
