(* ===== verification/GoStrings.v ===== *)
(** * Package strings

    The functions of [strings] the HTTP handler and the command line use, on
    Go strings as byte sequences. [TrimSpace] trims Unicode white space: a rune
    is recognised by its UTF-8 encoding at the end being trimmed. *)

From S2P Require Import Prelude.

Fixpoint HasPrefix (s p : string) {struct p} : bool :=
  match p, s with
  | EmptyString, _ => true
  | String a p', String b s' => bool_decide (a = b) && HasPrefix s' p'
  | String _ _, EmptyString => false
  end.

Definition TrimPrefix (s p : string) : string :=
  if HasPrefix s p then string_of (drop (len p) (bytes_of s)) else s.

Fixpoint Contains (s sub : string) : bool :=
  HasPrefix s sub || match s with EmptyString => false | String _ s' => Contains s' sub end.

(** The UTF-8 encodings of the white space runes of [unicode.IsSpace]. *)
Definition space_runes : list (list byte) :=
  [[x09]; [x0a]; [x0b]; [x0c]; [x0d]; [x20]; [xc2; x85]; [xc2; xa0]; [xe1; x9a; x80]] ++
  map (λ b, [xe2; x80; b]) [x80; x81; x82; x83; x84; x85; x86; x87; x88; x89; x8a; xa8; xa9; xaf] ++
  [[xe2; x81; x9f]; [xe3; x80; x80]].

(** What is left of [l] after a leading member of [runes], if it has one. *)
Fixpoint strip_one (runes : list (list byte)) (l : list byte) : option (list byte) :=
  match runes with
  | [] => None
  | r :: rs => if decide (take (length r) l = r) then Some (drop (length r) l) else strip_one rs l
  end.

Fixpoint strip (fuel : nat) (runes : list (list byte)) (l : list byte) : list byte :=
  match fuel with
  | 0 => l
  | S fuel' => match strip_one runes l with Some l' => strip fuel' runes l' | None => l end
  end.

Definition trim_left (runes : list (list byte)) (l : list byte) : list byte := strip (length l) runes l.

Definition TrimSpace (s : string) : string :=
  let l := trim_left space_runes (bytes_of s) in
  string_of (rev (trim_left (map (@rev byte) space_runes) (rev l))).

(** [cmp.Or] on strings and ints: the first non-zero value. *)
Fixpoint or_string (l : list string) : string :=
  match l with
  | [] => ""
  | s :: l => if decide (s = "") then or_string l else s
  end.
Fixpoint or_int (l : list Z) : Z :=
  match l with
  | [] => 0
  | x :: l => if (x =? 0)%Z then or_int l else x
  end.

Lemma HasPrefix_split s p : HasPrefix s p = true → ∃ s', s = String.append p s'.
Proof.
  revert s. induction p as [|a p IH]; intros s; simpl; [intros _; by exists s|].
  destruct s as [|b s]; [done|]. intros [->%bool_decide_eq_true (s' & ->)%IH]%andb_true_iff. by exists s'.
Qed.

Lemma HasPrefix_append p s : HasPrefix (String.append p s) p = true.
Proof. induction p as [|a p IH]; simpl; [done|]. by rewrite bool_decide_true, IH. Qed.

Lemma TrimPrefix_append p s : TrimPrefix (String.append p s) p = s.
Proof.
  unfold TrimPrefix. rewrite HasPrefix_append, bytes_of_app. unfold len.
  by rewrite drop_app_length, string_of_bytes_of.
Qed.

(** Trimming leaves no white space rune in front. *)
Lemma strip_one_shorter runes l l' :
  Forall (λ r, r ≠ []) runes → strip_one runes l = Some l' → length l' < length l.
Proof.
  induction 1 as [|r rs Hr _ IH]; simpl; [done|]. case_decide as He; [intros [= <-]|done].
  assert (length r ≤ length l) by (rewrite <- He at 1; rewrite length_take; lia).
  rewrite length_drop. destruct r; [done|]. simpl in *. lia.
Qed.

Lemma strip_done fuel runes l :
  Forall (λ r, r ≠ []) runes → length l ≤ fuel → strip_one runes (strip fuel runes l) = None.
Proof.
  intros Hr. revert l. induction fuel as [|fuel IH]; intros l Hl; simpl.
  - destruct (strip_one runes l) as [l'|] eqn:He; [|done]. apply strip_one_shorter in He; [lia|done].
  - destruct (strip_one runes l) as [l'|] eqn:He; [|done]. apply IH.
    apply strip_one_shorter in He; [lia|done].
Qed.
