(* ===== verification/GoConv.v ===== *)
(** * Package strconv

    [ParseUint], [ParseInt], [Atoi], [ParseBool] and [Itoa] (stdpp's [pretty]) as
    the command line uses them, on a 64-bit [int]. A failed conversion still
    returns a number in Go: 0 for a syntax error, the nearest bound for one out of
    range, and callers that drop the error see it. *)

From stdpp Require Import pretty.
From Stdlib Require Import Ascii.
From S2P Require Import Prelude.

Local Open Scope Z_scope.

Inductive NumError := ErrSyntax | ErrRange.

Definition uint64 (z : Z) : Z := z mod 2 ^ 64.
Definition maxUint64 : Z := 2 ^ 64 - 1.

Definition code (c : Ascii.ascii) : Z := Z.of_N (Ascii.N_of_ascii c).

(** [lower(c)]: the bit that turns an upper case letter into a lower case one. *)
Definition lower (c : Z) : Z := Z.lor c 32.

Definition is_digit (c : Z) : bool := (48 <=? c) && (c <=? 57).

(** The value of a digit in any base. *)
Definition digit (c : Z) : option Z :=
  if is_digit c then Some (c - 48)
  else if (97 <=? lower c) && (lower c <=? 122) then Some (lower c - 97 + 10)
  else None.

(** The loop of [ParseUint]; [us] records an underscore. *)
Fixpoint uint_loop (base : Z) (base0 us : bool) (n : Z) (s : string) : Z * option NumError * bool :=
  match s with
  | EmptyString => (n, None, us)
  | String c s' =>
      if base0 && (code c =? 95) then uint_loop base base0 true n s' else
      match digit (code c) with
      | None => (0, Some ErrSyntax, us)
      | Some d =>
          if base <=? d then (0, Some ErrSyntax, us)
          else if maxUint64 / base + 1 <=? n then (maxUint64, Some ErrRange, us)
          else
            let n := uint64 (n * base) in
            let n1 := uint64 (n + d) in
            if n1 <? n then (maxUint64, Some ErrRange, us)
            else uint_loop base base0 us n1 s'
      end
  end.

(** [underscoreOK]: underscores only between digits, or after a base prefix. *)
Inductive saw := SawStart | SawDigit | SawUnder | SawOther.

Fixpoint underscore_loop (hex : bool) (seen : saw) (s : string) : bool :=
  match s with
  | EmptyString => match seen with SawUnder => false | _ => true end
  | String a s' =>
      let c := code a in
      if is_digit c || (hex && (97 <=? lower c) && (lower c <=? 102)) then underscore_loop hex SawDigit s'
      else if c =? 95 then
        match seen with SawDigit => underscore_loop hex SawUnder s' | _ => false end
      else
        match seen with SawUnder => false | _ => underscore_loop hex SawOther s' end
  end.

Definition underscoreOK (s : string) : bool :=
  let s := match s with
           | String c s' => if (code c =? 45) || (code c =? 43) then s' else s
           | EmptyString => s
           end in
  match s with
  | String a (String b s') =>
      let l := lower (code b) in
      if (code a =? 48) && ((l =? 98) || (l =? 111) || (l =? 120))
      then underscore_loop (l =? 120) SawDigit s'
      else underscore_loop false SawStart s
  | _ => underscore_loop false SawStart s
  end.

(** The base and digits of [ParseUint(s, 0, 64)]. *)
Definition detect_base (s : string) : Z * string :=
  match s with
  | String a s1 =>
      if code a =? 48 then
        match s1 with
        | String b (String c s2) =>
            let l := lower (code b) in
            if l =? 98 then (2, String c s2)
            else if l =? 111 then (8, String c s2)
            else if l =? 120 then (16, String c s2)
            else (8, s1)
        | _ => (8, s1)
        end
      else (10, s)
  | EmptyString => (10, s)
  end.

(** [ParseUint(s, base, 64)]: base 0 detects it from the prefix, [None] is base 10. *)
Definition ParseUint (base0 : bool) (s : string) : Z * option NumError :=
  if decide (s = "") then (0, Some ErrSyntax) else
  let (base, digits) := if base0 then detect_base s else (10, s) in
  match uint_loop base base0 false 0 digits with
  | (n, Some e, _) => (n, Some e)
  | (n, None, us) => if us && negb (underscoreOK s) then (0, Some ErrSyntax) else (n, None)
  end.

(** [ParseInt(s, base, 64)] *)
Definition ParseInt (base0 : bool) (s : string) : Z * option NumError :=
  if decide (s = "") then (0, Some ErrSyntax) else
  let (neg, digits) :=
    match s with
    | String c s' => if code c =? 43 then (false, s') else if code c =? 45 then (true, s') else (false, s)
    | EmptyString => (false, s)
    end in
  match ParseUint base0 digits with
  | (_, Some ErrSyntax) => (0, Some ErrSyntax)
  | (un, _) =>
      let cutoff := 2 ^ 63 in
      if negb neg && (cutoff <=? un) then (cutoff - 1, Some ErrRange)
      else if neg && (cutoff <? un) then (- cutoff, Some ErrRange)
      else (if neg then - un else un, None)
  end.

(** The loop of [Atoi]'s fast path. *)
Fixpoint atoi_loop (n : Z) (s : string) : option Z :=
  match s with
  | EmptyString => Some n
  | String c s' => if is_digit (code c) then atoi_loop (n * 10 + (code c - 48)) s' else None
  end.

Definition Atoi (s : string) : Z * option NumError :=
  if (0 <? Z.of_nat (String.length s)) && (Z.of_nat (String.length s) <? 19) then
    let digits :=
      match s with
      | String c s' => if (code c =? 45) || (code c =? 43) then s' else s
      | EmptyString => s
      end in
    if decide (digits = "") then (0, Some ErrSyntax) else
    match atoi_loop 0 digits with
    | None => (0, Some ErrSyntax)
    | Some n => (match s with String c _ => if code c =? 45 then - n else n | EmptyString => n end, None)
    end
  else ParseInt false s.

Definition ParseBool (s : string) : option bool :=
  if decide (s ∈ ["1"; "t"; "T"; "true"; "TRUE"; "True"]) then Some true
  else if decide (s ∈ ["0"; "f"; "F"; "false"; "FALSE"; "False"]) then Some false
  else None.

(** [strconv.Itoa] *)
Definition Itoa (n : Z) : string := pretty n.

(** ** Decimal numbers read back *)

Lemma code_digit (d : N) :
  (d < 10)%N → code (pretty_N_char d) = 48 + Z.of_N d ∧ digit (code (pretty_N_char d)) = Some (Z.of_N d).
Proof.
  intros Hd. assert (d = 0 ∨ d = 1 ∨ d = 2 ∨ d = 3 ∨ d = 4 ∨ d = 5 ∨ d = 6 ∨ d = 7 ∨ d = 8 ∨ d = 9)%N
    as Hc by lia.
  repeat destruct Hc as [->|Hc]; try (by vm_compute). subst. by vm_compute.
Qed.

(** One more decimal digit. *)
Lemma uint_loop_digit base0 us n d s :
  (d < 10)%N → 0 ≤ n → n * 10 + Z.of_N d ≤ maxUint64 →
  uint_loop 10 base0 us n (String (pretty_N_char d) s) = uint_loop 10 base0 us (n * 10 + Z.of_N d) s.
Proof.
  intros Hd Hn Hmax. destruct (code_digit d Hd) as [Hc Hv]. unfold maxUint64 in *.
  cbn [uint_loop]. rewrite Hc at 1. replace (48 + Z.of_N d =? 95) with false by lia.
  rewrite andb_false_r, Hv. unfold uint64, maxUint64.
  replace (10 <=? Z.of_N d) with false by lia.
  replace ((2 ^ 64 - 1) / 10 + 1 <=? n) with false by (symmetry; apply Z.leb_gt; change ((2 ^ 64 - 1) / 10) with 1844674407370955161; lia).
  rewrite (Z.mod_small (n * 10)) by lia. rewrite Z.mod_small by lia.
  by replace (n * 10 + Z.of_N d <? n * 10) with false by lia.
Qed.

Lemma uint_loop_pretty base0 us (x : N) s :
  Z.of_N x ≤ maxUint64 →
  uint_loop 10 base0 us 0 (pretty_N_go x s) = uint_loop 10 base0 us (Z.of_N x) s.
Proof.
  revert s. induction (N.lt_wf_0 x) as [x _ IH]; intros s Hx.
  destruct (decide (x = 0)%N) as [->|Hne]; [by rewrite pretty_N_go_0|].
  rewrite pretty_N_go_step by lia. pose proof (N.mod_lt x 10 ltac:(done)). pose proof (N.div_mod x 10 ltac:(done)).
  assert (x `div` 10 < x)%N as Hlt by (apply N.div_lt; lia).
  rewrite IH; [|done|lia]. rewrite uint_loop_digit; [f_equal; lia|lia|lia|lia].
Qed.

Lemma atoi_loop_pretty (x : N) s :
  atoi_loop 0 (pretty_N_go x s) = atoi_loop (Z.of_N x) s.
Proof.
  revert s. induction (N.lt_wf_0 x) as [x _ IH]; intros s.
  destruct (decide (x = 0)%N) as [->|Hne]; [by rewrite pretty_N_go_0|].
  rewrite pretty_N_go_step by lia. pose proof (N.mod_lt x 10 ltac:(done)). pose proof (N.div_mod x 10 ltac:(done)).
  rewrite IH; [|apply N.div_lt; lia]. destruct (code_digit (x `mod` 10)) as [Hc _]; [lia|].
  cbn [atoi_loop]. rewrite Hc. unfold is_digit. clear IH Hc.
  set (m := (x `mod` 10)%N) in *. set (q := (x `div` 10)%N) in *. clearbody m q.
  rewrite (proj2 (andb_true_iff _ _)) by (split; apply Z.leb_le; lia).
  f_equal. lia.
Qed.

(** A positive number is printed without a leading zero or sign. *)
Lemma pretty_N_go_head (x : N) s :
  (0 < x)%N → ∃ c s', pretty_N_go x s = String c s' ∧ 49 ≤ code c ≤ 57.
Proof.
  revert s. induction (N.lt_wf_0 x) as [x _ IH]; intros s Hx. rewrite pretty_N_go_step by done.
  destruct (decide (x < 10)%N) as [Hlt|Hge].
  - rewrite N.div_small, pretty_N_go_0, N.mod_small by done. eexists _, _. split; [done|].
    destruct (code_digit x Hlt) as [-> _]. lia.
  - apply IH; [apply N.div_lt; lia|apply N.div_str_pos; lia].
Qed.

Lemma pretty_pos_go p : pretty (Npos p) = pretty_N_go (Npos p) "".
Proof. unfold pretty, pretty_N. by rewrite decide_False. Qed.

Lemma ParseUint_pretty base0 p :
  Zpos p ≤ maxUint64 → ParseUint base0 (pretty (Npos p)) = (Zpos p, None).
Proof.
  intros Hp. rewrite pretty_pos_go.
  pose proof (uint_loop_pretty base0 false (Npos p) "" Hp) as HL.
  destruct (pretty_N_go_head (Npos p) "") as (c & s & Hs & Hc); [lia|]. rewrite Hs in *.
  unfold ParseUint. rewrite decide_False by done.
  assert ((if base0 then detect_base (String c s) else (10, String c s)) = (10, String c s)) as ->.
  { destruct base0; [|done]. unfold detect_base. by replace (code c =? 48) with false by lia. }
  rewrite HL. done.
Qed.

(** What [Itoa] prints, [ParseInt] reads, in base 10 or with the base detected. *)
Lemma ParseInt_Itoa base0 n : is_int64 n → ParseInt base0 (Itoa n) = (n, None).
Proof.
  intros Hn. unfold is_int64 in Hn. destruct n as [|p|p].
  - by destruct base0.
  - change (Itoa (Zpos p)) with (pretty (Npos p)).
    assert (Zpos p ≤ maxUint64) as Hp by (unfold maxUint64; lia).
    pose proof (ParseUint_pretty base0 p Hp) as HU. rewrite pretty_pos_go in *.
    destruct (pretty_N_go_head (Npos p) "") as (c & s & Hs & Hc); [lia|]. rewrite Hs in *.
    unfold ParseInt. rewrite decide_False by done.
    replace (code c =? 43) with false by lia. replace (code c =? 45) with false by lia.
    rewrite HU. cbn [negb andb]. by replace (2 ^ 63 <=? Zpos p) with false by lia.
  - change (Itoa (Zneg p)) with (String.append "-" (pretty (Npos p))).
    assert (Zpos p ≤ maxUint64) as Hp by (unfold maxUint64; lia).
    pose proof (ParseUint_pretty base0 p Hp) as HU. revert HU. generalize (pretty (Npos p)). intros d HU.
    change (String.append "-" d) with (String "-"%char d).
    unfold ParseInt. rewrite decide_False by done.
    replace (code "-" =? 43) with false by done. replace (code "-" =? 45) with true by done.
    rewrite HU. cbn [negb andb].
    replace (2 ^ 63 <? Zpos p) with false by lia. done.
Qed.

(** [Atoi] agrees with [ParseInt] on both of its paths. *)
Lemma Atoi_Itoa n : is_int64 n → Atoi (Itoa n) = (n, None).
Proof.
  intros Hn. unfold Atoi. destruct (_ && _) eqn:Hlen; [|by apply ParseInt_Itoa].
  clear Hlen. destruct n as [|p|p].
  - done.
  - change (Itoa (Zpos p)) with (pretty (Npos p)). rewrite pretty_pos_go.
    pose proof (atoi_loop_pretty (Npos p) "") as HL.
    destruct (pretty_N_go_head (Npos p) "") as (c & s & Hs & Hc); [lia|]. rewrite Hs in *.
    replace (code c =? 43) with false by lia. replace (code c =? 45) with false by lia.
    cbn [orb]. rewrite decide_False by done. by rewrite HL.
  - change (Itoa (Zneg p)) with (String.append "-" (pretty (Npos p))). rewrite pretty_pos_go.
    pose proof (atoi_loop_pretty (Npos p) "") as HL.
    destruct (pretty_N_go_head (Npos p) "") as (c & s & Hs & Hc); [lia|]. rewrite Hs in *.
    change (String.append "-" (String c s)) with (String "-"%char (String c s)).
    cbn iota. change (code "-"%char =? 45) with true. cbn [orb].
    rewrite decide_False by done. by rewrite HL.
Qed.

(** A syntax error comes with the value 0. *)
Lemma Atoi_syntax s : (Atoi s).2 = Some ErrSyntax → (Atoi s).1 = 0.
Proof. unfold Atoi, ParseInt. repeat case_match; simpl; intros; by simplify_eq. Qed.
