(* ===== verification/Http.v ===== *)
(** * rconhttp: the HTTP handler

    [Backend], [TokenResolver], [parseCommand], the response writers and
    [ServeHTTP], over the session cache. A request is what the code reads of it:
    method, header values, body (its bytes and how it ends) and the [cmd] query
    parameter. The JSON decoder of the standard library is the parameter
    [decodeJSON], from the bytes a reader yields before it ends with an error, to
    the [command] field. Responses keep the error or result they render instead
    of its JSON text. *)

From S2P Require Import Prelude GoErrors GoIO GoNet Packet Options Conn World Client Cache GoStrings.

Local Open Scope Z_scope.

Definition MethodPost : string := "POST".
Definition StatusOK : Z := 200.
Definition StatusBadRequest : Z := 400.
Definition StatusUnauthorized : Z := 401.
Definition StatusMethodNotAllowed : Z := 405.
Definition StatusRequestEntityTooLarge : Z := 413.
Definition StatusInternalServerError : Z := 500.
Definition StatusBadGateway : Z := 502.
Definition StatusServiceUnavailable : Z := 503.
Definition StatusGatewayTimeout : Z := 504.

Record HttpRequest := mkReq {
  Method : string;
  Header : string → string;          (* Header.Get, by canonical name *)
  ReqBody : list byte;
  ReqBodyEnd : error;                (* EOF, or the error that cut the body *)
  QueryCmd : string;
  ReqContext : Context
}.

(** The body of a response: plain text or JSON, of a result or of an error. *)
Inductive rendered :=
  | TextResult (response : string)
  | JSONResult (command response : string)
  | TextError (e : error)
  | JSONError (e : error).

Record HttpResponse := mkResp {
  Status : Z;
  ContentType : string;
  Allow : option string;
  RespBody : rendered
}.

(** ** backend.go *)

Definition Resolver : Type := HttpRequest → result Backend.

Definition TokenResolver (byToken : gmap string Backend) : Resolver := λ r,
  let prefix := "Bearer " in
  let auth := Header r "Authorization" in
  if negb (HasPrefix auth prefix) then Err ErrUnauthorized else
  match byToken !! TrimPrefix auth prefix with
  | None => Err ErrUnauthorized
  | Some b => Ok b
  end.

Definition fixedResolver (b : Backend) : Resolver := λ _, Ok b.

(** ** response.go *)

Definition wantsText (r : HttpRequest) : bool := Contains (Header r "Accept") "text/plain".

Definition textType : string := "text/plain; charset=utf-8".
Definition jsonType : string := "application/json".

Definition writeResult (r : HttpRequest) (command response : string) : HttpResponse :=
  if wantsText r then mkResp StatusOK textType None (TextResult response)
  else mkResp StatusOK jsonType None (JSONResult command response).

Definition writeError (r : HttpRequest) (allow : option string) (status : Z) (err : error) : HttpResponse :=
  if wantsText r then mkResp status textType allow (TextError err)
  else mkResp status jsonType allow (JSONError err).

Definition executeStatus (err : error) : Z :=
  if Is err ErrCommandEmpty || Is err ErrCommandTooLong then StatusBadRequest
  else if Is err ContextDeadlineExceeded then StatusGatewayTimeout
  else if Is err ErrAuthFailed then StatusBadGateway
  else match AsNetError err with
       | Some true => StatusGatewayTimeout
       | Some false => StatusServiceUnavailable
       | None => StatusBadGateway
       end.

(** ** request.go *)

Definition maxBodyBytes : nat := Z.to_nat (Z.shiftl 64 10).

(** [http.MaxBytesReader]: the bytes it yields and the error that ends them. *)
Definition MaxBytesReader (body : list byte) (e : error) : list byte * error :=
  if decide (length body ≤ maxBodyBytes)%nat then (body, e) else (take maxBodyBytes body, MaxBytesError).

(** [io.ReadAll] *)
Definition ReadAll (body : list byte * error) : result (list byte) :=
  if decide (body.2 = EOF) then Ok body.1 else Err body.2.

Section Handler.
Context (decodeJSON : list byte * error → result string).

Definition parseCommand (r : HttpRequest) (body : list byte * error) : result string :=
  if HasPrefix (Header r "Content-Type") "application/json" then
    match decodeJSON body with
    | Err err => Err (Errorf2 errBadBody err)
    | Ok command => if decide (command = "") then Err errNoCommand else Ok command
    end
  else
    match ReadAll body with
    | Err err => Err (Errorf2 errBadBody err)
    | Ok data =>
        let cmd := TrimSpace (string_of data) in
        if decide (cmd = "") then
          let cmd := TrimSpace (QueryCmd r) in
          if decide (cmd = "") then Err errNoCommand else Ok cmd
        else Ok cmd
    end.

(** ** handler.go *)

Definition ServeHTTP (client : Client) (resolver : Resolver) (r : HttpRequest) :
    GoM sessionCache HttpResponse :=
  if negb (bool_decide (Method r = MethodPost)) then
    ret (writeError r (Some MethodPost) StatusMethodNotAllowed errMethodNotAllowed)
  else
  match resolver r with
  | Err err =>
      let status := if Is err ErrUnauthorized then StatusUnauthorized else StatusBadRequest in
      ret (writeError r None status err)
  | Ok backend =>
      if decide (b_Addr backend = "") then
        ret (writeError r None StatusInternalServerError errNoBackend)
      else
      match parseCommand r (MaxBytesReader (ReqBody r) (ReqBodyEnd r)) with
      | Err err =>
          let status := if AsMaxBytesError err then StatusRequestEntityTooLarge else StatusBadRequest in
          ret (writeError r None status err)
      | Ok cmd =>
          do out <- execute client (ReqContext r) backend cmd;
          match out with
          | Err err => ret (writeError r None (executeStatus err) err)
          | Ok out => ret (writeResult r cmd out)
          end
      end
  end.
End Handler.
