(* ===== verification/HttpProps.v ===== *)
(** * Properties of the HTTP handler

    What a successful response says, and which requests are turned away before
    any backend is contacted. *)

From S2P Require Import Prelude GoErrors GoIO GoNet Packet Options Conn World Client ClientProps SessionProps Cache CacheProps GoStrings Http.

Local Open Scope Z_scope.

Lemma TokenResolver_Ok byToken r b :
  TokenResolver byToken r = Ok b →
  ∃ token, Header r "Authorization" = String.append "Bearer " token ∧ byToken !! token = Some b.
Proof.
  unfold TokenResolver. destruct (HasPrefix (Header r "Authorization") "Bearer ") eqn:Hp; [|done].
  apply HasPrefix_split in Hp as (token & Ha). rewrite Ha, TrimPrefix_append. cbn [negb].
  destruct (byToken !! token) eqn:Ht; [|done]. intros [= <-]. by exists token.
Qed.

Lemma executeStatus_not_ok err : executeStatus err ≠ StatusOK.
Proof. unfold executeStatus. by repeat case_match. Qed.

Lemma Status_writeError r allow status err : Status (writeError r allow status err) = status.
Proof. unfold writeError. by case_match. Qed.

(** A body over the limit is cut off with [MaxBytesError], which the raw-body path reports. *)
Lemma parseCommand_too_large dec r :
  HasPrefix (Header r "Content-Type") "application/json" = false →
  (maxBodyBytes < length (ReqBody r))%nat →
  parseCommand dec r (MaxBytesReader (ReqBody r) (ReqBodyEnd r)) = Err (Errorf2 errBadBody MaxBytesError).
Proof.
  intros Hj Hl. unfold parseCommand, MaxBytesReader. rewrite Hj.
  rewrite decide_False by (by apply Nat.lt_nge). done.
Qed.

(** Samples for the witnesses. *)
Definition no_json : list byte * error → result string := λ _, Err (ErrorString "no JSON").
Definition tokens : gmap string Backend := {["t1" := mkBackend "a" "pw"]}.
Definition header (token : string) : string → string := λ h,
  if bool_decide (h = "Authorization") then String.append "Bearer " token else "".
Definition ping_request (token : string) : HttpRequest :=
  mkReq MethodPost (header token) (bytes_of " ping ") EOF "" Background.
Definition cold : sessionCache := newCache (sample_world [good_server 5]).

(** C24: a 200 is earned. When the handler with a [TokenResolver] answers 200, the
    request was a POST whose bearer token is known, the command was parsed from
    it, that command was executed on the token's backend and succeeded, and the
    response carries its output. *)
Theorem http_ok_sound (decodeJSON : list byte * error → result string) (client : Client)
    (byToken : gmap string Backend) (r : HttpRequest) (resp : HttpResponse) (c c' : sessionCache) :
  ServeHTTP decodeJSON client (TokenResolver byToken) r c = Ret resp c' → Status resp = StatusOK →
  ∃ token b cmd out,
    Method r = MethodPost ∧ Header r "Authorization" = String.append "Bearer " token ∧
    byToken !! token = Some b ∧ b_Addr b ≠ "" ∧
    parseCommand decodeJSON r (MaxBytesReader (ReqBody r) (ReqBodyEnd r)) = Ok cmd ∧
    execute client (ReqContext r) b cmd c = Ret (Ok out) c' ∧
    RespBody resp = (if wantsText r then TextResult out else JSONResult cmd out).
Proof.
  unfold ServeHTTP, ret. destruct (decide (Method r = MethodPost)) as [Hm|Hm]; cycle 1.
  { rewrite bool_decide_false by done. intros [= <- <-]. rewrite Status_writeError. done. }
  rewrite bool_decide_true by done. cbn [negb].
  destruct (TokenResolver byToken r) as [b|err] eqn:HT; cycle 1.
  { intros [= <- <-]. rewrite Status_writeError. by case_match. }
  apply TokenResolver_Ok in HT as (token & Ha & Ht). case_decide as Hb.
  { intros [= <- <-]. rewrite Status_writeError. done. }
  destruct (parseCommand _ _ _) as [cmd|err] eqn:HP; cycle 1.
  { intros [= <- <-]. rewrite Status_writeError. by case_match. }
  intros ([out|err] & c1 & HE & HK)%bind_inv Hs; injection HK as <- <-; cycle 1.
  { rewrite Status_writeError in Hs. by apply executeStatus_not_ok in Hs. }
  exists token, b, cmd, out. split_and!; try done. unfold writeResult. by case_match.
Qed.

Lemma http_ok_sound_witness :
  ∃ resp c' token b, ServeHTTP no_json (Client.New []) (TokenResolver tokens) (ping_request "t1") cold = Ret resp c' ∧
    Status resp = StatusOK ∧ RespBody resp = JSONResult "ping" "pong" ∧
    Header (ping_request "t1") "Authorization" = String.append "Bearer " token ∧ tokens !! token = Some b.
Proof.
  destruct (ServeHTTP no_json (Client.New []) (TokenResolver tokens) (ping_request "t1") cold)
    as [resp c'| |] eqn:HS; [|vm_compute in HS; discriminate..].
  destruct (http_ok_sound no_json (Client.New []) tokens (ping_request "t1") resp cold c' HS)
    as (token & b & cmd & out & _ & Ha & Ht & _).
  - vm_compute in HS. injection HS as <- <-. reflexivity.
  - exists resp, c', token, b. split; [reflexivity|]. vm_compute in HS. injection HS as <- <-.
    split; [reflexivity|]. split; [reflexivity|]. split; [exact Ha|exact Ht].
Defined.

(** C34: turned away at the door. A request with another method gets 405 and the
    allowed method, one whose bearer token is missing or unknown 401, one whose
    backend has no address 500, and one whose raw body exceeds the limit 413; the
    cache, and with it every backend, is left untouched by each of them. *)
Theorem http_rejects_untouched (decodeJSON : list byte * error → result string) (client : Client)
    (byToken : gmap string Backend) (r : HttpRequest) (c : sessionCache) :
  (∀ resolver, Method r ≠ MethodPost →
     ∃ resp, ServeHTTP decodeJSON client resolver r c = Ret resp c ∧
             Status resp = StatusMethodNotAllowed ∧ Allow resp = Some MethodPost) ∧
  (Method r = MethodPost →
     (∀ token, Header r "Authorization" = String.append "Bearer " token → byToken !! token = None) →
     ∃ resp, ServeHTTP decodeJSON client (TokenResolver byToken) r c = Ret resp c ∧
             Status resp = StatusUnauthorized) ∧
  (∀ resolver b, Method r = MethodPost → resolver r = Ok b → b_Addr b = "" →
     ∃ resp, ServeHTTP decodeJSON client resolver r c = Ret resp c ∧
             Status resp = StatusInternalServerError) ∧
  (∀ resolver b, Method r = MethodPost → resolver r = Ok b → b_Addr b ≠ "" →
     HasPrefix (Header r "Content-Type") "application/json" = false →
     (maxBodyBytes < length (ReqBody r))%nat →
     ∃ resp, ServeHTTP decodeJSON client resolver r c = Ret resp c ∧
             Status resp = StatusRequestEntityTooLarge).
Proof.
  unfold ServeHTTP. split_and!.
  - intros resolver Hm. rewrite bool_decide_false by done. eexists. split_and!; [done|by rewrite Status_writeError|].
    unfold writeError. by case_match.
  - intros Hm Ht. rewrite bool_decide_true by done. cbn [negb].
    destruct (TokenResolver byToken r) as [b|err] eqn:HT.
    { apply TokenResolver_Ok in HT as (token & Ha & Hb). rewrite (Ht _ Ha) in Hb. done. }
    assert (err = ErrUnauthorized) as -> by (unfold TokenResolver in HT; repeat case_match; congruence).
    eexists. split; [done|by rewrite Status_writeError].
  - intros resolver b Hm Hb Ha. rewrite bool_decide_true, Hb, decide_True by done. cbn [negb].
    eexists. split; [done|by rewrite Status_writeError].
  - intros resolver b Hm Hb Ha Hj Hl. rewrite bool_decide_true, Hb, decide_False by done. cbn [negb].
    rewrite parseCommand_too_large by done. eexists. split; [done|by rewrite Status_writeError].
Qed.
