(* ===== verification/Gateway.v ===== *)
(** * rconhttp: the handler as built and used

    [New] with its options, the [Handler] it returns, and [Close], over the HTTP
    handler of [Http] and the session cache; loggers are left out. [served] is
    what the cache of a handler goes through: requests, ticks of its reaper (only
    when [New] has started one), and time. *)

From S2P Require Import Prelude GoErrors GoIO GoNet Packet Options Conn ConnProps World Client ClientProps SessionProps Cache CacheProps CacheConc GoStrings Http.

Local Open Scope Z_scope.

Definition DefaultIdleTimeout : Z := 5 * 60 * Second.

Record config := mkConfig {
  cf_resolver : Resolver;
  cf_client : Client;
  cf_idle : Z
}.

Definition Option : Type := config → config.

Definition WithResolver (res : Resolver) : Option := λ c, mkConfig res (cf_client c) (cf_idle c).
Definition WithClient (cl : Client) : Option := λ c, mkConfig (cf_resolver c) cl (cf_idle c).
Definition WithIdleTimeout (d : Z) : Option := λ c, mkConfig (cf_resolver c) (cf_client c) d.

(** The handler; its cache's client and timeout are those it was made with. *)
Record Handler := mkHandler {
  h_resolver : Resolver;
  h_client : Client;
  h_idle : Z
}.

(** [New]: the handler and its cache, with the reaper's goroutine if it has one. *)
Definition New (backend : Backend) (opts : list Option) (w : World) : Handler * qstate :=
  let cfg := fold_left (λ c opt, opt c) opts
    (mkConfig (fixedResolver backend) (Client.New []) DefaultIdleTimeout) in
  (mkHandler (cf_resolver cfg) (cf_client cfg) (cf_idle cfg),
   startReaper (cf_idle cfg) (newCache w)).

Definition Close (h : Handler) : GoM sessionCache (result unit) := close.

Section Gateway.
Context (decodeJSON : list byte * error → result string) (h : Handler).

(** [h.ServeHTTP] *)
Definition Serve (r : HttpRequest) : GoM sessionCache HttpResponse :=
  ServeHTTP decodeJSON (h_client h) (h_resolver h) r.

Inductive served (w0 : World) : sessionCache → Prop :=
  | served_new : served w0 (newCache w0)
  | served_request c r resp c' :
      served w0 c → Serve r c = Ret resp c' → served w0 c'
  | served_reap c c' :
      served w0 c → reaps (h_idle h) = true → reap (h_idle h) c = Ret tt c' → served w0 c'
  | served_wait c t :
      served w0 c → w_now (c_world c) ≤ t → served w0 (set_world (set_clock t (c_world c)) c).

(** The backends a handler resolves to have NUL-free addresses. *)
Definition sane : Prop := ∀ r b, h_resolver h r = Ok b → no_nul (b_Addr b) = true.

(** A request either leaves the cache alone or runs one command on its backend. *)
Lemma Serve_cache r c resp c' :
  Serve r c = Ret resp c' →
  c' = c ∨ ∃ b cmd out, h_resolver h r = Ok b ∧ execute (h_client h) (ReqContext r) b cmd c = Ret out c'.
Proof.
  unfold Serve, ServeHTTP. repeat case_match; unfold ret; intros HR; simplify_eq; auto.
  right. apply bind_inv in HR as (out & c1 & HE & HK). repeat case_match; unfold ret in HK; simplify_eq; eauto 10.
Qed.

Lemma served_cache w0 c : sane → served w0 c → cache_reach (h_client h) (h_idle h) w0 c.
Proof.
  intros Hs. induction 1 as [|c r resp c' _ IH HR|c c' _ IH _ HR|c t _ IH Ht].
  - constructor.
  - apply Serve_cache in HR as [->|(b & cmd & out & Hb & HE)]; [done|].
    eapply cr_execute; [done|by eapply Hs|done].
  - by eapply cr_reap.
  - by apply cr_wait.
Qed.
End Gateway.

(** ** Theorems *)

(** The gateway releases its backends. A handler built by [New] with any options
    (over any transport that hands out fresh connections, and a resolver whose
    addresses hold no NUL byte), after any requests, reaper runs and waits,
    whatever the servers answered: [Close] returns without error and every
    connection ever opened for a request is closed. *)
Theorem gateway_close_releases (decodeJSON : list byte * error → result string) (backend : Backend)
    (opts : list Option) (w0 : World) (c : sessionCache) :
  let h := (New backend opts w0).1 in
  Dialer (transport (h_client h)) → sane h → served decodeJSON h w0 c →
  ∃ c', Close h c = Ret (Ok tt) c' ∧ c_entries c' = ∅ ∧
        ∃ new, w_slots (c_world c') = w_slots w0 ++ new ∧ Forall (λ s, slot_closed s = true) new.
Proof.
  intros h HD Hs Hr%served_cache; [|done]. by eapply close_releases.
Qed.

(** A handler with the defaults and one request it has served. *)
Definition sample_request : HttpRequest :=
  mkReq MethodPost (λ _, "") (bytes_of "ping") EOF "" Background.
Definition sample_handler : Handler := (New (mkBackend "a" "pw") [] (sample_world [good_server 5])).1.

Lemma gateway_close_releases_witness :
  ∃ resp c c', Serve (λ _, Err EOF) sample_handler sample_request (newCache (sample_world [good_server 5])) = Ret resp c ∧
    Status resp = StatusOK ∧ Close sample_handler c = Ret (Ok tt) c' ∧ c_entries c' = ∅.
Proof.
  destruct (Serve (λ _, Err EOF) sample_handler sample_request (newCache (sample_world [good_server 5])))
    as [resp c| |] eqn:HS; [|vm_compute in HS; discriminate..].
  destruct (gateway_close_releases (λ _, Err EOF) (mkBackend "a" "pw") [] (sample_world [good_server 5]) c)
    as (c' & HC & He & _).
  - exact (tcp_Dialer Client.DefaultDialTimeout).
  - intros r b [= <-]. reflexivity.
  - exact (served_request _ _ _ _ _ _ _ (served_new _ _ _) HS).
  - exists resp, c, c'. split; [reflexivity|]. split; [|split; [exact HC|exact He]].
    vm_compute in HS. injection HS as <- <-. reflexivity.
Defined.
