(* ===== verification/GatewayTalk.v ===== *)
(** * HTTP requests that reach the server's handler

    A gateway built by [rconhttp.New] in front of a server that runs [serveConn]:
    requests come in over time, the first dials, the others reuse the cached
    session, and each is answered with what the server's handler wrote for its
    command. The reaper that [New] starts runs between the requests, whenever its
    ticker fires: it leaves the session alone as long as requests come at most the
    idle timeout apart. (A tick during a request finds the entry just used;
    [CacheConc] has every interleaving of the two.) *)

From S2P Require Import Prelude GoErrors GoIO GoNet Packet Options Conn ConnProps Server ServerProps EndToEnd Dialogue World Client ClientProps Talk Cache CacheConc GoStrings Http Gateway.

Local Open Scope Z_scope.

(** ** The cache around one session *)

(** The only entry is the one of [b], last used at [lu]; it holds a session whose
    connection, slot [n], is ready. *)
Definition cached (b : Backend) (n : nat) (i : Z) (out : list byte) (rest : list (Z * arrival))
    (lu : Z) (c : sessionCache) : Prop :=
  talking (c_world c) n i out rest ∧
  ∃ e, c_entries c = {[ cacheKey b := e ]} ∧
    c_heap c !! e = Some (mkEntry b (Some (mkSession DefaultClient (b_Addr b) (b_Password b) n)) lu).

(** Running a command on the session found or dialed. *)
Lemma use_session e b n cmd c i out arr rest hi o s lu :
  s = mkSession DefaultClient (b_Addr b) (b_Password b) n →
  c_entries c = {[ cacheKey b := e ]} → c_heap c !! e = Some (mkEntry b (Some s) lu) →
  talking (c_world c) n i out (arr ++ rest) → good_command cmd →
  hi ≤ w_now (c_world c) + DefaultDeadline → delivered hi (frames (reply i o)) arr →
  ∃ c', on_session e s (SessionExecute Background cmd) c = Ret (Ok (string_of o)) c' ∧
    cached b n (next_id (next_id i)) (out ++ frames (question i cmd)) rest lu c' ∧
    w_now (c_world c') ≤ w_now (c_world c) + DefaultDeadline ∧
    w_dials (c_world c') = w_dials (c_world c) ∧ length (w_slots (c_world c')) = length (w_slots (c_world c)).
Proof.
  intros -> Hk He Ht Hc Hhi Hl.
  destruct (SessionExecute_talks Background cmd (mkSession DefaultClient (b_Addr b) (b_Password b) n)
    (c_world c) i out arr rest hi o) as (w' & s' & HE & Hsl & Hds & [Hn _] & Ht'); [done..|].
  unfold on_session. rewrite HE. eexists. split; [done|]. split_and!.
  - split; [done|]. exists e. split; [done|]. simpl. by rewrite list_lookup_alter_eq, He.
  - exact (proj2 Hn).
  - done.
  - simpl. by rewrite Hsl, length_insert.
Qed.

Lemma execute_cached b n cmd c i out arr rest lu hi o :
  cached b n i out (arr ++ rest) lu c → good_command cmd →
  hi ≤ w_now (c_world c) + DefaultDeadline → delivered hi (frames (reply i o)) arr →
  ∃ c', execute DefaultClient Background b cmd c = Ret (Ok (string_of o)) c' ∧
    cached b n (next_id (next_id i)) (out ++ frames (question i cmd)) rest (w_now (c_world c)) c' ∧
    w_now (c_world c') ≤ w_now (c_world c) + DefaultDeadline ∧
    w_dials (c_world c') = w_dials (c_world c) ∧ length (w_slots (c_world c')) = length (w_slots (c_world c)).
Proof.
  intros (Ht & e & Hk & He) Hc Hhi Hl. unfold execute, get, bind at 1. cbv zeta. rewrite Hk, lookup_singleton_eq.
  set (c1 := set_heap _ c).
  assert (c_heap c1 !! e = Some (mkEntry b (Some (mkSession DefaultClient (b_Addr b) (b_Password b) n))
    (w_now (c_world c)))) as He1 by (simpl; by rewrite list_lookup_alter_eq, He).
  destruct (use_session e b n cmd c1 i out arr rest hi o _ _ eq_refl Hk He1) as (c' & HS & Hc'); [done..|].
  exists c'. split; [|done]. unfold use, gets, bind at 1. rewrite He1. cbn [mbind option_bind e_session].
  unfold ret at 1, bind at 1. by rewrite (bind_Ret _ _ _ _ _ HS).
Qed.

Section Requests.
Context {H : Type} (srv : Server H) (b : Backend) (password_ok : checkPassword srv (b_Password b) = true).

Lemma execute_dials cmd c t hello arr rest ds hi0 hi o :
  c_entries c = ∅ → let w := c_world c in
  w_dials w = Connects t (hello ++ arr ++ rest) :: ds → let T := Z.max (w_now w) t in
  T < w_now w + Client.DefaultDialTimeout → hi0 ≤ T + DefaultDeadline → hi ≤ T + DefaultDeadline →
  good_command cmd →
  delivered hi0 (frames (auth_answer srv (auth_packet (b_Password b)))) hello →
  delivered hi (frames (reply 1 o)) arr →
  ∃ c', execute DefaultClient Background b cmd c = Ret (Ok (string_of o)) c' ∧
    cached b (length (w_slots w)) 3 (frames (auth_packet (b_Password b) :: question 1 cmd)) rest (w_now w) c' ∧
    w_now (c_world c') ≤ w_now w + Client.DefaultDialTimeout + 2 * DefaultDeadline ∧
    w_dials (c_world c') = ds ∧ length (w_slots (c_world c')) = S (length (w_slots w)).
Proof.
  intros Hk w Hds T HT Hhi0 Hhi Hc Hhello Harr.
  unfold execute, get, bind at 1. cbv zeta. rewrite Hk, lookup_empty. set (e := length (c_heap c)). set (c1 := set_entries _ _).
  assert (c_heap c1 !! e = Some (mkEntry b None (w_now w))) as He1 by (simpl; by rewrite list_lookup_middle).
  destruct (dial_ready srv Background (b_Addr b) (b_Password b) w t hello (arr ++ rest) ds hi0)
    as (w1 & HD & Hok); [done..|]. rewrite password_ok in HD.
  destruct (Hok password_ok) as (Hds1 & [Hn1 Hn2] & cn & Hsl1 & Hr). fold T in Hn1, Hn2.
  set (s := mkSession DefaultClient (b_Addr b) (b_Password b) (length (w_slots w))).
  set (c2 := put_session e (Some s) (set_world w1 c1)).
  destruct (use_session e b (length (w_slots w)) cmd c2 1 (frames [auth_packet (b_Password b)]) arr rest hi o s (w_now w))
    as (c' & HS & Hc' & Hn' & Hds' & Hsl').
  - done.
  - simpl. by rewrite insert_empty.
  - cbn [c2 put_session set_heap c_heap set_world]. by rewrite list_lookup_alter_eq, He1.
  - exists cn. split; [|done]. simpl. by rewrite Hsl1, list_lookup_middle.
  - done.
  - simpl. lia.
  - done.
  - exists c'. split_and!.
    + unfold use, gets, bind at 1. rewrite He1. cbn [mbind option_bind e_session].
      erewrite bind_Ret.
      2:{ erewrite bind_Ret; [|apply zoom_Ret; unfold DialSession; by erewrite bind_Ret by exact HD].
          by unfold modify, bind, ret. }
      cbv beta iota. fold s. fold c2. by rewrite (bind_Ret _ _ _ _ _ HS).
    + by rewrite <- frames_app in Hc'.
    + cbn [c2 put_session set_heap set_world c_world] in Hn'. lia.
    + by rewrite Hds'.
    + rewrite Hsl'. simpl. rewrite Hsl1, length_app. simpl. lia.
Qed.
End Requests.

(** ** Requests over time *)

Section Serving.
Context (decodeJSON : list byte * error → result string) (h : Handler).

Definition wait_cache (t : Z) : GoM sessionCache unit :=
  modify (λ c, set_world (set_clock (Z.max (w_now (c_world c)) t) (c_world c)) c).

(** The reaper's ticker fires at the times [ticks]; there is a reaper only for a
    positive idle timeout. *)
Fixpoint reaper (ticks : list Z) : GoM sessionCache unit :=
  match ticks with
  | [] => ret tt
  | t :: ticks =>
      do _ <- wait_cache t;
      do _ <- (if reaps (h_idle h) then reap (h_idle h) else ret tt);
      reaper ticks
  end.

(** The handler serves the requests one after the other, each at its time, and the
    reaper runs before each at the times given with it. *)
Fixpoint serve_all (requests : list (list Z * (Z * HttpRequest))) : GoM sessionCache (list HttpResponse) :=
  match requests with
  | [] => ret []
  | (ticks, (t, r)) :: requests =>
      do _ <- reaper ticks;
      do _ <- wait_cache t;
      do resp <- Serve decodeJSON h r;
      do resps <- serve_all requests;
      ret (resp :: resps)
  end.

(** The request posts the command of [tn] at its time, with a context that never
    ends, and the ticks before it are not after it. *)
Definition posts (q : list Z * (Z * HttpRequest)) (tn : turn) : Prop :=
  let r := q.2.2 in
  Forall (λ t, t ≤ tn_at tn) q.1 ∧ q.2.1 = tn_at tn ∧ Method r = MethodPost ∧ ReqContext r = Background ∧
  parseCommand decodeJSON r (MaxBytesReader (ReqBody r) (ReqBodyEnd r)) = Ok (tn_command tn).

(** Each turn comes at most [d] after the one before it, the first at most [d]
    after [t]. *)
Fixpoint spaced (d t : Z) (turns : list turn) : Prop :=
  match turns with
  | [] => True
  | tn :: turns => tn_at tn ≤ t + d ∧ spaced d (tn_at tn) turns
  end.

(** The responses: 200 with the output of each command. *)
Definition answers (requests : list (list Z * (Z * HttpRequest))) (turns : list turn) (outs : list (list byte)) :
    list HttpResponse :=
  zip_with (λ q co, writeResult q.2.2 co.1 (string_of co.2)) requests (zip (tn_command <$> turns) outs).

Context (b : Backend) (b_addr : b_Addr b ≠ "").
Hypothesis h_default : h_client h = DefaultClient.
Hypothesis h_fixed : h_resolver h = fixedResolver b.

Lemma Serve_posts q tn c out c' :
  posts q tn → execute DefaultClient Background b (tn_command tn) c = Ret (Ok out) c' →
  Serve decodeJSON h q.2.2 c = Ret (writeResult q.2.2 (tn_command tn) out) c'.
Proof.
  intros (_ & _ & Hm & Hctx & Hp) HE. unfold Serve, ServeHTTP.
  rewrite bool_decide_true by done. cbn [negb]. rewrite h_fixed, h_default. unfold fixedResolver.
  rewrite decide_False, Hp, Hctx by done. by rewrite (bind_Ret _ _ _ _ _ HE).
Qed.

(** The reaper leaves an empty cache alone, and one whose entry is not idle. *)
Lemma reap_empty idle c : c_entries c = ∅ → ∃ c', reap idle c = Ret tt c' ∧ c_entries c' = ∅ ∧ c_world c' = c_world c.
Proof.
  intros He. unfold reap, gets, collect, bind at 1 2. rewrite He, !map_filter_empty, map_to_list_empty.
  eexists. by split_and!.
Qed.

Lemma reap_fresh idle n i out rest lu c :
  cached b n i out rest lu c → w_now (c_world c) ≤ lu + idle →
  ∃ c', reap idle c = Ret tt c' ∧ cached b n i out rest lu c' ∧ c_world c' = c_world c.
Proof.
  intros (Ht & e & Hk & He) Hn. unfold reap, gets, collect, bind at 1 2. rewrite Hk.
  assert (¬ stale (w_now (c_world c) - idle) (c_heap c) e) as Hs by (unfold stale; rewrite He; simpl; lia).
  rewrite map_filter_singleton_False, map_filter_singleton_True, map_to_list_empty by done.
  eexists. split; [done|]. split; [|done]. split; [done|]. by exists e.
Qed.

Lemma reaper_empty ticks hi c :
  c_entries c = ∅ → Forall (λ t, t ≤ hi) ticks →
  ∃ c', reaper ticks c = Ret tt c' ∧ c_entries c' = ∅ ∧ w_slots (c_world c') = w_slots (c_world c) ∧
    w_dials (c_world c') = w_dials (c_world c) ∧ w_now (c_world c) ≤ w_now (c_world c') ≤ Z.max (w_now (c_world c)) hi.
Proof.
  intros He HF. revert c He. induction HF as [|t ticks Ht _ IH]; intros c He; cbn [reaper].
  { exists c. split_and!; [done..|lia|lia]. }
  set (c1 := set_world (set_clock (Z.max (w_now (c_world c)) t) (c_world c)) c).
  rewrite (bind_Ret _ _ _ tt c1) by done.
  assert (∃ c2, (if reaps (h_idle h) then reap (h_idle h) else ret tt) c1 = Ret tt c2 ∧ c_entries c2 = ∅ ∧
    c_world c2 = c_world c1) as (c2 & HR & He2 & Hw2) by (case_match; [by apply reap_empty|by exists c1]).
  rewrite (bind_Ret _ _ _ _ _ HR). destruct (IH c2 He2) as (c' & HR' & He' & Hs & Hd & Hn).
  exists c'. rewrite Hw2 in Hs, Hd, Hn. simpl in Hs, Hd, Hn. split_and!; [done..|lia|lia].
Qed.

Lemma reaper_cached ticks hi n i out rest lu c :
  cached b n i out rest lu c → Forall (λ t, t ≤ hi) ticks →
  w_now (c_world c) ≤ lu + h_idle h → hi ≤ lu + h_idle h →
  ∃ c', reaper ticks c = Ret tt c' ∧ cached b n i out rest lu c' ∧ w_slots (c_world c') = w_slots (c_world c) ∧
    w_now (c_world c') ≤ Z.max (w_now (c_world c)) hi.
Proof.
  intros Hc HF Hn Hhi. revert c Hc Hn. induction HF as [|t ticks Ht _ IH]; intros c Hc Hn; cbn [reaper].
  { exists c. split_and!; [done..|lia]. }
  set (c1 := set_world (set_clock (Z.max (w_now (c_world c)) t) (c_world c)) c).
  rewrite (bind_Ret _ _ _ tt c1) by done.
  assert (∃ c2, (if reaps (h_idle h) then reap (h_idle h) else ret tt) c1 = Ret tt c2 ∧
    cached b n i out rest lu c2 ∧ c_world c2 = c_world c1) as (c2 & HR & Hc2 & Hw2).
  { case_match; [|by exists c1]. apply reap_fresh; [exact Hc|simpl; lia]. }
  rewrite (bind_Ret _ _ _ _ _ HR). destruct (IH c2 Hc2) as (c' & HR' & Hc' & Hs & Hn'); [rewrite Hw2; simpl; lia|].
  exists c'. rewrite Hw2 in Hs, Hn'. simpl in Hs, Hn'. split_and!; [done..|lia].
Qed.

(** How long a request may keep the handler busy: a dial, a handshake, a command. *)
Definition busy : Z := Client.DefaultDialTimeout + 2 * DefaultDeadline.

Lemma serve_cached requests turns outs n i out rest lu t0 c :
  cached b n i out (concat (tn_arrivals <$> turns) ++ rest) lu c →
  t0 ≤ lu → w_now (c_world c) ≤ lu + busy → busy ≤ h_idle h → spaced (h_idle h) t0 turns →
  Forall2 posts requests turns → Forall (λ tn, good_command (tn_command tn)) turns →
  in_time DefaultDeadline turns (replies i outs) →
  ∃ c', serve_all requests c = Ret (answers requests turns outs) c' ∧
        length (w_slots (c_world c')) = length (w_slots (c_world c)).
Proof.
  intros Hc Ht0 Hn Hidle Hsp HP. revert outs i out lu t0 c Hc Ht0 Hn Hsp.
  induction HP as [|[ticks [t r]] tn requests turns HP _ IH]; intros outs i out lu t0 c Hc Ht0 Hn Hsp Hg Ht.
  { by exists c. }
  destruct Hsp as [Hsp0 Hsp].
  destruct outs as [|o outs]; [by inversion Ht|]. apply Forall2_cons_1 in Ht as [Hl Ht].
  apply Forall_cons_1 in Hg as [Hg0 Hg]. cbn [fmap list_fmap concat] in Hc. rewrite <- app_assoc in Hc.
  pose proof HP as (Hticks & Hat & _). cbn [fst snd] in Hticks, Hat. subst t.
  destruct (reaper_cached ticks (tn_at tn) _ _ _ _ _ _ Hc Hticks) as (c0 & HR0 & Hc0 & Hs0 & Hn0); [lia|lia|].
  set (c1 := set_world (set_clock (Z.max (w_now (c_world c0)) (tn_at tn)) (c_world c0)) c0).
  destruct (execute_cached b n (tn_command tn) c1 i out (tn_arrivals tn) (concat (tn_arrivals <$> turns) ++ rest) lu
    (tn_at tn + DefaultDeadline) o Hc0 Hg0) as (c2 & HE & Hc2 & Hn2 & _ & Hs2); [simpl; lia|done|].
  destruct (IH outs _ _ _ (tn_at tn) c2 Hc2) as (c3 & HR & Hs3);
    [simpl; lia|unfold busy, Client.DefaultDialTimeout, DefaultDeadline, Second in *; simpl in *; lia|done..|].
  exists c3. cbn [serve_all]. rewrite (bind_Ret _ _ _ _ _ HR0), (bind_Ret _ _ _ tt c1) by done.
  rewrite (bind_Ret _ _ _ _ _ (Serve_posts (ticks, (_, r)) tn c1 _ c2 HP HE)), (bind_Ret _ _ _ _ _ HR).
  split; [done|]. rewrite Hs3, Hs2. simpl. by rewrite Hs0.
Qed.
End Serving.

(** ** Theorem *)

(** C6: an HTTP request reaches the server's handler and its output comes back. A
    gateway made by [New] with default options stands in front of a server that
    runs [serveConn] without a read timeout. Requests that post commands come in
    over time, each at most [DefaultIdleTimeout] (5 minutes) after the one before
    it, and between them the reaper that [New] started runs at any times; the
    network accepts the gateway's connection and carries each reply within 5
    seconds, cut into any segments. Then the server, reading the bytes such a client
    sends, writes exactly the bytes delivered; every request is answered 200 with
    what the handler wrote for its command, in the form it asked for, and all of
    them were served over one connection. *)
Theorem gateway_conversation {H} (srv : Server H) (handler : Server.Handler H) (doneCtx : option Context)
    (decodeJSON : list byte * error → result string) (b : Backend) (st0 : H) (w : World)
    (requests : list (list Z * (Z * HttpRequest))) (tn : turn) (turns : list turn)
    (t hi : Z) (hello arrive : list (Z * arrival)) (ds : list dial_answer) :
  let all := tn :: turns in
  let commands := tn_command <$> all in
  let outs := (outputs handler doneCtx commands st0).1 in
  let password := b_Password b in
  b_Addr b ≠ "" → Z.of_nat (len password) ≤ MaxPayloadSize → checkPassword srv password = true →
  Forall good_command commands → ReadTimeout srv ≤ 0 → no_panic handler doneCtx commands st0 →
  Forall2 (posts decodeJSON) requests all → spaced DefaultIdleTimeout (tn_at tn) turns →
  w_dials w = Connects t (hello ++ concat (tn_arrivals <$> all)) :: ds →
  t < tn_at tn + Client.DefaultDialTimeout →
  delivered (tn_at tn + DefaultDeadline) (frames (auth_answer srv (auth_packet password))) hello →
  in_time DefaultDeadline all (replies 1 outs) →
  delivered hi (frames (transcript password commands)) arrive →
  (∃ st', final (serveConn srv handler doneCtx (serving arrive st0)) = Some st' ∧
     nc_out (sv_conn st') = frames (auth_answer srv (auth_packet password)) ++ concat (frames <$> replies 1 outs)) ∧
  ∃ c', serve_all decodeJSON (New b [] w).1 requests (newCache w) = Ret (answers requests all outs) c' ∧
        length (w_slots (c_world c')) = S (length (w_slots w)).
Proof.
  intros all commands outs password Haddr Hpw Hok Hg Hr Hn HP Hsp Hds Hdial Hhello Ht Harr. split.
  { destruct (serve_transcript srv handler doneCtx password commands arrive hi st0) as (st' & HF & _ & HS); [done..|].
    rewrite Hok in HS. exists st'. split; [done|]. apply HS. }
  apply (proj1 (Forall_fmap _ _ _)) in Hg. unfold all in *. clear Hn Harr Hr.
  generalize dependent outs. intros outs Ht. inversion HP as [|[ticks [t0 r]] ? rs ? HP1 HPs]; subst.
  destruct outs as [|o outs]; [by inversion Ht|]. apply Forall2_cons_1 in Ht as [Hl Ht].
  apply Forall_cons_1 in Hg as [Hg0 Hg]. cbn [fmap list_fmap concat] in Hds.
  pose proof HP1 as (Hticks & Hat & _). cbn [fst snd] in Hticks, Hat. subst t0. cbn [serve_all].
  destruct (reaper_empty (New b [] w).1 ticks (tn_at tn) (newCache w) eq_refl Hticks)
    as (cr & HR0 & Her & Hsr & Hdr & Hnr). rewrite (bind_Ret _ _ _ _ _ HR0).
  set (c0 := set_world (set_clock (Z.max (w_now (c_world cr)) (tn_at tn)) (c_world cr)) cr).
  rewrite (bind_Ret _ _ _ tt c0) by done.
  destruct (execute_dials srv b Hok (tn_command tn) c0 t hello (tn_arrivals tn) (concat (tn_arrivals <$> turns)) ds
    (tn_at tn + DefaultDeadline) (tn_at tn + DefaultDeadline) o) as (c1 & HE & Hc1 & Hn1 & _ & Hs1);
    [done|simpl; by rewrite Hdr|simpl; unfold Client.DefaultDialTimeout, Second in *; lia|simpl; lia|simpl; lia|done..|].
  rewrite <- (app_nil_r (concat _)) in Hc1.
  destruct (serve_cached decodeJSON (New b [] w).1 b Haddr eq_refl eq_refl rs turns outs _ _ _ [] _ (tn_at tn) c1 Hc1)
    as (c' & HR & Hs'); [simpl; lia|unfold busy; lia|done..|].
  exists c'. rewrite (bind_Ret _ _ _ _ _ (Serve_posts decodeJSON (New b [] w).1 b Haddr eq_refl eq_refl (ticks, (_, r)) tn c0 _ c1 HP1 HE)),
    (bind_Ret _ _ _ _ _ HR). split; [done|]. rewrite Hs', Hs1. simpl. by rewrite Hsr.
Qed.

(** Two posts a minute apart, for the turns of the sample conversation; the reaper
    runs before each. *)
Definition post (body : string) : HttpRequest := mkReq MethodPost (λ _, "") (bytes_of body) EOF "" Background.
Definition sample_posts : list (list Z * (Z * HttpRequest)) :=
  [([5], (10, post "hi")); ([30 * Second; 45 * Second], (60 * Second, post "there"))].
Definition sample_hello : list (Z * arrival) :=
  two_segs 14 (frames (auth_answer (echo_server 0) (auth_packet "secret"))).

Lemma gateway_conversation_witness :
  let w := mkWorld 0 [] [Connects 11 (sample_hello ++ concat (tn_arrivals <$> sample_turns))] in
  ∃ c', serve_all (λ _, Err EOF) (New (mkBackend "a" "secret") [] w).1 sample_posts (newCache w) =
    Ret [mkResp StatusOK jsonType None (JSONResult "hi" "hi");
         mkResp StatusOK jsonType None (JSONResult "there" "there")] c' ∧
    length (w_slots (c_world c')) = 1%nat.
Proof.
  intros w. destruct (gateway_conversation (echo_server 0) echo_handler None (λ _, Err EOF)
    (mkBackend "a" "secret") 0%nat w sample_posts (mkTurn 10 "hi" (two_segs 12 (frames (reply 1 (bytes_of "hi")))))
    (tail sample_turns) 11 20 sample_hello (two_segs 9 (frames (transcript "secret" ["hi"; "there"]))) [])
    as [_ HC].
  - discriminate.
  - vm_compute. discriminate.
  - reflexivity.
  - repeat constructor; try discriminate; vm_compute; discriminate.
  - discriminate.
  - repeat split.
  - repeat constructor; try discriminate; vm_compute; reflexivity.
  - split; [discriminate|exact I].
  - reflexivity.
  - reflexivity.
  - apply two_segs_delivered. reflexivity.
  - constructor; [apply two_segs_delivered; reflexivity|].
    constructor; [apply two_segs_delivered; reflexivity|constructor].
  - apply two_segs_delivered. reflexivity.
  - exact HC.
Defined.
