(* ===== verification/Cli.v ===== *)
(** * cmd/rcon: the command line

    [Resolve] and [LoadConfig] of [config.go], [RunSingle] and [exitCode] of
    [run.go], the REPL of [repl.go] and the part of [run] of [main.go] after flag
    parsing ([Main] has the rest). The terminal is what was printed on each stream;
    standard input is a byte string, read by lines as [bufio.Scanner] does. Reading
    a file and decoding JSON are the standard library's: their results are
    arguments. *)

From S2P Require Import Prelude GoErrors GoIO GoNet Packet Options Conn World Client GoStrings GoConv.

Local Open Scope Z_scope.

(** ** config.go *)

Definition DefaultPort : Z := 25575.

Record ServerConfig := mkServerConfig {
  sc_Host : string; sc_Port : Z; sc_Password : string; sc_SinglePacket : bool; sc_Drain : bool
}.
Definition zeroServer : ServerConfig := mkServerConfig "" 0 "" false false.

Record Config := mkConfig { cfg_Default : string; cfg_Servers : gmap string ServerConfig }.

Record Flags := mkFlags {
  fl_Host : string; fl_Port : Z; fl_Password : string; fl_Server : string;
  fl_SinglePacket : bool; fl_Drain : bool
}.

Record Env := mkEnv {
  env_Host : string; env_Port : Z; env_Password : string; env_SinglePacket : bool; env_Drain : bool
}.

Record Resolved := mkResolved {
  Address : string; rs_Password : string; SinglePacket : bool; Drain : bool
}.

(** [os.ReadFile] gave [file]; [unmarshal] is [json.Unmarshal] into a [Config]. *)
Definition LoadConfig (file : result (list byte)) (unmarshal : list byte → result Config)
    (path : string) (mustExist : bool) : result Config :=
  match file with
  | Err err =>
      if Is err OsErrNotExist && negb mustExist then Ok (mkConfig "" ∅) else Err err
  | Ok data =>
      match unmarshal data with
      | Err err => Err (Errorf1 (String.append "parse config " path) err)
      | Ok cfg => Ok cfg
      end
  end.

(** [net.JoinHostPort] *)
Definition JoinHostPort (host port : string) : string :=
  if Contains host ":" then String.append "[" (String.append host (String.append "]:" port))
  else String.append host (String.append ":" port).

Definition errNoHost : error :=
  ErrorString "no host specified (use --host, RCON_HOST, or a config server)".

Definition Resolve (cfg : Config) (flags : Flags) (env : Env) : result Resolved :=
  let base := default zeroServer (cfg_Servers cfg !! or_string [fl_Server flags; cfg_Default cfg]) in
  let host := or_string [fl_Host flags; env_Host env; sc_Host base] in
  let password := or_string [fl_Password flags; env_Password env; sc_Password base] in
  let port := or_int [fl_Port flags; env_Port env; sc_Port base; DefaultPort] in
  if decide (host = "") then Err errNoHost else
  Ok {| Address := JoinHostPort host (Itoa port);
        rs_Password := password;
        SinglePacket := fl_SinglePacket flags || env_SinglePacket env || sc_SinglePacket base;
        Drain := fl_Drain flags || env_Drain env || sc_Drain base |}.

(** ** Streams *)

Definition newline : string := String (Ascii.ascii_of_nat 10) "".

Record term := mkTerm {
  tm_world : World;
  tm_stdout : list string;
  tm_stderr : list error
}.

Definition Fprint (s : string) (t : term) : term := mkTerm (tm_world t) (tm_stdout t ++ [s]) (tm_stderr t).
Definition Fprintln (s : string) : term → term := Fprint (String.append s newline).
Definition FprintErr (e : error) (t : term) : term := mkTerm (tm_world t) (tm_stdout t) (tm_stderr t ++ [e]).
Definition set_tm_world (w : World) (t : term) : term := mkTerm w (tm_stdout t) (tm_stderr t).

Definition in_term {A} (m : GoM World A) : GoM term A := zoom tm_world set_tm_world m.

(** [bufio.Scanner] with [ScanLines]: the lines, and the error that ended them. *)
Definition MaxScanTokenSize : nat := Z.to_nat (64 * 1024).
Definition ErrTooLong : error := ErrorString "bufio.Scanner: token too long".

Definition drop_cr (l : list byte) : list byte :=
  match rev l with x0d :: l' => rev l' | _ => l end.

(** [cur] is the line so far, reversed; [n] counts down to the size limit. *)
Fixpoint scan_lines (cur : list byte) (n : nat) (data : list byte) : list string * option error :=
  match data with
  | [] => (match cur with [] => [] | _ => [string_of (drop_cr (rev cur))] end, None)
  | x0a :: data =>
      let (ls, err) := scan_lines [] MaxScanTokenSize data in
      (string_of (drop_cr (rev cur)) :: ls, err)
  | b :: data =>
      match n with
      | S (S n') => scan_lines (b :: cur) (S n') data
      | _ => ([], Some ErrTooLong)
      end
  end.

(** ** run.go *)

Definition exitCode (err : error) : Z := if Is err ErrAuthFailed then 3 else 2.

Section App.
Context (tie : Z → bool) (client : Client).

(** A panic of the client's backoff ends the process. *)
Definition RunSingle (ctx : Context) (target : Resolved) (command : string) : GoM term (ended Z) :=
  do r <- in_term (Client.Execute tie client (Address target) (rs_Password target) command ctx);
  match r with
  | Panicked => ret Panicked
  | Returned (Err err) => do _ <- modify (FprintErr err); ret (Returned (exitCode err))
  | Returned (Ok out) => do _ <- modify (Fprintln out); ret (Returned 0)
  end.

(** ** repl.go *)

Definition in_session {A} (m : SessionM A) : GoM (Session * term) A :=
  zoom (λ st, (st.1, tm_world st.2)) (λ sw st, (sw.1, set_tm_world sw.2 st.2)) m.
Definition print (f : term → term) : GoM (Session * term) unit := modify (λ st, (st.1, f st.2)).

(** The loop over the lines the scanner delivers; [err] is [scanner.Err()]. *)
Fixpoint repl_loop (ctx : Context) (prompt : string) (lines : list string) (err : option error) :
    GoM (Session * term) Z :=
  do _ <- (if decide (prompt = "") then ret tt else print (Fprint prompt));
  match lines with
  | [] =>
      match err with
      | Some e => do _ <- print (FprintErr e); ret 2
      | None => ret 0
      end
  | text :: lines =>
      let line := TrimSpace text in
      if decide (line = "") then repl_loop ctx prompt lines err
      else if decide (line = ":exit" ∨ line = ":quit") then ret 0
      else
        do r <- in_session (SessionExecute ctx line);
        match r with
        | Err e => do _ <- print (FprintErr e); repl_loop ctx prompt lines err
        | Ok out => do _ <- print (Fprintln out); repl_loop ctx prompt lines err
        end
  end.

Definition RunInteractive (ctx : Context) (stdin : list byte) (target : Resolved) (prompt : string) :
    GoM term Z := λ t,
  match in_term (DialSession client ctx (Address target) (rs_Password target)) t with
  | Ret (Err err) t => Ret (exitCode err) (FprintErr err t)
  | Ret (Ok session) t =>
      let (lines, err) := scan_lines [] MaxScanTokenSize stdin in
      match (do code <- repl_loop ctx prompt lines err;
             do _ <- in_session SessionClose;
             ret code) (session, t) with
      | Ret code st => Ret code st.2
      | Blocks st => Blocks st.2
      | Diverges => Diverges
      end
  | Blocks t => Blocks t
  | Diverges => Diverges
  end.
End App.

(** ** main.go *)

Definition promptFor (server : string) (cfg : Config) : string :=
  if decide (server = "") then
    if decide (cfg_Default cfg = "") then "rcon> "
    else String.append (cfg_Default cfg) "> "
  else String.append server "> ".

Definition target_opts (target : Resolved) : list Client.Option :=
  if Drain target then [Client.WithReadUntilIdle 0]
  else if SinglePacket target then [Client.WithSinglePacket]
  else [].

(** [strings.Join(args, " ")] *)
Fixpoint join (args : list string) : string :=
  match args with
  | [] => ""
  | [a] => a
  | a :: args => String.append a (String.append " " (join args))
  end.

(** [run] once the flags are parsed ([showVer] unset): [file] is what reading the
    config path gives and [args] the remaining arguments. *)
Definition run_parsed (tie : Z → bool) (flags : Flags) (env : Env) (configPath : string)
    (explicitConfig : bool) (file : result (list byte)) (unmarshal : list byte → result Config)
    (args : list string) (stdin : list byte) : GoM term (ended Z) :=
  match LoadConfig file unmarshal configPath explicitConfig with
  | Err err => do _ <- modify (FprintErr err); ret (Returned 2)
  | Ok cfg =>
      match Resolve cfg flags env with
      | Err err => do _ <- modify (FprintErr err); ret (Returned 2)
      | Ok target =>
          let client := Client.New (target_opts target) in
          let ctx := Background in
          match args with
          | [] => do code <- RunInteractive client ctx stdin target (promptFor (fl_Server flags) cfg);
                  ret (Returned code)
          | _ => RunSingle tie client ctx target (join args)
          end
      end
  end.
