(* ===== verification/CliProps.v ===== *)
(** * Properties of the command line

    Whatever the user types and the server does, a run of the command line that
    ends leaves no connection open and exits with one of the documented codes. *)

From S2P Require Import Prelude GoErrors GoIO GoNet Packet Options Conn ConnProps World Client ClientProps SessionProps GoStrings Cli.

Local Open Scope Z_scope.

(** The session's connection is the only open slot beyond [base]. *)
Record only_open (base : list slot) (s : Session) (w : World) : Prop := {
  oo_live : live s w;
  oo_base : ∃ new, w_slots w = base ++ new;
  oo_conn : (length base ≤ s_conn s)%nat;
  oo_closed l sl : (length base ≤ l)%nat → l ≠ s_conn s → w_slots w !! l = Some sl → slot_closed sl = true
}.

Section Repl.
Context (client : Client) `{!Dialer (transport client)} (base : list slot) (ctx : Context).

Lemma only_open_run command s w r s' w' :
  s_client s = client → only_open base s w → SessionExecute ctx command (s, w) = Ret r (s', w') →
  only_open base s' w' ∧ s_client s' = client.
Proof.
  intros Hcl [Hl [new Hb] Hge Hc] HR%SessionExecute_run.
  assert (Dialer (transport (s_client s))) by (by rewrite Hcl).
  destruct (session_run_slots _ _ _ _ _ _ _ Hl HR) as (Hl' & Hcl' & Hopen).
  destruct (session_run_others _ _ _ _ _ _ _ Hl HR) as (_ & _ & Hconn & _ & Hsame).
  assert (length base ≤ length (w_slots w))%nat by (rewrite Hb, length_app; lia).
  split; [|congruence]. split; [done| |destruct Hconn as [->| ->]; lia|].
  - apply (prefix_kept base new). intros i Hi. rewrite Hsame by lia. by rewrite Hb.
  - intros l sl Hll Hne Hsl. destruct (slot_closed sl) eqn:Hop; [done|].
    destruct (Hopen l sl Hne Hsl Hop) as [Hne' Hsl']. by rewrite (Hc l sl Hll Hne' Hsl') in Hop.
Qed.

(** Closing the session closes the last open slot. *)
Lemma only_open_close s w w0 :
  w_slots w0 = base → only_open base s w →
  ∃ r w', SessionClose (s, w) = Ret r (s, w') ∧ leaves_closed w0 w'.
Proof.
  intros <- [Hl [new Hb] Hge Hc]. destruct (SessionClose_spec s w Hl) as (r & w' & cn & HC & Hs & Hcl & _).
  exists r, w'. split; [done|].
  exists (<[(s_conn s - length (w_slots w0))%nat := SConn cn]> new).
  rewrite Hs, Hb. split; [by apply insert_app_r_alt|]. apply Forall_lookup_2. intros i sl.
  rewrite list_lookup_insert_Some. intros [(_ & <- & _)|[Hne Hi]]; [done|].
  apply (Hc (length (w_slots w0) + i)%nat); [lia|lia|].
  by rewrite Hb, lookup_app_r, Nat.add_comm, Nat.add_sub by lia.
Qed.

Lemma repl_loop_open prompt lines err s t code st' :
  s_client s = client → only_open base s (tm_world t) →
  repl_loop ctx prompt lines err (s, t) = Ret code st' →
  only_open base st'.1 (tm_world st'.2) ∧ (code = 0 ∨ code = 2).
Proof.
  revert s t. induction lines as [|text lines IH]; intros s t Hcl Ho; cbn [repl_loop];
    intros (? & [s1 t1] & HP & HK)%bind_inv;
    (assert (s1 = s ∧ tm_world t1 = tm_world t) as [-> Hw]
       by (destruct (decide (prompt = "")); unfold print, modify, ret in HP; by simplify_eq/=));
    rewrite <- Hw in Ho.
  - destruct err; unfold bind, print, modify, ret in HK; simplify_eq/=; auto.
  - cbv zeta in HK. destruct (decide (TrimSpace text = "")); [by apply (IH s t1)|].
    destruct (decide (TrimSpace text = ":exit" ∨ TrimSpace text = ":quit"));
      [unfold ret in HK; simplify_eq/=; auto|].
    apply bind_inv in HK as (r & [s2 t2] & HE & HK). apply zoom_inv in HE as ([s3 w3] & HE & [= -> ->]).
    destruct (only_open_run _ _ _ _ _ _ Hcl Ho HE) as [Ho3 Hcl3].
    destruct r; unfold bind, print, modify in HK; by eapply IH in HK.
Qed.

End Repl.

Lemma RunInteractive_clean client `{!Dialer (transport client)} ctx stdin target prompt t code t' :
  RunInteractive client ctx stdin target prompt t = Ret code t' →
  leaves_closed (tm_world t) (tm_world t') ∧ (code = 0 ∨ code = 2 ∨ code = 3).
Proof.
  unfold RunInteractive.
  destruct (in_term _ t) as [[s|e] t1|t1|] eqn:HD; try done;
    apply zoom_inv in HD as (w1 & (r1 & w2 & HD & HK)%bind_inv & ->);
    rewrite dial_connect in HD; apply connect_inv in HD; try done;
    destruct r1; unfold ret in HK; simplify_eq.
  - destruct HD as (-> & cn & Hg & Hset). destruct (scan_lines _ _ stdin) as [lines err].
    destruct (bind _ _ _) as [code' st| |] eqn:HR; try done. intros [= <- <-].
    apply bind_inv in HR as (code1 & [s1 t1] & HL & HR). apply bind_inv in HR as (rc & st2 & HC & HR).
    unfold ret in HR. simplify_eq. apply (repl_loop_open client (w_slots (tm_world t))) in HL as [Ho Hcode]; [|done|].
    + apply zoom_inv in HC as ([s2 w2] & HC & ->).
      destruct (only_open_close _ _ _ (tm_world t) eq_refl Ho) as (r & w' & HC' & Hcl).
      cbn [fst snd] in *. rewrite HC' in HC. simplify_eq/=. split; [done|]. destruct Hcode; auto.
    + split; simpl.
      * exists cn. split; [by apply grown_lookup|done].
      * exists [SConn cn]. exact Hg.
      * done.
      * intros l sl Hge Hne Hsl. apply lookup_lt_Some in Hsl. rewrite Hg, length_app in Hsl. simpl in *. lia.
  - intros [= <- <-]. split; [done|]. unfold exitCode. case_match; auto.
Qed.

(** The client of a run has no dialer of its own and retries nothing. *)
Lemma target_client target :
  Dialer (transport (Client.New (target_opts target))) ∧ attempts (Client.New (target_opts target)) = 1.
Proof. unfold target_opts. destruct (Drain target), (SinglePacket target); split; try done; apply tcp_Dialer. Qed.

Lemma attempt_loop_last tie c a p cmd ctx n w r w' :
  attempt_loop tie c a p cmd 0 ctx n w = Ret r w' → ∃ r', r = Returned r'.
Proof.
  cbn [attempt_loop]. intros ([out|err] & w1 & _ & HK)%bind_inv; unfold ret in HK; repeat case_match;
    simplify_eq; by eexists.
Qed.

(** Once the flags are parsed: a run that ends leaves every connection it opened
    closed and exits with code 0, 2 or 3. *)
Lemma run_parsed_clean (tie : Z → bool) (flags : Flags) (env : Env) (configPath : string)
    (explicitConfig : bool) (file : result (list byte)) (unmarshal : list byte → result Config)
    (args : list string) (stdin : list byte) (t t' : term) (r : ended Z) :
  run_parsed tie flags env configPath explicitConfig file unmarshal args stdin t = Ret r t' →
  leaves_closed (tm_world t) (tm_world t') ∧
  ∃ code, r = Returned code ∧ (code = 0 ∨ code = 2 ∨ code = 3).
Proof.
  unfold run_parsed. destruct (LoadConfig _ _ _ _) as [cfg|e]; cycle 1.
  { intros [= <- <-]. split; [by apply leaves_closed_same|]. eexists; auto. }
  destruct (Resolve cfg flags env) as [target|e]; cycle 1.
  { intros [= <- <-]. split; [by apply leaves_closed_same|]. eexists; auto. }
  destruct (target_client target) as [HD Hatt]. destruct args as [|arg args].
  - intros (code & t1 & HR & HK)%bind_inv. unfold ret in HK. simplify_eq.
    destruct (RunInteractive_clean _ _ _ _ _ _ _ _ HR) as [? ?].
    split; [done|]. by eexists.
  - intros (r1 & t1 & (w1 & HE & ->)%zoom_inv & HK)%bind_inv.
    unfold Client.Execute in HE. rewrite Hatt in HE. cbv zeta in HE.
    replace (Z.to_nat ((if 1 <? 1 then 1 else 1) - 1)) with 0%nat in HE by done.
    destruct (attempt_loop_last _ _ _ _ _ _ _ _ _ _ HE) as [r' ->].
    apply attempt_loop_closes in HE; [|done].
    destruct r' as [out|err]; unfold bind, modify, ret in HK; simplify_eq/=; (split; [done|]);
      eexists; (split; [done|]); [auto|]. unfold exitCode. case_match; auto.
Qed.
