(* ===== verification/Main.v ===== *)
(** * cmd/rcon/main.go: flags, environment, the whole run

    [flag.FlagSet] as [run] uses it: the flags it defines, [Parse] with its
    grammar (one or two dashes, [-name=value] or [-name value], boolean flags
    without a value, [--] to end the flags), and the set of flags that were given,
    which [Visit] reports. [envFromOS], [defaultConfigPath] and [run] complete the
    program. [getenv] is [os.Getenv], [home] is [os.UserHomeDir()], [readFile] is
    [os.ReadFile], [unmarshal] is [json.Unmarshal] and [quote] the [%q] verb; the
    usage text the flag package prints is not kept. *)

From Stdlib Require Import Ascii.
From S2P Require Import Prelude GoErrors GoIO GoNet Packet Options Conn World Client GoStrings GoConv Cli.

Local Open Scope Z_scope.

(** ** package flag *)

Record flagset := mkFS {
  fs_host : string; fs_port : Z; fs_password : string; fs_config : string; fs_server : string;
  fs_single : bool; fs_drain : bool; fs_version : bool;
  fs_actual : list string;            (* the names of the flags given *)
  fs_args : list string               (* what is left after the flags *)
}.

(** A flag: boolean flags need no value, the others parse one. *)
Inductive flag_value :=
  | BoolFlag (set : bool → flagset → flagset)
  | ValueFlag (set : string → flagset → flagset + string).

Definition errParse : string := "parse error".
Definition errRange : string := "value out of range".

(** [intValue.Set] *)
Definition int_flag (set : Z → flagset → flagset) : flag_value := ValueFlag (λ v fs,
  match ParseInt true v with
  | (n, None) => inl (set n fs)
  | (_, Some ErrSyntax) => inr errParse
  | (_, Some ErrRange) => inr errRange
  end).
(** [stringValue.Set] *)
Definition string_flag (set : string → flagset → flagset) : flag_value := ValueFlag (λ v fs, inl (set v fs)).

Definition with_host v fs := mkFS v (fs_port fs) (fs_password fs) (fs_config fs) (fs_server fs) (fs_single fs) (fs_drain fs) (fs_version fs) (fs_actual fs) (fs_args fs).
Definition with_port v fs := mkFS (fs_host fs) v (fs_password fs) (fs_config fs) (fs_server fs) (fs_single fs) (fs_drain fs) (fs_version fs) (fs_actual fs) (fs_args fs).
Definition with_password v fs := mkFS (fs_host fs) (fs_port fs) v (fs_config fs) (fs_server fs) (fs_single fs) (fs_drain fs) (fs_version fs) (fs_actual fs) (fs_args fs).
Definition with_config v fs := mkFS (fs_host fs) (fs_port fs) (fs_password fs) v (fs_server fs) (fs_single fs) (fs_drain fs) (fs_version fs) (fs_actual fs) (fs_args fs).
Definition with_server v fs := mkFS (fs_host fs) (fs_port fs) (fs_password fs) (fs_config fs) v (fs_single fs) (fs_drain fs) (fs_version fs) (fs_actual fs) (fs_args fs).
Definition with_single v fs := mkFS (fs_host fs) (fs_port fs) (fs_password fs) (fs_config fs) (fs_server fs) v (fs_drain fs) (fs_version fs) (fs_actual fs) (fs_args fs).
Definition with_drain v fs := mkFS (fs_host fs) (fs_port fs) (fs_password fs) (fs_config fs) (fs_server fs) (fs_single fs) v (fs_version fs) (fs_actual fs) (fs_args fs).
Definition with_version v fs := mkFS (fs_host fs) (fs_port fs) (fs_password fs) (fs_config fs) (fs_server fs) (fs_single fs) (fs_drain fs) v (fs_actual fs) (fs_args fs).
Definition with_args v fs := mkFS (fs_host fs) (fs_port fs) (fs_password fs) (fs_config fs) (fs_server fs) (fs_single fs) (fs_drain fs) (fs_version fs) (fs_actual fs) v.
(** [f.actual[name] = flag] *)
Definition visited (name : string) fs := mkFS (fs_host fs) (fs_port fs) (fs_password fs) (fs_config fs) (fs_server fs) (fs_single fs) (fs_drain fs) (fs_version fs) (fs_actual fs ++ [name]) (fs_args fs).

(** The flags [run] defines, and their defaults. *)
Definition formal : list (string * flag_value) :=
  [("host", string_flag with_host);
   ("port", int_flag with_port);
   ("password", string_flag with_password);
   ("config", string_flag with_config);
   ("server", string_flag with_server);
   ("single-packet", BoolFlag with_single);
   ("drain", BoolFlag with_drain);
   ("version", BoolFlag with_version)].

Definition newFlagSet (defaultConfig : string) : flagset :=
  mkFS "" 0 "" defaultConfig "" false false false [] [].

Fixpoint find_flag (name : string) (l : list (string * flag_value)) : option flag_value :=
  match l with
  | [] => None
  | (n, f) :: l => if decide (n = name) then Some f else find_flag name l
  end.

(** The first [=] after the first character splits a name from its value. *)
Fixpoint cut_eq (s : string) : string * option string :=
  match s with
  | EmptyString => ("", None)
  | String c s' =>
      if decide (c = "="%char) then ("", Some s')
      else let (n, v) := cut_eq s' in (String c n, v)
  end.

Inductive token :=
  | NotFlag
  | Terminator
  | BadFlag
  | Flag (name : string) (value : option string).

(** What one argument is: the first half of [parseOne]. *)
Definition classify (s : string) : token :=
  match s with
  | String a (String b s') =>
      if decide (a = "-"%char) then
        if decide (b = "-"%char ∧ s' = "") then Terminator else
        let name := if decide (b = "-"%char) then s' else String b s' in
        match name with
        | EmptyString => BadFlag
        | String c rest =>
            if decide (c = "-"%char ∨ c = "="%char) then BadFlag
            else let (n, v) := cut_eq rest in Flag (String c n) v
        end
      else NotFlag
  | _ => NotFlag
  end.

Inductive parsed :=
  | Parsed (fs : flagset)
  | Help
  | Failed (message : string).

Section Flags.
Context (quote : string → string).

Definition append3 (a b c : string) : string := String.append a (String.append b c).

(** [failf] for a value a flag refuses. *)
Definition bad_value (value name reason : string) : string :=
  append3 "invalid value " (quote value) (append3 " for flag -" name (String.append ": " reason)).
Definition bad_bool (value name : string) : string :=
  append3 "invalid boolean value " (quote value) (append3 " for -" name (String.append ": " errParse)).

(** [Parse]: [parseOne] until it is done or fails. *)
Fixpoint Parse (fs : flagset) (args : list string) : parsed :=
  match args with
  | [] => Parsed (with_args [] fs)
  | s :: rest =>
      match classify s with
      | NotFlag => Parsed (with_args args fs)
      | Terminator => Parsed (with_args rest fs)
      | BadFlag => Failed (String.append "bad flag syntax: " s)
      | Flag name value =>
          match find_flag name formal with
          | None =>
              if decide (name = "help" ∨ name = "h") then Help
              else Failed (String.append "flag provided but not defined: -" name)
          | Some (BoolFlag set) =>
              match value with
              | None => Parse (visited name (set true fs)) rest
              | Some v =>
                  match ParseBool v with
                  | Some b => Parse (visited name (set b fs)) rest
                  | None => Failed (bad_bool v name)
                  end
              end
          | Some (ValueFlag set) =>
              match value with
              | Some v =>
                  match set v fs with
                  | inl fs' => Parse (visited name fs') rest
                  | inr reason => Failed (bad_value v name reason)
                  end
              | None =>
                  match rest with
                  | [] => Failed (String.append "flag needs an argument: -" name)
                  | v :: rest' =>
                      match set v fs with
                      | inl fs' => Parse (visited name fs') rest'
                      | inr reason => Failed (bad_value v name reason)
                      end
                  end
              end
          end
      end
  end.
End Flags.

(** ** main.go *)

Definition envFromOS (getenv : string → string) : Env :=
  let port := (Atoi (getenv "RCON_PORT")).1 in
  let singlePacket := default false (ParseBool (getenv "RCON_SINGLE_PACKET")) in
  let drain := default false (ParseBool (getenv "RCON_DRAIN")) in
  mkEnv (getenv "RCON_HOST") port (getenv "RCON_PASSWORD") singlePacket drain.

Definition defaultConfigPath (home : result string) : string :=
  match home with
  | Err _ => ".rcon.json"
  | Ok home => String.append home "/.rcon.json"
  end.

(** The [Flags] literal of [run]. *)
Definition flags_of (fs : flagset) : Flags :=
  mkFlags (fs_host fs) (fs_port fs) (fs_password fs) (fs_server fs) (fs_single fs) (fs_drain fs).

(** Build metadata. *)
Record build := mkBuild { Version : string; Revision : string; BuildDate : string }.

Definition version_line (b : build) : string :=
  append3 "rcon " (Version b) (append3 " (" (Revision b) (append3 ") built " (BuildDate b) newline)).

(** The world around the process. *)
Record system := mkSystem {
  os_getenv : string → string;
  os_home : result string;
  os_readFile : string → result (list byte);
  json_unmarshal : list byte → result Config;
  fmt_quote : string → string
}.

Definition run (tie : Z → bool) (meta : build) (os : system) (args : list string) (stdin : list byte) :
    GoM term (ended Z) :=
  match Parse (fmt_quote os) (newFlagSet (defaultConfigPath (os_home os))) args with
  | Help => ret (Returned 0)
  | Failed message => do _ <- modify (FprintErr (ErrorString message)); ret (Returned 2)
  | Parsed fs =>
      if fs_version fs then
        do _ <- modify (Fprint (version_line meta)); ret (Returned 0)
      else
        let explicitConfig := bool_decide ("config" ∈ fs_actual fs) in
        run_parsed tie (flags_of fs) (envFromOS (os_getenv os)) (fs_config fs) explicitConfig
          (os_readFile os (fs_config fs)) (json_unmarshal os) (fs_args fs) stdin
  end.
