(* ===== verification/MainProps.v ===== *)
(** * Properties of the whole command line

    Flags printed and parsed back, the environment's port, and the clean exit of
    every run. *)

From Stdlib Require Import Ascii.
From S2P Require Import Prelude GoErrors GoIO GoNet Packet Options Conn ConnProps World Client ClientProps SessionProps GoStrings GoConv Cli CliProps Main.

Local Open Scope Z_scope.

(** ** Flags as arguments *)

Definition eq_arg (name value : string) : string := String.append "-" (append3 name "=" value).

(** One way to write flags: values after an equals sign, boolean flags alone, the
    configuration file as a separate argument. *)
Definition render (f : Flags) (config : option string) : list string :=
  [eq_arg "host" (fl_Host f); eq_arg "port" (Itoa (fl_Port f));
   eq_arg "password" (fl_Password f); eq_arg "server" (fl_Server f)] ++
  (if fl_SinglePacket f then ["--single-packet"] else []) ++
  (if fl_Drain f then ["-drain"] else []) ++
  match config with Some path => ["--config"; path] | None => [] end.

Section Parse.
Context (quote : string → string).

(** [-name=value] for a flag that takes a value. *)
Lemma Parse_value name set v fs fs' rest :
  classify (eq_arg name v) = Flag name (Some v) → find_flag name formal = Some (ValueFlag set) →
  set v fs = inl fs' → Parse quote fs (eq_arg name v :: rest) = Parse quote (visited name fs') rest.
Proof. intros Hc Hf Hs. cbn [Parse]. by rewrite Hc, Hf, Hs. Qed.

Lemma Parse_bool arg name set fs rest :
  classify arg = Flag name None → find_flag name formal = Some (BoolFlag set) →
  Parse quote fs (arg :: rest) = Parse quote (visited name (set true fs)) rest.
Proof. intros Hc Hf. cbn [Parse]. by rewrite Hc, Hf. Qed.

Lemma Parse_port n fs rest :
  is_int64 n →
  Parse quote fs (eq_arg "port" (Itoa n) :: rest) = Parse quote (visited "port" (with_port n fs)) rest.
Proof. intros Hn. eapply Parse_value; [done|done|]. simpl. by rewrite ParseInt_Itoa. Qed.

Lemma Parse_end fs words : Parse quote fs ("--" :: words) = Parsed (with_args words fs).
Proof. done. Qed.

(** The four flags with values, then the rest. *)
Lemma Parse_values f fs rest :
  is_int64 (fl_Port f) →
  Parse quote fs (take 4 (render f None) ++ rest) =
  Parse quote (mkFS (fl_Host f) (fl_Port f) (fl_Password f) (fs_config fs) (fl_Server f) (fs_single fs)
                 (fs_drain fs) (fs_version fs) (fs_actual fs ++ ["host"; "port"; "password"; "server"])
                 (fs_args fs)) rest.
Proof.
  intros Hn. cbn [render take app].
  rewrite (Parse_value "host" (λ v fs, inl (with_host v fs)) _ _ (with_host (fl_Host f) fs)) by done.
  rewrite Parse_port by done.
  erewrite (Parse_value "password" (λ v fs, inl (with_password v fs))) by done.
  erewrite (Parse_value "server" (λ v fs, inl (with_server v fs))) by done.
  unfold visited; cbn. by rewrite <- !app_assoc.
Qed.
End Parse.

(** ** Theorems *)

(** C32: flags survive the command line. For all values of the flags (texts that
    start with dashes, contain equals signs or are empty, ports of any [int]) and
    every list of words after [--], parsing the printed flags gives those values,
    leaves exactly those words as the command, and reports the configuration file
    as given if and only if it was. *)
Theorem flags_roundtrip (quote : string → string) (f : Flags) (config : option string)
    (defaultConfig : string) (words : list string) :
  is_int64 (fl_Port f) →
  ∃ fs, Parse quote (newFlagSet defaultConfig) (render f config ++ "--" :: words) = Parsed fs ∧
    flags_of fs = f ∧ fs_args fs = words ∧ fs_config fs = default defaultConfig config ∧
    fs_version fs = false ∧ ("config" ∈ fs_actual fs ↔ is_Some config).
Proof.
  intros Hn. destruct f as [h n p s sp dr]. simpl in Hn.
  change (render (mkFlags h n p s sp dr) config) with
    (take 4 (render (mkFlags h n p s sp dr) None) ++ (if sp then ["--single-packet"] else []) ++
     (if dr then ["-drain"] else []) ++
     match config with Some path => ["--config"; path] | None => [] end).
  rewrite <- app_assoc, Parse_values by done.
  destruct sp, dr, config as [path|]; cbn [app fl_Host fl_Port fl_Password fl_Server];
    repeat (erewrite Parse_bool by done);
    (eexists; split; [reflexivity|]); split_and!; try reflexivity; simpl; split; intros Hin; try done;
    try (by eexists); try (by repeat (apply elem_of_cons in Hin as [Hin|Hin]; [done|]); apply elem_of_nil in Hin);
    repeat (first [by left|right]).
Qed.

Lemma flags_roundtrip_witness :
  ∃ fs, Parse (λ s, s) (newFlagSet "d") 
          ["-host=h"; "-port=-7"; "-password=--=x"; "-server="; "-drain"; "--config"; "c.json"; "--"; "-h"; "b"] = Parsed fs ∧
    flags_of fs = mkFlags "h" (-7) "--=x" "" false true ∧ fs_args fs = ["-h"; "b"].
Proof.
  destruct (flags_roundtrip (λ s, s) (mkFlags "h" (-7) "--=x" "" false true) (Some "c.json") "d" ["-h"; "b"])
    as (fs & HP & Hf & Ha & _).
  - unfold is_int64. simpl. lia.
  - exists fs. split; [exact HP|]. split; [exact Hf|exact Ha].
Defined.

(** A port in the environment is dialed as it is written. When [RCON_PORT] is
    the decimal text of a non-zero [int] and no port flag is given, the resolved
    address is the host followed by that text; when it is no number, the port
    comes from the configuration or the default. *)
Theorem env_port_used (cfg : Config) (flags : Flags) (getenv : string → string) (target : Resolved) :
  fl_Port flags = 0 → Resolve cfg flags (envFromOS getenv) = Ok target →
  ∃ host,
    (∀ n, n ≠ 0 → is_int64 n → getenv "RCON_PORT" = Itoa n →
       Address target = JoinHostPort host (getenv "RCON_PORT")) ∧
    ((Atoi (getenv "RCON_PORT")).2 = Some ErrSyntax →
       Address target = JoinHostPort host (Itoa (or_int [sc_Port (default zeroServer
         (cfg_Servers cfg !! or_string [fl_Server flags; cfg_Default cfg])); DefaultPort]))).
Proof.
  intros Hf. unfold Resolve. case_decide as Hh; [done|]. intros [= <-]. eexists. split.
  - intros n Hn Hi Hg. cbn [Address]. cbn [envFromOS env_Port]. rewrite Hg, Atoi_Itoa, Hf by done.
    cbn [fst or_int]. replace (0 =? 0) with true by done. by replace (n =? 0) with false by lia.
  - intros He. cbn [Address]. cbn [envFromOS env_Port]. rewrite Hf.
    assert ((Atoi (getenv "RCON_PORT")).1 = 0) as ->; [|done].
    by apply Atoi_syntax.
Qed.

Lemma env_port_used_witness :
  let getenv := λ s, if decide (s = "RCON_PORT") then "27015" else if decide (s = "RCON_HOST") then "h" else "" in
  ∃ target, Resolve (mkConfig "" ∅) (mkFlags "" 0 "" "" false false) (envFromOS getenv) = Ok target ∧
            Address target = "h:27015".
Proof.
  intros getenv.
  destruct (Resolve (mkConfig "" ∅) (mkFlags "" 0 "" "" false false) (envFromOS getenv)) as [target|e] eqn:HR;
    [|vm_compute in HR; discriminate].
  destruct (env_port_used (mkConfig "" ∅) (mkFlags "" 0 "" "" false false) getenv target) as (host & Hport & _).
  - reflexivity.
  - exact HR.
  - exists target. split; [reflexivity|].
    specialize (Hport 27015 ltac:(discriminate) ltac:(unfold is_int64; lia) eq_refl).
    vm_compute in HR. injection HR as <-. vm_compute. reflexivity.
Defined.

(** C25: the command line cleans up. Whatever the arguments, the environment, the
    configuration, the input and the behaviour of the server, a run that ends
    leaves every connection it opened closed and exits with code 0, 2 or 3; a run
    that only prints its version or help, or fails on its flags, dials nothing. *)
Theorem cli_exits_clean (tie : Z → bool) (meta : build) (os : system) (args : list string)
    (stdin : list byte) (t t' : term) (r : ended Z) :
  run tie meta os args stdin t = Ret r t' →
  leaves_closed (tm_world t) (tm_world t') ∧
  (∃ code, r = Returned code ∧ (code = 0 ∨ code = 2 ∨ code = 3)) ∧
  match Parse (fmt_quote os) (newFlagSet (defaultConfigPath (os_home os))) args with
  | Parsed fs => fs_version fs = true → tm_world t' = tm_world t
  | Help | Failed _ => tm_world t' = tm_world t
  end.
Proof.
  unfold run. destruct (Parse _ _ args) as [fs| |message].
  - destruct (fs_version fs).
    + intros [= <- <-]. split_and!; [by apply leaves_closed_same|eexists; auto|done].
    + intros [? ?]%run_parsed_clean. done.
  - intros [= <- <-]. split_and!; [by apply leaves_closed_same|eexists; auto|done].
  - intros [= <- <-]. split_and!; [by apply leaves_closed_same|eexists; auto|done].
Qed.

(** A system with nothing set. *)
Definition bare : system := mkSystem (λ _, "") (Ok "/root") (λ _, Err OsErrNotExist) (λ _, Err EOF) (λ s, s).

Lemma cli_exits_clean_witness :
  ∃ t', run (λ _, true) (mkBuild "dev" "none" "unknown") bare ["--host"; "h"; "ping"] []
          (mkTerm (sample_world [good_server 5]) [] []) = Ret (Returned 0) t' ∧
        leaves_closed (sample_world [good_server 5]) (tm_world t').
Proof.
  destruct (run (λ _, true) (mkBuild "dev" "none" "unknown") bare ["--host"; "h"; "ping"] []
          (mkTerm (sample_world [good_server 5]) [] [])) as [r t'| |] eqn:HR; [|vm_compute in HR; discriminate..].
  destruct (cli_exits_clean _ _ _ _ _ _ _ _ HR) as [Hc _].
  exists t'. split; [|exact Hc]. vm_compute in HR. injection HR as <- <-. reflexivity.
Defined.

(** A configuration file that was asked for must exist; the default one need
    not. When the file cannot be found, a run with [-config] reports it, exits
    with code 2 and dials nothing; a run without it goes on as with an empty
    configuration. *)
Theorem missing_config (tie : Z → bool) (meta : build) (os : system) (args : list string)
    (stdin : list byte) (t : term) (fs : flagset) :
  Parse (fmt_quote os) (newFlagSet (defaultConfigPath (os_home os))) args = Parsed fs →
  fs_version fs = false → os_readFile os (fs_config fs) = Err OsErrNotExist →
  run tie meta os args stdin t =
  if decide ("config" ∈ fs_actual fs)
  then Ret (Returned 2) (FprintErr OsErrNotExist t)
  else run_parsed tie (flags_of fs) (envFromOS (os_getenv os)) (fs_config fs) false
         (Ok []) (λ _, Ok (mkConfig "" ∅)) (fs_args fs) stdin t.
Proof.
  intros HP Hv Hr. unfold run. rewrite HP, Hv, Hr. unfold run_parsed, LoadConfig.
  case_decide as Hin.
  - by rewrite bool_decide_true.
  - by rewrite bool_decide_false.
Qed.

Lemma missing_config_witness :
  run (λ _, true) (mkBuild "dev" "none" "unknown") bare ["-config=c.json"; "ping"] []
    (mkTerm (sample_world []) [] []) = Ret (Returned 2) (mkTerm (sample_world []) [] [OsErrNotExist]).
Proof.
  destruct (Parse (fmt_quote bare) (newFlagSet (defaultConfigPath (os_home bare))) ["-config=c.json"; "ping"])
    as [fs| |m] eqn:HP; [|vm_compute in HP; discriminate..].
  rewrite (missing_config (λ _, true) (mkBuild "dev" "none" "unknown") bare _ [] _ fs HP).
  - vm_compute in HP. injection HP as <-. reflexivity.
  - vm_compute in HP. injection HP as <-. reflexivity.
  - reflexivity.
Defined.
