(* ===== verification/CliTalk.v ===== *)
(** * The command line against a server

    [run] and [RunInteractive] on a machine whose network leads to a server that
    runs [serveConn]: a command given on the command line prints what the server's
    handler wrote for it, and so does every command typed at the prompt. *)

From S2P Require Import Prelude GoErrors GoIO GoNet Packet Options Conn ConnProps Server ServerProps EndToEnd Dialogue World Client ClientProps Talk GoStrings GoConv Cli CliProps Main.

Local Open Scope Z_scope.

(** ** The prompt *)

(** The commands in the lines typed, up to a quit. *)
Fixpoint typed (lines : list string) : list string :=
  match lines with
  | [] => []
  | text :: lines =>
      let line := TrimSpace text in
      if decide (line = "") then typed lines
      else if decide (line = ":exit" ∨ line = ":quit") then []
      else line :: typed lines
  end.

(** What is on the screen after them: prompts and outputs. *)
Fixpoint screen (prompt : string) (lines : list string) (outs : list (list byte)) : list string :=
  prompt ::
  match lines with
  | [] => []
  | text :: lines =>
      let line := TrimSpace text in
      if decide (line = "") then screen prompt lines outs
      else if decide (line = ":exit" ∨ line = ":quit") then []
      else match outs with
           | [] => []
           | out :: outs => String.append (string_of out) newline :: screen prompt lines outs
           end
  end.

(** Each command is given when the reply to the one before has come; the first at
    [lo]. The time noted in a turn is no later than that. *)
Fixpoint paced (lo : Z) (turns : list turn) : Prop :=
  match turns with
  | [] => True
  | tn :: turns => tn_at tn ≤ lo ∧ ∃ t, comes t (tn_arrivals tn) ∧ paced t turns
  end.

Lemma paced_mono lo lo' turns : lo ≤ lo' → paced lo turns → paced lo' turns.
Proof. destruct turns as [|tn turns]; [done|]. simpl. intros ? [? ?]. split; [lia|done]. Qed.

Lemma repl_talks prompt lines turns outs s t i out rest :
  prompt ≠ "" → tn_command <$> turns = typed lines → s_client s = DefaultClient →
  talking (tm_world t) (s_conn s) i out (concat (tn_arrivals <$> turns) ++ rest) →
  Forall good_command (typed lines) → in_time DefaultDeadline turns (replies i outs) →
  paced (w_now (tm_world t)) turns →
  ∃ t' i' out', repl_loop Background prompt lines None (s, t) = Ret 0 (s, t') ∧
    tm_stdout t' = tm_stdout t ++ screen prompt lines outs ∧ tm_stderr t' = tm_stderr t ∧
    talking (tm_world t') (s_conn s) i' out' rest.
Proof.
  intros Hp. revert turns outs t i out. induction lines as [|text lines IH]; intros turns outs t i out Htn Hs Ht Hg Hin Hpc;
    cbn [repl_loop typed screen] in *; rewrite decide_False by done; unfold print at 1, modify, bind at 1.
  { destruct turns; [|done]. by eexists (Fprint prompt t), i, out. }
  cbv zeta in *. set (t1 := Fprint prompt t).
  destruct (decide (TrimSpace text = "")) as [Hb|Hb].
  { destruct (IH turns outs t1 i out Htn Hs Ht Hg Hin Hpc) as (t' & i' & out' & HR & Ho & He & Ht').
    exists t', i', out'. split_and!; [done| |done|done]. rewrite Ho. simpl. by rewrite <- app_assoc. }
  destruct (decide (TrimSpace text = ":exit" ∨ TrimSpace text = ":quit")) as [Hq|Hq].
  { destruct turns; [|done]. by eexists t1, i, out. }
  destruct turns as [|tn turns]; [done|]. injection Htn as Hcmd Htn.
  destruct outs as [|o outs]; [by inversion Hin|]. apply Forall2_cons_1 in Hin as [Hl Hin].
  apply Forall_cons_1 in Hg as [Hg0 Hg]. destruct Hpc as [Hat (ta & Hta & Hpc)].
  cbn [fmap list_fmap concat] in Ht. rewrite <- app_assoc in Ht.
  destruct (SessionExecute_talks Background (TrimSpace text) s (tm_world t1) i out (tn_arrivals tn)
    (concat (tn_arrivals <$> turns) ++ rest) (tn_at tn + DefaultDeadline) o)
    as (w2 & s2 & HE & _ & _ & [_ Hn2] & Ht2); [done|done|done|simpl; lia|done|done|].
  set (t2 := Fprintln (string_of o) (set_tm_world w2 t1)).
  destruct (IH turns outs t2 _ _ Htn Hs Ht2 Hg Hin) as (t' & i' & out' & HR & Ho & He & Ht').
  { eapply paced_mono; [|done]. by apply Hn2. }
  exists t', i', out'. split_and!.
  - unfold bind at 1, in_session, zoom. cbn [fst snd]. fold t1. rewrite HE. cbn [fst snd]. unfold bind at 1, print, modify.
    exact HR.
  - rewrite Ho. simpl. by rewrite <- !app_assoc.
  - by rewrite He.
  - done.
Qed.

(** ** Theorems *)

(** C27: the interactive prompt runs what is typed. [RunInteractive] with the
    default client and a non-empty prompt reads lines from its input while a server
    without a read timeout, whose handler does not panic, runs [serveConn] on the
    other side; the network carries every reply within 5 seconds of the moment
    its command is given, cut into any segments. Then the server, reading the
    bytes such a client sends, writes exactly the bytes delivered, and the screen
    shows a prompt and, for every command typed before a quit or the end of the
    input, what the handler wrote for it, in order; nothing goes to the error
    output and the exit code is 0. A refused password prints the error and exits
    with code 3. *)
Theorem cli_interactive_conversation {H} (srv : Server H) (handler : Server.Handler H)
    (doneCtx : option Context) (st0 : H) (stdin : list byte) (lines : list string) (target : Resolved)
    (prompt : string) (tm : term) (turns : list turn) (t0 hi : Z) (hello arrive : list (Z * arrival))
    (ds : list dial_answer) :
  let commands := tn_command <$> turns in
  let outs := (outputs handler doneCtx commands st0).1 in
  let password := rs_Password target in
  let w := tm_world tm in
  let T := Z.max (w_now w) t0 in
  prompt ≠ "" → scan_lines [] MaxScanTokenSize stdin = (lines, None) → commands = typed lines →
  Z.of_nat (len password) ≤ MaxPayloadSize → Forall good_command commands →
  ReadTimeout srv ≤ 0 → no_panic handler doneCtx commands st0 →
  w_dials w = Connects t0 (hello ++ concat (tn_arrivals <$> turns)) :: ds →
  T < w_now w + Client.DefaultDialTimeout →
  delivered (T + DefaultDeadline) (frames (auth_answer srv (auth_packet password))) hello →
  in_time DefaultDeadline turns (replies 1 outs) → paced T turns →
  delivered hi (frames (transcript password commands)) arrive →
  (∃ st', final (serveConn srv handler doneCtx (serving arrive st0)) = Some st' ∧
     (checkPassword srv password = true →
      nc_out (sv_conn st') = frames (auth_answer srv (auth_packet password)) ++ concat (frames <$> replies 1 outs))) ∧
  ∃ tm', RunInteractive DefaultClient Background stdin target prompt tm =
           Ret (if checkPassword srv password then 0 else 3) tm' ∧
    if checkPassword srv password
    then tm_stdout tm' = tm_stdout tm ++ screen prompt lines outs ∧ tm_stderr tm' = tm_stderr tm
    else tm_stdout tm' = tm_stdout tm ∧ tm_stderr tm' = tm_stderr tm ++ [ErrAuthFailed].
Proof.
  intros commands outs password w T Hp Hsc Hcmd Hpw Hg Hr Hn Hds HT Hhello Hin Hpc Harr. split.
  { destruct (serve_transcript srv handler doneCtx password commands arrive hi st0) as (st' & HF & _ & HS); [done..|].
    exists st'. split; [done|]. intros Hok. rewrite Hok in HS. apply HS. }
  destruct (dial_ready srv Background (Address target) password w t0 hello (concat (tn_arrivals <$> turns)) ds
    (T + DefaultDeadline)) as (w1 & HD & Hok); [done..|].
  unfold RunInteractive, in_term, zoom, DialSession. fold w. fold password. unfold bind at 1. rewrite HD.
  destruct (checkPassword srv password); [|by eexists].
  destruct Hok as (_ & [Hn1 _] & c & Hsl & Hrd); [done|]. fold T in Hn1.
  unfold ret. rewrite Hsc. set (s := mkSession DefaultClient (Address target) password (length (w_slots w))).
  destruct (repl_talks prompt lines turns outs s (set_tm_world w1 tm) 1 (frames [auth_packet password]) [])
    as (tm1 & i' & out' & HR & Ho & He & c' & Hc' & _); [done|done|done| |by rewrite <- Hcmd|done| |].
  { exists c. rewrite app_nil_r. split; [|done]. simpl. by rewrite Hsl, list_lookup_middle. }
  { by eapply paced_mono. }
  rewrite (bind_Ret _ _ _ _ _ HR). unfold bind, in_session, zoom, SessionClose, gets, bind, on_world, zoom. cbn [fst snd].
  unfold on_conn. cbn [s s_conn] in *. rewrite Hc'.
  destruct (Conn_Close_spec (set_sock (set_now (w_now (tm_world tm1)) (sock (later [] c'))) (later [] c')))
    as (r & c3 & -> & _).
  eexists. split; [done|]. done.
Qed.

(** Two commands typed to the echo server, with a blank line and a quit. *)
Definition typed_turns : list turn :=
  [mkTurn 3 "hi" (two_segs 12 (frames (reply 1 (bytes_of "hi"))));
   mkTurn 12 "there" (two_segs 20 (frames (reply 3 (bytes_of "there"))))].
Definition typed_stdin : list byte :=
  bytes_of "hi" ++ [x0a; x0a] ++ bytes_of " there" ++ [x0d; x0a] ++ bytes_of ":quit" ++ [x0a].
Definition echo_hello (t : Z) : list (Z * arrival) :=
  two_segs t (frames (auth_answer (echo_server 0) (auth_packet "secret"))).

Lemma cli_interactive_conversation_witness :
  let tm := mkTerm (mkWorld 0 [] [Connects 3 (echo_hello 3 ++ concat (tn_arrivals <$> typed_turns))]) [] [] in
  ∃ tm', RunInteractive DefaultClient Background typed_stdin (mkResolved "a" "secret" false false) "> " tm = Ret 0 tm' ∧
    tm_stdout tm' = ["> "; String.append "hi" newline; "> "; "> "; String.append "there" newline; "> "] ∧
    tm_stderr tm' = [].
Proof.
  intros tm. destruct (cli_interactive_conversation (echo_server 0) echo_handler None 0%nat typed_stdin
    ["hi"; ""; " there"; ":quit"] (mkResolved "a" "secret" false false) "> " tm typed_turns 3 10 (echo_hello 3)
    (two_segs 9 (frames (transcript "secret" ["hi"; "there"]))) []) as [_ HC].
  - discriminate.
  - vm_compute. reflexivity.
  - vm_compute. reflexivity.
  - vm_compute. discriminate.
  - repeat constructor; try discriminate; vm_compute; discriminate.
  - discriminate.
  - repeat split.
  - reflexivity.
  - reflexivity.
  - apply two_segs_delivered. reflexivity.
  - constructor; [apply two_segs_delivered; reflexivity|].
    constructor; [apply two_segs_delivered; reflexivity|constructor].
  - split; [discriminate|]. exists 12. split; [eexists; split; [|left]; vm_compute; discriminate|].
    split; [discriminate|]. exists 20. split; [eexists; split; [|left]; vm_compute; discriminate|done].
  - apply two_segs_delivered. reflexivity.
  - exact HC.
Defined.

(** C26: a command on the command line prints its output. Whatever the flags, the
    environment and the configuration file, if they resolve to a target in the
    default read mode (neither drain nor single-packet) and words are left for a
    command, [run] dials the target once; when the server there runs [serveConn]
    without a read timeout, its handler does not panic and the network answers
    within 5 seconds, [run] prints exactly what the server's handler wrote and a newline,
    and exits with code 0; when the server refuses the password, it prints that
    error only and exits with code 3. *)
Theorem cli_single_conversation {H} (srv : Server H) (handler : Server.Handler H) (doneCtx : option Context)
    (st0 : H) (tie : Z → bool) (meta : build) (os : system) (args : list string) (stdin : list byte)
    (tm : term) (fs : flagset) (cfg : Config) (target : Resolved)
    (t0 hi : Z) (hello reply1 arrive : list (Z * arrival)) (ds : list dial_answer) :
  let command := join (fs_args fs) in
  let out := written (command_run handler doneCtx command st0) in
  let password := rs_Password target in
  let w := tm_world tm in
  let T := Z.max (w_now w) t0 in
  Parse (fmt_quote os) (newFlagSet (defaultConfigPath (os_home os))) args = Parsed fs →
  fs_version fs = false → fs_args fs ≠ [] →
  LoadConfig (os_readFile os (fs_config fs)) (json_unmarshal os) (fs_config fs)
    (bool_decide ("config" ∈ fs_actual fs)) = Ok cfg →
  Resolve cfg (flags_of fs) (envFromOS (os_getenv os)) = Ok target →
  Drain target = false → SinglePacket target = false →
  Z.of_nat (len password) ≤ MaxPayloadSize → good_command command →
  ReadTimeout srv ≤ 0 → hr_panics (command_run handler doneCtx command st0) = false →
  w_dials w = Connects t0 (hello ++ reply1) :: ds →
  T < w_now w + Client.DefaultDialTimeout →
  delivered (T + DefaultDeadline) (frames (auth_answer srv (auth_packet password))) hello →
  delivered (T + DefaultDeadline) (frames (reply 1 out)) reply1 →
  delivered hi (frames (transcript password [command])) arrive →
  (∃ st', final (serveConn srv handler doneCtx (serving arrive st0)) = Some st' ∧
     (checkPassword srv password = true →
      nc_out (sv_conn st') = frames (auth_answer srv (auth_packet password)) ++ frames (reply 1 out))) ∧
  ∃ tm', run tie meta os args stdin tm = Ret (Returned (if checkPassword srv password then 0 else 3)) tm' ∧
    if checkPassword srv password
    then tm_stdout tm' = tm_stdout tm ++ [String.append (string_of out) newline] ∧ tm_stderr tm' = tm_stderr tm
    else tm_stdout tm' = tm_stdout tm ∧ tm_stderr tm' = tm_stderr tm ++ [ErrAuthFailed].
Proof.
  intros command out password w T HP Hv Hargs HL HRs Hdr Hsp Hpw Hg Hr Hn Hds HT Hhello Hrep Harr. split.
  { destruct (serve_transcript srv handler doneCtx password [command] arrive hi st0) as (st' & HF & _ & HS);
      [done|by constructor|done|by split|done|].
    exists st'. split; [done|]. intros Hok. rewrite Hok in HS. destruct HS as [-> _].
    cbn [outputs fst replies fmap list_fmap concat]. by rewrite app_nil_r. }
  destruct (Execute_talks srv tie (Address target) password command w t0 hello reply1 [] ds
    (T + DefaultDeadline) (T + DefaultDeadline) out) as (w' & HE); [by rewrite app_nil_r|done..|].
  unfold run. rewrite HP, Hv. cbv zeta. unfold run_parsed. rewrite HL, HRs. cbv zeta.
  assert (Client.New (target_opts target) = DefaultClient) as ->
    by (unfold target_opts; by rewrite Hdr, Hsp).
  destruct (fs_args fs) as [|arg args'] eqn:Hfa; [done|]. fold command.
  unfold RunSingle, in_term, zoom, bind at 1. fold w. fold password. rewrite HE.
  by destruct (checkPassword srv password); eexists.
Qed.

(** A machine without configuration, and a command for the echo server. *)
Definition bare_system : system :=
  mkSystem (λ _, "") (Ok "/root") (λ _, Err OsErrNotExist) (λ _, Err EOF) (λ s, s).
Definition single_args : list string := ["-host"; "h"; "-password=secret"; "hi"; "there"].

Lemma cli_single_conversation_witness :
  let tm := mkTerm (mkWorld 0 [] [Connects 3 (echo_hello 4 ++ two_segs 12 (frames (reply 1 (bytes_of "hi there"))))]) [] [] in
  ∃ tm', run (λ _, true) (mkBuild "dev" "none" "unknown") bare_system single_args [] tm = Ret (Returned 0) tm' ∧
    tm_stdout tm' = [String.append "hi there" newline] ∧ tm_stderr tm' = [].
Proof.
  intros tm.
  destruct (cli_single_conversation (echo_server 0) echo_handler None 0%nat (λ _, true)
    (mkBuild "dev" "none" "unknown") bare_system single_args [] tm
    (mkFS "h" 0 "secret" "/root/.rcon.json" "" false false false ["host"; "password"] ["hi"; "there"])
    (mkConfig "" ∅) (mkResolved "h:25575" "secret" false false) 3 10 (echo_hello 4)
    (two_segs 12 (frames (reply 1 (bytes_of "hi there"))))
    (two_segs 9 (frames (transcript "secret" ["hi there"]))) []) as [_ HC].
  - vm_compute. reflexivity.
  - reflexivity.
  - discriminate.
  - vm_compute. reflexivity.
  - vm_compute. reflexivity.
  - reflexivity.
  - reflexivity.
  - vm_compute. discriminate.
  - split; [discriminate|vm_compute; discriminate].
  - discriminate.
  - reflexivity.
  - reflexivity.
  - reflexivity.
  - apply two_segs_delivered. reflexivity.
  - apply two_segs_delivered. reflexivity.
  - apply two_segs_delivered. reflexivity.
  - exact HC.
Defined.
